(* ===== verification/_CoqProject ===== *)
-Q . S2P
Prelude.v
Values.v
Heap.v
Resource.v
Gc.v
GcCorrect.v
GcSpec.v
Tree.v
Alloc.v
Copy.v
Fragment.v
Runq.v
Mailbox.v
Symtab.v
Vm.v
Sched.v
Builtin.v
Ccall.v
Interp.v
Depth.v
Machine.v
Slice.v
Programs.v
Trace.v
Prof.v
Cmodule.v
Handle.v
Str.v
StrSpec.v
StrRefine.v
Sexp.v
SexpSpec.v
SexpRefine.v
Buffer.v
Registry.v
Vmmod.v
Net.v
NetSpec.v
Process.v
Tls.v
File.v
Time.v
Random.v
Encoding.v
Sha.v
Timer.v
Loader.v
Worker.v
Parking.v
Pool.v
