(* ===== verification/Prelude.v ===== *)
(** * Verification of the tinyactor runtime

    tinyactor runs compiled actor programs: a loader reads an image of words,
    an interpreter executes it one process at a time in slices, processes have
    private heaps with a copying collector and exchange messages by copying
    them into mailboxes, a pool of workers takes processes from a run queue and
    a poller wakes those that wait.  This library models that runtime from its
    C sources (src/src, src/lib, src/ta.h, src/ta_inline.h) and proves it
    correct.

    ** How C is modelled

    A C function is a Gallina function with its state passed explicitly, in the
    monad [outcome] below: a return, a deliberate stop of the process with its
    message, undefined behaviour, or exhausted fuel.  A theorem that an
    operation gives [Ret] therefore also says that it reads and writes inside
    its blocks, overflows no signed integer and does not stop the machine.
    Machine integers are [Z] with their wrap-around written out.  Values are
    64-bit words, NaN-boxed as in ta.h.  The C heap is a [store]: cells that
    hold objects by address, forwarded objects included, and a log of the
    destructors run.  [malloc] gives fresh addresses.  Mutexes have no state:
    what the code does under one lock is one step, and Pool.v, Timer.v and
    NetSpec.v let those steps interleave in any order.

    ** Files

    - Prelude: the monad, integers, lists.
    - Values (ta.h, src/val.c, src/num.c, the arithmetic of src/vm.c): boxing,
      tags, doubles as bit patterns, arithmetic at 48 bits, conversions.
    - Heap (ta.h, ta_inline.h): objects, the memory of a process ([ProcMem]),
      the chunk arena of a C call, the collection gate.
    - Resource (src/resource.c): ownership and release of C payloads.
    - Gc, GcCorrect, GcSpec (src/gc.c): the Cheney collector; its invariant
      while it runs; what a collection does to the reachable heap.
    - Tree: the abstract value a word denotes, the specification of all copies.
    - Alloc (ta_inline.h, src/val.c): allocation, reservation, push and pop,
      constructors, equality.
    - Copy, Fragment (src/val.c, src/scheduler.c): deep copy between heaps and
      into message fragments, with their explicit work stacks.
    - Runq, Mailbox (src/scheduler.c, src/builtin.c), Symtab (src/api.c): the
      ring buffer, the message list with its cursor, the interned symbols.
    - Vm (ta.h): the structs [Proc] and [VM].
    - Sched (src/scheduler.c): delivery, wait registration, birth and death.
    - Builtin (src/builtin.c, src/vm.c), Ccall (src/vm.c, src/val.c): the actor
      primitives, and calls into C modules.
    - Interp (src/vm.c): every instruction, [run_proc].
    - Depth, Machine, Slice, Programs: the stack discipline of the primitives;
      the refinement of the interpreter by a machine on trees; the bound of a
      slice; whole programs.
    - Trace (src/main.c, src/vm.c, src/scheduler.c), Prof (src/prof.c): the walk
      over the active calls, crash reports, and the sampling profiler.
    - Cmodule, Handle: what a C module function sees of the heap and may promise;
      the resource values modules keep their state behind.
    - Str, StrSpec, StrRefine (lib/str.c): the string functions, their loops
      against functions on byte lists, and the table of the module against
      their meaning.
    - Sexp, SexpSpec, SexpRefine (lib/sexp.c): the reader of s-expressions, the
      grammar and the reader's loops against it, the module and a printer.
    - Buffer (lib/buffer.c), Registry (src/api.c), Random (lib/random.c): the
      growing byte buffer, the table of C functions, the generator.
    - Vmmod (src/api.c): the vm module, with the token vectors of a process.
    - Net, NetSpec (lib/net.c): sockets, the registry of connects and the
      resolver thread; the registry under any interleaving, and the answers of
      a connect.
    - Process (lib/process.c): child processes with their pipes.
    - Tls (lib/tls.c), File (lib/file.c), Time (lib/time.c): connections over
      OpenSSL, files and directories, clocks and sleep.
    - Encoding (lib/encoding.c), Sha (lib/sha256.c): the codecs, and digests
      whose state is a value.
    - Timer (lib/timer.c): the timer list and its races.
    - Loader (src/main.c): parsing and linking of an image.
    - Worker (src/scheduler.c, src/api.c, src/main.c): creation of the machine,
      a worker's loop, the poller.
    - Parking, Pool: the scheduling invariant, and the pool of workers and the
      poller as a step relation.

    ** What is proved

    Memory: a collection keeps exactly the reachable heap up to renaming,
    finalises exactly the unreachable resources, and either makes the requested
    room or refuses without effect; pushes and pops round-trip across it.
    Messages: a message is copied in the announced size, denotes the same tree,
    and is received by the process it wakes.  Interpreter: every instruction
    inside a process refines a machine whose values are trees and which has no
    collector; calls and tail calls return where they should; a slice ends.
    Containers: run queue, mailbox and symbol table refine a FIFO, a sequence
    and a list of names; a buffer refines a byte list, the table of C functions
    a map from names, and token vectors arrays behind fresh handles.
    Modules: every string function computes its meaning on byte lists and
    allocates inside the window of the call; split and join, and integers and
    their text, round-trip; the reader of s-expressions accepts exactly an
    unambiguous grammar and reads back what a printer wrote; the generator is a
    bijection of its state of full period and [rand_int] is uniform; the
    encoders compute the codecs of their RFCs and round-trip; timers are never
    used after free inside the lock and fire in order; loading rewrites exactly
    the global references.  Network: the lists of requests and connects stay
    whole under any interleaving, nothing is leaked or used after free inside
    the lock, and a connect suspends its process only with a watch and a
    deadline.  Children: descriptors are closed once, children reaped once,
    and a child that cannot be started leaves nothing behind.  A TLS
    connection is freed once and its descriptor closed or given back;
    [mkdir_p] makes a path and its parents and stops at the first failure; a
    digest in pieces is that of the message; a sleep lasts its time whatever
    wakes the process.  Reports: the walk of a crash report and of the
    profiler returns the active calls, and the table of the profiler is the
    profile of the samples.
    Scheduling: a process is queued once, held by one worker, or parked and
    registered; no deadlock is reported while a process could run; the poller
    ends and wakes exactly the expired waits.

    Some theorems state defects: the slot a waiting [recv_after] leaves behind,
    the run queue counters that overflow, the symbol table after a failed
    allocation, the undefined 64-bit product, the registration that reads a
    freed timer, the linker's length of RET, the string functions whose sizes
    overflow, the buffer that doubles past the width of its capacity, the
    module entry lost by a failed growth, the index [vm.get_arg] does not check,
    the request the resolver reads after a worker freed it, the timeout that
    answers the next connect, the pipes a later child keeps open, the search of
    a profiler table that could not grow, the file and the path whose length the
    file module misjudges.

    ** Bounds and fuel

    A loop or recursion that is not structural takes fuel; [NoFuel] is its own
    outcome, so a theorem that gives [Ret] also says that the fuel was
    enough, and its hypothesis states how much: the rounds of the work stack
    for a copy ([nodes] and [steps] of the tree), 512 or six times the names
    for a symbol table, 1024 and three times the samples for the profiler,
    [1001 * (length + 1)] instructions for a slice on an image of that
    length, [n * (n + 1)] rounds for the expiry of [n] waits, one draw more
    than there are rejected numbers for [rand_int], two rounds a character
    for the recursion of the s-expression reader.  The collector gives its
    scan the size of to-space.

    ** Parameters

    C functions called by programs ([cfunc_code]), the opening of shared
    libraries by the loader, the clock, the process id and the answers of
    the socket calls, of [getaddrinfo], [fork], OpenSSL and the file system,
    the floating-point conversions of the C library ([strtod], the [%g] of
    [snprintf]), [qsort] and the addresses of stack buffers are arguments.
    Where a theorem needs something of them it is a hypothesis (a C function
    does not change the image, or the scheduling fields), with a witness
    that satisfies it.

    ** Not modelled

    The command line (src/main.c), the freeing of the machine (src/api.c), the
    formatting of reports and profiles: input, output and teardown.
    lib/os.c, math.c, cov.c, demo.c: calls of the C library and counters.
    Memory ordering: the atomics are sequentially consistent and every shared
    structure is under a lock, so steps interleave as wholes. *)
From stdpp Require Import base tactics list gmap strings.
From Stdlib Require Import ZArith Lia.
Open Scope Z_scope.

(** * Outcomes of C code

    [Ret] is a normal return.  [Abort] is a deliberate stop of the whole
    process: [abort()], [exit(1)], [fatal(msg)] and [ta_arena_fatal(what)] of
    the sources, with the message they print.  [Undef] is behaviour the C
    standard leaves undefined (an out-of-block read, a signed overflow, a
    double free): a theorem that an operation returns [Ret] therefore also
    shows that it is memory safe in this model.  [NoFuel] is not a behaviour of
    the code: it marks a loop whose fuel was too small, and the theorems show
    how much fuel is enough. *)
Inductive outcome (A : Type) : Type :=
| Ret (a : A)
| Abort (why : string)
| Undef
| NoFuel.
Arguments Ret {A} _.
Arguments Abort {A} _.
Arguments Undef {A}.
Arguments NoFuel {A}.

#[global] Instance outcome_ret : MRet outcome := fun A x => Ret x.
#[global] Instance outcome_bind : MBind outcome := fun A B f m =>
  match m with
  | Ret a => f a
  | Abort w => Abort w
  | Undef => Undef
  | NoFuel => NoFuel
  end.
#[global] Instance outcome_fmap : FMap outcome := fun A B f m =>
  match m with
  | Ret a => Ret (f a)
  | Abort w => Abort w
  | Undef => Undef
  | NoFuel => NoFuel
  end.

(** A read of something that may not be there: absent means undefined. *)
Definition or_undef {A} (o : option A) : outcome A :=
  match o with Some a => Ret a | None => Undef end.

Lemma bind_Ret {A B} (m : outcome A) (f : A → outcome B) (b : B) :
  (m ≫= f) = Ret b ↔ ∃ a, m = Ret a ∧ f a = Ret b.
Proof. destruct m; simpl; split; [eauto| |done| |done| |done|]; by intros (?&?&?); simplify_eq. Qed.

Lemma or_undef_Ret {A} (o : option A) (a : A) : or_undef o = Ret a ↔ o = Some a.
Proof. destruct o; simpl; naive_solver. Qed.

(** Decompose hypotheses of the form [m ≫= f = Ret b] into their steps. *)
Ltac unret :=
  repeat match goal with
  | H : (_ ≫= _) = Ret _ |- _ =>
      apply bind_Ret in H; destruct H as (?&?&?); simpl in *
  | H : or_undef _ = Ret _ |- _ => apply or_undef_Ret in H
  | H : Ret _ = Ret _ |- _ => injection H as H; subst
  | H : Abort _ = Ret _ |- _ => discriminate H
  | H : Undef = Ret _ |- _ => discriminate H
  | H : NoFuel = Ret _ |- _ => discriminate H
  end.

(** Case analysis on the scrutinee of the first [match] or [if] of a
    hypothesis, keeping the equation. *)
Ltac case_in H :=
  match type of H with
  | context [match ?x with _ => _ end] => destruct x eqn:?; simpl in H
  end.

(** * Machine integers

    A C integer of width [w] is a [Z]; conversions write the wrap-around out. *)
Definition u8 (z : Z) : Z := z mod 2 ^ 8.
Definition u16 (z : Z) : Z := z mod 2 ^ 16.
Definition u32 (z : Z) : Z := z mod 2 ^ 32.
Definition u64 (z : Z) : Z := z mod 2 ^ 64.

(** Two's-complement reading of the low [w] bits. *)
Definition signed (w z : Z) : Z :=
  let m := z mod 2 ^ w in if m <? 2 ^ (w - 1) then m else m - 2 ^ w.
Definition i32 (z : Z) : Z := signed 32 z.
Definition i64 (z : Z) : Z := signed 64 z.

Definition in_i32 (z : Z) : bool := (- 2 ^ 31 <=? z) && (z <? 2 ^ 31).
Definition in_i64 (z : Z) : bool := (- 2 ^ 63 <=? z) && (z <? 2 ^ 63).

(** Signed arithmetic at [int64_t]: overflow is undefined behaviour in C. *)
Definition chk32 (z : Z) : outcome Z := if in_i32 z then Ret z else Undef.
Definition chk64 (z : Z) : outcome Z := if in_i64 z then Ret z else Undef.

Lemma chk32_small z : 0 ≤ z < 2 ^ 31 → chk32 z = Ret z.
Proof.
  intros Hz. unfold chk32, in_i32. destruct (Z.leb_spec (- 2 ^ 31) z); [|lia].
  by destruct (Z.ltb_spec z (2 ^ 31)); [|lia].
Qed.

Lemma signed_small (w z : Z) :
  0 < w → - 2 ^ (w - 1) ≤ z < 2 ^ (w - 1) → signed w z = z.
Proof.
  intros Hw Hz. unfold signed.
  assert (Hp : 2 ^ w = 2 * 2 ^ (w - 1)).
  { rewrite <- Z.pow_succ_r by lia. f_equal. lia. }
  destruct (Z.ltb_spec (z mod 2 ^ w) (2 ^ (w - 1))) as [Hl|Hl].
  - destruct (Z_lt_le_dec z 0).
    + assert (Hm : z mod 2 ^ w = z + 2 ^ w).
      { symmetry. apply (Z.mod_unique_pos _ _ (-1)); lia. }
      lia.
    + apply Z.mod_small; lia.
  - destruct (Z_lt_le_dec z 0).
    + assert (Hm : z mod 2 ^ w = z + 2 ^ w).
      { symmetry. apply (Z.mod_unique_pos _ _ (-1)); lia. }
      lia.
    + rewrite Z.mod_small in Hl by lia. lia.
Qed.

Lemma signed_range (w z : Z) : 0 < w → - 2 ^ (w - 1) ≤ signed w z < 2 ^ (w - 1).
Proof.
  intros Hw. unfold signed.
  assert (Hp : 2 ^ w = 2 * 2 ^ (w - 1)).
  { rewrite <- Z.pow_succ_r by lia. f_equal. lia. }
  assert (0 < 2 ^ (w - 1)) by (apply Z.pow_pos_nonneg; lia).
  pose proof (Z.mod_pos_bound z (2 ^ w)).
  destruct (Z.ltb_spec (z mod 2 ^ w) (2 ^ (w - 1))); lia.
Qed.

Lemma signed_mod (w z : Z) : signed w (z mod 2 ^ w) = signed w z.
Proof. unfold signed. by rewrite Zmod_mod. Qed.

Lemma signed_cong (w z : Z) : 0 < w → signed w z mod 2 ^ w = z mod 2 ^ w.
Proof.
  intros Hw. unfold signed.
  destruct (Z.ltb_spec (z mod 2 ^ w) (2 ^ (w - 1))).
  - by rewrite Zmod_mod.
  - replace (z mod 2 ^ w - 2 ^ w) with (z mod 2 ^ w + (-1) * 2 ^ w) by lia.
    rewrite Z_mod_plus_full. by rewrite Zmod_mod.
Qed.

(** ** Bit fields: a disjoint [lor] is a sum. *)
Lemma lor_shiftl_add (hi lo n : Z) :
  0 ≤ n → 0 ≤ lo < 2 ^ n → Z.lor (Z.shiftl hi n) lo = hi * 2 ^ n + lo.
Proof.
  intros Hn Hlo. rewrite <- Z.add_lor_land.
  rewrite Z.shiftl_mul_pow2 by done.
  assert (Z.land (hi * 2 ^ n) lo = 0) as ->; [|lia].
  apply Z.bits_inj'. intros i Hi. rewrite Z.land_spec, Z.bits_0.
  destruct (Z_lt_le_dec i n).
  - by rewrite Z.mul_pow2_bits_low.
  - rewrite andb_false_iff; right.
    rewrite <- (Z.mod_small lo (2 ^ n)) by done. by apply Z.mod_pow2_bits_high.
Qed.

Lemma shiftr_field (hi lo n : Z) :
  0 ≤ n → 0 ≤ lo < 2 ^ n → Z.shiftr (hi * 2 ^ n + lo) n = hi.
Proof.
  intros Hn Hlo. rewrite Z.shiftr_div_pow2 by done.
  rewrite Z.div_add_l by lia. rewrite Z.div_small by done. lia.
Qed.

Lemma land_ones_field (hi lo n : Z) :
  0 ≤ n → 0 ≤ lo < 2 ^ n → Z.land (hi * 2 ^ n + lo) (Z.ones n) = lo.
Proof.
  intros Hn Hlo. rewrite Z.land_ones by done.
  rewrite Z.add_comm, Z_mod_plus_full. by apply Z.mod_small.
Qed.

(** * Alignment *)
Definition align8 (z : Z) : Z := Z.land (z + 7) (Z.lnot 7).

Lemma align8_eq (z : Z) : align8 z = 8 * ((z + 7) / 8).
Proof.
  unfold align8. rewrite <- Z.ldiff_land. change 7 with (Z.ones 3) at 2.
  rewrite Z.ldiff_ones_r by lia.
  rewrite Z.shiftl_mul_pow2, Z.shiftr_div_pow2 by lia. change (2 ^ 3) with 8. lia.
Qed.

Lemma align8_spec (z : Z) : align8 z mod 8 = 0 ∧ z ≤ align8 z < z + 8.
Proof. rewrite align8_eq. split; [rewrite Z.mul_comm; apply Z_mod_mult|Z.div_mod_to_equations; lia]. Qed.

Lemma align8_id (z : Z) : z mod 8 = 0 → align8 z = z.
Proof. rewrite align8_eq. intros. Z.div_mod_to_equations. lia. Qed.

(** * Folds that may fail *)
Fixpoint foldM {S A} (f : S → A → outcome S) (s : S) (l : list A) : outcome S :=
  match l with
  | [] => Ret s
  | x :: l => s' ← f s x; foldM f s' l
  end.

Lemma foldM_app {S A} (f : S → A → outcome S) s l1 l2 :
  foldM f s (l1 ++ l2) = (s' ← foldM f s l1; foldM f s' l2).
Proof. revert s. induction l1 as [|x l1 IH]; intros s; simpl; [done|].
  destruct (f s x); simpl; [apply IH|done..]. Qed.

(** An invariant of the steps is an invariant of the fold. *)
Lemma foldM_inv {S A} (P : S → Prop) (f : S → A → outcome S) (l : list A) (s s' : S) :
  (∀ s x s', x ∈ l → P s → f s x = Ret s' → P s') →
  P s → foldM f s l = Ret s' → P s'.
Proof.
  revert s. induction l as [|x l IH]; intros s Hf Hs Hr; simpl in Hr; unret; [done|].
  eapply IH; [|by eapply (Hf s x); [left| |]|done]. intros ??? Hin. apply Hf. by right.
Qed.

(** ** Filters *)
Lemma filter_all {A} (P : A → Prop) `{∀ x, Decision (P x)} (l : list A) : Forall P l → filter P l = l.
Proof. induction 1 as [|x l Hx _ IH]; [done|]. by rewrite filter_cons_True, IH. Qed.
Lemma filter_none {A} (P : A → Prop) `{∀ x, Decision (P x)} (l : list A) : Forall (λ x, ¬ P x) l → filter P l = [].
Proof. induction 1 as [|x l Hx _ IH]; [done|]. by rewrite filter_cons_False, IH. Qed.

(** ** Sums over lists *)
Definition sumZ (l : list Z) : Z := foldr Z.add 0 l.

Lemma sumZ_app l1 l2 : sumZ (l1 ++ l2) = sumZ l1 + sumZ l2.
Proof. induction l1; simpl; [done|]. unfold sumZ in *; simpl; lia. Qed.

Lemma sumZ_nonneg l : Forall (λ z, 0 ≤ z) l → 0 ≤ sumZ l.
Proof. induction 1; simpl; unfold sumZ in *; simpl; lia. Qed.

Lemma sumZ_submseteq l1 l2 :
  Forall (λ z, 0 ≤ z) l2 → l1 ⊆+ l2 → sumZ l1 ≤ sumZ l2.
Proof.
  intros Hl2 Hsub. induction Hsub as [|x l1 l2 _ IH|x y l|x l1 l2 Hs IH|l1 l2 l3 H1 IH1 H2 IH2].
  - done.
  - inversion Hl2; subst. specialize (IH H2). unfold sumZ in *; simpl; lia.
  - unfold sumZ; simpl; lia.
  - inversion Hl2; subst. specialize (IH H2). unfold sumZ in *; simpl; lia.
  - specialize (IH2 Hl2). etrans; [|exact IH2]. apply IH1.
    rewrite Forall_forall in *. intros z Hz. apply Hl2.
    eapply elem_of_submseteq; eauto.
Qed.

(** Hint database of the development: facts about sizes and layouts that
    close the routine side conditions. *)
Create HintDb ta discriminated.
Create Rewrite HintDb ta.
#[export] Hint Resolve sumZ_nonneg : ta.
