(* ===== verification/Values.v ===== *)
(** NaN-boxed values: the tag table and payload helpers of ta.h, the inline
    constructors, accessors and comparison gate of ta_inline.h, the
    out-of-line ones of src/val.c, the int/float conversions of src/num.c, and
    the arithmetic and comparison semantics of the opcodes of src/vm.c.

    A [Val] is a [uint64_t], here a [Z] in [[0, 2^64)].  A C [double] is
    Stdlib's executable IEEE-754 [spec_float] at binary64, and its storage is
    the bit pattern [double_bits]. *)
From stdpp Require Import base tactics list.
From Stdlib Require Import ZArith Lia SpecFloat.
From S2P Require Import Prelude.
Open Scope Z_scope.

Abbreviation Val := Z (only parsing).

(** * Tags *)
Definition TAG_INT : Z := 0xFFF1.
Definition TAG_NIL : Z := 0xFFF2.
Definition TAG_TRUE : Z := 0xFFF3.
Definition TAG_FALSE : Z := 0xFFF4.
Definition TAG_SYM : Z := 0xFFF5.
Definition TAG_PAIR : Z := 0xFFF6.
Definition TAG_PID : Z := 0xFFF7.
Definition TAG_CLOS : Z := 0xFFF8.
Definition TAG_STRING : Z := 0xFFF9.
Definition TAG_BYTES : Z := 0xFFFA.
Definition TAG_CLOS_ID : Z := 0xFFFB.
Definition TAG_RESOURCE : Z := 0xFFFC.
Definition TAG_FIRST : Z := TAG_INT.
Definition TAG_LAST : Z := TAG_RESOURCE.
Definition TAG_NATIVE : Z := 0xFFC1.

Definition PAYLOAD_MASK : Z := 0x0000FFFFFFFFFFFF.

Definition lpayload (v : Val) : Z := Z.land v PAYLOAD_MASK.
Definition lbox (tag payload : Z) : Val :=
  Z.lor (Z.shiftl (u16 tag) 48) (Z.land payload PAYLOAD_MASK).

Definition VAL_CANON_NAN : Z := 0x7FF8000000000000.

Definition val_tag (v : Val) : Z := u16 (Z.shiftr v 48).

(** src/val.c spells the same two operations with names of its own. *)
Definition box_tag_payload (tag payload : Z) : Val := lbox tag payload.
Definition val_payload48 (v : Val) : Z := lpayload v.
Definition val_payload32 (v : Val) : Z := u32 (Z.land v 0xFFFFFFFF).

(** * Constructors *)
Definition val_int (i : Z) : Val :=
  Z.lor (Z.shiftl TAG_INT 48) (Z.land (u64 i) PAYLOAD_MASK).
Definition val_nil : Val := box_tag_payload TAG_NIL 0.
Definition val_true : Val := box_tag_payload TAG_TRUE 0.
Definition val_false : Val := box_tag_payload TAG_FALSE 0.
Definition val_symbol (idx : Z) : Val := box_tag_payload TAG_SYM (u32 idx).
Definition val_pid (pid : Z) : Val := box_tag_payload TAG_PID (u32 pid).

(** * Predicates and accessors *)
Definition val_is_int (v : Val) : bool := val_tag v =? TAG_INT.
Definition val_is_nil (v : Val) : bool := val_tag v =? TAG_NIL.
Definition val_is_pair (v : Val) : bool := val_tag v =? TAG_PAIR.
Definition val_is_symbol (v : Val) : bool := val_tag v =? TAG_SYM.
Definition val_is_pid (v : Val) : bool := val_tag v =? TAG_PID.
Definition val_is_clos (v : Val) : bool := val_tag v =? TAG_CLOS.
Definition val_is_string (v : Val) : bool := val_tag v =? TAG_STRING.
Definition val_is_bytes (v : Val) : bool := val_tag v =? TAG_BYTES.
Definition val_is_true (v : Val) : bool :=
  negb (val_tag v =? TAG_NIL) && negb (val_tag v =? TAG_FALSE).
Definition val_is_float (v : Val) : bool :=
  let t := val_tag v in (t <? TAG_FIRST) || (TAG_LAST <? t).

Definition val_get_int (v : Val) : Z :=
  let u := Z.land v PAYLOAD_MASK in
  let u := if Z.land u 0x800000000000 =? 0 then u
           else Z.lor u 0xFFFF000000000000 in
  i64 u.
Definition val_get_symbol (v : Val) : Z := val_payload32 v.
Definition val_get_pid (v : Val) : Z := val_payload32 v.

(** * Doubles *)
Abbreviation double := spec_float (only parsing).
Definition D_PREC : Z := 53.
Definition D_EMAX : Z := 1024.

Definition double_bits (d : double) : Z :=
  match d with
  | S754_zero s => if s then 2 ^ 63 else 0
  | S754_infinity s => (if s then 2 ^ 63 else 0) + 0x7FF * 2 ^ 52
  | S754_nan => VAL_CANON_NAN
  | S754_finite s m e =>
      (if s then 2 ^ 63 else 0) +
      (if Z.pos m <? 2 ^ 52 then Z.pos m
       else (e + 1075) * 2 ^ 52 + (Z.pos m - 2 ^ 52))
  end.

Definition bits_double (u : Z) : double :=
  let s := Z.testbit u 63 in
  let e := Z.land (Z.shiftr u 52) 0x7FF in
  let m := Z.land u (Z.ones 52) in
  if e =? 0x7FF then (if m =? 0 then S754_infinity s else S754_nan)
  else if e =? 0 then
    match m with
    | Z.pos p => S754_finite s p (-1074)
    | _ => S754_zero s
    end
  else match m + 2 ^ 52 with
       | Z.pos p => S754_finite s p (e - 1075)
       | _ => S754_nan
       end.

(** The conversion [(double)i] of an integer, rounding to nearest-even. *)
Definition double_of_int (i : Z) : double := binary_normalize D_PREC D_EMAX i 0 false.

Definition dadd (a b : double) : double := SFadd D_PREC D_EMAX a b.
Definition dsub (a b : double) : double := SFsub D_PREC D_EMAX a b.
Definition dmul (a b : double) : double := SFmul D_PREC D_EMAX a b.
Definition ddiv (a b : double) : double := SFdiv D_PREC D_EMAX a b.
Definition dlt (a b : double) : bool := SFltb a b.
Definition dle (a b : double) : bool := SFleb a b.
Definition deq (a b : double) : bool := SFeqb a b.

(** The boxing step on a raw bit pattern: whichever NaN a floating-point unit
    produced, the canonical one is stored. *)
Definition val_from_bits (u : Z) : Val :=
  if 0xFFE0000000000000 <? u64 (Z.shiftl u 1) then VAL_CANON_NAN else u.
Definition val_from_double (d : double) : Val := val_from_bits (double_bits d).
Definition val_float (d : double) : Val := val_from_double d.
Definition val_get_float (v : Val) : double := bits_double v.
Definition val_to_double (v : Val) : double :=
  if val_is_float v then val_get_float v
  else if val_is_int v then double_of_int (val_get_int v)
  else S754_zero false.

Definition cmp_numeric_path (a b : Val) : bool :=
  (val_is_float a && (val_is_int b || val_is_float b)) ||
  (val_is_float b && (val_is_int a || val_is_float a)).

(** * Opcode arithmetic and comparison (src/vm.c) *)

(** [ARITH(oper)]: [int ∧ int] stays an int, everything else goes through
    doubles.  The C operator works at [int64_t], where overflow is undefined. *)
Definition arith (op : Z → Z → Z) (dop : double → double → double) (l acc : Val) : outcome Val :=
  if val_is_int l && val_is_int acc then
    r ← chk64 (op (val_get_int l) (val_get_int acc)); Ret (val_int r)
  else Ret (val_from_double (dop (val_to_double l) (val_to_double acc))).

(** [ARITH_I(oper)]: the right operand is the immediate word of the
    instruction. *)
Definition arith_i (op : Z → Z → Z) (dop : double → double → double) (l : Val) (b : Z) : outcome Val :=
  if val_is_int l then r ← chk64 (op (val_get_int l) b); Ret (val_int r)
  else Ret (val_from_double (dop (val_to_double l) (double_of_int b))).

(** Why an actor dies in the middle of an instruction. *)
Inductive die_reason := Divzero | Arithtype | Cartype | Cdrtype.

(** [op_div]; C's [/] truncates toward zero. *)
Definition op_div (l acc : Val) : outcome (Val + die_reason) :=
  if val_is_int l && val_is_int acc then
    let b := val_get_int acc in
    if b =? 0 then Ret (inr Divzero)
    else r ← chk64 (Z.quot (val_get_int l) b); Ret (inl (val_int r))
  else Ret (inl (val_from_double (ddiv (val_to_double l) (val_to_double acc)))).

(** [op_mod]; C's [%] has the sign of the dividend. *)
Definition op_mod (l acc : Val) : outcome (Val + die_reason) :=
  if negb (val_is_int l) || negb (val_is_int acc) then Ret (inr Arithtype)
  else
    let b := val_get_int acc in
    if b =? 0 then Ret (inr Divzero)
    else r ← chk64 (Z.rem (val_get_int l) b); Ret (inl (val_int r)).

(** The truth value computed by [CMP(oper)] and [JIF_CMP(oper)]. *)
Definition cmp_test (op : Z → Z → bool) (dop : double → double → bool) (l acc : Val) : bool :=
  if cmp_numeric_path l acc then dop (val_to_double l) (val_to_double acc)
  else val_is_int l && val_is_int acc && op (val_get_int l) (val_get_int acc).

Definition truth (b : bool) : Val := if b then val_true else val_false.

(** * src/num.c *)
Definition int_to_float (a : Val) : Val :=
  if negb (val_is_int a) then val_float (S754_zero false)
  else val_float (double_of_int (val_get_int a)).

(** A double whose value is an integer: what [trunc], and [fmod] by a power of
    two after it, produce (both are exact). *)
Inductive dint := DInt (z : Z) | DInf (s : bool) | DNan.

(** [trunc]: cut toward zero. *)
Definition truncZ (m : positive) (e : Z) : Z :=
  if 0 <=? e then Z.pos m * 2 ^ e else Z.pos m / 2 ^ (- e).
Definition trunc (d : double) : dint :=
  match d with
  | S754_zero _ => DInt 0
  | S754_infinity s => DInf s
  | S754_nan => DNan
  | S754_finite s m e => DInt (if s then - truncZ m e else truncZ m e)
  end.

(** C's [fmod] by [2^48]: the remainder has the sign of the dividend; the
    remainder of an infinity is a NaN. *)
Definition fmod48 (t : dint) : dint :=
  match t with
  | DInt z => DInt (Z.rem z 281474976710656)
  | _ => DNan
  end.

(** The tail shared by [float_to_int] and lib/math.c's [d_to_i48]; converting
    a NaN to [int64_t] is undefined. *)
Definition d_to_i48 (t : dint) : outcome Val :=
  match t with
  | DNan => Ret (val_int 0)
  | _ =>
      match fmod48 t with
      | DInt m =>
          let m := if 140737488355328 <=? m then m - 281474976710656 else m in
          Ret (val_int m)
      | _ => Undef
      end
  end.

Definition float_to_int (a : Val) : outcome Val :=
  if negb (val_is_float a) then Ret (val_int 0)
  else d_to_i48 (trunc (val_get_float a)).

#[global] Arguments lbox : simpl never.
#[global] Arguments lpayload : simpl never.
#[global] Arguments val_tag : simpl never.
#[global] Arguments val_int : simpl never.
#[global] Arguments val_get_int : simpl never.
#[global] Arguments val_get_float : simpl never.
#[global] Arguments val_from_double : simpl never.
#[global] Arguments val_to_double : simpl never.
#[global] Arguments val_is_float : simpl never.
#[global] Arguments trunc : simpl never.
#[global] Arguments fmod48 : simpl never.
#[global] Arguments d_to_i48 : simpl never.

(** * Facts about boxing *)
Lemma payload_mask_ones : PAYLOAD_MASK = Z.ones 48.
Proof. reflexivity. Qed.

Lemma lpayload_mod (v : Val) : lpayload v = v mod 2 ^ 48.
Proof. unfold lpayload. rewrite payload_mask_ones. by apply Z.land_ones. Qed.

Lemma lbox_eq (t p : Z) : lbox t p = u16 t * 2 ^ 48 + p mod 2 ^ 48.
Proof.
  unfold lbox. rewrite payload_mask_ones, Z.land_ones by lia.
  apply lor_shiftl_add; [lia|]. by apply Z.mod_pos_bound.
Qed.

Lemma lbox_tag (t p : Z) : val_tag (lbox t p) = u16 t.
Proof.
  unfold val_tag. rewrite lbox_eq, shiftr_field; [|lia|by apply Z.mod_pos_bound].
  unfold u16. by rewrite Zmod_mod.
Qed.

Lemma lbox_payload (t p : Z) : lpayload (lbox t p) = p mod 2 ^ 48.
Proof.
  unfold lpayload. rewrite lbox_eq, payload_mask_ones.
  apply land_ones_field; [lia|]. by apply Z.mod_pos_bound.
Qed.

Lemma lbox_range (t p : Z) : 0 ≤ lbox t p < 2 ^ 64.
Proof.
  rewrite lbox_eq. unfold u16.
  pose proof (Z.mod_pos_bound t (2 ^ 16) ltac:(lia)).
  pose proof (Z.mod_pos_bound p (2 ^ 48) ltac:(lia)). lia.
Qed.

Lemma val_split (v : Val) : 0 ≤ v < 2 ^ 64 → v = val_tag v * 2 ^ 48 + lpayload v.
Proof.
  intros Hv. rewrite lpayload_mod. unfold val_tag, u16.
  rewrite Z.shiftr_div_pow2 by lia.
  rewrite (Z.mod_small (v / 2 ^ 48)) by (split; [apply Z.div_pos; lia|apply Z.div_lt_upper_bound; lia]).
  pose proof (Z.div_mod v (2 ^ 48)). lia.
Qed.

(** A value is determined by its tag and its payload. *)
Lemma lbox_tag_payload (v : Val) : 0 ≤ v < 2 ^ 64 → lbox (val_tag v) (lpayload v) = v.
Proof.
  intros Hv. rewrite lbox_eq. rewrite (val_split v Hv) at 3.
  rewrite lpayload_mod, Zmod_mod. f_equal. f_equal. unfold u16, val_tag, u16.
  by rewrite Zmod_mod.
Qed.

Lemma lbox_inj (t t' p p' : Z) :
  0 ≤ t < 2 ^ 16 → 0 ≤ t' < 2 ^ 16 → 0 ≤ p < 2 ^ 48 → 0 ≤ p' < 2 ^ 48 →
  lbox t p = lbox t' p' → t = t' ∧ p = p'.
Proof.
  rewrite !lbox_eq. unfold u16. intros ? ? ? ?. rewrite !Z.mod_small by done. lia.
Qed.

#[export] Hint Rewrite lbox_tag lbox_payload : ta.

Lemma val_int_lbox (i : Z) : val_int i = lbox TAG_INT i.
Proof.
  unfold val_int, lbox. f_equal. rewrite payload_mask_ones, !Z.land_ones by lia.
  unfold u64. apply Z.mod_mod_divide. by exists (2 ^ 16).
Qed.

Lemma val_int_tag (i : Z) : val_tag (val_int i) = TAG_INT.
Proof. by rewrite val_int_lbox, lbox_tag. Qed.

Lemma val_get_int_signed (v : Val) : val_get_int v = signed 48 v.
Proof.
  unfold val_get_int. rewrite payload_mask_ones, Z.land_ones by lia.
  set (m := v mod 2 ^ 48).
  assert (Hm : 0 ≤ m < 2 ^ 48) by (by apply Z.mod_pos_bound).
  assert (Hb : Z.land m 0x800000000000 = if m <? 2 ^ 47 then 0 else 2 ^ 47).
  { change 0x800000000000 with (Z.shiftl 1 47).
    destruct (Z.ltb_spec m (2 ^ 47)) as [Hl|Hl]; apply Z.bits_inj'; intros i Hi;
      rewrite Z.land_spec, Z.shiftl_1_l.
    - rewrite Z.bits_0. destruct (decide (i = 47)) as [->|].
      + rewrite Z.bits_above_log2; [done|lia|].
        destruct (decide (m = 0)) as [->|]; [done|]. apply Z.log2_lt_pow2; lia.
      + rewrite Z.pow2_bits_false by done. by rewrite andb_false_r.
    - destruct (decide (i = 47)) as [->|].
      + rewrite Z.pow2_bits_true by lia. rewrite andb_true_r.
        replace m with ((m - 2 ^ 47) + 1 * 2 ^ 47) by lia.
        rewrite <- (Z.mod_small (m - 2 ^ 47) (2 ^ 47)) by lia.
        rewrite Z.add_comm, <- lor_shiftl_add; [|lia|by apply Z.mod_pos_bound].
        rewrite Z.lor_spec, Z.shiftl_spec by lia. done.
      + rewrite Z.pow2_bits_false by done. by rewrite andb_false_r. }
  rewrite Hb. unfold signed. fold m. change (48 - 1) with 47.
  destruct (Z.ltb_spec m (2 ^ 47)) as [Hl|Hl]; simpl Z.eqb; cbv iota.
  - apply signed_small; lia.
  - change (2 ^ 47 =? 0) with false. cbv iota.
    rewrite Z.lor_comm. change 0xFFFF000000000000 with (Z.shiftl 0xFFFF 48).
    rewrite lor_shiftl_add by lia. unfold i64.
    rewrite <- (signed_mod 64).
    replace (65535 * 2 ^ 48 + m) with ((m - 2 ^ 48) + 1 * 2 ^ 64) by lia.
    rewrite Z_mod_plus_full, signed_mod. apply signed_small; lia.
Qed.

Lemma val_get_int_range (v : Val) : - 2 ^ 47 ≤ val_get_int v < 2 ^ 47.
Proof. rewrite val_get_int_signed. by apply (signed_range 48). Qed.

Lemma get_int_val_int (i : Z) : val_get_int (val_int i) = signed 48 i.
Proof.
  rewrite val_get_int_signed, val_int_lbox, lbox_eq.
  rewrite <- (signed_mod 48). rewrite Z.add_comm, Z_mod_plus_full, Zmod_mod.
  apply signed_mod.
Qed.

Lemma val_get_int_id (i : Z) : - 2 ^ 47 ≤ i < 2 ^ 47 → val_get_int (val_int i) = i.
Proof. intros. rewrite get_int_val_int. by apply signed_small. Qed.

Lemma val_is_float_tag (v : Val) :
  val_is_float v = false ↔ TAG_FIRST ≤ val_tag v ≤ TAG_LAST.
Proof. unfold val_is_float. rewrite orb_false_iff, Z.ltb_ge, Z.ltb_ge. done. Qed.

Lemma val_is_int_true (v : Val) : val_is_int v = true ↔ val_tag v = TAG_INT.
Proof. unfold val_is_int. apply Z.eqb_eq. Qed.

Lemma val_int_is_int (i : Z) : val_is_int (val_int i) = true.
Proof. apply val_is_int_true, val_int_tag. Qed.

(** Only an int tag makes an int, and ints are never floats. *)
Lemma val_int_not_float (v : Val) : val_is_int v = true → val_is_float v = false.
Proof. rewrite val_is_int_true. intros E. apply val_is_float_tag. rewrite E. by split. Qed.

(** ** The fields of a double *)
Lemma u64_fields (u : Z) :
  0 ≤ u < 2 ^ 64 →
  ∃ (s : bool) (e m : Z), 0 ≤ e < 2048 ∧ 0 ≤ m < 2 ^ 52 ∧
    u = (if s then 2 ^ 63 else 0) + e * 2 ^ 52 + m ∧
    Z.testbit u 63 = s ∧ Z.land (Z.shiftr u 52) 0x7FF = e ∧ Z.land u (Z.ones 52) = m.
Proof.
  intros Hu. exists (Z.testbit u 63), (Z.land (Z.shiftr u 52) 0x7FF), (Z.land u (Z.ones 52)).
  change 0x7FF with (Z.ones 11). rewrite !Z.land_ones, Z.shiftr_div_pow2 by lia.
  change (2 ^ 11) with 2048.
  assert (Ht : Z.testbit u 63 = (2 ^ 63 <=? u)).
  { rewrite Z.testbit_odd, Z.shiftr_div_pow2 by lia.
    destruct (Z.leb_spec (2 ^ 63) u).
    - replace (u / 2 ^ 63) with 1; [done|]. apply Z.div_unique_pos with (u - 2 ^ 63); lia.
    - by rewrite Z.div_small by lia. }
  rewrite Ht.
  assert (Hq : 0 ≤ u / 2 ^ 52 < 4096) by (split; [apply Z.div_pos|apply Z.div_lt_upper_bound]; lia).
  pose proof (Z.div_mod u (2 ^ 52) ltac:(lia)).
  pose proof (Z.mod_pos_bound u (2 ^ 52) ltac:(lia)).
  pose proof (Z.mod_pos_bound (u / 2 ^ 52) 2048 ltac:(lia)).
  repeat split; try lia.
  destruct (Z.leb_spec (2 ^ 63) u).
  - assert ((u / 2 ^ 52) mod 2048 = u / 2 ^ 52 - 2048); [|lia].
    symmetry. apply Z.mod_unique_pos with 1; lia.
  - rewrite Z.mod_small; lia.
Qed.

(** A bit pattern is a NaN when its exponent is all ones and its mantissa is
    not zero: the shape the boxing test recognises. *)
Definition is_nan_bits (u : Z) : bool :=
  (Z.land (Z.shiftr u 52) 0x7FF =? 0x7FF) && negb (Z.land u (Z.ones 52) =? 0).

Lemma shl1_nan (u : Z) :
  0 ≤ u < 2 ^ 64 → (0xFFE0000000000000 <? u64 (Z.shiftl u 1)) = is_nan_bits u.
Proof.
  intros Hu. destruct (u64_fields u Hu) as (s&e&m&He&Hm&Eu&_&Ee&Em).
  unfold is_nan_bits. rewrite Ee, Em, Z.shiftl_mul_pow2 by lia. unfold u64.
  assert (Ew : (u * 2 ^ 1) mod 2 ^ 64 = e * 2 ^ 53 + 2 * m).
  { symmetry. apply Z.mod_unique_pos with (if s then 1 else 0); [lia|destruct s; lia]. }
  rewrite Ew. apply eq_true_iff_eq.
  rewrite Z.ltb_lt, andb_true_iff, negb_true_iff, Z.eqb_eq, Z.eqb_neq. lia.
Qed.

Lemma val_from_bits_eq (u : Z) :
  0 ≤ u < 2 ^ 64 → val_from_bits u = if is_nan_bits u then VAL_CANON_NAN else u.
Proof. intros Hu. unfold val_from_bits. by rewrite shl1_nan. Qed.

Lemma not_nan_is_float (u : Z) :
  0 ≤ u < 2 ^ 64 → is_nan_bits u = false → val_is_float u = true.
Proof.
  intros Hu Hn. destruct (u64_fields u Hu) as (s&e&m&He&Hm&Eu&_&Ee&Em).
  unfold is_nan_bits in Hn. rewrite Ee, Em in Hn.
  destruct (val_is_float u) eqn:Hf; [done|].
  apply val_is_float_tag in Hf. unfold TAG_FIRST, TAG_LAST, TAG_INT, TAG_RESOURCE in Hf.
  rewrite (val_split u Hu) in Eu. pose proof (Z.mod_pos_bound u (2 ^ 48) ltac:(lia)) as Hp.
  rewrite <- lpayload_mod in Hp.
  assert (e = 2047 ∧ m ≠ 0) as [-> Hm0] by (destruct s; lia).
  simpl in Hn. rewrite negb_false_iff, Z.eqb_eq in Hn. done.
Qed.

Lemma bits_double_bits (u : Z) :
  0 ≤ u < 2 ^ 64 → is_nan_bits u = false → double_bits (bits_double u) = u.
Proof.
  intros Hu Hn. destruct (u64_fields u Hu) as (s&e&m&He&Hm&Eu&Es&Ee&Em).
  unfold is_nan_bits in Hn. unfold bits_double. rewrite Es, Ee, Em in *.
  destruct (Z.eqb_spec e 0x7FF) as [->|].
  { simpl in Hn. rewrite negb_false_iff in Hn. rewrite Hn. apply Z.eqb_eq in Hn.
    simpl. lia. }
  destruct (Z.eqb_spec e 0) as [->|].
  - destruct m as [|p|p]; simpl in *; [lia| |lia].
    destruct (Z.ltb_spec (Z.pos p) (2 ^ 52)); simpl in *; lia.
  - destruct (m + 2 ^ 52) as [|p|p] eqn:Ep; [lia| |lia]. unfold double_bits.
    destruct (Z.ltb_spec (Z.pos p) (2 ^ 52)); lia.
Qed.

Lemma val_from_get_float (v : Val) :
  0 ≤ v < 2 ^ 64 → is_nan_bits v = false ∨ v = VAL_CANON_NAN →
  val_from_double (val_get_float v) = v.
Proof.
  intros Hv [Hn| ->]; [|reflexivity].
  unfold val_from_double, val_get_float. rewrite bits_double_bits by done.
  rewrite val_from_bits_eq by done. by rewrite Hn.
Qed.

Lemma is_nan_range (u : Z) : is_nan_bits VAL_CANON_NAN = true ∧ val_is_float VAL_CANON_NAN = true.
Proof. by split. Qed.

(** ** Integer arithmetic at int48 *)
Lemma chk64_ok (z : Z) : - 2 ^ 63 ≤ z < 2 ^ 63 → chk64 z = Ret z.
Proof.
  intros Hz. unfold chk64, in_i64.
  rewrite (proj2 (Z.leb_le _ _)), (proj2 (Z.ltb_lt _ _)) by lia. done.
Qed.

Lemma chk64_undef (z : Z) : z < - 2 ^ 63 ∨ 2 ^ 63 ≤ z → chk64 z = Undef.
Proof.
  intros Hz. unfold chk64, in_i64.
  destruct (Z.leb_spec (- 2 ^ 63) z), (Z.ltb_spec z (2 ^ 63)); simpl; try done; lia.
Qed.

Lemma quot_range (a b : Z) :
  - 2 ^ 47 ≤ a < 2 ^ 47 → b ≠ 0 → - 2 ^ 63 ≤ Z.quot a b < 2 ^ 63.
Proof.
  intros Ha Hb. pose proof (Z.quot_abs a b Hb).
  pose proof (Z.quot_le_upper_bound (Z.abs a) (Z.abs b) (2 ^ 47)). nia.
Qed.

Lemma rem_range (a b : Z) : - 2 ^ 47 ≤ a < 2 ^ 47 → b ≠ 0 → - 2 ^ 63 ≤ Z.rem a b < 2 ^ 63.
Proof.
  intros Ha Hb. pose proof (Z.rem_bound_abs a b Hb) as H.
  destruct (Z_le_gt_dec 0 a).
  - pose proof (Z.rem_nonneg a b Hb). pose proof (Z.rem_le a (Z.abs b)).
    rewrite <- (Z.rem_abs_r a b) in * by done. lia.
  - pose proof (Z.rem_nonpos a b Hb ltac:(lia)).
    pose proof (Z.rem_le (- a) (Z.abs b) ltac:(lia) ltac:(lia)) as Hr.
    rewrite Z.rem_opp_l in Hr by lia.
    rewrite <- (Z.rem_abs_r a b) in * by done. lia.
Qed.

Lemma trunc_rem_wrap (z : Z) :
  let m := Z.rem z 281474976710656 in
  val_int (if 140737488355328 <=? m then m - 281474976710656 else m) = val_int z.
Proof.
  intros m. rewrite !val_int_lbox, !lbox_eq. f_equal.
  pose proof (Z.quot_rem' z 281474976710656) as Hq. fold m in Hq.
  assert (Hz : z mod 2 ^ 48 = m mod 2 ^ 48).
  { rewrite Hq. rewrite Z.add_comm, Z.mul_comm. apply (Z_mod_plus_full m _ (2 ^ 48)). }
  rewrite Hz. destruct (140737488355328 <=? m); [|done].
  replace (m - 281474976710656) with (m + (-1) * 2 ^ 48) by lia.
  apply Z_mod_plus_full.
Qed.

(** * Properties *)

(** Boxing an integer and reading it back keeps exactly its low 48 bits,
    read in two's complement: [val_get_int (val_int i)] is [i] wrapped to
    int48, for every [i]. *)
Theorem val_int_get_int (i : Z) : val_get_int (val_int i) = signed 48 i.
Proof. apply get_int_val_int. Qed.

(** No double is ever mistaken for a tagged value: whatever bit pattern a
    double has, its box is a float, it is stored bit for bit unless it is a
    NaN, and every NaN is stored as the canonical one. *)
Theorem val_from_bits_float (u : Z) :
  0 ≤ u < 2 ^ 64 →
  val_is_float (val_from_bits u) = true ∧
  (is_nan_bits u = false → val_from_bits u = u) ∧
  (is_nan_bits u = true → val_from_bits u = VAL_CANON_NAN).
Proof.
  intros Hu. rewrite val_from_bits_eq by done.
  destruct (is_nan_bits u) eqn:Hn; [done|].
  split; [by apply not_nan_is_float|done].
Qed.

(** -Inf and the all-ones NaN, at their bit patterns. *)
Lemma val_from_bits_float_witness :
  val_is_float (val_from_bits 0xFFF0000000000000) = true ∧
  val_from_bits 0xFFFFFFFFFFFFFFFF = VAL_CANON_NAN.
Proof.
  split.
  - apply (val_from_bits_float 0xFFF0000000000000). lia.
  - apply (val_from_bits_float 0xFFFFFFFFFFFFFFFF); [lia|reflexivity].
Defined.

(** Unboxing a float and boxing it again is the identity on every float
    value the runtime can hold (the canonical NaN and everything that is not
    a NaN). *)
Theorem float_box_roundtrip (v : Val) :
  0 ≤ v < 2 ^ 64 → is_nan_bits v = false ∨ v = VAL_CANON_NAN →
  val_from_double (val_get_float v) = v.
Proof. apply val_from_get_float. Qed.

(** 2.5 and the least subnormal. *)
Lemma float_box_roundtrip_witness :
  val_from_double (val_get_float 0x4004000000000000) = 0x4004000000000000 ∧
  val_from_double (val_get_float 1) = 1.
Proof.
  split.
  - apply (float_box_roundtrip 0x4004000000000000); [lia|left; reflexivity].
  - apply (float_box_roundtrip 1); [lia|left; reflexivity].
Defined.

(** Every 64-bit value belongs to exactly one of the thirteen kinds the
    runtime distinguishes: float, or one of the twelve tags. *)
Theorem val_kinds_partition (v : Val) :
  length (filter Is_true
    [val_is_float v; val_is_int v; val_is_nil v; val_tag v =? TAG_TRUE;
     val_tag v =? TAG_FALSE; val_is_symbol v; val_is_pair v; val_is_pid v;
     val_is_clos v; val_is_string v; val_is_bytes v; val_tag v =? TAG_CLOS_ID;
     val_tag v =? TAG_RESOURCE]) = 1%nat.
Proof.
  destruct (val_is_float v) eqn:Hf.
  - unfold val_is_float, TAG_FIRST, TAG_LAST in Hf.
    unfold val_is_int, val_is_nil, val_is_symbol, val_is_pair, val_is_pid, val_is_clos,
      val_is_string, val_is_bytes.
    unfold TAG_INT, TAG_NIL, TAG_TRUE, TAG_FALSE, TAG_SYM, TAG_PAIR, TAG_PID, TAG_CLOS,
      TAG_STRING, TAG_BYTES, TAG_CLOS_ID, TAG_RESOURCE in *.
    repeat match goal with |- context [?t =? ?c] =>
      destruct (Z.eqb_spec t c) as [E|_]; [rewrite E in Hf; discriminate Hf|] end.
    reflexivity.
  - apply val_is_float_tag in Hf. unfold TAG_FIRST, TAG_LAST, TAG_INT, TAG_RESOURCE in Hf.
    unfold val_is_int, val_is_nil, val_is_symbol, val_is_pair, val_is_pid, val_is_clos,
      val_is_string, val_is_bytes.
    assert (∃ k, val_tag v = 0xFFF1 + k ∧ 0 ≤ k < 12) as (k&->&Hk)
      by (exists (val_tag v - 0xFFF1); lia).
    assert (k = 0 ∨ k = 1 ∨ k = 2 ∨ k = 3 ∨ k = 4 ∨ k = 5 ∨ k = 6 ∨ k = 7 ∨ k = 8 ∨ k = 9 ∨
            k = 10 ∨ k = 11) as Hc by lia.
    destruct_or! Hc; subst; reflexivity.
Qed.

(** [+] and [-] on two ints never overflow the [int64_t] they compute in,
    yield an int, and that int is the exact result wrapped to int48. *)
Theorem arith_int_wraps (l r : Val) :
  val_is_int l = true → val_is_int r = true →
  (∃ v, arith Z.add dadd l r = Ret v ∧ val_is_int v = true ∧
        val_get_int v = signed 48 (val_get_int l + val_get_int r)) ∧
  (∃ v, arith Z.sub dsub l r = Ret v ∧ val_is_int v = true ∧
        val_get_int v = signed 48 (val_get_int l - val_get_int r)).
Proof.
  intros Hl Hr. unfold arith. rewrite Hl, Hr. simpl.
  pose proof (val_get_int_range l). pose proof (val_get_int_range r).
  split; (rewrite chk64_ok by lia); simpl; eexists; (split; [done|]);
    (split; [apply val_int_is_int|apply get_int_val_int]).
Qed.

Lemma arith_int_wraps_witness :
  ∃ v, arith Z.add dadd (val_int (2 ^ 47 - 1)) (val_int 1) = Ret v ∧ val_is_int v = true ∧
       val_get_int v = signed 48 (val_get_int (val_int (2 ^ 47 - 1)) + val_get_int (val_int 1)).
Proof. apply (arith_int_wraps (val_int (2 ^ 47 - 1)) (val_int 1)); reflexivity. Defined.

(** The product of two ints is computed at [int64_t], so [*] yields the
    product wrapped to int48 exactly when it fits in 64 bits; two int48
    operands reach 2^94, and beyond 2^63 the multiplication overflows, which C
    leaves undefined. *)
Theorem arith_mul_int (l r : Val) :
  val_is_int l = true → val_is_int r = true →
  let z := val_get_int l * val_get_int r in
  (- 2 ^ 63 ≤ z < 2 ^ 63 → arith Z.mul dmul l r = Ret (val_int z)) ∧
  (z < - 2 ^ 63 ∨ 2 ^ 63 ≤ z → arith Z.mul dmul l r = Undef).
Proof.
  intros Hl Hr z. unfold arith. rewrite Hl, Hr. simpl. fold z.
  split; intros Hz; [by rewrite chk64_ok|by rewrite chk64_undef].
Qed.

Lemma arith_mul_int_witness :
  arith Z.mul dmul (val_int (2 ^ 40)) (val_int (2 ^ 40)) = Undef ∧
  arith Z.mul dmul (val_int 6) (val_int 7) = Ret (val_int 42).
Proof.
  split.
  - apply (arith_mul_int (val_int (2 ^ 40)) (val_int (2 ^ 40))); [done|done|right]. vm_compute. done.
  - apply (arith_mul_int (val_int 6) (val_int 7)); [done|done|]. vm_compute. by split.
Defined.

(** Integer division and modulo never overflow; a zero divisor is the
    ['divzero] death of the actor, a non-integer operand of [%] the
    ['arithtype] one, and otherwise the result is C's truncating quotient and
    remainder. *)
Theorem div_mod_int (l r : Val) :
  val_is_int l = true → val_is_int r = true →
  let a := val_get_int l in let b := val_get_int r in
  (b = 0 → op_div l r = Ret (inr Divzero) ∧ op_mod l r = Ret (inr Divzero)) ∧
  (b ≠ 0 → op_div l r = Ret (inl (val_int (Z.quot a b))) ∧
           op_mod l r = Ret (inl (val_int (Z.rem a b)))).
Proof.
  intros Hl Hr a b. unfold op_div, op_mod. rewrite Hl, Hr. simpl. fold a b.
  pose proof (val_get_int_range l) as Ha. fold a in Ha.
  destruct (Z.eqb_spec b 0) as [->|Hb]; (split; [intros Hz|intros Hz]); try done.
  rewrite !chk64_ok by (apply quot_range || apply rem_range; done). done.
Qed.

Lemma div_mod_int_witness :
  op_div (val_int (-7)) (val_int 2) = Ret (inl (val_int (-3))) ∧
  op_mod (val_int (-7)) (val_int 0) = Ret (inr Divzero).
Proof.
  split.
  - apply (div_mod_int (val_int (-7)) (val_int 2)); done.
  - apply (div_mod_int (val_int (-7)) (val_int 0)); done.
Defined.

(** C18: boxing is faithful: an integer comes back as its low 48 bits in two's
    complement, a float the runtime can hold comes back bit for bit, a double
    is never mistaken for a tagged value, and every 64-bit word has exactly
    one of the thirteen kinds. *)
Theorem value_boxing (i : Z) (v : Val) :
  0 ≤ v < 2 ^ 64 →
  val_get_int (val_int i) = signed 48 i ∧
  (is_nan_bits v = false ∨ v = VAL_CANON_NAN → val_from_double (val_get_float v) = v) ∧
  val_is_float (val_from_bits v) = true ∧
  length (filter Is_true
    [val_is_float v; val_is_int v; val_is_nil v; val_tag v =? TAG_TRUE;
     val_tag v =? TAG_FALSE; val_is_symbol v; val_is_pair v; val_is_pid v;
     val_is_clos v; val_is_string v; val_is_bytes v; val_tag v =? TAG_CLOS_ID;
     val_tag v =? TAG_RESOURCE]) = 1%nat.
Proof.
  intros Hv. split; [apply val_int_get_int|]. split; [by apply float_box_roundtrip|].
  split; [by apply val_from_bits_float|apply val_kinds_partition].
Qed.
(** 2.5. *)
Lemma value_boxing_witness :
  val_from_double (val_get_float 0x4004000000000000) = 0x4004000000000000 ∧ val_is_float (val_from_bits 0x4004000000000000) = true.
Proof.
  destruct (value_boxing 0 0x4004000000000000) as (_&H&Hf&_); [lia|]. split; [apply H; left; reflexivity|exact Hf].
Defined.

(** C19: integer arithmetic: [+] and [-] of two ints never overflow the
    [int64_t] they are computed in and wrap to int48; a product does so exactly
    when it fits 64 bits and is undefined beyond; division and modulo truncate,
    and a zero divisor is the ['divzero] death. *)
Theorem int_arith_spec (l r : Val) :
  val_is_int l = true → val_is_int r = true →
  let a := val_get_int l in let b := val_get_int r in
  (∃ v, arith Z.add dadd l r = Ret v ∧ val_is_int v = true ∧ val_get_int v = signed 48 (a + b)) ∧
  (∃ v, arith Z.sub dsub l r = Ret v ∧ val_is_int v = true ∧ val_get_int v = signed 48 (a - b)) ∧
  (- 2 ^ 63 ≤ a * b < 2 ^ 63 → arith Z.mul dmul l r = Ret (val_int (a * b))) ∧
  (a * b < - 2 ^ 63 ∨ 2 ^ 63 ≤ a * b → arith Z.mul dmul l r = Undef) ∧
  (b = 0 → op_div l r = Ret (inr Divzero) ∧ op_mod l r = Ret (inr Divzero)) ∧
  (b ≠ 0 → op_div l r = Ret (inl (val_int (Z.quot a b))) ∧ op_mod l r = Ret (inl (val_int (Z.rem a b)))).
Proof.
  intros Hl Hr a b. destruct (arith_int_wraps l r Hl Hr) as [H1 H2]. destruct (arith_mul_int l r Hl Hr) as [H3 H4].
  destruct (div_mod_int l r Hl Hr) as [H5 H6]. done.
Qed.
Lemma int_arith_witness :
  arith Z.mul dmul (val_int (2 ^ 40)) (val_int (2 ^ 40)) = Undef ∧ op_div (val_int (-7)) (val_int 2) = Ret (inl (val_int (-3))).
Proof.
  split.
  - destruct (int_arith_spec (val_int (2 ^ 40)) (val_int (2 ^ 40))) as (_&_&_&H&_); [done|done|]. apply H. right. vm_compute. done.
  - destruct (int_arith_spec (val_int (-7)) (val_int 2)) as (_&_&_&_&_&H); [done|done|]. apply H. done.
Defined.

(** [float.to_int] truncates a finite float toward zero and wraps the
    result to int48, sends NaN to 0, and on an infinity converts the NaN that
    [fmod] returns to [int64_t], which is undefined. *)
Theorem float_to_int_spec (v : Val) :
  val_is_float v = true →
  match trunc (val_get_float v) with
  | DInt z => float_to_int v = Ret (val_int z)
  | DNan => float_to_int v = Ret (val_int 0)
  | DInf _ => float_to_int v = Undef
  end.
Proof.
  intros Hv. unfold float_to_int. rewrite Hv. cbn [negb].
  destruct (trunc (val_get_float v)) as [z|s|]; [|done|done]. unfold d_to_i48, fmod48.
  f_equal. apply trunc_rem_wrap.
Qed.

(** -3.75, and +Inf. *)
Lemma float_to_int_witness :
  float_to_int 0xC00E000000000000 = Ret (val_int (-3)) ∧
  float_to_int 0x7FF0000000000000 = Undef.
Proof.
  split.
  - apply (float_to_int_spec 0xC00E000000000000); reflexivity.
  - apply (float_to_int_spec 0x7FF0000000000000); reflexivity.
Defined.

(** The tag of a native function value, 0xFFC1, is outside the tag range,
    so [val_is_float] holds of every native value, and the finite double
    -1.0625 * 2^1021 is bit for bit the native value of cfunc index 0. *)
Theorem native_is_float (cf : Z) :
  val_is_float (lbox TAG_NATIVE cf) = true ∧
  val_from_double (S754_finite true (17 * 2 ^ 48) 969) = lbox TAG_NATIVE 0.
Proof.
  split; [|reflexivity]. unfold val_is_float. by rewrite lbox_tag.
Qed.
