(* ===== verification/Heap.v ===== *)
(** Heap objects, their sizes, the store they live in, the memory part of a
    [Proc] (one block holding the heap and the stack, growing toward each
    other), the callback chunk arena, and the stack operations of
    ta_inline.h.

    The store maps the address of an object's header to the object.  Objects
    keep the sizes of the C structs (LP64), so every address, offset and fit
    check is the one the C code computes. *)
From stdpp Require Import base tactics list gmap strings.
From Stdlib Require Import ZArith Lia.
From S2P Require Import Prelude Values.
Open Scope Z_scope.

(** * Objects *)
Definition HEAP_PAIR : Z := 1.
Definition HEAP_CLOS : Z := 2.
Definition HEAP_STRING : Z := 3.
Definition HEAP_BYTES : Z := 4.
Definition HEAP_RESOURCE : Z := 5.

(** The five heap structs.  The [len] and [nfree] fields are the lengths of
    the variable-length tails; the NUL after a string is in its size. *)
Inductive obj :=
| HeapPair (car cdr : Val)
| HeapClosure (entry : Z) (free : list Val)
| HeapString (data : list Z)
| HeapBytes (data : list Z)
| HeapResource (owner_pid : Z) (res : Z).

Definition obj_type (o : obj) : Z :=
  match o with
  | HeapPair _ _ => HEAP_PAIR
  | HeapClosure _ _ => HEAP_CLOS
  | HeapString _ => HEAP_STRING
  | HeapBytes _ => HEAP_BYTES
  | HeapResource _ _ => HEAP_RESOURCE
  end.

(** The tag of a value that points to an object. *)
Definition obj_tag (o : obj) : Z :=
  match o with
  | HeapPair _ _ => TAG_PAIR
  | HeapClosure _ _ => TAG_CLOS
  | HeapString _ => TAG_STRING
  | HeapBytes _ => TAG_BYTES
  | HeapResource _ _ => TAG_RESOURCE
  end.

(** A header in memory: a live object, or one relocated by a collection.  The
    forwarding pointer is written over the eight bytes after the header, so the
    fields of a forwarded object are gone; only its type survives. *)
Inductive cell :=
| Live (o : obj)
| Forwarded (type : Z) (fwd : Z).

#[global] Instance obj_eq_dec : EqDecision obj.
Proof. solve_decision. Defined.
#[global] Instance cell_eq_dec : EqDecision cell.
Proof. solve_decision. Defined.

(** [sizeof] of the structs. *)
Definition SIZEOF_HEADER : Z := 2.
Definition SIZEOF_VAL : Z := 8.
Definition SIZEOF_PAIR : Z := 24.
Definition SIZEOF_CLOSURE : Z := 16.
Definition SIZEOF_STRING : Z := 8.
Definition SIZEOF_BYTES : Z := 8.
Definition SIZEOF_RESOURCE : Z := 16.

Definition TA_HEAP_MIN_OBJECT : Z := Z.land (SIZEOF_HEADER + 8 + 7) (Z.lnot 7).

Definition ta_heap_object_size (size : Z) : Z :=
  let size := align8 size in
  if size <? TA_HEAP_MIN_OBJECT then TA_HEAP_MIN_OBJECT else size.

(** The unaligned size [gc_obj_size] computes in its switch. *)
Definition raw_size (o : obj) : Z :=
  match o with
  | HeapPair _ _ => SIZEOF_PAIR
  | HeapClosure _ fs => SIZEOF_CLOSURE + Z.of_nat (length fs) * SIZEOF_VAL
  | HeapString d => SIZEOF_STRING + Z.of_nat (length d) + 1
  | HeapBytes d => SIZEOF_BYTES + Z.of_nat (length d)
  | HeapResource _ _ => SIZEOF_RESOURCE
  end.
Definition obj_size (o : obj) : Z := ta_heap_object_size (raw_size o).

(** * The store *)

(** [cells]: headers by address.  [payloads]: live [ResourcePayload] blocks
    (their [ptr] and [dtor]).  [dtor_calls]: the destructor calls made so far.
    [brk]: everything the allocator has handed out lies below it. *)
Record store := mk_store {
  cells : gmap Z cell;
  payloads : gmap Z (Z * Z);
  dtor_calls : list (Z * Z);
  brk : Z
}.

Definition write_cell (st : store) (a : Z) (c : cell) : store :=
  mk_store (<[a := c]> (cells st)) (payloads st) (dtor_calls st) (brk st).

(** [malloc]: a fresh 16-aligned block below 2^47 (user-space addresses fit
    the 48-bit payload), or NULL. *)
Definition ADDR_LIMIT : Z := 2 ^ 47.
Definition malloc (st : store) (n : Z) : option (Z * store) :=
  if brk st + n <? ADDR_LIMIT
  then Some (brk st, mk_store (cells st) (payloads st) (dtor_calls st)
                              (brk st + 16 * (n / 16 + 1)))
  else None.

(** * The callback chunk arena *)
Definition TA_CCALL_CHUNK0 : Z := 256.
Definition TA_CCALL_CHUNK_NEXT : Z := 4096.
Definition SIZEOF_CHUNK : Z := 16.

(** [ck_data] is the address of the chunk's storage: [buf] for the first
    chunk, the bytes after the chunk header for a malloc'd one. *)
Record TaChunk := mk_TaChunk { ck_data : Z; ck_used : Z; ck_cap : Z }.

(** [ca_head] is the first chunk (storage in the frame of the call),
    [ca_rest] the malloc'd chunks in chain order; the chunk being bumped
    ([cur]) is the last of the chain. *)
Record CallbackArena := mk_CallbackArena {
  ca_head : TaChunk;
  ca_rest : list TaChunk;
  ca_total : Z;
  ca_resources : Z;
  ca_converge : bool;
  ca_promote : bool
}.

Definition callback_arena_init (buf : Z) : CallbackArena :=
  mk_CallbackArena (mk_TaChunk buf 0 TA_CCALL_CHUNK0) [] 0 0 false false.

(** Bump-allocate from the tail chunk, opening a fresh one when the request
    does not fit; [None] when that malloc fails. *)
Definition callback_arena_alloc (st : store) (a : CallbackArena) (size : Z)
    : option (Z * store * CallbackArena) :=
  let bump (c : TaChunk) := mk_TaChunk (ck_data c) (ck_used c + size) (ck_cap c) in
  let fresh (st : store) (mk : TaChunk → CallbackArena) :=
    let cap := if TA_CCALL_CHUNK_NEXT <? size then size else TA_CCALL_CHUNK_NEXT in
    match malloc st (SIZEOF_CHUNK + cap) with
    | None => None
    | Some (b, st') =>
        let c := mk_TaChunk (b + SIZEOF_CHUNK) 0 cap in
        Some (ck_data c + ck_used c, st', mk (bump c))
    end in
  let upd h r := mk_CallbackArena h r (ca_total a + size) (ca_resources a)
                                  (ca_converge a) (ca_promote a) in
  match last (ca_rest a) with
  | None =>
      let c := ca_head a in
      if ck_cap c <? ck_used c + size then fresh st (λ nc, upd c [nc])
      else Some (ck_data c + ck_used c, st, upd (bump c) [])
  | Some c =>
      if ck_cap c <? ck_used c + size then fresh st (λ nc, upd (ca_head a) (ca_rest a ++ [nc]))
      else Some (ck_data c + ck_used c, st,
                 upd (ca_head a) (take (length (ca_rest a) - 1) (ca_rest a) ++ [bump c]))
  end.

Definition callback_arena_release (a : CallbackArena) : CallbackArena :=
  mk_CallbackArena (mk_TaChunk (ck_data (ca_head a)) 0 (ck_cap (ca_head a))) [] 0
                   (ca_resources a) (ca_converge a) (ca_promote a).

(** * The memory of a process *)
Record ProcMem := mk_ProcMem {
  pid : Z (** pid *);
  mem : Z (** address of the block, 0 = NULL *);
  mem_size : Z (** its size in bytes *);
  heap_ptr : Z (** heap top offset, grows upward from 0 *);
  sp : Z (** stack top offset in slots, grows downward from 0 *);
  stack_floor : Z (** deepest frame ever reserved (same convention as sp) *);
  slots : gmap Z Val (** slot i is the Val at mem + mem_size - 8 * (i + 1) *);
  gc_to : Z (** the other semispace, 0 = NULL *);
  gc_to_cap : Z (** its capacity *);
  gc_to_size : Z (** bytes copied into it *);
  gc_trigger : Z (** heap_ptr above which an allocation requests a collection *);
  gc_gate : Z (** nesting depth of not-gc-safe regions *);
  gc_pending : bool (** a request made while the gate was closed *);
  gc_stress_cnt : Z (** allocation countdown of TA_GC_STRESS *);
  ccall : option CallbackArena (** chunk arena of the C call in flight *)
}.

Definition set_pid (x : Z) (p : ProcMem) : ProcMem :=
  mk_ProcMem x (mem p) (mem_size p) (heap_ptr p) (sp p) (stack_floor p) (slots p) (gc_to p) (gc_to_cap p) (gc_to_size p) (gc_trigger p) (gc_gate p) (gc_pending p) (gc_stress_cnt p) (ccall p).
Definition set_mem (x : Z) (p : ProcMem) : ProcMem :=
  mk_ProcMem (pid p) x (mem_size p) (heap_ptr p) (sp p) (stack_floor p) (slots p) (gc_to p) (gc_to_cap p) (gc_to_size p) (gc_trigger p) (gc_gate p) (gc_pending p) (gc_stress_cnt p) (ccall p).
Definition set_mem_size (x : Z) (p : ProcMem) : ProcMem :=
  mk_ProcMem (pid p) (mem p) x (heap_ptr p) (sp p) (stack_floor p) (slots p) (gc_to p) (gc_to_cap p) (gc_to_size p) (gc_trigger p) (gc_gate p) (gc_pending p) (gc_stress_cnt p) (ccall p).
Definition set_heap_ptr (x : Z) (p : ProcMem) : ProcMem :=
  mk_ProcMem (pid p) (mem p) (mem_size p) x (sp p) (stack_floor p) (slots p) (gc_to p) (gc_to_cap p) (gc_to_size p) (gc_trigger p) (gc_gate p) (gc_pending p) (gc_stress_cnt p) (ccall p).
Definition set_sp (x : Z) (p : ProcMem) : ProcMem :=
  mk_ProcMem (pid p) (mem p) (mem_size p) (heap_ptr p) x (stack_floor p) (slots p) (gc_to p) (gc_to_cap p) (gc_to_size p) (gc_trigger p) (gc_gate p) (gc_pending p) (gc_stress_cnt p) (ccall p).
Definition set_stack_floor (x : Z) (p : ProcMem) : ProcMem :=
  mk_ProcMem (pid p) (mem p) (mem_size p) (heap_ptr p) (sp p) x (slots p) (gc_to p) (gc_to_cap p) (gc_to_size p) (gc_trigger p) (gc_gate p) (gc_pending p) (gc_stress_cnt p) (ccall p).
Definition set_slots (x : gmap Z Val) (p : ProcMem) : ProcMem :=
  mk_ProcMem (pid p) (mem p) (mem_size p) (heap_ptr p) (sp p) (stack_floor p) x (gc_to p) (gc_to_cap p) (gc_to_size p) (gc_trigger p) (gc_gate p) (gc_pending p) (gc_stress_cnt p) (ccall p).
Definition set_gc_to (x : Z) (p : ProcMem) : ProcMem :=
  mk_ProcMem (pid p) (mem p) (mem_size p) (heap_ptr p) (sp p) (stack_floor p) (slots p) x (gc_to_cap p) (gc_to_size p) (gc_trigger p) (gc_gate p) (gc_pending p) (gc_stress_cnt p) (ccall p).
Definition set_gc_to_cap (x : Z) (p : ProcMem) : ProcMem :=
  mk_ProcMem (pid p) (mem p) (mem_size p) (heap_ptr p) (sp p) (stack_floor p) (slots p) (gc_to p) x (gc_to_size p) (gc_trigger p) (gc_gate p) (gc_pending p) (gc_stress_cnt p) (ccall p).
Definition set_gc_to_size (x : Z) (p : ProcMem) : ProcMem :=
  mk_ProcMem (pid p) (mem p) (mem_size p) (heap_ptr p) (sp p) (stack_floor p) (slots p) (gc_to p) (gc_to_cap p) x (gc_trigger p) (gc_gate p) (gc_pending p) (gc_stress_cnt p) (ccall p).
Definition set_gc_trigger (x : Z) (p : ProcMem) : ProcMem :=
  mk_ProcMem (pid p) (mem p) (mem_size p) (heap_ptr p) (sp p) (stack_floor p) (slots p) (gc_to p) (gc_to_cap p) (gc_to_size p) x (gc_gate p) (gc_pending p) (gc_stress_cnt p) (ccall p).
Definition set_gc_gate (x : Z) (p : ProcMem) : ProcMem :=
  mk_ProcMem (pid p) (mem p) (mem_size p) (heap_ptr p) (sp p) (stack_floor p) (slots p) (gc_to p) (gc_to_cap p) (gc_to_size p) (gc_trigger p) x (gc_pending p) (gc_stress_cnt p) (ccall p).
Definition set_gc_pending (x : bool) (p : ProcMem) : ProcMem :=
  mk_ProcMem (pid p) (mem p) (mem_size p) (heap_ptr p) (sp p) (stack_floor p) (slots p) (gc_to p) (gc_to_cap p) (gc_to_size p) (gc_trigger p) (gc_gate p) x (gc_stress_cnt p) (ccall p).
Definition set_gc_stress_cnt (x : Z) (p : ProcMem) : ProcMem :=
  mk_ProcMem (pid p) (mem p) (mem_size p) (heap_ptr p) (sp p) (stack_floor p) (slots p) (gc_to p) (gc_to_cap p) (gc_to_size p) (gc_trigger p) (gc_gate p) (gc_pending p) x (ccall p).
Definition set_ccall (x : option CallbackArena) (p : ProcMem) : ProcMem :=
  mk_ProcMem (pid p) (mem p) (mem_size p) (heap_ptr p) (sp p) (stack_floor p) (slots p) (gc_to p) (gc_to_cap p) (gc_to_size p) (gc_trigger p) (gc_gate p) (gc_pending p) (gc_stress_cnt p) x.

(** The fields [proc_new] gives a fresh process (calloc, then the explicit
    resets). *)
Definition proc_mem_init (id : Z) : ProcMem :=
  mk_ProcMem id 0 0 0 0 0 ∅ 0 0 0 0 0 false 0 None.

Definition val_in_chunk (p : ProcMem) (q : Z) : bool :=
  match ccall p with
  | None => false
  | Some a =>
      ((ck_data (ca_head a) <=? q) && (q <? ck_data (ca_head a) + TA_CCALL_CHUNK0)) ||
      existsb (λ c, (ck_data c <=? q) && (q <? ck_data c + ck_used c)) (ca_rest a)
  end.

Definition proc_heap_empty (p : ProcMem) : bool := heap_ptr p =? 0.

Definition proc_stack_lo (p : ProcMem) : Z :=
  if sp p <? stack_floor p then sp p else stack_floor p.

Definition TA_PROC_HEAP0 : Z := 512.
Definition TA_STACK_HEADROOM : Z := 256.
Definition TA_HEAP_FIT_SLACK : Z := 16.

(** [calloc] of the idling buffer; the C code does not test its result, so a
    NULL here is a later NULL dereference. *)
Definition proc_ensure_heap (st : store) (p : ProcMem) : outcome (store * ProcMem) :=
  if mem p =? 0 then
    match malloc st TA_PROC_HEAP0 with
    | None => Undef
    | Some (b, st') => Ret (st', set_mem b (set_mem_size TA_PROC_HEAP0 p))
    end
  else Ret (st, p).

(** The doubling loop of [proc_arena_grow] and [gc_collect_internal]:
    [while (want < need && want < cap) want *= 2].  [DOUBLINGS] rounds are
    enough for every 32-bit [want > 0] ([double_want_done]). *)
Definition DOUBLINGS : nat := 32.
Fixpoint double_want (fuel : nat) (want need cap : Z) : Z :=
  match fuel with
  | O => want
  | S n => if (want <? need) && (want <? cap) then double_want n (want * 2) need cap else want
  end.

(** Slots that survive when the live stack, and only it, is moved. *)
Definition live_slots (p : ProcMem) : gmap Z Val :=
  filter (λ kv, 0 ≤ kv.1 < - sp p) (slots p).

(** Reserve [need] usable bytes while the heap is empty.  The boolean is
    C's return code: [true] for 0, [false] for -1. *)
Definition proc_arena_grow (cap : Z) (st : store) (p : ProcMem) (need : Z)
    : bool * store * ProcMem :=
  if (mem p =? 0) || (0 <? heap_ptr p) then (false, st, p)
  else
    let want := double_want DOUBLINGS (mem_size p) need cap in
    let want := if cap <? want then cap else want in
    if want <? need then (false, st, p)
    else if want <=? mem_size p then (false, st, p)
    else match malloc st want with
         | None => (false, st, p)
         | Some (b, st') =>
             (true, st', set_slots (live_slots p) (set_mem b (set_mem_size want p)))
         end.

(** ** Stack access *)
Definition FATAL_STACK : string := "stack and heap meet before the new frame fits".

(** Write a slot.  The C store goes to [mem + mem_size - 8 * (i + 1)]; outside
    the block it is undefined. *)
Definition slot_in_block (p : ProcMem) (i : Z) : bool :=
  (0 <=? i) && (0 <=? mem_size p - 8 * (i + 1)).
Definition write_slot (p : ProcMem) (i : Z) (v : Val) : outcome ProcMem :=
  if slot_in_block p i then Ret (set_slots (<[i := v]> (slots p)) p) else Undef.
Definition read_slot (p : ProcMem) (i : Z) : outcome Val := or_undef (slots p !! i).

Definition proc_push (cap : Z) (st : store) (p : ProcMem) (v : Val) : outcome (store * ProcMem) :=
  '(st, p) ← proc_ensure_heap st p;
  '(st, p) ←
    (if mem_size p + (sp p - 1) * 8 <? heap_ptr p then
       let '(ok, st', p') := proc_arena_grow cap st p ((1 - sp p) * 8) in
       if negb ok then Abort FATAL_STACK
       else if mem_size p' + (sp p' - 1) * 8 <? heap_ptr p' then Abort FATAL_STACK
       else Ret (st', p')
     else Ret (st, p));
  let p := set_sp (sp p - 1) p in
  p ← write_slot p (- sp p - 1) v;
  Ret (st, p).

Definition proc_pop (p : ProcMem) : outcome (Val * ProcMem) :=
  v ← read_slot p (- sp p - 1);
  Ret (v, set_sp (sp p + 1) p).

Definition proc_peek (p : ProcMem) (offset : Z) : outcome Val :=
  read_slot p (- (sp p + offset) - 1).

(** ** The GC gate *)
Definition proc_gc_enter (p : ProcMem) : ProcMem := set_gc_gate (gc_gate p + 1) p.
(** [assert(p->gc_gate > 0)] is live unless NDEBUG. *)
Definition proc_gc_leave (p : ProcMem) : outcome ProcMem :=
  if 0 <? gc_gate p then Ret (set_gc_gate (gc_gate p - 1) p)
  else Abort "assertion failed: gc_gate > 0".

(** * Sizes *)
Lemma ta_heap_object_size_spec (n : Z) :
  ta_heap_object_size n mod 8 = 0 ∧ 16 ≤ ta_heap_object_size n ∧ n ≤ ta_heap_object_size n ∧
  (0 ≤ n → ta_heap_object_size n < n + 17).
Proof.
  unfold ta_heap_object_size. change TA_HEAP_MIN_OBJECT with 16.
  pose proof (align8_spec n). destruct (Z.ltb_spec (align8 n) 16); [|lia].
  split; [done|]. lia.
Qed.

Lemma obj_size_pos (o : obj) : 16 ≤ obj_size o.
Proof. apply ta_heap_object_size_spec. Qed.

Lemma obj_size_align (o : obj) : align8 (obj_size o) = obj_size o.
Proof. apply align8_id, ta_heap_object_size_spec. Qed.

#[export] Hint Resolve obj_size_pos : ta.
#[export] Hint Rewrite obj_size_align : ta.

(** Bytes taken by a sequence of objects. *)
Definition sizes (l : list obj) : Z := sumZ (obj_size <$> l).
#[global] Arguments sizes : simpl never.
#[global] Arguments obj_size : simpl never.

Lemma sizes_cons o l : sizes (o :: l) = obj_size o + sizes l.
Proof. done. Qed.

Lemma sizes_app l1 l2 : sizes (l1 ++ l2) = sizes l1 + sizes l2.
Proof. unfold sizes. by rewrite fmap_app, sumZ_app. Qed.

Lemma sizes_length l : 16 * Z.of_nat (length l) ≤ sizes l.
Proof.
  induction l as [|o l IH]; [done|]. rewrite sizes_cons. simpl length.
  pose proof (obj_size_pos o). lia.
Qed.

Lemma sizes_nonneg l : 0 ≤ sizes l.
Proof. pose proof (sizes_length l). lia. Qed.

Lemma sizes_submseteq l1 l2 : l1 ⊆+ l2 → sizes l1 ≤ sizes l2.
Proof.
  intros Hs. unfold sizes. apply sumZ_submseteq; [|by apply fmap_submseteq].
  apply Forall_fmap, Forall_true. intros o. pose proof (obj_size_pos o). simpl. lia.
Qed.

(** * Doubling *)
Lemma double_want_bound (n : nat) (want need cap : Z) :
  0 < want → want ≤ double_want n want need cap.
Proof.
  revert want. induction n as [|n IH]; intros want Hw; simpl; [lia|].
  destruct ((want <? need) && (want <? cap)); [|lia].
  specialize (IH (want * 2)). lia.
Qed.

(** The loop has exited: 32 doublings of a positive [want] pass every
    32-bit bound. *)
Lemma double_want_done (want need cap : Z) :
  0 < want → need < 2 ^ 32 →
  need ≤ double_want DOUBLINGS want need cap ∨ cap ≤ double_want DOUBLINGS want need cap.
Proof.
  intros Hw Hn. unfold DOUBLINGS.
  assert (H : ∀ n w, 0 < w → need ≤ w * 2 ^ Z.of_nat n →
    need ≤ double_want n w need cap ∨ cap ≤ double_want n w need cap).
  { induction n as [|n IH]; intros w Hw0 Hb.
    - simpl in *. lia.
    - cbn [double_want]. destruct (Z.ltb_spec w need); simpl; [|lia].
      destruct (Z.ltb_spec w cap); simpl; [|lia].
      apply IH; [lia|]. rewrite Nat2Z.inj_succ, Z.pow_succ_r in Hb by lia. lia. }
  apply H; [done|]. change (Z.of_nat 32) with 32. nia.
Qed.
