(* ===== verification/Resource.v ===== *)
(** Opaque C resources: src/resource.c.

    A resource value is a heap header ([HeapResource owner_pid res]) that
    points to a payload allocated outside every heap; [res = 0] means released.
    The destructor is code of the module that made the resource: a call to it
    is recorded in [dtor_calls]. *)
From stdpp Require Import base tactics list gmap strings.
From Stdlib Require Import ZArith Lia.
From S2P Require Import Prelude Values Heap.
Open Scope Z_scope.

(** [val_get_resource]: the header's address, or NULL (0). *)
Definition val_get_resource (v : Val) : Z :=
  if negb (val_tag v =? TAG_RESOURCE) then 0 else lpayload v.

(** Read the header at an address as a resource. *)
Definition read_resource (st : store) (a : Z) : outcome (Z * Z) :=
  match cells st !! a with
  | Some (Live (HeapResource owner res)) => Ret (owner, res)
  | _ => Undef
  end.

(** [ta_resource_release]: run the destructor, free the payload, clear the
    header's pointer; a no-op on a released header.  Freeing a payload that is
    not allocated is undefined. *)
Definition ta_resource_release (st : store) (a : Z) : outcome store :=
  '(owner, res) ← read_resource st a;
  if res =? 0 then Ret st
  else
    match payloads st !! res with
    | None => Undef
    | Some (ptr, dtor) =>
        Ret (mk_store (<[a := Live (HeapResource owner 0)]> (cells st))
                      (delete res (payloads st))
                      (if negb (ptr =? 0) && negb (dtor =? 0)
                       then dtor_calls st ++ [(ptr, dtor)] else dtor_calls st)
                      (brk st))
    end.

(** [ta_resource_open]: the return code, with the header when it is 0.
    [cur_pid] is [tls_current_proc->pid]. *)
Definition ta_resource_open (st : store) (cur_pid : Z) (v : Val) (closed_code : Z)
    : outcome (Z * option Z) :=
  let r := val_get_resource v in
  if r =? 0 then Ret (-1, None)
  else
    '(owner, res) ← read_resource st r;
    if negb (owner =? cur_pid) then Ret (-2, None)
    else if res =? 0 then Ret (closed_code, None)
    else Ret (0, Some r).

(** ** Tree walks *)

(** One round of the work-list loop of [collect_resources]: pop a value; a
    pair pushes [cdr] then [car], a closure pushes [free[0..nfree)], a resource
    is recorded. *)
Fixpoint collect_loop (fuel : nat) (st : store) (work : list Val) (found : list Z)
    : outcome (list Z) :=
  match work with
  | [] => Ret found
  | v :: rest =>
      match fuel with
      | O => NoFuel
      | S n =>
          let tag := val_tag v in
          if tag =? TAG_PAIR then
            match cells st !! lpayload v with
            | Some (Live (HeapPair car cdr)) => collect_loop n st (car :: cdr :: rest) found
            | _ => Undef
            end
          else if tag =? TAG_CLOS then
            match cells st !! lpayload v with
            | Some (Live (HeapClosure _ fs)) => collect_loop n st (rev fs ++ rest) found
            | _ => Undef
            end
          else if tag =? TAG_RESOURCE then collect_loop n st rest (found ++ [lpayload v])
          else collect_loop n st rest found
      end
  end.
Definition collect_resources (fuel : nat) (st : store) (root : Val) : outcome (list Z) :=
  collect_loop fuel st [root] [].

Definition val_has_resource (fuel : nat) (st : store) (root : Val) : outcome bool :=
  found ← collect_resources fuel st root;
  Ret (0 <? Z.of_nat (length found)).

Definition set_owner (pid : Z) (st : store) (a : Z) : outcome store :=
  '(_, res) ← read_resource st a;
  Ret (write_cell st a (Live (HeapResource pid res))).
Definition val_set_resource_owner (fuel : nat) (st : store) (root : Val) (pid : Z) : outcome store :=
  found ← collect_resources fuel st root;
  foldM (set_owner pid) st found.

Definition release_if_owned (pid : Z) (st : store) (a : Z) : outcome store :=
  '(owner, _) ← read_resource st a;
  if owner =? pid then ta_resource_release st a else Ret st.
Definition resource_release_tree (fuel : nat) (st : store) (root : Val) (pid : Z) : outcome store :=
  found ← collect_resources fuel st root;
  foldM (release_if_owned pid) st found.

(** The double loop of [resource_send_check]: every header is the sender's,
    and no payload occurs twice ([seen] holds the payloads of the headers
    before this one). *)
Fixpoint send_check_loop (st : store) (sender : Z) (seen : list Z) (found : list Z) : outcome bool :=
  match found with
  | [] => Ret true
  | a :: rest =>
      '(owner, res) ← read_resource st a;
      if negb (owner =? sender) then Ret false
      else if existsb (λ r, negb (r =? 0) && (r =? res)) seen then Ret false
      else send_check_loop st sender (seen ++ [res]) rest
  end.

(** [resource_send_check]: [true] is C's 0 (accepted), [false] is -1.
    A NULL sender (the poller thread) or a self-send is a violation. *)
Definition resource_send_check (fuel : nat) (st : store) (msg : Val) (sender : option Z) (target : Z)
    : outcome bool :=
  found ← collect_resources fuel st msg;
  if Z.of_nat (length found) =? 0 then Ret false
  else match sender with
       | None => Ret false
       | Some s => if target =? s then Ret false else send_check_loop st s [] found
       end.

(** ** Linear scan of a bump heap *)

(** [gc_obj_size]: the allocated size of the object at an address.  The fields
    of a forwarded object are overwritten, so its size cannot be read there. *)
Definition gc_obj_size (st : store) (a : Z) : outcome Z :=
  match cells st !! a with
  | Some (Live o) => Ret (obj_size o)
  | _ => Undef
  end.

Definition FLAG_FORWARDED : Z := 1.

(** One step of [resource_release_space] at offset [off]. *)
Definition release_space_step (st : store) (a pid : Z) (skip_forwarded : bool) : outcome (Z * store) :=
  match cells st !! a with
  | None => Undef
  | Some (Forwarded _ fwd) =>
      if skip_forwarded then sz ← gc_obj_size st fwd; Ret (align8 sz, st) else Undef
  | Some (Live o) =>
      st ← match o with
           | HeapResource owner _ => if owner =? pid then ta_resource_release st a else Ret st
           | _ => Ret st
           end;
      sz ← gc_obj_size st a;
      Ret (align8 sz, st)
  end.

Fixpoint release_space_loop (fuel : nat) (st : store) (space off bytes pid : Z) (skip : bool)
    : outcome store :=
  if off <? bytes then
    match fuel with
    | O => NoFuel
    | S n =>
        '(sz, st) ← release_space_step st (space + off) pid skip;
        release_space_loop n st space (off + sz) bytes pid skip
    end
  else Ret st.

(** Every object is at least 16 bytes, so [bytes] rounds are more than
    enough ([resource_release_space_spec]). *)
Definition resource_release_space (st : store) (space bytes pid : Z) (skip : bool) : outcome store :=
  release_space_loop (Z.to_nat bytes) st space 0 bytes pid skip.
