(* ===== verification/Gc.v ===== *)
(** The semispace copying collector: src/gc.c. *)
From stdpp Require Import base tactics list gmap strings.
From Stdlib Require Import ZArith Lia.
From S2P Require Import Prelude Values Heap Resource.
Open Scope Z_scope.

Definition in_fromspace (p : ProcMem) (a : Z) : bool :=
  (mem p <=? a) && (a <? mem p + heap_ptr p).

(** Sources a collection copies from: fromspace, and the chunk arena while a
    convergence collection runs. *)
Definition gc_copyable (p : ProcMem) (a : Z) : bool :=
  in_fromspace p a ||
  match ccall p with
  | Some ca => ca_promote ca && val_in_chunk p a
  | None => false
  end.

Definition FATAL_LIVE_SET : string := "live set does not fit below the stack during collection".

Definition gc_copy_obj (st : store) (p : ProcMem) (a : Z) : outcome (Z * store * ProcMem) :=
  match cells st !! a with
  | None => Undef
  | Some (Forwarded _ fwd) => Ret (fwd, st, p)
  | Some (Live o) =>
      let sz := align8 (obj_size o) in
      if gc_to_cap p + sp p * 8 <? gc_to_size p + sz then Abort FATAL_LIVE_SET
      else
        let na := gc_to p + gc_to_size p in
        let st := write_cell st na (Live o) in
        let p := set_gc_to_size (gc_to_size p + sz) p in
        Ret (na, write_cell st a (Forwarded (obj_type o) na), p)
  end.

(** The tags whose payload is a heap pointer. *)
Definition is_heap_tag (t : Z) : bool :=
  (t =? TAG_PAIR) || (t =? TAG_CLOS) || (t =? TAG_STRING) || (t =? TAG_BYTES) || (t =? TAG_RESOURCE).

Definition gc_copy_val (st : store) (p : ProcMem) (v : Val) : outcome (Val * store * ProcMem) :=
  if negb (is_heap_tag (val_tag v)) then Ret (v, st, p)
  else
    let ptr := lpayload v in
    if negb (gc_copyable p ptr) then Ret (v, st, p)
    else
      '(np, st, p) ← gc_copy_obj st p ptr;
      Ret (Z.lor (Z.land v 0xFFFF000000000000) np, st, p).

(** The field loop of the scan: copy each child in order. *)
Fixpoint gc_copy_vals (st : store) (p : ProcMem) (vs : list Val) : outcome (list Val * store * ProcMem) :=
  match vs with
  | [] => Ret ([], st, p)
  | v :: vs =>
      '(v', st, p) ← gc_copy_val st p v;
      '(vs', st, p) ← gc_copy_vals st p vs;
      Ret (v' :: vs', st, p)
  end.

(** Fields of an object that hold values, and the object with other ones. *)
Definition obj_children (o : obj) : list Val :=
  match o with
  | HeapPair car cdr => [car; cdr]
  | HeapClosure _ fs => fs
  | _ => []
  end.
Definition set_children (o : obj) (vs : list Val) : obj :=
  match o, vs with
  | HeapPair _ _, [car; cdr] => HeapPair car cdr
  | HeapClosure e _, fs => HeapClosure e fs
  | o, _ => o
  end.

(** [gc_scan_tospace]: fix the references inside each copied object. *)
Fixpoint gc_scan_tospace (fuel : nat) (st : store) (p : ProcMem) (scan : Z) : outcome (store * ProcMem) :=
  if scan <? gc_to_size p then
    match fuel with
    | O => NoFuel
    | S n =>
        match cells st !! (gc_to p + scan) with
        | Some (Live o) =>
            '(vs, st, p) ← gc_copy_vals st p (obj_children o);
            let st := write_cell st (gc_to p + scan) (Live (set_children o vs)) in
            sz ← gc_obj_size st (gc_to p + scan);
            gc_scan_tospace n st p (scan + align8 sz)
        | _ => Undef
        end
    end
  else Ret (st, p).

(** The root loop: [for (i = p->sp; i < 0; i++) gc_copy_val(p, &stack[i])].
    [stack[i]] is slot [-i - 1], so the slots go from the top of the stack down
    to slot 0. *)
Definition root_slots (p : ProcMem) : list Z := reverse (seqZ 0 (- sp p)).
Definition gc_copy_root (s : store * ProcMem) (i : Z) : outcome (store * ProcMem) :=
  let '(st, p) := s in
  v ← read_slot p i;
  '(v', st, p) ← gc_copy_val st p v;
  p ← write_slot p i v';
  Ret (st, p).

(** Make tospace at least [want] bytes. *)
Definition gc_reserve_tospace (st : store) (p : ProcMem) (want : Z) : outcome (store * ProcMem) :=
  if (gc_to p =? 0) || (gc_to_cap p <? want) then
    match malloc st want with
    | None => Abort "cannot reserve the collection semispace"
    | Some (b, st) => Ret (st, set_gc_to b (set_gc_to_cap want p))
    end
  else Ret (st, p).

(** The destination size: an upper bound of the live set, the caller's extra
    room and the deepest reserved frame, by doubling up to the cap. *)
Definition gc_need (p : ProcMem) (extra_room : Z) : Z :=
  heap_ptr p + extra_room + - proc_stack_lo p * 8.
Definition gc_want (cap : Z) (p : ProcMem) (extra_room : Z) : Z :=
  let want := double_want DOUBLINGS (mem_size p) (gc_need p extra_room) cap in
  if cap <? want then cap else want.

(** Copy the roots and everything reachable from them into tospace. *)
Definition gc_evacuate (st : store) (p : ProcMem) (extra_root : option Val)
    : outcome (option Val * store * ProcMem) :=
  '(root, st, p) ← match extra_root with
                   | None => Ret (None, st, p)
                   | Some v => '(v, st, p) ← gc_copy_val st p v; Ret (Some v, st, p)
                   end;
  '(st, p) ← foldM gc_copy_root (st, p) (root_slots p);
  '(st, p) ← gc_scan_tospace (Z.to_nat (gc_to_cap p)) st p 0;
  Ret (root, st, p).

(** Swap the semispaces, moving the live stack to the top of the new block. *)
Definition gc_swap (p : ProcMem) : ProcMem :=
  mk_ProcMem (pid p) (gc_to p) (gc_to_cap p) (gc_to_size p) (sp p) (stack_floor p)
    (live_slots p) (mem p) (mem_size p) 0
    (if 2 * gc_to_size p <? 4096 then 4096 else 2 * gc_to_size p)
    (gc_gate p) (gc_pending p) (gc_stress_cnt p) (ccall p).

(** [true] is C's 0; [false] is -1: live set, extra room and stack do not fit
    the cap.  [need] is an [int]: its overflow would be undefined. *)
Definition gc_collect_internal (cap : Z) (st : store) (p : ProcMem) (extra_room : Z) (extra_root : option Val)
    : outcome (bool * option Val * store * ProcMem) :=
  if mem p =? 0 then Ret (true, extra_root, st, p)
  else
    let need := gc_need p extra_room in
    let want := gc_want cap p extra_room in
    if negb (in_i32 need) then Undef
    else if want <? need then Ret (false, extra_root, st, p)
    else
      '(st, p) ← gc_reserve_tospace st p want;
      let p := set_gc_to_size 0 p in
      '(root, st, p) ← gc_evacuate st p extra_root;
      let old_mem := mem p in
      let old_heap_ptr := heap_ptr p in
      let p := gc_swap p in
      st ← resource_release_space st old_mem old_heap_ptr (pid p) true;
      Ret (true, root, st, p).

Definition gc_collect (cap : Z) (st : store) (p : ProcMem) (extra_room : Z) : outcome (bool * store * ProcMem) :=
  '(ok, _, st, p) ← gc_collect_internal cap st p extra_room None;
  Ret (ok, st, p).

Definition set_promote (b : bool) (p : ProcMem) : ProcMem :=
  set_ccall ((λ a, mk_CallbackArena (ca_head a) (ca_rest a) (ca_total a) (ca_resources a)
                                    (ca_converge a) b) <$> ccall p) p.

Definition FATAL_CONVERGE : string := "callback result does not fit: heap + stack exceed the arena".

Definition gc_collect_converge (cap : Z) (st : store) (p : ProcMem) (root : Val) : outcome (Val * store * ProcMem) :=
  match ccall p with
  | None => Undef
  | Some a =>
      '(ok, root', st, p) ← gc_collect_internal cap st (set_promote true p) (ca_total a) (Some root);
      let p := set_promote false p in
      match ok, root' with
      | true, Some v => Ret (v, st, p)
      | _, _ => Abort FATAL_CONVERGE
      end
  end.
