(* ===== verification/GcCorrect.v ===== *)
(** Correctness of the copying collector.

    The collector is shown to build an isomorphic copy of the live part of the
    heap: a forwarding map from the copied objects to consecutive addresses of
    tospace, under which every root and every field of a copied object is
    renamed.  The proof follows the collector's own structure: an invariant
    relates the store to the list of objects copied so far, in copy order, and
    to the number of them already scanned. *)
From stdpp Require Import base tactics list gmap strings.
From Stdlib Require Import ZArith Lia.
From S2P Require Import Prelude Values Heap Resource Gc.
Open Scope Z_scope.

(** * Facts about the pieces *)

Lemma high_mask_lor (v np : Z) :
  0 ≤ v < 2 ^ 64 → 0 ≤ np < 2 ^ 48 →
  Z.lor (Z.land v 0xFFFF000000000000) np = lbox (val_tag v) np.
Proof.
  intros Hv Hn. rewrite lbox_eq, (Z.mod_small np) by done.
  assert (Hm : Z.land v 0xFFFF000000000000 = Z.shiftl (val_tag v) 48).
  { rewrite (val_split v Hv) at 1.
    pose proof (Z.mod_pos_bound v (2 ^ 48) ltac:(lia)) as Hp. rewrite <- lpayload_mod in Hp.
    assert (Ht : 0 ≤ val_tag v < 2 ^ 16) by (by apply Z.mod_pos_bound).
    rewrite <- (lor_shiftl_add (val_tag v) (lpayload v) 48) by (lia || done).
    rewrite Z.land_lor_distr_l. change 0xFFFF000000000000 with (Z.shiftl (Z.ones 16) 48).
    rewrite <- Z.shiftl_land, Z.land_ones, Z.mod_small by (lia || done).
    assert (Z.land (lpayload v) (Z.shiftl (Z.ones 16) 48) = 0) as ->; [|by rewrite Z.lor_0_r].
    apply Z.bits_inj'. intros i Hi. rewrite Z.land_spec, Z.bits_0.
    destruct (Z_lt_le_dec i 48).
    - rewrite Z.shiftl_spec_low by done. apply andb_false_r.
    - rewrite <- (Z.mod_small (lpayload v) (2 ^ 48)) by done.
      by rewrite Z.mod_pow2_bits_high. }
  rewrite Hm, lor_shiftl_add by (lia || done). f_equal. f_equal.
  unfold val_tag, u16. by rewrite Zmod_mod.
Qed.

Lemma set_children_size (o : obj) (vs : list Val) :
  length vs = length (obj_children o) → obj_size (set_children o vs) = obj_size o.
Proof.
  destruct o as [c d|e fs|d|d|w r]; simpl; intros Hl; try done.
  - destruct vs as [|a [|b [|]]]; done.
  - unfold obj_size; simpl. by rewrite Hl.
Qed.

Lemma set_children_type (o : obj) (vs : list Val) : obj_type (set_children o vs) = obj_type o.
Proof. destruct o; simpl; try done. by destruct vs as [|? [|? [|]]]. Qed.

Lemma set_children_tag (o : obj) (vs : list Val) : obj_tag (set_children o vs) = obj_tag o.
Proof. destruct o; simpl; try done. by destruct vs as [|? [|? [|]]]. Qed.

Lemma set_children_children (o : obj) (vs : list Val) :
  length vs = length (obj_children o) → obj_children (set_children o vs) = vs.
Proof.
  destruct o as [c d|e fs|d|d|w r]; simpl; intros Hl; try (by destruct vs).
  by destruct vs as [|a [|b [|]]].
Qed.

(** Addresses given to a list of objects laid out from [base]. *)
Fixpoint place (base : Z) (L : list (Z * obj)) : gmap Z Z :=
  match L with
  | [] => ∅
  | (a, o) :: L => <[a := base]> (place (base + obj_size o) L)
  end.

Lemma place_snoc base L a o :
  a ∉ L.*1 → place base (L ++ [(a, o)]) = <[a := base + sizes L.*2]> (place base L).
Proof.
  revert base. induction L as [|[b ob] L IH]; intros base Ha; csimpl.
  - unfold sizes. simpl. by rewrite Z.add_0_r.
  - csimpl in Ha. apply not_elem_of_cons in Ha as [Hne Ha]. rewrite IH by done.
    rewrite insert_insert_ne by done. f_equal. rewrite sizes_cons. lia.
Qed.

Lemma place_lookup base L i a o :
  NoDup L.*1 → L !! i = Some (a, o) → place base L !! a = Some (base + sizes (take i L).*2).
Proof.
  revert base i. induction L as [|[b ob] L IH]; intros base i Hn Hi; [done|].
  csimpl in Hn. apply NoDup_cons in Hn as [Hb Hn]. destruct i as [|i]; csimpl in Hi; csimpl.
  - injection Hi as -> ->. rewrite lookup_insert_eq. unfold sizes; simpl. f_equal. lia.
  - assert (a ∈ L.*1). { apply list_elem_of_fmap. exists (a, o). split; [done|]. by eapply list_elem_of_lookup_2. }
    rewrite lookup_insert_ne by (intros ->; done). erewrite IH by done.
    rewrite sizes_cons. f_equal. lia.
Qed.

Lemma place_dom base L a : is_Some (place base L !! a) ↔ a ∈ L.*1.
Proof.
  revert base. induction L as [|[b ob] L IH]; intros base; csimpl.
  - rewrite lookup_empty. split; [by intros [? ?]|by intros ?%elem_of_nil].
  - rewrite elem_of_cons, <- (IH (base + obj_size ob)).
    destruct (decide (a = b)) as [->|].
    + rewrite lookup_insert_eq. naive_solver.
    + rewrite lookup_insert_ne by done. naive_solver.
Qed.

Lemma sizes_take_lt {L : list (Z * obj)} {i j : nat} {x} :
  (i < j)%nat → L !! i = Some x → sizes (take i L).*2 + obj_size x.2 ≤ sizes (take j L).*2.
Proof.
  intros Hij Hi.
  replace (take j L) with (take i L ++ x :: take (j - i - 1) (drop (S i) L)).
  { rewrite fmap_app, sizes_app. csimpl. rewrite sizes_cons.
    pose proof (sizes_nonneg (take (j - i - 1) (drop (S i) L)).*2). lia. }
  rewrite <- (take_drop_middle L i x Hi) at 3.
  rewrite take_app, take_take, length_take.
  rewrite Nat.min_r by (apply lookup_lt_Some in Hi; lia).
  rewrite Nat.min_l by (apply lookup_lt_Some in Hi; lia).
  f_equal. destruct (j - i)%nat as [|m] eqn:E; [lia|]. simpl. do 2 f_equal. lia.
Qed.

(** * The Cheney invariant *)
Section Cheney.
(** [st0] and [p0] are the state when the roots start being copied, [src]
    the objects of the spaces the collection copies from, [reach] the
    addresses reachable from the roots. *)
Context (st0 : store) (p0 : ProcMem) (src : list (Z * obj)) (reach : Z → Prop).

(** A value is fine when it is immediate, points outside the copied spaces,
    or points to a reachable object of the right type in them. *)
Definition ok_val (v : Val) : Prop :=
  0 ≤ v < 2 ^ 64 ∧
  (is_heap_tag (val_tag v) = true → gc_copyable p0 (lpayload v) = true →
   reach (lpayload v) ∧ ∃ o, (lpayload v, o) ∈ src ∧ obj_tag o = val_tag v).

Record source_ok : Prop := {
  src_nodup : NoDup src.*1;
  src_live : ∀ a o, (a, o) ∈ src → gc_copyable p0 a = true ∧ cells st0 !! a = Some (Live o);
  src_children : ∀ a o v, (a, o) ∈ src → reach a → v ∈ obj_children o → ok_val v;
  src_fit : sizes src.*2 ≤ gc_to_cap p0 + sp p0 * 8;
  to_range : 0 < gc_to p0 ∧ gc_to p0 + gc_to_cap p0 ≤ 2 ^ 47;
  sp_nonpos : sp p0 ≤ 0;
  to_disjoint : ∀ a, gc_copyable p0 a = true → a < gc_to p0 ∨ gc_to p0 + gc_to_cap p0 ≤ a
}.

Context (Hsrc : source_ok).

(** Renaming by the objects copied so far. *)
Definition fw (L : list (Z * obj)) (v : Val) : Val :=
  if is_heap_tag (val_tag v) && gc_copyable p0 (lpayload v)
  then lbox (val_tag v) (default 0 (place (gc_to p0) L !! lpayload v)) else v.

Definition closed (L : list (Z * obj)) (v : Val) : Prop :=
  is_heap_tag (val_tag v) = true → gc_copyable p0 (lpayload v) = true → lpayload v ∈ L.*1.

Definition new_addr (L : list (Z * obj)) (i : nat) : Z := gc_to p0 + sizes (take i L).*2.

(** [L]: the objects copied so far, in order; the first [k] are scanned. *)
Record inv (L : list (Z * obj)) (k : nat) (st : store) (p : ProcMem) : Prop := {
  i_nodup : NoDup L.*1;
  i_sub : L ⊆ src;
  i_reach : ∀ a, a ∈ L.*1 → reach a;
  i_k : (k ≤ length L)%nat;
  i_fwd : ∀ i a o, L !! i = Some (a, o) → cells st !! a = Some (Forwarded (obj_type o) (new_addr L i));
  i_rest : ∀ a, gc_copyable p0 a = true → a ∉ L.*1 → cells st !! a = cells st0 !! a;
  i_size : gc_to_size p = sizes L.*2;
  i_scanned : ∀ i a o, L !! i = Some (a, o) → (i < k)%nat →
    cells st !! new_addr L i = Some (Live (set_children o (fw L <$> obj_children o))) ∧
    Forall (closed L) (obj_children o);
  i_raw : ∀ i a o, L !! i = Some (a, o) → (k ≤ i)%nat → cells st !! new_addr L i = Some (Live o);
  i_frame : ∀ a, gc_copyable p0 a = false → a < gc_to p0 ∨ gc_to p0 + gc_to_cap p0 ≤ a →
    cells st !! a = cells st0 !! a;
  i_store : payloads st = payloads st0 ∧ dtor_calls st = dtor_calls st0 ∧ brk st = brk st0;
  i_proc : p = set_slots (slots p) (set_gc_to_size (gc_to_size p) p0)
}.

Lemma copyable_proc p a :
  p = set_slots (slots p) (set_gc_to_size (gc_to_size p) p0) → gc_copyable p a = gc_copyable p0 a.
Proof. intros ->. reflexivity. Qed.

Lemma L_fit L : NoDup L.*1 → L ⊆ src → sizes L.*2 ≤ gc_to_cap p0 + sp p0 * 8.
Proof.
  intros Hn Hs. etrans; [|apply src_fit, Hsrc]. apply sizes_submseteq, fmap_submseteq.
  apply NoDup_submseteq; [by eapply NoDup_fmap_1|done].
Qed.

(** The copies lie inside tospace, at distinct addresses. *)
Lemma new_addr_range L i x :
  NoDup L.*1 → L ⊆ src → L !! i = Some x →
  gc_to p0 ≤ new_addr L i ∧ new_addr L i + obj_size x.2 ≤ gc_to p0 + gc_to_cap p0.
Proof.
  intros Hn Hs Hi. pose proof (L_fit L Hn Hs) as Hf. pose proof (sp_nonpos Hsrc).
  unfold new_addr. pose proof (sizes_nonneg (take i L).*2).
  assert (Hl : (i < length L)%nat) by (by eapply lookup_lt_Some).
  pose proof (sizes_take_lt Hl Hi) as Hlt. rewrite firstn_all in Hlt. lia.
Qed.

Lemma new_addr_neq L i j x y :
  L !! i = Some x → L !! j = Some y → i ≠ j → new_addr L i ≠ new_addr L j.
Proof.
  intros Hi Hj Hne. unfold new_addr. pose proof (obj_size_pos x.2). pose proof (obj_size_pos y.2).
  destruct (decide (i < j)%nat) as [Hlt|Hge].
  - pose proof (sizes_take_lt Hlt Hi). lia.
  - assert (Hlt : (j < i)%nat) by lia. pose proof (sizes_take_lt Hlt Hj). lia.
Qed.

Lemma new_addr_old L i x a :
  NoDup L.*1 → L ⊆ src → L !! i = Some x → gc_copyable p0 a = true → new_addr L i ≠ a.
Proof.
  intros Hn Hs Hi Ha. pose proof (new_addr_range L i x Hn Hs Hi).
  pose proof (obj_size_pos x.2). pose proof (to_disjoint Hsrc a Ha). lia.
Qed.

Lemma new_addr_app L L' i : (i ≤ length L)%nat → new_addr (L ++ L') i = new_addr L i.
Proof. intros Hi. unfold new_addr. by rewrite take_app_le. Qed.

Lemma fw_mono L a o v :
  a ∉ L.*1 → closed L v → fw (L ++ [(a, o)]) v = fw L v.
Proof.
  intros Ha Hc. unfold fw. destruct (is_heap_tag (val_tag v)) eqn:Ht; [|done].
  destruct (gc_copyable p0 (lpayload v)) eqn:Hp; [|done]. simpl.
  rewrite place_snoc by done. rewrite lookup_insert_ne; [done|].
  intros ->. by apply Ha, Hc.
Qed.

Lemma closed_mono L L' v : closed L v → closed (L ++ L') v.
Proof. intros Hc Ht Hp. rewrite fmap_app. apply elem_of_app. left. by apply Hc. Qed.

Lemma src_fun a o o' : (a, o) ∈ src → (a, o') ∈ src → o = o'.
Proof.
  intros H1 H2. apply (src_live Hsrc) in H1 as [_ H1]. apply (src_live Hsrc) in H2 as [_ H2].
  congruence.
Qed.

(** ** Copying one object *)
(** The list of copied objects with one more at its end. *)
Record appended (L : list (Z * obj)) (a : Z) (o : obj) (na : Z) : Prop := {
  ap_nodup : NoDup (L ++ [(a, o)]).*1;
  ap_sub : L ++ [(a, o)] ⊆ src;
  ap_new : new_addr (L ++ [(a, o)]) (length L) = na;
  ap_old : ∀ i x, L !! i = Some x → (L ++ [(a, o)]) !! i = Some x ∧
    new_addr (L ++ [(a, o)]) i = new_addr L i ∧ new_addr L i ≠ na ∧ new_addr L i ≠ a;
  ap_case : ∀ i b ob, (L ++ [(a, o)]) !! i = Some (b, ob) → (L !! i = Some (b, ob)) ∨ (i = length L ∧ b = a ∧ ob = o);
  ap_neq : na ≠ a;
  ap_range : gc_to p0 ≤ na < gc_to p0 + gc_to_cap p0
}.
Lemma append_fresh L a o :
  NoDup L.*1 → L ⊆ src → (a, o) ∈ src → a ∉ L.*1 → appended L a o (new_addr L (length L)).
Proof.
  intros HN HL Hin Ha. set (na := new_addr L (length L)). destruct (src_live Hsrc a o Hin) as [Hca _].
  assert (Hn' : NoDup (L ++ [(a, o)]).*1).
  { rewrite fmap_app. apply NoDup_app. split; [done|]. split; [|apply NoDup_singleton].
    intros x Hx Hx'. apply list_elem_of_singleton in Hx'. by subst. }
  assert (Hs' : L ++ [(a, o)] ⊆ src).
  { intros x Hx. apply elem_of_app in Hx as [Hx|Hx%list_elem_of_singleton];
      [by apply HL|by subst]. }
  assert (Hlast : (L ++ [(a, o)]) !! length L = Some (a, o)).
  { rewrite lookup_app_r by lia. by rewrite Nat.sub_diag. }
  assert (Hna : new_addr (L ++ [(a, o)]) (length L) = na) by (by apply new_addr_app).
  assert (Hold : ∀ i x, L !! i = Some x → (L ++ [(a, o)]) !! i = Some x ∧
            new_addr (L ++ [(a, o)]) i = new_addr L i ∧ new_addr L i ≠ na ∧ new_addr L i ≠ a).
  { intros i x Hi. assert ((i < length L)%nat) by (by eapply lookup_lt_Some).
    assert (Hi' : (L ++ [(a, o)]) !! i = Some x) by (by rewrite lookup_app_l).
    split; [done|]. rewrite new_addr_app by lia. split; [done|]. split.
    - rewrite <- Hna, <- (new_addr_app L [(a, o)] i) by lia.
      eapply new_addr_neq; [done|done|lia].
    - eapply new_addr_old; [done|done|done|done]. }
  assert (Hcase : ∀ i b ob, (L ++ [(a, o)]) !! i = Some (b, ob) →
            (L !! i = Some (b, ob)) ∨ (i = length L ∧ b = a ∧ ob = o)).
  { intros i b ob Hi. apply lookup_app_Some in Hi as [Hi|[Hi Hx]]; [by left|right].
    apply list_lookup_singleton_Some in Hx as [Hx ?]. simplify_eq. split; [lia|done]. }
  assert (Hnac : na ≠ a).
  { rewrite <- Hna. eapply new_addr_old; [exact Hn'|exact Hs'|exact Hlast|done]. }
  assert (Hnar : gc_to p0 ≤ na < gc_to p0 + gc_to_cap p0).
  { pose proof (new_addr_range _ _ _ Hn' Hs' Hlast) as Hr. rewrite Hna in Hr. simpl in Hr.
    pose proof (obj_size_pos o). lia. }
  by split.
Qed.

Lemma inv_copy_fresh L k st p a o :
  inv L k st p → (a, o) ∈ src → reach a → a ∉ L.*1 →
  inv (L ++ [(a, o)]) k
    (write_cell (write_cell st (new_addr L (length L)) (Live o)) a
       (Forwarded (obj_type o) (new_addr L (length L))))
    (set_gc_to_size (gc_to_size p + obj_size o) p).
Proof.
  intros I Hin Hra Ha. destruct (src_live Hsrc a o Hin) as [Hca _].
  destruct (append_fresh L a o (i_nodup _ _ _ _ I) (i_sub _ _ _ _ I) Hin Ha) as [Hn' Hs' Hna Hold Hcase Hnac Hnar].
  set (na := new_addr L (length L)) in *.
  split; try done.
  - intros x Hx. rewrite fmap_app in Hx. apply elem_of_app in Hx as [Hx|Hx%list_elem_of_singleton];
      [by apply (i_reach _ _ _ _ I)|by subst].
  - rewrite length_app. pose proof (i_k _ _ _ _ I). lia.
  - intros i b ob Hi. simpl. destruct (Hcase i b ob Hi) as [HiL|(->&->&->)].
    + destruct (Hold i (b, ob) HiL) as (_&->&?&?).
      assert (b ∈ L.*1). { apply list_elem_of_fmap. exists (b, ob). split; [done|]. by eapply list_elem_of_lookup_2. }
      assert (Hbs : (b, ob) ∈ src) by (apply (i_sub _ _ _ _ I); by eapply list_elem_of_lookup_2).
      rewrite lookup_insert_ne by (intros ->; done). rewrite lookup_insert_ne.
      * by apply I.
      * intros <-. pose proof (to_disjoint Hsrc na (proj1 (src_live Hsrc _ _ Hbs))). lia.
    + rewrite lookup_insert_eq. by rewrite Hna.
  - intros b Hb HbL. rewrite fmap_app in HbL. apply not_elem_of_app in HbL as [HbL Hba].
    apply not_elem_of_cons in Hba as [Hba _]. simpl.
    rewrite lookup_insert_ne by (intros ->; done). rewrite lookup_insert_ne; [by apply I|].
    intros <-. pose proof (to_disjoint Hsrc na Hb). lia.
  - simpl. rewrite fmap_app, sizes_app. csimpl. rewrite (i_size _ _ _ _ I).
    rewrite sizes_cons. unfold sizes at 3. simpl. lia.
  - intros i b ob Hi Hik. destruct (Hcase i b ob Hi) as [HiL|(->&->&->)];
      [|pose proof (i_k _ _ _ _ I); lia].
    destruct (Hold i (b, ob) HiL) as (_&->&?&?).
    destruct (i_scanned _ _ _ _ I i b ob HiL Hik) as [Hc Hcl]. split.
    + simpl. rewrite lookup_insert_ne by done. rewrite lookup_insert_ne by done. rewrite Hc.
      do 2 f_equal. f_equal. apply list_fmap_ext. intros j v Hv.
      symmetry. apply fw_mono; [done|]. rewrite Forall_lookup in Hcl. by eapply Hcl.
    + eapply Forall_impl; [exact Hcl|]. intros v. apply closed_mono.
  - intros i b ob Hi Hik. simpl. destruct (Hcase i b ob Hi) as [HiL|(->&->&->)].
    + destruct (Hold i (b, ob) HiL) as (_&->&?&?). rewrite !lookup_insert_ne by done. by eapply I.
    + rewrite Hna, lookup_insert_ne by done. by rewrite lookup_insert_eq.
  - intros b Hb Hbr. simpl. rewrite lookup_insert_ne by congruence.
    rewrite lookup_insert_ne by lia. by apply (i_frame _ _ _ _ I).
  - apply I.
  - rewrite (i_proc _ _ _ _ I). reflexivity.
Qed.

(** Copying a value: either it is not copyable, or its object has been
    copied already, or it is copied now. *)
Lemma copy_val_spec L k st p v :
  inv L k st p → ok_val v →
  ∃ L' st' p', gc_copy_val st p v = Ret (fw L' v, st', p') ∧ inv L' k st' p' ∧
    L `prefix_of` L' ∧ closed L' v ∧ slots p' = slots p.
Proof.
  intros I [Hv Hok]. unfold gc_copy_val. rewrite (copyable_proc p) by apply I.
  destruct (is_heap_tag (val_tag v)) eqn:Ht; simpl.
  2:{ exists L, st, p. unfold fw, closed. rewrite Ht. simpl. naive_solver. }
  destruct (gc_copyable p0 (lpayload v)) eqn:Hc; simpl.
  2:{ exists L, st, p. unfold fw, closed. rewrite Ht, Hc. simpl. naive_solver. }
  destruct (Hok eq_refl eq_refl) as (Hr&o&Hin&Htag).
  assert (Hfw : ∀ M i ob, NoDup M.*1 → M ⊆ src → M !! i = Some (lpayload v, ob) →
            Z.lor (Z.land v 0xFFFF000000000000) (new_addr M i) = fw M v).
  { intros M i ob HnM HsM Hi. unfold fw. rewrite Ht, Hc. simpl.
    rewrite (place_lookup _ _ i _ ob) by done. simpl. apply high_mask_lor; [done|].
    pose proof (new_addr_range M i _ HnM HsM Hi). pose proof (obj_size_pos ob).
    pose proof (to_range Hsrc). simpl in *. unfold new_addr in *. lia. }
  unfold gc_copy_obj.
  destruct (decide (lpayload v ∈ L.*1)) as [HL|HL].
  - apply list_elem_of_fmap in HL as ([a ob]&Ha&HL). simpl in Ha. subst a.
    apply list_elem_of_lookup in HL as [i Hi].
    rewrite (i_fwd _ _ _ _ I i _ _ Hi). simpl.
    exists L, st, p. rewrite (Hfw L i ob) by eauto using i_nodup, i_sub.
    split; [done|]. split; [done|]. split; [done|]. split; [|done].
    intros _ _. apply list_elem_of_fmap. exists (lpayload v, ob). split; [done|].
    by eapply list_elem_of_lookup_2.
  - rewrite (i_rest _ _ _ _ I) by done. destruct (src_live Hsrc _ _ Hin) as [_ ->].
    pose proof (inv_copy_fresh L k st p _ o I Hin Hr HL) as I'.
    pose proof (L_fit _ (i_nodup _ _ _ _ I') (i_sub _ _ _ _ I')) as Hfit.
    rewrite obj_size_align.
    assert (Hsz : sizes (L ++ [(lpayload v, o)]).*2 = gc_to_size p + obj_size o).
    { rewrite <- (i_size _ _ _ _ I'). done. }
    assert (Hp : gc_to p = gc_to p0 ∧ gc_to_cap p = gc_to_cap p0 ∧ sp p = sp p0).
    { rewrite (i_proc _ _ _ _ I). done. }
    destruct Hp as (Hg1&Hg2&Hg3). rewrite Hg1, Hg2, Hg3.
    destruct (Z.ltb_spec (gc_to_cap p0 + sp p0 * 8) (gc_to_size p + obj_size o)); [lia|].
    assert (Hna : gc_to p0 + gc_to_size p = new_addr L (length L)).
    { unfold new_addr. rewrite firstn_all. by rewrite (i_size _ _ _ _ I). }
    rewrite Hna. cbn [mbind outcome_bind].
    exists (L ++ [(lpayload v, o)]). do 2 eexists.
    assert (Hlast : (L ++ [(lpayload v, o)]) !! length L = Some (lpayload v, o)).
    { rewrite lookup_app_r by lia. by rewrite Nat.sub_diag. }
    rewrite <- (Hfw _ (length L) o) by eauto using i_nodup, i_sub.
    rewrite (new_addr_app L) by lia.
    split; [done|]. split; [exact I'|]. split; [by eexists|]. split; [|done].
    intros _ _. apply list_elem_of_fmap. exists (lpayload v, o). split; [done|].
    by eapply list_elem_of_lookup_2.
Qed.

Lemma fw_prefix L L' v :
  L `prefix_of` L' → NoDup L'.*1 → closed L v → fw L' v = fw L v.
Proof.
  intros [M ->] Hn Hc. unfold fw. destruct (is_heap_tag (val_tag v)) eqn:Ht; [|done].
  destruct (gc_copyable p0 (lpayload v)) eqn:Hp; [|done]. simpl.
  assert (Hin : lpayload v ∈ L.*1) by (by apply Hc).
  apply list_elem_of_fmap in Hin as ([a o]&Ha&Hin). simpl in Ha. subst a.
  apply list_elem_of_lookup in Hin as [i Hi].
  rewrite (place_lookup _ (L ++ M) i _ o); [|done|by apply lookup_app_l_Some].
  rewrite (place_lookup _ L i _ o); [|by rewrite fmap_app in Hn; apply NoDup_app in Hn as [? _]|done].
  rewrite take_app_le; [done|]. apply lookup_lt_Some in Hi. lia.
Qed.

Lemma closed_prefix L L' v : L `prefix_of` L' → closed L v → closed L' v.
Proof. intros [M ->]. apply closed_mono. Qed.

Lemma copy_vals_spec L k st p vs :
  inv L k st p → Forall ok_val vs →
  ∃ L' st' p', gc_copy_vals st p vs = Ret (fw L' <$> vs, st', p') ∧ inv L' k st' p' ∧
    L `prefix_of` L' ∧ Forall (closed L') vs ∧ slots p' = slots p.
Proof.
  intros I Hok. revert L st p I. induction Hok as [|v vs Hv Hvs IH]; intros L st p I;
    cbn [gc_copy_vals].
  - exists L, st, p. done.
  - destruct (copy_val_spec L k st p v I Hv) as (L1&st1&p1&->&I1&Hp1&Hc1&Hs1).
    cbn [mbind outcome_bind].
    destruct (IH L1 st1 p1 I1) as (L2&st2&p2&->&I2&Hp2&Hc2&Hs2).
    cbn [mbind outcome_bind]. rewrite <- (fw_prefix L1 L2 v Hp2 (i_nodup _ _ _ _ I2) Hc1).
    exists L2, st2, p2.
    split; [done|]. split; [done|]. split; [by etrans|]. split; [|congruence].
    constructor; [by eapply closed_prefix|done].
Qed.

(** ** One round of the scan *)
Lemma scan_round L k st p a o L' st' p' :
  inv L k st p → L !! k = Some (a, o) →
  inv L' k st' p' → L `prefix_of` L' → Forall (closed L') (obj_children o) →
  inv L' (S k) (write_cell st' (new_addr L' k) (Live (set_children o (fw L' <$> obj_children o)))) p'.
Proof.
  intros I Hk I' Hp Hc.
  assert (Hk' : L' !! k = Some (a, o)) by (by eapply prefix_lookup_Some).
  assert (Hnk : ∀ b, gc_copyable p0 b = true → new_addr L' k ≠ b).
  { intros b Hb. eapply new_addr_old; eauto using i_nodup, i_sub. }
  split.
  - apply I'.
  - apply I'.
  - apply I'.
  - apply lookup_lt_Some in Hk'. lia.
  - intros i b ob Hi. simpl. rewrite lookup_insert_ne; [by apply (i_fwd _ _ _ _ I')|].
    apply Hnk. apply (src_live Hsrc b ob). apply (i_sub _ _ _ _ I'). by eapply list_elem_of_lookup_2.
  - intros b Hb HbL. simpl. rewrite lookup_insert_ne by (by apply Hnk). by apply (i_rest _ _ _ _ I').
  - apply I'.
  - intros i b ob Hi Hik. simpl. destruct (decide (i = k)) as [->|Hne].
    + rewrite Hi in Hk'. injection Hk' as -> ->. by rewrite lookup_insert_eq.
    + rewrite lookup_insert_ne by (eapply new_addr_neq; [done|done|congruence]).
      eapply (i_scanned _ _ _ _ I' i b ob); [done|lia].
  - intros i b ob Hi Hik. simpl.
    rewrite lookup_insert_ne by (eapply new_addr_neq; [done|done|lia]).
    eapply (i_raw _ _ _ _ I' i b ob); [done|lia].
  - intros b Hb Hbr. simpl. rewrite lookup_insert_ne; [by apply (i_frame _ _ _ _ I')|].
    pose proof (new_addr_range L' k _ (i_nodup _ _ _ _ I') (i_sub _ _ _ _ I') Hk').
    pose proof (obj_size_pos o). simpl in *. lia.
  - apply I'.
  - apply I'.
Qed.

(** The scan pointer reaches the free pointer exactly when every copied
    object is scanned. *)
Lemma scan_done L k st p :
  inv L k st p → (gc_to_size p ≤ sizes (take k L).*2 ↔ k = length L).
Proof.
  intros I. rewrite (i_size _ _ _ _ I). pose proof (i_k _ _ _ _ I) as Hk. split.
  - intros Hge. destruct (decide (k < length L)%nat) as [Hlt|]; [|lia].
    destruct (lookup_lt_is_Some_2 L k Hlt) as [x Hx].
    pose proof (sizes_take_lt Hlt Hx) as Ht. rewrite firstn_all in Ht.
    pose proof (obj_size_pos x.2). lia.
  - intros ->. rewrite firstn_all. lia.
Qed.

Lemma copied_length L k st p : inv L k st p → 16 * Z.of_nat (length L) ≤ gc_to_cap p0.
Proof.
  intros I. pose proof (L_fit L (i_nodup _ _ _ _ I) (i_sub _ _ _ _ I)).
  pose proof (sizes_length L.*2) as Hl. rewrite length_fmap in Hl.
  pose proof (sp_nonpos Hsrc). lia.
Qed.

(** Scanning the object at the scan pointer copies its children and moves
    the pointer to the next object. *)
Lemma scan_step n L k st p :
  inv L k st p → (k < length L)%nat →
  ∃ L' st' p', gc_scan_tospace (S n) st p (sizes (take k L).*2) =
                 gc_scan_tospace n st' p' (sizes (take (S k) L').*2) ∧
    inv L' (S k) st' p' ∧ L `prefix_of` L' ∧ slots p' = slots p.
Proof.
  intros I Hkl. destruct (lookup_lt_is_Some_2 L k Hkl) as [[a o] Hx]. cbn [gc_scan_tospace].
  destruct (Z.ltb_spec (sizes (take k L).*2) (gc_to_size p)) as [_|Hge];
    [|apply (scan_done L k st p I) in Hge; lia].
  assert (Hg : ∀ q M j s, inv M j s q → gc_to q = gc_to p0).
  { intros q M j s J. by rewrite (i_proc _ _ _ _ J). }
  rewrite (Hg p L k st I). fold (new_addr L k). rewrite (i_raw _ _ _ _ I k a o Hx) by lia.
  assert (Hok : Forall ok_val (obj_children o)).
  { apply Forall_forall. intros v Hv. eapply (src_children Hsrc a o); [| |done].
    - apply (i_sub _ _ _ _ I). by eapply list_elem_of_lookup_2.
    - apply (i_reach _ _ _ _ I), list_elem_of_fmap. exists (a, o). split; [done|].
      by eapply list_elem_of_lookup_2. }
  destruct (copy_vals_spec L k st p _ I Hok) as (L1&st1&p1&->&I1&Hp1&Hc1&Hs1).
  cbn [mbind outcome_bind]. rewrite (Hg p1 L1 k st1 I1).
  pose proof (scan_round L k st p a o L1 st1 p1 I Hx I1 Hp1 Hc1) as I2.
  assert (Ha : gc_to p0 + sizes (take k L).*2 = new_addr L1 k).
  { destruct Hp1 as [M ->]. by rewrite new_addr_app by lia. }
  rewrite Ha. unfold gc_obj_size. simpl cells. rewrite lookup_insert_eq.
  cbn [mbind outcome_bind]. rewrite set_children_size, obj_size_align by apply length_fmap.
  assert (Hx1 : L1 !! k = Some (a, o)) by (by eapply prefix_lookup_Some).
  replace (sizes (take k L).*2 + obj_size o) with (sizes (take (S k) L1).*2).
  { eauto 10. }
  rewrite (take_S_r L1 k _ Hx1), fmap_app, sizes_app. unfold new_addr in Ha.
  assert (sizes ([(a, o)].*2) = obj_size o) by (csimpl; unfold sizes; simpl; lia). lia.
Qed.

(** The scan terminates: each round consumes an object of at least 16 bytes
    of a space of [gc_to_cap] bytes. *)
Lemma scan_spec n : ∀ L k st p,
  inv L k st p → gc_to_cap p0 ≤ Z.of_nat n + Z.of_nat k →
  ∃ L' st' p', gc_scan_tospace n st p (sizes (take k L).*2) = Ret (st', p') ∧
    inv L' (length L') st' p' ∧ L `prefix_of` L' ∧ slots p' = slots p.
Proof.
  induction n as [|n IH]; intros L k st p I Hn.
  all: destruct (decide (k = length L)) as [Hk|Hk].
  1,3: exists L, st, p; pose proof (proj2 (scan_done L k st p I) Hk);
    cbn [gc_scan_tospace]; rewrite (proj2 (Z.ltb_ge _ _)) by done; by subst k.
  - pose proof (copied_length L k st p I). pose proof (i_k _ _ _ _ I). lia.
  - pose proof (i_k _ _ _ _ I).
    destruct (scan_step n L k st p I ltac:(lia)) as (L1&st1&p1&->&I1&Hp1&Hs1).
    destruct (IH L1 (S k) st1 p1 I1 ltac:(lia)) as (L2&st2&p2&->&I2&Hp2&Hs2).
    exists L2, st2, p2. split; [done|]. split; [done|]. split; [by etrans|congruence].
Qed.

(** ** The roots *)
Lemma inv_slots L k st p s : inv L k st p → inv L k st (set_slots s p).
Proof.
  intros I. destruct I; split; try done. simpl. rewrite i_proc0. reflexivity.
Qed.

Lemma copy_roots_spec idxs : ∀ L k st p,
  inv L k st p → NoDup idxs →
  (∀ i, i ∈ idxs → slot_in_block p0 i = true ∧ ∃ v, slots p !! i = Some v ∧ ok_val v) →
  ∃ L' st' p', foldM gc_copy_root (st, p) idxs = Ret (st', p') ∧ inv L' k st' p' ∧
    L `prefix_of` L' ∧
    (∀ i, i ∈ idxs → slots p' !! i = fw L' <$> slots p !! i) ∧
    (∀ i, i ∉ idxs → slots p' !! i = slots p !! i) ∧
    (∀ i v, i ∈ idxs → slots p !! i = Some v → closed L' v).
Proof.
  induction idxs as [|i idxs IH]; intros L k st p I Hn Hok; cbn [foldM].
  { exists L, st, p. split; [done|]. split; [done|]. split; [done|].
    split; [by intros ? ?%elem_of_nil|]. split; [done|]. by intros ? ? ?%elem_of_nil. }
  apply NoDup_cons in Hn as [Hi Hn].
  destruct (Hok i ltac:(left)) as (Hblk&v&Hv&Hokv).
  destruct (copy_val_spec L k st p v I Hokv) as (L1&st1&p1&Hcv&I1&Hp1&Hc1&Hs1).
  assert (gc_copy_root (st, p) i = Ret (st1, set_slots (<[i:=fw L1 v]> (slots p1)) p1)) as ->.
  { unfold gc_copy_root, read_slot, write_slot. rewrite Hv. cbn [or_undef mbind outcome_bind].
    rewrite Hcv. cbn [mbind outcome_bind].
    assert (slot_in_block p1 i = true) as ->; [|done].
    rewrite <- Hblk. rewrite (i_proc _ _ _ _ I1). reflexivity. }
  cbn [mbind outcome_bind].
  destruct (IH L1 k st1 (set_slots (<[i:=fw L1 v]> (slots p1)) p1) (inv_slots _ _ _ _ _ I1) Hn)
    as (L2&st2&p2&->&I2&Hp2&Hin2&Hout2&Hcl2).
  { intros j Hj. destruct (Hok j ltac:(by right)) as (?&w&Hw&?). split; [done|]. exists w.
    simpl. rewrite Hs1, lookup_insert_ne by (intros ->; done). done. }
  simpl in Hin2, Hout2, Hcl2. rewrite Hs1 in *.
  exists L2, st2, p2. split; [done|]. split; [done|]. split; [by etrans|].
  split; [|split].
  - intros j [->|Hj]%elem_of_cons.
    + rewrite Hout2, lookup_insert_eq, Hv by done. simpl.
      by rewrite (fw_prefix L1 L2 v Hp2 (i_nodup _ _ _ _ I2) Hc1).
    + rewrite Hin2, lookup_insert_ne by (done || intros ->; done). done.
  - intros j [Hne Hj]%not_elem_of_cons. rewrite Hout2, lookup_insert_ne by done. done.
  - intros j w [->|Hj]%elem_of_cons Hw.
    + rewrite Hv in Hw. injection Hw as <-. by eapply closed_prefix.
    + apply (Hcl2 j w Hj). rewrite lookup_insert_ne by (intros ->; done). done.
Qed.

Context (Hroots : ∀ i, 0 ≤ i < - sp p0 →
           slot_in_block p0 i = true ∧ ∃ v, slots p0 !! i = Some v ∧ ok_val v).
Context (Hto : gc_to_size p0 = 0) (Hcap : 0 ≤ gc_to_cap p0).

Lemma inv_init : inv [] 0 st0 p0.
Proof.
  split; try done.
  - constructor.
  - apply list_subseteq_nil.
  - by intros ? ?%elem_of_nil.
  - destruct p0; simpl in *. by subst.
Qed.

Lemma root_slots_elem i : i ∈ root_slots p0 ↔ 0 ≤ i < - sp p0.
Proof. unfold root_slots. rewrite elem_of_reverse, elem_of_seqZ. lia. Qed.

(** Evacuation returns, and its result is the renamed heap. *)
Lemma evacuate_spec (er : option Val) :
  (∀ v, er = Some v → ok_val v) →
  ∃ L st' p', gc_evacuate st0 p0 er = Ret (fw L <$> er, st', p') ∧
    inv L (length L) st' p' ∧
    (∀ i, 0 ≤ i < - sp p0 → slots p' !! i = fw L <$> slots p0 !! i) ∧
    (∀ i v, 0 ≤ i < - sp p0 → slots p0 !! i = Some v → closed L v) ∧
    (∀ v, er = Some v → closed L v).
Proof.
  intros Her. unfold gc_evacuate.
  assert (∃ L1 st1 p1, (match er with
    | None => Ret (None, st0, p0)
    | Some v => '(v, st, p) ← gc_copy_val st0 p0 v; Ret (Some v, st, p) end)
      = Ret (fw L1 <$> er, st1, p1) ∧ inv L1 0 st1 p1 ∧ (∀ v, er = Some v → closed L1 v) ∧
      slots p1 = slots p0) as (L1&st1&p1&->&I1&Hc1&Hs1).
  { destruct er as [v|].
    - destruct (copy_val_spec [] 0 st0 p0 v inv_init (Her v eq_refl)) as (L1&st1&p1&->&I1&_&Hc&Hs).
      exists L1, st1, p1. split; [done|]. split; [done|]. split; [|done]. by intros ? [= <-].
    - exists [], st0, p0. split; [done|]. split; [apply inv_init|]. done. }
  cbn [mbind outcome_bind].
  assert (Hr1 : root_slots p1 = root_slots p0).
  { rewrite (i_proc _ _ _ _ I1). reflexivity. }
  rewrite Hr1.
  destruct (copy_roots_spec (root_slots p0) L1 0 st1 p1 I1) as (L2&st2&p2&->&I2&Hp2&Hin2&_&Hcl2).
  { unfold root_slots. rewrite reverse_Permutation. apply NoDup_seqZ. }
  { intros i Hi%root_slots_elem. rewrite Hs1. by apply Hroots. }
  cbn [mbind outcome_bind].
  assert (gc_to_cap p2 = gc_to_cap p0) as Hgc by (by rewrite (i_proc _ _ _ _ I2)).
  rewrite Hgc.
  destruct (scan_spec (Z.to_nat (gc_to_cap p0)) L2 0 st2 p2 I2 ltac:(lia))
    as (L3&st3&p3&Hr&I3&Hp3&Hs3).
  unfold sizes in Hr; simpl in Hr. rewrite Hr. cbn [mbind outcome_bind].
  exists L3, st3, p3. pose proof (i_nodup _ _ _ _ I3) as Hn3.
  assert (Hcl : ∀ v, er = Some v → closed L2 v) by (intros v E; eapply closed_prefix; eauto).
  split.
  { do 3 f_equal. destruct er as [v|]; [|done]. simpl. f_equal.
    rewrite (fw_prefix L2 L3 v) by eauto.
    symmetry. apply fw_prefix; eauto using i_nodup. }
  split; [done|]. split; [|split].
  - intros i Hi. rewrite Hs3, Hin2 by (by apply root_slots_elem). rewrite Hs1.
    destruct (slots p0 !! i) as [v|] eqn:Hv; [|done]. simpl. f_equal. symmetry.
    apply fw_prefix; [done|done|]. eapply (Hcl2 i); [by apply root_slots_elem|by rewrite Hs1].
  - intros i v Hi Hv. eapply closed_prefix; [exact Hp3|].
    eapply (Hcl2 i); [by apply root_slots_elem|by rewrite Hs1].
  - intros v E. eapply closed_prefix; eauto.
Qed.
End Cheney.

(** * Layout of a space *)
Fixpoint layout (base : Z) (objs : list obj) : list (Z * obj) :=
  match objs with
  | [] => []
  | o :: objs => (base, o) :: layout (base + obj_size o) objs
  end.

Lemma layout_snd base objs : (layout base objs).*2 = objs.
Proof. revert base. induction objs as [|o objs IH]; intros base; csimpl; [done|]. by rewrite IH. Qed.

Lemma layout_range base objs a o :
  (a, o) ∈ layout base objs → base ≤ a ∧ a + obj_size o ≤ base + sizes objs.
Proof.
  revert base. induction objs as [|o' objs IH]; intros base; csimpl; [by intros ?%elem_of_nil|].
  rewrite sizes_cons. pose proof (sizes_nonneg objs). pose proof (obj_size_pos o').
  intros [[= -> ->]|Hin]%elem_of_cons; [lia|]. apply IH in Hin. lia.
Qed.

Lemma layout_nodup base objs : NoDup (layout base objs).*1.
Proof.
  revert base. induction objs as [|o objs IH]; intros base; csimpl; [constructor|].
  apply NoDup_cons. split; [|apply IH].
  intros ([a ob]&Ha&Hin)%list_elem_of_fmap. simpl in Ha. subst a.
  apply layout_range in Hin. pose proof (obj_size_pos o). lia.
Qed.

Lemma layout_lookup base objs i o :
  objs !! i = Some o → layout base objs !! i = Some (base + sizes (take i objs), o).
Proof.
  revert base i. induction objs as [|o' objs IH]; intros base [|i] Hi; csimpl in Hi; csimpl; try done.
  - unfold sizes; simpl. simplify_eq. by rewrite Z.add_0_r.
  - rewrite (IH _ _ Hi), sizes_cons. do 2 f_equal. lia.
Qed.

Lemma layout_app base o1 o2 : layout base (o1 ++ o2) = layout base o1 ++ layout (base + sizes o1) o2.
Proof.
  revert base. induction o1 as [|o o1 IH]; intros base; csimpl.
  - unfold sizes; simpl. by rewrite Z.add_0_r.
  - rewrite IH, sizes_cons. do 3 f_equal. lia.
Qed.

(** * Releasing the garbage resources of a space *)

(** The headers the scan releases: live, owned by [pid], not yet released. *)
Definition garbage (st : store) (pid : Z) (tiles : list (Z * obj)) : list (Z * Z) :=
  omap (λ '(a, _),
    match cells st !! a with
    | Some (Live (HeapResource w r)) => if (w =? pid) && negb (r =? 0) then Some (a, r) else None
    | _ => None
    end) tiles.

(** A tile of the space is still live, or forwarded to a copy of its size. *)
Definition scannable (st : store) (tiles : list (Z * obj)) (x : Z * obj) : Prop :=
  match cells st !! x.1 with
  | Some (Live o) => o = x.2
  | Some (Forwarded _ n) =>
      (n ∉ tiles.*1) ∧ ∃ o, cells st !! n = Some (Live o) ∧ obj_size o = obj_size x.2
  | None => False
  end.

(** The destructor calls made when the payloads [rs] are released. *)
Definition dtor_events (st : store) (rs : list Z) : list (Z * Z) :=
  omap (λ r, match payloads st !! r with
             | Some (ptr, dtor) => if negb (ptr =? 0) && negb (dtor =? 0) then Some (ptr, dtor) else None
             | None => None
             end) rs.

(** What releasing the headers [g] does to the store. *)
Definition released (st : store) (g : list (Z * Z)) (st' : store) : Prop :=
  (∀ a, cells st' !! a =
     (if decide (a ∈ g.*1) then
       match cells st !! a with Some (Live (HeapResource w _)) => Some (Live (HeapResource w 0)) | c => c end
     else cells st !! a)) ∧
  (∀ r, payloads st' !! r = (if decide (r ∈ g.*2) then None else payloads st !! r)) ∧
  dtor_calls st' = dtor_calls st ++ dtor_events st g.*2 ∧
  brk st' = brk st.

(** One step of the scan, on a tile whose payload (if it must be released) is
    allocated. *)
Lemma release_step_spec st tiles a o pid :
  (a, o) ∈ tiles → scannable st tiles (a, o) →
  (∀ r, garbage st pid [(a, o)] = [(a, r)] → is_Some (payloads st !! r)) →
  ∃ st', release_space_step st a pid true = Ret (obj_size o, st') ∧
    released st (garbage st pid [(a, o)]) st'.
Proof.
  intros Hin Hs Hp. unfold release_space_step, scannable, garbage in *. simpl in *.
  assert (Hsame : released st [] st).
  { split; [done|]. split; [done|]. split; [|done]. by rewrite app_nil_r. }
  destruct (cells st !! a) as [[o'|ty n]|] eqn:Ea; [| |done].
  2:{ destruct Hs as (_&o'&En&Esz). unfold gc_obj_size. rewrite En. simpl.
      rewrite obj_size_align, Esz. eauto. }
  subst o'. destruct o as [c d|e fs|d|d|w r]; simpl;
    try (unfold gc_obj_size; rewrite Ea; simpl; rewrite obj_size_align; by eauto).
  destruct (Z.eqb_spec w pid) as [->|]; simpl.
  2:{ unfold gc_obj_size; rewrite Ea; simpl; rewrite obj_size_align; by eauto. }
  unfold ta_resource_release, read_resource. rewrite Ea. simpl.
  destruct (Z.eqb_spec r 0) as [->|Hr]; simpl.
  { unfold gc_obj_size; rewrite Ea; simpl; rewrite obj_size_align; by eauto. }
  destruct (Hp r eq_refl) as [[ptr dtor] Er].
  rewrite Er. simpl.
  unfold gc_obj_size. simpl. rewrite lookup_insert_eq. simpl. rewrite obj_size_align.
  eexists. split; [done|]. split; [|split; [|split; [|done]]].
  - intros x. simpl. destruct (decide (x ∈ [a])) as [->%list_elem_of_singleton|Hx].
    + by rewrite lookup_insert_eq, Ea.
    + rewrite list_elem_of_singleton in Hx. by rewrite lookup_insert_ne.
  - intros x. simpl. destruct (decide (x ∈ [r])) as [->%list_elem_of_singleton|Hx].
    + by rewrite lookup_delete_eq.
    + rewrite list_elem_of_singleton in Hx. by rewrite lookup_delete_ne.
  - simpl. unfold dtor_events. simpl. rewrite Er.
    destruct (negb (ptr =? 0) && negb (dtor =? 0)); simpl; [done|]. by rewrite app_nil_r.
Qed.

Lemma garbage_cons st pid x l : garbage st pid (x :: l) = garbage st pid [x] ++ garbage st pid l.
Proof. unfold garbage. simpl. destruct x as [a o]. by repeat case_match. Qed.

Lemma garbage_addr st pid l a r : (a, r) ∈ garbage st pid l → a ∈ l.*1.
Proof.
  unfold garbage. intros ([b o]&Hin&Hb)%list_elem_of_omap. repeat case_match; simplify_eq.
  apply list_elem_of_fmap. by exists (a, o).
Qed.

Lemma garbage_addrs st pid l a : a ∈ (garbage st pid l).*1 → a ∈ l.*1.
Proof. intros ([b r]&->&Hin)%list_elem_of_fmap. by eapply garbage_addr. Qed.

(** Releasing other headers does not change what is garbage in [l]. *)
Lemma garbage_released st st' g pid l :
  released st g st' → (∀ a, a ∈ l.*1 → a ∉ g.*1) → garbage st' pid l = garbage st pid l.
Proof.
  intros (Hc&_) Hd. induction l as [|[a o] l IH]; [done|].
  rewrite (garbage_cons st'), (garbage_cons st), IH.
  - unfold garbage. simpl. rewrite Hc, decide_False; [done|]. apply Hd. by left.
  - intros b Hb. apply Hd. by right.
Qed.

Lemma dtor_events_released st g st' l :
  released st g st' → (∀ r, r ∈ l → r ∉ g.*2) → dtor_events st' l = dtor_events st l.
Proof.
  intros (_&Hp&_) Hd. induction l as [|r l IH]; [done|].
  change (r :: l) with ([r] ++ l). unfold dtor_events in *. rewrite !omap_app, IH.
  - f_equal. simpl. rewrite Hp, decide_False; [done|]. apply Hd. by left.
  - intros x Hx. apply Hd. by right.
Qed.

Lemma released_app st g1 st1 g2 st2 :
  released st g1 st1 → released st1 g2 st2 → (∀ a, a ∈ g2.*1 → a ∉ g1.*1) →
  (∀ r, r ∈ g2.*2 → r ∉ g1.*2) → released st (g1 ++ g2) st2.
Proof.
  intros R1 (Hc2&Hp2&Hd2&Hb2) Ha Hr. rewrite (dtor_events_released _ _ _ _ R1 Hr) in Hd2.
  destruct R1 as (Hc1&Hp1&Hd1&Hb1). split; [|split; [|split]].
  - intros a. rewrite Hc2, Hc1, fmap_app.
    destruct (decide (a ∈ g2.*1)) as [H2|H2].
    + rewrite decide_False by (by apply Ha). rewrite decide_True by (apply elem_of_app; by right). done.
    + destruct (decide (a ∈ g1.*1)) as [H1|H1].
      * by rewrite decide_True by (apply elem_of_app; by left).
      * by rewrite decide_False by (rewrite elem_of_app; tauto).
  - intros r. rewrite Hp2, Hp1, fmap_app.
    destruct (decide (r ∈ g2.*2)) as [H2|H2], (decide (r ∈ g1.*2)) as [H1|H1],
      (decide (r ∈ g1.*2 ++ g2.*2)) as [H3|H3]; try done; rewrite elem_of_app in H3; tauto.
  - rewrite Hd2, Hd1, fmap_app. unfold dtor_events. by rewrite omap_app, app_assoc.
  - congruence.
Qed.

(** The scan only looks at tiles that releasing others leaves alone. *)
Lemma scannable_released st g st' tiles x :
  released st g st' → (∀ a, a ∈ g.*1 → a ∈ tiles.*1) → x.1 ∉ g.*1 →
  scannable st tiles x → scannable st' tiles x.
Proof.
  intros (Hc&_) Hg Hx Hs. unfold scannable in *. rewrite Hc, decide_False by done.
  destruct (cells st !! x.1) as [[o|ty n]|]; [done| |done].
  destruct Hs as [Hn Hs]. split; [done|]. rewrite Hc, decide_False; [done|]. auto.
Qed.

Lemma release_loop_spec tiles space pid rest : ∀ fuel off st,
  layout (space + off) rest ⊆ tiles → Forall (scannable st tiles) (layout (space + off) rest) →
  NoDup (garbage st pid (layout (space + off) rest)).*2 →
  (∀ r, r ∈ (garbage st pid (layout (space + off) rest)).*2 → is_Some (payloads st !! r)) →
  (length rest ≤ fuel)%nat →
  ∃ st', release_space_loop fuel st space off (off + sizes rest) pid true = Ret st' ∧
    released st (garbage st pid (layout (space + off) rest)) st'.
Proof.
  induction rest as [|o rest IH]; intros fuel off st Hsub Hs Hn Hp Hf.
  - exists st. unfold sizes; simpl. destruct fuel; simpl; rewrite Z.add_0_r, Z.ltb_irrefl;
      (split; [done|]); (split; [done|split; [done|split; [by rewrite app_nil_r|done]]]).
  - destruct fuel as [|fuel]; simpl in Hf; [lia|]. cbn [release_space_loop layout] in *.
    rewrite sizes_cons. pose proof (sizes_nonneg rest). pose proof (obj_size_pos o).
    replace (off <? off + (obj_size o + sizes rest)) with true by (symmetry; apply Z.ltb_lt; lia).
    rewrite garbage_cons, fmap_app in Hn, Hp. rewrite garbage_cons.
    apply NoDup_app in Hn as (Hn1&Hn12&Hn2). apply Forall_cons in Hs as [Ho Hs].
    pose proof (layout_nodup (space + off) (o :: rest)) as Hnd. csimpl in Hnd.
    apply NoDup_cons in Hnd as [Hnot _].
    destruct (release_step_spec st tiles (space + off) o pid) as (st1&->&R1).
    { apply Hsub. by left. } { done. }
    { intros r Hg. apply Hp. rewrite Hg. by left. }
    cbn [mbind outcome_bind].
    assert (Hg1 : ∀ a, a ∈ (garbage st pid [(space + off, o)]).*1 → a = space + off).
    { intros a Ha. apply garbage_addrs in Ha. csimpl in Ha. by apply list_elem_of_singleton in Ha. }
    assert (Hr : garbage st1 pid (layout (space + off + obj_size o) rest) =
                 garbage st pid (layout (space + off + obj_size o) rest)).
    { apply (garbage_released _ _ _ _ _ R1). intros a Ha Hin%Hg1. congruence. }
    replace (space + off + obj_size o) with (space + (off + obj_size o)) in * by lia.
    replace (off + (obj_size o + sizes rest)) with (off + obj_size o + sizes rest) by lia.
    destruct (IH fuel (off + obj_size o) st1) as (st2&->&R2).
    { intros x Hx. apply Hsub. by right. }
    { rewrite Forall_forall in Hs |- *. intros x Hx. apply (scannable_released _ _ _ _ _ R1).
      - intros a ->%Hg1. apply list_elem_of_fmap. exists (space + off, o). split; [done|].
        apply Hsub. by left.
      - intros Hin%Hg1. apply Hnot. rewrite <- Hin. by apply list_elem_of_fmap_2.
      - by apply Hs. }
    { by rewrite Hr. }
    { rewrite Hr. intros r Hin. destruct R1 as (_&Hpl&_). rewrite Hpl, decide_False.
      - apply Hp, elem_of_app. by right.
      - intros Hin1. by apply (Hn12 r). }
    { lia. }
    exists st2. split; [done|]. rewrite Hr in R2. eapply released_app; [done|done| |].
    + intros a Ha Hin%Hg1. subst a. apply Hnot. by apply garbage_addrs in Ha.
    + intros r Ha Hin. by apply (Hn12 r).
Qed.

(** A scan of a whole space of objects releases exactly its garbage. *)
Lemma release_space_spec st space objs pid :
  Forall (scannable st (layout space objs)) (layout space objs) →
  NoDup (garbage st pid (layout space objs)).*2 →
  (∀ r, r ∈ (garbage st pid (layout space objs)).*2 → is_Some (payloads st !! r)) →
  ∃ st', resource_release_space st space (sizes objs) pid true = Ret st' ∧
    released st (garbage st pid (layout space objs)) st'.
Proof.
  intros Hs Hn Hp. unfold resource_release_space.
  destruct (release_loop_spec (layout space objs) space pid objs (Z.to_nat (sizes objs)) 0 st) as (st'&He&Hr);
    rewrite ?Z.add_0_r in *; eauto.
  pose proof (sizes_length objs). lia.
Qed.
