(* ===== verification/GcSpec.v ===== *)
(** The collector as its callers see it.

    [arena_ok] is the invariant of an actor's memory: the heap is a sequence of
    well-formed objects from the start of the block, every value of the stack
    and of an object is immediate, points to an object of its own type in the
    heap, or points outside both semispaces.  A collection preserves it, keeps
    exactly the reachable objects under an injective renaming of addresses, and
    finalises exactly the unreachable resources the actor owns. *)
From stdpp Require Import base tactics list gmap strings.
From Stdlib Require Import ZArith Lia.
From S2P Require Import Prelude Values Heap Resource Gc GcCorrect.
Open Scope Z_scope.

Definition heap_ref (v : Val) : Prop := is_heap_tag (val_tag v) = true.

(** Outside both semispaces: a constant of the program, or a chunk object. *)
Definition foreign (st : store) (p : ProcMem) (a : Z) : Prop :=
  0 ≤ a < brk st ∧ (a < mem p ∨ mem p + mem_size p ≤ a) ∧ (a < gc_to p ∨ gc_to p + gc_to_cap p ≤ a).

(** In the chunk arena while a convergence collection runs. *)
Definition promoted (p : ProcMem) (a : Z) : bool :=
  match ccall p with Some ca => ca_promote ca && val_in_chunk p a | None => false end.

(** A value the collector may meet, where [tiles] are the objects it copies. *)
Definition arena_val (st : store) (p : ProcMem) (tiles : list (Z * obj)) (v : Val) : Prop :=
  0 ≤ v < 2 ^ 64 ∧
  (heap_ref v →
     (∃ o, (lpayload v, o) ∈ tiles ∧ obj_tag o = val_tag v) ∨
     (foreign st p (lpayload v) ∧ gc_copyable p (lpayload v) = false)).

Record blocks_ok (cap : Z) (st : store) (p : ProcMem) : Prop := {
  b_cap : cap ≤ 2 ^ 30;
  b_mem : 0 < mem p ∧ mem p + mem_size p ≤ brk st ∧ mem p + mem_size p ≤ ADDR_LIMIT;
  b_size : 0 < mem_size p ≤ cap;
  b_to : gc_to p = 0 ∨
    (0 < gc_to p ∧ gc_to p + gc_to_cap p ≤ brk st ∧ gc_to p + gc_to_cap p ≤ ADDR_LIMIT ∧
     (gc_to p + gc_to_cap p ≤ mem p ∨ mem p + mem_size p ≤ gc_to p));
  b_to_cap : 0 ≤ gc_to_cap p ≤ mem_size p
}.

(** Distinct owned, unreleased resource headers have distinct payloads, all
    allocated. *)
Definition resources_ok (st : store) (pid : Z) (tiles : list (Z * obj)) : Prop :=
  ∀ a1 a2 r, (a1, r) ∈ garbage st pid tiles → (a2, r) ∈ garbage st pid tiles →
    a1 = a2 ∧ is_Some (payloads st !! r).

(** [objs] is the heap in address order; [ck] the chunk objects a convergence
    collection also copies (none otherwise). *)
Record arena_ok (cap : Z) (st : store) (p : ProcMem) (objs : list obj) (ck : list (Z * obj)) : Prop := {
  a_blocks : blocks_ok cap st p;
  a_top : heap_ptr p = sizes objs;
  a_cells : ∀ a o, (a, o) ∈ layout (mem p) objs ++ ck → cells st !! a = Some (Live o);
  a_fields : ∀ a o v, (a, o) ∈ layout (mem p) objs ++ ck → v ∈ obj_children o →
    arena_val st p (layout (mem p) objs ++ ck) v;
  a_stack : ∀ i, 0 ≤ i < - sp p →
    ∃ v, slots p !! i = Some v ∧ arena_val st p (layout (mem p) objs ++ ck) v;
  a_sp : sp p ≤ 0 ∧ stack_floor p ≤ 0;
  a_gap : heap_ptr p ≤ mem_size p + sp p * 8;
  a_res : resources_ok st (pid p) (layout (mem p) objs ++ ck);
  a_ck : NoDup ck.*1 ∧ ∀ a o, (a, o) ∈ ck → foreign st p a ∧ gc_copyable p a = true;
  a_promote : ∀ a, promoted p a = true → foreign st p a
}.

(** The heap stays clear of the deepest reserved frame. *)
Definition fits (p : ProcMem) : Prop := heap_ptr p ≤ mem_size p + proc_stack_lo p * 8.

(** What the roots keep alive. *)
Inductive reachable (st : store) (p : ProcMem) (er : option Val) : Z → Prop :=
| reach_root i v : 0 ≤ i < - sp p → slots p !! i = Some v →
    heap_ref v → gc_copyable p (lpayload v) = true → reachable st p er (lpayload v)
| reach_extra v : er = Some v →
    heap_ref v → gc_copyable p (lpayload v) = true → reachable st p er (lpayload v)
| reach_field a o v : reachable st p er a → cells st !! a = Some (Live o) → v ∈ obj_children o →
    heap_ref v → gc_copyable p (lpayload v) = true → reachable st p er (lpayload v).

(** A renaming of addresses, applied to a value and to an object. *)
Definition rename (ren : gmap Z Z) (v : Val) : Val :=
  if is_heap_tag (val_tag v)
  then match ren !! lpayload v with Some b => lbox (val_tag v) b | None => v end
  else v.
Definition rename_obj (ren : gmap Z Z) (o : obj) : obj := set_children o (rename ren <$> obj_children o).

(** [p'] in [st'] holds the renamed live part of [p] in [st] and nothing else. *)
Record relocated (st : store) (p : ProcMem) (er : option Val)
    (ren : gmap Z Z) (st' : store) (p' : ProcMem) (objs' : list obj) : Prop := {
  r_reach : ∀ a, is_Some (ren !! a) ↔ reachable st p er a;
  r_inj : ∀ a1 a2 b, ren !! a1 = Some b → ren !! a2 = Some b → a1 = a2;
  r_obj : ∀ a b o, ren !! a = Some b → cells st !! a = Some (Live o) →
    (b, rename_obj ren o) ∈ layout (mem p') objs';
  r_only : ∀ b o', (b, o') ∈ layout (mem p') objs' → ∃ a, ren !! a = Some b;
  r_sp : sp p' = sp p ∧ stack_floor p' = stack_floor p ∧ pid p' = pid p ∧
    gc_gate p' = gc_gate p ∧ gc_pending p' = gc_pending p ∧ ccall p' = ccall p;
  r_slots : ∀ i, 0 ≤ i < - sp p → slots p' !! i = rename ren <$> slots p !! i
}.

(** * Sizing the destination *)
Lemma proc_stack_lo_le p : proc_stack_lo p ≤ sp p ∧ proc_stack_lo p ≤ stack_floor p.
Proof. unfold proc_stack_lo. destruct (Z.ltb_spec (sp p) (stack_floor p)); lia. Qed.

Lemma gc_want_spec cap p extra :
  0 < mem_size p ≤ cap → gc_need p extra < 2 ^ 32 →
  mem_size p ≤ gc_want cap p extra ≤ cap ∧ (gc_want cap p extra < gc_need p extra ↔ cap < gc_need p extra).
Proof.
  intros Hm Hn. unfold gc_want.
  pose proof (double_want_bound DOUBLINGS (mem_size p) (gc_need p extra) cap ltac:(lia)).
  pose proof (double_want_done (mem_size p) (gc_need p extra) cap ltac:(lia) Hn).
  destruct (Z.ltb_spec cap (double_want DOUBLINGS (mem_size p) (gc_need p extra) cap)); lia.
Qed.

Lemma reserve_tospace_spec cap st p want :
  blocks_ok cap st p → mem_size p ≤ want ≤ cap → brk st + cap < ADDR_LIMIT →
  ∃ b st1, gc_reserve_tospace st p want = Ret (st1, set_gc_to b (set_gc_to_cap want p)) ∧
    cells st1 = cells st ∧ payloads st1 = payloads st ∧ dtor_calls st1 = dtor_calls st ∧
    brk st ≤ brk st1 ≤ brk st + cap + 16 ∧ 0 < b ∧ b + want ≤ brk st1 ∧ b + want ≤ ADDR_LIMIT ∧
    (b + want ≤ mem p ∨ mem p + mem_size p ≤ b) ∧
    (∀ a, foreign st p a → a < b ∨ b + want ≤ a).
Proof.
  intros [Hc Hm Hs Ht Htc] Hw Hroom. unfold gc_reserve_tospace.
  destruct ((gc_to p =? 0) || (gc_to_cap p <? want)) eqn:E.
  - unfold malloc. replace (brk st + want <? ADDR_LIMIT) with true by (symmetry; apply Z.ltb_lt; lia).
    eexists _, _. split; [done|]. simpl. pose proof (Z.mul_succ_div_gt want 16 ltac:(lia)).
    pose proof (Z.mul_div_le want 16 ltac:(lia)).
    repeat split; try done; try lia. intros a (?&_). lia.
  - apply orb_false_iff in E as [E1%Z.eqb_neq E2%Z.ltb_ge].
    destruct Ht as [?|Ht]; [done|].
    assert (gc_to_cap p = want) as Hcap by lia. exists (gc_to p), st.
    split; [by rewrite <- Hcap; destruct p|]. rewrite <- Hcap.
    repeat split; try done; try lia. by intros a (_&_&?).
Qed.

(** * Renaming and forwarding agree *)
Section Agree.
Context (st0 : store) (p0 : ProcMem) (src : list (Z * obj)) (reach : Z → Prop).
Context (Hsrc : source_ok st0 p0 src reach).

Lemma fw_rename L v : L ⊆ src → closed p0 L v → fw p0 L v = rename (place (gc_to p0) L) v.
Proof.
  intros Hs Hc. unfold fw, rename. destruct (is_heap_tag (val_tag v)) eqn:Ht; [|done]. simpl.
  destruct (gc_copyable p0 (lpayload v)) eqn:Hp.
  - assert (Hin : lpayload v ∈ L.*1) by (by apply Hc).
    apply (place_dom (gc_to p0)) in Hin as [b ->]. done.
  - destruct (place (gc_to p0) L !! lpayload v) as [b|] eqn:E; [|done].
    assert (lpayload v ∈ L.*1) as Hin by (apply (place_dom (gc_to p0)); eauto).
    apply list_elem_of_fmap in Hin as ([a o]&Ha&Hin). simpl in Ha.
    apply Hs, (src_live _ _ _ _ Hsrc) in Hin as [Hg _]. congruence.
Qed.

Lemma fw_rename_list L vs : L ⊆ src → Forall (closed p0 L) vs → fw p0 L <$> vs = rename (place (gc_to p0) L) <$> vs.
Proof.
  intros Hs Hc. apply list_fmap_ext. intros i v Hi. apply fw_rename; [done|].
  rewrite Forall_forall in Hc. apply Hc. by eapply list_elem_of_lookup_2.
Qed.

(** The copied objects, renamed, are the layout of tospace. *)
Definition copied (L : list (Z * obj)) : list obj := rename_obj (place (gc_to p0) L) <$> L.*2.

Lemma rename_obj_size ren o : obj_size (rename_obj ren o) = obj_size o.
Proof. apply set_children_size. by rewrite length_fmap. Qed.
Lemma rename_obj_tag ren o : obj_tag (rename_obj ren o) = obj_tag o.
Proof. apply set_children_tag. Qed.

Lemma sizes_rename ren os : sizes (rename_obj ren <$> os) = sizes os.
Proof. unfold sizes. rewrite <- list_fmap_compose. f_equal. apply list_fmap_ext. intros. apply rename_obj_size. Qed.

Lemma copied_lookup L i a o :
  L !! i = Some (a, o) →
  layout (gc_to p0) (copied L) !! i = Some (new_addr p0 L i, rename_obj (place (gc_to p0) L) o).
Proof.
  intros Hi. unfold copied. erewrite layout_lookup; [|by rewrite !list_lookup_fmap, Hi].
  f_equal. f_equal. unfold new_addr. by rewrite <- fmap_take, sizes_rename, <- fmap_take.
Qed.

Lemma copied_inv L b o' :
  (b, o') ∈ layout (gc_to p0) (copied L) →
  ∃ i a o, L !! i = Some (a, o) ∧ b = new_addr p0 L i ∧ o' = rename_obj (place (gc_to p0) L) o.
Proof.
  intros (i&Hi)%list_elem_of_lookup_1.
  assert ((i < length L)%nat) as Hlt.
  { apply lookup_lt_Some in Hi. rewrite <- (length_fmap snd), layout_snd in Hi.
    unfold copied in Hi. by rewrite !length_fmap in Hi. }
  destruct (lookup_lt_is_Some_2 L i Hlt) as [[a o] Hx].
  rewrite (copied_lookup L i a o Hx) in Hi. naive_solver.
Qed.
End Agree.

(** * Garbage *)
Lemma elem_of_garbage st pid l a r :
  (a, r) ∈ garbage st pid l ↔ a ∈ l.*1 ∧ cells st !! a = Some (Live (HeapResource pid r)) ∧ r ≠ 0.
Proof.
  unfold garbage. rewrite list_elem_of_omap. split.
  - intros ([b o]&Hin&Hb). destruct (cells st !! b) as [[[]|]|] eqn:E; try done.
    destruct (Z.eqb_spec owner_pid pid) as [->|]; [|done].
    destruct (Z.eqb_spec res 0); simpl in Hb; [done|]. simplify_eq.
    split; [|done]. apply list_elem_of_fmap. by exists (a, o).
  - intros (([b o]&->&Hin)%list_elem_of_fmap&E&Hr). exists (b, o). split; [done|]. simpl in *.
    rewrite E, Z.eqb_refl. by apply Z.eqb_neq in Hr as ->.
Qed.

Lemma garbage_nodup st pid l :
  NoDup l.*1 → (∀ a1 a2 r, (a1, r) ∈ garbage st pid l → (a2, r) ∈ garbage st pid l → a1 = a2) →
  NoDup (garbage st pid l).*2.
Proof.
  intros Hn Hi. induction l as [|[a o] l IH]; [constructor|].
  csimpl in Hn. apply NoDup_cons in Hn as [Ha Hn]. rewrite garbage_cons in *. rewrite fmap_app.
  apply NoDup_app. split; [|split].
  - unfold garbage. simpl. repeat case_match; csimpl; try constructor; try done.
    + apply not_elem_of_nil.
    + constructor.
  - intros r ([a1 r1]&->&H1)%list_elem_of_fmap ([a2 r2]&E&H2)%list_elem_of_fmap. simpl in E. subst r2.
    assert (a1 = a2) as -> by (apply (Hi a1 a2 r1); apply elem_of_app; [by left|by right]).
    apply elem_of_garbage in H1 as [H1 _]. apply list_elem_of_singleton in H1. simpl in H1. subst a2.
    apply elem_of_garbage in H2 as [H2 _]. done.
  - apply IH; [done|]. intros a1 a2 r H1 H2. apply (Hi a1 a2 r); apply elem_of_app; by right.
Qed.

Lemma garbage_filter st st' pid l (P : Z * obj → Prop) `{!∀ x, Decision (P x)} :
  (∀ x, x ∈ l → P x → cells st' !! x.1 = cells st !! x.1) →
  (∀ x, x ∈ l → ¬ P x → ∃ ty n, cells st' !! x.1 = Some (Forwarded ty n)) →
  garbage st' pid l = garbage st pid (filter P l).
Proof.
  intros H1 H2. induction l as [|[a o] l IH]; [done|]. rewrite garbage_cons.
  rewrite IH by (intros; (apply H1 || apply H2); [by right|done]).
  rewrite filter_cons. destruct (decide (P (a, o))) as [HP|HP].
  - rewrite (garbage_cons st). f_equal. unfold garbage. simpl.
    pose proof (H1 (a, o) ltac:(by left) HP) as E. simpl in E. by rewrite E.
  - unfold garbage at 1. simpl. destruct (H2 (a, o) ltac:(by left) HP) as (ty&n&E).
    simpl in E. by rewrite E.
Qed.

(** * The collection *)
Section Collect.
Context (cap : Z) (st : store) (p : ProcMem) (objs : list obj) (ck : list (Z * obj)).
Context (extra : Z) (er : option Val).
Let tiles := layout (mem p) objs ++ ck.
Context (Hok : arena_ok cap st p objs ck) (Hck : sizes ck.*2 ≤ extra).
Context (Her : ∀ v, er = Some v → arena_val st p tiles v).

Lemma layout_fromspace a o : (a, o) ∈ layout (mem p) objs → in_fromspace p a = true.
Proof.
  intros Hin. apply layout_range in Hin. pose proof (obj_size_pos o).
  rewrite <- (a_top _ _ _ _ _ Hok) in Hin. unfold in_fromspace.
  apply andb_true_intro. split; [apply Z.leb_le|apply Z.ltb_lt]; lia.
Qed.

Lemma tile_copyable a o : (a, o) ∈ tiles → gc_copyable p a = true.
Proof.
  intros [Hin|Hin]%elem_of_app.
  - unfold gc_copyable. by rewrite (layout_fromspace a o Hin).
  - by apply (a_ck _ _ _ _ _ Hok) in Hin as [_ ?].
Qed.

Lemma heap_in_block : 0 ≤ heap_ptr p ≤ mem_size p.
Proof.
  pose proof (a_gap _ _ _ _ _ Hok). pose proof (a_sp _ _ _ _ _ Hok).
  rewrite (a_top _ _ _ _ _ Hok) in *. pose proof (sizes_nonneg objs). lia.
Qed.

Lemma tiles_nodup : NoDup tiles.*1.
Proof.
  unfold tiles. rewrite fmap_app. apply NoDup_app. split; [apply layout_nodup|].
  split; [|apply (a_ck _ _ _ _ _ Hok)].
  intros x ([a o]&->&Hin)%list_elem_of_fmap ([a' o']&E&Hin')%list_elem_of_fmap. simpl in E. subst a'.
  apply (a_ck _ _ _ _ _ Hok) in Hin' as [(_&Hf&_) _].
  apply layout_range in Hin. pose proof heap_in_block. rewrite <- (a_top _ _ _ _ _ Hok) in Hin.
  pose proof (obj_size_pos o). simpl in *. lia.
Qed.

Lemma arena_val_tile v :
  arena_val st p tiles v → heap_ref v → gc_copyable p (lpayload v) = true → lpayload v ∈ tiles.*1.
Proof.
  intros [_ Hr] Ht Hg. destruct (Hr Ht) as [(o&Hin&_)|[_ Hn]]; [|congruence].
  apply list_elem_of_fmap. by exists (lpayload v, o).
Qed.

Lemma reachable_tile a : reachable st p er a → a ∈ tiles.*1.
Proof.
  induction 1 as [i v Hi Hv Ht Hg|v E Ht Hg|a o v Ha IH Hc Hin Ht Hg]; apply arena_val_tile; try done.
  - destruct (a_stack _ _ _ _ _ Hok i Hi) as (w&Hw&Haw). rewrite Hw in Hv. by injection Hv as <-.
  - by apply Her.
  - apply list_elem_of_fmap in IH as ([a' o']&E&IH). simpl in E. subst a'.
    pose proof (a_cells _ _ _ _ _ Hok a o' IH). assert (o' = o) as -> by congruence.
    by eapply (a_fields _ _ _ _ _ Hok).
Qed.

(** The state after tospace has been reserved at [b]. *)
Context (want b : Z) (st1 : store).
Context (Hcells : cells st1 = cells st) (Hpay : payloads st1 = payloads st)
  (Hdt : dtor_calls st1 = dtor_calls st) (Hbrk : brk st ≤ brk st1)
  (Hb : 0 < b) (Hb1 : b + want ≤ brk st1) (Hb2 : b + want ≤ ADDR_LIMIT)
  (Hdisj : b + want ≤ mem p ∨ mem p + mem_size p ≤ b)
  (Hfor : ∀ a, foreign st p a → a < b ∨ b + want ≤ a)
  (Hwant : mem_size p ≤ want ≤ cap) (Hfit : gc_need p extra ≤ want).
Let p1 := set_gc_to_size 0 (set_gc_to b (set_gc_to_cap want p)).
Let reach := reachable st p er.

Lemma arena_ok_val v :
  arena_val st p tiles v → (heap_ref v → gc_copyable p (lpayload v) = true → reach (lpayload v)) →
  ok_val p1 tiles reach v.
Proof.
  intros [Hv Hr] Hreach. split; [done|]. intros Ht Hg. split; [by apply Hreach|].
  destruct (Hr Ht) as [?|[_ Hn]]; [done|]. change (gc_copyable p (lpayload v) = true) in Hg. congruence.
Qed.

Lemma collect_source_ok : source_ok st1 p1 tiles reach.
Proof.
  pose proof (proc_stack_lo_le p) as Hlo. pose proof heap_in_block as Hh.
  destruct (a_blocks _ _ _ _ _ Hok) as [_ Hm Hs _ _].
  split.
  - apply tiles_nodup.
  - intros a o Hin. split; [by eapply (tile_copyable a o)|]. rewrite Hcells. by apply (a_cells _ _ _ _ _ Hok).
  - intros a o v Hin Ha Hv. apply arena_ok_val; [by eapply (a_fields _ _ _ _ _ Hok)|].
    intros Ht Hg. eapply reach_field; eauto. by apply (a_cells _ _ _ _ _ Hok).
  - unfold tiles. rewrite fmap_app, sizes_app, layout_snd. simpl.
    rewrite <- (a_top _ _ _ _ _ Hok). unfold gc_need in Hfit. lia.
  - simpl. split; [done|]. exact Hb2.
  - apply (a_sp _ _ _ _ _ Hok).
  - intros a Hg. simpl. change (gc_copyable p a = true) in Hg.
    apply orb_true_iff in Hg as [Hin|Hf]; [|by apply Hfor, (a_promote _ _ _ _ _ Hok)].
    unfold in_fromspace in Hin. apply andb_true_iff in Hin as [H1%Z.leb_le H2%Z.ltb_lt]. lia.
Qed.

Lemma collect_roots i : 0 ≤ i < - sp p1 →
  slot_in_block p1 i = true ∧ ∃ v, slots p1 !! i = Some v ∧ ok_val p1 tiles reach v.
Proof.
  simpl. intros Hi. pose proof heap_in_block. pose proof (a_gap _ _ _ _ _ Hok). split.
  - unfold slot_in_block. simpl. apply andb_true_intro. split; apply Z.leb_le; lia.
  - destruct (a_stack _ _ _ _ _ Hok i Hi) as (v&Hv&Hav). exists v. split; [done|].
    apply arena_ok_val; [done|]. intros. by eapply reach_root.
Qed.

Lemma collect_extra v : er = Some v → ok_val p1 tiles reach v.
Proof. intros E. apply arena_ok_val; [by apply Her|]. intros. by eapply reach_extra. Qed.

(** The state after evacuation: the objects [L] have been copied. *)
Context (L : list (Z * obj)) (st2 : store) (p2 : ProcMem).
Context (I : inv st1 p1 tiles reach L (length L) st2 p2).
Context (Hslots : ∀ i, 0 ≤ i < - sp p → slots p2 !! i = fw p1 L <$> slots p !! i)
  (Hrc : ∀ i v, 0 ≤ i < - sp p → slots p !! i = Some v → closed p1 L v)
  (Hec : ∀ v, er = Some v → closed p1 L v).
Let ren := place b L.
Let objs' := copied p1 L.
Let lay := layout (mem p) objs.

Lemma reach_copied a : reach a → a ∈ L.*1.
Proof.
  induction 1 as [i v Hi Hv Ht Hg|v E Ht Hg|a o v Ha IH Hc Hin Ht Hg].
  - by apply (Hrc i v Hi Hv).
  - by apply (Hec v E).
  - apply list_elem_of_fmap in IH as ([a' o']&E&HL). simpl in E. subst a'.
    assert (o' = o) as ->.
    { pose proof (i_sub _ _ _ _ _ _ _ _ I _ HL) as Ht2. apply (a_cells _ _ _ _ _ Hok) in Ht2. congruence. }
    apply list_elem_of_lookup_1 in HL as (i&Hi).
    destruct (i_scanned _ _ _ _ _ _ _ _ I i a o Hi) as [_ Hcl]; [by eapply lookup_lt_Some|].
    rewrite Forall_forall in Hcl. by apply (Hcl v).
Qed.

Lemma ren_reach a : is_Some (ren !! a) ↔ reach a.
Proof.
  unfold ren. rewrite place_dom. split; [|apply reach_copied].
  intros Ha. by apply (i_reach _ _ _ _ _ _ _ _ I).
Qed.

Lemma ren_lookup a a' : ren !! a = Some a' → ∃ i o, L !! i = Some (a, o) ∧ a' = new_addr p1 L i.
Proof.
  intros E. assert (a ∈ L.*1) as Hin by (apply (place_dom b); eauto).
  apply list_elem_of_fmap in Hin as ([x o]&Ha&Hin). simpl in Ha. subst x.
  apply list_elem_of_lookup_1 in Hin as (i&Hi). exists i, o. split; [done|].
  unfold ren in E. rewrite (place_lookup b L i a o (i_nodup _ _ _ _ _ _ _ _ I) Hi) in E.
  injection E as <-. reflexivity.
Qed.

Lemma ren_inj a1 a2 a' : ren !! a1 = Some a' → ren !! a2 = Some a' → a1 = a2.
Proof.
  intros (i&o1&Hi&->)%ren_lookup (j&o2&Hj&Hij)%ren_lookup.
  destruct (decide (i = j)) as [->|Hne]; [congruence|].
  exfalso. by eapply (new_addr_neq p1 L i j).
Qed.

Lemma copied_top : gc_to_size p2 = sizes objs'.
Proof. rewrite (i_size _ _ _ _ _ _ _ _ I). unfold objs', copied. by rewrite sizes_rename. Qed.

Lemma new_addr_tospace i x :
  L !! i = Some x → b ≤ new_addr p1 L i ∧ new_addr p1 L i + obj_size x.2 ≤ b + want.
Proof.
  intros Hi. eapply (new_addr_range _ _ _ _ collect_source_ok L i x); [apply I|apply I|done].
Qed.

(** Tiles of the old heap: forwarded if copied, untouched otherwise. *)
Lemma old_scannable : Forall (scannable st2 lay) lay.
Proof.
  apply Forall_forall. intros [a o] Hin. unfold scannable. simpl.
  assert (Ht : (a, o) ∈ tiles) by (apply elem_of_app; by left).
  destruct (decide (a ∈ L.*1)) as [HL|HL].
  - apply list_elem_of_fmap in HL as ([a' o']&E&HL). simpl in E. subst a'.
    assert (o' = o) as ->.
    { pose proof (i_sub _ _ _ _ _ _ _ _ I _ HL) as Ht2.
      apply (a_cells _ _ _ _ _ Hok) in Ht2. apply (a_cells _ _ _ _ _ Hok) in Ht. congruence. }
    apply list_elem_of_lookup_1 in HL as (i&Hi).
    rewrite (i_fwd _ _ _ _ _ _ _ _ I i a o Hi). split.
    + intros ([a' o']&E&Hin')%list_elem_of_fmap. simpl in E. subst a'.
      apply (new_addr_old _ _ _ _ collect_source_ok L i (a, o) (new_addr p1 L i)); [apply I|apply I|done| |done].
      eapply (tile_copyable _ o'). apply elem_of_app. by left.
    + destruct (i_scanned _ _ _ _ _ _ _ _ I i a o Hi) as [-> _]; [by eapply lookup_lt_Some|].
      eexists. split; [done|]. apply set_children_size. by rewrite length_fmap.
  - rewrite (i_rest _ _ _ _ _ _ _ _ I a) by (done || by eapply (tile_copyable a o)).
    rewrite Hcells. by rewrite (a_cells _ _ _ _ _ Hok a o Ht).
Qed.

(** The garbage: unreachable headers of the old heap. *)
Definition dead : list (Z * Z) := garbage st (pid p) (filter (λ x, ren !! x.1 = None) lay).

Lemma old_garbage : garbage st2 (pid p) lay = dead.
Proof.
  apply garbage_filter.
  - intros [a o] Hin Hn. simpl in *.
    assert (Ht : (a, o) ∈ tiles) by (apply elem_of_app; by left).
    rewrite (i_rest _ _ _ _ _ _ _ _ I a), Hcells; [done|by eapply (tile_copyable a o)|].
    intros Ha. apply (place_dom b) in Ha as [? Ha]. unfold ren in Hn. congruence.
  - intros [a o] Hin Hn. simpl in *. destruct (ren !! a) as [a'|] eqn:E; [|done].
    apply ren_lookup in E as (i&o'&Hi&->). eexists _, _. by eapply (i_fwd _ _ _ _ _ _ _ _ I).
Qed.

Lemma dead_sub x : x ∈ dead → x ∈ garbage st (pid p) tiles ∧ ren !! x.1 = None.
Proof.
  destruct x as [a r]. unfold dead. rewrite !elem_of_garbage.
  intros (([a' o]&->&Hin)%list_elem_of_fmap&Hc&Hr). apply list_elem_of_filter in Hin as [Hn Hin].
  simpl in *. split; [|done]. split; [|done].
  apply list_elem_of_fmap. exists (a', o). split; [done|]. apply elem_of_app. by left.
Qed.

Lemma release_dead :
  ∃ st3, resource_release_space st2 (mem p) (heap_ptr p) (pid p) true = Ret st3 ∧ released st2 dead st3.
Proof.
  pose proof old_garbage as Hg. unfold lay in Hg.
  rewrite (a_top _ _ _ _ _ Hok), <- Hg. apply release_space_spec; [apply old_scannable| |].
  - apply garbage_nodup; [apply layout_nodup|]. intros a1 a2 r H1 H2. rewrite Hg in H1, H2.
    apply dead_sub in H1 as [H1 _]. apply dead_sub in H2 as [H2 _].
    by destruct (a_res _ _ _ _ _ Hok a1 a2 r H1 H2).
  - intros r ([a r']&->&Hin)%list_elem_of_fmap. rewrite Hg in Hin. apply dead_sub in Hin as [Hin _].
    destruct (i_store _ _ _ _ _ _ _ _ I) as (->&_). rewrite Hpay.
    by destruct (a_res _ _ _ _ _ Hok a a r' Hin Hin).
Qed.

(** The state after the swap and the release. *)
Context (st3 : store) (R : released st2 dead st3).
Let p3 := gc_swap p2.

Lemma p3_fields :
  mem p3 = b ∧ mem_size p3 = want ∧ heap_ptr p3 = sizes objs' ∧ sp p3 = sp p ∧
  stack_floor p3 = stack_floor p ∧ gc_to p3 = mem p ∧ gc_to_cap p3 = mem_size p ∧
  ccall p3 = ccall p ∧ pid p3 = pid p ∧ gc_gate p3 = gc_gate p ∧ gc_pending p3 = gc_pending p ∧
  gc_stress_cnt p3 = gc_stress_cnt p ∧ slots p3 = live_slots p2 ∧ sp p2 = sp p.
Proof.
  repeat split; try done; unfold p3; simpl; try apply copied_top;
    rewrite (i_proc _ _ _ _ _ _ _ _ I); done.
Qed.

Lemma new_cells i a o :
  L !! i = Some (a, o) → cells st3 !! new_addr p1 L i = Some (Live (rename_obj ren o)).
Proof.
  intros Hi. destruct R as (Hc&_). rewrite Hc, decide_False.
  - destruct (i_scanned _ _ _ _ _ _ _ _ I i a o Hi) as [-> Hcl]; [by eapply lookup_lt_Some|].
    unfold rename_obj. do 3 f_equal.
    by apply (fw_rename_list _ _ _ _ collect_source_ok); [apply I|].
  - intros ([a' r]&E&Hin)%list_elem_of_fmap. simpl in E. subst a'.
    apply dead_sub in Hin as [Hin _]. apply elem_of_garbage in Hin as (Hin&_).
    apply list_elem_of_fmap in Hin as ([a' o']&E&Hin). simpl in E. subst a'.
    eapply (new_addr_old _ _ _ _ collect_source_ok L i (a, o)); [apply I|apply I|done| |done].
    by eapply (tile_copyable _ o').
Qed.

Lemma foreign_after a : foreign st p a → gc_copyable p a = false →
  foreign st3 p3 a ∧ gc_copyable p3 a = false.
Proof.
  intros Hf Hg. pose proof (Hfor a Hf) as Hb'. destruct Hf as (Ha&Hm&_).
  destruct p3_fields as (Em&Es&Eh&_&_&Et&Ec&Ecc&_).
  assert (brk st3 = brk st1) as Ebrk.
  { destruct R as (_&_&_&->). by destruct (i_store _ _ _ _ _ _ _ _ I) as (_&_&->). }
  split.
  - unfold foreign. rewrite Em, Es, Et, Ec, Ebrk. lia.
  - unfold gc_copyable, val_in_chunk in *. rewrite Ecc. apply orb_false_iff in Hg as [_ ->].
    rewrite orb_false_r. unfold in_fromspace. rewrite Em, Eh.
    assert (sizes objs' ≤ want) as Hle.
    { rewrite <- copied_top, (i_size _ _ _ _ _ _ _ _ I).
      pose proof (L_fit _ _ _ _ collect_source_ok L (i_nodup _ _ _ _ _ _ _ _ I) (i_sub _ _ _ _ _ _ _ _ I)) as Hl.
      simpl in Hl. pose proof (a_sp _ _ _ _ _ Hok). lia. }
    apply andb_false_iff. destruct Hb'; [left; apply Z.leb_gt; lia|right; apply Z.ltb_ge; lia].
Qed.

Lemma foreign_kept a : foreign st p a → gc_copyable p a = false → cells st3 !! a = cells st !! a.
Proof.
  intros Hf Hg. destruct R as (Hc&_). rewrite Hc, decide_False.
  - rewrite (i_frame _ _ _ _ _ _ _ _ I a Hg), Hcells; [done|]. by apply Hfor.
  - intros ([a' r]&E&Hin)%list_elem_of_fmap. simpl in E. subst a'.
    apply dead_sub in Hin as [Hin _]. apply elem_of_garbage in Hin as (Hin&_).
    apply list_elem_of_fmap in Hin as ([a' o']&E&Hin). simpl in E. subst a'.
    apply tile_copyable in Hin. congruence.
Qed.

Lemma foreign_stays a : foreign st p a → foreign st3 p3 a.
Proof.
  intros Hf. pose proof (Hfor a Hf). destruct Hf as (?&?&?).
  destruct p3_fields as (Em&Es&Eh&_&_&Et&Ec&_). unfold foreign. rewrite Em, Es, Et, Ec.
  destruct R as (_&_&_&->). destruct (i_store _ _ _ _ _ _ _ _ I) as (_&_&->). lia.
Qed.

Lemma renamed_val v :
  arena_val st p tiles v → closed p1 L v → arena_val st3 p3 (layout (mem p3) objs' ++ []) (rename ren v).
Proof.
  intros [Hv Hr] Hcl. destruct p3_fields as (Em&_). rewrite app_nil_r, Em. unfold rename.
  destruct (is_heap_tag (val_tag v)) eqn:Ht; [|by split; [|unfold heap_ref; congruence]].
  destruct (ren !! lpayload v) as [a'|] eqn:E.
  - pose proof (ren_lookup _ _ E) as (i&o&Hi&->).
    pose proof (new_addr_tospace i _ Hi) as Hna. simpl in Hna. pose proof (obj_size_pos o).
    assert (0 ≤ val_tag v < 2 ^ 16) by (by apply Z.mod_pos_bound).
    assert (0 ≤ new_addr p1 L i < 2 ^ 48) by (unfold ADDR_LIMIT in Hb2; lia).
    split; [by apply lbox_range|]. intros _. left. rewrite lbox_payload, lbox_tag.
    unfold u16. rewrite !Z.mod_small by done.
    exists (rename_obj ren o).
    split; [by eapply (list_elem_of_lookup_2 _ i), (copied_lookup p1)|].
    rewrite rename_obj_tag. destruct (Hr Ht) as [(o'&Hin&<-)|[_ Hn]].
    + pose proof (i_sub _ _ _ _ _ _ _ _ I _ (list_elem_of_lookup_2 _ _ _ Hi)) as Hin2.
      apply (a_cells _ _ _ _ _ Hok) in Hin, Hin2. congruence.
    + apply list_elem_of_lookup_2, (i_sub _ _ _ _ _ _ _ _ I) in Hi. apply tile_copyable in Hi. congruence.
  - split; [done|]. intros _. right. destruct (Hr Ht) as [(o'&Hin&_)|[Hf Hn]]; [|by apply foreign_after].
    exfalso. assert (lpayload v ∈ L.*1) as HL by (apply Hcl; [done|by eapply (tile_copyable _ o')]).
    apply (place_dom b) in HL as [? HL]. unfold ren in E. congruence.
Qed.

Lemma copied_res : resources_ok st3 (pid p) (layout b objs').
Proof.
  assert (H : ∀ x r, (x, r) ∈ garbage st3 (pid p) (layout b objs') →
    ∃ i a o, L !! i = Some (a, o) ∧ x = new_addr p1 L i ∧ (a, r) ∈ garbage st (pid p) tiles).
  { intros x r (Hin&Hc&Hr)%elem_of_garbage.
    apply list_elem_of_fmap in Hin as ([x' o']&E&Hin). simpl in E. subst x'.
    apply (copied_inv p1) in Hin as (i&a&o&Hi&->&->). exists i, a, o. split; [done|]. split; [done|].
    rewrite (new_cells i a o Hi) in Hc. injection Hc as Hc.
    pose proof (i_sub _ _ _ _ _ _ _ _ I _ (list_elem_of_lookup_2 _ _ _ Hi)) as Ht.
    apply elem_of_garbage. split; [|split; [|done]].
    - apply list_elem_of_fmap. by exists (a, o).
    - rewrite (a_cells _ _ _ _ _ Hok a o Ht). destruct o; try discriminate Hc. unfold rename_obj in Hc; simpl in Hc. by rewrite Hc. }
  intros x1 x2 r (i&a1&o1&Hi&->&Hg1)%H (j&a2&o2&Hj&->&Hg2)%H.
  destruct (a_res _ _ _ _ _ Hok a1 a2 r Hg1 Hg2) as [-> Hpr]. split.
  - assert (i = j) as ->; [|done]. eapply (NoDup_lookup L.*1); [apply I| |].
    + by rewrite list_lookup_fmap, Hi.
    + by rewrite list_lookup_fmap, Hj.
  - destruct R as (_&Hp&_). rewrite Hp, decide_False.
    + destruct (i_store _ _ _ _ _ _ _ _ I) as (->&_). by rewrite Hpay.
    + intros ([a r']&E&Hd)%list_elem_of_fmap. simpl in E. subst r'.
      apply dead_sub in Hd as [Hd Hn]. destruct (a_res _ _ _ _ _ Hok a2 a r Hg2 Hd) as [<- _]. simpl in Hn.
      assert (a2 ∈ L.*1) as Ha by (apply list_elem_of_fmap; exists (a2, o2);
        split; [done|by eapply list_elem_of_lookup_2]).
      apply (place_dom b) in Ha as [? Ha]. unfold ren in Hn. congruence.
Qed.

Lemma collected_shrinks : sizes objs' ≤ heap_ptr p + sizes ck.*2.
Proof.
  unfold objs', copied. rewrite sizes_rename.
  assert (sizes L.*2 ≤ sizes tiles.*2) as H.
  { apply sizes_submseteq, fmap_submseteq, NoDup_submseteq; [|apply I].
    eapply NoDup_fmap_1, I. }
  unfold tiles in H. by rewrite fmap_app, sizes_app, layout_snd, <- (a_top _ _ _ _ _ Hok) in H.
Qed.

Lemma collected_gap : sizes objs' + extra - sizes ck.*2 ≤ want + proc_stack_lo p * 8.
Proof. pose proof collected_shrinks. unfold gc_need in Hfit. lia. Qed.

Lemma collected_arena_ok : arena_ok cap st3 p3 objs' [].
Proof.
  destruct p3_fields as (Em&Es&Eh&Esp&Efl&Et&Ec&Ecc&Ep&_&_&_&Esl&Esp2).
  pose proof (a_blocks _ _ _ _ _ Hok) as [B1 B2 B3 _ _]. pose proof collected_gap as Hgap.
  pose proof (proc_stack_lo_le p) as Hlo.
  assert (brk st3 = brk st1) as Ebrk.
  { destruct R as (_&_&_&->). by destruct (i_store _ _ _ _ _ _ _ _ I) as (_&_&->). }
  split.
  - split; rewrite ?Em, ?Es, ?Et, ?Ec, ?Ebrk; lia.
  - done.
  - intros x o'. rewrite app_nil_r, Em. intros (i&a&o&Hi&->&->)%(copied_inv p1). by eapply new_cells.
  - intros x o' v. rewrite app_nil_r at 1. rewrite Em at 1. intros (i&a&o&Hi&->&->)%(copied_inv p1).
    unfold rename_obj. rewrite set_children_children by (by rewrite length_fmap).
    intros (w&->&Hw)%list_elem_of_fmap. pose proof (i_sub _ _ _ _ _ _ _ _ I _ (list_elem_of_lookup_2 _ _ _ Hi)) as Ht.
    apply renamed_val; [by eapply (a_fields _ _ _ _ _ Hok)|].
    destruct (i_scanned _ _ _ _ _ _ _ _ I i a o Hi) as [_ Hcl]; [by eapply lookup_lt_Some|].
    rewrite Forall_forall in Hcl. by apply Hcl.
  - rewrite Esp. intros i Hi. destruct (a_stack _ _ _ _ _ Hok i Hi) as (v&Hv&Hav).
    exists (rename ren v). pose proof (Hrc i v Hi Hv) as Hcl. split; [|by apply renamed_val].
    rewrite Esl. unfold live_slots. apply map_lookup_filter_Some. rewrite Esp2. split; [|done].
    rewrite Hslots, Hv by done. simpl. f_equal.
    by apply (fw_rename _ _ _ _ collect_source_ok); [apply I|].
  - rewrite Esp, Efl. apply (a_sp _ _ _ _ _ Hok).
  - rewrite Eh, Es, Esp. lia.
  - rewrite app_nil_r, Em, Ep. apply copied_res.
  - split; [constructor|]. by intros ? ? ?%elem_of_nil.
  - intros a Hg. assert (foreign st p a) as Hf.
    { apply (a_promote _ _ _ _ _ Hok). unfold promoted, val_in_chunk in *. by rewrite <- Ecc. }
    pose proof (Hfor a Hf). destruct Hf as (?&?&?). unfold foreign. rewrite Em, Es, Et, Ec, Ebrk. lia.
Qed.

Lemma collected_relocated : relocated st p er ren st3 p3 objs'.
Proof.
  destruct p3_fields as (Em&Es&Eh&Esp&Efl&Et&Ec&Ecc&Ep&Eg&Epd&_&Esl&Esp2). split.
  - apply ren_reach.
  - apply ren_inj.
  - intros a a' o E Ho. rewrite Em. apply ren_lookup in E as (i&o'&Hi&->).
    assert (o' = o) as ->.
    { apply list_elem_of_lookup_2, (i_sub _ _ _ _ _ _ _ _ I) in Hi as Ht.
      apply (a_cells _ _ _ _ _ Hok) in Ht. congruence. }
    by eapply (list_elem_of_lookup_2 _ i), (copied_lookup p1).
  - intros x o'. rewrite Em. intros (i&a&o&Hi&->&->)%(copied_inv p1). exists a.
    unfold ren. by rewrite (place_lookup b L i a o (i_nodup _ _ _ _ _ _ _ _ I) Hi).
  - done.
  - intros i Hi. destruct (a_stack _ _ _ _ _ Hok i Hi) as (v&Hv&_). rewrite Hv, Esl.
    unfold live_slots. simpl. apply map_lookup_filter_Some. rewrite Esp2. split; [|done].
    rewrite Hslots, Hv by done. simpl. f_equal.
    apply (fw_rename _ _ _ _ collect_source_ok); [apply I|by eapply Hrc].
Qed.
End Collect.

(** What a collection does, stated of [gc_collect_internal]. *)
Definition collected (cap : Z) (st : store) (p : ProcMem) (objs : list obj) (ck : list (Z * obj))
    (extra : Z) (er : option Val) (r : outcome (bool * option Val * store * ProcMem)) : Prop :=
  ∃ ren st' p' objs', r = Ret (true, rename ren <$> er, st', p') ∧
    arena_ok cap st' p' objs' [] ∧ relocated st p er ren st' p' objs' ∧
    (∀ v, er = Some v → arena_val st' p' (layout (mem p') objs') (rename ren v)) ∧
    mem_size p' = gc_want cap p extra ∧
    heap_ptr p' + extra - sizes ck.*2 ≤ mem_size p' + proc_stack_lo p' * 8 ∧
    (let dead := garbage st (pid p) (filter (λ x, ren !! x.1 = None) (layout (mem p) objs)) in
     dtor_calls st' = dtor_calls st ++ dtor_events st dead.*2 ∧
     ∀ r, payloads st' !! r = (if decide (r ∈ dead.*2) then None else payloads st !! r)) ∧
    brk st ≤ brk st' ≤ brk st + cap + 16 ∧
    (∀ a, foreign st p a → gc_copyable p a = false → cells st' !! a = cells st !! a) ∧
    (∀ a, foreign st p a → foreign st' p' a) ∧
    heap_ptr p' ≤ heap_ptr p + sizes ck.*2.

Lemma collect_internal_spec cap st p objs ck extra er :
  arena_ok cap st p objs ck → sizes ck.*2 ≤ extra →
  (∀ v, er = Some v → arena_val st p (layout (mem p) objs ++ ck) v) →
  gc_need p extra ≤ cap → brk st + cap < ADDR_LIMIT →
  collected cap st p objs ck extra er (gc_collect_internal cap st p extra er).
Proof.
  intros Hok Hck Her Hneed Hroom. unfold gc_collect_internal.
  pose proof (a_blocks _ _ _ _ _ Hok) as B. destruct (b_mem _ _ _ B) as (Hm&_).
  pose proof (b_size _ _ _ B) as Hs. pose proof (b_cap _ _ _ B) as Hc.
  pose proof (heap_in_block _ _ _ _ _ Hok) as Hh. pose proof (a_sp _ _ _ _ _ Hok) as Hsp.
  pose proof (proc_stack_lo_le p) as Hlo. pose proof (sizes_nonneg ck.*2).
  assert (0 ≤ gc_need p extra) by (unfold gc_need; lia).
  destruct (Z.eqb_spec (mem p) 0); [lia|].
  destruct (gc_want_spec cap p extra Hs ltac:(lia)) as [Hw Hwn].
  replace (in_i32 (gc_need p extra)) with true
    by (symmetry; apply andb_true_intro; split; [apply Z.leb_le|apply Z.ltb_lt]; lia). cbn [negb].
  destruct (Z.ltb_spec (gc_want cap p extra) (gc_need p extra)) as [Hlt|Hge]; [lia|].
  destruct (reserve_tospace_spec cap st p (gc_want cap p extra) B Hw Hroom)
    as (b&st1&->&Ec&Ep&Ed&[Eb Eb']&H1&H2&H3&H4&H5). cbn [mbind outcome_bind].
  set (p1 := set_gc_to_size 0 (set_gc_to b (set_gc_to_cap (gc_want cap p extra) p))).
  destruct (evacuate_spec st1 p1 (layout (mem p) objs ++ ck) (reachable st p er)) with (er := er)
    as (L&st2&p2&->&I&Hsl&Hrc&Hec).
  { eapply collect_source_ok; eauto. } { intros. eapply collect_roots; eauto. } { done. }
  { simpl. lia. } { intros. eapply collect_extra; eauto. }
  cbn [mbind outcome_bind].
  replace (mem p2) with (mem p) by (rewrite (i_proc _ _ _ _ _ _ _ _ I); done).
  replace (heap_ptr p2) with (heap_ptr p) by (rewrite (i_proc _ _ _ _ _ _ _ _ I); done).
  replace (pid (gc_swap p2)) with (pid p) by (simpl; rewrite (i_proc _ _ _ _ _ _ _ _ I); done).
  destruct (release_dead cap st p objs ck extra er Hok Hck (gc_want cap p extra) b st1) with (L := L) (st2 := st2) (p2 := p2)
    as (st3&->&R); eauto.
  cbn [mbind outcome_bind].
  destruct (p3_fields st p objs ck er (gc_want cap p extra) b st1 L st2 p2 I) as (Em&Es&Eh&Esp&Efl&_).
  exists (place b L), st3, (gc_swap p2), (copied p1 L). split; [|split; [|split; [|split; [|split; [|split]]]]].
  - do 3 f_equal. destruct er as [v|]; [|done]. simpl. do 2 f_equal.
    change b with (gc_to p1). eapply (fw_rename st1 p1 (layout (mem p) objs ++ ck) (reachable st p (Some v))).
    + eapply collect_source_ok; eauto.
    + apply I.
    + by apply Hec.
  - eapply collected_arena_ok; eauto.
  - eapply collected_relocated; eauto.
  - intros v E. rewrite <- (app_nil_r (layout _ _)). eapply renamed_val; eauto.
  - done.
  - rewrite Eh, Es. replace (proc_stack_lo (gc_swap p2)) with (proc_stack_lo p)
      by (unfold proc_stack_lo; by rewrite Esp, Efl). eapply collected_gap; eauto.
  - pose proof R as (_&Rp&Rd&Rb). destruct (i_store _ _ _ _ _ _ _ _ I) as (Sp&Sd&Sb).
    split; [split|split; [|split; [|split]]].
    + rewrite Rd, Sd, Ed. f_equal. unfold dtor_events. by rewrite Sp, Ep.
    + intros r. by rewrite Rp, Sp, Ep.
    + by rewrite Rb, Sb.
    + intros. eapply foreign_kept; eauto.
    + intros. eapply foreign_stays; eauto.
    + rewrite Eh. eapply collected_shrinks; eauto.
Qed.

(** * Properties *)
Section Properties.
Context (cap : Z) (st : store) (p : ProcMem) (objs : list obj) (extra : Z).

(** C1: a collection that fits the cap returns 0 (it never aborts, runs out
    of tospace or reads outside the heap).  The new heap is the reachable part
    of the old one under an injective renaming of addresses, with sharing and
    cycles kept, nothing else in it; every live stack slot is renamed the same
    way; the arena invariant holds again; [extra] bytes are free below the
    deepest reserved frame; and the destination has the size [want]. *)
Theorem gc_collect_correct :
  arena_ok cap st p objs [] → 0 ≤ extra → gc_need p extra ≤ cap → brk st + cap < ADDR_LIMIT →
  ∃ ren st' p' objs', gc_collect cap st p extra = Ret (true, st', p') ∧
    arena_ok cap st' p' objs' [] ∧ relocated st p None ren st' p' objs' ∧
    mem_size p' = gc_want cap p extra ∧
    heap_ptr p' + extra ≤ mem_size p' + proc_stack_lo p' * 8.
Proof.
  intros Hok He Hn Hr. destruct (collect_internal_spec cap st p objs [] extra None)
    as (ren&st'&p'&objs'&E&A&R&_&S&F&_); [done|done|done|done|done|].
  exists ren, st', p', objs'. unfold gc_collect. rewrite E. simpl in F. unfold sizes in F. simpl in F.
  rewrite Z.sub_0_r in F. done.
Qed.

(** C2: a collection finalises exactly the unreachable resources its actor
    owns: the destructor calls made are those of the unreachable, owned and
    unreleased headers, in address order and once each, exactly their payloads
    are freed, and every resource that stays reachable keeps its payload. *)
Theorem gc_collect_finalises :
  arena_ok cap st p objs [] → 0 ≤ extra → gc_need p extra ≤ cap → brk st + cap < ADDR_LIMIT →
  ∃ dead st' p', gc_collect cap st p extra = Ret (true, st', p') ∧
    (∀ a r, (a, r) ∈ dead ↔ a ∈ (layout (mem p) objs).*1 ∧ ¬ reachable st p None a ∧
              cells st !! a = Some (Live (HeapResource (pid p) r)) ∧ r ≠ 0) ∧
    NoDup dead.*2 ∧
    dtor_calls st' = dtor_calls st ++ dtor_events st dead.*2 ∧
    (∀ r, payloads st' !! r = (if decide (r ∈ dead.*2) then None else payloads st !! r)) ∧
    (∀ a r, reachable st p None a → cells st !! a = Some (Live (HeapResource (pid p) r)) → r ≠ 0 →
       payloads st' !! r = payloads st !! r).
Proof.
  intros Hok He Hn Hr. destruct (collect_internal_spec cap st p objs [] extra None)
    as (ren&st'&p'&objs'&E&A&R&_&S&F&[D P]&_); [done|done|done|done|done|].
  set (dead := garbage st (pid p) (filter (λ x, ren !! x.1 = None) (layout (mem p) objs))) in *.
  assert (Hdead : ∀ a r, (a, r) ∈ dead ↔ a ∈ (layout (mem p) objs).*1 ∧ ¬ reachable st p None a ∧
              cells st !! a = Some (Live (HeapResource (pid p) r)) ∧ r ≠ 0).
  { intros a r. unfold dead. rewrite elem_of_garbage, <- (r_reach _ _ _ _ _ _ _ R a), !list_elem_of_fmap.
    rewrite <- eq_None_not_Some. split.
    - intros (([a' o]&->&[Hn1 Hn2]%list_elem_of_filter)&H). simpl in *. split; [by exists (a', o)|done].
    - intros (([a' o]&->&Hn2)&H1&H). split; [|done]. simpl in *. exists (a', o).
      split; [done|]. by rewrite list_elem_of_filter. }
  assert (Hres : ∀ a1 a2 r, a1 ∈ (layout (mem p) objs).*1 → a2 ∈ (layout (mem p) objs).*1 →
    cells st !! a1 = Some (Live (HeapResource (pid p) r)) →
    cells st !! a2 = Some (Live (HeapResource (pid p) r)) → r ≠ 0 → a1 = a2).
  { intros a1 a2 r M1 M2 C1 C2 Hr0.
    apply (a_res _ _ _ _ _ Hok a1 a2 r); apply elem_of_garbage; by rewrite app_nil_r. }
  exists dead, st', p'. unfold gc_collect. rewrite E. split; [done|]. split; [done|].
  split; [|split; [done|split; [done|]]].
  - apply garbage_nodup.
    + eapply sublist_NoDup; [apply (layout_nodup (mem p) objs)|]. apply fmap_sublist, sublist_filter.
    + intros a1 a2 r (M1&_&C1&Z1)%Hdead (M2&_&C2&Z2)%Hdead. by eapply Hres.
  - intros a r Ha Hc Hr0. rewrite P, decide_False; [done|].
    intros ([a' r']&E'&(M&U&C&_)%Hdead)%list_elem_of_fmap. simpl in E'. subst r'.
    assert (a ∈ (layout (mem p) objs).*1) as Ma; [|by rewrite (Hres a a' r) in Ha].
    rewrite <- (app_nil_r (layout _ _)). by eapply (reachable_tile cap st p objs [] None).
Qed.

(** C3: when the live bound, the extra room and the deepest frame exceed the
    cap, a collection reports -1 and changes nothing: the caller decides. *)
Theorem gc_collect_refuses :
  arena_ok cap st p objs [] → cap < gc_need p extra < 2 ^ 31 →
  gc_collect cap st p extra = Ret (false, st, p).
Proof.
  intros Hok Hn. unfold gc_collect, gc_collect_internal.
  pose proof (a_blocks _ _ _ _ _ Hok) as B. destruct (b_mem _ _ _ B) as (Hm&_).
  pose proof (b_size _ _ _ B) as Hs. destruct (Z.eqb_spec (mem p) 0); [lia|].
  destruct (gc_want_spec cap p extra Hs ltac:(lia)) as [Hw Hwn].
  replace (in_i32 (gc_need p extra)) with true
    by (symmetry; apply andb_true_intro; split; [apply Z.leb_le|apply Z.ltb_lt]; lia). cbn [negb].
  destruct (Z.ltb_spec (gc_want cap p extra) (gc_need p extra)) as [Hlt|Hge]; [done|lia].
Qed.

(** C4: a convergence collection promotes the callback's result: the result
    value is rooted like a stack slot, chunk objects reachable from it (or from
    the stack) are moved into the heap with the rest, afterwards no value of
    the arena points into a chunk, and the promotion flag is off again. *)
Theorem gc_collect_converge_correct a ck root :
  ccall p = Some a → sizes ck.*2 ≤ ca_total a →
  arena_ok cap st (set_promote true p) objs ck →
  arena_val st (set_promote true p) (layout (mem p) objs ++ ck) root →
  gc_need p (ca_total a) ≤ cap → brk st + cap < ADDR_LIMIT →
  ∃ ren st' q objs', gc_collect_converge cap st p root = Ret (rename ren root, st', set_promote false q) ∧
    arena_ok cap st' q objs' [] ∧ relocated st (set_promote true p) (Some root) ren st' q objs' ∧
    arena_val st' q (layout (mem q) objs') (rename ren root) ∧
    (∀ v, arena_val st' q (layout (mem q) objs') v → heap_ref v → val_in_chunk q (lpayload v) = false).
Proof.
  intros Ha Hck Hok Hroot Hn Hr. unfold gc_collect_converge. rewrite Ha.
  destruct (collect_internal_spec cap st (set_promote true p) objs ck (ca_total a) (Some root))
    as (ren&st'&q&objs'&E&A&R&V&_); [done|done| |done|done|].
  { intros v [= <-]. done. }
  rewrite E. exists ren, st', q, objs'. split; [done|]. split; [done|]. split; [done|].
  split; [by apply V|]. intros v [_ Hv] Ht.
  destruct (r_sp _ _ _ _ _ _ _ R) as (_&_&_&_&_&Hcc).
  assert (Hpr : ∀ x, promoted q x = val_in_chunk q x).
  { intros x. unfold promoted. rewrite Hcc. simpl. by rewrite Ha. }
  destruct (Hv Ht) as [(o&Hin&_)|[_ Hg]].
  - destruct (val_in_chunk q (lpayload v)) eqn:Hc; [|done]. rewrite <- Hpr in Hc.
    apply (a_promote _ _ _ _ _ A) in Hc as (_&Hm&_).
    apply layout_range in Hin. pose proof (obj_size_pos o).
    pose proof (heap_in_block _ _ _ _ _ A) as Hb. rewrite (a_top _ _ _ _ _ A) in Hb. lia.
  - apply orb_false_iff in Hg as [_ Hg]. by rewrite <- Hpr.
Qed.
End Properties.

(** ** A concrete arena: a live pair and an unreachable resource. *)
Definition w_objs : list obj := [HeapPair (val_int 1) val_nil; HeapResource 7 900].
Definition w_store : store :=
  mk_store (<[4096 := Live (HeapPair (val_int 1) val_nil)]> {[ 4120 := Live (HeapResource 7 900) ]})
           {[ 900 := (55, 66) ]} [] 8192.
Definition w_proc : ProcMem :=
  mk_ProcMem 7 4096 512 40 (-1) 0 {[ 0 := lbox TAG_PAIR 4096 ]} 0 0 0 4096 0 false 0 None.

Lemma w_arena_ok : arena_ok 4096 w_store w_proc w_objs [].
Proof.
  assert (Hlay : layout (mem w_proc) w_objs = [(4096, HeapPair (val_int 1) val_nil); (4120, HeapResource 7 900)])
    by reflexivity.
  assert (Himm : ∀ v, v = val_int 1 ∨ v = val_nil → arena_val w_store w_proc (layout (mem w_proc) w_objs ++ []) v).
  { intros v [->| ->]; split; try (split; vm_compute; congruence); intros H; vm_compute in H; discriminate. }
  split; try (unfold w_proc, ADDR_LIMIT; simpl; lia); try reflexivity.
  - split; unfold w_proc, ADDR_LIMIT; simpl; lia.
  - intros a o. rewrite Hlay. intros [E|[E|[]%elem_of_nil]%elem_of_cons]%elem_of_cons; injection E as -> ->; reflexivity.
  - intros a o v. rewrite Hlay at 1. intros [E|[E|[]%elem_of_nil]%elem_of_cons]%elem_of_cons; injection E as -> ->; simpl.
    + intros [E|[E|[]%elem_of_nil]%elem_of_cons]%elem_of_cons; subst v; apply Himm; auto.
    + by intros ?%elem_of_nil.
  - intros i Hi. assert (i = 0) as -> by (unfold w_proc in Hi; simpl in Hi; lia).
    exists (lbox TAG_PAIR 4096). split; [reflexivity|]. split; [split; vm_compute; congruence|].
    intros _. left. exists (HeapPair (val_int 1) val_nil). split; [|reflexivity]. rewrite Hlay. left.
  - intros a1 a2 r H1 H2. assert (Hg : garbage w_store (pid w_proc) (layout (mem w_proc) w_objs ++ []) = [(4120, 900)]) by reflexivity.
    rewrite Hg in H1, H2. apply list_elem_of_singleton in H1, H2. simplify_eq. split; [done|]. eexists. reflexivity.
  - split; [constructor|]. by intros ? ? ?%elem_of_nil.
  - intros a Ha. discriminate Ha.
Qed.

Lemma gc_collect_correct_witness :
  ∃ ren st' p' objs', gc_collect 4096 w_store w_proc 64 = Ret (true, st', p') ∧
      arena_ok 4096 st' p' objs' [] ∧ relocated w_store w_proc None ren st' p' objs' ∧
      mem_size p' = gc_want 4096 w_proc 64 ∧
      heap_ptr p' + 64 ≤ mem_size p' + proc_stack_lo p' * 8.
Proof. apply (gc_collect_correct 4096 w_store w_proc w_objs 64 w_arena_ok); vm_compute; congruence. Defined.

Lemma gc_collect_finalises_witness :
  ∃ (dead : list (Z * Z)) st' p', gc_collect 4096 w_store w_proc 64 = Ret (true, st', p') ∧
     dtor_calls st' = dtor_calls w_store ++ dtor_events w_store dead.*2.
Proof.
  destruct (gc_collect_finalises 4096 w_store w_proc w_objs 64 w_arena_ok) as (d&s&q&E&_&_&D&_);
    [vm_compute; congruence..|]. exists d, s, q. exact (conj E D).
Defined.

Lemma gc_collect_refuses_witness :
  gc_collect 4096 w_store w_proc 5000 = Ret (false, w_store, w_proc).
Proof. apply (gc_collect_refuses 4096 w_store w_proc w_objs 5000 w_arena_ok). split; reflexivity. Defined.

(** The same arena during a C call whose result is a chunk pair over the heap
    pair. *)
Definition w_chunk : list (Z * obj) := [(6000, HeapPair (lbox TAG_PAIR 4096) val_nil)].
Definition w_cstore : store := write_cell w_store 6000 (Live (HeapPair (lbox TAG_PAIR 4096) val_nil)).
Definition w_ca : CallbackArena := mk_CallbackArena (mk_TaChunk 6000 24 256) [] 24 0 false false.
Definition w_cproc : ProcMem := set_ccall (Some w_ca) w_proc.

Lemma w_cfields a o v :
  (a, o) ∈ layout (mem w_cproc) w_objs ++ w_chunk → v ∈ obj_children o →
  arena_val w_cstore (set_promote true w_cproc) (layout (mem w_cproc) w_objs ++ w_chunk) v.
Proof.
  assert (Hlay : layout (mem w_cproc) w_objs ++ w_chunk =
    [(4096, HeapPair (val_int 1) val_nil); (4120, HeapResource 7 900); (6000, HeapPair (lbox TAG_PAIR 4096) val_nil)])
    by reflexivity.
  rewrite Hlay.
  assert (Himm : ∀ w tiles, w = val_int 1 ∨ w = val_nil → arena_val w_cstore (set_promote true w_cproc) tiles w).
  { intros w tiles [->| ->]; split; try (split; vm_compute; congruence); intros H; vm_compute in H; discriminate. }
  assert (Hp : arena_val w_cstore (set_promote true w_cproc)
    [(4096, HeapPair (val_int 1) val_nil); (4120, HeapResource 7 900); (6000, HeapPair (lbox TAG_PAIR 4096) val_nil)]
    (lbox TAG_PAIR 4096)).
  { split; [split; vm_compute; congruence|]. intros _. left. eexists. split; [left|reflexivity]. }
  intros Hin Hv. repeat (apply elem_of_cons in Hin as [E|Hin]; [injection E as -> ->; simpl in Hv|]);
    try (by apply elem_of_nil in Hin);
    repeat (apply elem_of_cons in Hv as [->|Hv]; [auto|]); by apply elem_of_nil in Hv.
Qed.

Lemma w_converge_ok : arena_ok 4096 w_cstore (set_promote true w_cproc) w_objs w_chunk.
Proof.
  assert (Hlay : layout (mem w_cproc) w_objs ++ w_chunk =
    [(4096, HeapPair (val_int 1) val_nil); (4120, HeapResource 7 900); (6000, HeapPair (lbox TAG_PAIR 4096) val_nil)])
    by reflexivity.
  split; try (unfold w_cproc, w_proc, ADDR_LIMIT; simpl; lia); try reflexivity.
  - split; unfold w_cproc, w_proc, ADDR_LIMIT; simpl; lia.
  - intros a o. change (mem (set_promote true w_cproc)) with (mem w_cproc). rewrite Hlay.
    intros [E|[E|[E|[]%elem_of_nil]%elem_of_cons]%elem_of_cons]%elem_of_cons; injection E as -> ->; reflexivity.
  - apply w_cfields.
  - intros i Hi. assert (i = 0) as -> by (unfold w_cproc, w_proc in Hi; simpl in Hi; lia).
    exists (lbox TAG_PAIR 4096). split; [reflexivity|]. split; [split; vm_compute; congruence|].
    intros _. left. exists (HeapPair (val_int 1) val_nil). split; [|reflexivity].
    change (mem (set_promote true w_cproc)) with (mem w_cproc). rewrite Hlay. left.
  - intros a1 a2 r H1 H2.
    assert (Hg : garbage w_cstore 7 (layout (mem w_cproc) w_objs ++ w_chunk) = [(4120, 900)]) by reflexivity.
    change (pid (set_promote true w_cproc)) with 7 in *.
    change (mem (set_promote true w_cproc)) with (mem w_cproc) in *.
    rewrite Hg in H1, H2. apply list_elem_of_singleton in H1, H2. simplify_eq. split; [done|]. eexists. reflexivity.
  - split; [apply NoDup_singleton|]. intros a o Ha. apply list_elem_of_singleton in Ha. injection Ha as -> ->.
    split; [|reflexivity]. unfold foreign, w_cproc, w_proc; simpl. lia.
  - intros a Ha. unfold promoted, val_in_chunk, w_cproc, w_ca in Ha. simpl in Ha.
    rewrite orb_false_r in Ha. apply andb_true_iff in Ha as [H1%Z.leb_le H2%Z.ltb_lt].
    unfold TA_CCALL_CHUNK0 in H2. unfold foreign, w_cproc, w_proc; simpl. lia.
Qed.

Lemma gc_collect_converge_witness :
  ∃ ren st' q objs', gc_collect_converge 4096 w_cstore w_cproc (lbox TAG_PAIR 6000) =
      Ret (rename ren (lbox TAG_PAIR 6000), st', set_promote false q) ∧ arena_ok 4096 st' q objs' [].
Proof.
  destruct (gc_collect_converge_correct 4096 w_cstore w_cproc w_objs w_ca w_chunk (lbox TAG_PAIR 6000))
    as (ren&st'&q&objs'&E&A&_); [reflexivity|vm_compute; congruence|apply w_converge_ok| |vm_compute; congruence|reflexivity|].
  - split; [split; vm_compute; congruence|]. intros _. left.
    exists (HeapPair (lbox TAG_PAIR 4096) val_nil). split; [|reflexivity]. do 2 right. left.
  - exists ren, st', q, objs'. exact (conj E A).
Defined.
