(* ===== verification/Tree.v ===== *)
(** Values as the trees they denote.

    The language's data is immutable, so a value means the finite tree read
    from it through the heap.  [repr F st v t] says that [v] denotes [t] in
    [st] through objects whose addresses satisfy [F]; the copying operations
    (collection, deep copy, message fragments) are specified by the trees they
    preserve. *)
From stdpp Require Import base tactics list gmap strings.
From Stdlib Require Import ZArith Lia.
From S2P Require Import Prelude Values Heap Resource Gc GcCorrect GcSpec.
Open Scope Z_scope.

#[warnings="-register-all"]
Inductive tree :=
| Imm (v : Val)
| TPair (car cdr : tree)
| TClos (entry : Z) (free : list tree)
| TString (data : list Z)
| TBytes (data : list Z)
| TResource (owner res : Z).

Lemma tree_ind' (P : tree → Prop) :
  (∀ v, P (Imm v)) → (∀ a b, P a → P b → P (TPair a b)) →
  (∀ e ts, Forall P ts → P (TClos e ts)) → (∀ d, P (TString d)) → (∀ d, P (TBytes d)) →
  (∀ w r, P (TResource w r)) → ∀ t, P t.
Proof.
  intros H1 H2 H3 H4 H5 H6. fix IH 1. intros [v|a b|e ts|d|d|w r];
    [apply H1|apply H2; apply IH|apply H3|apply H4|apply H5|apply H6].
  induction ts as [|t ts IHts]; constructor; [apply IH|apply IHts].
Qed.

(** The object a value of tag [tag] points to. *)
Definition points_to (F : Z → Prop) (st : store) (v : Val) (o : obj) : Prop :=
  0 ≤ v < 2 ^ 64 ∧ val_tag v = obj_tag o ∧ F (lpayload v) ∧ cells st !! lpayload v = Some (Live o).

Fixpoint repr (F : Z → Prop) (st : store) (v : Val) (t : tree) : Prop :=
  match t with
  | Imm w => v = w ∧ 0 ≤ v < 2 ^ 64 ∧ is_heap_tag (val_tag v) = false
  | TPair ta tb => ∃ a b, points_to F st v (HeapPair a b) ∧ repr F st a ta ∧ repr F st b tb
  | TClos e ts => ∃ fs, points_to F st v (HeapClosure e fs) ∧
      (fix go (ts : list tree) (fs : list Val) {struct ts} : Prop :=
         match ts, fs with
         | [], [] => True
         | t :: ts, f :: fs => repr F st f t ∧ go ts fs
         | _, _ => False
         end) ts fs
  | TString d => points_to F st v (HeapString d)
  | TBytes d => points_to F st v (HeapBytes d)
  | TResource w r => points_to F st v (HeapResource w r)
  end.

Definition reprs (F : Z → Prop) (st : store) : list Val → list tree → Prop := Forall2 (repr F st).

Lemma repr_clos F st v e ts :
  repr F st v (TClos e ts) ↔ ∃ fs, points_to F st v (HeapClosure e fs) ∧ reprs F st fs ts.
Proof.
  simpl. split; intros (fs&H&Hf); exists fs; (split; [done|]); clear H.
  - revert ts Hf. induction fs as [|f fs IH]; intros [|t ts] Hf; try done; [constructor|].
    destruct Hf. constructor; [done|]. by apply IH.
  - induction Hf; [done|]. split; [done|]. apply IHHf.
Qed.

(** A heap object is neither an int nor a float. *)
Lemma heap_tag_not_num v : is_heap_tag (val_tag v) = true → val_is_int v = false ∧ val_is_float v = false.
Proof.
  intros H. unfold val_is_int, val_is_float. revert H. generalize (val_tag v). intros t.
  unfold is_heap_tag, TAG_FIRST, TAG_LAST, TAG_INT, TAG_PAIR, TAG_CLOS, TAG_STRING, TAG_BYTES, TAG_RESOURCE.
  rewrite !orb_true_iff, !Z.eqb_eq, orb_false_iff, Z.eqb_neq, !Z.ltb_ge. lia.
Qed.

(** The tree only depends on the objects it reads. *)
Lemma points_to_mono F F' st st' v o :
  (∀ a, F a → F' a ∧ cells st' !! a = cells st !! a) → points_to F st v o → points_to F' st' v o.
Proof. intros H (Hv&Ht&Hf&Hc). destruct (H _ Hf) as [Hf' He]. split; [done|]. split; [done|]. split; [done|]. congruence. Qed.

Lemma repr_mono F F' st st' v t :
  (∀ a, F a → F' a ∧ cells st' !! a = cells st !! a) → repr F st v t → repr F' st' v t.
Proof.
  intros H. revert v. induction t as [w|ta tb IHa IHb|e ts IH|d|d|w r] using tree_ind'; intros v Hr.
  - done.
  - destruct Hr as (a&b&Hp&Ha&Hb). exists a, b. split; [by eapply points_to_mono|]. auto.
  - apply repr_clos in Hr as (fs&Hp&Hf). apply repr_clos. exists fs. split; [by eapply points_to_mono|].
    clear Hp. revert ts IH Hf. induction fs as [|f fs IHf]; intros ts IH Hf.
    + inversion Hf. constructor.
    + inversion Hf as [|? ? ? ? H1 H2]; subst. inversion IH; subst. constructor; [auto|]. by apply IHf.
  - by eapply points_to_mono.
  - by eapply points_to_mono.
  - by eapply points_to_mono.
Qed.

Lemma reprs_mono F F' st st' vs ts :
  (∀ a, F a → F' a ∧ cells st' !! a = cells st !! a) → reprs F st vs ts → reprs F' st' vs ts.
Proof. intros H Hr. eapply Forall2_impl; [exact Hr|]. intros. by eapply repr_mono. Qed.

(** Nodes of a tree, and the bytes its heap objects take when each occurrence
    is copied. *)
Fixpoint nodes (t : tree) : nat :=
  match t with
  | TPair a b => S (nodes a + nodes b)
  | TClos _ ts => S (list_sum (nodes <$> ts))
  | _ => 1
  end.
Section Bytes.
Context (g : Z → Z).
Fixpoint bytes_by (t : tree) : Z :=
  match t with
  | Imm _ => 0
  | TPair a b => g SIZEOF_PAIR + bytes_by a + bytes_by b
  | TClos _ ts => g (SIZEOF_CLOSURE + Z.of_nat (length ts) * SIZEOF_VAL) + sumZ (bytes_by <$> ts)
  | TString d => g (SIZEOF_STRING + Z.of_nat (length d) + 1)
  | TBytes d => g (SIZEOF_BYTES + Z.of_nat (length d))
  | TResource _ _ => g SIZEOF_RESOURCE
  end.

Lemma bytes_by_nonneg t : (∀ n, 0 ≤ n → 0 ≤ g n) → 0 ≤ bytes_by t.
Proof.
  intros Hg. induction t as [w|ta tb IHa IHb|e ts IH|d|d|w r] using tree_ind'; cbn [bytes_by];
    unfold SIZEOF_PAIR, SIZEOF_CLOSURE, SIZEOF_STRING, SIZEOF_BYTES, SIZEOF_RESOURCE, SIZEOF_VAL.
  - lia.
  - pose proof (Hg 24). lia.
  - pose proof (Hg (16 + Z.of_nat (length ts) * 8)).
    assert (0 ≤ sumZ (bytes_by <$> ts)); [|lia]. apply sumZ_nonneg, Forall_fmap. done.
  - apply Hg. lia.
  - apply Hg. lia.
  - apply Hg. lia.
Qed.
End Bytes.

(** In an actor's heap, where every object keeps room for a forwarding pointer. *)
Definition tree_bytes : tree → Z := bytes_by ta_heap_object_size.

Lemma tree_bytes_nonneg t : 0 ≤ tree_bytes t.
Proof. apply bytes_by_nonneg. intros n _. pose proof (ta_heap_object_size_spec n). lia. Qed.

(** The payloads of the unreleased resources of a tree that [pid] owns. *)
Fixpoint owned (pid : Z) (t : tree) : list Z :=
  match t with
  | TPair a b => owned pid a ++ owned pid b
  | TClos _ ts => concat (owned pid <$> ts)
  | TResource w r => if (w =? pid) && negb (r =? 0) then [r] else []
  | _ => []
  end.
Fixpoint has_resource (t : tree) : bool :=
  match t with
  | TPair a b => has_resource a || has_resource b
  | TClos _ ts => existsb has_resource ts
  | TResource _ _ => true
  | _ => false
  end.

(** * Collections preserve the trees of the stack *)

(** The constants of the program, at the addresses [K]: objects outside every
    arena that have no fields. *)
Definition consts_ok (K : Z → Prop) (st : store) (p : ProcMem) : Prop :=
  ∀ a, K a → foreign st p a ∧ ∀ o, cells st !! a = Some (Live o) → obj_children o = [].

(** Addresses a value of the actor may go through. *)
Definition arena_addr (K : Z → Prop) (p : ProcMem) (objs : list obj) (a : Z) : Prop :=
  a ∈ (layout (mem p) objs).*1 ∨ K a.

Section CollectTrees.
Context (cap : Z) (st : store) (p : ProcMem) (objs : list obj).
Context (ren : gmap Z Z) (st' : store) (p' : ProcMem) (objs' : list obj).
Context (Hok : arena_ok cap st p objs []) (Hok' : arena_ok cap st' p' objs' []).
Context (R : relocated st p None ren st' p' objs').
Context (Hkeep : ∀ a, foreign st p a → gc_copyable p a = false → cells st' !! a = cells st !! a).
Context (Hfor : ∀ a, foreign st p a → foreign st' p' a).
Context (K : Z → Prop) (Hleaf : consts_ok K st p) (Hnp : ∀ a, promoted p a = false).

Lemma tile_block a : a ∈ (layout (mem p) objs).*1 → mem p ≤ a < mem p + mem_size p.
Proof.
  intros ([x o]&->&Hin)%list_elem_of_fmap. apply layout_range in Hin. simpl.
  pose proof (obj_size_pos o). pose proof (heap_in_block _ _ _ _ _ Hok).
  rewrite (a_top _ _ _ _ _ Hok) in *. lia.
Qed.

Lemma foreign_not_copyable a : foreign st p a → gc_copyable p a = false.
Proof.
  intros (_&Hm&_). unfold gc_copyable. apply orb_false_iff. split; [|apply Hnp].
  pose proof (heap_in_block _ _ _ _ _ Hok). unfold in_fromspace.
  apply andb_false_iff. destruct Hm; [left; apply Z.leb_gt|right; apply Z.ltb_ge]; lia.
Qed.

Lemma foreign_not_renamed a : foreign st p a → ren !! a = None.
Proof.
  intros Hf. destruct (ren !! a) as [b|] eqn:E; [|done]. exfalso.
  assert (reachable st p None a) as Hr by (apply (r_reach _ _ _ _ _ _ _ R); eauto).
  apply (reachable_tile cap st p objs [] None Hok) in Hr; [|done]. rewrite app_nil_r in Hr.
  apply tile_block in Hr. destruct Hf as (_&?&_). lia.
Qed.

(** An object read before the collection is read after it, renamed. *)
Lemma collect_points_to v o :
  points_to (arena_addr K p objs) st v o →
  (heap_ref v → gc_copyable p (lpayload v) = true → reachable st p None (lpayload v)) →
  points_to (arena_addr K p' objs') st' (rename ren v) (rename_obj ren o) ∧
  (∀ w, w ∈ obj_children o → heap_ref w → gc_copyable p (lpayload w) = true →
     reachable st p None (lpayload w)).
Proof.
  intros (Hv&Ht&Ha&Hc) Hr. unfold rename.
  assert (Hht : is_heap_tag (val_tag v) = true) by (rewrite Ht; by destruct o).
  rewrite Hht. destruct Ha as [Ha|HK].
  - assert (Hg : gc_copyable p (lpayload v) = true).
    { apply list_elem_of_fmap in Ha as ([x o']&->&Hin). eapply (tile_copyable _ _ _ _ [] Hok).
      rewrite app_nil_r. exact Hin. }
    pose proof (Hr Hht Hg) as Hre. pose proof Hre as [b E]%(r_reach _ _ _ _ _ _ _ R). rewrite E.
    pose proof (r_obj _ _ _ _ _ _ _ R _ _ _ E Hc) as Hin.
    pose proof (layout_range _ _ _ _ Hin) as Hrg. pose proof (obj_size_pos (rename_obj ren o)).
    pose proof (heap_in_block _ _ _ _ _ Hok') as Hh. rewrite (a_top _ _ _ _ _ Hok') in Hh.
    destruct (b_mem _ _ _ (a_blocks _ _ _ _ _ Hok')) as (?&?&?). unfold ADDR_LIMIT in *.
    assert (0 ≤ val_tag v < 2 ^ 16) by (by apply Z.mod_pos_bound).
    split.
    + split; [by apply lbox_range|]. rewrite lbox_payload, lbox_tag. unfold u16.
      rewrite !Z.mod_small by lia. rewrite rename_obj_tag. split; [done|].
      split; [left; apply list_elem_of_fmap; by exists (b, rename_obj ren o)|].
      apply (a_cells _ _ _ _ _ Hok'). by rewrite app_nil_r.
    + intros w Hw Hwt Hwg. by eapply reach_field.
  - destruct (Hleaf _ HK) as [Hf Hl]. rewrite (foreign_not_renamed _ Hf). specialize (Hl _ Hc).
    split; [|rewrite Hl; by intros w ?%elem_of_nil].
    unfold rename_obj. rewrite Hl.
    assert (set_children o (rename ren <$> []) = o) as -> by (by destruct o; simpl in Hl; subst).
    split; [done|]. split; [done|]. split; [by right|].
    rewrite Hkeep; [done|done|]. by apply foreign_not_copyable.
Qed.

Lemma collect_repr t : ∀ v,
  repr (arena_addr K p objs) st v t →
  (heap_ref v → gc_copyable p (lpayload v) = true → reachable st p None (lpayload v)) →
  repr (arena_addr K p' objs') st' (rename ren v) t.
Proof.
  induction t as [w|ta tb IHa IHb|e ts IH|d|d|w r] using tree_ind'; intros v Hv Hr.
  - destruct Hv as (->&Hv&Hn). unfold rename. rewrite Hn. done.
  - destruct Hv as (a&b&Hp&Ha&Hb). destruct (collect_points_to _ _ Hp Hr) as [Hp' Hch].
    exists (rename ren a), (rename ren b). split; [done|].
    split; [apply IHa; [done|]|apply IHb; [done|]]; apply Hch; simpl; set_solver.
  - apply repr_clos in Hv as (fs&Hp&Hf). destruct (collect_points_to _ _ Hp Hr) as [Hp' Hch].
    apply repr_clos. exists (rename ren <$> fs). split; [done|]. clear Hp Hp'. simpl in Hch.
    revert ts IH Hf. induction fs as [|f fs IHf]; intros ts IH Hf.
    + inversion Hf. constructor.
    + inversion Hf as [|? ? ? ? H1 H2]; subst. inversion IH; subst. rewrite fmap_cons. constructor.
      * apply H3; [done|]. apply Hch. by left.
      * apply IHf; [|done|done]. intros w Hw. apply Hch. by right.
  - by destruct (collect_points_to _ _ Hv Hr).
  - by destruct (collect_points_to _ _ Hv Hr).
  - by destruct (collect_points_to _ _ Hv Hr).
Qed.
End CollectTrees.

(** * The actor's memory, seen from the language *)

(** [T i] is the tree in stack slot [i]. *)
Record actor_ok (cap : Z) (K : Z → Prop) (st : store) (p : ProcMem) (objs : list obj) (T : Z → tree) : Prop := {
  ac_arena : arena_ok cap st p objs [];
  ac_consts : consts_ok K st p;
  ac_promote : ∀ a, promoted p a = false;
  ac_stack : ∀ i, 0 ≤ i < - sp p → ∃ v, slots p !! i = Some v ∧ repr (arena_addr K p objs) st v (T i)
}.

(** The control fields a collection leaves alone. *)
Definition same_control (p q : ProcMem) : Prop :=
  sp q = sp p ∧ stack_floor q = stack_floor p ∧ pid q = pid p ∧ gc_gate q = gc_gate p ∧ ccall q = ccall p.

(** Objects outside the actor's blocks are left alone, and stay outside. *)
Definition outside_kept (st : store) (p : ProcMem) (st' : store) (p' : ProcMem) : Prop :=
  ∀ a, foreign st p a → foreign st' p' a ∧ cells st' !! a = cells st !! a.

(** A collection that fits keeps every tree of the stack. *)
Lemma collect_actor cap K st p objs T extra :
  actor_ok cap K st p objs T → 0 ≤ extra → gc_need p extra ≤ cap → brk st + cap < ADDR_LIMIT →
  ∃ st' p' objs', gc_collect cap st p extra = Ret (true, st', p') ∧
    actor_ok cap K st' p' objs' T ∧ same_control p p' ∧ gc_pending p' = gc_pending p ∧
    heap_ptr p' + extra ≤ mem_size p' + proc_stack_lo p' * 8 ∧ brk st' ≤ brk st + cap + 16 ∧
    heap_ptr p' ≤ heap_ptr p ∧ outside_kept st p st' p'.
Proof.
  intros [A C P S] He Hn Hr.
  destruct (collect_internal_spec cap st p objs [] extra None)
    as (ren&st'&p'&objs'&E&A'&R&_&_&F&_&[_ Hb]&Hk&Hf&Hs); [done|done|done|done|done|].
  assert (promoted p' = promoted p) as Hpr.
  { destruct (r_sp _ _ _ _ _ _ _ R) as (_&_&_&_&_&Ec). unfold promoted, val_in_chunk. by rewrite Ec. }
  exists st', p', objs'. unfold gc_collect. rewrite E. split; [done|].
  destruct (r_sp _ _ _ _ _ _ _ R) as (E1&E2&E3&E4&E5&E6).
  split; [|split; [done|split; [done|split; [|split; [done|split]]]]].
  2, 3: unfold sizes in F, Hs; simpl in F, Hs; lia.
  2:{ intros a Ha. split; [by apply Hf|]. apply Hk; [done|]. by eapply foreign_not_copyable. }
  assert (Hfn : ∀ a, foreign st p a → gc_copyable p a = false).
  { intros a Ha. by eapply foreign_not_copyable. }
  split; [done| |by rewrite Hpr|].
  - intros a Ha. destruct (C a Ha) as [Hfa Hl]. split; [by apply Hf|].
    intros o Ho. apply Hl. rewrite <- Hk by auto. done.
  - rewrite E1. intros i Hi. destruct (S i Hi) as (v&Hv&Hrep). exists (rename ren v).
    rewrite (r_slots _ _ _ _ _ _ _ R i Hi), Hv. split; [done|].
    eapply (collect_repr cap st p objs ren st' p' objs'); eauto.
    intros. by eapply reach_root.
Qed.
