(* ===== verification/Alloc.v ===== *)
(** Allocation on an actor's heap (ta_inline.h), the value constructors of
    src/val.c that use it, and what they promise: the trees on the stack
    survive every allocation, collections included, and the heap never reaches
    the frames already reserved on the stack. *)
From stdpp Require Import base tactics list gmap strings.
From Stdlib Require Import ZArith Lia.
From S2P Require Import Prelude Values Heap Resource Gc GcCorrect GcSpec Tree.
Open Scope Z_scope.

(** * Definitions *)

(** [proc_gc_drain]: honour a pending request once the gate is open; the
    return code of the collection is ignored. *)
Definition proc_gc_drain (cap : Z) (st : store) (p : ProcMem) : outcome (store * ProcMem) :=
  if (gc_gate p =? 0) && gc_pending p then
    '(_, st, p) ← gc_collect cap st (set_gc_pending false p) 0;
    Ret (st, p)
  else Ret (st, p).

Definition proc_gc_reopen (cap : Z) (st : store) (p : ProcMem) : outcome (store * ProcMem) :=
  p ← proc_gc_leave p;
  proc_gc_drain cap st p.

(** [proc_stack_reserve]: record the frame floor, then make the slots down to
    [lo_idx] fit above the heap. *)
Definition proc_stack_reserve (cap : Z) (st : store) (p : ProcMem) (lo_idx : Z) : outcome (store * ProcMem) :=
  '(st, p) ← proc_ensure_heap st p;
  let p := if lo_idx <? stack_floor p then set_stack_floor lo_idx p else p in
  if mem_size p + lo_idx * 8 <? heap_ptr p then
    let '(grown, st, p) := proc_arena_grow cap st p ((1 - lo_idx) * 8) in
    '(ok, st, p) ← (if grown then Ret (true, st, p) else gc_collect cap st p ((1 - lo_idx) * 8));
    if negb ok then Abort FATAL_STACK
    else if mem_size p + lo_idx * 8 <? heap_ptr p then Abort FATAL_STACK
    else Ret (st, p)
  else Ret (st, p).

Definition FATAL_RESERVE_EMPTY : string := "cannot reserve arena room for an incoming copy".
Definition FATAL_RESERVE : string := "incoming data does not fit: heap + stack exceed the arena".

Definition proc_reserve_heap (cap : Z) (st : store) (p : ProcMem) (bytes : Z) : outcome (store * ProcMem) :=
  if bytes + TA_HEAP_FIT_SLACK <=? mem_size p - heap_ptr p + proc_stack_lo p * 8 then Ret (st, p)
  else if proc_heap_empty p then
    let stack_bytes := - proc_stack_lo p * 8 in
    let '(ok, st, p) := proc_arena_grow cap st p (heap_ptr p + stack_bytes + bytes + TA_STACK_HEADROOM) in
    if (ok : bool) then Ret (st, p) else Abort FATAL_RESERVE_EMPTY
  else
    '(ok, st, p) ← gc_collect cap st p (bytes + TA_STACK_HEADROOM);
    if (ok : bool) then Ret (st, p) else Abort FATAL_RESERVE.

(** [memset(ptr, 0, size)]: no object is there any more. *)
Definition zero_cell (st : store) (a : Z) : store :=
  mk_store (delete a (cells st)) (payloads st) (dtor_calls st) (brk st).

Definition FATAL_CHUNK : string := "out of memory allocating a callback chunk".
Definition FATAL_ALLOC : string := "allocation does not fit: heap + stack exceed the arena".

(** The TA_GC_STRESS countdown; [stress] is [ta_gc_stress_env()]. *)
Definition stress_tick (stress : Z) (p : ProcMem) : ProcMem :=
  if 0 <? stress then
    let p := set_gc_stress_cnt (gc_stress_cnt p - 1) p in
    if gc_stress_cnt p <=? 0 then set_gc_pending true (set_gc_stress_cnt stress p) else p
  else p.

(** The part of [proc_heap_alloc] that allocates in the heap. *)
Definition heap_alloc (cap stress : Z) (st : store) (p : ProcMem) (size : Z) : outcome (Z * store * ProcMem) :=
  let p := stress_tick stress p in
  '(st, p) ← proc_ensure_heap st p;
  let p := if gc_trigger p <? heap_ptr p then set_gc_pending true p else p in
  '(st, p) ← proc_gc_drain cap st p;
  '(st, p) ←
    (if mem_size p + proc_stack_lo p * 8 <? heap_ptr p + size + TA_HEAP_FIT_SLACK then
       if negb (gc_gate p =? 0) then Abort FATAL_ALLOC
       else '(ok, st, p) ← gc_collect cap st p (size + TA_STACK_HEADROOM);
            if (ok : bool) then Ret (st, p) else Abort FATAL_ALLOC
     else Ret (st, p));
  let ptr := mem p + heap_ptr p in
  Ret (ptr, zero_cell st ptr, set_heap_ptr (heap_ptr p + size) p).

Definition proc_heap_alloc (cap stress : Z) (st : store) (p : ProcMem) (size : Z) : outcome (Z * store * ProcMem) :=
  let size := ta_heap_object_size size in
  match ccall p with
  | Some ca =>
      if negb (ca_converge ca) then
        match callback_arena_alloc st ca size with
        | None => Abort FATAL_CHUNK
        | Some (a, st, ca) => Ret (a, zero_cell st a, set_ccall (Some ca) p)
        end
      else heap_alloc cap stress st p size
  | None => heap_alloc cap stress st p size
  end.

(** Allocate and fill: the value constructors. *)
Definition alloc_obj (cap stress : Z) (st : store) (p : ProcMem) (o : obj) : outcome (Val * store * ProcMem) :=
  '(a, st, p) ← proc_heap_alloc cap stress st p (raw_size o);
  Ret (box_tag_payload (obj_tag o) a, write_cell st a (Live o), p).

Definition val_pair (cap stress : Z) (st : store) (p : ProcMem) (car cdr : Val) : outcome (Val * store * ProcMem) :=
  alloc_obj cap stress st p (HeapPair car cdr).
Definition val_string (cap stress : Z) (st : store) (p : ProcMem) (data : list Z) : outcome (Val * store * ProcMem) :=
  alloc_obj cap stress st p (HeapString data).
Definition val_bytes (cap stress : Z) (st : store) (p : ProcMem) (data : list Z) : outcome (Val * store * ProcMem) :=
  alloc_obj cap stress st p (HeapBytes data).

(** [ta_resource_new]: [ptr] and [dtor] belong to the calling module.  The
    payload is malloc'd; its address is its key in [payloads]. *)
Definition SIZEOF_PAYLOAD : Z := 16.
Definition ta_resource_new (cap stress : Z) (st : store) (p : ProcMem) (ptr dtor : Z)
    : outcome (Val * store * ProcMem) :=
  let p := set_ccall ((λ a, mk_CallbackArena (ca_head a) (ca_rest a) (ca_total a) (ca_resources a + 1)
                                             (ca_converge a) (ca_promote a)) <$> ccall p) p in
  match malloc st SIZEOF_PAYLOAD with
  | None => Abort "abort"
  | Some (res, st) =>
      let st := mk_store (cells st) (<[res := (ptr, dtor)]> (payloads st)) (dtor_calls st) (brk st) in
      alloc_obj cap stress st p (HeapResource (pid p) res)
  end.

(** ** Equality *)
Definition read_string (st : store) (v : Val) : outcome (list Z) :=
  match cells st !! lpayload v with
  | Some (Live (HeapString d)) => Ret d
  | _ => Undef
  end.

(** Strings by content, everything else by its bits. *)
Definition val_equal (st : store) (a b : Val) : outcome bool :=
  if val_is_string a && val_is_string b then
    sa ← read_string st a;
    sb ← read_string st b;
    Ret ((length sa =? length sb)%nat && bool_decide (sa = sb))
  else Ret (a =? b).

(** * Extending the heap by one object *)

(** Everything [arena_ok] says of a process but its request flags. *)
Definition same_arena (p q : ProcMem) : Prop :=
  pid q = pid p ∧ mem q = mem p ∧ mem_size q = mem_size p ∧ heap_ptr q = heap_ptr p ∧ sp q = sp p ∧
  stack_floor q = stack_floor p ∧ slots q = slots p ∧ gc_to q = gc_to p ∧ gc_to_cap q = gc_to_cap p ∧
  gc_gate q = gc_gate p ∧ ccall q = ccall p.

Lemma same_arena_ok cap st p q objs ck : same_arena p q → arena_ok cap st p objs ck → arena_ok cap st q objs ck.
Proof.
  intros (E1&E2&E3&E4&E5&E6&E7&E8&E9&E10&E11) A.
  assert (Hf : ∀ a, foreign st p a ↔ foreign st q a) by (intros a; unfold foreign; by rewrite E2, E3, E8, E9).
  assert (Hc : ∀ a, gc_copyable q a = gc_copyable p a)
    by (intros a; unfold gc_copyable, in_fromspace, val_in_chunk; by rewrite E2, E4, E11).
  assert (Hv : ∀ ts v, arena_val st p ts v → arena_val st q ts v).
  { intros ts v [Hv Hr]. split; [done|]. intros Ht. rewrite Hc, <- Hf. by apply Hr. }
  split; rewrite ?E1, ?E2, ?E3, ?E4, ?E5, ?E6, ?E7; try by apply A.
  - destruct (a_blocks _ _ _ _ _ A). split; by rewrite ?E2, ?E3, ?E8, ?E9.
  - intros a o v Hin Hc'. eapply Hv, (a_fields _ _ _ _ _ A); eauto.
  - intros i Hi. destruct (a_stack _ _ _ _ _ A i Hi) as (v&?&?). eauto.
  - split; [apply A|]. intros a o Ha. rewrite Hc, <- Hf. by apply (a_ck _ _ _ _ _ A) in Ha.
  - intros a Ha. apply Hf, (a_promote _ _ _ _ _ A). unfold promoted, val_in_chunk in *. by rewrite <- E11.
Qed.

Lemma foreign_heap_ptr st p h a : foreign st (set_heap_ptr h p) a ↔ foreign st p a.
Proof. done. Qed.

Section Extend.
Context (cap : Z) (st : store) (p : ProcMem) (objs : list obj) (o : obj).
Let a := mem p + heap_ptr p.
Let p' := set_heap_ptr (heap_ptr p + obj_size o) p.
Let st' := write_cell st a (Live o).
Context (Hok : arena_ok cap st p objs []).
Context (Hfit : heap_ptr p + obj_size o ≤ mem_size p + sp p * 8).
Context (Hnp : ∀ x, promoted p x = false).

Lemma extend_layout : layout (mem p) (objs ++ [o]) = layout (mem p) objs ++ [(a, o)].
Proof. rewrite layout_app. simpl. unfold a. by rewrite (a_top _ _ _ _ _ Hok). Qed.

Lemma extend_frame x : x ∈ (layout (mem p) objs).*1 ∨ foreign st p x → cells st' !! x = cells st !! x.
Proof.
  intros Hx. unfold st', write_cell. simpl. apply lookup_insert_ne.
  pose proof (heap_in_block _ _ _ _ _ Hok). pose proof (obj_size_pos o). pose proof (a_sp _ _ _ _ _ Hok).
  destruct Hx as [([y o']&->&Hin)%list_elem_of_fmap|(_&Hm&_)]; simpl.
  - apply layout_range in Hin. pose proof (obj_size_pos o'). unfold a. rewrite (a_top _ _ _ _ _ Hok). lia.
  - unfold a. lia.
Qed.

Lemma extend_val tiles tiles' v :
  (∀ x, x ∈ tiles → x ∈ tiles') → arena_val st p tiles v → arena_val st' p' tiles' v.
Proof.
  intros Hsub [Hv Hr]. split; [done|]. intros Ht. destruct (Hr Ht) as [(o'&Hin&Hot)|[Hf Hg]].
  - left. exists o'. auto.
  - right. split; [done|]. unfold gc_copyable. apply orb_false_iff. split; [|apply Hnp].
    destruct Hf as (_&Hm&_). unfold in_fromspace, p'. simpl.
    pose proof (a_sp _ _ _ _ _ Hok).
    apply andb_false_iff. destruct Hm; [left; apply Z.leb_gt|right; apply Z.ltb_ge]; lia.
Qed.

(** Resources the new object adds must be backed by a payload of their own. *)
Definition fresh_resource : Prop :=
  ∀ r, o = HeapResource (pid p) r → r ≠ 0 →
    is_Some (payloads st !! r) ∧ ∀ x, (x, r) ∉ garbage st (pid p) (layout (mem p) objs).

Lemma extend_garbage x r :
  (x, r) ∈ garbage st' (pid p) (layout (mem p) (objs ++ [o])) ↔
  (x, r) ∈ garbage st (pid p) (layout (mem p) objs) ∨ (x = a ∧ o = HeapResource (pid p) r ∧ r ≠ 0).
Proof.
  rewrite !elem_of_garbage, extend_layout, fmap_app, elem_of_app.
  change ([(a, o)].*1) with [a]. rewrite list_elem_of_singleton.
  assert (Ha : cells st' !! a = Some (Live o)) by apply lookup_insert_eq.
  split.
  - intros ([Hin|Hx]&Hc&Hr); [left|right].
    + rewrite extend_frame in Hc by (by left). done.
    + rewrite Hx, Ha in Hc. naive_solver.
  - intros [(Hin&Hc&Hr)|(Hx&Ho&Hr)].
    + split; [by left|]. rewrite extend_frame by (by left). done.
    + rewrite Hx, Ha, Ho. naive_solver.
Qed.

Lemma arena_extend :
  fresh_resource → (∀ v, v ∈ obj_children o → arena_val st p (layout (mem p) objs ++ []) v) →
  arena_ok cap st' p' (objs ++ [o]) [].
Proof.
  intros Hres Hch.
  assert (Hsub : ∀ x, x ∈ layout (mem p) objs ++ [] → x ∈ layout (mem p') (objs ++ [o]) ++ []).
  { intros x. change (mem p') with (mem p). rewrite extend_layout, !app_nil_r, elem_of_app. auto. }
  split.
  - destruct (a_blocks _ _ _ _ _ Hok). by split.
  - unfold p'. cbn [heap_ptr set_heap_ptr]. rewrite (a_top _ _ _ _ _ Hok), sizes_app.
    unfold sizes. simpl. lia.
  - intros x o'. change (mem p') with (mem p). rewrite extend_layout, app_nil_r.
    intros [Hin|[= -> ->]%list_elem_of_singleton]%elem_of_app.
    + rewrite extend_frame by (left; apply list_elem_of_fmap; by exists (x, o')).
      apply (a_cells _ _ _ _ _ Hok). by rewrite app_nil_r.
    + apply lookup_insert_eq.
  - intros x o' v Hin Hv. eapply extend_val; [exact Hsub|].
    change (mem p') with (mem p) in Hin. rewrite extend_layout, app_nil_r in Hin.
    apply elem_of_app in Hin as [Hin|[= -> ->]%list_elem_of_singleton]; [|by apply Hch].
    eapply (a_fields _ _ _ _ _ Hok); [|done]. by rewrite app_nil_r.
  - intros i Hi. destruct (a_stack _ _ _ _ _ Hok i Hi) as (v&Hv&Hav). exists v. split; [done|].
    by eapply extend_val.
  - apply (a_sp _ _ _ _ _ Hok).
  - unfold p'. simpl. lia.
  - intros a1 a2 r. rewrite app_nil_r. change (mem p') with (mem p). change (pid p') with (pid p).
    rewrite !extend_garbage. pose proof (a_res _ _ _ _ _ Hok) as Hold. rewrite app_nil_r in Hold.
    intros [H1|(->&E1&N1)] [H2|(->&E2&N2)].
    + by apply (Hold a1 a2 r).
    + destruct (Hres r E2 N2) as [_ Hn]. by destruct (Hn a1).
    + destruct (Hres r E1 N1) as [_ Hn]. by destruct (Hn a2).
    + split; [done|]. by destruct (Hres r E1 N1).
  - split; [constructor|]. by intros ? ? ?%elem_of_nil.
  - intros x Hx. unfold p' in Hx. change (promoted p x = true) in Hx. by rewrite Hnp in Hx.
Qed.

(** Trees of the old values are unchanged. *)
Lemma extend_repr K v t :
  (∀ x, K x → foreign st p x) →
  repr (arena_addr K p objs) st v t → repr (arena_addr K p' (objs ++ [o])) st' v t.
Proof.
  intros HK. apply repr_mono. intros x Hx.
  split; [|apply extend_frame; destruct Hx; [by left|right; auto]].
  destruct Hx as [Hx|Hx]; [left|by right]. change (mem p') with (mem p).
  rewrite extend_layout, fmap_app, elem_of_app. by left.
Qed.

(** The new value points to the new object. *)
Lemma extend_points_to K :
  points_to (arena_addr K p' (objs ++ [o])) st' (box_tag_payload (obj_tag o) a) o.
Proof.
  pose proof (heap_in_block _ _ _ _ _ Hok). pose proof (obj_size_pos o).
  pose proof (a_sp _ _ _ _ _ Hok).
  destruct (b_mem _ _ _ (a_blocks _ _ _ _ _ Hok)) as (?&?&?). unfold ADDR_LIMIT in *.
  unfold box_tag_payload. assert (0 ≤ a < 2 ^ 48) by (unfold a; lia).
  split; [apply lbox_range|]. rewrite lbox_tag, lbox_payload. rewrite (Z.mod_small a) by done.
  split; [by destruct o|]. split; [|apply lookup_insert_eq].
  left. change (mem p') with (mem p). rewrite extend_layout, fmap_app, elem_of_app. right. by left.
Qed.
End Extend.

(** * Specifications *)
Lemma same_arena_actor cap K st p q objs T : same_arena p q → actor_ok cap K st p objs T → actor_ok cap K st q objs T.
Proof.
  intros E [A C P S]. pose proof E as (E1&E2&E3&E4&E5&E6&E7&E8&E9&E10&E11). split.
  - by eapply same_arena_ok.
  - intros a Ha. destruct (C a Ha) as [Hf Hl]. split; [|done]. unfold foreign in *. by rewrite E2, E3, E8, E9.
  - intros a. rewrite <- (P a). unfold promoted, val_in_chunk. by rewrite E11.
  - rewrite E5, E7. intros i Hi. destruct (S i Hi) as (v&Hv&Hr). exists v. split; [done|].
    unfold arena_addr in *. by rewrite E2.
Qed.

Lemma same_arena_refl p : same_arena p p.
Proof. by repeat split. Qed.
Lemma same_arena_trans p q r : same_arena p q → same_arena q r → same_arena p r.
Proof. unfold same_arena. intuition congruence. Qed.
Lemma same_arena_control p q : same_arena p q → same_control p q.
Proof. unfold same_arena, same_control. intuition congruence. Qed.
Lemma same_control_trans p q r : same_control p q → same_control q r → same_control p r.
Proof. unfold same_control. intuition congruence. Qed.
Lemma same_control_lo p q : same_control p q → proc_stack_lo q = proc_stack_lo p.
Proof. unfold same_control, proc_stack_lo. intros (->&->&_). done. Qed.

Lemma stress_tick_same n p : same_arena p (stress_tick n p).
Proof. unfold stress_tick. destruct (0 <? n); [|by apply same_arena_refl]. simpl. by case_match. Qed.
Lemma pending_same b p : same_arena p (set_gc_pending b p).
Proof. by repeat split. Qed.

#[export] Hint Resolve same_arena_refl stress_tick_same pending_same same_arena_control : ta.

Section Specs.
Context (cap stress : Z) (K : Z → Prop) (T : Z → tree).

(** A drain keeps the trees and the fit. *)
Lemma drain_spec st p objs :
  actor_ok cap K st p objs T → fits p → brk st + cap < ADDR_LIMIT →
  ∃ st' p' objs', proc_gc_drain cap st p = Ret (st', p') ∧ actor_ok cap K st' p' objs' T ∧
    same_control p p' ∧ fits p' ∧ brk st' ≤ brk st + cap + 16 ∧ heap_ptr p' ≤ heap_ptr p ∧
    (gc_gate p ≠ 0 → st' = st ∧ p' = p) ∧ outside_kept st p st' p'.
Proof.
  intros A F Hr. unfold proc_gc_drain.
  destruct (b_size _ _ _ (a_blocks _ _ _ _ _ (ac_arena _ _ _ _ _ _ A))) as [Hs Hc].
  destruct (Z.eqb_spec (gc_gate p) 0) as [Hg|Hg]; simpl.
  2:{ exists st, p, objs. split; [done|]. split; [done|]. split; [by apply same_arena_control, same_arena_refl|].
      split; [done|]. split; [lia|]. split; [done|]. split; [done|]. by intros a Ha. }
  destruct (gc_pending p) eqn:Hp; simpl.
  2:{ exists st, p, objs. split; [done|]. split; [done|]. split; [by apply same_arena_control, same_arena_refl|].
      split; [done|]. split; [lia|]. split; [done|]. split; [done|]. by intros a Ha. }
  destruct (collect_actor cap K st (set_gc_pending false p) objs T 0) as (st'&p'&objs'&E&A'&C&_&G&B&H&O).
  - eapply same_arena_actor; [|done]. apply pending_same.
  - lia.
  - unfold gc_need, fits in *. simpl. change (proc_stack_lo (set_gc_pending false p)) with (proc_stack_lo p). lia.
  - done.
  - rewrite E. exists st', p', objs'. split; [done|]. split; [done|]. split; [done|].
    unfold fits. simpl in H. split; [lia|]. split; [done|]. split; [done|]. split; [done|]. exact O.
Qed.

(** Allocation in the heap: the trees survive and the room is there, or the
    arena is exhausted, which never happens while the request fits the cap
    with the gate open. *)
Lemma heap_alloc_spec st p objs size :
  actor_ok cap K st p objs T → fits p → 0 ≤ size ≤ 2 ^ 29 → brk st + 2 * cap + 16 < ADDR_LIMIT →
  (heap_alloc cap stress st p size = Abort FATAL_ALLOC ∧
     (gc_gate p ≠ 0 ∨ cap < heap_ptr p + size + TA_STACK_HEADROOM + - proc_stack_lo p * 8)) ∨
  ∃ st1 p1 objs1, actor_ok cap K st1 p1 objs1 T ∧ same_control p p1 ∧
    heap_ptr p1 + size + TA_HEAP_FIT_SLACK ≤ mem_size p1 + proc_stack_lo p1 * 8 ∧
    (gc_gate p ≠ 0 → st1 = st ∧ same_arena p p1) ∧ outside_kept st p st1 p1 ∧
    heap_alloc cap stress st p size =
      Ret (mem p1 + heap_ptr p1, zero_cell st1 (mem p1 + heap_ptr p1), set_heap_ptr (heap_ptr p1 + size) p1).
Proof.
  intros A F Hsz Hr. unfold heap_alloc.
  pose proof (ac_arena _ _ _ _ _ _ A) as A0. destruct (b_mem _ _ _ (a_blocks _ _ _ _ _ A0)) as (Hm&_).
  destruct (b_size _ _ _ (a_blocks _ _ _ _ _ A0)) as [Hms Hmc]. pose proof (b_cap _ _ _ (a_blocks _ _ _ _ _ A0)) as Hcap.
  set (pa := stress_tick stress p). pose proof (stress_tick_same stress p : same_arena p pa) as Sa.
  assert (mem pa = mem p) as Em by apply Sa. unfold proc_ensure_heap. rewrite Em.
  destruct (Z.eqb_spec (mem p) 0); [lia|]. cbn [mbind outcome_bind].
  set (pb := if gc_trigger pa <? heap_ptr pa then set_gc_pending true pa else pa).
  assert (Sb : same_arena p pb).
  { eapply same_arena_trans; [exact Sa|]. unfold pb. case_match; auto with ta. }
  assert (fits pb) as Fb.
  { unfold fits in *. destruct Sb as (?&?&->&->&E&E'&_). unfold proc_stack_lo in *. by rewrite E, E'. }
  destruct (drain_spec st pb objs) as (st1&p1&objs1&->&A1&C1&F1&B1&H1&G1&O1);
    [by eapply same_arena_actor|done|lia|]. cbn [mbind outcome_bind].
  assert (C01 : same_control p p1) by (eapply same_control_trans; [apply same_arena_control; exact Sb|done]).
  assert (O01 : outside_kept st p st1 p1).
  { intros a Ha. apply O1. destruct Sb as (_&E2&E3&_&_&_&_&E8&E9&_). unfold foreign in *. by rewrite E2, E3, E8, E9. }
  assert (heap_ptr pb = heap_ptr p) as Hhp by apply Sb. assert (gc_gate p1 = gc_gate p) as Hgp by apply C01.
  assert (gc_gate pb = gc_gate p) as Hgb by apply Sb. rewrite Hgb in G1.
  pose proof (same_control_lo _ _ C01) as Hlo. unfold TA_STACK_HEADROOM, TA_HEAP_FIT_SLACK in *.
  destruct (Z.ltb_spec (mem_size p1 + proc_stack_lo p1 * 8) (heap_ptr p1 + size + 16)) as [Hlt|Hge].
  - rewrite Hgp. destruct (Z.eqb_spec (gc_gate p) 0) as [Hg|Hg]; simpl; [|by left; auto].
    pose proof (ac_arena _ _ _ _ _ _ A1) as A1a.
    destruct (decide (gc_need p1 (size + 256) ≤ cap)) as [Hn|Hn].
    + destruct (collect_actor cap K st1 p1 objs1 T (size + 256)) as (st2&p2&objs2&->&A2&C2&_&G2&_&_&O2);
        [done|lia|done|lia|]. cbn [mbind outcome_bind]. right. exists st2, p2, objs2.
      split; [done|]. split; [by eapply same_control_trans|]. split; [lia|]. split; [done|]. split; [|done].
      intros a Ha. destruct (O01 a Ha) as [Ha1 E1]. destruct (O2 a Ha1) as [Ha2 E2]. split; [done|]. congruence.
    + left. assert (Hneed : gc_need p1 (size + 256) < 2 ^ 31).
      { unfold gc_need, fits in *. destruct (b_size _ _ _ (a_blocks _ _ _ _ _ A1a)). lia. }
      unfold gc_collect, gc_collect_internal.
      destruct (b_mem _ _ _ (a_blocks _ _ _ _ _ A1a)) as (Hm1&_). destruct (Z.eqb_spec (mem p1) 0); [lia|].
      destruct (gc_want_spec cap p1 (size + 256)) as [Hw Hwn]; [apply (a_blocks _ _ _ _ _ A1a)|lia|].
      assert (0 ≤ gc_need p1 (size + 256)).
      { pose proof (heap_in_block _ _ _ _ _ A1a). pose proof (a_sp _ _ _ _ _ A1a).
        pose proof (proc_stack_lo_le p1). unfold gc_need. lia. }
      replace (in_i32 (gc_need p1 (size + 256))) with true
        by (symmetry; apply andb_true_intro; split; [apply Z.leb_le|apply Z.ltb_lt]; lia). cbn [negb].
      destruct (Z.ltb_spec (gc_want cap p1 (size + 256)) (gc_need p1 (size + 256))); [|lia].
      split; [done|]. right. unfold gc_need in Hn. lia.
  - right. exists st1, p1, objs1. split; [done|]. split; [done|]. split; [lia|]. split; [|done].
    intros Hg. destruct (G1 Hg) as [-> ->]. done.
Qed.
End Specs.

(** ** Allocation with the gate closed *)

(** No collection can run: the heap is bumped in place. *)
Definition closed_heap (p : ProcMem) : Prop :=
  mem p ≠ 0 ∧ gc_gate p ≠ 0 ∧ ∀ ca, ccall p = Some ca → ca_converge ca = true.

Lemma zero_write st a o : write_cell (zero_cell st a) a (Live o) = write_cell st a (Live o).
Proof. unfold write_cell, zero_cell. simpl. f_equal. apply insert_delete_eq. Qed.

Lemma alloc_closed cap stress st p o :
  closed_heap p →
  heap_ptr p + obj_size o + TA_HEAP_FIT_SLACK ≤ mem_size p + proc_stack_lo p * 8 →
  ∃ p', alloc_obj cap stress st p o =
      Ret (box_tag_payload (obj_tag o) (mem p + heap_ptr p), write_cell st (mem p + heap_ptr p) (Live o), p') ∧
    same_arena (set_heap_ptr (heap_ptr p + obj_size o) p) p'.
Proof.
  intros (Hm&Hg&Hc) Hfit. unfold alloc_obj, proc_heap_alloc.
  change (ta_heap_object_size (raw_size o)) with (obj_size o).
  assert (H : ∃ p', heap_alloc cap stress st p (obj_size o) =
      Ret (mem p + heap_ptr p, zero_cell st (mem p + heap_ptr p), p') ∧
      same_arena (set_heap_ptr (heap_ptr p + obj_size o) p) p').
  { unfold heap_alloc. set (pa := stress_tick stress p).
    pose proof (stress_tick_same stress p : same_arena p pa) as Sa.
    unfold proc_ensure_heap. replace (mem pa) with (mem p) by (symmetry; apply Sa).
    destruct (Z.eqb_spec (mem p) 0); [done|]. cbn [mbind outcome_bind].
    set (pb := if gc_trigger pa <? heap_ptr pa then set_gc_pending true pa else pa).
    assert (Sb : same_arena p pb).
    { eapply same_arena_trans; [exact Sa|]. unfold pb. case_match; auto with ta. }
    unfold proc_gc_drain. replace (gc_gate pb) with (gc_gate p) by (symmetry; apply Sb).
    destruct (Z.eqb_spec (gc_gate p) 0); [done|]. cbn [andb mbind outcome_bind].
    pose proof (same_control_lo p pb ltac:(by apply same_arena_control)) as Hlo.
    destruct Sb as (E1&E2&E3&E4&E5&E6&E7&E8&E9&E10&E11). rewrite Hlo, E3, E4.
    destruct (Z.ltb_spec (mem_size p + proc_stack_lo p * 8) (heap_ptr p + obj_size o + TA_HEAP_FIT_SLACK)); [lia|].
    cbn [mbind outcome_bind]. rewrite E2, E4. eexists. split; [done|]. by repeat split. }
  destruct H as (p'&H&S). exists p'. split; [|done].
  destruct (ccall p) as [ca|] eqn:E; [rewrite (Hc ca eq_refl); cbn [negb]|]; rewrite H; cbn [mbind outcome_bind];
    by rewrite zero_write.
Qed.

(** ** Growing an empty arena *)
Lemma grow_spec cap K T st p objs need st' p' :
  actor_ok cap K st p objs T → need < 2 ^ 32 → proc_arena_grow cap st p need = (true, st', p') →
  actor_ok cap K st' p' [] T ∧ same_control p p' ∧ heap_ptr p' = 0 ∧ need ≤ mem_size p' ∧
  mem_size p ≤ mem_size p' ∧ slots p' = live_slots p ∧ outside_kept st p st' p'.
Proof.
  intros [A C P S] Hneed E. unfold proc_arena_grow in E.
  destruct ((mem p =? 0) || (0 <? heap_ptr p)) eqn:E1; [done|].
  apply orb_false_iff in E1 as [E1%Z.eqb_neq E2%Z.ltb_ge].
  pose proof (a_blocks _ _ _ _ _ A) as B. pose proof (b_size _ _ _ B) as Hs.
  set (dw := double_want DOUBLINGS (mem_size p) need cap) in E.
  set (want := if cap <? dw then cap else dw) in E.
  destruct (Z.ltb_spec want need) as [|Hwn]; [done|].
  destruct (Z.leb_spec want (mem_size p)) as [|Hwm]; [done|].
  unfold malloc in E. destruct (Z.ltb_spec (brk st + want) ADDR_LIMIT) as [Hlim|]; [|done].
  injection E as <- <-.
  assert (Hwc : want ≤ cap) by (unfold want; destruct (Z.ltb_spec cap dw); lia).
  pose proof (heap_in_block _ _ _ _ _ A) as Hh. assert (heap_ptr p = 0) as Hh0 by lia.
  assert (objs = []) as ->.
  { rewrite (a_top _ _ _ _ _ A) in Hh0. destruct objs as [|o os]; [done|].
    rewrite sizes_cons in Hh0. pose proof (obj_size_pos o). pose proof (sizes_nonneg os). lia. }
  destruct (b_mem _ _ _ B) as (M1&M2&M3). destruct (a_sp _ _ _ _ _ A) as [S1 S2].
  pose proof (a_gap _ _ _ _ _ A) as Hgap. pose proof (b_to _ _ _ B) as Ht. pose proof (b_to_cap _ _ _ B) as Htc.
  set (st' := mk_store (cells st) (payloads st) (dtor_calls st) (brk st + 16 * (want / 16 + 1))).
  set (p' := set_slots (live_slots p) (set_mem (brk st) (set_mem_size want p))).
  pose proof (Z.mul_succ_div_gt want 16 ltac:(lia)) as Hbrk.
  assert (Hf : ∀ a, foreign st p a → foreign st' p' a) by (intros a (?&?&?); unfold foreign; simpl; lia).
  assert (Hnf : ∀ a, foreign st p a → gc_copyable p' a = false).
  { intros a (?&?&?). unfold gc_copyable. apply orb_false_iff. split; [|apply P].
    unfold in_fromspace. simpl. rewrite Hh0. apply andb_false_iff. left. apply Z.leb_gt. lia. }
  assert (Hslot : ∀ i, 0 ≤ i < - sp p → slots p' !! i = slots p !! i).
  { intros i Hi. simpl. unfold live_slots. destruct (slots p !! i) as [v|] eqn:Hv.
    - apply map_lookup_filter_Some. done.
    - apply map_lookup_filter_None. by left. }
  split; [|split; [done|split; [done|split; [done|split; [simpl; lia|split; [done|]]]]]].
  2:{ intros a Ha. split; [by apply Hf|done]. }
  split.
  - split; try done; try (by intros ? ? ?%elem_of_nil); try (by intros ? ? ? ?%elem_of_nil).
    + split; simpl; try lia; apply B.
    + intros i Hi. destruct (a_stack _ _ _ _ _ A i Hi) as (v&Hv&Hav). exists v. rewrite Hslot by done.
      split; [done|]. destruct Hav as [Hv1 Hv2]. split; [done|]. intros Hr.
      destruct (Hv2 Hr) as [(o&?%elem_of_nil&_)|[Hff _]]; [done|]. right. auto.
    + simpl. lia.
    + split; [constructor|]. by intros ? ? ?%elem_of_nil.
    + intros a Ha. change (promoted p a = true) in Ha. by rewrite P in Ha.
  - intros a Ha. destruct (C a Ha) as [HH1 HH2]. auto.
  - exact P.
  - intros i Hi. destruct (S i Hi) as (v&Hv&Hr). exists v. rewrite Hslot by done. split; [done|].
    eapply repr_mono; [|exact Hr]. intros a Ha. split; [|done].
    destruct Ha as [Ha|Ha]; [|by right]. by apply elem_of_nil in Ha.
Qed.

Lemma fits_floor p : fits p → heap_ptr p ≤ mem_size p + stack_floor p * 8 ∧ heap_ptr p ≤ mem_size p + sp p * 8.
Proof. unfold fits. pose proof (proc_stack_lo_le p). lia. Qed.

Lemma actor_size cap K st p objs T : actor_ok cap K st p objs T → 0 < mem p ∧ 0 < mem_size p ≤ cap ∧ cap ≤ 2 ^ 30.
Proof. intros A. destruct (a_blocks _ _ _ _ _ (ac_arena _ _ _ _ _ _ A)) as [? [? _] ? _ _]. done. Qed.

(** Lowering the recorded floor does not touch the arena. *)
Lemma floor_actor cap K st p objs T f :
  f ≤ 0 → actor_ok cap K st p objs T → actor_ok cap K st (set_stack_floor f p) objs T.
Proof.
  intros Hf [A C P S]. split; try done. destruct (a_blocks _ _ _ _ _ A).
  split; try (by apply A); [by split|]. simpl. split; [apply A|done].
Qed.

(** A collection that cannot fit the cap reports it. *)
Lemma collect_too_big cap K st p objs T extra :
  actor_ok cap K st p objs T → cap < gc_need p extra < 2 ^ 31 → gc_collect cap st p extra = Ret (false, st, p).
Proof.
  intros A Hn. destruct (actor_size _ _ _ _ _ _ A) as (Hm&Hs&Hc). unfold gc_collect, gc_collect_internal.
  destruct (Z.eqb_spec (mem p) 0); [lia|].
  destruct (gc_want_spec cap p extra Hs ltac:(lia)) as [Hw Hwn].
  replace (in_i32 (gc_need p extra)) with true
    by (symmetry; apply andb_true_intro; split; [apply Z.leb_le|apply Z.ltb_lt]; lia). cbn [negb].
  destruct (Z.ltb_spec (gc_want cap p extra) (gc_need p extra)); [done|lia].
Qed.

Lemma grow_true cap st p need st' p' :
  proc_arena_grow cap st p need = (true, st', p') → sp p' = sp p ∧ slots p' = live_slots p.
Proof. intros E. unfold proc_arena_grow in E. repeat case_match; simplify_eq; done. Qed.

(** * Properties *)
Section Properties.
Context (cap stress : Z) (K : Z → Prop) (T : Z → tree).
Context (st : store) (p : ProcMem) (objs : list obj).

(** An allocation on the heap either finds room or stops the VM.  When
    it returns, every tree of the stack is what it was (whether or not
    collections ran), the object lies above the heap top and, with two slots
    to spare, below the deepest reserved frame.  It stops only when the gate
    is closed and the room is missing, or when heap, object, headroom and
    stack exceed the cap; with the gate closed nothing moves. *)
Lemma proc_heap_alloc_spec size :
  actor_ok cap K st p objs T → fits p → ccall p = None → 0 ≤ size ≤ 2 ^ 28 →
  brk st + 2 * cap + 16 < ADDR_LIMIT →
  let n := ta_heap_object_size size in
  (proc_heap_alloc cap stress st p size = Abort FATAL_ALLOC ∧
     (gc_gate p ≠ 0 ∨ cap < heap_ptr p + n + TA_STACK_HEADROOM + - proc_stack_lo p * 8)) ∨
  ∃ st1 p1 objs1, actor_ok cap K st1 p1 objs1 T ∧ same_control p p1 ∧
    heap_ptr p1 + n + TA_HEAP_FIT_SLACK ≤ mem_size p1 + proc_stack_lo p1 * 8 ∧
    (gc_gate p ≠ 0 → st1 = st ∧ same_arena p p1) ∧ outside_kept st p st1 p1 ∧
    proc_heap_alloc cap stress st p size =
      Ret (mem p1 + heap_ptr p1, zero_cell st1 (mem p1 + heap_ptr p1), set_heap_ptr (heap_ptr p1 + n) p1).
Proof.
  intros A F E Hs Hr n. unfold proc_heap_alloc. rewrite E. fold n.
  pose proof (ta_heap_object_size_spec size) as (_&_&_&Hn). apply heap_alloc_spec with (objs := objs); try done.
  fold n in Hn. pose proof (ta_heap_object_size_spec size). fold n in H. lia.
Qed.

(** Reserving a frame that is within the deepest frame already reserved
    changes nothing, which is what lets CALL skip the reservation when the
    new frame's bottom is not below the floor. *)
Lemma proc_stack_reserve_within lo :
  mem p ≠ 0 → fits p → stack_floor p ≤ lo → proc_stack_reserve cap st p lo = Ret (st, p).
Proof.
  intros Hm F Hlo. apply fits_floor in F. unfold proc_stack_reserve, proc_ensure_heap.
  destruct (Z.eqb_spec (mem p) 0); [done|]. cbn [mbind outcome_bind].
  destruct (Z.ltb_spec lo (stack_floor p)); [lia|].
  destruct (Z.ltb_spec (mem_size p + lo * 8) (heap_ptr p)); [lia|done].
Qed.

(** Reserving a frame makes it fit.  On return the floor is the lower of
    the old one and the new frame's bottom, the heap is clear of it, and the
    trees of the stack are unchanged; it stops the VM only when the heap, the
    stack and the frame exceed the cap. *)
Lemma proc_stack_reserve_spec lo :
  actor_ok cap K st p objs T → fits p → - 2 ^ 25 ≤ lo ≤ 0 → - 2 ^ 25 ≤ stack_floor p →
  brk st + cap < ADDR_LIMIT →
  (proc_stack_reserve cap st p lo = Abort FATAL_STACK ∧
     cap < heap_ptr p + (1 - lo) * 8 + - Z.min lo (proc_stack_lo p) * 8) ∨
  ∃ st' p' objs', proc_stack_reserve cap st p lo = Ret (st', p') ∧ actor_ok cap K st' p' objs' T ∧
    fits p' ∧ same_control (set_stack_floor (Z.min lo (stack_floor p)) p) p' ∧ outside_kept st p st' p'.
Proof.
  intros A F Hlo Hfl Hr. destruct (actor_size _ _ _ _ _ _ A) as (Hm&Hs&Hc).
  unfold proc_stack_reserve, proc_ensure_heap.
  destruct (Z.eqb_spec (mem p) 0); [lia|]. cbn [mbind outcome_bind].
  set (q := if lo <? stack_floor p then set_stack_floor lo p else p).
  assert (Aq : actor_ok cap K st q objs T).
  { unfold q. case_match; [|done]. apply floor_actor; [lia|done]. }
  assert (Eq : stack_floor q = Z.min lo (stack_floor p) ∧ sp q = sp p ∧ mem_size q = mem_size p ∧ heap_ptr q = heap_ptr p).
  { unfold q. destruct (Z.ltb_spec lo (stack_floor p)); simpl; repeat split; lia. }
  destruct Eq as (Eqf&Eqs&Eqm&Eqh).
  assert (Elo : proc_stack_lo q = Z.min lo (proc_stack_lo p)).
  { unfold proc_stack_lo. rewrite Eqf, Eqs. repeat case_match; lia. }
  assert (Cq : ∀ p', same_control q p' → same_control (set_stack_floor (Z.min lo (stack_floor p)) p) p').
  { intros p' (E1&E2&E3&E4&E5). unfold same_control. rewrite E1, E2, E3, E4, E5, Eqf, Eqs.
    unfold q. by destruct (lo <? stack_floor p). }
  assert (Fq : ∀ a, foreign st p a → foreign st q a) by (intros a Ha; unfold q; by destruct (lo <? stack_floor p)).
  rewrite Eqm, Eqh. destruct (Z.ltb_spec (mem_size p + lo * 8) (heap_ptr p)) as [Hlt|Hge].
  2:{ right. exists st, q, objs. split; [done|]. split; [done|].
      split; [unfold fits in *; rewrite Elo, Eqm, Eqh; lia|]. split; [by apply Cq|]. intros a Ha. auto. }
  destruct (proc_arena_grow cap st q ((1 - lo) * 8)) as [[[] st1] p1] eqn:Eg.
  - destruct (grow_spec cap K T st q objs ((1 - lo) * 8) st1 p1 Aq ltac:(lia) Eg) as (A1&C1&H0&Hn1&Hms1&_&O1).
    cbn [mbind outcome_bind negb]. destruct (Z.ltb_spec (mem_size p1 + lo * 8) (heap_ptr p1)); [lia|].
    right. exists st1, p1, []. split; [done|]. split; [done|].
    pose proof (same_control_lo _ _ C1) as Hl.
    split; [|split; [by apply Cq|intros a Ha; apply O1; auto]]. unfold fits in *. rewrite Hl, Elo.
    pose proof (heap_in_block _ _ _ _ _ (ac_arena _ _ _ _ _ _ A)). lia.
  - assert (st1 = st ∧ p1 = q) as [-> ->].
    { unfold proc_arena_grow in Eg. repeat case_match; by simplify_eq. }
    destruct (decide (gc_need q ((1 - lo) * 8) ≤ cap)) as [Hn|Hn].
    + destruct (collect_actor cap K st q objs T ((1 - lo) * 8)) as (st2&p2&objs2&->&A2&C2&_&G2&_&_&O2);
        [done|lia|done|done|]. cbn [mbind outcome_bind negb]. right. exists st2, p2, objs2.
      pose proof (same_control_lo _ _ C2) as Hl. pose proof (proc_stack_lo_le p) as Hll.
      pose proof (a_sp _ _ _ _ _ (ac_arena _ _ _ _ _ _ A)).
      destruct (Z.ltb_spec (mem_size p2 + lo * 8) (heap_ptr p2)); [lia|].
      split; [done|]. split; [done|].
      split; [unfold fits; lia|]. split; [by apply Cq|]. intros a Ha. apply O2. auto.
    + rewrite (collect_too_big cap K st q objs T).
      * cbn [mbind outcome_bind negb]. left. split; [done|]. unfold gc_need in Hn. rewrite Elo, Eqh in Hn. lia.
      * done.
      * unfold gc_need in *. rewrite Elo, Eqh in *. unfold fits in F.
        pose proof (heap_in_block _ _ _ _ _ (ac_arena _ _ _ _ _ _ A)). lia.
Qed.

(** A push into a reserved frame never fails and never moves anything. *)
Lemma proc_push_reserved v :
  mem p ≠ 0 → 0 ≤ heap_ptr p → fits p → sp p ≤ 0 → stack_floor p ≤ sp p - 1 →
  proc_push cap st p v = Ret (st, set_slots (<[- sp p := v]> (slots p)) (set_sp (sp p - 1) p)).
Proof.
  intros Hm Hh F Hsp Hfl. apply fits_floor in F. unfold proc_push, proc_ensure_heap.
  destruct (Z.eqb_spec (mem p) 0); [done|]. cbn [mbind outcome_bind].
  destruct (Z.ltb_spec (mem_size p + (sp p - 1) * 8) (heap_ptr p)); [lia|]. cbn [mbind outcome_bind].
  unfold write_slot, slot_in_block. simpl. replace (- (sp p - 1) - 1) with (- sp p) by lia.
  replace ((0 <=? - sp p) && (0 <=? mem_size p - 8 * (- sp p + 1))) with true; [done|].
  symmetry. apply andb_true_intro. split; apply Z.leb_le; lia.
Qed.

(** A pop returns what was pushed and restores the depth, whatever the
    push had to do to find room; the slots below are untouched. *)
Theorem proc_push_pop v st' p' :
  sp p ≤ 0 → proc_push cap st p v = Ret (st', p') →
  ∃ q, proc_pop p' = Ret (v, q) ∧ sp q = sp p ∧ ∀ i, 0 ≤ i < - sp p → slots q !! i = slots p !! i.
Proof.
  intros Hsp E. unfold proc_push in E.
  apply bind_Ret in E as ([st1 p1]&E1&E). apply bind_Ret in E as ([st2 p2]&E2&E).
  apply bind_Ret in E as (p3&E3&E).
  assert (sp p1 = sp p ∧ slots p1 = slots p) as [Es1 El1].
  { unfold proc_ensure_heap in E1. repeat case_match; simplify_eq; done. }
  assert (sp p2 = sp p ∧ ∀ i, 0 ≤ i < - sp p → slots p2 !! i = slots p !! i) as [Es2 El2].
  { destruct (mem_size p1 + (sp p1 - 1) * 8 <? heap_ptr p1); [|injection E2 as <- <-; by rewrite El1].
    destruct (proc_arena_grow cap st1 p1 ((1 - sp p1) * 8)) as [[[] st4] p4] eqn:Eg; simpl in E2; [|done].
    case_match; [done|]. injection E2 as <- <-. apply grow_true in Eg as [-> ->].
    split; [done|]. intros i Hi. unfold live_slots. rewrite Es1, El1. destruct (slots p !! i) eqn:Hv.
    - by apply map_lookup_filter_Some.
    - apply map_lookup_filter_None. by left. }
  unfold write_slot in E3. case_match; [|done]. injection E3 as <-. injection E as <- <-.
  unfold proc_pop, read_slot. simpl. rewrite lookup_insert_eq. simpl.
  eexists. split; [done|]. simpl. split; [lia|]. intros i Hi. rewrite lookup_insert_ne by lia. by apply El2.
Qed.

(** After a reservation for an incoming copy, [bytes] bytes and the slack are
    free below the deepest frame, and the trees of the stack are unchanged; it
    stops the VM only when they exceed the cap. *)
Lemma reserve_heap_spec bytes :
  actor_ok cap K st p objs T → fits p → 0 ≤ bytes ≤ 2 ^ 28 → brk st + cap < ADDR_LIMIT →
  ((∃ why, proc_reserve_heap cap st p bytes = Abort why) ∧
     cap < heap_ptr p + bytes + TA_STACK_HEADROOM + - proc_stack_lo p * 8) ∨
  ∃ st' p' objs', proc_reserve_heap cap st p bytes = Ret (st', p') ∧ actor_ok cap K st' p' objs' T ∧
    same_control p p' ∧ outside_kept st p st' p' ∧
    heap_ptr p' + bytes + TA_HEAP_FIT_SLACK ≤ mem_size p' + proc_stack_lo p' * 8.
Proof.
  intros A F Hb Hr. destruct (actor_size _ _ _ _ _ _ A) as (Hm&Hs&Hc). pose proof (ac_arena _ _ _ _ _ _ A) as A0.
  pose proof (heap_in_block _ _ _ _ _ A0) as Hh. pose proof (a_sp _ _ _ _ _ A0). pose proof (proc_stack_lo_le p).
  unfold proc_reserve_heap, TA_HEAP_FIT_SLACK, TA_STACK_HEADROOM.
  destruct (Z.leb_spec (bytes + 16) (mem_size p - heap_ptr p + proc_stack_lo p * 8)) as [Hle|Hgt].
  { right. exists st, p, objs. split; [done|]. split; [done|]. split; [by apply same_arena_control, same_arena_refl|].
    split; [by intros a Ha|lia]. }
  unfold fits in F. unfold proc_heap_empty. destruct (Z.eqb_spec (heap_ptr p) 0) as [Hz|Hz].
  - destruct (proc_arena_grow cap st p (heap_ptr p + - proc_stack_lo p * 8 + bytes + 256)) as [[[] st1] p1] eqn:Eg.
    + destruct (grow_spec cap K T st p objs (heap_ptr p + - proc_stack_lo p * 8 + bytes + 256) st1 p1 A ltac:(lia) Eg)
        as (A1&C1&H01&Hn1&_&_&Hk). right. exists st1, p1, []. split; [done|]. split; [done|]. split; [done|].
      split; [done|].
      rewrite (same_control_lo _ _ C1). lia.
    + left. split; [by eexists|]. destruct (Z_lt_le_dec cap (heap_ptr p + bytes + 256 + - proc_stack_lo p * 8)); [done|].
      exfalso. unfold proc_arena_grow in Eg. rewrite Hz in *. destruct (Z.eqb_spec (mem p) 0); [lia|].
      rewrite Z.ltb_irrefl in Eg. cbn [orb] in Eg. rewrite Z.add_0_l in Eg.
      set (need := - proc_stack_lo p * 8 + bytes + 256) in *.
      pose proof (double_want_bound DOUBLINGS (mem_size p) need cap ltac:(lia)).
      pose proof (double_want_done (mem_size p) need cap ltac:(lia) ltac:(unfold need; lia)).
      set (dw := double_want DOUBLINGS (mem_size p) need cap) in *.
      set (want := if cap <? dw then cap else dw) in *.
      assert (need ≤ want ∧ mem_size p < want ∧ want ≤ cap) as (?&?&?)
        by (unfold want, need in *; destruct (Z.ltb_spec cap dw); lia).
      destruct (Z.ltb_spec want need); [lia|]. destruct (Z.leb_spec want (mem_size p)); [lia|].
      unfold malloc in Eg. destruct (Z.ltb_spec (brk st + want) ADDR_LIMIT); [done|lia].
  - destruct (decide (gc_need p (bytes + 256) ≤ cap)) as [Hn|Hn].
    + destruct (collect_actor cap K st p objs T (bytes + 256)) as (st2&p2&objs2&->&A2&C2&_&G2&_&_&Hk);
        [done|lia|done|done|]. right. exists st2, p2, objs2. split; [done|]. split; [done|]. split; [done|].
      split; [done|]. lia.
    + rewrite (collect_too_big cap K st p objs T) by (done || (unfold gc_need in *; lia)).
      left. split; [by eexists|]. unfold gc_need in Hn. lia.
Qed.
End Properties.

(** ** Concrete instances *)
Definition w_tree (_ : Z) : tree := TPair (Imm (val_int 1)) (Imm val_nil).

Lemma w_actor_ok : actor_ok 4096 (λ _, False) w_store w_proc w_objs w_tree.
Proof.
  split; [apply w_arena_ok|done|done|].
  intros i Hi. assert (i = 0) as -> by (unfold w_proc in Hi; simpl in Hi; lia).
  exists (lbox TAG_PAIR 4096). split; [reflexivity|]. exists (val_int 1), val_nil. split; [|split].
  - split; [split; vm_compute; congruence|]. split; [reflexivity|]. split; [|reflexivity]. left. left.
  - split; [done|]. split; [split; vm_compute; congruence|reflexivity].
  - split; [done|]. split; [split; vm_compute; congruence|reflexivity].
Qed.

Lemma proc_push_pop_witness :
  ∃ q, proc_pop (set_slots (<[1 := val_nil]> (slots w_proc)) (set_sp (-2) w_proc)) = Ret (val_nil, q) ∧
    sp q = sp w_proc ∧ ∀ i, 0 ≤ i < - sp w_proc → slots q !! i = slots w_proc !! i.
Proof. apply (proc_push_pop 4096 w_store w_proc val_nil w_store); [vm_compute; congruence|reflexivity]. Defined.
