(* ===== verification/Copy.v ===== *)
(** Copying value trees between actors: [val_calc_heap_size] and
    [val_deep_copy] of src/val.c, [frag_calc_size] and [frag_copy] of
    src/scheduler.c.

    All four walk a tree with an explicit work stack.  The loops take fuel; the
    specifications give the exact number of rounds a tree needs. *)
From stdpp Require Import base tactics list gmap strings.
From Stdlib Require Import ZArith Lia.
From S2P Require Import Prelude Values Heap Resource Gc GcCorrect GcSpec Tree Alloc.
Open Scope Z_scope.

(** Read the object a value points to, at the type its tag announces. *)
Definition read_obj (st : store) (v : Val) : outcome obj :=
  match cells st !! lpayload v with
  | Some (Live o) => if obj_tag o =? val_tag v then Ret o else Undef
  | _ => Undef
  end.

(** * Sizes *)

(** The shared work loop: pop a value, add the size of its object, push its
    fields so that the first one is on top. *)
Fixpoint size_loop (g : Z → Z) (fuel : nat) (st : store) (tasks : list Val) (total : Z) (has_res : bool)
    : outcome (Z * bool) :=
  match tasks with
  | [] => Ret (total, has_res)
  | v :: rest =>
      match fuel with
      | O => NoFuel
      | S n =>
          if is_heap_tag (val_tag v) then
            o ← read_obj st v;
            size_loop g n st (obj_children o ++ rest) (total + g (raw_size o)) (has_res || (val_tag v =? TAG_RESOURCE))
          else size_loop g n st rest total has_res
      end
  end.

(** [val_calc_heap_size]: bytes a deep copy allocates. *)
Definition val_calc_heap_size (fuel : nat) (st : store) (root : Val) : outcome Z :=
  '(total, _) ← size_loop ta_heap_object_size fuel st [root] 0 false;
  Ret total.

(** [frag_calc_size]: bytes of a message fragment, and whether a resource
    occurs in it. *)
Definition FRAG_ALIGN8 (n : Z) : Z := align8 n.
Definition frag_calc_size (fuel : nat) (st : store) (root : Val) : outcome (Z * bool) :=
  size_loop FRAG_ALIGN8 fuel st [root] 0 false.

(** * Deep copy *)
Inductive CopyTask :=
| COPY_VALUE (v : Val)
| COPY_PAIR (v : Val)
| COPY_CLOSURE (v : Val).

Record copy_state := mk_copy {
  cs_tasks : list CopyTask (** top of the task stack first *);
  cs_results : list Val (** top of the result stack first *);
  cs_seen : list Z (** headers copied so far when resources are checked *);
  cs_store : store;
  cs_proc : ProcMem
}.

(** The tags copied as they are. *)
Definition copy_immediate (v : Val) : bool :=
  let tag := val_tag v in
  val_is_float v || (tag =? TAG_INT) || (tag =? TAG_NIL) || (tag =? TAG_TRUE) || (tag =? TAG_FALSE) ||
  (tag =? TAG_PID) || (tag =? TAG_SYM) || (tag =? TAG_CLOS_ID) || (tag =? TAG_NATIVE).

(** A resource may not be copied to another actor: it is not the current
    actor's, or its payload is already in this copy. *)
Fixpoint seen_payload (st : store) (seen : list Z) (res : Z) : outcome bool :=
  match seen with
  | [] => Ret false
  | a :: seen =>
      '(_, r) ← read_resource st a;
      if negb (res =? 0) && (r =? res) then Ret true else seen_payload st seen res
  end.
Definition copy_bad (st : store) (cur : Z) (seen : list Z) (owner res : Z) : outcome bool :=
  if negb (owner =? cur) then Ret true else seen_payload st seen res.

Definition FATAL_COPY : string := "val_deep_copy: unknown tag".

(** One round.  [check] is [Some] of the current pid when [res_err] is given
    (spawn).  [None] in the result means the copy is given up. *)
Definition deep_copy_step (cap stress : Z) (check : option Z) (task : CopyTask) (s : copy_state)
    : outcome (option copy_state) :=
  let st := cs_store s in
  let p := cs_proc s in
  let push v st p := Ret (Some (mk_copy (cs_tasks s) (v :: cs_results s) (cs_seen s) st p)) in
  match task with
  | COPY_PAIR _ =>
      match cs_results s with
      | cdr :: car :: results =>
          '(v, st, p) ← val_pair cap stress st p car cdr;
          Ret (Some (mk_copy (cs_tasks s) (v :: results) (cs_seen s) st p))
      | _ => Undef
      end
  | COPY_CLOSURE v =>
      match cells st !! lpayload v with
      | Some (Live (HeapClosure entry fs)) =>
          let n := length fs in
          if (length (cs_results s) <? n)%nat then Undef
          else
            '(v, st, p) ← alloc_obj cap stress st p (HeapClosure entry (rev (take n (cs_results s))));
            Ret (Some (mk_copy (cs_tasks s) (v :: drop n (cs_results s)) (cs_seen s) st p))
      | _ => Undef
      end
  | COPY_VALUE v =>
      let tag := val_tag v in
      if copy_immediate v then push v st p
      else if negb (is_heap_tag tag) then Abort FATAL_COPY
      else
        o ← read_obj st v;
        match o with
        | HeapPair car cdr =>
            Ret (Some (mk_copy (COPY_VALUE car :: COPY_VALUE cdr :: COPY_PAIR v :: cs_tasks s)
                               (cs_results s) (cs_seen s) st p))
        | HeapString d => '(v, st, p) ← val_string cap stress st p d; push v st p
        | HeapBytes d => '(v, st, p) ← val_bytes cap stress st p d; push v st p
        | HeapClosure _ fs =>
            Ret (Some (mk_copy ((COPY_VALUE <$> fs) ++ COPY_CLOSURE v :: cs_tasks s)
                               (cs_results s) (cs_seen s) st p))
        | HeapResource owner res =>
            bad ← match check with Some cur => copy_bad st cur (cs_seen s) owner res | None => Ret false end;
            if (bad : bool) then Ret None
            else
              '(v, st, p) ← alloc_obj cap stress st p (HeapResource owner res);
              Ret (Some (mk_copy (cs_tasks s) (v :: cs_results s)
                                 (match check with Some _ => cs_seen s ++ [lpayload v] | None => cs_seen s end) st p))
        end
  end.

Fixpoint deep_copy_loop (cap stress : Z) (check : option Z) (fuel : nat) (s : copy_state)
    : outcome (option copy_state * copy_state) :=
  match cs_tasks s with
  | [] => Ret (Some s, s)
  | task :: tasks =>
      match fuel with
      | O => NoFuel
      | S n =>
          let s := mk_copy tasks (cs_results s) (cs_seen s) (cs_store s) (cs_proc s) in
          r ← deep_copy_step cap stress check task s;
          match r with
          | None => Ret (None, s)
          | Some s => deep_copy_loop cap stress check n s
          end
      end
  end.

(** [val_deep_copy]: [inr tt] is [*res_err = 1]; the half-built headers keep
    their old owner.  On success with [res_err] given, the new headers are handed
    to the target. *)
Definition val_deep_copy (cap stress : Z) (check : option Z) (fuel : nat) (st : store) (p : ProcMem) (root : Val)
    : outcome ((Val + unit) * store * ProcMem) :=
  '(r, s) ← deep_copy_loop cap stress check fuel (mk_copy [COPY_VALUE root] [] [] st (proc_gc_enter p));
  match r with
  | Some s =>
      v ← or_undef (last (cs_results s));
      st ← match check with
           | Some _ => foldM (set_owner (pid p)) (cs_store s) (cs_seen s)
           | None => Ret (cs_store s)
           end;
      p ← proc_gc_leave (cs_proc s);
      Ret (inl v, st, p)
  | None =>
      p ← proc_gc_leave (cs_proc s);
      Ret (inr tt, cs_store s, p)
  end.

(** * Sizes are exact *)
Lemma repr_read F st v o : points_to F st v o → read_obj st v = Ret o ∧ is_heap_tag (val_tag v) = true.
Proof.
  intros (_&Ht&_&Hc). unfold read_obj. rewrite Hc, Ht, Z.eqb_refl. split; [done|]. by destruct o.
Qed.

(** What one value does to the loop, and a row of them. *)
Definition size_step (g : Z → Z) (F : Z → Prop) (st : store) (t : tree) : Prop :=
  ∀ v tasks total hr n, repr F st v t →
    size_loop g (nodes t + n) st (v :: tasks) total hr =
    size_loop g n st tasks (total + bytes_by g t) (hr || has_resource t).

Lemma size_loop_list g F st ts : Forall (size_step g F st) ts → ∀ fs tasks total hr n,
  reprs F st fs ts →
  size_loop g (list_sum (nodes <$> ts) + n) st (fs ++ tasks) total hr =
  size_loop g n st tasks (total + sumZ (bytes_by g <$> ts)) (hr || existsb has_resource ts).
Proof.
  induction 1 as [|t ts Ht _ IH]; intros fs tasks total hr n Hf; inversion Hf as [|f ? fs' ? Hft Hfs]; subst.
  - simpl. unfold sumZ; simpl. by rewrite Z.add_0_r, orb_false_r.
  - rewrite !fmap_cons. cbn [app list_sum foldr existsb]. rewrite <- Nat.add_assoc, Ht, IH by done.
    unfold sumZ; cbn [foldr]. by rewrite orb_assoc, Z.add_assoc.
Qed.

Lemma size_loop_tree g F st t : size_step g F st t.
Proof.
  unfold size_step.
  induction t as [w|ta tb IHa IHb|e ts IH|d|d|w r] using tree_ind'; intros v tasks total hr n Hr.
  - destruct Hr as (_&_&Hn). cbn [nodes Nat.add size_loop]. rewrite Hn. simpl. by rewrite Z.add_0_r, orb_false_r.
  - destruct Hr as (a&b&Hp&Ha&Hb). destruct (repr_read _ _ _ _ Hp) as [Hrd Hh].
    cbn [nodes Nat.add size_loop]. rewrite Hh, Hrd. cbn [mbind outcome_bind obj_children app].
    assert ((val_tag v =? TAG_RESOURCE) = false) as -> by (destruct Hp as (_&->&_); done).
    rewrite <- Nat.add_assoc, IHa, IHb by done. cbn [bytes_by has_resource].
    f_equal; [|by rewrite orb_false_r, orb_assoc]. unfold raw_size. lia.
  - apply repr_clos in Hr as (fs&Hp&Hf). destruct (repr_read _ _ _ _ Hp) as [Hrd Hh].
    cbn [nodes Nat.add size_loop]. rewrite Hh, Hrd. cbn [mbind outcome_bind obj_children].
    assert ((val_tag v =? TAG_RESOURCE) = false) as -> by (destruct Hp as (_&->&_); done).
    assert (length fs = length ts) as Hl by (by eapply Forall2_length).
    cbn [bytes_by has_resource raw_size]. rewrite Hl, orb_false_r. clear Hp Hrd Hh Hl.
    rewrite (size_loop_list g F st ts IH) by done. f_equal. lia.
  - destruct (repr_read _ _ _ _ Hr) as [Hrd Hh]. cbn [nodes Nat.add size_loop]. rewrite Hh, Hrd.
    destruct Hr as (_&->&_). cbn. by rewrite !orb_false_r.
  - destruct (repr_read _ _ _ _ Hr) as [Hrd Hh]. cbn [nodes Nat.add size_loop]. rewrite Hh, Hrd.
    destruct Hr as (_&->&_). cbn. by rewrite !orb_false_r.
  - destruct (repr_read _ _ _ _ Hr) as [Hrd Hh]. cbn [nodes Nat.add size_loop]. rewrite Hh, Hrd.
    destruct Hr as (_&->&_). cbn. by rewrite !orb_true_r.
Qed.

(** * Deep copies denote the same tree *)

Lemma repr_arena_val cap K st p objs T v t :
  actor_ok cap K st p objs T → repr (arena_addr K p objs) st v t →
  arena_val st p (layout (mem p) objs ++ []) v.
Proof.
  intros A Hr.
  assert (Hp : ∀ o, points_to (arena_addr K p objs) st v o → arena_val st p (layout (mem p) objs ++ []) v).
  { intros o (Hv&Ht&Ha&Hc). split; [done|]. intros _. rewrite app_nil_r. destruct Ha as [Ha|Ha].
    - left. apply list_elem_of_fmap in Ha as ([a o']&E&Hin). simpl in E. exists o. split; [|done].
      assert (o' = o) as ->; [|by rewrite E].
      pose proof (a_cells _ _ _ _ _ (ac_arena _ _ _ _ _ _ A) a o') as Hc'. rewrite app_nil_r in Hc'.
      specialize (Hc' Hin). rewrite E in Hc. congruence.
    - right. destruct (ac_consts _ _ _ _ _ _ A _ Ha) as [Hf _]. split; [done|].
      eapply foreign_not_copyable; [apply A|apply A|done]. }
  destruct t as [w|ta tb|e ts|d|d|w r].
  - destruct Hr as (->&Hw&Hn). split; [done|]. intros Hh. unfold heap_ref in Hh. congruence.
  - destruct Hr as (?&?&H&_). eauto.
  - apply repr_clos in Hr as (?&H&_). eauto.
  - eauto.
  - eauto.
  - eauto.
Qed.

(** The resources of [t] the target will own are allocated and not its own
    yet, each once. *)
Definition fresh_res (st : store) (p : ProcMem) (objs : list obj) (rs : list Z) : Prop :=
  NoDup rs ∧ ∀ r, r ∈ rs → is_Some (payloads st !! r) ∧ r ∉ (garbage st (pid p) (layout (mem p) objs)).*2.

Lemma fresh_res_app st p objs r1 r2 :
  fresh_res st p objs (r1 ++ r2) ↔
  fresh_res st p objs r1 ∧ fresh_res st p objs r2 ∧ ∀ r, r ∈ r1 → r ∉ r2.
Proof.
  unfold fresh_res. rewrite NoDup_app. setoid_rewrite elem_of_app. firstorder.
Qed.

Section DeepCopy.
Context (cap stress : Z) (K : Z → Prop) (T : Z → tree) (F : Z → Prop) (check : option Z).

(** The target: its gate is closed, and the source objects are not in the
    part of its block the copy will use. *)
Record target_ok (st : store) (p : ProcMem) (objs : list obj) : Prop := {
  t_actor : actor_ok cap K st p objs T;
  t_closed : closed_heap p;
  t_sep : ∀ a, F a → a < mem p + heap_ptr p ∨ mem p + mem_size p ≤ a
}.

Definition room (p : ProcMem) (n : Z) : Prop :=
  heap_ptr p + n + TA_HEAP_FIT_SLACK ≤ mem_size p + proc_stack_lo p * 8.

(** The heap has grown by [n] bytes that hold the resources [rs]. *)
Record extended (n : Z) (rs : list Z) (st : store) (p : ProcMem) (objs : list obj)
    (st' : store) (p' : ProcMem) (objs' : list obj) : Prop := {
  e_ok : target_ok st' p' objs';
  e_same : same_arena (set_heap_ptr (heap_ptr p + n) p) p';
  e_frame : ∀ a, a < mem p + heap_ptr p ∨ mem p + mem_size p ≤ a → cells st' !! a = cells st !! a;
  e_mono : ∀ v t, repr (arena_addr K p objs) st v t → repr (arena_addr K p' objs') st' v t;
  e_pay : payloads st' = payloads st;
  e_res : ∀ r, r ∈ (garbage st' (pid p) (layout (mem p) objs')).*2 ↔
               r ∈ (garbage st (pid p) (layout (mem p) objs)).*2 ∨ r ∈ rs
}.

Lemma extended_refl st p objs : target_ok st p objs → extended 0 [] st p objs st p objs.
Proof.
  intros Ht. split; try done.
  - rewrite Z.add_0_r. by repeat split.
  - intros r. split; [by left|]. intros [?|?%elem_of_nil]; done.
Qed.

Lemma extended_fields n rs st p objs st' p' objs' :
  extended n rs st p objs st' p' objs' →
  pid p' = pid p ∧ mem p' = mem p ∧ mem_size p' = mem_size p ∧ heap_ptr p' = heap_ptr p + n ∧
  proc_stack_lo p' = proc_stack_lo p.
Proof.
  intros E. destruct (e_same _ _ _ _ _ _ _ _ E) as (E1&E2&E3&E4&E5&E6&_). simpl in *.
  repeat split; try done. unfold proc_stack_lo. by rewrite E5, E6.
Qed.

Lemma extended_trans n1 rs1 n2 rs2 st p objs st1 p1 objs1 st2 p2 objs2 :
  0 ≤ n1 → extended n1 rs1 st p objs st1 p1 objs1 → extended n2 rs2 st1 p1 objs1 st2 p2 objs2 →
  extended (n1 + n2) (rs1 ++ rs2) st p objs st2 p2 objs2.
Proof.
  intros Hn E1 E2. destruct (extended_fields _ _ _ _ _ _ _ _ E1) as (F1&F2&F3&F4&_). split.
  - apply E2.
  - pose proof (e_same _ _ _ _ _ _ _ _ E1) as S1. pose proof (e_same _ _ _ _ _ _ _ _ E2) as S2.
    unfold same_arena in *. simpl in *. intuition (congruence || lia).
  - intros a Ha. rewrite (e_frame _ _ _ _ _ _ _ _ E2), (e_frame _ _ _ _ _ _ _ _ E1); [done|done|].
    rewrite F2, F3, F4. lia.
  - intros v t Hr. by apply (e_mono _ _ _ _ _ _ _ _ E2), (e_mono _ _ _ _ _ _ _ _ E1).
  - rewrite (e_pay _ _ _ _ _ _ _ _ E2). apply E1.
  - intros r. pose proof (e_res _ _ _ _ _ _ _ _ E2 r) as R2. rewrite F1, F2 in R2.
    rewrite R2, (e_res _ _ _ _ _ _ _ _ E1), elem_of_app. tauto.
Qed.

Lemma room_le p n m : n ≤ m → room p m → room p n.
Proof. unfold room. lia. Qed.

Lemma extended_room n rs st p objs st' p' objs' m :
  extended n rs st p objs st' p' objs' → room p (n + m) → room p' m.
Proof.
  intros E. destruct (extended_fields _ _ _ _ _ _ _ _ E) as (F1&F2&F3&F4&F5). unfold room.
  rewrite F3, F4, F5. lia.
Qed.

(** One allocation. *)
Definition obj_res (pid : Z) (o : obj) : list Z :=
  match o with HeapResource w r => if (w =? pid) && negb (r =? 0) then [r] else [] | _ => [] end.

Lemma elem_of_obj_res pid o r : r ∈ obj_res pid o ↔ o = HeapResource pid r ∧ r ≠ 0.
Proof.
  destruct o as [| | | |w r']; simpl; try (split; [by intros ?%elem_of_nil|by intros [? _]]).
  destruct (Z.eqb_spec w pid) as [->|Hw], (Z.eqb_spec r' 0) as [->|Hr]; simpl;
    rewrite ?list_elem_of_singleton; split; try (by intros ?%elem_of_nil); naive_solver.
Qed.

Lemma alloc_extends st p objs o :
  target_ok st p objs → room p (obj_size o) →
  (∀ r, r ∈ obj_res (pid p) o → is_Some (payloads st !! r) ∧ r ∉ (garbage st (pid p) (layout (mem p) objs)).*2) →
  (∀ v, v ∈ obj_children o → arena_val st p (layout (mem p) objs ++ []) v) →
  ∃ v st' p' objs', alloc_obj cap stress st p o = Ret (v, st', p') ∧
    extended (obj_size o) (obj_res (pid p) o) st p objs st' p' objs' ∧
    points_to (arena_addr K p' objs') st' v o.
Proof.
  intros [A C S] Hroom Hres Hch. unfold room in Hroom.
  destruct (alloc_closed cap stress st p o C Hroom) as (p'&->&Sm).
  pose proof (ac_arena _ _ _ _ _ _ A) as A0. pose proof (proc_stack_lo_le p) as Hlo.
  pose proof (obj_size_pos o) as Hpos.
  assert (Hfit : heap_ptr p + obj_size o ≤ mem_size p + sp p * 8) by (unfold TA_HEAP_FIT_SLACK in *; lia).
  assert (HK : ∀ x, K x → foreign st p x) by (intros x Hx; by apply (ac_consts _ _ _ _ _ _ A)).
  set (a := mem p + heap_ptr p). set (st' := write_cell st a (Live o)).
  set (q := set_heap_ptr (heap_ptr p + obj_size o) p) in *.
  assert (Aq : actor_ok cap K st' q (objs ++ [o]) T).
  { split.
    - apply arena_extend; try done; [apply A|]. intros r -> Hr.
      destruct (Hres r) as [H1 H2]; [by apply elem_of_obj_res|]. split; [done|].
      intros x Hx. apply H2. apply list_elem_of_fmap. by exists (x, r).
    - intros x Hx. destruct (ac_consts _ _ _ _ _ _ A x Hx) as [Hf Hl]. split; [done|].
      unfold st', a. intros o'. rewrite (extend_frame cap st p objs o A0 Hfit x) by (by right). apply Hl.
    - apply A.
    - intros i Hi. destruct (ac_stack _ _ _ _ _ _ A i Hi) as (v&Hv&Hr). exists v. split; [done|].
      by apply (extend_repr cap). }
  assert (Ep : same_arena q p') by done.
  exists (box_tag_payload (obj_tag o) a), st', p', (objs ++ [o]). split; [done|]. split.
  - split.
    + split.
      * by eapply same_arena_actor.
      * destruct C as (C1&C2&C3). destruct Sm as (E1&E2&E3&E4&E5&E6&E7&E8&E9&E10&E11). simpl in *.
        split; [by rewrite E2|]. split; [by rewrite E10|]. by rewrite E11.
      * destruct Sm as (E1&E2&E3&E4&_). simpl in *. rewrite E2, E3, E4. intros x Hx. specialize (S x Hx). lia.
    + done.
    + intros x Hx. unfold st', write_cell. simpl. apply lookup_insert_ne. unfold a.
      pose proof (heap_in_block _ _ _ _ _ A0). pose proof (a_sp _ _ _ _ _ A0). lia.
    + intros v t Hr. destruct Sm as (_&E2&_). unfold arena_addr. rewrite E2.
      by apply (extend_repr cap st p objs o).
    + done.
    + intros r. rewrite !list_elem_of_fmap. split.
      * intros ([x r']&->&Hg). pose proof (proj1 (extend_garbage cap st p objs o A0 Hfit x r') Hg) as [Hg'|(_&Ho&Hr)].
        -- left. by exists (x, r').
        -- right. simpl. by apply elem_of_obj_res.
      * intros [([x r']&->&Hg)|[Ho Hr]%elem_of_obj_res].
        -- exists (x, r'). split; [done|]. apply (proj2 (extend_garbage cap st p objs o A0 Hfit x r')). by left.
        -- exists (a, r). split; [done|]. apply (proj2 (extend_garbage cap st p objs o A0 Hfit a r)). by right.
  - destruct Sm as (_&E2&_). unfold arena_addr. rewrite E2. by apply (extend_points_to cap).
Qed.

(** ** The loop *)
Fixpoint steps (t : tree) : nat :=
  match t with
  | TPair a b => S (steps a + (steps b + 1))
  | TClos _ ts => S (list_sum (steps <$> ts) + 1)
  | _ => 1
  end.

Lemma extended_fresh n r1 st p objs st' p' objs' r2 :
  extended n r1 st p objs st' p' objs' → fresh_res st p objs r2 → (∀ r, r ∈ r1 → r ∉ r2) →
  fresh_res st' p' objs' r2.
Proof.
  intros E [Hn Hf] Hd. split; [done|]. intros r Hr. destruct (Hf r Hr) as [Hp Hg].
  destruct (extended_fields _ _ _ _ _ _ _ _ E) as (F1&F2&_). rewrite (e_pay _ _ _ _ _ _ _ _ E).
  split; [done|]. rewrite F1, F2, (e_res _ _ _ _ _ _ _ _ E). intros [?|Hr1]; [done|]. by eapply Hd.
Qed.

Lemma extended_src n rs st p objs st' p' objs' v t :
  target_ok st p objs → extended n rs st p objs st' p' objs' → repr F st v t → repr F st' v t.
Proof.
  intros Ht E. apply repr_mono. intros a Ha. split; [done|].
  apply (e_frame _ _ _ _ _ _ _ _ E). by apply Ht.
Qed.

Definition plain (t : tree) : Prop := check = None ∨ has_resource t = false.

(** What the loop does with one value. *)
Definition copy_step_ok (t : tree) : Prop :=
  ∀ v tasks results seen st p objs n,
    target_ok st p objs → repr F st v t → room p (tree_bytes t) → fresh_res st p objs (owned (pid p) t) → plain t →
    ∃ v' st' p' objs',
      deep_copy_loop cap stress check (steps t + n) (mk_copy (COPY_VALUE v :: tasks) results seen st p) =
      deep_copy_loop cap stress check n (mk_copy tasks (v' :: results) seen st' p') ∧
      extended (tree_bytes t) (owned (pid p) t) st p objs st' p' objs' ∧
      repr (arena_addr K p' objs') st' v' t.

(** A row of values leaves its copies on the result stack, last on top. *)
Lemma copy_list ts : Forall copy_step_ok ts → ∀ fs tasks results seen st p objs n,
  target_ok st p objs → reprs F st fs ts → room p (sumZ (tree_bytes <$> ts)) →
  fresh_res st p objs (concat (owned (pid p) <$> ts)) → Forall plain ts →
  ∃ vs st' p' objs',
    deep_copy_loop cap stress check (list_sum (steps <$> ts) + n) (mk_copy ((COPY_VALUE <$> fs) ++ tasks) results seen st p) =
    deep_copy_loop cap stress check n (mk_copy tasks (rev vs ++ results) seen st' p') ∧
    extended (sumZ (tree_bytes <$> ts)) (concat (owned (pid p) <$> ts)) st p objs st' p' objs' ∧
    reprs (arena_addr K p' objs') st' vs ts.
Proof.
  induction 1 as [|t ts Ht _ IH]; intros fs tasks results seen st p objs n Hok Hf Hroom Hfr Hpl;
    inversion Hf as [|f ? fs' ? Hft Hfs]; subst.
  - exists [], st, p, objs. split; [done|]. split; [by apply extended_refl|constructor].
  - rewrite !fmap_cons in *. unfold sumZ in Hroom; cbn [foldr] in Hroom. fold (sumZ (tree_bytes <$> ts)) in Hroom.
    cbn [concat] in Hfr. apply fresh_res_app in Hfr as (Hf1&Hf2&Hd). apply Forall_cons in Hpl as [Hp1 Hp2].
    assert (0 ≤ tree_bytes t) as Hb by apply tree_bytes_nonneg.
    assert (0 ≤ sumZ (tree_bytes <$> ts)) as Hb2.
    { apply sumZ_nonneg, Forall_fmap, Forall_true. intros. apply tree_bytes_nonneg. }
    replace (list_sum (steps t :: (steps <$> ts)) + n)%nat with (steps t + (list_sum (steps <$> ts) + n))%nat
      by (simpl; lia).
    change ((COPY_VALUE f :: (COPY_VALUE <$> fs')) ++ tasks) with (COPY_VALUE f :: (COPY_VALUE <$> fs') ++ tasks).
    destruct (Ht f ((COPY_VALUE <$> fs') ++ tasks) results seen st p objs (list_sum (steps <$> ts) + n)%nat)
      as (v'&st1&p1&objs1&->&E1&R1); [done|done|by eapply room_le; [|done]; lia|done|done|].
    destruct (extended_fields _ _ _ _ _ _ _ _ E1) as (F1&_).
    destruct (IH fs' tasks (v' :: results) seen st1 p1 objs1 n) as (vs&st2&p2&objs2&->&E2&R2).
    + apply E1.
    + eapply Forall2_impl; [exact Hfs|]. intros. by eapply extended_src.
    + by eapply extended_room.
    + rewrite F1. by eapply extended_fresh.
    + done.
    + rewrite F1 in E2. exists (v' :: vs), st2, p2, objs2. split; [cbn [rev]; by rewrite <- app_assoc|]. split.
      * unfold sumZ; cbn [foldr concat]. by eapply extended_trans.
      * constructor; [|done]. by apply (e_mono _ _ _ _ _ _ _ _ E2).
Qed.
End DeepCopy.

Lemma copy_immediate_tag v : copy_immediate v = negb (is_heap_tag (val_tag v)).
Proof.
  unfold copy_immediate, is_heap_tag, val_is_float. generalize (val_tag v). clear v. intros t.
  unfold TAG_FIRST, TAG_LAST, TAG_INT, TAG_NIL, TAG_TRUE, TAG_FALSE, TAG_PID, TAG_SYM, TAG_CLOS_ID, TAG_NATIVE,
    TAG_PAIR, TAG_CLOS, TAG_STRING, TAG_BYTES, TAG_RESOURCE.
  apply Bool.eq_iff_eq_true. rewrite negb_true_iff, !orb_false_iff, !orb_true_iff, !Z.ltb_lt, !Z.eqb_eq, !Z.eqb_neq.
  lia.
Qed.

Section DeepCopyTree.
Context (cap stress : Z) (K : Z → Prop) (T : Z → tree) (F : Z → Prop) (check : option Z).
Let step_ok := copy_step_ok cap stress K T F check.

(** Copying a value that points to [o]: the first round. *)
Lemma copy_round v o tasks results seen st p n :
  points_to F st v o →
  deep_copy_loop cap stress check (S n) (mk_copy (COPY_VALUE v :: tasks) results seen st p) =
  (r ← (match o with
        | HeapPair car cdr =>
            Ret (Some (mk_copy (COPY_VALUE car :: COPY_VALUE cdr :: COPY_PAIR v :: tasks) results seen st p))
        | HeapString d => '(v, st, p) ← val_string cap stress st p d; Ret (Some (mk_copy tasks (v :: results) seen st p))
        | HeapBytes d => '(v, st, p) ← val_bytes cap stress st p d; Ret (Some (mk_copy tasks (v :: results) seen st p))
        | HeapClosure _ fs =>
            Ret (Some (mk_copy ((COPY_VALUE <$> fs) ++ COPY_CLOSURE v :: tasks) results seen st p))
        | HeapResource owner res =>
            bad ← match check with Some cur => copy_bad st cur seen owner res | None => Ret false end;
            if (bad : bool) then Ret None
            else
              '(v, st, p) ← alloc_obj cap stress st p (HeapResource owner res);
              Ret (Some (mk_copy tasks (v :: results)
                                 (match check with Some _ => seen ++ [lpayload v] | None => seen end) st p))
        end);
   match r with
   | None => Ret (None, mk_copy tasks results seen st p)
   | Some s => deep_copy_loop cap stress check n s
   end).
Proof.
  intros Hp. destruct (repr_read _ _ _ _ Hp) as [Hr Hh]. cbn [deep_copy_loop cs_tasks].
  unfold deep_copy_step. cbn [cs_store cs_proc cs_tasks cs_results cs_seen].
  rewrite copy_immediate_tag, Hh. cbn [negb]. rewrite Hr. cbn [mbind outcome_bind]. by destruct o.
Qed.

Lemma copy_leaf o st p objs :
  target_ok cap K T F st p objs → obj_children o = [] → room p (obj_size o) →
  fresh_res st p objs (obj_res (pid p) o) →
  ∃ v' st' p' objs', alloc_obj cap stress st p o = Ret (v', st', p') ∧
    extended cap K T F (obj_size o) (obj_res (pid p) o) st p objs st' p' objs' ∧
    points_to (arena_addr K p' objs') st' v' o.
Proof.
  intros Hok Hc Hr [_ Hf].
  destruct (alloc_extends cap stress K T F st p objs o Hok Hr Hf) as (v'&st'&p'&objs'&E&X&P).
  { rewrite Hc. by intros ? ?%elem_of_nil. }
  exists v', st', p', objs'. done.
Qed.

Lemma copy_pair_ok ta tb : step_ok ta → step_ok tb → step_ok (TPair ta tb).
Proof.
  intros IHa IHb v tasks results seen st p objs n Hok Hr Hroom Hfr Hpl.
  destruct Hr as (a&b&Hp&Ha&Hb). cbn [steps Nat.add]. rewrite (copy_round _ _ _ _ _ _ _ _ Hp). cbn [mbind outcome_bind].
  change (tree_bytes (TPair ta tb)) with
    (obj_size (HeapPair val_nil val_nil) + tree_bytes ta + tree_bytes tb) in *.
  cbn [owned] in *. pose proof Hfr as (Hf1&Hf2&Hd)%fresh_res_app.
  pose proof (tree_bytes_nonneg ta). pose proof (tree_bytes_nonneg tb).
  pose proof (obj_size_pos (HeapPair val_nil val_nil)).
  assert (Hpa : plain check ta ∧ plain check tb).
  { destruct Hpl as [|Hpl]; [by split; left|]. cbn [has_resource] in Hpl. apply orb_false_iff in Hpl as [? ?].
    split; by right. }
  rewrite <- Nat.add_assoc.
  destruct (IHa a (COPY_VALUE b :: COPY_PAIR v :: tasks) results seen st p objs (steps tb + 1 + n)%nat)
    as (a'&st1&p1&objs1&->&E1&R1); [done|done|by eapply room_le; [|exact Hroom]; lia|done|apply Hpa|].
  destruct (extended_fields _ _ _ _ _ _ _ _ _ _ _ _ E1) as (F1&F2&F3&F4&_). rewrite <- Nat.add_assoc.
  destruct (IHb b (COPY_PAIR v :: tasks) (a' :: results) seen st1 p1 objs1 (1 + n)%nat)
    as (b'&st2&p2&objs2&->&E2&R2); [apply E1|by eapply extended_src| | |apply Hpa|].
  { eapply extended_room; [done|]. eapply room_le; [|exact Hroom]. lia. }
  { rewrite F1. by eapply extended_fresh. }
  rewrite F1 in E2. pose proof (extended_trans _ _ _ _ _ _ _ _ _ _ _ _ _ _ _ _ _ (tree_bytes_nonneg ta) E1 E2) as E12.
  pose proof (e_mono _ _ _ _ _ _ _ _ _ _ _ _ E2 _ _ R1) as R1'.
  destruct (alloc_extends cap stress K T F st2 p2 objs2 (HeapPair a' b')) as (v'&st3&p3&objs3&E&X&P).
  { apply E2. }
  { eapply extended_room; [exact E12|]. eapply room_le; [|exact Hroom].
    change (obj_size (HeapPair a' b')) with (obj_size (HeapPair val_nil val_nil)). lia. }
  { by intros r ?%elem_of_nil. }
  { intros x [->|[->|[]%elem_of_nil]%elem_of_cons]%elem_of_cons;
      (eapply repr_arena_val; [apply (e_ok _ _ _ _ _ _ _ _ _ _ _ _ E2)|done]). }
  exists v', st3, p3, objs3. split; [|split].
  + cbn [Nat.add deep_copy_loop cs_tasks]. unfold deep_copy_step, val_pair.
    cbn [cs_store cs_proc cs_tasks cs_results cs_seen]. rewrite E. done.
  + destruct (extended_fields _ _ _ _ _ _ _ _ _ _ _ _ E12) as (G1&_).
    rewrite <- (app_nil_r (owned (pid p) ta ++ owned (pid p) tb)).
    replace (obj_size (HeapPair val_nil val_nil) + tree_bytes ta + tree_bytes tb)
      with (tree_bytes ta + tree_bytes tb + obj_size (HeapPair a' b'))
      by (change (obj_size (HeapPair a' b')) with (obj_size (HeapPair val_nil val_nil)); lia).
    eapply extended_trans; [lia|exact E12|exact X].
  + exists a', b'. split; [done|]. by split; apply (e_mono _ _ _ _ _ _ _ _ _ _ _ _ X).
Qed.
Lemma copy_clos_ok e ts : Forall step_ok ts → step_ok (TClos e ts).
Proof.
  intros IH v tasks results seen st p objs n Hok Hr Hroom Hfr Hpl.
  apply repr_clos in Hr as (fs&Hp&Hf). cbn [steps Nat.add].
  rewrite (copy_round _ _ _ _ _ _ _ _ Hp). cbn [mbind outcome_bind].
  set (m := ta_heap_object_size (SIZEOF_CLOSURE + Z.of_nat (length ts) * SIZEOF_VAL)).
  change (tree_bytes (TClos e ts)) with (m + sumZ (tree_bytes <$> ts)) in *.
  cbn [owned] in *.
  assert (0 ≤ sumZ (tree_bytes <$> ts)) as Hb.
  { apply sumZ_nonneg, Forall_fmap, Forall_true. intros. apply tree_bytes_nonneg. }
  assert (0 ≤ m) as Hm by (unfold m; pose proof (ta_heap_object_size_spec (SIZEOF_CLOSURE + Z.of_nat (length ts) * SIZEOF_VAL)); lia).
  assert (Hpls : Forall (plain check) ts).
  { destruct Hpl as [|Hpl]; [apply Forall_true; by left|]. cbn [has_resource] in Hpl.
    apply Forall_forall. intros t Ht. right. destruct (has_resource t) eqn:E; [|done].
    exfalso. rewrite <- not_true_iff_false, existsb_exists in Hpl. apply Hpl. exists t.
    by rewrite <- list_elem_of_In. }
  rewrite <- Nat.add_assoc.
  destruct (copy_list cap stress K T F check ts IH fs (COPY_CLOSURE v :: tasks) results seen st p objs (1 + n)%nat)
    as (vs&st2&p2&objs2&->&E2&R2); [done|done|by eapply room_le; [|exact Hroom]; lia|done|done|].
  assert (Hls : length vs = length ts) by (by eapply Forall2_length).
  assert (Hlf : length fs = length ts) by (by eapply Forall2_length).
  assert (Hsz : obj_size (HeapClosure e vs) = m) by (unfold obj_size, raw_size; by rewrite Hls).
  destruct (alloc_extends cap stress K T F st2 p2 objs2 (HeapClosure e vs)) as (v'&st3&p3&objs3&E&X&P).
  { apply E2. }
  { eapply extended_room; [exact E2|]. eapply room_le; [|exact Hroom]. lia. }
  { by intros r ?%elem_of_nil. }
  { intros x Hx. simpl in Hx. apply list_elem_of_lookup_1 in Hx as [i Hi].
    destruct (Forall2_lookup_l _ _ _ _ _ R2 Hi) as (t&_&Ht).
    eapply repr_arena_val; [apply (e_ok _ _ _ _ _ _ _ _ _ _ _ _ E2)|done]. }
  exists v', st3, p3, objs3. split; [|split].
  + cbn [Nat.add deep_copy_loop cs_tasks]. unfold deep_copy_step.
    cbn [cs_store cs_proc cs_tasks cs_results cs_seen].
    assert (cells st2 !! lpayload v = Some (Live (HeapClosure e fs))) as ->.
    { destruct Hp as (_&_&HF&Hc). rewrite (e_frame _ _ _ _ _ _ _ _ _ _ _ _ E2); [done|]. by apply Hok. }
    rewrite Hlf, <- Hls, <- (length_rev vs), take_app_length, drop_app_length, rev_involutive.
    destruct (Nat.ltb_spec (length (rev vs ++ results)) (length (rev vs))) as [Hlt|_];
      [rewrite length_app in Hlt; lia|]. rewrite E. done.
  + rewrite <- (app_nil_r (concat _)), Z.add_comm, <- Hsz. eapply extended_trans; [done|exact E2|exact X].
  + apply repr_clos. exists vs. split; [done|]. eapply Forall2_impl; [exact R2|].
    intros. by apply (e_mono _ _ _ _ _ _ _ _ _ _ _ _ X).
Qed.
Lemma copy_tree t : step_ok t.
Proof.
  induction t as [w|ta tb IHa IHb|e ts IH|d|d|w r] using tree_ind';
    intros v tasks results seen st p objs n Hok Hr Hroom Hfr Hpl.
  - destruct Hr as (->&Hw&Hn). exists w, st, p, objs. split; [|split; [by apply extended_refl|done]].
    cbn [steps Nat.add deep_copy_loop cs_tasks]. unfold deep_copy_step.
    rewrite copy_immediate_tag, Hn. done.
  - by apply (copy_pair_ok ta tb IHa IHb v tasks results).
  - by apply (copy_clos_ok e ts IH v tasks results).
  - destruct (copy_leaf (HeapString d) st p objs) as (v'&st'&p'&objs'&E&X&P); try done.
    exists v', st', p', objs'. cbn [steps Nat.add]. rewrite (copy_round _ _ _ _ _ _ _ _ Hr).
    unfold val_string. rewrite E. done.
  - destruct (copy_leaf (HeapBytes d) st p objs) as (v'&st'&p'&objs'&E&X&P); try done.
    exists v', st', p', objs'. cbn [steps Nat.add]. rewrite (copy_round _ _ _ _ _ _ _ _ Hr).
    unfold val_bytes. rewrite E. done.
  - destruct Hpl as [Hck|Hpl]; [|done].
    destruct (copy_leaf (HeapResource w r) st p objs) as (v'&st'&p'&objs'&E&X&P); try done.
    exists v', st', p', objs'. cbn [steps Nat.add]. rewrite (copy_round _ _ _ _ _ _ _ _ Hr).
    rewrite Hck. cbn [mbind outcome_bind]. rewrite E. done.
Qed.
End DeepCopyTree.

(** * Deep copies as a whole *)

Lemma enter_actor cap K st p objs T g :
  actor_ok cap K st p objs T → actor_ok cap K st (set_gc_gate g p) objs T.
Proof. intros [A C P S]. split; try done. destruct (a_blocks _ _ _ _ _ A). split; try (by apply A). by split. Qed.

Lemma owned_none pid t : has_resource t = false → owned pid t = [].
Proof.
  induction t as [w|ta tb IHa IHb|e ts IH|d|d|w r] using tree_ind'; cbn [owned has_resource]; intros Hr; try done.
  - apply orb_false_iff in Hr as [Ha Hb]. by rewrite IHa, IHb.
  - induction IH as [|u us Hu _ IHus]; [done|]. cbn [existsb] in Hr. apply orb_false_iff in Hr as [H1 H2].
    rewrite fmap_cons. cbn [concat]. by rewrite Hu, IHus.
Qed.

(** Writes outside the actor's block and the constants leave it alone. *)
Lemma actor_frame cap K st st' p objs T :
  actor_ok cap K st p objs T → brk st ≤ brk st' → payloads st' = payloads st →
  (∀ a, mem p ≤ a < mem p + mem_size p ∨ K a → cells st' !! a = cells st !! a) →
  actor_ok cap K st' p objs T.
Proof.
  intros [A C P S] Hb Hp Hc.
  assert (Hcell : ∀ a o, (a, o) ∈ layout (mem p) objs → cells st' !! a = cells st !! a).
  { intros a o Ha. apply Hc. left. apply (tile_block cap st p objs A). apply list_elem_of_fmap. by exists (a, o). }
  assert (Hfor : ∀ a, foreign st p a → foreign st' p a) by (unfold foreign; intros a Ha; lia).
  assert (Hval : ∀ v, arena_val st p (layout (mem p) objs ++ []) v → arena_val st' p (layout (mem p) objs ++ []) v).
  { intros v [H1 H2]. split; [done|]. intros Hr. destruct (H2 Hr) as [H|[H H']]; [by left|right; auto]. }
  assert (Hg : ∀ x, x ∈ garbage st' (pid p) (layout (mem p) objs ++ []) → x ∈ garbage st (pid p) (layout (mem p) objs ++ [])).
  { intros [a r]. rewrite !elem_of_garbage, app_nil_r. intros (H1&H2&H3). split; [done|]. split; [|done].
    apply list_elem_of_fmap in H1 as ([x o]&->&Hin). simpl in H2. by rewrite (Hcell x o Hin) in H2. }
  split; [split|..]; try apply A; try done.
  - destruct (a_blocks _ _ _ _ _ A) as [? (?&?&?) ? Ht ?]. split; try done; [lia|]. destruct Ht as [Ht|Ht]; [by left|right; lia].
  - intros a o Ha. rewrite app_nil_r in Ha. rewrite (Hcell a o) by done. apply (a_cells _ _ _ _ _ A). by rewrite app_nil_r.
  - intros a o v Ha Hv. apply Hval. by eapply (a_fields _ _ _ _ _ A).
  - intros i Hi. destruct (a_stack _ _ _ _ _ A i Hi) as (v&Hv&H). exists v. auto.
  - intros a1 a2 r H1 H2. rewrite Hp. eapply (a_res _ _ _ _ _ A); auto.
  - split; [apply A|]. by intros ?? ?%elem_of_nil.
  - intros a Ha. apply Hfor. by apply (a_promote _ _ _ _ _ A).
  - intros a Ha. destruct (C a Ha) as [H1 H2]. split; [auto|]. rewrite Hc by auto. done.
  - intros i Hi. destruct (S i Hi) as (v&Hv&H). exists v. split; [done|]. eapply repr_mono; [|exact H].
    intros a [Ha|Ha]; (split; [by (left + right)|]); [|auto].
    apply list_elem_of_fmap in Ha as ([x o]&->&Hin). by eapply Hcell.
Qed.

Section DeepCopySpec.
Context (cap stress : Z) (K : Z → Prop) (T : Z → tree) (F : Z → Prop).
Context (st : store) (p : ProcMem) (objs : list obj) (root : Val) (t : tree).

(** The whole of [val_deep_copy] on a tree whose copy fits. *)
Lemma deep_copy_spec check n :
  actor_ok cap K st p objs T → 0 ≤ gc_gate p → ccall p = None →
  (∀ a, F a → a < mem p + heap_ptr p ∨ mem p + mem_size p ≤ a) →
  repr F st root t → room p (tree_bytes t) → fresh_res st p objs (owned (pid p) t) → plain check t →
  ∃ v st' p' objs', val_deep_copy cap stress check (steps t + n) st p root = Ret (inl v, st', p') ∧
    actor_ok cap K st' p' objs' T ∧ repr (arena_addr K p' objs') st' v t ∧
    same_arena (set_heap_ptr (heap_ptr p + tree_bytes t) p) p' ∧
    (∀ a, a < mem p + heap_ptr p ∨ mem p + mem_size p ≤ a → cells st' !! a = cells st !! a) ∧
    payloads st' = payloads st.
Proof.
  intros A Hg Hc Hsep Hr Hroom Hfr Hpl. destruct (actor_size _ _ _ _ _ _ A) as (Hm&_).
  set (q := proc_gc_enter p).
  assert (Hok : target_ok cap K T F st q objs).
  { split; [by apply enter_actor| |done]. split; [simpl; lia|]. split; [simpl; lia|].
    intros ca Eca. simpl in Eca. congruence. }
  destruct (copy_tree cap stress K T F check t root [] [] [] st q objs n) as (v&st'&p'&objs'&E&X&R); try done.
  unfold val_deep_copy. fold q. rewrite E.
  replace (deep_copy_loop cap stress check n (mk_copy [] [v] [] st' p')) with (Ret (Some (mk_copy [] [v] [] st' p'), mk_copy [] [v] [] st' p')) by (by destruct n).
  cbn [mbind outcome_bind].
  cbn [cs_results last or_undef mbind outcome_bind cs_seen cs_store cs_proc].
  assert ((match check with Some _ => foldM (set_owner (pid p)) st' [] | None => Ret st' end) = Ret st') as ->
    by (by destruct check).
  cbn [mbind outcome_bind].
  destruct (e_same _ _ _ _ _ _ _ _ _ _ _ _ X) as (E1&E2&E3&E4&E5&E6&E7&E8&E9&E10&E11). simpl in *.
  unfold proc_gc_leave. rewrite E10. destruct (Z.ltb_spec 0 (gc_gate p + 1)); [|lia]. cbn [mbind outcome_bind].
  eexists v, st', _, objs'. split; [done|]. split; [apply enter_actor, X|]. split; [done|]. split.
  - unfold same_arena. simpl. repeat split; try done. lia.
  - split; [apply X|apply X].
Qed.

End DeepCopySpec.

Lemma size_loop_fuel g F st root t fuel :
  repr F st root t → (nodes t ≤ fuel)%nat → size_loop g fuel st [root] 0 false = Ret (bytes_by g t, has_resource t).
Proof.
  intros Hr Hf. replace fuel with (nodes t + (fuel - nodes t))%nat by lia. rewrite (size_loop_tree _ F) by done.
  by destruct (fuel - nodes t)%nat.
Qed.

Lemma calc_heap_size_spec F st root t fuel :
  repr F st root t → (nodes t ≤ fuel)%nat → val_calc_heap_size fuel st root = Ret (tree_bytes t).
Proof. intros Hr Hf. unfold val_calc_heap_size. by rewrite (size_loop_fuel _ F _ _ t). Qed.

Section Receive.
Context (fuel : nat).
Context (cap stress : Z) (K : Z → Prop) (T : Z → tree) (F : Z → Prop).
Context (st : store) (p : ProcMem) (objs : list obj) (root : Val) (t : tree).

(** Reserving the size of a value outside the actor and then deep-copying
    it, as every receive does, yields a value of the actor that denotes the same
    tree, in exactly that many bytes; the trees of the stack are unchanged; and
    the only failure is an arena that cannot hold it within the cap. *)
Lemma receive_copy_spec :
  actor_ok cap K st p objs T → fits p → 0 ≤ gc_gate p → ccall p = None →
  (∀ a, F a → foreign st p a) → repr F st root t → has_resource t = false →
  tree_bytes t ≤ 2 ^ 28 → brk st + cap < ADDR_LIMIT → (nodes t ≤ fuel)%nat → (steps t ≤ fuel)%nat →
  let r := (n ← val_calc_heap_size fuel st root;
            '(st, p) ← proc_reserve_heap cap st p n;
            val_deep_copy cap stress None fuel st p root) in
  ((∃ why, r = Abort why) ∧ cap < heap_ptr p + tree_bytes t + TA_STACK_HEADROOM + - proc_stack_lo p * 8) ∨
  ∃ v st' p' objs', r = Ret (inl v, st', p') ∧ actor_ok cap K st' p' objs' T ∧
    repr (arena_addr K p' objs') st' v t ∧ same_control p p' ∧
    heap_ptr p' + TA_HEAP_FIT_SLACK ≤ mem_size p' + proc_stack_lo p' * 8.
Proof.
  intros A Fi Hg Hc HF Hr Hres Hb Hroom Hf1 Hf2. cbv zeta. rewrite (calc_heap_size_spec F _ _ t) by done.
  cbn [mbind outcome_bind].
  pose proof (tree_bytes_nonneg t) as Hnn.
  destruct (reserve_heap_spec cap K T st p objs (tree_bytes t)) as [[[why ->] Hcap]|(st1&p1&objs1&->&A1&C1&O1&R1)];
    [done|done|lia|done|left; split; [by exists why|done]|].
  right. cbn [mbind outcome_bind]. destruct C1 as (E1&E2&E3&E4&E5).
  assert (Hown : owned (pid p1) t = []) by (by apply owned_none).
  pose proof (heap_in_block _ _ _ _ _ (ac_arena _ _ _ _ _ _ A1)).
  destruct (deep_copy_spec cap stress K T F st1 p1 objs1 root t None (fuel - steps t)) as (v&st2&p2&objs2&E&A2&R2&S2&_).
  - done.
  - lia.
  - by rewrite E5.
  - intros a Ha. destruct (O1 a (HF a Ha)) as [(_&Hm&_) _]. lia.
  - eapply repr_mono; [|exact Hr]. intros a Ha. split; [done|]. by apply O1, HF.
  - unfold room. lia.
  - rewrite Hown. split; [constructor|]. by intros r ?%elem_of_nil.
  - by left.
  - replace (steps t + (fuel - steps t))%nat with fuel in E by lia. rewrite E.
    exists v, st2, p2, objs2. split; [done|]. split; [done|]. split; [done|].
    destruct S2 as (S1&S2&S3&S4&S5&S6&S7&S8&S9&S10&S11). simpl in *. split.
    + repeat split; congruence.
    + rewrite S3, S4. unfold proc_stack_lo in *. rewrite S5, S6. lia.
Qed.
End Receive.

(** ** Concrete instances: a two-element list at addresses 6000 and 6032. *)
Definition w_msg : tree := TPair (Imm (val_int 5)) (TPair (Imm (val_int 6)) (Imm val_nil)).
Definition w_fstore : store :=
  write_cell (write_cell w_store 6000 (Live (HeapPair (val_int 5) (lbox TAG_PAIR 6032))))
             6032 (Live (HeapPair (val_int 6) val_nil)).
Definition w_block (a : Z) : Prop := 6000 ≤ a < 6064.

Lemma w_foreign a : w_block a → foreign w_fstore w_proc a.
Proof. unfold w_block, foreign, w_proc; simpl. lia. Qed.

Lemma w_msg_repr : repr w_block w_fstore (lbox TAG_PAIR 6000) w_msg.
Proof.
  assert (H : ∀ v, v ∈ [val_int 5; val_int 6; val_nil] → v = v ∧ 0 ≤ v < 2 ^ 64 ∧ is_heap_tag (val_tag v) = false).
  { intros v Hv. split; [done|]. repeat (apply elem_of_cons in Hv as [->|Hv]; [split; [split; vm_compute; congruence|reflexivity]|]).
    by apply elem_of_nil in Hv. }
  exists (val_int 5), (lbox TAG_PAIR 6032). split; [|split; [apply H; left|]].
  - split; [split; vm_compute; congruence|]. split; [reflexivity|]. split; [split; vm_compute; congruence|reflexivity].
  - exists (val_int 6), val_nil. split; [|split; apply H; [right; left|do 2 right; left]].
    split; [split; vm_compute; congruence|]. split; [reflexivity|]. split; [split; vm_compute; congruence|reflexivity].
Qed.

Lemma w_factor_ok : actor_ok 4096 (λ _, False) w_fstore w_proc w_objs w_tree.
Proof.
  apply (actor_frame _ _ w_store); [apply w_actor_ok|vm_compute; congruence|done|].
  intros a [Ha|[]]. unfold w_proc in Ha; simpl in Ha. unfold w_fstore, write_cell. simpl.
  rewrite !lookup_insert_ne by lia. done.
Qed.
