(* ===== verification/Fragment.v ===== *)
(** Message fragments: [frag_copy] of src/scheduler.c serialises a value tree
    into one malloc'd block.  The copy needs exactly the bytes [frag_calc_size]
    announces, stays inside the block, and denotes the same tree. *)
From stdpp Require Import base tactics list gmap strings.
From Stdlib Require Import ZArith Lia.
From S2P Require Import Prelude Values Heap Resource Gc GcCorrect GcSpec Tree Alloc Copy.
Open Scope Z_scope.

Inductive FragCopyTask :=
| FRAG_COPY_VALUE (v : Val)
| FRAG_COPY_PAIR (v : Val)
| FRAG_COPY_CLOSURE (v : Val) (dst : Z).

Record frag_state := mk_frag {
  fs_tasks : list FragCopyTask;
  fs_results : list Val;
  fs_store : store;
  fs_size : Z (** [f->size]: bytes of [data] used so far *)
}.

Definition frag_box_ptr (tag a : Z) : Val := lbox tag a.

(** Place an object: align [f->size], write at [data + f->size], bump. *)
Definition frag_place (data : Z) (st : store) (size : Z) (o : obj) : Z * store * Z :=
  let size := FRAG_ALIGN8 size in
  (data + size, write_cell st (data + size) (Live o), size + raw_size o).

(** One round.  A closure is placed before its captured values, whose slots
    are filled when they have been copied. *)
Definition frag_copy_step (data : Z) (task : FragCopyTask) (s : frag_state) : outcome frag_state :=
  let st := fs_store s in
  match task with
  | FRAG_COPY_PAIR _ =>
      match fs_results s with
      | cdr :: car :: results =>
          let '(dst, st, size) := frag_place data st (fs_size s) (HeapPair car cdr) in
          Ret (mk_frag (fs_tasks s) (frag_box_ptr TAG_PAIR dst :: results) st size)
      | _ => Undef
      end
  | FRAG_COPY_CLOSURE _ dst =>
      match cells st !! dst with
      | Some (Live (HeapClosure entry fs)) =>
          let n := length fs in
          if (length (fs_results s) <? n)%nat then Undef
          else
            let st := write_cell st dst (Live (HeapClosure entry (rev (take n (fs_results s))))) in
            Ret (mk_frag (fs_tasks s) (frag_box_ptr TAG_CLOS dst :: drop n (fs_results s)) st (fs_size s))
      | _ => Undef
      end
  | FRAG_COPY_VALUE v =>
      if is_heap_tag (val_tag v) then
        o ← read_obj st v;
        match o with
        | HeapPair car cdr =>
            Ret (mk_frag (FRAG_COPY_VALUE car :: FRAG_COPY_VALUE cdr :: FRAG_COPY_PAIR v :: fs_tasks s)
                         (fs_results s) st (fs_size s))
        | HeapClosure entry fs =>
            let '(dst, st, size) := frag_place data st (fs_size s) (HeapClosure entry (replicate (length fs) 0)) in
            Ret (mk_frag ((FRAG_COPY_VALUE <$> fs) ++ FRAG_COPY_CLOSURE v dst :: fs_tasks s) (fs_results s) st size)
        | _ =>
            let '(dst, st, size) := frag_place data st (fs_size s) o in
            Ret (mk_frag (fs_tasks s) (frag_box_ptr (obj_tag o) dst :: fs_results s) st size)
        end
      else Ret (mk_frag (fs_tasks s) (v :: fs_results s) st (fs_size s))
  end.

Fixpoint frag_copy_loop (data : Z) (fuel : nat) (s : frag_state) : outcome frag_state :=
  match fs_tasks s with
  | [] => Ret s
  | task :: tasks =>
      match fuel with
      | O => NoFuel
      | S n =>
          s ← frag_copy_step data task (mk_frag tasks (fs_results s) (fs_store s) (fs_size s));
          frag_copy_loop data n s
      end
  end.

(** [frag_copy]: the root of the copy, the store and the bytes used. *)
Definition frag_copy (fuel : nat) (st : store) (data : Z) (root : Val) : outcome (Val * store * Z) :=
  s ← frag_copy_loop data fuel (mk_frag [FRAG_COPY_VALUE root] [] st 0);
  v ← or_undef (last (fs_results s));
  Ret (v, fs_store s, fs_size s).

(** * Correctness *)
Definition frag_bytes : tree → Z := bytes_by FRAG_ALIGN8.

Section Frag.
Context (data need : Z) (F : Z → Prop).
Context (Hdata : 0 < data) (Hlim : data + need ≤ ADDR_LIMIT).
Context (Hsep : ∀ a, F a → a < data ∨ data + need ≤ a).

(** The part of the block used between two sizes. *)
Definition span (s s' : Z) (a : Z) : Prop := data + align8 s ≤ a < data + s'.

(** From size [s] the loop has written [s .. s'], [n] aligned bytes. *)
Record wrote (n : Z) (st : store) (s : Z) (st' : store) (s' : Z) : Prop := {
  w_size : align8 s' = align8 s + n;
  w_grow : s ≤ s';
  w_frame : ∀ a, ¬ span s s' a → cells st' !! a = cells st !! a;
  w_rest : payloads st' = payloads st ∧ dtor_calls st' = dtor_calls st ∧ brk st' = brk st
}.

Lemma align8_mono s s' : s ≤ s' → align8 s ≤ align8 s'.
Proof. intros H. rewrite !align8_eq. pose proof (Z.div_le_mono (s + 7) (s' + 7) 8). lia. Qed.

Lemma align8_add s n : align8 (align8 s + n) = align8 s + align8 n.
Proof.
  rewrite !align8_eq. set (q := (s + 7) / 8). replace (8 * q + n + 7) with (n + 7 + q * 8) by lia.
  rewrite Z.div_add by lia. lia.
Qed.

Lemma wrote_refl st s : wrote 0 st s st s.
Proof. split; [lia|lia|done|done]. Qed.

Lemma wrote_trans n1 n2 st s st1 s1 st2 s2 :
  wrote n1 st s st1 s1 → wrote n2 st1 s1 st2 s2 → wrote (n1 + n2) st s st2 s2.
Proof.
  intros [A1 B1 C1 D1] [A2 B2 C2 D2]. split; [lia|lia| |intuition congruence]. intros a Ha.
  rewrite C2, C1; [done| |]; unfold span in *; pose proof (align8_mono _ _ B1); lia.
Qed.

(** Earlier copies survive later writes. *)
Lemma wrote_repr n s0 st s st' s' v t :
  wrote n st s st' s' → repr (span s0 s) st v t → repr (span s0 s') st' v t.
Proof.
  intros [A B C _]. apply repr_mono. intros a [H1 H2]. split; [unfold span; lia|].
  apply C. unfold span. pose proof (align8_spec s). lia.
Qed.

Lemma wrote_src n st s st' s' v t :
  0 ≤ s → align8 s' ≤ need → wrote n st s st' s' → repr F st v t → repr F st' v t.
Proof.
  intros H0 Hn [A B C _]. apply repr_mono. intros a Ha. split; [done|]. apply C. unfold span.
  pose proof (align8_spec s). pose proof (align8_spec s'). specialize (Hsep a Ha). lia.
Qed.

Lemma repr_span_mono s0 s0' s1 s1' st v t :
  align8 s0' ≤ align8 s0 → s1 ≤ s1' → repr (span s0 s1) st v t → repr (span s0' s1') st v t.
Proof. intros H1 H2. apply repr_mono. unfold span. intros a Ha. split; [lia|done]. Qed.

(** Placing one object. *)
Lemma place_spec st s o :
  0 ≤ s → align8 s + align8 (raw_size o) ≤ need →
  let '(dst, st', s') := frag_place data st s o in
  dst = data + align8 s ∧ s' = align8 s + raw_size o ∧ wrote (align8 (raw_size o)) st s st' s' ∧
  points_to (span s s') st' (frag_box_ptr (obj_tag o) dst) o.
Proof.
  intros Hs Hn. unfold frag_place, FRAG_ALIGN8. simpl.
  pose proof (align8_spec s) as [_ Ha]. pose proof (align8_spec (raw_size o)) as [_ Hr].
  assert (0 < raw_size o).
  { destruct o; simpl; unfold SIZEOF_PAIR, SIZEOF_CLOSURE, SIZEOF_STRING, SIZEOF_BYTES, SIZEOF_RESOURCE, SIZEOF_VAL; lia. }
  split; [done|]. split; [done|]. split.
  - split; [by rewrite align8_add|lia| |done]. intros a Hsp. unfold write_cell. simpl. apply lookup_insert_ne.
    unfold span in Hsp. lia.
  - unfold ADDR_LIMIT in Hlim. unfold frag_box_ptr.
    assert (0 ≤ data + align8 s < 2 ^ 48) by lia.
    split; [apply lbox_range|]. rewrite lbox_tag, lbox_payload, Z.mod_small by done.
    split; [by destruct o|]. split; [unfold span; lia|]. apply lookup_insert_eq.
Qed.

Lemma frag_bytes_nonneg t : 0 ≤ frag_bytes t.
Proof. apply bytes_by_nonneg. intros n Hn. unfold FRAG_ALIGN8. pose proof (align8_spec n). lia. Qed.

Lemma frag_sum_nonneg ts : 0 ≤ sumZ (frag_bytes <$> ts).
Proof. apply sumZ_nonneg, Forall_fmap, Forall_true. intros. apply frag_bytes_nonneg. Qed.

(** What the loop does with one value, and with a row of them. *)
Definition frag_ok (t : tree) : Prop :=
  ∀ v tasks results st s n,
    0 ≤ s → repr F st v t → align8 s + frag_bytes t ≤ need →
    ∃ v' st' s',
      frag_copy_loop data (steps t + n) (mk_frag (FRAG_COPY_VALUE v :: tasks) results st s) =
      frag_copy_loop data n (mk_frag tasks (v' :: results) st' s') ∧
      wrote (frag_bytes t) st s st' s' ∧ repr (span s s') st' v' t.

Lemma frag_list ts : Forall frag_ok ts → ∀ fs tasks results st s n,
  0 ≤ s → reprs F st fs ts → align8 s + sumZ (frag_bytes <$> ts) ≤ need →
  ∃ vs st' s',
    frag_copy_loop data (list_sum (steps <$> ts) + n) (mk_frag ((FRAG_COPY_VALUE <$> fs) ++ tasks) results st s) =
    frag_copy_loop data n (mk_frag tasks (rev vs ++ results) st' s') ∧
    wrote (sumZ (frag_bytes <$> ts)) st s st' s' ∧ reprs (span s s') st' vs ts.
Proof.
  induction 1 as [|t ts Ht _ IH]; intros fs tasks results st s n Hs Hf Hn;
    inversion Hf as [|f ? fs' ? Hft Hfs]; subst.
  - exists [], st, s. split; [done|]. split; [apply wrote_refl|constructor].
  - rewrite !fmap_cons in *. unfold sumZ in Hn; cbn [foldr] in Hn. fold (sumZ (frag_bytes <$> ts)) in Hn.
    pose proof (frag_bytes_nonneg t). pose proof (frag_sum_nonneg ts).
    replace (list_sum (steps t :: (steps <$> ts)) + n)%nat with (steps t + (list_sum (steps <$> ts) + n))%nat
      by (simpl; lia).
    change ((FRAG_COPY_VALUE f :: (FRAG_COPY_VALUE <$> fs')) ++ tasks)
      with (FRAG_COPY_VALUE f :: (FRAG_COPY_VALUE <$> fs') ++ tasks).
    destruct (Ht f ((FRAG_COPY_VALUE <$> fs') ++ tasks) results st s (list_sum (steps <$> ts) + n)%nat)
      as (v'&st1&s1&->&W1&R1); [done|done|lia|].
    pose proof (w_size _ _ _ _ _ W1) as Z1. pose proof (w_grow _ _ _ _ _ W1) as G1.
    destruct (IH fs' tasks (v' :: results) st1 s1 n) as (vs&st2&s2&->&W2&R2).
    + lia.
    + eapply Forall2_impl; [exact Hfs|]. intros. eapply (wrote_src _ st s); eauto. lia.
    + lia.
    + pose proof (w_grow _ _ _ _ _ W2). exists (v' :: vs), st2, s2.
      split; [cbn [rev]; by rewrite <- app_assoc|]. split.
      * unfold sumZ; cbn [foldr]. by eapply wrote_trans.
      * constructor; [by eapply wrote_repr|]. eapply Forall2_impl; [exact R2|].
        intros. eapply repr_span_mono; [| |done]; [by apply align8_mono|lia].
Qed.

Lemma frag_leaf v o tasks results st s n :
  points_to F st v o → (∀ e fs, o ≠ HeapClosure e fs) → (∀ a b, o ≠ HeapPair a b) →
  0 ≤ s → align8 s + align8 (raw_size o) ≤ need →
  ∃ v' st' s', frag_copy_loop data (S n) (mk_frag (FRAG_COPY_VALUE v :: tasks) results st s) =
      frag_copy_loop data n (mk_frag tasks (v' :: results) st' s') ∧
    wrote (align8 (raw_size o)) st s st' s' ∧ points_to (span s s') st' v' o.
Proof.
  intros Hp N1 N2 Hs Hn. destruct (repr_read _ _ _ _ Hp) as [Hr Hh].
  pose proof (place_spec st s o Hs Hn) as Hpl. cbn [frag_copy_loop fs_tasks]. unfold frag_copy_step.
  cbn [fs_store fs_tasks fs_results fs_size]. rewrite Hh, Hr. cbn [mbind outcome_bind].
  destruct (frag_place data st s o) as [[dst st'] s'] eqn:E. destruct Hpl as (_&_&W&P).
  exists (frag_box_ptr (obj_tag o) dst), st', s'. split; [|done].
  destruct o; [by destruct (N2 car cdr)|by destruct (N1 entry free)|..]; done.
Qed.

Lemma frag_pair_ok ta tb : frag_ok ta → frag_ok tb → frag_ok (TPair ta tb).
Proof.
  intros IHa IHb v tasks results st s n Hs Hr Hn.
  destruct Hr as (a&b&Hp&Ha&Hb). destruct (repr_read _ _ _ _ Hp) as [Hrd Hh].
  change (frag_bytes (TPair ta tb)) with (align8 SIZEOF_PAIR + frag_bytes ta + frag_bytes tb) in *.
  pose proof (frag_bytes_nonneg ta). pose proof (frag_bytes_nonneg tb).
  cbn [steps Nat.add frag_copy_loop fs_tasks]. unfold frag_copy_step at 1.
  cbn [fs_store fs_tasks fs_results fs_size]. rewrite Hh, Hrd. cbn [mbind outcome_bind].
  rewrite <- Nat.add_assoc.
  assert (0 ≤ align8 SIZEOF_PAIR) by (vm_compute; congruence).
  destruct (IHa a (FRAG_COPY_VALUE b :: FRAG_COPY_PAIR v :: tasks) results st s (steps tb + 1 + n)%nat)
    as (a'&st1&s1&->&W1&R1); [done|done|lia|].
  pose proof (w_size _ _ _ _ _ W1) as Z1. pose proof (w_grow _ _ _ _ _ W1) as G1. rewrite <- Nat.add_assoc.
  destruct (IHb b (FRAG_COPY_PAIR v :: tasks) (a' :: results) st1 s1 (1 + n)%nat)
    as (b'&st2&s2&->&W2&R2); [lia|eapply (wrote_src _ st s); eauto; lia|lia|].
  pose proof (w_size _ _ _ _ _ W2) as Z2. pose proof (w_grow _ _ _ _ _ W2) as G2.
  pose proof (place_spec st2 s2 (HeapPair a' b') ltac:(lia) ltac:(simpl; lia)) as Hpl.
  cbn [Nat.add frag_copy_loop fs_tasks]. unfold frag_copy_step at 1. cbn [fs_store fs_tasks fs_results fs_size].
  destruct (frag_place data st2 s2 (HeapPair a' b')) as [[dst st3] s3]. destruct Hpl as (_&_&W3&P3).
  pose proof (w_grow _ _ _ _ _ W3) as G3. cbn [mbind outcome_bind].
  exists (frag_box_ptr TAG_PAIR dst), st3, s3. split; [done|]. split.
  + replace (align8 SIZEOF_PAIR + frag_bytes ta + frag_bytes tb)
      with (frag_bytes ta + frag_bytes tb + align8 SIZEOF_PAIR) by lia.
    eapply wrote_trans; [by eapply wrote_trans|exact W3].
  + exists a', b'. split; [|split].
    * eapply points_to_mono; [|exact P3]. intros x [? ?]. split; [|done]. unfold span.
      pose proof (align8_mono s s2 ltac:(lia)). lia.
    * eapply wrote_repr; [exact W3|]. by eapply wrote_repr.
    * eapply wrote_repr; [exact W3|]. eapply repr_span_mono; [| |exact R2]; [apply align8_mono|]; lia.
Qed.
Lemma frag_clos_ok e ts : Forall frag_ok ts → frag_ok (TClos e ts).
Proof.
  intros IH v tasks results st s n Hs Hr Hn.
  apply repr_clos in Hr as (fs&Hp&Hf). destruct (repr_read _ _ _ _ Hp) as [Hrd Hh].
  assert (Hlf : length fs = length ts) by (by eapply Forall2_length).
  set (m := SIZEOF_CLOSURE + Z.of_nat (length ts) * SIZEOF_VAL).
  change (frag_bytes (TClos e ts)) with (align8 m + sumZ (frag_bytes <$> ts)) in *.
  pose proof (frag_sum_nonneg ts). set (o := HeapClosure e (replicate (length fs) 0)).
  assert (Hm : raw_size o = m) by (unfold o, raw_size, m; by rewrite length_replicate, Hlf).
  assert (0 < m) by (unfold m, SIZEOF_CLOSURE, SIZEOF_VAL; lia).
  pose proof (align8_spec m) as [_ Hma]. pose proof (align8_spec s) as [_ Hsa].
  pose proof (place_spec st s o Hs ltac:(rewrite Hm; lia)) as Hpl. rewrite Hm in Hpl.
  cbn [steps Nat.add frag_copy_loop fs_tasks]. unfold frag_copy_step at 1.
  cbn [fs_store fs_tasks fs_results fs_size]. rewrite Hh, Hrd. cbn [mbind outcome_bind]. fold o.
  destruct (frag_place data st s o) as [[dst st1] s1] eqn:Epl. destruct Hpl as (Edst&Es1&W1&P1).
  pose proof (w_size _ _ _ _ _ W1) as Z1. pose proof (w_grow _ _ _ _ _ W1) as G1. cbn [mbind outcome_bind].
  rewrite <- Nat.add_assoc.
  destruct (frag_list ts IH fs (FRAG_COPY_CLOSURE v dst :: tasks) results st1 s1 (1 + n)%nat)
    as (vs&st2&s2&->&W2&R2); [lia| |lia|].
  { eapply Forall2_impl; [exact Hf|]. intros. eapply (wrote_src _ st s); eauto. lia. }
  pose proof (w_size _ _ _ _ _ W2) as Z2. pose proof (w_grow _ _ _ _ _ W2) as G2.
  assert (Hls : length vs = length ts) by (by eapply Forall2_length).
  assert (Hdst : cells st2 !! dst = Some (Live o)).
  { rewrite (w_frame _ _ _ _ _ W2); [|unfold span; pose proof (align8_spec s1); lia].
    destruct P1 as (_&_&_&Hc). unfold frag_box_ptr in Hc. rewrite lbox_payload, Z.mod_small in Hc; [done|].
    unfold ADDR_LIMIT in Hlim. lia. }
  cbn [Nat.add frag_copy_loop fs_tasks]. unfold frag_copy_step at 1. cbn [fs_store fs_tasks fs_results fs_size].
  rewrite Hdst. unfold o at 1. cbv iota. rewrite length_replicate, Hlf, <- Hls, <- (length_rev vs).
  rewrite take_app_length, drop_app_length, rev_involutive.
  destruct (Nat.ltb_spec (length (rev vs ++ results)) (length (rev vs))) as [Hlt|_];
    [rewrite length_app in Hlt; lia|]. cbn [mbind outcome_bind].
  eexists _, _, s2. split; [done|].
  set (st3 := write_cell st2 dst (Live (HeapClosure e vs))).
  assert (W3 : wrote (align8 m + sumZ (frag_bytes <$> ts)) st s st3 s2).
  { pose proof (wrote_trans _ _ _ _ _ _ _ _ W1 W2) as [A B C D]. split; [done|done| |done].
    intros a Ha. unfold st3, write_cell. simpl. rewrite lookup_insert_ne by (unfold span in Ha; lia). by apply C. }
  split; [done|]. apply repr_clos. exists vs. split.
  + destruct P1 as (P1a&P1b&P1c&_). split; [done|]. split; [done|].
    split; [change (obj_tag o) with TAG_CLOS in P1c; unfold span in *; lia|].
    unfold frag_box_ptr. rewrite lbox_payload, Z.mod_small by (unfold ADDR_LIMIT in Hlim; lia). apply lookup_insert_eq.
  + eapply Forall2_impl; [exact R2|]. intros x y Hxy. eapply repr_mono; [|exact Hxy].
    intros a [Ha1 Ha2]. pose proof (align8_spec s1). split; [unfold span; lia|].
    unfold st3, write_cell. simpl. apply lookup_insert_ne. lia.
Qed.
Lemma frag_tree t : frag_ok t.
Proof.
  induction t as [w|ta tb IHa IHb|e ts IH|d|d|w r] using tree_ind'; intros v tasks results st s n Hs Hr Hn.
  - destruct Hr as (->&Hw&Hi). exists w, st, s. split; [|split; [apply wrote_refl|done]].
    cbn [steps Nat.add frag_copy_loop fs_tasks]. unfold frag_copy_step. rewrite Hi. done.
  - by apply (frag_pair_ok ta tb IHa IHb v tasks results).
  - by apply (frag_clos_ok e ts IH v tasks results).
  - apply (frag_leaf v (HeapString d)); done.
  - apply (frag_leaf v (HeapBytes d)); done.
  - apply (frag_leaf v (HeapResource w r)); done.
Qed.

Lemma frag_copy_spec st root t n :
  repr F st root t → frag_bytes t ≤ need →
  ∃ v st' size, frag_copy (steps t + n) st data root = Ret (v, st', size) ∧
    repr (λ a, data ≤ a < data + need) st' v t ∧ align8 size = frag_bytes t ∧
    (∀ a, a < data ∨ data + need ≤ a → cells st' !! a = cells st !! a) ∧
    payloads st' = payloads st ∧ dtor_calls st' = dtor_calls st ∧ brk st' = brk st.
Proof.
  intros Hr Hn. destruct (frag_tree t root [] [] st 0 n) as (v&st'&s'&E&W&R); [lia|done|by vm_compute (align8 0)|].
  unfold frag_copy. rewrite E.
  replace (frag_copy_loop data n (mk_frag [] [v] st' s')) with (Ret (mk_frag [] [v] st' s')) by (by destruct n).
  simpl. exists v, st', s'.
  pose proof (w_size _ _ _ _ _ W) as Zs. change (align8 0) with 0 in Zs. pose proof (align8_spec s').
  split; [done|]. split; [|split; [lia|split]].
  - eapply repr_mono; [|exact R]. unfold span. change (align8 0) with 0. intros a Ha. split; [lia|done].
  - intros a Ha. apply (w_frame _ _ _ _ _ W). unfold span. change (align8 0) with 0. lia.
  - apply (w_rest _ _ _ _ _ W).
Qed.
End Frag.

(** * Properties *)


