(* ===== verification/Runq.v ===== *)
(** The run queue of src/scheduler.c: a ring buffer of pids that doubles when
    it is full.  It refines a FIFO queue. *)
From stdpp Require Import base tactics list gmap strings.
From Stdlib Require Import ZArith Lia.
From S2P Require Import Prelude.
Open Scope Z_scope.

(** [head] and [tail] are [int]s that only grow (until the array does); the
    index into the array is taken modulo [cap].  [count] is the atomic the idle check reads without the lock. *)
Record runq := mk_runq {
  rq_array : list Z (** length [rq_cap] *);
  rq_cap : Z;
  rq_head : Z;
  rq_tail : Z;
  rq_count : Z
}.

(** [vm->runq = malloc(cap * sizeof(int))] with head = tail = 0. *)
Definition runq_new (cap : Z) : runq := mk_runq (replicate (Z.to_nat cap) 0) cap 0 0 0.

Definition rq_get (q : runq) (i : Z) : outcome Z := or_undef (rq_array q !! Z.to_nat (i mod rq_cap q)).

(** The copy loop of the growth path: [new_q[i] = runq[(head + i) % cap]]. *)
Fixpoint rq_copy (q : runq) (n : nat) : outcome (list Z) :=
  match n with
  | O => Ret []
  | S n => l ← rq_copy q n; x ← rq_get q (rq_head q + Z.of_nat n); Ret (l ++ [x])
  end.

Definition rq_grow (q : runq) : outcome runq :=
  let new_cap := rq_cap q * 2 in
  let count := rq_tail q - rq_head q in
  if negb (in_i32 new_cap) then Undef
  else
  l ← rq_copy q (Z.to_nat count);
  Ret (mk_runq (l ++ replicate (Z.to_nat new_cap - length l) 0) new_cap 0 count (rq_count q)).

Definition runq_enqueue (q : runq) (pid : Z) : outcome runq :=
  q ← (if rq_cap q <=? rq_tail q - rq_head q then rq_grow q else Ret q);
  let i := Z.to_nat (rq_tail q mod rq_cap q) in
  if (i <? length (rq_array q))%nat && in_i32 (rq_tail q + 1)
  then Ret (mk_runq (<[i := pid]> (rq_array q)) (rq_cap q) (rq_head q) (rq_tail q + 1) (rq_count q + 1))
  else Undef.

(** -1 when empty. *)
Definition runq_trydequeue (q : runq) : outcome (Z * runq) :=
  if rq_count q =? 0 then Ret (-1, q)
  else
    pid ← rq_get q (rq_head q);
    Ret (pid, mk_runq (rq_array q) (rq_cap q) (rq_head q + 1) (rq_tail q) (rq_count q - 1)).

(** * Refinement of a FIFO queue *)

(** [q] holds the pids [l], first out first. *)
Record rq_repr (q : runq) (l : list Z) : Prop := {
  rr_cap : 0 < rq_cap q;
  rr_array : length (rq_array q) = Z.to_nat (rq_cap q);
  rr_head : 0 ≤ rq_head q;
  rr_len : rq_tail q - rq_head q = Z.of_nat (length l);
  rr_fit : Z.of_nat (length l) ≤ rq_cap q;
  rr_count : rq_count q = Z.of_nat (length l);
  rr_elems : ∀ i x, l !! i = Some x →
    rq_array q !! Z.to_nat ((rq_head q + Z.of_nat i) mod rq_cap q) = Some x
}.

Lemma rq_new_repr cap : 0 < cap → rq_repr (runq_new cap) [].
Proof. intros H. split; simpl; try lia; [by rewrite length_replicate|done]. Qed.

Lemma rq_copy_spec q l : rq_repr q l → ∀ n, (n ≤ length l)%nat → rq_copy q n = Ret (take n l).
Proof.
  intros R n. induction n as [|n IH]; intros Hn; [done|]. cbn [rq_copy]. rewrite IH by lia. cbn [mbind outcome_bind].
  destruct (lookup_lt_is_Some_2 l n) as [x Hx]; [lia|]. unfold rq_get. rewrite (rr_elems _ _ R n x Hx).
  simpl. by rewrite <- (take_S_r l n x Hx).
Qed.

(** Room for one more enqueue in the counters' [int]s. *)
Definition rq_room (q : runq) : Prop := rq_tail q < 2 ^ 31 - 1 ∧ rq_cap q < 2 ^ 30.

Lemma in_i32_true z : - 2 ^ 31 ≤ z < 2 ^ 31 → in_i32 z = true.
Proof. intros H. apply andb_true_intro. split; [apply Z.leb_le|apply Z.ltb_lt]; lia. Qed.

Lemma rq_grow_repr q l :
  rq_repr q l → rq_cap q < 2 ^ 30 →
  ∃ q', rq_grow q = Ret q' ∧ rq_repr q' l ∧ rq_cap q' = rq_cap q * 2 ∧ rq_tail q' = Z.of_nat (length l).
Proof.
  intros R Hc. unfold rq_grow. cbv zeta. pose proof R as [H1 H2 H3 H4 H5 H6 H7]. rewrite H4, Nat2Z.id.
  rewrite in_i32_true by lia. cbn [negb].
  rewrite (rq_copy_spec q l R) by lia. rewrite firstn_all. cbn [mbind outcome_bind].
  eexists. split; [done|]. split; [|done].
  split; cbn [rq_array rq_cap rq_head rq_tail rq_count]; try lia.
  - rewrite length_app, length_replicate. lia.
  - intros i x Hi. pose proof (lookup_lt_Some _ _ _ Hi).
    rewrite Z.add_0_l, Z.mod_small by lia. rewrite Nat2Z.id, lookup_app_l by done. done.
Qed.

Lemma mod_neq a b n : 0 < n → a < b → b - a < n → a mod n ≠ b mod n.
Proof.
  intros Hn Hab Hlt E. pose proof (Z.div_mod a n ltac:(lia)). pose proof (Z.div_mod b n ltac:(lia)).
  pose proof (Z.mod_pos_bound a n Hn). assert (b - a = n * (b / n - a / n)) by lia.
  assert (b / n - a / n ≤ 0 ∨ 1 ≤ b / n - a / n) as [?|?] by lia; nia.
Qed.

Lemma rq_put_repr q l pid :
  rq_repr q l → Z.of_nat (length l) < rq_cap q →
  rq_repr (mk_runq (<[Z.to_nat (rq_tail q mod rq_cap q) := pid]> (rq_array q)) (rq_cap q) (rq_head q)
                   (rq_tail q + 1) (rq_count q + 1)) (l ++ [pid]).
Proof.
  intros [H1 H2 H3 H4 H5 H6 H7] Hlt. pose proof (Z.mod_pos_bound (rq_tail q) (rq_cap q) H1).
  split; simpl; rewrite ?length_app, ?length_insert; simpl; try lia.
  intros i x Hi. apply lookup_app_Some in Hi as [Hi|[Hge Hi]].
  - pose proof (lookup_lt_Some _ _ _ Hi). rewrite list_lookup_insert_ne; [by apply H7|].
    pose proof (mod_neq (rq_head q + Z.of_nat i) (rq_tail q) (rq_cap q) H1 ltac:(lia) ltac:(lia)).
    pose proof (Z.mod_pos_bound (rq_head q + Z.of_nat i) (rq_cap q) H1). lia.
  - apply list_lookup_singleton_Some in Hi as [Hi <-].
    replace (rq_head q + Z.of_nat i) with (rq_tail q) by lia.
    apply list_lookup_insert_eq. rewrite H2. lia.
Qed.

Lemma enqueue_spec q l pid :
  rq_repr q l → rq_room q →
  ∃ q', runq_enqueue q pid = Ret q' ∧ rq_repr q' (l ++ [pid]) ∧ rq_tail q' ≤ rq_tail q + 1 ∧
    (rq_cap q' = rq_cap q ∨ rq_cap q' = 2 * Z.of_nat (length l)).
Proof.
  intros R [Hr1 Hr2]. unfold runq_enqueue.
  assert (∃ q1, (if rq_cap q <=? rq_tail q - rq_head q then rq_grow q else Ret q) = Ret q1 ∧ rq_repr q1 l ∧
    Z.of_nat (length l) < rq_cap q1 ∧ rq_tail q1 ≤ rq_tail q ∧ (rq_cap q1 = rq_cap q ∨ rq_cap q1 = 2 * Z.of_nat (length l)))
    as (q1&->&R1&Hlt&Ht1&Hc1).
  { pose proof (rr_len _ _ R). pose proof (rr_fit _ _ R). pose proof (rr_cap _ _ R). pose proof (rr_head _ _ R).
    destruct (Z.leb_spec (rq_cap q) (rq_tail q - rq_head q)); [|exists q; split; [done|split; [done|lia]]].
    destruct (rq_grow_repr q l R) as (q'&->&R'&Hc&Ht); [done|]. exists q'. split; [done|]. split; [done|]. lia. }
  cbn [mbind outcome_bind]. pose proof (rr_array _ _ R1) as Ha. pose proof (rr_cap _ _ R1) as Hc.
  pose proof (Z.mod_pos_bound (rq_tail q1) (rq_cap q1) Hc).
  destruct (Nat.ltb_spec (Z.to_nat (rq_tail q1 mod rq_cap q1)) (length (rq_array q1))); [|lia].
  pose proof (rr_len _ _ R1). pose proof (rr_head _ _ R1). rewrite in_i32_true by lia. cbn [andb].
  eexists. split; [done|]. split; [by apply rq_put_repr|]. simpl. lia.
Qed.

Lemma dequeue_spec q l :
  rq_repr q l →
  ∃ q', runq_trydequeue q = Ret (default (-1) (head l), q') ∧ rq_repr q' (tail l) ∧
    rq_tail q' = rq_tail q ∧ rq_cap q' = rq_cap q.
Proof.
  intros R. unfold runq_trydequeue. pose proof (rr_count _ _ R) as Hc. rewrite Hc.
  destruct l as [|x l]; simpl length; [by exists q|].
  destruct (Z.eqb_spec (Z.of_nat (S (length l))) 0); [lia|].
  unfold rq_get. pose proof (rr_elems _ _ R 0%nat x eq_refl) as Hx. rewrite Z.add_0_r in Hx. rewrite Hx.
  cbn [or_undef mbind outcome_bind]. eexists. split; [done|]. split; [|done].
  destruct R as [H1 H2 H3 H4 H5 H6 H7]. simpl in *. split; simpl; try lia.
  intros i y Hi. specialize (H7 (S i) y Hi).
  replace (rq_head q + 1 + Z.of_nat i) with (rq_head q + Z.of_nat (S i)) by lia. done.
Qed.

(** ** Operations in sequence *)
Inductive rq_op := Enq (pid : Z) | Deq.

(** The queue as the specification sees it. *)
Definition rq_spec_op (l : list Z) (op : rq_op) : list Z * option Z :=
  match op with
  | Enq pid => (l ++ [pid], None)
  | Deq => (tail l, Some (default (-1) (head l)))
  end.
Definition rq_impl_op (q : runq) (op : rq_op) : outcome (runq * option Z) :=
  match op with
  | Enq pid => q ← runq_enqueue q pid; Ret (q, None)
  | Deq => '(pid, q) ← runq_trydequeue q; Ret (q, Some pid)
  end.
Fixpoint rq_spec_run (l : list Z) (ops : list rq_op) : list (option Z) :=
  match ops with
  | [] => []
  | op :: ops => let '(l, r) := rq_spec_op l op in r :: rq_spec_run l ops
  end.
Fixpoint rq_impl_run (q : runq) (ops : list rq_op) : outcome (list (option Z)) :=
  match ops with
  | [] => Ret []
  | op :: ops => '(q, r) ← rq_impl_op q op; rs ← rq_impl_run q ops; Ret (r :: rs)
  end.

Lemma rq_run_refines q l ops :
  rq_repr q l → rq_tail q + Z.of_nat (length ops) < 2 ^ 30 → rq_cap q < 2 ^ 30 →
  Z.of_nat (length l + length ops) < 2 ^ 29 → rq_impl_run q ops = Ret (rq_spec_run l ops).
Proof.
  revert q l. induction ops as [|[pid|] ops IH]; intros q l R Ht Hc Hl; [done| |];
    cbn [rq_impl_run rq_impl_op rq_spec_run rq_spec_op]; simpl length in *.
  - destruct (enqueue_spec q l pid R) as (q'&->&R'&Ht'&Hc'); [split; lia|]. cbn [mbind outcome_bind].
    rewrite (IH q' _ R'); [done|lia|lia|]. rewrite length_app. simpl. lia.
  - destruct (dequeue_spec q l R) as (q'&->&R'&Ht'&Hc'). cbn [mbind outcome_bind]. rewrite (IH q' _ R'); [done|lia|lia|].
    destruct l; simpl in *; lia.
Qed.

(** ** The counters overflow *)

(** [n] times: enqueue process 1, take it out again. *)
Fixpoint switches (n : nat) : list rq_op :=
  match n with O => [] | S n => Enq 1 :: Deq :: switches n end.

Lemma switch_step q :
  rq_repr q [] → rq_room q → ∀ ops,
  ∃ q', rq_repr q' [] ∧ rq_tail q' = rq_tail q + 1 ∧ rq_cap q' = rq_cap q ∧
    rq_impl_run q (Enq 1 :: Deq :: ops) = (rs ← rq_impl_run q' ops; Ret (None :: Some 1 :: rs)).
Proof.
  intros R Hr ops. cbn [rq_impl_run rq_impl_op].
  assert (∃ q1, runq_enqueue q 1 = Ret q1 ∧ rq_repr q1 [1] ∧ rq_tail q1 = rq_tail q + 1 ∧ rq_cap q1 = rq_cap q)
    as (q1&->&R1&Ht&Hc).
  { destruct (enqueue_spec q [] 1 R Hr) as (q1&E&R1&_&_). exists q1. split; [done|]. split; [done|].
    unfold runq_enqueue in E. pose proof (rr_len _ _ R). pose proof (rr_cap _ _ R). simpl in *.
    destruct (Z.leb_spec (rq_cap q) (rq_tail q - rq_head q)); [lia|]. cbn [mbind outcome_bind] in E.
    case_in E; [|done]. by injection E as <-. }
  cbn [mbind outcome_bind]. destruct (dequeue_spec q1 [1] R1) as (q2&->&R2&Ht2&Hc2). cbn [mbind outcome_bind].
  exists q2. split; [done|]. split; [lia|]. split; [lia|]. by destruct (rq_impl_run q2 ops).
Qed.

Lemma switches_overflow n : ∀ q,
  rq_repr q [] → rq_cap q < 2 ^ 30 → rq_tail q + Z.of_nat n = 2 ^ 31 - 1 →
  rq_impl_run q (switches n ++ [Enq 1]) = Undef.
Proof.
  induction n as [|n IH]; intros q R Hc Ht; cbn [switches app].
  - cbn [rq_impl_run rq_impl_op]. unfold runq_enqueue. pose proof (rr_len _ _ R). pose proof (rr_cap _ _ R). simpl in *.
    destruct (Z.leb_spec (rq_cap q) (rq_tail q - rq_head q)); [lia|]. cbn [mbind outcome_bind].
    assert (in_i32 (rq_tail q + 1) = false) as ->; [|by rewrite andb_false_r].
    apply andb_false_iff. right. apply Z.ltb_ge. lia.
  - destruct (switch_step q R ltac:(unfold rq_room; lia) (switches n ++ [Enq 1])) as (q'&R'&Ht'&Hc'&->).
    rewrite (IH q' R'); [done|lia|lia].
Qed.

(** C16: the run queue is a FIFO queue as long as its counters last.  Every
    sequence of fewer than 2^29 enqueues and dequeues on a fresh ring buffer
    returns what a list would: growth keeps the order and loses nothing, and no
    index ever leaves the array.  But a process that is enqueued and taken out
    2^31 - 1 times, as happens to any long-running program, leaves [rq_tail] at
    the maximum of [int]; the next enqueue increments it past that, which is
    undefined, although the queue is empty. *)
Theorem runq_refines_fifo cap :
  0 < cap < 2 ^ 30 →
  (∀ ops, Z.of_nat (length ops) < 2 ^ 29 → rq_impl_run (runq_new cap) ops = Ret (rq_spec_run [] ops)) ∧
  rq_impl_run (runq_new cap) (switches (Z.to_nat (2 ^ 31 - 1)) ++ [Enq 1]) = Undef.
Proof.
  intros H. split.
  - intros ops Hn. apply rq_run_refines; cbn [rq_tail rq_cap runq_new length Nat.add]; [apply rq_new_repr|..]; lia.
  - apply switches_overflow; cbn [rq_tail rq_cap runq_new]; [apply rq_new_repr|..]; lia.
Qed.

Lemma runq_refines_fifo_witness :
  rq_impl_run (runq_new 2) [Enq 1; Enq 2; Enq 3; Deq; Enq 4; Deq; Deq; Deq; Deq] =
  Ret (rq_spec_run [] [Enq 1; Enq 2; Enq 3; Deq; Enq 4; Deq; Deq; Deq; Deq]).
Proof. apply (runq_refines_fifo 2); [split; reflexivity|reflexivity]. Defined.
