(* ===== verification/Mailbox.v ===== *)
(** The mailbox of an actor: the linked list of fragments of src/scheduler.c
    ([mbox_deliver], [mbox_pop]) and the scan cursor of the selective receive
    of src/builtin.c ([b_recv_peek], [b_recv_commit]).  The list refines a FIFO
    sequence from which a committed match may be removed at any position. *)
From stdpp Require Import base tactics list gmap strings.
From Stdlib Require Import ZArith Lia.
From S2P Require Import Prelude Values.
Open Scope Z_scope.

(** The list part of a [MsgFragment]; [f_root] is the message. *)
Record MsgFragment := mk_fragment { f_next : Z; f_root : Val }.

Record mailbox := mk_mailbox {
  mbox_frag_head : Z (** 0 = NULL *);
  mbox_frag_tail : Z;
  mbox_count : Z;
  peek_index : Z;
  frags : gmap Z MsgFragment (** the allocated fragments, by address *)
}.

Definition mailbox_init : mailbox := mk_mailbox 0 0 0 0 ∅.

(** Dereference a fragment pointer. *)
Definition frag_at (m : mailbox) (a : Z) : outcome MsgFragment := or_undef (frags m !! a).

(** The enqueue of [mbox_deliver]: the fragment at [a] holds [root]. *)
Definition mbox_append (m : mailbox) (a : Z) (root : Val) : outcome mailbox :=
  let fr := <[a := mk_fragment 0 root]> (frags m) in
  if negb (mbox_frag_tail m =? 0) then
    t ← frag_at m (mbox_frag_tail m);
    Ret (mk_mailbox (mbox_frag_head m) a (mbox_count m + 1) (peek_index m)
           (<[mbox_frag_tail m := mk_fragment a (f_root t)]> fr))
  else Ret (mk_mailbox a a (mbox_count m + 1) (peek_index m) fr).

(** The head detach of [mbox_pop], and the [free] that follows the copy. *)
Definition mbox_detach (m : mailbox) : outcome (Val * mailbox) :=
  let a := mbox_frag_head m in
  f ← frag_at m a;
  let head := f_next f in
  let tail := if head =? 0 then 0 else mbox_frag_tail m in
  Ret (f_root f, mk_mailbox head tail (mbox_count m - 1) (peek_index m) (delete a (frags m))).

(** [for (i = 0; i < n; i++) frag = frag->next]. *)
Fixpoint frag_walk (m : mailbox) (a : Z) (n : nat) : outcome Z :=
  match n with
  | O => Ret a
  | S n => f ← frag_at m a; frag_walk m (f_next f) n
  end.

(** The scan of [b_recv_peek]: the message at the cursor, which moves on, or
    [None] when every message has been seen. *)
Definition mbox_peek (m : mailbox) : outcome (option Val * mailbox) :=
  if peek_index m <? mbox_count m then
    a ← frag_walk m (mbox_frag_head m) (Z.to_nat (peek_index m));
    f ← frag_at m a;
    Ret (Some (f_root f),
         mk_mailbox (mbox_frag_head m) (mbox_frag_tail m) (mbox_count m) (peek_index m + 1) (frags m))
  else Ret (None, m).

(** [b_recv_commit]: drop the message just peeked and restart the scan. *)
Definition mbox_commit (m : mailbox) : outcome mailbox :=
  let target := peek_index m - 1 in
  if target =? 0 then
    let a := mbox_frag_head m in
    f ← frag_at m a;
    let head := f_next f in
    let tail := if head =? 0 then 0 else mbox_frag_tail m in
    Ret (mk_mailbox head tail (mbox_count m - 1) 0 (delete a (frags m)))
  else
    prev ← frag_walk m (mbox_frag_head m) (Z.to_nat (target - 1));
    pf ← frag_at m prev;
    let a := f_next pf in
    f ← frag_at m a;
    let tail := if a =? mbox_frag_tail m then prev else mbox_frag_tail m in
    Ret (mk_mailbox (mbox_frag_head m) tail (mbox_count m - 1) 0
           (delete a (<[prev := mk_fragment (f_next f) (f_root pf)]> (frags m)))).

(** * Refinement *)

(** From [a] the [next] pointers go through [l], whose fragments hold [ms]. *)
Fixpoint chain (fr : gmap Z MsgFragment) (a : Z) (l : list (Z * Val)) : Prop :=
  match l with
  | [] => a = 0
  | (x, m) :: l => a = x ∧ x ≠ 0 ∧ ∃ n, fr !! x = Some (mk_fragment n m) ∧ chain fr n l
  end.

Record mbox_repr (m : mailbox) (l : list (Z * Val)) : Prop := {
  mr_chain : chain (frags m) (mbox_frag_head m) l;
  mr_nodup : NoDup l.*1;
  mr_tail : mbox_frag_tail m = default 0 (last l.*1);
  mr_count : mbox_count m = Z.of_nat (length l)
}.

Lemma chain_frame fr fr' a l :
  (∀ x, x ∈ l.*1 → fr' !! x = fr !! x) → chain fr a l → chain fr' a l.
Proof.
  revert a. induction l as [|[x m] l IH]; intros a Hf; [done|]. csimpl.
  intros (->&Hx&n&Hn&Hc). split; [done|]. split; [done|]. exists n. rewrite Hf by (csimpl; by left). split; [done|].
  apply IH; [|done]. intros y Hy. apply Hf. csimpl. by right.
Qed.

Lemma chain_head fr a l : chain fr a l → a = default 0 (head l.*1).
Proof. destruct l as [|[x m] l]; [done|]. by intros (->&_). Qed.

Lemma chain_nonzero fr a l x : chain fr a l → x ∈ l.*1 → x ≠ 0.
Proof.
  revert a. induction l as [|[y m] l IH]; intros a; csimpl; [by intros _ ?%elem_of_nil|].
  intros (->&Hy&n&_&Hc) [->|Hin]%elem_of_cons; eauto.
Qed.

Lemma chain_walk m l : ∀ a, chain (frags m) a l → ∀ i x v, l !! i = Some (x, v) → frag_walk m a i = Ret x.
Proof.
  induction l as [|[y w] l IH]; intros a Hc [|i] x v Hi; csimpl in Hi; try done.
  - destruct Hc as (->&_). naive_solver.
  - destruct Hc as (->&_&n&Hn&Hc). cbn [frag_walk]. unfold frag_at. rewrite Hn. simpl. eauto.
Qed.

(** What a fragment of the chain holds. *)
Lemma chain_lookup fr l : ∀ a, chain fr a l → ∀ i x v, l !! i = Some (x, v) →
  fr !! x = Some (mk_fragment (default 0 (l.*1 !! S i)) v).
Proof.
  induction l as [|[y w] l IH]; intros a Hc i x v Hi; [done|]. destruct Hc as (->&_&n&Hn&Hc).
  destruct i as [|i]; csimpl in Hi.
  - injection Hi as -> ->. rewrite Hn. f_equal. f_equal. csimpl. apply chain_head in Hc. by destruct l as [|[? ?] ?].
  - csimpl. eauto.
Qed.

(** Appending after the last fragment. *)
Lemma chain_snoc fr a l t v b w :
  chain fr a (l ++ [(t, v)]) → NoDup (l ++ [(t, v)]).*1 → b ≠ 0 → b ∉ (l ++ [(t, v)]).*1 →
  chain (<[t := mk_fragment b v]> (<[b := mk_fragment 0 w]> fr)) a (l ++ [(t, v); (b, w)]).
Proof.
  revert a. induction l as [|[x m] l IH]; intros a Hc Hn Hb Hnot; csimpl in *.
  - destruct Hc as (->&Ht&n&Hn'&->). split; [done|]. split; [done|]. exists b. rewrite lookup_insert_eq. split; [done|].
    split; [done|]. split; [done|]. exists 0. split; [|done].
    rewrite lookup_insert_ne by set_solver. by rewrite lookup_insert_eq.
  - destruct Hc as (->&Hx&n&Hn'&Hc). apply NoDup_cons in Hn as [Hx' Hn]. rewrite not_elem_of_cons in Hnot. destruct Hnot as [Hbx Hnot].
    split; [done|]. split; [done|]. exists n. split; [|by apply IH].
    rewrite lookup_insert_ne.
    + by rewrite lookup_insert_ne.
    + intros ->. apply Hx'. rewrite fmap_app. apply elem_of_app. right. by left.
Qed.

Lemma append_spec m l a root :
  mbox_repr m l → a ≠ 0 → a ∉ l.*1 →
  ∃ m', mbox_append m a root = Ret m' ∧ mbox_repr m' (l ++ [(a, root)]) ∧ peek_index m' = peek_index m.
Proof.
  intros [Hc Hn Ht Hk] Ha Hnot. unfold mbox_append.
  destruct l as [|[t v] l _] using rev_ind.
  - simpl in Ht. rewrite Ht. simpl. eexists. split; [done|]. split; [|done]. split; simpl.
    + split; [done|]. split; [done|]. exists 0. by rewrite lookup_insert_eq.
    + apply NoDup_singleton.
    + done.
    + simpl in Hk. lia.
  - rewrite fmap_app in Ht. csimpl in Ht. rewrite last_snoc in Ht. simpl in Ht.
    assert (t ≠ 0) as Ht0 by (eapply chain_nonzero; [done|rewrite fmap_app; apply elem_of_app; right; by left]).
    destruct (Z.eqb_spec (mbox_frag_tail m) 0) as [E|_]; [congruence|]. simpl.
    assert (frags m !! t = Some (mk_fragment 0 v)) as Hft.
    { erewrite (chain_lookup (frags m) (l ++ [(t, v)]) _ Hc (length l) t v).
      - f_equal. f_equal. rewrite lookup_ge_None_2; [done|]. rewrite length_fmap, length_app. simpl. lia.
      - by rewrite lookup_app_r, Nat.sub_diag by lia. }
    unfold frag_at. rewrite Ht, Hft. simpl. eexists. split; [done|]. split; [|done].
    rewrite <- app_assoc. simpl. split; simpl.
    + by apply chain_snoc.
    + rewrite !fmap_app in *. csimpl in *. rewrite (app_assoc _ [t] [a]). apply NoDup_app. split; [done|].
      split; [|apply NoDup_singleton]. intros x Hx ->%list_elem_of_singleton. done.
    + rewrite !fmap_app. csimpl. by rewrite (app_assoc _ [t] [a]), last_snoc.
    + rewrite !length_app in *. simpl in *. lia.
Qed.

Lemma detach_spec m a v l :
  mbox_repr m ((a, v) :: l) →
  ∃ m', mbox_detach m = Ret (v, m') ∧ mbox_repr m' l ∧ peek_index m' = peek_index m.
Proof.
  intros [Hc Hn Ht Hk]. destruct Hc as (Hh&Ha&n&Hf&Hc). csimpl in Hn. apply NoDup_cons in Hn as [Hnot Hn].
  unfold mbox_detach, frag_at. rewrite Hh, Hf. simpl. eexists. split; [done|]. split; [|done]. split; simpl.
  - eapply chain_frame; [|done]. intros x Hx. apply lookup_delete_ne. set_solver.
  - done.
  - apply chain_head in Hc as Hn0. destruct (Z.eqb_spec n 0) as [->|Hn1].
    + destruct l as [|[x w] l]; [done|]. simpl in Hn0. destruct Hc as (_&Hx&_). congruence.
    + destruct l as [|[x w] l]; [done|]. by rewrite Ht.
  - simpl in Hk. lia.
Qed.

Lemma peek_spec m l :
  mbox_repr m l → 0 ≤ peek_index m →
  ∃ m', mbox_peek m = Ret (l.*2 !! Z.to_nat (peek_index m), m') ∧ mbox_repr m' l ∧
    peek_index m' = (if bool_decide (peek_index m < mbox_count m) then peek_index m + 1 else peek_index m).
Proof.
  intros R Hpi. pose proof R as [Hc Hn Ht Hk]. unfold mbox_peek.
  destruct (Z.ltb_spec (peek_index m) (mbox_count m)) as [Hlt|Hge].
  - destruct (lookup_lt_is_Some_2 l (Z.to_nat (peek_index m))) as [[x v] Hx]; [lia|].
    rewrite (chain_walk m l _ Hc _ _ _ Hx). cbn [mbind outcome_bind]. unfold frag_at.
    rewrite (chain_lookup _ _ _ Hc _ _ _ Hx). simpl. eexists.
    split; [by rewrite list_lookup_fmap, Hx|]. split; [by split|].
    by rewrite bool_decide_eq_true_2.
  - exists m. rewrite bool_decide_eq_false_2 by lia. split; [|done].
    rewrite lookup_ge_None_2; [done|]. rewrite length_fmap. lia.
Qed.

(** Unlinking the fragment after position [i]. *)
Lemma chain_unlink fr a l x v y w l' n :
  chain fr a (l ++ (x, v) :: (y, w) :: l') → NoDup (l ++ (x, v) :: (y, w) :: l').*1 →
  fr !! y = Some (mk_fragment n w) →
  chain (delete y (<[x := mk_fragment n v]> fr)) a (l ++ (x, v) :: l').
Proof.
  revert a. induction l as [|[z u] l IH]; intros a Hc Hn Hy; csimpl in *.
  - apply NoDup_cons in Hn as [Hx Hn]. apply NoDup_cons in Hn as [Hy' Hn].
    destruct Hc as (->&Hx0&n1&_&->&Hy0&n2&Hn2&Hc). rewrite Hy in Hn2. injection Hn2 as ->.
    split; [done|]. split; [done|]. exists n2. split.
    + rewrite lookup_delete_ne by set_solver. apply lookup_insert_eq.
    + eapply chain_frame; [|done]. intros q Hq. rewrite lookup_delete_ne, lookup_insert_ne; set_solver.
  - destruct Hc as (->&Hz&m&Hm&Hc). apply NoDup_cons in Hn as [Hz' Hn].
    split; [done|]. split; [done|]. exists m. split; [|by apply IH].
    rewrite fmap_app in Hz'. csimpl in Hz'. rewrite lookup_delete_ne, lookup_insert_ne; set_solver.
Qed.

(** A commit removes the message just peeked and keeps the others in order. *)
Lemma commit_spec m l :
  mbox_repr m l → 1 ≤ peek_index m ≤ mbox_count m →
  ∃ m', mbox_commit m = Ret m' ∧ mbox_repr m' (delete (Z.to_nat (peek_index m - 1)) l) ∧ peek_index m' = 0.
Proof.
  intros R Hi. pose proof R as [Hc Hn Ht Hk]. unfold mbox_commit.
  destruct (Z.eqb_spec (peek_index m - 1) 0) as [E|E].
  - rewrite E. destruct l as [|[a v] l]; [simpl in Hk; lia|].
    destruct (detach_spec m a v l R) as (m'&Hd&R'&_). unfold mbox_detach in Hd.
    apply bind_Ret in Hd as (f&->&Hd). cbn [mbind outcome_bind]. injection Hd as _ <-.
    eexists. split; [done|]. simpl. split; [|done]. by destruct R'.
  - set (i := Z.to_nat (peek_index m - 1)). assert (Hil : (i < length l)%nat) by (unfold i; lia).
    destruct (lookup_lt_is_Some_2 l (i - 1)) as [[x v] Hx]; [lia|].
    destruct (lookup_lt_is_Some_2 l i) as [[y w] Hy]; [lia|].
    replace (Z.to_nat (peek_index m - 1 - 1)) with (i - 1)%nat by (unfold i; lia).
    rewrite (chain_walk m l _ Hc _ _ _ Hx). cbn [mbind outcome_bind]. unfold frag_at.
    rewrite (chain_lookup _ _ _ Hc _ _ _ Hx). cbn [or_undef mbind outcome_bind f_next f_root].
    replace (S (i - 1)) with i by (unfold i in *; lia). rewrite list_lookup_fmap, Hy.
    change (default 0 (fst <$> Some (y, w))) with y.
    pose proof (chain_lookup _ _ _ Hc _ _ _ Hy) as Hfy. rewrite Hfy. cbn [or_undef mbind outcome_bind f_next f_root].
    assert (Hsplit : l = take (i - 1) l ++ (x, v) :: (y, w) :: drop (S i) l).
    { rewrite <- (take_drop_middle l (i - 1) (x, v) Hx) at 1. f_equal. f_equal.
      replace (S (i - 1)) with i by lia. by apply drop_S. }
    assert (Hdel : delete i l = take (i - 1) l ++ (x, v) :: drop (S i) l).
    { rewrite delete_take_drop. replace i with (S (i - 1)) at 1 by lia.
      rewrite (take_S_r _ _ _ Hx), <- app_assoc. done. }
    eexists. split; [done|]. split; [|done]. rewrite Hdel. split; simpl.
    + rewrite Hsplit in Hc, Hn. by eapply chain_unlink.
    + rewrite <- Hdel. eapply sublist_NoDup; [exact Hn|]. apply fmap_sublist, sublist_delete.
    + assert (Hl : last l.*1 = last (y :: (drop (S i) l).*1)).
      { rewrite Hsplit at 1. by rewrite fmap_app, !fmap_cons, last_app_cons. }
      rewrite Ht, Hl, fmap_app, fmap_cons, last_app_cons. change ((x, v).1) with x.
      destruct (drop (S i) l) as [|[z u] l'] eqn:Hd.
      * simpl. by rewrite Z.eqb_refl.
      * rewrite !fmap_cons. change ((z, u).1) with z. rewrite !last_cons_cons.
        destruct (last (z :: l'.*1)) as [q|] eqn:Hq; [|by apply last_None in Hq].
        change (default 0 (Some q)) with q. destruct (Z.eqb_spec y q) as [->|]; [|done].
        exfalso. rewrite Hsplit, fmap_app in Hn. csimpl in Hn.
        apply NoDup_app in Hn as (_&_&Hn). apply NoDup_cons in Hn as [_ Hn]. apply NoDup_cons in Hn as [Hn _].
        apply Hn. apply last_Some in Hq as [l'' Hq]. rewrite Hq. apply elem_of_app. right. by left.
    + rewrite <- Hdel, length_delete by (by eexists). lia.
Qed.

(** ** Sequences of operations *)

(** What happens to a mailbox: a delivery into the fresh fragment [a], a plain
    receive, a peek and a commit. *)
Inductive mbox_op := Deliver (a : Z) (v : Val) | Recv | Peek | Commit.

Definition mb_impl_op (m : mailbox) (op : mbox_op) : outcome (option Val * mailbox) :=
  match op with
  | Deliver a v => m ← mbox_append m a v; Ret (None, m)
  | Recv => if mbox_count m =? 0 then Ret (None, m)
            else '(v, m) ← mbox_detach m; Ret (Some v, m)
  | Peek => mbox_peek m
  | Commit => m ← mbox_commit m; Ret (None, m)
  end.

(** The specification: a sequence of messages and a cursor.  A commit is only
    defined after a peek. *)
Definition mb_spec_op (s : list Val * nat) (op : mbox_op) : option (option Val * (list Val * nat)) :=
  let '(l, c) := s in
  match op with
  | Deliver _ v => Some (None, (l ++ [v], c))
  | Recv => Some (head l, (tail l, c))
  | Peek => Some (l !! c, (l, if (c <? length l)%nat then S c else c))
  | Commit => if ((0 <? c) && (c <=? length l))%nat then Some (None, (delete (pred c) l, 0%nat)) else None
  end.

Fixpoint mb_impl_run (m : mailbox) (ops : list mbox_op) : outcome (list (option Val)) :=
  match ops with
  | [] => Ret []
  | op :: ops => '(r, m) ← mb_impl_op m op; rs ← mb_impl_run m ops; Ret (r :: rs)
  end.
Fixpoint mb_spec_run (s : list Val * nat) (ops : list mbox_op) : option (list (option Val)) :=
  match ops with
  | [] => Some []
  | op :: ops => '(r, s) ← mb_spec_op s op; rs ← mb_spec_run s ops; Some (r :: rs)
  end.

(** The addresses of the fragments delivered. *)
Definition addresses (ops : list mbox_op) : list Z :=
  omap (λ op, match op with Deliver a _ => Some a | _ => None end) ops.

Definition simulates (m : mailbox) (s : list Val * nat) (later : list Z) : Prop :=
  ∃ l, mbox_repr m l ∧ l.*2 = s.1 ∧ peek_index m = Z.of_nat s.2 ∧ ∀ a, a ∈ later → a ∉ l.*1.

Lemma mb_op_simulates m s op r s' later :
  simulates m s (addresses [op] ++ later) → NoDup (addresses [op] ++ later) → (∀ a, a ∈ addresses [op] → a ≠ 0) →
  mb_spec_op s op = Some (r, s') → ∃ m', mb_impl_op m op = Ret (r, m') ∧ simulates m' s' later.
Proof.
  destruct s as [ms c]. intros (l&R&El&Ec&Hf) Hnd H0 E. simpl in El, Ec. subst ms.
  destruct op as [a v| | |]; simpl in E |- *.
  - injection E as <- <-. destruct (append_spec m l a v R) as (m'&->&R'&Hp); [apply H0; by left|apply Hf; by left|].
    exists m'. split; [done|]. exists (l ++ [(a, v)]). split; [done|]. rewrite fmap_app. split; [done|].
    split; [simpl; lia|]. intros x Hx. rewrite fmap_app, elem_of_app. intros [Hin|Hin].
    + apply (Hf x); [by right|done].
    + apply list_elem_of_singleton in Hin. simpl in Hin. subst x. simpl in Hnd. apply NoDup_cons in Hnd as [? _]. done.
  - rewrite (mr_count _ _ R). destruct l as [|[a v] l]; simpl in E; injection E as <- <-; simpl length.
    + exists m. split; [done|]. by exists [].
    + destruct (Z.eqb_spec (Z.of_nat (S (length l))) 0); [lia|].
      destruct (detach_spec m a v l R) as (m'&->&R'&Hp). exists m'. split; [done|]. exists l.
      split; [done|]. split; [done|]. split; [simpl; lia|]. intros x Hx Hin. apply (Hf x); [done|]. csimpl. by right.
  - injection E as <- <-. destruct (peek_spec m l R) as (m'&->&R'&Hp); [lia|]. exists m'.
    rewrite Ec, Nat2Z.id. split; [done|]. exists l. split; [done|]. split; [done|]. split; [|done].
    rewrite Hp, Ec, (mr_count _ _ R). cbn [snd]. rewrite length_fmap.
    clear Hp. case_bool_decide as Hb.
    + rewrite (proj2 (Nat.ltb_lt c (length l))) by lia. lia.
    + rewrite (proj2 (Nat.ltb_ge c (length l))) by lia. lia.
  - destruct ((0 <? c) && (c <=? length l.*2))%nat eqn:Hc; [|done]. injection E as <- <-.
    apply andb_true_iff in Hc as [H1%Nat.ltb_lt H2%Nat.leb_le]. rewrite length_fmap in H2.
    destruct (commit_spec m l R) as (m'&->&R'&Hp); [rewrite (mr_count _ _ R); lia|].
    exists m'. split; [done|]. rewrite Ec in R'. replace (Z.to_nat (Z.of_nat c - 1)) with (pred c) in R' by lia.
    exists (delete (pred c) l). split; [done|]. split; [by rewrite list_fmap_delete|]. split; [done|].
    intros x Hx Hin. apply (Hf x Hx). eapply (elem_of_submseteq _ _ _ Hin), sublist_submseteq, fmap_sublist, sublist_delete.
Qed.

Lemma addresses_cons op ops : addresses (op :: ops) = addresses [op] ++ addresses ops.
Proof. unfold addresses. simpl. by case_match. Qed.

Lemma mb_run_simulates ops : ∀ m s rs,
  simulates m s (addresses ops) → NoDup (addresses ops) → 0 ∉ addresses ops →
  mb_spec_run s ops = Some rs → mb_impl_run m ops = Ret rs.
Proof.
  induction ops as [|op ops IH]; intros m s rs S Hnd H0 E; [by injection E as <-|]. cbn [mb_impl_run mb_spec_run] in *.
  rewrite addresses_cons in *. apply bind_Some in E as ([r s']&E1&E). apply bind_Some in E as (rs'&E2&E).
  injection E as <-. destruct (mb_op_simulates m s op r s' _ S Hnd) as (m'&->&S').
  { intros a Ha ->. apply H0, elem_of_app. by left. } { done. }
  cbn [mbind outcome_bind]. rewrite (IH m' s' rs'); try done.
  - apply NoDup_app in Hnd as (_&_&?). done.
  - intros Hin. apply H0, elem_of_app. by right.
Qed.

(** C15: the mailbox is a FIFO sequence with selective removal.  Any series of
    deliveries (into fresh fragments), receives, peeks and commits (each after a
    peek) on the linked list returns what the sequence-and-cursor specification
    returns: order is kept, nothing is lost, a commit removes exactly the message
    last peeked, and no dangling or NULL pointer is followed. *)
Theorem mailbox_refines_sequence ops rs :
  NoDup (addresses ops) → 0 ∉ addresses ops → mb_spec_run ([], 0%nat) ops = Some rs →
  mb_impl_run mailbox_init ops = Ret rs.
Proof.
  intros Hn H0 E. eapply mb_run_simulates; try done. exists []. split; [split; try done; constructor|].
  split; [done|]. split; [done|]. by intros a _ ?%elem_of_nil.
Qed.

Lemma mailbox_refines_sequence_witness :
  mb_impl_run mailbox_init [Deliver 16 1; Deliver 32 2; Deliver 48 3; Peek; Peek; Commit; Peek; Recv; Recv; Recv] =
    Ret [None; None; None; Some 1; Some 2; None; Some 1; Some 1; Some 3; None].
Proof.
  apply mailbox_refines_sequence; [|vm_compute; intros H; repeat (apply elem_of_cons in H as [?|H]; [done|]); by apply elem_of_nil in H|reflexivity].
  vm_compute. repeat (apply NoDup_cons; split; [intros H; repeat (apply elem_of_cons in H as [?|H]; [done|]); by apply elem_of_nil in H|]).
  constructor.
Defined.
