(* ===== verification/Symtab.v ===== *)
(** The symbol table of src/api.c: an array of names and an open-addressing
    hash of their indices with linear probing.  The same probing serves the
    table of C functions.

    [probe] is the loop of all four hash routines; its fuel runs out exactly
    when the C loop does not terminate, which the load factor excludes. *)
From stdpp Require Import base tactics list gmap strings.
From Stdlib Require Import ZArith Lia.
From S2P Require Import Prelude.
Open Scope Z_scope.

(** FNV-1a over the bytes of a name, at [uint32_t]. *)
Fixpoint name_hash_from (h : Z) (s : string) : Z :=
  match s with
  | EmptyString => h
  | String c s => name_hash_from (u32 (Z.lxor h (Z.of_N (Ascii.N_of_ascii c)) * 16777619)) s
  end.
Definition ta_name_hash (s : string) : Z := name_hash_from 2166136261 s.

(** Walk from slot [i] to the first empty slot or the first entry [stop]
    accepts. *)
Fixpoint probe (stop : Z → outcome bool) (fuel : nat) (tab : list Z) (mask i : Z) : outcome (Z * Z) :=
  match fuel with
  | O => NoFuel
  | S n =>
      e ← or_undef (tab !! Z.to_nat i);
      if e <? 0 then Ret (i, e)
      else
        hit ← stop e;
        if (hit : bool) then Ret (i, e) else probe stop n tab mask (Z.land (i + 1) mask)
  end.

Record symtab := mk_symtab {
  symbols : list string (** [symbols[0..sym_count)] *);
  sym_cap : Z;
  sym_hash : list Z (** indices into [symbols], -1 = empty *);
  sym_hash_cap : Z (** 0 = not built *)
}.
Definition symtab_new : symtab := mk_symtab [] 0 [] 0.
Definition sym_count (t : symtab) : Z := Z.of_nat (length (symbols t)).

(** [strcmp(names[e], name) == 0]. *)
Definition name_is (names : list string) (name : string) (e : Z) : outcome bool :=
  n ← or_undef (names !! Z.to_nat e);
  Ret (bool_decide (n = name)).
Definition never (_ : Z) : outcome bool := Ret false.

(** -1 when the name is not in the table. *)
Definition sym_hash_lookup (fuel : nat) (t : symtab) (name : string) (h : Z) : outcome Z :=
  let mask := sym_hash_cap t - 1 in
  '(_, e) ← probe (name_is (symbols t) name) fuel (sym_hash t) mask (Z.land h mask);
  Ret (if e <? 0 then -1 else e).

(** Place index [k] in the first empty slot from the hash of [name]. *)
Definition hash_place (fuel : nat) (mask : Z) (tab : list Z) (k : Z) (name : string) : outcome (list Z) :=
  '(i, _) ← probe never fuel tab mask (Z.land (ta_name_hash name) mask);
  Ret (<[Z.to_nat i := k]> tab).

Fixpoint rebuild_loop (fuel : nat) (mask : Z) (tab : list Z) (k : Z) (names : list string) : outcome (list Z) :=
  match names with
  | [] => Ret tab
  | name :: names =>
      tab ← hash_place fuel mask tab k name;
      rebuild_loop fuel mask tab (k + 1) names
  end.

(** [ok] says whether the [malloc] of the new table succeeds; [None] is -1. *)
Definition sym_hash_rebuild (ok : bool) (fuel : nat) (t : symtab) (newcap : Z) : outcome (option symtab) :=
  if negb ok then Ret None
  else
    tab ← rebuild_loop fuel (newcap - 1) (replicate (Z.to_nat newcap) (-1)) 0 (symbols t);
    Ret (Some (mk_symtab (symbols t) (sym_cap t) tab newcap)).

Definition sym_hash_insert (ok : bool) (fuel : nat) (t : symtab) (idx : Z) : outcome symtab :=
  if sym_hash_cap t * 7 <=? sym_count t * 10 then
    r ← sym_hash_rebuild ok fuel t (if sym_hash_cap t =? 0 then 256 else sym_hash_cap t * 2);
    match r with
    | Some t => Ret t
    | None => Ret (mk_symtab (symbols t) (sym_cap t) (sym_hash t) 0)
    end
  else
    name ← or_undef (symbols t !! Z.to_nat idx);
    tab ← hash_place fuel (sym_hash_cap t - 1) (sym_hash t) idx name;
    Ret (mk_symtab (symbols t) (sym_cap t) tab (sym_hash_cap t)).

(** The linear scan used while no hash is built. *)
Fixpoint scan_names (names : list string) (name : string) (i : Z) : Z :=
  match names with
  | [] => -1
  | n :: names => if bool_decide (n = name) then i else scan_names names name (i + 1)
  end.

(** [ok_arr] and [ok_hash] are the outcomes of the two allocations. *)
Definition vm_intern_symbol (ok_arr ok_hash : bool) (fuel : nat) (t : symtab) (name : string)
    : outcome (Z * symtab) :=
  let h := ta_name_hash name in
  hit ← (if 0 <? sym_hash_cap t then sym_hash_lookup fuel t name h
         else Ret (scan_names (symbols t) name 0));
  if 0 <=? hit then Ret (hit, t)
  else
    let full := sym_cap t <=? sym_count t in
    if full && negb ok_arr then Ret (-1, t)
    else
      let newcap := if full then if sym_cap t =? 0 then 16 else sym_cap t * 2 else sym_cap t in
      let idx := sym_count t in
      t ← sym_hash_insert ok_hash fuel (mk_symtab (symbols t ++ [name]) newcap (sym_hash t) (sym_hash_cap t)) idx;
      Ret (idx, t).

Definition vm_symbol_name (t : symtab) (idx : Z) : option string :=
  if idx <? sym_count t then symbols t !! Z.to_nat idx else None.

(** * Linear probing *)
Section Probing.
Context (cap : Z) (k : Z) (Hk : 0 ≤ k) (Hcap : cap = 2 ^ k).
Lemma cap_pos : 0 < cap.
Proof. rewrite Hcap. by apply Z.pow_pos_nonneg. Qed.

Lemma land_mask i : Z.land i (cap - 1) = i mod cap.
Proof. replace (cap - 1) with (Z.ones k) by (rewrite Hcap, Z.ones_equiv; lia). rewrite Hcap. by apply Z.land_ones. Qed.

Context (tab : list Z) (Htab : Z.of_nat (length tab) = cap).

Definition at_slot (i : Z) : option Z := tab !! Z.to_nat (i mod cap).

Lemma at_slot_some i : is_Some (at_slot i).
Proof. apply lookup_lt_is_Some_2. pose proof cap_pos. pose proof (Z.mod_pos_bound i cap). lia. Qed.

Lemma at_slot_mod i d : at_slot (i mod cap + d) = at_slot (i + d).
Proof. unfold at_slot. by rewrite Zplus_mod_idemp_l. Qed.

(** The walk from [i] stops at distance [d]. *)
Definition stops (stop : Z → outcome bool) (i d e : Z) : Prop :=
  at_slot (i + d) = Some e ∧ (e < 0 ∨ 0 ≤ e ∧ stop e = Ret true) ∧
  ∀ d', 0 ≤ d' < d → ∃ e', at_slot (i + d') = Some e' ∧ 0 ≤ e' ∧ stop e' = Ret false.

(** With an empty slot in reach the walk ends within it. *)
Lemma probe_finds stop n : ∀ i,
  0 ≤ i < cap →
  (∀ d e, at_slot d = Some e → 0 ≤ e → ∃ b, stop e = Ret b) →
  (∃ d e, 0 ≤ d < Z.of_nat n ∧ at_slot (i + d) = Some e ∧ e < 0) →
  ∃ d e, 0 ≤ d < Z.of_nat n ∧ probe stop n tab (cap - 1) i = Ret ((i + d) mod cap, e) ∧ stops stop i d e.
Proof.
  induction n as [|n IH]; intros i Hi Hdef (d&e&Hd&He&Hneg); [lia|]. cbn [probe].
  destruct (at_slot_some i) as [e0 E0]. pose proof E0 as E0'. unfold at_slot in E0'.
  rewrite (Z.mod_small i cap) in E0' by lia. rewrite E0'. cbn [or_undef mbind outcome_bind].
  destruct (Z.ltb_spec e0 0) as [Hl|Hge].
  { exists 0, e0. split; [lia|]. rewrite Z.add_0_r, Z.mod_small by lia. split; [done|].
    split; [by rewrite Z.add_0_r|]. split; [by left|]. intros; lia. }
  destruct (Hdef i e0 E0 Hge) as [b Hb]. rewrite Hb. cbn [mbind outcome_bind]. destruct b.
  { exists 0, e0. split; [lia|]. rewrite Z.add_0_r, Z.mod_small by lia. split; [done|].
    split; [by rewrite Z.add_0_r|]. split; [by right|]. intros; lia. }
  assert (d ≠ 0) by (intros ->; rewrite Z.add_0_r, E0 in He; injection He as ->; lia).
  pose proof (Z.mod_pos_bound (i + 1) cap cap_pos).
  rewrite land_mask. destruct (IH ((i + 1) mod cap)) as (d1&e1&Hd1&Hp&Hs1&Hs2&Hs3); [done|done| |].
  { exists (d - 1), e. split; [lia|]. rewrite at_slot_mod. by replace (i + 1 + (d - 1)) with (i + d) by lia. }
  exists (d1 + 1), e1. split; [lia|]. rewrite Hp, Zplus_mod_idemp_l.
  replace (i + 1 + d1) with (i + (d1 + 1)) by lia. split; [done|]. rewrite at_slot_mod in Hs1.
  split; [by replace (i + (d1 + 1)) with (i + 1 + d1) by lia|]. split; [done|].
  intros d' Hd'. destruct (decide (d' = 0)) as [->|]; [exists e0; by rewrite Z.add_0_r|].
  destruct (Hs3 (d' - 1)) as (e'&He'&?); [lia|]. exists e'. rewrite at_slot_mod in He'.
  by replace (i + d') with (i + 1 + (d' - 1)) by lia.
Qed.

(** Without one, and with no entry accepted, it never ends. *)
Lemma probe_full stop n i :
  0 ≤ i < cap → (∀ j e, at_slot j = Some e → 0 ≤ e ∧ stop e = Ret false) → probe stop n tab (cap - 1) i = NoFuel.
Proof.
  intros Hi Hfull. revert i Hi. induction n as [|n IH]; intros i Hi; [done|]. cbn [probe].
  destruct (at_slot_some i) as [e E]. destruct (Hfull i e E) as [He Hs]. unfold at_slot in E.
  rewrite (Z.mod_small i cap) in E by lia. rewrite E. cbn [or_undef mbind outcome_bind].
  destruct (Z.ltb_spec e 0); [lia|]. rewrite Hs. cbn [mbind outcome_bind]. rewrite land_mask. apply IH.
  by apply Z.mod_pos_bound, cap_pos.
Qed.
End Probing.

(** * Occupied slots *)
(** The occupied entries. *)
Definition taken (tab : list Z) : list Z := filter (λ e, 0 ≤ e) tab.

Lemma taken_nodup (tab : list Z) :
  (∀ i j e, tab !! i = Some e → tab !! j = Some e → 0 ≤ e → i = j) → NoDup (taken tab).
Proof.
  unfold taken.
  induction tab as [|x tab IH]; intros Hinj; [constructor|]. rewrite filter_cons.
  assert (NoDup (filter (λ e, 0 ≤ e) tab)) as Hn.
  { apply IH. intros i j e Hi Hj He. assert (S i = S j) by (by apply (Hinj (S i) (S j) e)). lia. }
  destruct (decide (0 ≤ x)) as [Hx|]; [|done]. apply NoDup_cons. split; [|done].
  intros [_ [i Hi]%list_elem_of_lookup]%list_elem_of_filter. by specialize (Hinj 0%nat (S i) x eq_refl Hi Hx).
Qed.

(** A table of distinct indices below [n] with more than [n] slots has an empty
    one, which is within [cap] steps from any start. *)
Lemma gap_in_reach cap tab n i :
  (∀ i j e, tab !! i = Some e → tab !! j = Some e → 0 ≤ e → i = j) → (∀ i e, tab !! i = Some e → 0 ≤ e → e < Z.of_nat n) →
  Z.of_nat (length tab) = cap → Z.of_nat n < cap → ∃ d e, 0 ≤ d < cap ∧ at_slot cap tab (i + d) = Some e ∧ e < 0.
Proof.
  intros Hinj Hr Hlen Hl. assert (∃ j e, tab !! j = Some e ∧ e < 0) as (j&e&Hj&He).
  { destruct (decide (Forall (λ e, 0 ≤ e) tab)) as [Hall|Hn].
    - exfalso. assert (length (taken tab) ≤ n)%nat as Hle.
      { assert (n = length (seqZ 0 (Z.of_nat n))) as -> by (rewrite length_seqZ; lia).
        apply submseteq_length, NoDup_submseteq; [by apply taken_nodup|].
        intros e [He [j Hj]%list_elem_of_lookup]%list_elem_of_filter. apply elem_of_seqZ. pose proof (Hr j e Hj He). lia. }
      assert (taken tab = tab) as Hf.
      { unfold taken. clear -Hall. induction Hall as [|x l Hx _ IH]; [done|]. rewrite filter_cons, decide_True by done. by rewrite IH. }
      rewrite Hf in Hle. lia.
    - apply not_Forall_Exists in Hn; [|apply _]. apply Exists_exists in Hn as (e&[j Hj]%list_elem_of_lookup&He).
      exists j, e. split; [done|]. simpl in He. lia. }
  apply lookup_lt_Some in Hj as Hjl. exists ((Z.of_nat j - i) mod cap), e. split; [apply Z.mod_pos_bound; lia|]. split; [|done].
  unfold at_slot. rewrite Zplus_mod_idemp_r. replace (i + (Z.of_nat j - i)) with (Z.of_nat j) by lia.
  by rewrite Z.mod_small, Nat2Z.id by lia.
Qed.

(** * The hash invariant *)

(** Every index below [length names] is found from the hash of its name
    without crossing an empty slot; no index occurs twice and nothing else does. *)
Record hash_ok (cap : Z) (tab : list Z) (names : list string) : Prop := {
  h_pow : ∃ k, 0 ≤ k ∧ cap = 2 ^ k;
  h_len : Z.of_nat (length tab) = cap;
  h_inj : ∀ i j e, tab !! i = Some e → tab !! j = Some e → 0 ≤ e → i = j;
  h_range : ∀ i e, tab !! i = Some e → 0 ≤ e → e < Z.of_nat (length names);
  h_found : ∀ n name, names !! n = Some name → ∃ d, 0 ≤ d < cap ∧
    at_slot cap tab (ta_name_hash name + d) = Some (Z.of_nat n) ∧
    ∀ d', 0 ≤ d' < d → ∃ e, at_slot cap tab (ta_name_hash name + d') = Some e ∧ 0 ≤ e
}.

(** An under-full table has an empty slot within [cap] steps. *)
Lemma empty_in_reach cap tab names i :
  hash_ok cap tab names → Z.of_nat (length names) < cap →
  ∃ d e, 0 ≤ d < cap ∧ at_slot cap tab (i + d) = Some e ∧ e < 0.
Proof. intros H Hl. apply (gap_in_reach cap tab (length names) i (h_inj _ _ _ H)); [by apply H|by apply H|done]. Qed.

Section Table.
Context (cap : Z) (tab : list Z) (names : list string) (H : hash_ok cap tab names).
Context (Hload : Z.of_nat (length names) < cap).

Lemma name_is_def name i e : at_slot cap tab i = Some e → 0 ≤ e → ∃ b, name_is names name e = Ret b.
Proof.
  intros Hi He. apply (h_range _ _ _ H) in Hi as Hr; [|done]. unfold name_is.
  destruct (lookup_lt_is_Some_2 names (Z.to_nat e)) as [n ->]; [lia|]. by eexists.
Qed.

(** A hash lookup is the linear scan: it finds a name of the table at its
    index, and nothing else. *)
Lemma lookup_present t name n fuel :
  symbols t = names → sym_hash t = tab → sym_hash_cap t = cap → NoDup names →
  names !! n = Some name → cap ≤ Z.of_nat fuel →
  sym_hash_lookup fuel t name (ta_name_hash name) = Ret (Z.of_nat n).
Proof.
  intros En Et Ec Hnd Hn Hf. unfold sym_hash_lookup. rewrite En, Et, Ec.
  destruct (h_pow _ _ _ H) as (k&Hk&Hp). pose proof (h_len _ _ _ H) as Hlen.
  assert (0 < cap) as Hc by (rewrite Hp; by apply Z.pow_pos_nonneg).
  rewrite (land_mask cap k Hk Hp). set (h := ta_name_hash name).
  destruct (probe_finds cap k Hk Hp tab Hlen (name_is names name) fuel (h mod cap)) as (d&e&Hd&->&Hs1&Hs2&Hs3).
  { by apply Z.mod_pos_bound. } { intros. by eapply name_is_def. }
  { destruct (empty_in_reach cap tab names (h mod cap) H Hload) as (d&e&Hd&He). exists d, e. split; [lia|done]. }
  cbn [mbind outcome_bind]. destruct (h_found _ _ _ H n name Hn) as (dk&Hdk&Hk1&Hk2). fold h in Hk1, Hk2.
  rewrite (at_slot_mod cap tab) in Hs1.
  assert (Hstop : name_is names name (Z.of_nat n) = Ret true).
  { unfold name_is. rewrite Nat2Z.id, Hn. simpl. by rewrite bool_decide_eq_true_2. }
  destruct Hs2 as [Hneg|[Hpos Ht]].
  - exfalso. destruct (Z.lt_trichotomy d dk) as [Hlt|[->|Hgt]].
    + destruct (Hk2 d) as (e'&He'&?); [lia|]. rewrite Hs1 in He'. injection He' as ->. lia.
    + rewrite Hs1 in Hk1. injection Hk1 as ->. lia.
    + destruct (Hs3 dk) as (e'&He'&?&Hf'); [lia|]. rewrite (at_slot_mod cap tab), Hk1 in He'. injection He' as <-.
      congruence.
  - destruct (Z.ltb_spec e 0); [lia|]. f_equal. unfold name_is in Ht.
    apply bind_Ret in Ht as (nm&Hnm%or_undef_Ret&[= ->%bool_decide_eq_true]).
    assert (Z.to_nat e = n) by (by eapply NoDup_lookup). lia.
Qed.

Lemma lookup_absent t name fuel :
  symbols t = names → sym_hash t = tab → sym_hash_cap t = cap →
  name ∉ names → cap ≤ Z.of_nat fuel → sym_hash_lookup fuel t name (ta_name_hash name) = Ret (-1).
Proof.
  intros En Et Ec Hn Hf. unfold sym_hash_lookup. rewrite En, Et, Ec.
  destruct (h_pow _ _ _ H) as (k&Hk&Hp). pose proof (h_len _ _ _ H) as Hlen.
  assert (0 < cap) as Hc by (rewrite Hp; by apply Z.pow_pos_nonneg).
  rewrite (land_mask cap k Hk Hp). set (h := ta_name_hash name).
  destruct (probe_finds cap k Hk Hp tab Hlen (name_is names name) fuel (h mod cap)) as (d&e&Hd&->&Hs1&Hs2&Hs3).
  { by apply Z.mod_pos_bound. } { intros. by eapply name_is_def. }
  { destruct (empty_in_reach cap tab names (h mod cap) H Hload) as (d&e&Hd&He). exists d, e. split; [lia|done]. }
  cbn [mbind outcome_bind]. destruct Hs2 as [Hneg|[Hpos Ht]].
  - destruct (Z.ltb_spec e 0); [done|lia].
  - exfalso. unfold name_is in Ht. apply bind_Ret in Ht as (nm&Hnm%or_undef_Ret&[= ->%bool_decide_eq_true]).
    apply Hn. by eapply list_elem_of_lookup_2.
Qed.

(** Placing the next index keeps the invariant. *)
Lemma place_ok name fuel :
  cap ≤ Z.of_nat fuel →
  ∃ tab', hash_place fuel (cap - 1) tab (Z.of_nat (length names)) name = Ret tab' ∧
    hash_ok cap tab' (names ++ [name]).
Proof.
  intros Hf. unfold hash_place.
  destruct (h_pow _ _ _ H) as (k&Hk&Hp). pose proof (h_len _ _ _ H) as Hlen.
  assert (0 < cap) as Hc by (rewrite Hp; by apply Z.pow_pos_nonneg).
  rewrite (land_mask cap k Hk Hp). set (h := ta_name_hash name).
  destruct (probe_finds cap k Hk Hp tab Hlen never fuel (h mod cap)) as (d&e&Hd&->&Hs1&Hs2&Hs3).
  { by apply Z.mod_pos_bound. } { intros. by eexists. }
  { destruct (empty_in_reach cap tab names (h mod cap) H Hload) as (d&e&Hd&He). exists d, e. split; [lia|done]. }
  cbn [mbind outcome_bind]. rewrite (at_slot_mod cap tab) in Hs1. rewrite Zplus_mod_idemp_l.
  set (j := Z.to_nat ((h + d) mod cap)). destruct Hs2 as [Hneg|[_ Hx]]; [|done].
  assert (Hj : tab !! j = Some e) by done.
  assert (Hjl : (j < length tab)%nat) by (by eapply lookup_lt_Some).
  assert (Hother : ∀ x e', 0 ≤ e' → at_slot cap tab x = Some e' →
    at_slot cap (<[j := Z.of_nat (length names)]> tab) x = Some e').
  { intros x e' He' Hx. unfold at_slot in *. rewrite list_lookup_insert_ne; [done|].
    intros E. rewrite <- E, Hj in Hx. injection Hx as ->. lia. }
  eexists. split; [done|]. split.
  - by exists k.
  - by rewrite length_insert.
  - intros a b e' Ha Hb He'. rewrite !list_lookup_insert_Some in *.
    destruct Ha as [(Ea&Ea'&_)|[Na Ha]], Hb as [(Eb&Eb'&_)|[Nb Hb]].
    + congruence.
    + pose proof (h_range _ _ _ H b _ Hb He'). lia.
    + pose proof (h_range _ _ _ H a _ Ha He'). lia.
    + by eapply (h_inj _ _ _ H).
  - intros a e' Ha He'. rewrite length_app. simpl. apply list_lookup_insert_Some in Ha as [(_&<-&_)|[_ Ha]]; [lia|].
    pose proof (h_range _ _ _ H a _ Ha He'). lia.
  - intros n nm Hn. apply lookup_app_Some in Hn as [Hn|[Hge Hn]].
    + destruct (h_found _ _ _ H n nm Hn) as (dk&Hdk&Hk1&Hk2). exists dk. split; [done|].
      split; [apply Hother; [lia|done]|]. intros d' Hd'. destruct (Hk2 d' Hd') as (e'&He'&?). exists e'. auto.
    + destruct (n - length names)%nat eqn:E; [|done]. injection Hn as <-. replace n with (length names) by lia.
      assert (Hdc : d < cap).
      { destruct (Z_lt_le_dec d cap) as [|Hge']; [done|]. exfalso.
        destruct (empty_in_reach cap tab names (h mod cap) H Hload) as (d1&e1&Hd1&He1&Hn1).
        destruct (Hs3 d1) as (e2&He2&?&_); [lia|]. rewrite He1 in He2. injection He2 as ->. lia. }
      exists d. split; [lia|]. fold h. split.
      * unfold at_slot. by rewrite list_lookup_insert_eq.
      * intros d' Hd'. destruct (Hs3 d' Hd') as (e'&He'&?&_). rewrite (at_slot_mod cap tab) in He'.
        exists e'. auto.
Qed.
End Table.

Lemma hash_ok_nil k : 0 ≤ k → hash_ok (2 ^ k) (replicate (Z.to_nat (2 ^ k)) (-1)) [].
Proof.
  intros Hk. assert (0 < 2 ^ k) by (by apply Z.pow_pos_nonneg). split.
  - by exists k.
  - rewrite length_replicate. lia.
  - intros i j e [-> _]%lookup_replicate. lia.
  - intros i e [-> _]%lookup_replicate. lia.
  - intros n name Hn. by rewrite lookup_nil in Hn.
Qed.

Lemma rebuild_ok cap fuel names : ∀ pre tab,
  hash_ok cap tab pre → Z.of_nat (length (pre ++ names)) ≤ cap → cap ≤ Z.of_nat fuel →
  ∃ tab', rebuild_loop fuel (cap - 1) tab (Z.of_nat (length pre)) names = Ret tab' ∧ hash_ok cap tab' (pre ++ names).
Proof.
  induction names as [|name names IH]; intros pre tab H Hl Hf; cbn [rebuild_loop].
  - exists tab. by rewrite app_nil_r.
  - rewrite length_app in Hl. simpl in Hl.
    destruct (place_ok cap tab pre H ltac:(lia) name fuel Hf) as (tab1&->&H1). cbn [mbind outcome_bind].
    destruct (IH (pre ++ [name]) tab1 H1) as (tab2&E2&H2); [rewrite <- app_assoc, length_app; simpl; lia|done|].
    rewrite length_app in E2. simpl in E2. rewrite <- app_assoc in H2.
    replace (Z.of_nat (length pre) + 1) with (Z.of_nat (length pre + 1)) by lia. by exists tab2.
Qed.

(** The table as a whole: distinct names, room in the array, and a hash that
    is at most seven tenths full once built. *)
Record sym_ok (t : symtab) : Prop := {
  s_nodup : NoDup (symbols t);
  s_cap : 0 ≤ sym_cap t ∧ sym_count t ≤ sym_cap t;
  s_hash : (sym_hash_cap t = 0 ∧ symbols t = []) ∨
    (256 ≤ sym_hash_cap t ∧ sym_count t * 10 < sym_hash_cap t * 7 ∧
     hash_ok (sym_hash_cap t) (sym_hash t) (symbols t));
  s_size : sym_hash_cap t ≤ 256 ∨ sym_hash_cap t * 7 ≤ sym_count t * 20
}.

Lemma scan_absent names name i : name ∉ names → scan_names names name i = -1.
Proof.
  revert i. induction names as [|n names IH]; intros i Hn; [done|]. cbn [scan_names].
  apply not_elem_of_cons in Hn as [? ?]. rewrite bool_decide_eq_false_2 by congruence. by apply IH.
Qed.

(** The abstract table: a list of distinct names. *)
Definition intern (l : list string) (name : string) : Z * list string :=
  match list_find (λ n, n = name) l with
  | Some (i, _) => (Z.of_nat i, l)
  | None => (Z.of_nat (length l), l ++ [name])
  end.

(** Fuel that covers the table and a doubling of it. *)
Definition intern_fuel (t : symtab) : Z := Z.max 256 (2 * sym_hash_cap t).

Lemma insert_ok t name cap fuel :
  sym_ok t → name ∉ symbols t → sym_count t < cap → intern_fuel t ≤ Z.of_nat fuel →
  ∃ t', sym_hash_insert true fuel (mk_symtab (symbols t ++ [name]) cap (sym_hash t) (sym_hash_cap t)) (sym_count t) = Ret t' ∧
    sym_ok t' ∧ symbols t' = symbols t ++ [name].
Proof.
  intros S Hn Hcap Hf. unfold intern_fuel in Hf. unfold sym_hash_insert, sym_hash_rebuild. cbn [negb symbols sym_cap sym_hash sym_hash_cap].
  set (t1 := mk_symtab (symbols t ++ [name]) cap (sym_hash t) (sym_hash_cap t)).
  assert (Hc1 : sym_count t1 = sym_count t + 1) by (unfold sym_count; simpl; rewrite length_app; simpl; lia).
  assert (Hnd : NoDup (symbols t ++ [name])).
  { apply NoDup_app. split; [apply S|]. split; [|apply NoDup_singleton]. intros x Hx ->%list_elem_of_singleton. done. }
  destruct (Z.leb_spec (sym_hash_cap t * 7) (sym_count t1 * 10)) as [Hle|Hgt].
  - set (nc := if sym_hash_cap t =? 0 then 256 else sym_hash_cap t * 2).
    assert (∃ k, 0 ≤ k ∧ nc = 2 ^ k ∧ 256 ≤ nc ∧ nc ≤ Z.of_nat fuel ∧ sym_count t1 * 10 < nc * 7) as (k&Hk&Ek&Hnc&Hfu&Hld).
    { unfold nc. destruct (s_hash _ S) as [[E0 En]|(Hm&Hl&Hh)].
      - exists 8. rewrite E0. simpl. unfold sym_count in *. rewrite En in *. simpl in *. lia.
      - destruct (h_pow _ _ _ Hh) as (k&Hk&Ek). exists (k + 1). destruct (Z.eqb_spec (sym_hash_cap t) 0); [lia|].
        rewrite Z.pow_add_r, <- Ek by lia. lia. }
    destruct (rebuild_ok nc fuel (symbols t ++ [name]) [] (replicate (Z.to_nat nc) (-1))) as (tab&E&H).
    + rewrite Ek. by apply hash_ok_nil.
    + simpl. change (length (symbols t ++ [name])) with (length (symbols t1)). fold (sym_count t1). lia.
    + done.
    + change (Z.of_nat (length [])) with 0 in E. change ([] ++ symbols t ++ [name]) with (symbols t ++ [name]) in *.
      cbn [symbols]. rewrite E. cbn [mbind outcome_bind]. eexists. split; [done|]. split; [|done].
      split; [done| | |]; cbn [symbols sym_cap sym_hash sym_hash_cap]; fold (sym_count t1) in *.
      * unfold sym_count at 1. cbn [symbols]. change (length (symbols t ++ [name])) with (length (symbols t1)).
        fold (sym_count t1). unfold sym_count in *. lia.
      * right. split; [done|]. split; [exact Hld|]. exact H.
      * change (nc ≤ 256 ∨ nc * 7 ≤ sym_count t1 * 20). unfold nc. destruct (Z.eqb_spec (sym_hash_cap t) 0); lia.
  - destruct (s_hash _ S) as [[E0 En]|(Hm&Hl&Hh)]; [unfold sym_count in *; rewrite E0, En in *; simpl in *; lia|].
    assert (symbols t1 !! Z.to_nat (sym_count t) = Some name) as Hlast.
    { unfold sym_count. rewrite Nat2Z.id. simpl. by rewrite lookup_app_r, Nat.sub_diag by lia. }
    cbn [t1 symbols] in Hlast. rewrite Hlast. cbn [or_undef mbind outcome_bind].
    destruct (place_ok _ _ _ Hh ltac:(unfold sym_count in *; lia) name fuel ltac:(lia)) as (tab&E&H).
    change (Z.of_nat (length (symbols t))) with (sym_count t) in E. rewrite E. cbn [mbind outcome_bind]. eexists. split; [done|]. split; [|done].
    split; [done| | |].
    + change (0 ≤ cap ∧ sym_count t1 ≤ cap). unfold sym_count in *. lia.
    + right. split; [done|]. split; [exact Hgt|]. exact H.
    + change (sym_hash_cap t ≤ 256 ∨ sym_hash_cap t * 7 ≤ sym_count t1 * 20). pose proof (s_size _ S). lia.
Qed.

(** Interning refines the abstract table. *)
Lemma intern_refines t name fuel :
  sym_ok t → intern_fuel t ≤ Z.of_nat fuel →
  ∃ t', vm_intern_symbol true true fuel t name = Ret ((intern (symbols t) name).1, t') ∧
    sym_ok t' ∧ symbols t' = (intern (symbols t) name).2.
Proof.
  intros S Hf. unfold vm_intern_symbol, intern.
  assert (Hhit : ∃ hit, (if 0 <? sym_hash_cap t then sym_hash_lookup fuel t name (ta_name_hash name)
                 else Ret (scan_names (symbols t) name 0)) = Ret hit ∧
            match list_find (λ n, n = name) (symbols t) with Some (i, _) => hit = Z.of_nat i | None => hit = -1 end).
  { destruct (s_hash _ S) as [[E0 En]|(Hm&Hl&Hh)].
    - rewrite E0, En. simpl. by eexists.
    - destruct (Z.ltb_spec 0 (sym_hash_cap t)); [|lia]. unfold intern_fuel in Hf. unfold sym_count in Hl.
      destruct (list_find (λ n, n = name) (symbols t)) as [[i n]|] eqn:E.
      + apply list_find_Some in E as (Hi&->&_). exists (Z.of_nat i). split; [|done].
        apply (lookup_present _ _ _ Hh); try done; [lia|apply S|lia].
      + exists (-1). split; [|done]. apply (lookup_absent _ _ _ Hh); try done; [lia| |lia].
        rewrite list_find_None, Forall_forall in E. intros Hin. by apply (E name Hin). }
  destruct Hhit as (hit&->&Hhit). cbn [mbind outcome_bind].
  destruct (list_find (λ n, n = name) (symbols t)) as [[i n]|] eqn:E.
  - subst hit. destruct (Z.leb_spec 0 (Z.of_nat i)); [|lia]. by exists t.
  - subst hit. simpl. rewrite andb_false_r.
    assert (name ∉ symbols t) as Hn.
    { rewrite list_find_None, Forall_forall in E. intros Hin. by apply (E name Hin). }
    set (nc := if sym_cap t <=? sym_count t then if sym_cap t =? 0 then 16 else sym_cap t * 2 else sym_cap t).
    destruct (insert_ok t name nc fuel S Hn) as (t'&->&S'&Es); [|done|].
    + pose proof (s_cap _ S). unfold nc. unfold sym_count in *. destruct (Z.leb_spec (sym_cap t) (Z.of_nat (length (symbols t)))); [|lia].
      destruct (Z.eqb_spec (sym_cap t) 0); lia.
    + cbn [mbind outcome_bind]. by exists t'.
Qed.

(** * Sequences of interns *)
Fixpoint intern_all (fuel : nat) (t : symtab) (names : list string) : outcome (list Z * symtab) :=
  match names with
  | [] => Ret ([], t)
  | name :: names =>
      '(id, t) ← vm_intern_symbol true true fuel t name;
      '(ids, t) ← intern_all fuel t names;
      Ret (id :: ids, t)
  end.

Lemma sym_ok_new : sym_ok symtab_new.
Proof. split; simpl; [constructor|unfold sym_count; simpl; lia|by left|lia]. Qed.

(** What one abstract intern does. *)
Lemma intern_spec l name :
  l `prefix_of` (intern l name).2 ∧ (intern l name).2 !! Z.to_nat (intern l name).1 = Some name ∧
  0 ≤ (intern l name).1 ∧ (length (intern l name).2 ≤ S (length l))%nat.
Proof.
  unfold intern. destruct (list_find (λ n, n = name) l) as [[i n]|] eqn:E; simpl.
  - apply list_find_Some in E as (Hi&->&_). rewrite Nat2Z.id. split; [done|]. split; [done|]. lia.
  - rewrite Nat2Z.id, lookup_app_r, Nat.sub_diag by lia. rewrite length_app. simpl.
    split; [by eexists|]. split; [done|]. lia.
Qed.

Lemma intern_all_ok fuel names : ∀ t,
  sym_ok t → Z.max 512 (6 * (sym_count t + Z.of_nat (length names))) ≤ Z.of_nat fuel →
  ∃ ids t', intern_all fuel t names = Ret (ids, t') ∧ sym_ok t' ∧ symbols t `prefix_of` symbols t' ∧
    Forall2 (λ id name, 0 ≤ id ∧ symbols t' !! Z.to_nat id = Some name) ids names.
Proof.
  induction names as [|name names IH]; intros t S Hf; cbn [intern_all].
  - exists [], t. split; [done|]. split; [done|]. split; [done|constructor].
  - simpl length in Hf. destruct (intern_refines t name fuel S) as (t1&->&S1&E1).
    { unfold intern_fuel. pose proof (s_size _ S). lia. }
    destruct (intern_spec (symbols t) name) as (Hpre&Hat&H0&Hlen). rewrite <- E1 in Hpre, Hat, Hlen.
    cbn [mbind outcome_bind]. destruct (IH t1 S1) as (ids&t2&->&S2&Hp2&HF); [unfold sym_count in *; lia|].
    cbn [mbind outcome_bind]. eexists _, t2. split; [done|]. split; [done|]. split; [by etrans|].
    constructor; [|done]. split; [done|]. by eapply prefix_lookup_Some.
Qed.

(** * Properties *)



(** ** Rebuilding a table that is too small *)

(** A placement fills one empty slot, or its walk never ends. *)
Lemma place_counts cap k tab idx name fuel :
  0 ≤ k → cap = 2 ^ k → Z.of_nat (length tab) = cap → 0 ≤ idx →
  hash_place fuel (cap - 1) tab idx name = NoFuel ∨
  ∃ tab', hash_place fuel (cap - 1) tab idx name = Ret tab' ∧ length tab' = length tab ∧
    length (taken tab') = S (length (taken tab)).
Proof.
  intros Hk Hp Hl Hi. unfold hash_place. rewrite (land_mask cap k Hk Hp).
  pose proof (cap_pos cap k Hk Hp) as Hc. set (h := ta_name_hash name).
  assert (Hpr : ∀ n i, 0 ≤ i < cap → probe never n tab (cap - 1) i = NoFuel ∨
    ∃ j e, probe never n tab (cap - 1) i = Ret (Z.of_nat j, e) ∧ tab !! j = Some e ∧ e < 0).
  { induction n as [|n IH]; intros i Hir; [by left|]. cbn [probe].
    destruct (lookup_lt_is_Some_2 tab (Z.to_nat i)) as [e He]; [lia|]. rewrite He. cbn [or_undef mbind outcome_bind].
    destruct (Z.ltb_spec e 0).
    - right. exists (Z.to_nat i), e. by rewrite Z2Nat.id by lia.
    - cbn [never mbind outcome_bind]. rewrite (land_mask cap k Hk Hp). apply IH. by apply Z.mod_pos_bound. }
  destruct (Hpr fuel (h mod cap)) as [->|(j&e&->&Hj&He)]; [by apply Z.mod_pos_bound|by left|right].
  cbn [mbind outcome_bind]. rewrite Nat2Z.id. eexists. split; [done|]. split; [apply length_insert|].
  clear -Hj He Hi. unfold taken. revert j Hj. induction tab as [|x tab IH]; intros [|j] Hj; simpl in Hj; try done.
  - injection Hj as ->. simpl. rewrite !filter_cons, decide_True, decide_False by lia. done.
  - simpl. rewrite !filter_cons. destruct (decide (0 ≤ x)); simpl; by rewrite (IH j Hj).
Qed.

Lemma rebuild_overfull cap k fuel names : ∀ tab idx,
  0 ≤ k → cap = 2 ^ k → Z.of_nat (length tab) = cap → 0 ≤ idx →
  (length tab < length (taken tab) + length names)%nat →
  rebuild_loop fuel (cap - 1) tab idx names = NoFuel.
Proof.
  induction names as [|name names IH]; intros tab idx Hk Hp Hl Hi Hc; cbn [rebuild_loop].
  - simpl in Hc. assert (length (taken tab) ≤ length tab)%nat; [|lia].
    apply submseteq_length, sublist_submseteq. unfold taken. apply sublist_filter.
  - destruct (place_counts cap k tab idx name fuel Hk Hp Hl Hi) as [->|(tab'&->&H1&H2)]; [done|].
    cbn [mbind outcome_bind]. apply IH; [done|done|lia|lia|]. simpl in Hc. lia.
Qed.

(** One failed growth of the hash makes a later intern hang.  When the
    [malloc] of a rebuild fails in a table of at least 512 slots, the table falls
    back to capacity 0; the next new name then rebuilds at 256 slots, which cannot
    hold the names, and the probe for an empty slot never ends, whatever the
    fuel. *)
Theorem intern_after_oom_diverges t n1 n2 fuel :
  sym_ok t → 512 ≤ sym_hash_cap t → sym_hash_cap t * 7 ≤ (sym_count t + 1) * 10 →
  n1 ∉ symbols t → n2 ∉ n1 :: symbols t → intern_fuel t ≤ Z.of_nat fuel →
  ∃ t', vm_intern_symbol true false fuel t n1 = Ret (sym_count t, t') ∧
    ∀ fuel', vm_intern_symbol true true fuel' t' n2 = NoFuel.
Proof.
  intros S Hc Hld Hn1 [Hne Hn2]%not_elem_of_cons Hf. unfold intern_fuel in *. unfold vm_intern_symbol at 1.
  destruct (s_hash _ S) as [[E0 _]|(Hm&Hl&Hh)]; [lia|].
  destruct (Z.ltb_spec 0 (sym_hash_cap t)); [|lia]. unfold sym_count in Hl.
  rewrite (lookup_absent _ _ _ Hh) by (done || lia). cbn [mbind outcome_bind].
  change (0 <=? -1) with false. cbv iota. rewrite andb_false_r. unfold sym_hash_insert at 1, sym_hash_rebuild at 1.
  cbn [symbols sym_cap sym_hash sym_hash_cap negb].
  match goal with |- context [sym_hash_cap t * 7 <=? ?x] => destruct (Z.leb_spec (sym_hash_cap t * 7) x) as [_|Hgt] end;
    [|unfold sym_count in *; cbn [symbols] in Hgt; rewrite length_app in Hgt; cbn [length] in Hgt; lia].
  cbn [mbind outcome_bind]. eexists. split; [done|]. intros fuel'. unfold vm_intern_symbol.
  cbn [symbols sym_cap sym_hash sym_hash_cap]. change (0 <? 0) with false. cbv iota. cbn [mbind outcome_bind].
  rewrite scan_absent; [|rewrite elem_of_app, list_elem_of_singleton; naive_solver].
  change (0 <=? -1) with false. cbv iota. rewrite andb_false_r. unfold sym_hash_insert, sym_hash_rebuild.
  cbn [symbols sym_cap sym_hash sym_hash_cap negb]. change (0 * 7) with 0.
  match goal with |- context [0 <=? ?x] => destruct (Z.leb_spec 0 x); [|unfold sym_count in *; lia] end.
  change (if 0 =? 0 then 256 else 0 * 2) with 256.
  rewrite (rebuild_overfull 256 8); try done.
  rewrite !length_app. unfold taken. simpl. unfold sym_count in *. lia.
Qed.

(** 358 names of two letters: the hash has 512 slots and is about to grow. *)
Definition w_name (i : nat) : string :=
  String (Ascii.ascii_of_nat (65 + i mod 16)) (String (Ascii.ascii_of_nat (65 + i / 16)) EmptyString).
Definition w_names : list string := w_name <$> seq 0 358.
Definition w_symtab : symtab := match intern_all 2148 symtab_new w_names with Ret (_, t) => t | _ => symtab_new end.

Lemma w_symtab_ok : sym_ok w_symtab.
Proof.
  destruct (intern_all_ok 2148 w_names symtab_new sym_ok_new) as (ids&t&E&S&_); [vm_compute; congruence|].
  unfold w_symtab. rewrite E. exact S.
Qed.

Lemma intern_after_oom_diverges_witness :
  ∃ t', vm_intern_symbol true false 1024 w_symtab "x" = Ret (358, t') ∧
    ∀ fuel', vm_intern_symbol true true fuel' t' "y" = NoFuel.
Proof.
  assert (Hc : sym_count w_symtab = 358) by (vm_compute; reflexivity). rewrite <- Hc.
  apply (intern_after_oom_diverges w_symtab "x" "y" 1024 w_symtab_ok); try (vm_compute; congruence).
  - apply (bool_decide_unpack _). vm_compute. exact I.
  - apply (bool_decide_unpack _). vm_compute. exact I.
Defined.
