(* ===== verification/Vm.v ===== *)
(** The virtual machine and its processes: the structs [Proc] and [VM] of
    ta.h, and the loaded image.

    The parts of [Proc] that the collector works on are the [ProcMem] of
    Heap.v.  Mutexes and condition variables have no state here: each function
    runs as one step, which is what its lock gives it. *)
From stdpp Require Import base tactics list gmap strings.
From Stdlib Require Import ZArith Lia.
From S2P Require Import Prelude Values Heap Runq Mailbox Symtab.
Open Scope Z_scope.

Inductive ProcState := PROC_RUNNING | PROC_WAIT_RECV | PROC_WAIT_IO | PROC_DEAD.
#[global] Instance ProcState_eq_dec : EqDecision ProcState.
Proof. solve_decision. Defined.

Definition RECV_AFTER_EXPIRED : Z := -2.

(** A loaded .tabc image: read-only while it runs. *)
Record Image := mk_Image {
  words : list Z (** the word stream *);
  fn_entry : list Z (** function table: entry offset *);
  fn_args : list Z (** number of arguments *);
  fn_maxd : list Z (** maximal stack depth *);
  g_consts : list Val (** the constant table *)
}.

(** A process. *)
Record Proc := mk_Proc {
  p_mem : ProcMem (** pid, stack and heap *);
  p_state : ProcState;
  p_yield : bool (** yield_requested *);
  p_pc : Z (** resume point: word index *);
  p_base : Z (** resume point: frame base *);
  p_cbase : Z (** resume point: code base *);
  p_acc : Val (** last argument / result hand-over slot *);
  p_has_acc : bool;
  p_cfunc_die : option string;
  p_box : mailbox;
  p_watchers : list (Z * Val) (** watchers and watcher_refs, in insertion order *);
  p_wait_fd : Z;
  p_wait_events : Z;
  p_wait_registered : bool;
  p_wait_generation : Z;
  p_wait_deadline : Z (** wait_deadline_ms *);
  p_recv_deadline : Z (** recv_deadline_ms: -1 disarmed, RECV_AFTER_EXPIRED fired, otherwise armed *)
}.
Definition set_p_mem (x : ProcMem) (p : Proc) : Proc :=
  mk_Proc x (p_state p) (p_yield p) (p_pc p) (p_base p) (p_cbase p) (p_acc p) (p_has_acc p) (p_cfunc_die p) (p_box p) (p_watchers p) (p_wait_fd p) (p_wait_events p) (p_wait_registered p) (p_wait_generation p) (p_wait_deadline p) (p_recv_deadline p).
Definition set_p_state (x : ProcState) (p : Proc) : Proc :=
  mk_Proc (p_mem p) x (p_yield p) (p_pc p) (p_base p) (p_cbase p) (p_acc p) (p_has_acc p) (p_cfunc_die p) (p_box p) (p_watchers p) (p_wait_fd p) (p_wait_events p) (p_wait_registered p) (p_wait_generation p) (p_wait_deadline p) (p_recv_deadline p).
Definition set_p_yield (x : bool) (p : Proc) : Proc :=
  mk_Proc (p_mem p) (p_state p) x (p_pc p) (p_base p) (p_cbase p) (p_acc p) (p_has_acc p) (p_cfunc_die p) (p_box p) (p_watchers p) (p_wait_fd p) (p_wait_events p) (p_wait_registered p) (p_wait_generation p) (p_wait_deadline p) (p_recv_deadline p).
Definition set_p_pc (x : Z) (p : Proc) : Proc :=
  mk_Proc (p_mem p) (p_state p) (p_yield p) x (p_base p) (p_cbase p) (p_acc p) (p_has_acc p) (p_cfunc_die p) (p_box p) (p_watchers p) (p_wait_fd p) (p_wait_events p) (p_wait_registered p) (p_wait_generation p) (p_wait_deadline p) (p_recv_deadline p).
Definition set_p_base (x : Z) (p : Proc) : Proc :=
  mk_Proc (p_mem p) (p_state p) (p_yield p) (p_pc p) x (p_cbase p) (p_acc p) (p_has_acc p) (p_cfunc_die p) (p_box p) (p_watchers p) (p_wait_fd p) (p_wait_events p) (p_wait_registered p) (p_wait_generation p) (p_wait_deadline p) (p_recv_deadline p).
Definition set_p_cbase (x : Z) (p : Proc) : Proc :=
  mk_Proc (p_mem p) (p_state p) (p_yield p) (p_pc p) (p_base p) x (p_acc p) (p_has_acc p) (p_cfunc_die p) (p_box p) (p_watchers p) (p_wait_fd p) (p_wait_events p) (p_wait_registered p) (p_wait_generation p) (p_wait_deadline p) (p_recv_deadline p).
Definition set_p_acc (x : Val) (p : Proc) : Proc :=
  mk_Proc (p_mem p) (p_state p) (p_yield p) (p_pc p) (p_base p) (p_cbase p) x (p_has_acc p) (p_cfunc_die p) (p_box p) (p_watchers p) (p_wait_fd p) (p_wait_events p) (p_wait_registered p) (p_wait_generation p) (p_wait_deadline p) (p_recv_deadline p).
Definition set_p_has_acc (x : bool) (p : Proc) : Proc :=
  mk_Proc (p_mem p) (p_state p) (p_yield p) (p_pc p) (p_base p) (p_cbase p) (p_acc p) x (p_cfunc_die p) (p_box p) (p_watchers p) (p_wait_fd p) (p_wait_events p) (p_wait_registered p) (p_wait_generation p) (p_wait_deadline p) (p_recv_deadline p).
Definition set_p_cfunc_die (x : option string) (p : Proc) : Proc :=
  mk_Proc (p_mem p) (p_state p) (p_yield p) (p_pc p) (p_base p) (p_cbase p) (p_acc p) (p_has_acc p) x (p_box p) (p_watchers p) (p_wait_fd p) (p_wait_events p) (p_wait_registered p) (p_wait_generation p) (p_wait_deadline p) (p_recv_deadline p).
Definition set_p_box (x : mailbox) (p : Proc) : Proc :=
  mk_Proc (p_mem p) (p_state p) (p_yield p) (p_pc p) (p_base p) (p_cbase p) (p_acc p) (p_has_acc p) (p_cfunc_die p) x (p_watchers p) (p_wait_fd p) (p_wait_events p) (p_wait_registered p) (p_wait_generation p) (p_wait_deadline p) (p_recv_deadline p).
Definition set_p_watchers (x : list (Z * Val)) (p : Proc) : Proc :=
  mk_Proc (p_mem p) (p_state p) (p_yield p) (p_pc p) (p_base p) (p_cbase p) (p_acc p) (p_has_acc p) (p_cfunc_die p) (p_box p) x (p_wait_fd p) (p_wait_events p) (p_wait_registered p) (p_wait_generation p) (p_wait_deadline p) (p_recv_deadline p).
Definition set_p_wait_fd (x : Z) (p : Proc) : Proc :=
  mk_Proc (p_mem p) (p_state p) (p_yield p) (p_pc p) (p_base p) (p_cbase p) (p_acc p) (p_has_acc p) (p_cfunc_die p) (p_box p) (p_watchers p) x (p_wait_events p) (p_wait_registered p) (p_wait_generation p) (p_wait_deadline p) (p_recv_deadline p).
Definition set_p_wait_events (x : Z) (p : Proc) : Proc :=
  mk_Proc (p_mem p) (p_state p) (p_yield p) (p_pc p) (p_base p) (p_cbase p) (p_acc p) (p_has_acc p) (p_cfunc_die p) (p_box p) (p_watchers p) (p_wait_fd p) x (p_wait_registered p) (p_wait_generation p) (p_wait_deadline p) (p_recv_deadline p).
Definition set_p_wait_registered (x : bool) (p : Proc) : Proc :=
  mk_Proc (p_mem p) (p_state p) (p_yield p) (p_pc p) (p_base p) (p_cbase p) (p_acc p) (p_has_acc p) (p_cfunc_die p) (p_box p) (p_watchers p) (p_wait_fd p) (p_wait_events p) x (p_wait_generation p) (p_wait_deadline p) (p_recv_deadline p).
Definition set_p_wait_generation (x : Z) (p : Proc) : Proc :=
  mk_Proc (p_mem p) (p_state p) (p_yield p) (p_pc p) (p_base p) (p_cbase p) (p_acc p) (p_has_acc p) (p_cfunc_die p) (p_box p) (p_watchers p) (p_wait_fd p) (p_wait_events p) (p_wait_registered p) x (p_wait_deadline p) (p_recv_deadline p).
Definition set_p_wait_deadline (x : Z) (p : Proc) : Proc :=
  mk_Proc (p_mem p) (p_state p) (p_yield p) (p_pc p) (p_base p) (p_cbase p) (p_acc p) (p_has_acc p) (p_cfunc_die p) (p_box p) (p_watchers p) (p_wait_fd p) (p_wait_events p) (p_wait_registered p) (p_wait_generation p) x (p_recv_deadline p).
Definition set_p_recv_deadline (x : Z) (p : Proc) : Proc :=
  mk_Proc (p_mem p) (p_state p) (p_yield p) (p_pc p) (p_base p) (p_cbase p) (p_acc p) (p_has_acc p) (p_cfunc_die p) (p_box p) (p_watchers p) (p_wait_fd p) (p_wait_events p) (p_wait_registered p) (p_wait_generation p) (p_wait_deadline p) x.

(** The machine. *)
Record VM := mk_VM {
  v_store : store (** everything malloc'd *);
  v_procs : gmap Z Proc (** every Proc ever made; a Proc pointer is its pid, which is never reused *);
  v_table : gset Z (** the non-NULL entries of procs[] *);
  v_procs_cap : Z;
  v_procs_count : Z;
  v_retired : list Z (** head first *);
  v_runq : runq;
  v_next_pid : Z;
  v_next_ref : Z;
  v_image : Image;
  v_main_pid : Z;
  v_main_dead : bool;
  v_main_crashed : bool;
  v_entry_done : bool;
  v_exit_val : Val;
  v_symtab : symtab;
  v_active : Z (** active_procs *);
  v_recv_armed : Z;
  v_wait : list Z (** the wait_head list through wait_next *);
  v_wait_count : Z;
  v_stop : bool;
  v_wakes : Z (** bytes written to the poller's wake pipe *);
  v_closed : list Z (** file descriptors closed *);
  v_reads : nat (** readings of the monotonic clock so far *)
}.
Definition set_v_store (x : store) (vm : VM) : VM :=
  mk_VM x (v_procs vm) (v_table vm) (v_procs_cap vm) (v_procs_count vm) (v_retired vm) (v_runq vm) (v_next_pid vm) (v_next_ref vm) (v_image vm) (v_main_pid vm) (v_main_dead vm) (v_main_crashed vm) (v_entry_done vm) (v_exit_val vm) (v_symtab vm) (v_active vm) (v_recv_armed vm) (v_wait vm) (v_wait_count vm) (v_stop vm) (v_wakes vm) (v_closed vm) (v_reads vm).
Definition set_v_procs (x : gmap Z Proc) (vm : VM) : VM :=
  mk_VM (v_store vm) x (v_table vm) (v_procs_cap vm) (v_procs_count vm) (v_retired vm) (v_runq vm) (v_next_pid vm) (v_next_ref vm) (v_image vm) (v_main_pid vm) (v_main_dead vm) (v_main_crashed vm) (v_entry_done vm) (v_exit_val vm) (v_symtab vm) (v_active vm) (v_recv_armed vm) (v_wait vm) (v_wait_count vm) (v_stop vm) (v_wakes vm) (v_closed vm) (v_reads vm).
Definition set_v_table (x : gset Z) (vm : VM) : VM :=
  mk_VM (v_store vm) (v_procs vm) x (v_procs_cap vm) (v_procs_count vm) (v_retired vm) (v_runq vm) (v_next_pid vm) (v_next_ref vm) (v_image vm) (v_main_pid vm) (v_main_dead vm) (v_main_crashed vm) (v_entry_done vm) (v_exit_val vm) (v_symtab vm) (v_active vm) (v_recv_armed vm) (v_wait vm) (v_wait_count vm) (v_stop vm) (v_wakes vm) (v_closed vm) (v_reads vm).
Definition set_v_procs_cap (x : Z) (vm : VM) : VM :=
  mk_VM (v_store vm) (v_procs vm) (v_table vm) x (v_procs_count vm) (v_retired vm) (v_runq vm) (v_next_pid vm) (v_next_ref vm) (v_image vm) (v_main_pid vm) (v_main_dead vm) (v_main_crashed vm) (v_entry_done vm) (v_exit_val vm) (v_symtab vm) (v_active vm) (v_recv_armed vm) (v_wait vm) (v_wait_count vm) (v_stop vm) (v_wakes vm) (v_closed vm) (v_reads vm).
Definition set_v_procs_count (x : Z) (vm : VM) : VM :=
  mk_VM (v_store vm) (v_procs vm) (v_table vm) (v_procs_cap vm) x (v_retired vm) (v_runq vm) (v_next_pid vm) (v_next_ref vm) (v_image vm) (v_main_pid vm) (v_main_dead vm) (v_main_crashed vm) (v_entry_done vm) (v_exit_val vm) (v_symtab vm) (v_active vm) (v_recv_armed vm) (v_wait vm) (v_wait_count vm) (v_stop vm) (v_wakes vm) (v_closed vm) (v_reads vm).
Definition set_v_retired (x : list Z) (vm : VM) : VM :=
  mk_VM (v_store vm) (v_procs vm) (v_table vm) (v_procs_cap vm) (v_procs_count vm) x (v_runq vm) (v_next_pid vm) (v_next_ref vm) (v_image vm) (v_main_pid vm) (v_main_dead vm) (v_main_crashed vm) (v_entry_done vm) (v_exit_val vm) (v_symtab vm) (v_active vm) (v_recv_armed vm) (v_wait vm) (v_wait_count vm) (v_stop vm) (v_wakes vm) (v_closed vm) (v_reads vm).
Definition set_v_runq (x : runq) (vm : VM) : VM :=
  mk_VM (v_store vm) (v_procs vm) (v_table vm) (v_procs_cap vm) (v_procs_count vm) (v_retired vm) x (v_next_pid vm) (v_next_ref vm) (v_image vm) (v_main_pid vm) (v_main_dead vm) (v_main_crashed vm) (v_entry_done vm) (v_exit_val vm) (v_symtab vm) (v_active vm) (v_recv_armed vm) (v_wait vm) (v_wait_count vm) (v_stop vm) (v_wakes vm) (v_closed vm) (v_reads vm).
Definition set_v_next_pid (x : Z) (vm : VM) : VM :=
  mk_VM (v_store vm) (v_procs vm) (v_table vm) (v_procs_cap vm) (v_procs_count vm) (v_retired vm) (v_runq vm) x (v_next_ref vm) (v_image vm) (v_main_pid vm) (v_main_dead vm) (v_main_crashed vm) (v_entry_done vm) (v_exit_val vm) (v_symtab vm) (v_active vm) (v_recv_armed vm) (v_wait vm) (v_wait_count vm) (v_stop vm) (v_wakes vm) (v_closed vm) (v_reads vm).
Definition set_v_next_ref (x : Z) (vm : VM) : VM :=
  mk_VM (v_store vm) (v_procs vm) (v_table vm) (v_procs_cap vm) (v_procs_count vm) (v_retired vm) (v_runq vm) (v_next_pid vm) x (v_image vm) (v_main_pid vm) (v_main_dead vm) (v_main_crashed vm) (v_entry_done vm) (v_exit_val vm) (v_symtab vm) (v_active vm) (v_recv_armed vm) (v_wait vm) (v_wait_count vm) (v_stop vm) (v_wakes vm) (v_closed vm) (v_reads vm).
Definition set_v_image (x : Image) (vm : VM) : VM :=
  mk_VM (v_store vm) (v_procs vm) (v_table vm) (v_procs_cap vm) (v_procs_count vm) (v_retired vm) (v_runq vm) (v_next_pid vm) (v_next_ref vm) x (v_main_pid vm) (v_main_dead vm) (v_main_crashed vm) (v_entry_done vm) (v_exit_val vm) (v_symtab vm) (v_active vm) (v_recv_armed vm) (v_wait vm) (v_wait_count vm) (v_stop vm) (v_wakes vm) (v_closed vm) (v_reads vm).
Definition set_v_main_pid (x : Z) (vm : VM) : VM :=
  mk_VM (v_store vm) (v_procs vm) (v_table vm) (v_procs_cap vm) (v_procs_count vm) (v_retired vm) (v_runq vm) (v_next_pid vm) (v_next_ref vm) (v_image vm) x (v_main_dead vm) (v_main_crashed vm) (v_entry_done vm) (v_exit_val vm) (v_symtab vm) (v_active vm) (v_recv_armed vm) (v_wait vm) (v_wait_count vm) (v_stop vm) (v_wakes vm) (v_closed vm) (v_reads vm).
Definition set_v_main_dead (x : bool) (vm : VM) : VM :=
  mk_VM (v_store vm) (v_procs vm) (v_table vm) (v_procs_cap vm) (v_procs_count vm) (v_retired vm) (v_runq vm) (v_next_pid vm) (v_next_ref vm) (v_image vm) (v_main_pid vm) x (v_main_crashed vm) (v_entry_done vm) (v_exit_val vm) (v_symtab vm) (v_active vm) (v_recv_armed vm) (v_wait vm) (v_wait_count vm) (v_stop vm) (v_wakes vm) (v_closed vm) (v_reads vm).
Definition set_v_main_crashed (x : bool) (vm : VM) : VM :=
  mk_VM (v_store vm) (v_procs vm) (v_table vm) (v_procs_cap vm) (v_procs_count vm) (v_retired vm) (v_runq vm) (v_next_pid vm) (v_next_ref vm) (v_image vm) (v_main_pid vm) (v_main_dead vm) x (v_entry_done vm) (v_exit_val vm) (v_symtab vm) (v_active vm) (v_recv_armed vm) (v_wait vm) (v_wait_count vm) (v_stop vm) (v_wakes vm) (v_closed vm) (v_reads vm).
Definition set_v_entry_done (x : bool) (vm : VM) : VM :=
  mk_VM (v_store vm) (v_procs vm) (v_table vm) (v_procs_cap vm) (v_procs_count vm) (v_retired vm) (v_runq vm) (v_next_pid vm) (v_next_ref vm) (v_image vm) (v_main_pid vm) (v_main_dead vm) (v_main_crashed vm) x (v_exit_val vm) (v_symtab vm) (v_active vm) (v_recv_armed vm) (v_wait vm) (v_wait_count vm) (v_stop vm) (v_wakes vm) (v_closed vm) (v_reads vm).
Definition set_v_exit_val (x : Val) (vm : VM) : VM :=
  mk_VM (v_store vm) (v_procs vm) (v_table vm) (v_procs_cap vm) (v_procs_count vm) (v_retired vm) (v_runq vm) (v_next_pid vm) (v_next_ref vm) (v_image vm) (v_main_pid vm) (v_main_dead vm) (v_main_crashed vm) (v_entry_done vm) x (v_symtab vm) (v_active vm) (v_recv_armed vm) (v_wait vm) (v_wait_count vm) (v_stop vm) (v_wakes vm) (v_closed vm) (v_reads vm).
Definition set_v_symtab (x : symtab) (vm : VM) : VM :=
  mk_VM (v_store vm) (v_procs vm) (v_table vm) (v_procs_cap vm) (v_procs_count vm) (v_retired vm) (v_runq vm) (v_next_pid vm) (v_next_ref vm) (v_image vm) (v_main_pid vm) (v_main_dead vm) (v_main_crashed vm) (v_entry_done vm) (v_exit_val vm) x (v_active vm) (v_recv_armed vm) (v_wait vm) (v_wait_count vm) (v_stop vm) (v_wakes vm) (v_closed vm) (v_reads vm).
Definition set_v_active (x : Z) (vm : VM) : VM :=
  mk_VM (v_store vm) (v_procs vm) (v_table vm) (v_procs_cap vm) (v_procs_count vm) (v_retired vm) (v_runq vm) (v_next_pid vm) (v_next_ref vm) (v_image vm) (v_main_pid vm) (v_main_dead vm) (v_main_crashed vm) (v_entry_done vm) (v_exit_val vm) (v_symtab vm) x (v_recv_armed vm) (v_wait vm) (v_wait_count vm) (v_stop vm) (v_wakes vm) (v_closed vm) (v_reads vm).
Definition set_v_recv_armed (x : Z) (vm : VM) : VM :=
  mk_VM (v_store vm) (v_procs vm) (v_table vm) (v_procs_cap vm) (v_procs_count vm) (v_retired vm) (v_runq vm) (v_next_pid vm) (v_next_ref vm) (v_image vm) (v_main_pid vm) (v_main_dead vm) (v_main_crashed vm) (v_entry_done vm) (v_exit_val vm) (v_symtab vm) (v_active vm) x (v_wait vm) (v_wait_count vm) (v_stop vm) (v_wakes vm) (v_closed vm) (v_reads vm).
Definition set_v_wait (x : list Z) (vm : VM) : VM :=
  mk_VM (v_store vm) (v_procs vm) (v_table vm) (v_procs_cap vm) (v_procs_count vm) (v_retired vm) (v_runq vm) (v_next_pid vm) (v_next_ref vm) (v_image vm) (v_main_pid vm) (v_main_dead vm) (v_main_crashed vm) (v_entry_done vm) (v_exit_val vm) (v_symtab vm) (v_active vm) (v_recv_armed vm) x (v_wait_count vm) (v_stop vm) (v_wakes vm) (v_closed vm) (v_reads vm).
Definition set_v_wait_count (x : Z) (vm : VM) : VM :=
  mk_VM (v_store vm) (v_procs vm) (v_table vm) (v_procs_cap vm) (v_procs_count vm) (v_retired vm) (v_runq vm) (v_next_pid vm) (v_next_ref vm) (v_image vm) (v_main_pid vm) (v_main_dead vm) (v_main_crashed vm) (v_entry_done vm) (v_exit_val vm) (v_symtab vm) (v_active vm) (v_recv_armed vm) (v_wait vm) x (v_stop vm) (v_wakes vm) (v_closed vm) (v_reads vm).
Definition set_v_stop (x : bool) (vm : VM) : VM :=
  mk_VM (v_store vm) (v_procs vm) (v_table vm) (v_procs_cap vm) (v_procs_count vm) (v_retired vm) (v_runq vm) (v_next_pid vm) (v_next_ref vm) (v_image vm) (v_main_pid vm) (v_main_dead vm) (v_main_crashed vm) (v_entry_done vm) (v_exit_val vm) (v_symtab vm) (v_active vm) (v_recv_armed vm) (v_wait vm) (v_wait_count vm) x (v_wakes vm) (v_closed vm) (v_reads vm).
Definition set_v_wakes (x : Z) (vm : VM) : VM :=
  mk_VM (v_store vm) (v_procs vm) (v_table vm) (v_procs_cap vm) (v_procs_count vm) (v_retired vm) (v_runq vm) (v_next_pid vm) (v_next_ref vm) (v_image vm) (v_main_pid vm) (v_main_dead vm) (v_main_crashed vm) (v_entry_done vm) (v_exit_val vm) (v_symtab vm) (v_active vm) (v_recv_armed vm) (v_wait vm) (v_wait_count vm) (v_stop vm) x (v_closed vm) (v_reads vm).
Definition set_v_closed (x : list Z) (vm : VM) : VM :=
  mk_VM (v_store vm) (v_procs vm) (v_table vm) (v_procs_cap vm) (v_procs_count vm) (v_retired vm) (v_runq vm) (v_next_pid vm) (v_next_ref vm) (v_image vm) (v_main_pid vm) (v_main_dead vm) (v_main_crashed vm) (v_entry_done vm) (v_exit_val vm) (v_symtab vm) (v_active vm) (v_recv_armed vm) (v_wait vm) (v_wait_count vm) (v_stop vm) (v_wakes vm) x (v_reads vm).
Definition set_v_reads (x : nat) (vm : VM) : VM :=
  mk_VM (v_store vm) (v_procs vm) (v_table vm) (v_procs_cap vm) (v_procs_count vm) (v_retired vm) (v_runq vm) (v_next_pid vm) (v_next_ref vm) (v_image vm) (v_main_pid vm) (v_main_dead vm) (v_main_crashed vm) (v_entry_done vm) (v_exit_val vm) (v_symtab vm) (v_active vm) (v_recv_armed vm) (v_wait vm) (v_wait_count vm) (v_stop vm) (v_wakes vm) (v_closed vm) x.

(** ** Access *)
Definition get_proc (vm : VM) (p : Z) : outcome Proc := or_undef (v_procs vm !! p).
Definition put_proc (p : Z) (pr : Proc) (vm : VM) : VM := set_v_procs (<[p := pr]> (v_procs vm)) vm.
(** Update the fields of process [p]. *)
Definition on_proc (p : Z) (f : Proc → Proc) (vm : VM) : VM := set_v_procs (alter f p (v_procs vm)) vm.
(** Replace the memory of process [p] and the store together: every operation
    of the memory components has this shape. *)
Definition put_mem (p : Z) (st : store) (m : ProcMem) (vm : VM) : VM :=
  set_v_store st (on_proc p (set_p_mem m) vm).

(** What [proc_new] leaves in a fresh process. *)
Definition proc_init (id : Z) : Proc :=
  mk_Proc (proc_mem_init id) PROC_RUNNING false 0 0 0 0 false None mailbox_init [] (-1) 0 false 0 (-1) (-1).

(** A table slot, as read under [procs_lock]. *)
Definition vm_proc_lookup (vm : VM) (pid : Z) : option Z :=
  if (pid <? 0) || (v_procs_cap vm <=? pid) then None
  else if bool_decide (pid ∈ v_table vm) then Some pid else None.
