(* ===== verification/Sched.v ===== *)
(** Message delivery, process lifecycle and wait registration of
    src/scheduler.c. *)
From stdpp Require Import base tactics list gmap strings.
From Stdlib Require Import ZArith Lia.
From S2P Require Import Prelude Values Heap Resource Gc GcCorrect GcSpec Tree Alloc Copy Fragment Runq Mailbox Symtab Vm.
Open Scope Z_scope.

Definition SIZEOF_MSG_FRAGMENT : Z := 24.

(** A write to the wake pipe; the pipe exists while the machine runs. *)
Definition vm_wake_poller (vm : VM) : VM := set_v_wakes (v_wakes vm + 1) vm.

(** ** Wait registration *)
Definition wait_register (vm : VM) (p : Z) : outcome VM :=
  pr ← get_proc vm p;
  let vm :=
    if negb (p_wait_registered pr) then
      set_v_wait_count (v_wait_count vm + 1)
        (set_v_wait (p :: v_wait vm)
          (on_proc p (λ pr, set_p_wait_generation (u32 (p_wait_generation pr + 1)) (set_p_wait_registered true pr)) vm))
    else vm in
  let needs_wakeup := bool_decide (p_state pr = PROC_WAIT_IO) || (0 <=? p_recv_deadline pr) in
  Ret (if needs_wakeup then vm_wake_poller vm else vm).

(** Unlink [p] from the wait list ([link] stops at its first occurrence). *)
Fixpoint unlink (p : Z) (l : list Z) : list Z :=
  match l with
  | [] => []
  | q :: l => if q =? p then l else q :: unlink p l
  end.

Definition wait_unregister_locked (vm : VM) (p : Z) : outcome VM :=
  pr ← get_proc vm p;
  if p_wait_registered pr then
    Ret (set_v_wait_count (v_wait_count vm - 1)
          (set_v_wait (unlink p (v_wait vm))
            (on_proc p (λ pr, set_p_wait_generation (u32 (p_wait_generation pr + 1)) (set_p_wait_registered false pr)) vm)))
  else Ret vm.

Definition vm_wait_unregister (vm : VM) (p : Z) : outcome VM :=
  vm ← wait_unregister_locked vm p;
  Ret (vm_wake_poller vm).

Definition vm_enqueue (vm : VM) (p : Z) : outcome VM :=
  q ← runq_enqueue (v_runq vm) p;
  Ret (set_v_runq q vm).

(** [PROC_RUNNING] and into the run queue: how every wake-up ends. *)
Definition set_state (p : Z) (s : ProcState) (vm : VM) : VM := on_proc p (set_p_state s) vm.

Section Sched.
(** [cap] and [stress] are the environment's arena cap and collection stress;
    [fuel] bounds the tree walks of copies; the symbol table's probes get
    [sym_fuel]. *)
Context (cap stress : Z) (fuel sym_fuel : nat).

(** ** Delivery *)

(** [mbox_deliver]: 0, or -1 for a message whose resources may not be sent.
    [cur] is [tls_current_proc] ([None] on the poller thread). *)
Definition mbox_deliver (cur : option Z) (vm : VM) (target : Z) (msg : Val) : outcome (Z * VM) :=
  let st := v_store vm in
  '(need, has_res) ← frag_calc_size fuel st msg;
  ok ← (if (has_res : bool) then resource_send_check fuel st msg cur target else Ret true);
  if negb ok then Ret (-1, vm)
  else
    match malloc st (SIZEOF_MSG_FRAGMENT + need) with
    | None => Ret (0, vm)
    | Some (frag, st) =>
        '(root, st, _) ← frag_copy fuel st (frag + SIZEOF_MSG_FRAGMENT) msg;
        let vm := set_v_store st vm in
        t ← get_proc vm target;
        if bool_decide (p_state t = PROC_DEAD) then Ret (0, vm)
        else
          box ← mbox_append (p_box t) frag root;
          let vm := on_proc target (set_p_box box) vm in
          vm ← (if (has_res : bool) then
                  st ← val_set_resource_owner fuel (v_store vm) root target;
                  st ← val_set_resource_owner fuel st msg target;
                  Ret (set_v_store st vm)
                else Ret vm);
          if bool_decide (p_state t = PROC_WAIT_RECV) then
            vm ← vm_wait_unregister (set_state target PROC_RUNNING vm) target;
            vm ← vm_enqueue vm target;
            Ret (0, vm)
          else Ret (0, vm)
    end.

(** [mbox_pop]: detach the head fragment and rebuild its tree on the heap. *)
Definition mbox_pop (vm : VM) (p : Z) : outcome (Val * VM) :=
  pr ← get_proc vm p;
  '(root, box) ← mbox_detach (p_box pr);
  let vm := on_proc p (set_p_box box) vm in
  n ← val_calc_heap_size fuel (v_store vm) root;
  '(st, m) ← proc_reserve_heap cap (v_store vm) (p_mem pr) n;
  '(r, st, m) ← val_deep_copy cap stress None fuel st m root;
  match r with
  | inl v => Ret (v, put_mem p st m vm)
  | inr _ => Undef
  end.

(** ** Process lifecycle *)
Definition FATAL_PROCS : string := "fatal: process table exhausted".

Definition proc_new (vm : VM) : outcome (Z * VM) :=
  let p := v_next_pid vm in
  let vm := set_v_next_pid (p + 1) vm in
  if v_procs_cap vm <=? p then Abort FATAL_PROCS
  else
    let vm := put_proc p (proc_init p) vm in
    let vm := set_v_table ({[ p ]} ∪ v_table vm) vm in
    let vm := set_v_procs_count (v_procs_count vm + 1) vm in
    Ret (p, set_v_active (v_active vm + 1) vm).

(** [for (k = 1; k < npre; k++) proc_push(p, val_nil())]. *)
Fixpoint push_nils (st : store) (m : ProcMem) (n : nat) : outcome (store * ProcMem) :=
  match n with
  | O => Ret (st, m)
  | S n => '(st, m) ← proc_push cap st m val_nil; push_nils st m n
  end.

Definition proc_frame_init (vm : VM) (p fnid : Z) (fnval : Val) : outcome VM :=
  pr ← get_proc vm p;
  nargs ← or_undef (fn_args (v_image vm) !! Z.to_nat fnid);
  maxd ← or_undef (fn_maxd (v_image vm) !! Z.to_nat fnid);
  entry ← or_undef (fn_entry (v_image vm) !! Z.to_nat fnid);
  let npre := 4 + nargs in
  '(st, m) ← proc_push cap (v_store vm) (p_mem pr) fnval;
  '(st, m) ← proc_stack_reserve cap st m (- (1 + maxd));
  '(st, m) ← push_nils st m (Z.to_nat (npre - 1));
  Ret (on_proc p (λ pr, set_p_base 0 (set_p_pc entry (set_p_cbase entry pr))) (put_mem p st m vm)).

Definition vm_request_stop (vm : VM) : VM := vm_wake_poller (set_v_stop true vm).

(** Clear one waiter of the list when main has died. *)
Definition clear_wait (vm : VM) (p : Z) : VM :=
  set_v_wait_count (v_wait_count vm - 1)
    (on_proc p (λ pr, set_p_wait_generation (u32 (p_wait_generation pr + 1)) (set_p_wait_registered false pr)) vm).
(** Kill process [q] if it is parked. *)
Definition kill_parked (vm : VM) (q : Z) : VM :=
  match v_procs vm !! q with
  | Some qr =>
      if bool_decide (q ∈ v_table vm) && (bool_decide (p_state qr = PROC_WAIT_IO) || bool_decide (p_state qr = PROC_WAIT_RECV))
      then set_v_active (v_active vm - 1) (set_state q PROC_DEAD vm)
      else vm
  | None => vm
  end.

(** The shutdown part of [proc_die]: the machine stops with its last process;
    when main dies, parked processes are killed at once. *)
Definition die_shutdown (vm : VM) (p : Z) : VM :=
  if v_active vm =? 0 then vm_request_stop vm
  else if p =? v_main_pid vm then
    let vm := set_v_main_dead true vm in
    let waiting := v_wait vm in
    let vm := foldl clear_wait (set_v_wait [] vm) waiting in
    let vm := foldl kill_parked vm (seqZ 0 (v_procs_cap vm)) in
    if v_active vm =? 0 then vm_request_stop vm else vm_wake_poller vm
  else vm.

(** ('DOWN ref pid reason), built on the heap of [p]. *)
Definition down_message (st : store) (m : ProcMem) (sym : Z) (ref : Val) (reason : Val) : outcome (Val * store * ProcMem) :=
  '(v, st, m) ← val_pair cap stress st m reason val_nil;
  '(v, st, m) ← val_pair cap stress st m (val_pid (pid m)) v;
  '(v, st, m) ← val_pair cap stress st m ref v;
  val_pair cap stress st m (val_symbol sym) v.

Definition intern_vm (vm : VM) (name : string) : outcome (Z * VM) :=
  '(id, t) ← vm_intern_symbol true true sym_fuel (v_symtab vm) name;
  Ret (id, set_v_symtab t vm).

(** One watcher of the dying process. *)
Definition notify_watcher (cur : option Z) (p : Z) (reason : Val) (vm : VM) (w : Z * Val) : outcome VM :=
  let '(wid, ref) := w in
  match vm_proc_lookup vm wid with
  | None => Ret vm
  | Some wid =>
      wr ← get_proc vm wid;
      if bool_decide (p_state wr = PROC_DEAD) then Ret vm
      else
        '(down_sym, vm) ← intern_vm vm "DOWN";
        pr ← get_proc vm p;
        '(msg, st, m) ← down_message (v_store vm) (p_mem pr) down_sym ref reason;
        '(_, vm) ← mbox_deliver cur (put_mem p st m vm) wid msg;
        Ret vm
  end.

(** [while (frag)]: release the resources of every undelivered message. *)
Fixpoint drop_fragments (st : store) (m : mailbox) (a : Z) (n : nat) (p : Z) : outcome store :=
  if a =? 0 then Ret st
  else
    match n with
    | O => NoFuel
    | S n =>
        f ← frag_at m a;
        st ← resource_release_tree fuel st (f_root f) p;
        drop_fragments st m (f_next f) n p
    end.

Definition proc_die (cur : option Z) (vm : VM) (p : Z) (reason : Val) : outcome VM :=
  pr ← get_proc vm p;
  let vm := if (p =? v_main_pid vm) && negb (val_is_nil reason) then set_v_main_crashed true vm else vm in
  let was_wait_io := bool_decide (p_state pr = PROC_WAIT_IO) in
  vm ← vm_wait_unregister (set_state p PROC_DEAD vm) p;
  let vm := set_v_active (v_active vm - 1) vm in
  let vm := set_v_procs_count (v_procs_count vm - 1) (set_v_table (v_table vm ∖ {[ p ]}) vm) in
  let vm := die_shutdown vm p in
  let vm := if was_wait_io && (0 <=? p_wait_fd pr)
            then on_proc p (set_p_wait_fd (-1)) (set_v_closed (v_closed vm ++ [p_wait_fd pr]) vm) else vm in
  '(st, m) ← proc_reserve_heap cap (v_store vm) (p_mem pr)
               (Z.of_nat (length (p_watchers pr)) * 4 * ta_heap_object_size SIZEOF_PAIR);
  let vm := put_mem p st (proc_gc_enter m) vm in
  vm ← foldM (notify_watcher cur p reason) vm (p_watchers pr);
  pr ← get_proc vm p;
  m ← proc_gc_leave (p_mem pr);
  let box := p_box pr in
  st ← drop_fragments (v_store vm) box (mbox_frag_head box) (Z.to_nat (mbox_count box)) p;
  st ← (if mem m =? 0 then Ret st else resource_release_space st (mem m) (heap_ptr m) p false);
  let m := set_gc_pending false (set_heap_ptr 0 (set_mem_size 0 (set_gc_to 0 (set_mem 0 m)))) in
  let vm := on_proc p (set_p_box (mk_mailbox 0 0 0 (peek_index box) ∅)) (put_mem p st m vm) in
  Ret (set_v_retired (p :: v_retired vm) vm).
End Sched.

(** * Delivery *)

Lemma lookup_on_proc p f vm q :
  v_procs (on_proc p f vm) !! q = (if decide (q = p) then f <$> v_procs vm !! q else v_procs vm !! q).
Proof.
  unfold on_proc. simpl. destruct (decide (q = p)) as [->|Hne]; [apply lookup_alter_eq|by apply lookup_alter_ne].
Qed.

Lemma on_proc_eq p f vm pr : v_procs vm !! p = Some pr → v_procs (on_proc p f vm) !! p = Some (f pr).
Proof. intros H. by rewrite lookup_on_proc, decide_True, H. Qed.

Lemma get_proc_ret vm p pr : get_proc vm p = Ret pr ↔ v_procs vm !! p = Some pr.
Proof. apply or_undef_Ret. Qed.

(** Processes other than [p] are untouched. *)
Definition only_proc (p : Z) (vm vm' : VM) : Prop := ∀ q, q ≠ p → v_procs vm' !! q = v_procs vm !! q.

Lemma only_proc_trans p vm1 vm2 vm3 : only_proc p vm1 vm2 → only_proc p vm2 vm3 → only_proc p vm1 vm3.
Proof. intros H1 H2 q Hq. by rewrite H2, H1. Qed.

Lemma only_on_proc p f vm : only_proc p vm (on_proc p f vm).
Proof. intros q Hq. by rewrite lookup_on_proc, decide_False. Qed.

(** What waking a process up leaves of it. *)
Definition woken (pr : Proc) : Proc :=
  let pr := set_p_state PROC_RUNNING pr in
  if p_wait_registered pr
  then set_p_wait_generation (u32 (p_wait_generation pr + 1)) (set_p_wait_registered false pr) else pr.

Lemma woken_fields pr : p_mem (woken pr) = p_mem pr ∧ p_box (woken pr) = p_box pr ∧ p_state (woken pr) = PROC_RUNNING.
Proof. unfold woken. by case_match. Qed.

Lemma wake_spec vm p pr q :
  v_procs vm !! p = Some pr → rq_repr (v_runq vm) q → rq_room (v_runq vm) →
  ∃ vm', (vm ← vm_wait_unregister (set_state p PROC_RUNNING vm) p; vm_enqueue vm p) = Ret vm' ∧
    v_procs vm' !! p = Some (woken pr) ∧ only_proc p vm vm' ∧ rq_repr (v_runq vm') (q ++ [p]) ∧
    v_store vm' = v_store vm ∧ v_table vm' = v_table vm.
Proof.
  intros Hp R Hr. unfold vm_wait_unregister, wait_unregister_locked.
  set (vm1 := set_state p PROC_RUNNING vm).
  assert (Hp1 : v_procs vm1 !! p = Some (set_p_state PROC_RUNNING pr)) by (by apply on_proc_eq).
  rewrite (proj2 (get_proc_ret _ _ _) Hp1). cbn [mbind outcome_bind].
  set (vm2 := if p_wait_registered (set_p_state PROC_RUNNING pr) then _ else _).
  assert (E2 : ∃ vm3, vm2 = Ret vm3 ∧ v_procs vm3 !! p = Some (woken pr) ∧ only_proc p vm vm3 ∧
    v_runq vm3 = v_runq vm ∧ v_store vm3 = v_store vm ∧ v_table vm3 = v_table vm).
  { unfold vm2, woken. change (p_wait_registered (set_p_state PROC_RUNNING pr)) with (p_wait_registered pr).
    destruct (p_wait_registered pr) eqn:Ew.
    - eexists. split; [done|]. split.
      + change (v_procs (set_v_wait_count ?n (set_v_wait ?l ?x))) with (v_procs x). erewrite on_proc_eq by done. done.
      + split; [|done]. intros x Hx. simpl. rewrite !lookup_alter_ne by done. done.
    - exists vm1. split; [done|]. split; [done|]. split; [apply only_on_proc|done]. }
  destruct E2 as (vm3&->&H3&O3&Q3&S3&T3). cbn [mbind outcome_bind]. unfold vm_enqueue.
  change (v_runq (vm_wake_poller vm3)) with (v_runq vm3). rewrite Q3.
  destruct (enqueue_spec _ _ p R Hr) as (q'&->&R'&_). cbn [mbind outcome_bind].
  eexists. split; [done|]. done.
Qed.

Section Deliver.
Context (fuel : nat).

(** Delivering a message without resources to a live process: the message is
    appended, serialised into a fresh block; a process blocked in a receive, and
    only that, becomes runnable and is enqueued. *)
Lemma deliver_spec cur vm tgt msg t F pr l q :
  let st := v_store vm in
  v_procs vm !! tgt = Some pr → p_state pr ≠ PROC_DEAD →
  mbox_repr (p_box pr) l → (∀ a, a ∈ l.*1 → a < brk st) →
  rq_repr (v_runq vm) q → rq_room (v_runq vm) →
  repr F st msg t → (∀ a, F a → a < brk st) → has_resource t = false →
  (nodes t ≤ fuel)%nat → (steps t ≤ fuel)%nat →
  0 < brk st → brk st + SIZEOF_MSG_FRAGMENT + frag_bytes t < ADDR_LIMIT →
  ∃ root vm' pr', mbox_deliver fuel cur vm tgt msg = Ret (0, vm') ∧
    v_procs vm' !! tgt = Some pr' ∧ only_proc tgt vm vm' ∧ v_table vm' = v_table vm ∧
    p_mem pr' = p_mem pr ∧ mbox_repr (p_box pr') (l ++ [(brk st, root)]) ∧
    peek_index (p_box pr') = peek_index (p_box pr) ∧
    p_state pr' = (if decide (p_state pr = PROC_WAIT_RECV) then PROC_RUNNING else p_state pr) ∧
    rq_repr (v_runq vm') (if decide (p_state pr = PROC_WAIT_RECV) then q ++ [tgt] else q) ∧
    repr (λ a, brk st + SIZEOF_MSG_FRAGMENT ≤ a < brk (v_store vm')) (v_store vm') root t ∧
    (∀ a, a < brk st → cells (v_store vm') !! a = cells st !! a) ∧
    payloads (v_store vm') = payloads st ∧ brk st ≤ brk (v_store vm') ≤ brk st + SIZEOF_MSG_FRAGMENT + frag_bytes t + 16.
Proof.
  intros st Hp Hd Hbox Hfresh HR Hroom Hr HF Hres Hf1 Hf2 Hb Hlim.
  set (need := frag_bytes t). assert (Hn : 0 ≤ need) by apply (frag_bytes_nonneg t).
  unfold SIZEOF_MSG_FRAGMENT in *. unfold mbox_deliver. fold st. unfold frag_calc_size.
  rewrite (size_loop_fuel _ F _ _ t) by done. cbn [mbind outcome_bind]. rewrite Hres. cbn [mbind outcome_bind negb].
  change (bytes_by FRAG_ALIGN8 t) with need. unfold SIZEOF_MSG_FRAGMENT, malloc.
  destruct (Z.ltb_spec (brk st + (24 + need)) ADDR_LIMIT); [|unfold need in *; lia].
  set (b' := brk st + 16 * ((24 + need) / 16 + 1)).
  assert (Hb' : brk st + 24 + need ≤ b' ≤ brk st + 24 + need + 16) by (unfold b'; Z.div_mod_to_equations; lia).
  set (st1 := mk_store (cells st) (payloads st) (dtor_calls st) b').
  destruct (frag_copy_spec (brk st + 24) need F ltac:(lia) ltac:(unfold need in *; lia) ltac:(intros a Ha; left; specialize (HF a Ha); lia)
    st1 msg t (fuel - steps t)%nat) as (root&st2&size&E&R2&_&Hfr&Hpay&_&Hbrk); [|done|].
  { eapply repr_mono; [|exact Hr]. done. }
  replace (steps t + (fuel - steps t))%nat with fuel in E by lia. rewrite E. cbn [mbind outcome_bind].
  rewrite (proj2 (get_proc_ret (set_v_store st2 vm) tgt pr) Hp). cbn [mbind outcome_bind].
  rewrite bool_decide_eq_false_2 by done.
  destruct (append_spec (p_box pr) l (brk st) root Hbox) as (box&->&Hbox'&Hpk);
    [lia|intros Hin; specialize (Hfresh _ Hin); lia|]. cbn [mbind outcome_bind].
  set (vm1 := on_proc tgt (set_p_box box) (set_v_store st2 vm)).
  assert (Hp1 : v_procs vm1 !! tgt = Some (set_p_box box pr)) by (by apply on_proc_eq).
  assert (O1 : only_proc tgt vm vm1).
  { intros x Hx. exact (only_on_proc tgt (set_p_box box) (set_v_store st2 vm) x Hx). }
  assert (Hst : repr (λ a, brk st + 24 ≤ a < brk st2) st2 root t).
  { eapply repr_mono; [|exact R2]. intros a Ha. cbv beta in Ha. split; [|done]. cbv beta. rewrite Hbrk. change (brk st1) with b'. lia. }
  assert (Hcells : ∀ a, a < brk st → cells st2 !! a = cells st !! a).
  { intros a Ha. rewrite Hfr by lia. done. }
  assert (Hbk : brk st ≤ brk st2 ≤ brk st + 24 + need + 16) by (rewrite Hbrk; change (brk st1) with b'; lia).
  destruct (decide (p_state pr = PROC_WAIT_RECV)) as [Hw|Hw].
  - rewrite bool_decide_eq_true_2 by done.
    destruct (wake_spec vm1 tgt (set_p_box box pr) q Hp1 HR Hroom) as (vm2&E2&Hp2&O2&R2'&S2&T2).
    destruct (vm_wait_unregister (set_state tgt PROC_RUNNING vm1) tgt) as [vmx| | |] eqn:Ex; try done.
    cbn [mbind outcome_bind] in E2 |- *. rewrite E2. cbn [mbind outcome_bind].
    destruct (woken_fields (set_p_box box pr)) as (W1&W2&W3).
    exists root, vm2, (woken (set_p_box box pr)). rewrite S2, T2, W1, W2, W3.
    split; [done|]. split; [done|]. split; [by eapply only_proc_trans|]. done.
  - rewrite bool_decide_eq_false_2 by done. exists root, vm1, (set_p_box box pr). done.
Qed.
End Deliver.

Section RoundTrip.
Context (cap stress : Z) (fuel : nat) (K : Z → Prop) (T : Z → tree).

(** Popping the head message rebuilds its tree on the receiver's heap. *)
Lemma pop_spec vm p pr objs l a root t F :
  v_procs vm !! p = Some pr → mbox_repr (p_box pr) ((a, root) :: l) →
  actor_ok cap K (v_store vm) (p_mem pr) objs T → fits (p_mem pr) →
  0 ≤ gc_gate (p_mem pr) → ccall (p_mem pr) = None →
  (∀ a, F a → foreign (v_store vm) (p_mem pr) a) → repr F (v_store vm) root t → has_resource t = false →
  tree_bytes t ≤ 2 ^ 28 → brk (v_store vm) + cap < ADDR_LIMIT → (nodes t ≤ fuel)%nat → (steps t ≤ fuel)%nat →
  ((∃ why, mbox_pop cap stress fuel vm p = Abort why) ∧
     cap < heap_ptr (p_mem pr) + tree_bytes t + TA_STACK_HEADROOM + - proc_stack_lo (p_mem pr) * 8) ∨
  ∃ v vm' pr' objs', mbox_pop cap stress fuel vm p = Ret (v, vm') ∧
    v_procs vm' !! p = Some pr' ∧ only_proc p vm vm' ∧ mbox_repr (p_box pr') l ∧
    actor_ok cap K (v_store vm') (p_mem pr') objs' T ∧
    repr (arena_addr K (p_mem pr') objs') (v_store vm') v t ∧
    p_state pr' = p_state pr ∧ v_runq vm' = v_runq vm ∧ same_control (p_mem pr) (p_mem pr').
Proof.
  intros Hp Hbox A Fi Hg Hc HF Hr Hres Hb Hlim Hf1 Hf2. unfold mbox_pop.
  rewrite (proj2 (get_proc_ret _ _ _) Hp). cbn [mbind outcome_bind].
  destruct (detach_spec _ _ _ _ Hbox) as (box&->&Hbox'&_). cbn [mbind outcome_bind].
  change (v_store (on_proc p (set_p_box box) vm)) with (v_store vm).
  destruct (receive_copy_spec fuel cap stress K T F (v_store vm) (p_mem pr) objs root t A Fi Hg Hc HF Hr Hres Hb Hlim Hf1 Hf2)
    as [[[why E] Hcap]|(v&st'&m'&objs'&E&A'&R'&C'&_)].
  - left. split; [|done]. exists why.
    destruct (val_calc_heap_size fuel (v_store vm) root) as [n| | |]; cbn [mbind outcome_bind] in E |- *; try done; try (by injection E as ->).
    destruct (proc_reserve_heap cap (v_store vm) (p_mem pr) n) as [[st1 m1]| | |]; cbn [mbind outcome_bind] in E |- *; try done; try (by injection E as ->).
    rewrite E. done.
  - right. destruct (val_calc_heap_size fuel (v_store vm) root) as [n| | |]; cbn [mbind outcome_bind] in E |- *; try done.
    destruct (proc_reserve_heap cap (v_store vm) (p_mem pr) n) as [[st1 m1]| | |]; cbn [mbind outcome_bind] in E |- *; try done.
    rewrite E. cbn [mbind outcome_bind].
    eexists v, _, (set_p_mem m' (set_p_box box pr)), objs'. split; [done|]. split.
    + unfold put_mem. change (v_procs (set_v_store st' ?x)) with (v_procs x).
      rewrite (on_proc_eq _ _ _ (set_p_box box pr)); [done|]. by apply on_proc_eq.
    + split; [|done]. intros q Hq. unfold put_mem. change (v_procs (set_v_store st' ?x)) with (v_procs x).
      rewrite !lookup_on_proc, !decide_False by done. done.
Qed.

(** C12: a message is received as it was sent.  Delivering a value without
    resources to a live process with an empty mailbox succeeds, touches no other
    process, and makes the target runnable exactly when it was blocked in a
    receive, enqueueing it once; the receive that follows empties the mailbox and
    returns, on the receiver's own heap, a value that denotes the tree that was
    sent, with every tree of the receiver's stack kept.  It can only fail by
    exceeding the arena cap. *)
Theorem send_receive_roundtrip cur vm tgt pr objs msg t F q :
  let st := v_store vm in
  v_procs vm !! tgt = Some pr → p_state pr ≠ PROC_DEAD → mbox_repr (p_box pr) [] →
  actor_ok cap K st (p_mem pr) objs T → fits (p_mem pr) → 0 ≤ gc_gate (p_mem pr) → ccall (p_mem pr) = None →
  rq_repr (v_runq vm) q → rq_room (v_runq vm) →
  repr F st msg t → (∀ a, F a → a < brk st) → has_resource t = false →
  (nodes t ≤ fuel)%nat → (steps t ≤ fuel)%nat → tree_bytes t ≤ 2 ^ 28 →
  brk st + SIZEOF_MSG_FRAGMENT + frag_bytes t + 16 + cap < ADDR_LIMIT → (∀ a, K a → a < brk st) →
  ∃ vm1 pr1, mbox_deliver fuel cur vm tgt msg = Ret (0, vm1) ∧ only_proc tgt vm vm1 ∧
    v_procs vm1 !! tgt = Some pr1 ∧
    p_state pr1 = (if decide (p_state pr = PROC_WAIT_RECV) then PROC_RUNNING else p_state pr) ∧
    rq_repr (v_runq vm1) (if decide (p_state pr = PROC_WAIT_RECV) then q ++ [tgt] else q) ∧
    (((∃ why, mbox_pop cap stress fuel vm1 tgt = Abort why) ∧
       cap < heap_ptr (p_mem pr) + tree_bytes t + TA_STACK_HEADROOM + - proc_stack_lo (p_mem pr) * 8) ∨
     ∃ v vm2 pr2 objs2, mbox_pop cap stress fuel vm1 tgt = Ret (v, vm2) ∧ v_procs vm2 !! tgt = Some pr2 ∧
       mbox_repr (p_box pr2) [] ∧ actor_ok cap K (v_store vm2) (p_mem pr2) objs2 T ∧
       repr (arena_addr K (p_mem pr2) objs2) (v_store vm2) v t).
Proof.
  intros st Hp Hd Hbox A Fi Hg Hc HR Hroom Hr HF Hres Hf1 Hf2 Htb Hlim HK.
  destruct (b_mem _ _ _ (a_blocks _ _ _ _ _ (ac_arena _ _ _ _ _ _ A))) as (Hm1&Hm2&_).
  pose proof (b_size _ _ _ (a_blocks _ _ _ _ _ (ac_arena _ _ _ _ _ _ A))) as Hm3. fold st in Hm2.
  destruct (deliver_spec fuel cur vm tgt msg t F pr [] q) as (root&vm1&pr1&E&Hp1&O1&T1&M1&B1&_&S1&Q1&R1&C1&P1&Bk1);
    try done; [by intros a ?%elem_of_nil|fold st; lia|fold st; lia|].
  exists vm1, pr1. split; [done|]. split; [done|]. split; [done|]. split; [done|]. split; [done|].
  simpl in B1. fold st in Bk1, C1, R1, P1, B1.
  assert (A1 : actor_ok cap K (v_store vm1) (p_mem pr) objs T).
  { eapply (actor_frame cap K st); [done|lia|done|]. intros a [Ha|Ha]; apply C1; [lia|by apply HK]. }
  destruct (pop_spec vm1 tgt pr1 objs [] (brk st) root t
    (λ a, brk st + SIZEOF_MSG_FRAGMENT ≤ a < brk (v_store vm1))) as [[Hab Hcap]|H]; rewrite ?M1; try done.
  - intros a Ha. cbv beta in Ha. unfold SIZEOF_MSG_FRAGMENT in *. unfold foreign.
    destruct (b_to _ _ _ (a_blocks _ _ _ _ _ (ac_arena _ _ _ _ _ _ A))) as [Ht|Ht];
      pose proof (b_to_cap _ _ _ (a_blocks _ _ _ _ _ (ac_arena _ _ _ _ _ _ A))); fold st in Ht; lia.
  - unfold SIZEOF_MSG_FRAGMENT in *. lia.
  - left. split; [done|]. by rewrite M1 in Hcap.
  - right. destruct H as (v&vm2&pr2&objs2&E2&Hp2&_&B2&A2&R2&_). exists v, vm2, pr2, objs2. done.
Qed.
End RoundTrip.

(** ** A concrete machine: process 7 waits; a list lies outside its heap. *)
Definition w_image : Image := mk_Image [] [] [] [] [].
Definition w_target : Proc := set_p_state PROC_WAIT_RECV (set_p_mem w_proc (proc_init 7)).
Definition w_vm : VM :=
  mk_VM w_fstore {[ 7 := w_target ]} {[ 7 ]} 16 1 [] (runq_new 4) 8 0 w_image 0 false false false val_nil
        symtab_new 1 0 [] 0 false 0 [] 0.

Lemma send_receive_roundtrip_witness :
  ∃ vm1, mbox_deliver 9 (Some 3) w_vm 7 (lbox TAG_PAIR 6000) = Ret (0, vm1) ∧ rq_repr (v_runq vm1) [7] ∧
    ∃ v vm2 pr2 objs2, mbox_pop 4096 0 9 vm1 7 = Ret (v, vm2) ∧ v_procs vm2 !! 7 = Some pr2 ∧
      repr (arena_addr (λ _, False) (p_mem pr2) objs2) (v_store vm2) v w_msg.
Proof.
  destruct (send_receive_roundtrip 4096 0 9 (λ _, False) w_tree (Some 3) w_vm 7 w_target w_objs (lbox TAG_PAIR 6000) w_msg
    w_block []) as (vm1&pr1&E&_&_&_&Q&H);
    [reflexivity|done|split; [reflexivity|constructor|reflexivity|reflexivity]|apply w_factor_ok
    |vm_compute; congruence|vm_compute; congruence|reflexivity|apply rq_new_repr; lia|split; reflexivity
    |apply w_msg_repr|unfold w_block; simpl; lia|reflexivity|vm_compute; lia|vm_compute; lia|vm_compute; congruence
    |vm_compute; congruence|done|].
  exists vm1. split; [exact E|]. split; [exact Q|].
  destruct H as [[_ H]|(v&vm2&pr2&objs2&H1&H2&_&_&H3)]; [by vm_compute in H|].
  exists v, vm2, pr2, objs2. exact (conj H1 (conj H2 H3)).
Defined.
