(* ===== verification/Builtin.v ===== *)
(** The actor primitives: [do_builtin] of src/vm.c and the handlers it borrows
    from src/builtin.c.  Arguments but the last are on the stack, the last one
    and the result are in [acc]; a primitive that must wait publishes the resume
    point of its own instruction and is executed again when woken. *)
From stdpp Require Import base tactics list gmap strings.
From Stdlib Require Import ZArith Lia.
From S2P Require Import Prelude Values Heap Resource Gc GcCorrect GcSpec Tree Alloc Copy Fragment Runq Mailbox Symtab Vm Sched.
Open Scope Z_scope.

Inductive BStatus := B_OK | B_SUSPEND | B_DIED.

Definition LB_SELF : Z := 0.
Definition LB_SPAWN : Z := 1.
Definition LB_SEND : Z := 2.
Definition LB_RECV : Z := 3.
Definition LB_MONITOR : Z := 4.
Definition LB_RECV_AFTER : Z := 5.
Definition LB_RECV_PEEK : Z := 6.
Definition LB_RECV_COMMIT : Z := 7.

(** [p->sp = -sp]. *)
Definition pub_sp (p sp : Z) (vm : VM) : VM := on_proc p (λ pr, set_p_mem (set_sp (- sp) (p_mem pr)) pr) vm.
(** Publish the resume point. *)
Definition publish (p pc base cbase sp : Z) (vm : VM) : VM :=
  pub_sp p sp (on_proc p (λ pr, set_p_pc pc (set_p_base base (set_p_cbase cbase pr))) vm).

Section Builtin.
Context (cap stress : Z) (fuel sym_fuel : nat).
(** The n-th reading of the monotonic clock, in milliseconds. *)
Context (clock : nat → Z).

Definition mono_now_ms (vm : VM) : Z * VM := (clock (v_reads vm), set_v_reads (S (v_reads vm)) vm).

(** Operations of the memory components, run on process [p]. *)
Definition vm_push (vm : VM) (p : Z) (v : Val) : outcome VM :=
  pr ← get_proc vm p;
  '(st, m) ← proc_push cap (v_store vm) (p_mem pr) v;
  Ret (put_mem p st m vm).
Definition vm_pop (vm : VM) (p : Z) : outcome (Val * VM) :=
  pr ← get_proc vm p;
  '(v, m) ← proc_pop (p_mem pr);
  Ret (v, put_mem p (v_store vm) m vm).
Definition vm_drain (vm : VM) (p : Z) : outcome VM :=
  pr ← get_proc vm p;
  '(st, m) ← proc_gc_drain cap (v_store vm) (p_mem pr);
  Ret (put_mem p st m vm).
Definition vm_slot (vm : VM) (p i : Z) : outcome Val :=
  pr ← get_proc vm p;
  read_slot (p_mem pr) i.
Definition set_acc (p : Z) (v : Val) (vm : VM) : VM := on_proc p (set_p_acc v) vm.
Definition set_deadline (p d : Z) (vm : VM) : VM := on_proc p (set_p_recv_deadline d) vm.

(** ** src/builtin.c *)

Definition b_recv_peek (vm : VM) (p : Z) : outcome (BStatus * VM) :=
  pr ← get_proc vm p;
  if peek_index (p_box pr) <? mbox_count (p_box pr) then
    a ← frag_walk (p_box pr) (mbox_frag_head (p_box pr)) (Z.to_nat (peek_index (p_box pr)));
    f ← frag_at (p_box pr) a;
    res ← val_has_resource fuel (v_store vm) (f_root f);
    if (res : bool) then Ret (B_DIED, vm)
    else
      n ← val_calc_heap_size fuel (v_store vm) (f_root f);
      '(st, m) ← proc_reserve_heap cap (v_store vm) (p_mem pr) n;
      '(r, st, m) ← val_deep_copy cap stress None fuel st m (f_root f);
      match r with
      | inr _ => Undef
      | inl msg =>
          '(_, box) ← mbox_peek (p_box pr);
          let vm := on_proc p (set_p_box box) (put_mem p st m vm) in
          vm ← vm_push vm p msg;
          vm ← vm_drain vm p;
          Ret (B_OK, vm)
      end
  else Ret (B_SUSPEND, vm).

Definition b_recv_commit (vm : VM) (p : Z) : outcome (BStatus * VM) :=
  pr ← get_proc vm p;
  box ← mbox_commit (p_box pr);
  Ret (B_OK, on_proc p (set_p_box box) vm).

(** Disarm the deadline. *)
Definition disarm (vm : VM) (p : Z) : VM := set_v_recv_armed (v_recv_armed vm - 1) (set_deadline p (-1) vm).

Definition b_recv_after (vm : VM) (p : Z) : outcome (BStatus * VM) :=
  pr ← get_proc vm p;
  if p_recv_deadline pr =? RECV_AFTER_EXPIRED then
    vm ← vm_push (disarm vm p) p val_nil;
    Ret (B_OK, vm)
  else
    vm ← (if p_recv_deadline pr <? 0 then
            '(ms_v, vm) ← vm_pop vm p;
            let '(now, vm) := mono_now_ms vm in
            d ← chk64 (now + val_get_int ms_v);
            Ret (set_v_recv_armed (v_recv_armed vm + 1) (set_deadline p d vm))
          else Ret vm);
    pr ← get_proc vm p;
    if 0 <? mbox_count (p_box pr) then
      '(msg, vm) ← mbox_pop cap stress fuel (disarm vm p) p;
      vm ← vm_push vm p msg;
      vm ← vm_drain vm p;
      Ret (B_OK, vm)
    else
      let '(now, vm) := mono_now_ms vm in
      if p_recv_deadline pr <=? now then
        vm ← vm_wait_unregister (disarm vm p) p;
        vm ← vm_push vm p val_nil;
        Ret (B_OK, vm)
      else Ret (B_SUSPEND, vm).

(** ('DOWN ref pid 'noproc) to the watcher itself. *)
Definition deliver_noproc (cur : option Z) (vm : VM) (p tpid ref : Z) : outcome VM :=
  pr ← get_proc vm p;
  '(st, m) ← proc_reserve_heap cap (v_store vm) (p_mem pr) (4 * ta_heap_object_size SIZEOF_PAIR);
  let vm := put_mem p st (proc_gc_enter m) vm in
  '(down_sym, vm) ← intern_vm sym_fuel vm "DOWN";
  '(noproc_sym, vm) ← intern_vm sym_fuel vm "noproc";
  pr ← get_proc vm p;
  '(v, st, m) ← val_pair cap stress (v_store vm) (p_mem pr) (val_symbol noproc_sym) val_nil;
  '(v, st, m) ← val_pair cap stress st m (val_pid tpid) v;
  '(v, st, m) ← val_pair cap stress st m (val_int ref) v;
  '(msg, st, m) ← val_pair cap stress st m (val_symbol down_sym) v;
  '(_, vm) ← mbox_deliver fuel cur (put_mem p st m vm) p msg;
  pr ← get_proc vm p;
  '(st, m) ← proc_gc_reopen cap (v_store vm) (p_mem pr);
  Ret (put_mem p st m vm).

Definition b_monitor (cur : option Z) (vm : VM) (p : Z) : outcome (BStatus * VM) :=
  '(pid_v, vm) ← vm_pop vm p;
  let tpid := val_get_pid pid_v in
  let ref := v_next_ref vm + 1 in
  let vm := set_v_next_ref ref vm in
  let alive :=
    match vm_proc_lookup vm tpid with
    | Some t => match v_procs vm !! t with
                | Some tr => negb (bool_decide (p_state tr = PROC_DEAD))
                | None => false
                end
    | None => false
    end in
  vm ← (if alive then Ret (on_proc tpid (λ tr, set_p_watchers (p_watchers tr ++ [(p, val_int ref)]) tr) vm)
        else deliver_noproc cur vm p tpid ref);
  vm ← vm_push vm p (val_int ref);
  Ret (B_OK, vm).

(** ** src/vm.c *)
Definition FATAL_ARITY : string := "arity mismatch".

(** Isolated death of the current process; 2 is the code of it. *)
Definition do_builtin_die (vm : VM) (p pc base cbase sp : Z) (reason : string) : outcome (Z * VM) :=
  '(die_sym, vm) ← intern_vm sym_fuel vm reason;
  vm ← proc_die cap stress fuel sym_fuel (Some p) (publish p pc base cbase sp vm) p (val_symbol die_sym);
  Ret (2, vm).

(** Block in a receive: publish, [PROC_WAIT_RECV], register; the code is 1. *)
Definition block_recv (vm : VM) (p pc base cbase sp : Z) : outcome (Z * VM) :=
  vm ← wait_register (set_state p PROC_WAIT_RECV (publish p pc base cbase sp vm)) p;
  Ret (1, vm).

(** The function id of a closure value. *)
Definition closure_fid (st : store) (v : Val) : outcome (option Z) :=
  if val_tag v =? TAG_CLOS then
    match cells st !! lpayload v with
    | Some (Live (HeapClosure entry _)) => Ret (Some entry)
    | _ => Undef
    end
  else if val_tag v =? TAG_CLOS_ID then Ret (Some (lpayload v))
  else Ret None.

Definition do_spawn (vm : VM) (p pc base cbase sp : Z) : outcome (Z * VM) :=
  pr ← get_proc vm p;
  let clos := p_acc pr in
  f ← closure_fid (v_store vm) clos;
  match f with
  | None => Abort "spawn on non-closure"
  | Some fid =>
      '(np, vm) ← proc_new vm;
      nr ← get_proc vm np;
      '(st, m) ← proc_ensure_heap (v_store vm) (p_mem nr);
      n ← val_calc_heap_size fuel st clos;
      '(st, m) ← proc_reserve_heap cap st m n;
      '(r, st, m) ← val_deep_copy cap stress (Some p) fuel st m clos;
      let vm := put_mem np st m vm in
      match r with
      | inr _ =>
          vm ← proc_die cap stress fuel sym_fuel (Some p) vm np val_nil;
          do_builtin_die vm p pc base cbase sp "resource"
      | inl owned =>
          st ← val_set_resource_owner fuel (v_store vm) clos np;
          vm ← proc_frame_init cap (set_v_store st vm) np fid owned;
          vm ← vm_enqueue vm np;
          Ret (0, set_acc p (val_pid np) vm)
      end
  end.

Definition do_send (vm : VM) (p pc base cbase sp : Z) : outcome (Z * VM) :=
  to ← vm_slot vm p (sp - 1);
  pr ← get_proc vm p;
  '(rc, vm) ←
    match vm_proc_lookup vm (val_get_pid to) with
    | None => Ret (0, vm)
    | Some t =>
        tr ← get_proc vm t;
        if bool_decide (p_state tr = PROC_DEAD) then Ret (0, vm) else mbox_deliver fuel (Some p) vm t (p_acc pr)
    end;
  if negb (rc =? 0) then do_builtin_die vm p pc base cbase sp "resource"
  else Ret (0, set_acc p val_nil (pub_sp p (sp - 1) vm)).

Definition do_recv (vm : VM) (p pc base cbase sp : Z) : outcome (Z * VM) :=
  pr ← get_proc vm p;
  if mbox_count (p_box pr) =? 0 then block_recv vm p pc base cbase sp
  else
    '(m, vm) ← mbox_pop cap stress fuel vm p;
    vm ← vm_push vm p m;
    vm ← vm_drain (pub_sp p (sp + 1) vm) p;
    v ← vm_slot vm p sp;
    Ret (0, pub_sp p sp (set_acc p v vm)).

(** The result is popped into [acc]. *)
Definition pop_acc (vm : VM) (p : Z) : outcome (Z * VM) :=
  '(v, vm) ← vm_pop vm p;
  Ret (0, set_acc p v vm).

Definition do_monitor (vm : VM) (p sp : Z) : outcome (Z * VM) :=
  pr ← get_proc vm p;
  vm ← vm_push (pub_sp p sp vm) p (p_acc pr);
  '(s, vm) ← b_monitor (Some p) vm p;
  match s with B_OK => pop_acc vm p | _ => Abort "monitor must not suspend" end.

Definition do_recv_after (vm : VM) (p pc base cbase sp : Z) : outcome (Z * VM) :=
  pr ← get_proc vm p;
  vm ← vm_push (pub_sp p sp vm) p (p_acc pr);
  '(s, vm) ← b_recv_after vm p;
  match s with B_SUSPEND => block_recv vm p pc base cbase sp | _ => pop_acc vm p end.

Definition do_recv_peek (vm : VM) (p pc base cbase sp : Z) : outcome (Z * VM) :=
  '(s, vm) ← b_recv_peek (pub_sp p sp vm) p;
  match s with
  | B_DIED => do_builtin_die vm p pc base cbase sp "resource"
  | B_SUSPEND => block_recv vm p pc base cbase sp
  | B_OK => pop_acc vm p
  end.

Definition do_recv_commit (vm : VM) (p sp : Z) : outcome (Z * VM) :=
  '(s, vm) ← b_recv_commit (pub_sp p sp vm) p;
  match s with B_OK => Ret (0, set_acc p val_nil vm) | _ => Abort "recv_commit must not suspend" end.

(** 0 = done, 1 = blocked, 2 = the process died. *)
Definition do_builtin (vm : VM) (p id n pc base cbase sp : Z) : outcome (Z * VM) :=
  let arity k (body : outcome (Z * VM)) := if n =? k then body else Abort FATAL_ARITY in
  if id =? LB_SELF then arity 0 (Ret (0, set_acc p (val_pid p) vm))
  else if id =? LB_SPAWN then arity 1 (do_spawn vm p pc base cbase sp)
  else if id =? LB_SEND then arity 2 (do_send vm p pc base cbase sp)
  else if id =? LB_RECV then arity 0 (do_recv vm p pc base cbase sp)
  else if id =? LB_MONITOR then arity 1 (do_monitor vm p sp)
  else if id =? LB_RECV_AFTER then arity 1 (do_recv_after vm p pc base cbase sp)
  else if id =? LB_RECV_PEEK then arity 0 (do_recv_peek vm p pc base cbase sp)
  else if id =? LB_RECV_COMMIT then arity 0 (do_recv_commit vm p sp)
  else Abort "unknown builtin".
End Builtin.
