(* ===== verification/Ccall.v ===== *)
(** Calls into C modules: [do_ccall] of src/vm.c, with the convergence of the
    callback's result from its chunk arena into the heap
    ([callback_arena_converge] of ta_inline.h, [val_converge_copy] of
    src/val.c). *)
From stdpp Require Import base tactics list gmap strings.
From Stdlib Require Import ZArith Lia.
From S2P Require Import Prelude Values Heap Resource Gc GcCorrect GcSpec Tree Alloc Copy Fragment Runq Mailbox Symtab Vm Sched Builtin.
Open Scope Z_scope.

Section Converge.
Context (cap stress : Z).

(** Leave a forwarding pointer in a chunk object. *)
Definition leave_forward (st : store) (a fwd : Z) : outcome store :=
  match cells st !! a with
  | Some (Live o) => Ret (write_cell st a (Forwarded (obj_type o) fwd))
  | _ => Undef
  end.

Record conv_state := mk_conv {
  cv_tasks : list CopyTask;
  cv_results : list Val;
  cv_store : store;
  cv_proc : ProcMem
}.

Definition FATAL_CONV : string := "val_converge_copy: unknown tag".

(** One round: an immediate and an object that is not in the chunk arena pass
    through; a chunk object is rebuilt in the heap the first time and found
    forwarded afterwards. *)
Definition converge_step (task : CopyTask) (s : conv_state) : outcome conv_state :=
  let st := cv_store s in
  let p := cv_proc s in
  let push v st p := Ret (mk_conv (cv_tasks s) (v :: cv_results s) st p) in
  let rebuild a o :=
    '(nv, st, p) ← alloc_obj cap stress st p o;
    st ← leave_forward st a (lpayload nv);
    push nv st p in
  match task with
  | COPY_PAIR v =>
      match cv_results s with
      | cdr :: car :: results =>
          '(nv, st, p) ← val_pair cap stress st p car cdr;
          st ← leave_forward st (lpayload v) (lpayload nv);
          Ret (mk_conv (cv_tasks s) (nv :: results) st p)
      | _ => Undef
      end
  | COPY_CLOSURE v =>
      match cells st !! lpayload v with
      | Some (Live (HeapClosure entry fs)) =>
          let n := length fs in
          if (length (cv_results s) <? n)%nat then Undef
          else
            '(nv, st, p) ← alloc_obj cap stress st p (HeapClosure entry (rev (take n (cv_results s))));
            st ← leave_forward st (lpayload v) (lpayload nv);
            Ret (mk_conv (cv_tasks s) (nv :: drop n (cv_results s)) st p)
      | _ => Undef
      end
  | COPY_VALUE v =>
      let tag := val_tag v in
      let a := lpayload v in
      if copy_immediate v then push v st p
      else if negb (val_in_chunk p a) then push v st p
      else
        match cells st !! a with
        | Some (Forwarded _ fwd) => push (box_tag_payload tag fwd) st p
        | _ =>
            if negb (is_heap_tag tag) then Abort FATAL_CONV
            else
              o ← read_obj st v;
              match o with
              | HeapPair car cdr =>
                  Ret (mk_conv (COPY_VALUE car :: COPY_VALUE cdr :: COPY_PAIR v :: cv_tasks s) (cv_results s) st p)
              | HeapClosure _ fs =>
                  Ret (mk_conv ((COPY_VALUE <$> fs) ++ COPY_CLOSURE v :: cv_tasks s) (cv_results s) st p)
              | _ => rebuild a o
              end
        end
  end.

Fixpoint converge_loop (fuel : nat) (s : conv_state) : outcome conv_state :=
  match cv_tasks s with
  | [] => Ret s
  | task :: tasks =>
      match fuel with
      | O => NoFuel
      | S n =>
          s ← converge_step task (mk_conv tasks (cv_results s) (cv_store s) (cv_proc s));
          converge_loop n s
      end
  end.

Definition val_converge_copy (fuel : nat) (st : store) (p : ProcMem) (root : Val) : outcome (Val * store * ProcMem) :=
  s ← converge_loop fuel (mk_conv [COPY_VALUE root] [] st p);
  v ← or_undef (last (cv_results s));
  Ret (v, cv_store s, cv_proc s).

Definition set_converge (b : bool) (p : ProcMem) : ProcMem :=
  set_ccall ((λ a, mk_CallbackArena (ca_head a) (ca_rest a) (ca_total a) (ca_resources a) b (ca_promote a)) <$> ccall p) p.
Definition release_arena (p : ProcMem) : ProcMem := set_ccall (callback_arena_release <$> ccall p) p.

(** [callback_arena_converge]: copy when the heap has room for the whole
    arena, collect otherwise. *)
Definition callback_arena_converge (fuel : nat) (st : store) (p : ProcMem) (result : Val)
    : outcome (Val * store * ProcMem) :=
  match ccall p with
  | None => Undef
  | Some a =>
      if ca_total a =? 0 then Ret (result, st, p)
      else
        let free_heap := mem_size p + proc_stack_lo p * 8 - heap_ptr p in
        if ca_total a + TA_STACK_HEADROOM <=? free_heap then
          let p := set_converge true (proc_gc_enter p) in
          '(v, st, p) ← val_converge_copy fuel st p result;
          p ← proc_gc_leave (release_arena (set_converge false p));
          Ret (v, st, p)
        else
          '(v, st, p) ← gc_collect_converge cap st p result;
          Ret (v, st, release_arena p)
  end.
End Converge.

Section Ccall.
Context (cap stress : Z) (fuel sym_fuel : nat).
(** The registered C functions: their declared number of arguments (-1 =
    variadic) and their code, which belongs to the modules. *)
Context (cfunc_nargs : list Z) (cfunc_code : Z → VM → list Val → outcome (Val * VM)).
(** Address of the first chunk's buffer, in the frame of the call. *)
Context (ccall_buf : Z).

Definition FATAL_DIED_RESOURCE : string := "cfunc created a resource then died — payload would leak".
Definition FATAL_YIELD_RESOURCE : string := "cfunc created a resource then yielded — payload would leak".

(** [cargv[ai] = LSTK(p, sp - n + 1 + ai)]. *)
Fixpoint read_args (m : ProcMem) (i : Z) (n : nat) : outcome (list Val) :=
  match n with
  | O => Ret []
  | S n => v ← read_slot m i; vs ← read_args m (i + 1) n; Ret (v :: vs)
  end.

Definition on_mem (p : Z) (f : ProcMem → ProcMem) (vm : VM) : VM :=
  on_proc p (λ pr, set_p_mem (f (p_mem pr)) pr) vm.

(** Drop the arena and open the gate again: how both early ways out end. *)
Definition close_window (vm : VM) (p : Z) : outcome VM :=
  pr ← get_proc vm p;
  m ← proc_gc_leave (set_ccall None (p_mem pr));
  Ret (on_mem p (λ _, m) vm).

Definition arena_resources (pr : Proc) : Z := match ccall (p_mem pr) with Some a => ca_resources a | None => 0 end.

(** [do_ccall]: 0 = result in [acc]; 1 = yielded, to be executed again; 2 =
    died.  [sp] is the depth with the arguments flushed, [n - 1] of them. *)
Definition do_ccall (vm : VM) (p cf n base pc cbase sp : Z) : outcome (Z * VM) :=
  match cfunc_nargs !! Z.to_nat cf with
  | None => Abort "bad cfunc index"
  | Some nargs =>
      if (0 <=? nargs) && negb (nargs =? n - 1) then Abort FATAL_ARITY
      else if 64 <? n - 1 then Abort "too many arguments"
      else
        pr ← get_proc vm p;
        args ← read_args (p_mem pr) (sp - n + 1) (Z.to_nat (n - 1));
        let vm := on_mem p (λ m, set_ccall (Some (callback_arena_init ccall_buf)) (proc_gc_enter m)) vm in
        let vm := on_proc p (set_p_yield false) vm in
        '(r, vm) ← cfunc_code cf vm args;
        pr ← get_proc vm p;
        match p_cfunc_die pr with
        | Some reason =>
            if negb (arena_resources pr =? 0) then Abort FATAL_DIED_RESOURCE
            else
              vm ← close_window (on_proc p (set_p_cfunc_die None) vm) p;
              do_builtin_die cap stress fuel sym_fuel vm p pc base cbase sp reason
        | None =>
            if p_yield pr then
              if negb (arena_resources pr =? 0) then Abort FATAL_YIELD_RESOURCE
              else
                vm ← close_window (on_proc p (set_p_yield false) vm) p;
                let vm := on_proc p (set_p_has_acc true) vm in
                vm ← wait_register (set_state p PROC_WAIT_IO (publish p pc base cbase (sp - 1) vm)) p;
                Ret (1, vm)
            else
              '(r, st, m) ← callback_arena_converge cap stress fuel (v_store vm) (p_mem pr) r;
              let s := sp - n in
              m ← write_slot (set_sp (- s) (set_ccall None m)) s r;
              '(st, m) ← proc_gc_reopen cap st (set_sp (- (s + 1)) m);
              v ← read_slot m s;
              Ret (0, set_acc p v (put_mem p st (set_sp (- s) m) vm))
        end
  end.
End Ccall.
