(* ===== verification/Interp.v ===== *)
(** The interpreter loop: [run_proc] of src/vm.c.

    The registers of the loop are [regs]; [r_dep] is the stack depth
    [vend - vsp], so [*--vsp = v] writes slot [r_dep] and [vsp[k]] is slot
    [r_dep - 1 - k], while [vbase[-k]] is slot [r_base + k].  [p->sp] is only
    published before calls that read it, as in the code. *)
From stdpp Require Import base tactics list gmap strings.
From Stdlib Require Import ZArith Lia.
From S2P Require Import Prelude Values Heap Resource Gc GcCorrect GcSpec Tree Alloc Copy Fragment Runq Mailbox Symtab Vm Sched Builtin Ccall.
Open Scope Z_scope.

(** ** Opcodes *)
Definition LOP_CONST : Z := 0.
Definition LOP_LOAD : Z := 1.
Definition LOP_STORE : Z := 2.
Definition LOP_LOADF : Z := 3.
Definition LOP_PUSH : Z := 4.
Definition LOP_ADD : Z := 5.
Definition LOP_SUB : Z := 6.
Definition LOP_MUL : Z := 7.
Definition LOP_DIV : Z := 8.
Definition LOP_MOD : Z := 9.
Definition LOP_LT : Z := 10.
Definition LOP_LE : Z := 11.
Definition LOP_GT : Z := 12.
Definition LOP_GE : Z := 13.
Definition LOP_EQ : Z := 14.
Definition LOP_PAIRP : Z := 15.
Definition LOP_SYMP : Z := 16.
Definition LOP_CONS : Z := 17.
Definition LOP_CAR : Z := 18.
Definition LOP_CDR : Z := 19.
Definition LOP_JIF : Z := 20.
Definition LOP_JUMP : Z := 21.
Definition LOP_CALL : Z := 22.
Definition LOP_TCALL : Z := 23.
Definition LOP_RET : Z := 24.
Definition LOP_MAKE_CLOSURE : Z := 25.
Definition LOP_GLOBAL : Z := 26.
Definition LOP_RESERVE : Z := 27.
Definition LOP_BUILTIN : Z := 28.
Definition LOP_LOADP : Z := 29.
Definition LOP_CONSTP : Z := 30.
Definition LOP_GLOBP : Z := 31.
Definition LOP_JIF_LT : Z := 32.
Definition LOP_JIF_LE : Z := 33.
Definition LOP_JIF_GT : Z := 34.
Definition LOP_JIF_GE : Z := 35.
Definition LOP_JIF_EQ : Z := 36.
Definition LOP_CONST_I : Z := 37.
Definition LOP_ADD_I : Z := 38.
Definition LOP_SUB_I : Z := 39.
Definition LOP_JIF_EQ_I : Z := 40.

Definition R_DIED : Z := 0.
Definition R_BLOCKED : Z := 1.
Definition R_YIELD : Z := 2.

Record regs := mk_regs {
  r_pc : Z (** [pc - vm->words] *);
  r_base : Z;
  r_cbase : Z (** [cbase - vm->words] *);
  r_acc : Val;
  r_dep : Z (** [vend - vsp] *)
}.

(** What an instruction that stays inside the process does: fall through,
    transfer control (and tick), or die. *)
Inductive lres :=
| LNext (r : regs) (st : store) (m : ProcMem)
| LTick (r : regs) (st : store) (m : ProcMem)
| LDie (why : die_reason) (r : regs) (st : store) (m : ProcMem).

Section Local.
Context (cap stress : Z) (im : Image).

Definition word (i : Z) : outcome Z := if i <? 0 then Undef else or_undef (words im !! Z.to_nat i).
Definition fn_field (f : Image → list Z) (fid : Z) : outcome Z := if fid <? 0 then Undef else or_undef (f im !! Z.to_nat fid).

(** [SP_ROOM]: one more slot below the stack top. *)
Definition sp_room (dep : Z) (st : store) (m : ProcMem) : outcome (store * ProcMem) :=
  if mem_size m - 8 * (dep + 1) <? heap_ptr m then
    let '(ok, st, m) := proc_arena_grow cap st (set_sp (- dep) m) ((dep + 1) * 8) in
    if negb ok then Abort FATAL_STACK
    else if mem_size m - 8 * (dep + 1) <? heap_ptr m then Abort FATAL_STACK
    else Ret (st, m)
  else Ret (st, m).

(** [SP_ROOM(); *--vsp = v]. *)
Definition push_val (dep : Z) (v : Val) (st : store) (m : ProcMem) : outcome (store * ProcMem) :=
  '(st, m) ← sp_room dep st m;
  m ← write_slot m dep v;
  Ret (st, m).

Definition const_at (i : Z) : outcome Val := if i <? 0 then Undef else or_undef (g_consts im !! Z.to_nat i).
(** Operand of GLOBAL: a C function (link-time negative) or a function id. *)
Definition global_val (o : Z) : Val := if o <? 0 then lbox TAG_NATIVE (- (o + 1)) else lbox TAG_CLOS_ID o.

(** [for (k = 0; k < n; k++) *--vsp = val_nil()]. *)
Fixpoint fill_nils (m : ProcMem) (dep : Z) (n : nat) : outcome ProcMem :=
  match n with
  | O => Ret m
  | S n => m ← write_slot m dep val_nil; fill_nils m (dep + 1) n
  end.

(** The equality test of EQ, JIF_EQ and JIF_EQ_I. *)
Definition eq_test (st : store) (e acc : Val) : outcome bool :=
  if cmp_numeric_path e acc then Ret (deq (val_to_double e) (val_to_double acc)) else val_equal st e acc.

Definition jump (r : regs) (target : Z) : regs := mk_regs target (r_base r) (r_cbase r) (r_acc r) (r_dep r).
Definition advance (k : Z) (r : regs) : regs := jump r (r_pc r + k).
Definition with_acc (v : Val) (r : regs) : regs := mk_regs (r_pc r) (r_base r) (r_cbase r) v (r_dep r).
Definition with_dep (d : Z) (r : regs) : regs := mk_regs (r_pc r) (r_base r) (r_cbase r) (r_acc r) d.
(** [*vsp++]: the popped value and the depth after it. *)
Definition pop_val (r : regs) (m : ProcMem) : outcome (Val * regs) :=
  l ← read_slot m (r_dep r - 1);
  Ret (l, with_dep (r_dep r - 1) r).

Definition exec_binary (f : Val → Val → outcome (Val + die_reason)) (r : regs) (st : store) (m : ProcMem) : outcome lres :=
  '(l, r) ← pop_val r m;
  x ← f l (r_acc r);
  match x with
  | inl v => Ret (LNext (advance 1 (with_acc v r)) st m)
  | inr why => Ret (LDie why r st m)
  end.
Definition pure_op (f : Val → Val → outcome Val) (l acc : Val) : outcome (Val + die_reason) :=
  v ← f l acc; Ret (inl v).

Definition exec_cmp (test : Val → Val → outcome bool) (r : regs) (st : store) (m : ProcMem) : outcome lres :=
  '(l, r) ← pop_val r m;
  b ← test l (r_acc r);
  Ret (LNext (advance 1 (with_acc (truth b) r)) st m).

(** Fused comparison and branch: true and false targets are words [pc + k]
    and [pc + k + 1]. *)
Definition exec_jif_cmp (k : Z) (test : Val → outcome bool) (r : regs) (st : store) (m : ProcMem) : outcome lres :=
  '(l, r) ← pop_val r m;
  b ← test l;
  t ← word (r_pc r + (if (b : bool) then k else k + 1));
  Ret (LTick (jump r (r_cbase r + t)) st m).

Definition num_test (op : Z → Z → bool) (dop : double → double → bool) (l acc : Val) : outcome bool :=
  Ret (cmp_test op dop l acc).

Definition exec_reserve (r : regs) (st : store) (m : ProcMem) : outcome lres :=
  n ← word (r_pc r + 1);
  '(st, m) ← proc_stack_reserve cap st (set_sp (- r_dep r) m) (- (r_dep r + n));
  m ← fill_nils m (r_dep r) (Z.to_nat n);
  Ret (LNext (advance 2 (with_dep (r_dep r + Z.max 0 n) r)) st m).

Definition exec_cons (r : regs) (st : store) (m : ProcMem) : outcome lres :=
  '(st, m) ← push_val (r_dep r) (r_acc r) st m;
  let d := r_dep r + 1 in
  '(a, st, m) ← proc_heap_alloc cap stress st (set_sp (- d) m) SIZEOF_PAIR;
  cdr ← read_slot m (d - 1);
  car ← read_slot m (d - 2);
  let st := write_cell st a (Live (HeapPair car cdr)) in
  Ret (LNext (advance 1 (with_acc (lbox TAG_PAIR a) (with_dep (d - 2) r))) st m).

(** [hc->free[k] = vsp[nfree - 1 - k]]: slots [i .. i + n). *)
Fixpoint read_slots (m : ProcMem) (i : Z) (n : nat) : outcome (list Val) :=
  match n with
  | O => Ret []
  | S n => v ← read_slot m i; vs ← read_slots m (i + 1) n; Ret (v :: vs)
  end.

Definition exec_make_closure (r : regs) (st : store) (m : ProcMem) : outcome lres :=
  fnid ← word (r_pc r + 1);
  nfree ← word (r_pc r + 2);
  if nfree =? 0 then Ret (LNext (advance 3 (with_acc (lbox TAG_CLOS_ID fnid) r)) st m)
  else
    '(st, m) ← push_val (r_dep r) (r_acc r) st m;
    let d := r_dep r + 1 in
    '(a, st, m) ← proc_heap_alloc cap stress st (set_sp (- d) m) (SIZEOF_CLOSURE + nfree * SIZEOF_VAL);
    fs ← read_slots m (d - nfree) (Z.to_nat nfree);
    let st := write_cell st a (Live (HeapClosure fnid fs)) in
    Ret (LNext (advance 3 (with_acc (lbox TAG_CLOS a) (with_dep (d - nfree) r))) st m).

(** The field of a pair in the accumulator, or an isolated death. *)
Definition exec_field (sel : Val → Val → Val) (why : die_reason) (r : regs) (st : store) (m : ProcMem) : outcome lres :=
  if negb (val_tag (r_acc r) =? TAG_PAIR) then Ret (LDie why r st m)
  else
    match cells st !! lpayload (r_acc r) with
    | Some (Live (HeapPair car cdr)) => Ret (LNext (advance 1 (with_acc (sel car cdr) r)) st m)
    | _ => Undef
    end.

Definition exec_loadf (r : regs) (st : store) (m : ProcMem) : outcome lres :=
  clo ← read_slot m (r_base r);
  k ← word (r_pc r + 1);
  if negb (val_tag clo =? TAG_CLOS) then Abort "LOADF on non-closure"
  else
    match cells st !! lpayload clo with
    | Some (Live (HeapClosure _ fs)) =>
        v ← (if k <? 0 then Undef else or_undef (fs !! Z.to_nat k));
        Ret (LNext (advance 2 (with_acc v r)) st m)
    | _ => Undef
    end.

(** ** Calls *)

(** The callee of the block on top of the stack: a function of the image, a C
    function, or neither. *)
Inductive callee := Fun (fid : Z) | Native (cf : Z).
Definition callee_of (st : store) (fv : Val) : outcome callee :=
  if val_tag fv =? TAG_CLOS_ID then Ret (Fun (lpayload fv))
  else if val_tag fv =? TAG_CLOS then
    match cells st !! lpayload fv with
    | Some (Live (HeapClosure entry _)) => Ret (Fun entry)
    | _ => Undef
    end
  else if val_tag fv =? TAG_NATIVE then Ret (Native (lpayload fv))
  else Abort "call on non-function".

(** [CALL_COMMON] up to the dispatch: flush [acc], find the callee.  The
    result has the depth with the block [fn, args..] on top. *)
Definition call_common (r : regs) (st : store) (m : ProcMem) : outcome (Z * callee * regs * store * ProcMem) :=
  n ← word (r_pc r + 1);
  '(st, m) ← push_val (r_dep r) (r_acc r) st m;
  let d := r_dep r + 1 in
  fv ← read_slot m (d - n);
  c ← callee_of st fv;
  Ret (n, c, with_dep d r, st, m).

Definition check_arity (fid n : Z) : outcome unit :=
  k ← fn_field fn_args fid;
  if k =? n - 1 then Ret tt else Abort FATAL_ARITY.

(** [op_call] for a function of the image: push the continuation, reserve the
    frame unless it lies within the floor, enter. *)
Definition exec_call (n fid : Z) (r : regs) (st : store) (m : ProcMem) : outcome lres :=
  _ ← check_arity fid n;
  let d := r_dep r in
  let nb := d - n in
  '(st, m) ←
    (if mem_size m - 8 * (d + 3) <? heap_ptr m then
       let '(ok, st, m) := proc_arena_grow cap st (set_sp (- d) m) ((d + 3) * 8) in
       if negb ok then Abort FATAL_STACK else Ret (st, m)
     else Ret (st, m));
  m ← write_slot m d (val_int (r_pc r + 2));
  m ← write_slot m (d + 1) (val_int (r_base r));
  m ← write_slot m (d + 2) (val_int (r_cbase r));
  let d := d + 3 in
  maxd ← fn_field fn_maxd fid;
  let lo := - (nb + maxd + 1) in
  '(st, m) ← (if lo <? stack_floor m then proc_stack_reserve cap st (set_sp (- d) m) lo else Ret (st, m));
  entry ← fn_field fn_entry fid;
  Ret (LTick (mk_regs entry nb entry (r_acc r) d) st m).

(** The function in the frame's own slot; [None] stands for [(uint64_t)-1]. *)
Definition current_fid (r : regs) (st : store) (m : ProcMem) : outcome (option Z) :=
  cfv ← read_slot m (r_base r);
  if val_tag cfv =? TAG_CLOS_ID then Ret (Some (lpayload cfv))
  else if val_tag cfv =? TAG_CLOS then
    match cells st !! lpayload cfv with
    | Some (Live (HeapClosure entry _)) => Ret (Some entry)
    | _ => Undef
    end
  else Ret None.

(** [vbase[-i] = vsp[n - 1 - i]] for [i = 0 .. k - 1], upwards. *)
Fixpoint move_block (m : ProcMem) (src dst : Z) (k : nat) : outcome ProcMem :=
  match k with
  | O => Ret m
  | S k => v ← read_slot m src; m ← write_slot m dst v; move_block m (src + 1) (dst + 1) k
  end.

(** [op_tcall] for a function of the image: the frame is taken over, the old
    continuation kept.  A call of the frame's own function leaves the
    continuation slots alone. *)
Definition exec_tcall (n fid : Z) (r : regs) (st : store) (m : ProcMem) : outcome lres :=
  _ ← check_arity fid n;
  let d := r_dep r in
  let base := r_base r in
  cfid ← current_fid r st m;
  entry ← fn_field fn_entry fid;
  if bool_decide (cfid = Some fid) then
    m ← move_block m (d - n) base (Z.to_nat n);
    Ret (LTick (mk_regs entry base entry (r_acc r) (base + n + 3)) st (set_sp (- (base + n + 3)) m))
  else
    ok ← match cfid with None => Ret 0 | Some c => fn_field fn_args c end;
    oret ← read_slot m (base + ok + 1);
    obase ← read_slot m (base + ok + 2);
    ocbase ← read_slot m (base + ok + 3);
    maxd ← fn_field fn_maxd fid;
    '(st, m) ← proc_stack_reserve cap st (set_sp (- d) m) (- (base + maxd + 1));
    m ← move_block m (d - n) base (Z.to_nat n);
    m ← write_slot m (base + n) (val_int (val_get_int oret));
    m ← write_slot m (base + n + 1) (val_int (val_get_int obase));
    m ← write_slot m (base + n + 2) (val_int (val_get_int ocbase));
    Ret (LTick (mk_regs entry base entry (r_acc r) (base + n + 3)) st (set_sp (- (base + n + 3)) m)).

(** [op_ret] in a called frame: pop it and resume the caller. *)
Definition exec_ret (r : regs) (st : store) (m : ProcMem) : outcome lres :=
  k ← word (r_pc r + 1);
  let base := r_base r in
  pc ← read_slot m (base + k + 1);
  cbase ← read_slot m (base + k + 3);
  nbase ← read_slot m (base + k + 2);
  Ret (LTick (mk_regs (val_get_int pc) (val_get_int nbase) (val_get_int cbase) (r_acc r) base) st (set_sp (- base) m)).

(** ** The instructions that stay inside the process *)
Definition exec_local (op : Z) (r : regs) (st : store) (m : ProcMem) : outcome lres :=
  if op =? LOP_CONST then
    i ← word (r_pc r + 1); v ← const_at i; Ret (LNext (advance 2 (with_acc v r)) st m)
  else if op =? LOP_LOAD then
    k ← word (r_pc r + 1); v ← read_slot m (r_base r + k); Ret (LNext (advance 2 (with_acc v r)) st m)
  else if op =? LOP_STORE then
    k ← word (r_pc r + 1); m ← write_slot m (r_base r + k) (r_acc r); Ret (LNext (advance 2 r) st m)
  else if op =? LOP_LOADF then exec_loadf r st m
  else if op =? LOP_PUSH then
    '(st, m) ← push_val (r_dep r) (r_acc r) st m; Ret (LNext (advance 1 (with_dep (r_dep r + 1) r)) st m)
  else if op =? LOP_LOADP then
    '(st, m) ← sp_room (r_dep r) st m;
    k ← word (r_pc r + 1); v ← read_slot m (r_base r + k);
    m ← write_slot m (r_dep r) v; Ret (LNext (advance 2 (with_dep (r_dep r + 1) r)) st m)
  else if op =? LOP_CONSTP then
    '(st, m) ← sp_room (r_dep r) st m;
    i ← word (r_pc r + 1); v ← const_at i;
    m ← write_slot m (r_dep r) v; Ret (LNext (advance 2 (with_dep (r_dep r + 1) r)) st m)
  else if op =? LOP_GLOBP then
    o ← word (r_pc r + 1);
    '(st, m) ← push_val (r_dep r) (global_val o) st m; Ret (LNext (advance 2 (with_dep (r_dep r + 1) r)) st m)
  else if op =? LOP_RESERVE then exec_reserve r st m
  else if op =? LOP_ADD then exec_binary (pure_op (arith Z.add dadd)) r st m
  else if op =? LOP_SUB then exec_binary (pure_op (arith Z.sub dsub)) r st m
  else if op =? LOP_MUL then exec_binary (pure_op (arith Z.mul dmul)) r st m
  else if op =? LOP_DIV then exec_binary op_div r st m
  else if op =? LOP_MOD then exec_binary op_mod r st m
  else if op =? LOP_LT then exec_cmp (num_test Z.ltb dlt) r st m
  else if op =? LOP_LE then exec_cmp (num_test Z.leb dle) r st m
  else if op =? LOP_GT then exec_cmp (num_test Z.gtb (λ a b, dlt b a)) r st m
  else if op =? LOP_GE then exec_cmp (num_test Z.geb (λ a b, dle b a)) r st m
  else if op =? LOP_EQ then exec_cmp (eq_test st) r st m
  else if op =? LOP_JIF_LT then exec_jif_cmp 1 (λ l, num_test Z.ltb dlt l (r_acc r)) r st m
  else if op =? LOP_JIF_LE then exec_jif_cmp 1 (λ l, num_test Z.leb dle l (r_acc r)) r st m
  else if op =? LOP_JIF_GT then exec_jif_cmp 1 (λ l, num_test Z.gtb (λ a b, dlt b a) l (r_acc r)) r st m
  else if op =? LOP_JIF_GE then exec_jif_cmp 1 (λ l, num_test Z.geb (λ a b, dle b a) l (r_acc r)) r st m
  else if op =? LOP_JIF_EQ then exec_jif_cmp 1 (λ e, eq_test st e (r_acc r)) r st m
  else if op =? LOP_JIF_EQ_I then
    i ← word (r_pc r + 1); exec_jif_cmp 2 (λ e, eq_test st e (val_int i)) r st m
  else if op =? LOP_CONST_I then
    i ← word (r_pc r + 1); Ret (LNext (advance 2 (with_acc (val_int i) r)) st m)
  else if op =? LOP_ADD_I then
    '(l, r) ← pop_val r m; i ← word (r_pc r + 1); v ← arith_i Z.add dadd l i;
    Ret (LNext (advance 2 (with_acc v r)) st m)
  else if op =? LOP_SUB_I then
    '(l, r) ← pop_val r m; i ← word (r_pc r + 1); v ← arith_i Z.sub dsub l i;
    Ret (LNext (advance 2 (with_acc v r)) st m)
  else if op =? LOP_PAIRP then Ret (LNext (advance 1 (with_acc (truth (val_tag (r_acc r) =? TAG_PAIR)) r)) st m)
  else if op =? LOP_SYMP then Ret (LNext (advance 1 (with_acc (truth (val_tag (r_acc r) =? TAG_SYM)) r)) st m)
  else if op =? LOP_CONS then exec_cons r st m
  else if op =? LOP_CAR then exec_field (λ a _, a) Cartype r st m
  else if op =? LOP_CDR then exec_field (λ _ d, d) Cdrtype r st m
  else if op =? LOP_JIF then
    if val_is_true (r_acc r) then Ret (LTick (advance 2 r) st m)
    else t ← word (r_pc r + 1); Ret (LTick (jump r (r_cbase r + t)) st m)
  else if op =? LOP_JUMP then
    t ← word (r_pc r + 1); Ret (LTick (jump r (r_cbase r + t)) st m)
  else if op =? LOP_RET then exec_ret r st m
  else if op =? LOP_MAKE_CLOSURE then exec_make_closure r st m
  else if op =? LOP_GLOBAL then
    o ← word (r_pc r + 1); Ret (LNext (advance 2 (with_acc (global_val o) r)) st m)
  else Undef.
End Local.

(** * The loop *)
Inductive ires :=
| Next (r : regs) (budget : Z) (vm : VM)
| Done (code : Z) (vm : VM).

Definition die_name (why : die_reason) : string :=
  match why with Divzero => "divzero" | Arithtype => "arithtype" | Cartype => "cartype" | Cdrtype => "cdrtype" end.

Section Run.
Context (cap stress : Z) (fuel sym_fuel : nat) (clock : nat → Z).
Context (cfunc_nargs : list Z) (cfunc_code : Z → VM → list Val → outcome (Val * VM)) (ccall_buf : Z).

(** [SP_REFRESH_PTRS]: the depth from [p->sp]. *)
Definition published_dep (vm : VM) (p : Z) : outcome Z := pr ← get_proc vm p; Ret (- sp (p_mem pr)).

(** [TICK]: spend the budget; when it is used up, publish the resume state. *)
Definition tick (r : regs) (budget : Z) (vm : VM) (p : Z) : ires :=
  if budget - 1 <=? 0 then
    Done R_YIELD (pub_sp p (r_dep r) (on_proc p (λ pr, set_p_acc (r_acc r) (set_p_has_acc true
      (set_p_pc (r_pc r) (set_p_base (r_base r) (set_p_cbase (r_cbase r) pr))))) vm))
  else Next r (budget - 1) vm.

(** [PROC_DIE_ISOLATED]. *)
Definition die_isolated (why : die_reason) (r : regs) (vm : VM) (p : Z) : outcome ires :=
  '(die_sym, vm) ← intern_vm sym_fuel vm (die_name why);
  let vm := pub_sp p (r_dep r) (on_proc p (λ pr, set_p_pc (r_pc r) (set_p_base (r_base r) pr)) vm) in
  vm ← proc_die cap stress fuel sym_fuel (Some p) vm p (val_symbol die_sym);
  Ret (Done R_DIED vm).

(** Take the result of an instruction of the process back into the machine. *)
Definition finish (l : lres) (budget : Z) (vm : VM) (p : Z) : outcome ires :=
  match l with
  | LNext r st m => Ret (Next r budget (put_mem p st m vm))
  | LTick r st m => Ret (tick r budget (put_mem p st m vm) p)
  | LDie why r st m => die_isolated why r (put_mem p st m vm) p
  end.

(** CALL and TCALL: [enter] is the part after [CALL_COMMON]. *)
Definition step_call (enter : Z → Z → regs → store → ProcMem → outcome lres) (r : regs) (budget : Z) (vm : VM) (p : Z)
    : outcome ires :=
  pr ← get_proc vm p;
  '(n, c, r, st, m) ← call_common cap (v_image vm) r (v_store vm) (p_mem pr);
  match c with
  | Fun fid => l ← enter n fid r st m; finish l budget vm p
  | Native cf =>
      let vm := set_acc p (r_acc r) (put_mem p st (set_sp (- r_dep r) m) vm) in
      '(code, vm) ← do_ccall cap stress fuel sym_fuel cfunc_nargs cfunc_code ccall_buf vm p cf n (r_base r) (r_pc r) (r_cbase r) (r_dep r);
      if negb (code =? 0) then Ret (Done R_BLOCKED vm)
      else
        pr ← get_proc vm p;
        d ← published_dep vm p;
        Ret (Next (advance 2 (with_acc (p_acc pr) (with_dep d r))) budget vm)
  end.

Definition step_builtin (r : regs) (budget : Z) (vm : VM) (p : Z) : outcome ires :=
  id ← word (v_image vm) (r_pc r + 1);
  n ← word (v_image vm) (r_pc r + 2);
  let vm := set_acc p (r_acc r) (pub_sp p (r_dep r) vm) in
  '(bl, vm) ← do_builtin cap stress fuel sym_fuel clock vm p id n (r_pc r) (r_base r) (r_cbase r) (r_dep r);
  if bl =? 1 then Ret (Done R_BLOCKED vm)
  else if bl =? 2 then Ret (Done R_DIED vm)
  else
    pr ← get_proc vm p;
    d ← published_dep vm p;
    Ret (tick (advance 3 (with_acc (p_acc pr) (with_dep d r))) budget vm p).

(** RET in the bottom frame ends the process, or the program when it is main. *)
Definition step_exit (r : regs) (vm : VM) (p : Z) : outcome ires :=
  if p =? v_main_pid vm then Ret (Done R_DIED (set_v_entry_done true (set_v_exit_val (r_acc r) vm)))
  else
    vm ← proc_die cap stress fuel sym_fuel (Some p) (pub_sp p (r_dep r) vm) p val_nil;
    Ret (Done R_DIED vm).

Definition step (r : regs) (budget : Z) (vm : VM) (p : Z) : outcome ires :=
  op ← word (v_image vm) (r_pc r);
  if op =? LOP_CALL then step_call (exec_call cap (v_image vm)) r budget vm p
  else if op =? LOP_TCALL then step_call (exec_tcall cap (v_image vm)) r budget vm p
  else if op =? LOP_BUILTIN then step_builtin r budget vm p
  else if (op =? LOP_RET) && (r_base r =? 0) then step_exit r vm p
  else
    pr ← get_proc vm p;
    l ← exec_local cap stress (v_image vm) op r (v_store vm) (p_mem pr);
    finish l budget vm p.

Fixpoint run_loop (n : nat) (r : regs) (budget : Z) (vm : VM) (p : Z) : outcome (Z * VM) :=
  match n with
  | O => NoFuel
  | S n =>
      x ← step r budget vm p;
      match x with
      | Next r budget vm => run_loop n r budget vm p
      | Done code vm => Ret (code, vm)
      end
  end.

Definition MAX_REDUCTIONS : Z := 1000.

(** [run_proc]: resume where the process was published. *)
Definition run_proc (n : nat) (vm : VM) (p : Z) : outcome (Z * VM) :=
  pr ← get_proc vm p;
  let acc := if p_has_acc pr then p_acc pr else val_nil in
  let vm := on_proc p (set_p_has_acc false) vm in
  run_loop n (mk_regs (p_pc pr) (p_base pr) (p_cbase pr) acc (- sp (p_mem pr))) MAX_REDUCTIONS vm p.
End Run.
