(* ===== verification/Depth.v ===== *)
(** Stack depth: no collection, copy or allocation moves the stack pointer, and
    what each actor primitive of [do_builtin] does to the depth of the calling
    process. *)
From stdpp Require Import base tactics list gmap strings.
From Stdlib Require Import ZArith Lia.
From S2P Require Import Prelude Values Heap Resource Gc Alloc Copy Fragment Runq Mailbox Symtab Vm Sched Builtin.
Open Scope Z_scope.

(** Decompose a computation known to return, without reducing anything. *)
Lemma Ret_inj {A} (a b : A) : Ret a = Ret b → a = b.
Proof. by intros [= ->]. Qed.
Ltac ret_step :=
  match goal with
  | H : Abort _ = Ret _ |- _ => discriminate H
  | H : Undef = Ret _ |- _ => discriminate H
  | H : NoFuel = Ret _ |- _ => discriminate H
  | H : Ret _ = Ret _ |- _ => apply Ret_inj in H
  | H : (_, _) = (_, _) |- _ => apply pair_equal_spec in H as [? ?]
  | H : (_ ≫= _) = Ret _ |- _ => apply bind_Ret in H as (?&?&H)
  | H : or_undef _ = Ret _ |- _ => apply or_undef_Ret in H
  | H : (match ?x with _ => _ end) = Ret _ |- _ => destruct x eqn:?
  end; cbv beta zeta in *; subst.
Ltac returns := repeat ret_step.

(** * The memory operations *)
Lemma push_sp cap st p v st' p' : proc_push cap st p v = Ret (st', p') → sp p' = sp p - 1.
Proof.
  unfold proc_push, proc_ensure_heap, write_slot. intros H. returns; try done.
  all: match goal with E : proc_arena_grow _ _ _ _ = (?b, _, _), N : negb ?b = false |- _ =>
         apply negb_false_iff in N; subst b; apply grow_true in E as [E _] end; simpl in *; lia.
Qed.
Lemma pop_sp p v p' : proc_pop p = Ret (v, p') → sp p' = sp p + 1.
Proof. unfold proc_pop. intros H. by returns. Qed.

Lemma copy_val_sp st p v v' st' p' : gc_copy_val st p v = Ret (v', st', p') → sp p' = sp p.
Proof. unfold gc_copy_val, gc_copy_obj. intros H. returns; done. Qed.
Lemma copy_vals_sp vs st p vs' st' p' : gc_copy_vals st p vs = Ret (vs', st', p') → sp p' = sp p.
Proof.
  revert st p vs' st' p'. induction vs as [|v vs IH]; intros st p vs' st' p' H; cbn [gc_copy_vals] in H; returns; [done|].
  etrans; [by eapply IH|]. by eapply copy_val_sp.
Qed.
Lemma scan_sp n st p scan st' p' : gc_scan_tospace n st p scan = Ret (st', p') → sp p' = sp p.
Proof.
  revert st p scan. induction n as [|n IH]; intros st p scan H; cbn [gc_scan_tospace] in H; returns; try done.
  etrans; [by eapply IH|]. by eapply copy_vals_sp.
Qed.
Lemma roots_sp l st p st' p' : foldM gc_copy_root (st, p) l = Ret (st', p') → sp p' = sp p.
Proof.
  intros H. eapply (foldM_inv (λ s, sp s.2 = sp p)) in H; [done| |done].
  intros [s q] i [s' q'] _ Hq E. unfold gc_copy_root, write_slot in E. cbn [snd] in *. returns. cbn [sp set_slots].
  rewrite <- Hq. by eapply copy_val_sp.
Qed.
Lemma collect_internal_sp cap st p n r ok r' st' p' :
  gc_collect_internal cap st p n r = Ret (ok, r', st', p') → sp p' = sp p.
Proof.
  unfold gc_collect_internal, gc_reserve_tospace, gc_evacuate. intros H. returns;
  repeat match goal with
  | H : gc_scan_tospace _ _ _ _ = Ret _ |- _ => apply scan_sp in H
  | H : foldM gc_copy_root _ _ = Ret _ |- _ => apply roots_sp in H
  | H : gc_copy_val _ _ _ = Ret _ |- _ => apply copy_val_sp in H
  end; cbn [sp set_gc_to_size set_gc_to set_gc_to_cap gc_swap] in *; congruence.
Qed.
Lemma collect_sp cap st p n ok st' p' : gc_collect cap st p n = Ret (ok, st', p') → sp p' = sp p.
Proof. unfold gc_collect. intros H. returns. by eapply collect_internal_sp. Qed.
Lemma drain_sp cap st p st' p' : proc_gc_drain cap st p = Ret (st', p') → sp p' = sp p.
Proof. unfold proc_gc_drain. intros H. returns; [|done]. match goal with E : gc_collect _ _ _ _ = _ |- _ => exact (collect_sp _ _ _ _ _ _ _ E) end. Qed.
Lemma grow_sp cap st p need b st' p' : proc_arena_grow cap st p need = (b, st', p') → sp p' = sp p.
Proof. intros E. unfold proc_arena_grow in E. repeat case_match; simplify_eq; done. Qed.
Lemma reserve_heap_sp cap st p n st' p' : proc_reserve_heap cap st p n = Ret (st', p') → sp p' = sp p.
Proof.
  unfold proc_reserve_heap. intros H. returns; [done|by eapply grow_sp|by eapply collect_sp].
Qed.
Lemma ensure_sp st p st' p' : proc_ensure_heap st p = Ret (st', p') → sp p' = sp p.
Proof. unfold proc_ensure_heap. intros H. by returns. Qed.
Lemma stress_sp n p : sp (stress_tick n p) = sp p.
Proof. unfold stress_tick. by repeat case_match. Qed.
Lemma heap_alloc_sp cap stress st p n a st' p' : heap_alloc cap stress st p n = Ret (a, st', p') → sp p' = sp p.
Proof.
  unfold heap_alloc. intros H. returns; cbn [sp set_heap_ptr];
  repeat match goal with
  | H : gc_collect _ _ _ _ = Ret _ |- _ => apply collect_sp in H
  | H : proc_gc_drain _ _ _ = Ret _ |- _ => apply drain_sp in H
  | H : proc_ensure_heap _ _ = Ret _ |- _ => apply ensure_sp in H
  end; rewrite ?stress_sp in *; repeat (case_match; cbn [sp set_gc_pending] in *); congruence.
Qed.
Lemma alloc_obj_sp cap stress st p o v st' p' : alloc_obj cap stress st p o = Ret (v, st', p') → sp p' = sp p.
Proof.
  unfold alloc_obj, proc_heap_alloc. intros H. returns; try done; by eapply heap_alloc_sp.
Qed.
Lemma leave_sp p p' : proc_gc_leave p = Ret p' → sp p' = sp p.
Proof. unfold proc_gc_leave. intros H. by returns. Qed.
Lemma reopen_sp cap st p st' p' : proc_gc_reopen cap st p = Ret (st', p') → sp p' = sp p.
Proof.
  unfold proc_gc_reopen. intros H. returns. etrans; [by eapply drain_sp|by eapply leave_sp].
Qed.

Lemma deep_copy_step_sp cap stress check task s s' :
  deep_copy_step cap stress check task s = Ret (Some s') → sp (cs_proc s') = sp (cs_proc s).
Proof.
  unfold deep_copy_step, val_pair, val_string, val_bytes. intros H.
  destruct task; returns; simplify_eq; cbn [cs_proc]; try done; by eapply alloc_obj_sp.
Qed.
Lemma deep_copy_loop_sp cap stress check n s r s' :
  deep_copy_loop cap stress check n s = Ret (r, s') →
  sp (cs_proc s') = sp (cs_proc s) ∧ ∀ s'', r = Some s'' → sp (cs_proc s'') = sp (cs_proc s).
Proof.
  revert s. induction n as [|n IH]; intros s H; cbn [deep_copy_loop] in H; returns; try (split; [done|by intros ? [= <-]]).
  match goal with E : deep_copy_step _ _ _ _ _ = _ |- _ => apply deep_copy_step_sp in E; cbn [cs_proc] in E; rewrite <- E end.
  by apply IH.
Qed.
Lemma deep_copy_sp cap stress check n st p root r st' p' :
  val_deep_copy cap stress check n st p root = Ret (r, st', p') → sp p' = sp p.
Proof.
  unfold val_deep_copy. intros H. returns;
  match goal with E : deep_copy_loop _ _ _ _ _ = _ |- _ => apply deep_copy_loop_sp in E as [E1 E2] end;
  match goal with E : proc_gc_leave _ = _ |- _ => rewrite (leave_sp _ _ E) end; [by apply E2|by apply E2|done].
Qed.

(** * The operations on a process *)
Definition dep (vm : VM) (p : Z) : option Z := (λ pr, - sp (p_mem pr)) <$> v_procs vm !! p.

Lemma dep_on q f vm p : (∀ pr, sp (p_mem (f pr)) = sp (p_mem pr)) → dep (on_proc q f vm) p = dep vm p.
Proof.
  intros Hf. unfold dep, on_proc. cbn [v_procs set_v_procs]. destruct (decide (q = p)) as [->|Hne].
  - rewrite lookup_alter_eq. destruct (v_procs vm !! p); simpl; [by rewrite Hf|done].
  - by rewrite lookup_alter_ne.
Qed.
Lemma dep_store x vm p : dep (set_v_store x vm) p = dep vm p.
Proof. done. Qed.
Lemma dep_get vm p pr : get_proc vm p = Ret pr → dep vm p = Some (- sp (p_mem pr)).
Proof. unfold get_proc, dep. intros H%or_undef_Ret. by rewrite H. Qed.
Lemma dep_put vm p st m pr : get_proc vm p = Ret pr → dep (put_mem p st m vm) p = Some (- sp m).
Proof.
  unfold get_proc, dep, put_mem, on_proc. intros H%or_undef_Ret. cbn [v_procs set_v_procs set_v_store].
  by rewrite lookup_alter_eq, H.
Qed.
Lemma dep_pub vm p d d0 : dep vm p = Some d0 → dep (pub_sp p d vm) p = Some d.
Proof.
  unfold dep, pub_sp, on_proc. cbn [v_procs set_v_procs]. rewrite lookup_alter_eq. destruct (v_procs vm !! p); [|done].
  intros _. simpl. f_equal. lia.
Qed.

Lemma wake_dep vm p vm' q : vm_wait_unregister vm p = Ret vm' → dep vm' q = dep vm q.
Proof.
  unfold vm_wait_unregister, wait_unregister_locked. intros H. returns; [|done].
  change (dep (on_proc p (λ pr, set_p_wait_generation (u32 (p_wait_generation pr + 1)) (set_p_wait_registered false pr)) vm) q = dep vm q).
  by apply dep_on.
Qed.
Lemma enqueue_dep vm p vm' q : vm_enqueue vm p = Ret vm' → dep vm' q = dep vm q.
Proof. unfold vm_enqueue. intros H. by returns. Qed.
Lemma intern_dep n vm name id vm' q : intern_vm n vm name = Ret (id, vm') → dep vm' q = dep vm q.
Proof. unfold intern_vm. intros H. by returns. Qed.
Lemma deliver_dep n cur vm t msg rc vm' q : mbox_deliver n cur vm t msg = Ret (rc, vm') → dep vm' q = dep vm q.
Proof.
  unfold mbox_deliver. intros H. returns; try done;
  repeat match goal with
  | E : vm_enqueue _ _ = Ret _ |- _ => rewrite (enqueue_dep _ _ _ _ E); clear E
  | E : vm_wait_unregister _ _ = Ret _ |- _ => rewrite (wake_dep _ _ _ _ E); clear E
  end; unfold set_state; rewrite ?dep_on, ?dep_store, ?dep_on, ?dep_store by done; done.
Qed.

Section Depth.
Context (cap stress : Z) (fuel sym_fuel : nat) (clock : nat → Z).

Lemma vm_push_dep vm p v vm' d : dep vm p = Some d → vm_push cap vm p v = Ret vm' → dep vm' p = Some (d + 1).
Proof.
  unfold vm_push. intros Hd H. returns. rewrite (dep_get _ _ _ H0) in Hd. erewrite dep_put by done.
  match goal with E : proc_push _ _ _ _ = _ |- _ => apply push_sp in E end. injection Hd as <-. f_equal. lia.
Qed.
Lemma vm_pop_dep vm p v vm' d : dep vm p = Some d → vm_pop vm p = Ret (v, vm') → dep vm' p = Some (d - 1).
Proof.
  unfold vm_pop. intros Hd H. returns. rewrite (dep_get _ _ _ H0) in Hd. erewrite dep_put by done.
  match goal with E : proc_pop _ = _ |- _ => apply pop_sp in E end. injection Hd as <-. f_equal. lia.
Qed.
Lemma vm_drain_dep vm p vm' : vm_drain cap vm p = Ret vm' → dep vm' p = dep vm p.
Proof.
  unfold vm_drain. intros H. returns. rewrite (dep_get _ _ _ H0). erewrite dep_put by done.
  match goal with E : proc_gc_drain _ _ _ = _ |- _ => by rewrite (drain_sp _ _ _ _ _ E) end.
Qed.
Lemma mbox_pop_dep vm p v vm' : mbox_pop cap stress fuel vm p = Ret (v, vm') → dep vm' p = dep vm p.
Proof.
  unfold mbox_pop. intros H. returns. rewrite (dep_get _ _ _ H0).
  erewrite (dep_put (on_proc p (set_p_box _) vm)); cycle 1.
  { unfold get_proc, on_proc in *. cbn [v_procs set_v_procs]. rewrite lookup_alter_eq. apply or_undef_Ret in H0. by rewrite H0. }
  match goal with E : val_deep_copy _ _ _ _ _ _ _ = _ |- _ => rewrite (deep_copy_sp _ _ _ _ _ _ _ _ _ _ E) end.
  match goal with E : proc_reserve_heap _ _ _ _ = _ |- _ => by rewrite (reserve_heap_sp _ _ _ _ _ _ E) end.
Qed.
Lemma pop_acc_dep vm p rc vm' d : dep vm p = Some d → pop_acc vm p = Ret (rc, vm') → dep vm' p = Some (d - 1).
Proof.
  unfold pop_acc, set_acc. intros Hd H. returns. rewrite dep_on by done. by eapply vm_pop_dep.
Qed.
Lemma disarm_dep vm p q : dep (disarm vm p) q = dep vm q.
Proof. unfold disarm, set_deadline. change (dep (on_proc p (set_p_recv_deadline (-1)) vm) q = dep vm q). by apply dep_on. Qed.

(** A deadline that makes [b_recv_after] leave its operand on the stack. *)
Definition deadline_set (d : Z) : bool := (d =? RECV_AFTER_EXPIRED) || (0 <=? d).

Lemma b_recv_after_dep vm p pr d s vm' :
  get_proc vm p = Ret pr → dep vm p = Some d → b_recv_after cap stress fuel clock vm p = Ret (s, vm') →
  s = B_SUSPEND ∨ (s = B_OK ∧ dep vm' p = Some (if deadline_set (p_recv_deadline pr) then d + 1 else d)).
Proof.
  intros Hpr Hd. unfold b_recv_after. rewrite Hpr. cbn [mbind outcome_bind]. unfold deadline_set.
  destruct (Z.eqb_spec (p_recv_deadline pr) RECV_AFTER_EXPIRED) as [E|E]; cbn [orb]; intros H.
  { returns. right. split; [done|]. eapply vm_push_dep; [|done]. by rewrite disarm_dep. }
  apply bind_Ret in H as (vm1&H1&H).
  assert (Hd1 : dep vm1 p = Some (if 0 <=? p_recv_deadline pr then d else d - 1)).
  { clear H. unfold mono_now_ms in H1. destruct (Z.ltb_spec (p_recv_deadline pr) 0), (Z.leb_spec 0 (p_recv_deadline pr)); try lia; returns; [|done].
    match goal with E0 : vm_pop _ _ = _ |- _ => apply (vm_pop_dep _ _ _ _ _ Hd) in E0 end. unfold set_deadline.
    match goal with |- dep (set_v_recv_armed _ ?x) _ = _ => change (dep x p = Some (d - 1)) end. rewrite dep_on by done. done. }
  replace (if 0 <=? p_recv_deadline pr then d + 1 else d) with ((if 0 <=? p_recv_deadline pr then d else d - 1) + 1) by (case_match; lia).
  set (d1 := if 0 <=? p_recv_deadline pr then d else d - 1) in *.
  clear H1. apply bind_Ret in H as (pr1&_&H). destruct (0 <? mbox_count (p_box pr1)).
  - returns. right. split; [done|].
    match goal with E : vm_drain _ _ _ = _ |- _ => rewrite (vm_drain_dep _ _ _ E) end.
    eapply vm_push_dep; [|done]. match goal with E : mbox_pop _ _ _ _ _ = _ |- _ => rewrite (mbox_pop_dep _ _ _ _ E) end.
    by rewrite disarm_dep.
  - unfold mono_now_ms in H. cbv beta zeta iota in H. destruct (p_recv_deadline pr1 <=? _); returns; [|by left]. right. split; [done|].
    eapply vm_push_dep; [|done]. match goal with E : vm_wait_unregister _ _ = _ |- _ => rewrite (wake_dep _ _ _ _ E) end.
    by rewrite disarm_dep.
Qed.
Lemma block_code vm p pc base cbase d vm' : block_recv vm p pc base cbase d ≠ Ret (0, vm').
Proof. unfold block_recv. intros H. returns. lia. Qed.
Lemma die_code vm p pc base cbase d why vm' : do_builtin_die cap stress fuel sym_fuel vm p pc base cbase d why ≠ Ret (0, vm').
Proof. unfold do_builtin_die. intros H. returns. lia. Qed.

Lemma recv_after_dep vm p pr pc base cbase d vm' :
  get_proc vm p = Ret pr → do_recv_after cap stress fuel clock vm p pc base cbase d = Ret (0, vm') →
  dep vm' p = Some (if deadline_set (p_recv_deadline pr) then d + 1 else d).
Proof.
  intros Hpr H. unfold do_recv_after in H. rewrite Hpr in H. cbn [mbind outcome_bind] in H.
  apply bind_Ret in H as (vm1&H1&H). apply bind_Ret in H as ([s vm2]&H2&H).
  assert (Hd1 : dep vm1 p = Some (d + 1)) by (eapply vm_push_dep; [|done]; eapply dep_pub, dep_get, Hpr).
  assert (∃ pr1, get_proc vm1 p = Ret pr1 ∧ p_recv_deadline pr1 = p_recv_deadline pr) as (pr1&Hpr1&Hdl).
  { unfold vm_push in H1. clear H H2. returns. unfold get_proc, put_mem, pub_sp, on_proc in *. cbn [v_procs set_v_procs set_v_store] in *.
    apply or_undef_Ret in Hpr. rewrite !lookup_alter_eq, Hpr. eexists. split; [reflexivity|done]. }
  destruct (b_recv_after_dep _ _ _ _ _ _ Hpr1 Hd1 H2) as [->|[-> Hd2]]; [by apply block_code in H|].
  rewrite (pop_acc_dep _ _ _ _ _ Hd2 H), Hdl. destruct (deadline_set (p_recv_deadline pr)); f_equal; lia.
Qed.

Lemma do_send_dep vm p pc base cbase d vm' pr :
  get_proc vm p = Ret pr → do_send cap stress fuel sym_fuel vm p pc base cbase d = Ret (0, vm') → dep vm' p = Some (d - 1).
Proof.
  intros Hpr H. unfold do_send in H. apply bind_Ret in H as (to&_&H). rewrite Hpr in H. cbn [mbind outcome_bind] in H.
  apply bind_Ret in H as ([rc vm1]&H1&H). destruct (negb (rc =? 0)); [by apply die_code in H|].
  assert (Hd : dep vm1 p = dep vm p) by (clear H; returns; first [done|by eapply deliver_dep]).
  clear H1. returns. unfold set_acc. rewrite dep_on by done. eapply dep_pub. rewrite Hd. by eapply dep_get.
Qed.

Lemma do_recv_dep vm p pc base cbase d vm' :
  do_recv cap stress fuel vm p pc base cbase d = Ret (0, vm') → dep vm' p = Some d.
Proof.
  unfold do_recv. intros H. apply bind_Ret in H as (pr&Hpr&H). destruct (mbox_count (p_box pr) =? 0); [by apply block_code in H|].
  returns. eapply dep_pub. unfold set_acc. rewrite dep_on by done.
  match goal with E : vm_drain _ _ _ = _ |- _ => rewrite (vm_drain_dep _ _ _ E) end. eapply dep_pub.
  eapply vm_push_dep; [|done]. match goal with E : mbox_pop _ _ _ _ _ = _ |- _ => rewrite (mbox_pop_dep _ _ _ _ E) end.
  by apply dep_get.
Qed.

Lemma recv_peek_dep vm p pc base cbase d vm' pr :
  get_proc vm p = Ret pr → do_recv_peek cap stress fuel sym_fuel vm p pc base cbase d = Ret (0, vm') → dep vm' p = Some d.
Proof.
  intros Hpr H. unfold do_recv_peek in H. apply bind_Ret in H as ([s vm1]&H1&H).
  destruct s; [|by apply block_code in H|by apply die_code in H].
  replace d with (d + 1 - 1) by lia. eapply pop_acc_dep; [|done]. clear H. unfold b_recv_peek in H1.
  apply bind_Ret in H1 as (pr1&Hpr1&H1). returns; try done.
  match goal with E : vm_drain _ _ _ = _ |- _ => rewrite (vm_drain_dep _ _ _ E) end.
  eapply vm_push_dep; [|done]. rewrite dep_on by done. erewrite dep_put by done.
  match goal with E : val_deep_copy _ _ _ _ _ _ _ = _ |- _ => rewrite (deep_copy_sp _ _ _ _ _ _ _ _ _ _ E) end.
  match goal with E : proc_reserve_heap _ _ _ _ = _ |- _ => rewrite (reserve_heap_sp _ _ _ _ _ _ E) end.
  rewrite <- (dep_get _ _ _ Hpr1). eapply dep_pub. by apply dep_get.
Qed.

Lemma recv_commit_dep vm p d vm' pr :
  get_proc vm p = Ret pr → do_recv_commit vm p d = Ret (0, vm') → dep vm' p = Some d.
Proof.
  intros Hpr H. unfold do_recv_commit, b_recv_commit, set_acc in H. returns. rewrite dep_on by done.
  rewrite dep_on by done. eapply dep_pub. by apply dep_get.
Qed.

(** What building the noproc message on the caller's heap does. *)
Lemma put_mem_same vm p st m pr : get_proc vm p = Ret pr → sp m = sp (p_mem pr) → dep (put_mem p st m vm) p = dep vm p.
Proof. intros Hpr Hm. erewrite dep_put by done. rewrite Hm. symmetry. by apply dep_get. Qed.

Lemma deliver_noproc_dep cur vm p tpid ref vm' :
  deliver_noproc cap stress fuel sym_fuel cur vm p tpid ref = Ret vm' → dep vm' p = dep vm p.
Proof.
  unfold deliver_noproc, val_pair. intros H. apply bind_Ret in H as (pr&Hpr&H). apply bind_Ret in H as ([st1 m1]&R1&H).
  apply bind_Ret in H as ([s1 vm1]&I1&H). apply bind_Ret in H as ([s2 vm2]&I2&H). apply bind_Ret in H as (pr2&Hpr2&H).
  apply bind_Ret in H as ([[v1 st2] m2]&A1&H). apply bind_Ret in H as ([[v2 st3] m3]&A2&H).
  apply bind_Ret in H as ([[v3 st4] m4]&A3&H). apply bind_Ret in H as ([[v4 st5] m5]&A4&H).
  apply bind_Ret in H as ([rc vm3]&D&H). apply bind_Ret in H as (pr3&Hpr3&H). apply bind_Ret in H as ([st6 m6]&R2&H).
  apply Ret_inj in H. subst vm'.
  erewrite put_mem_same by (done || by eapply reopen_sp). erewrite (deliver_dep _ _ _ _ _ _ _ _ D).
  erewrite put_mem_same; [|done|].
  - rewrite (intern_dep _ _ _ _ _ _ I2), (intern_dep _ _ _ _ _ _ I1). erewrite put_mem_same; [done|done|].
    cbn [sp proc_gc_enter set_gc_gate]. by eapply reserve_heap_sp.
  - apply alloc_obj_sp in A1, A2, A3, A4. congruence.
Qed.
Lemma do_monitor_dep vm p d vm' :
  do_monitor cap stress fuel sym_fuel vm p d = Ret (0, vm') → dep vm' p = Some d.
Proof.
  unfold do_monitor. intros H. apply bind_Ret in H as (pr&Hpr&H). apply bind_Ret in H as (vm1&H1&H).
  apply bind_Ret in H as ([s vm2]&H2&H). destruct s; try done.
  assert (Hd1 : dep vm1 p = Some (d + 1)) by (eapply vm_push_dep; [|done]; eapply dep_pub, dep_get, Hpr).
  replace d with (d + 1 - 1) by lia. eapply pop_acc_dep; [|done]. clear H H1.
  unfold b_monitor in H2. apply bind_Ret in H2 as ([v vm3]&H3&H2). cbv zeta in H2. apply bind_Ret in H2 as (vm4&H4&H2).
  apply bind_Ret in H2 as (vm5&H5&H2). apply Ret_inj in H2. injection H2 as <-.
  replace (d + 1) with (d + 1 - 1 + 1) by lia. eapply vm_push_dep; [|done].
  rewrite <- (vm_pop_dep _ _ _ _ _ Hd1 H3). match type of H4 with (if ?b then _ else _) = _ => destruct b end.
  - apply Ret_inj in H4. subst vm4. by rewrite dep_on.
  - by rewrite (deliver_noproc_dep _ _ _ _ _ _ H4).
Qed.

Lemma put_mem_other vm p q st m : q ≠ p → dep (put_mem q st m vm) p = dep vm p.
Proof. intros Hne. unfold dep, put_mem, on_proc. cbn [v_procs set_v_procs set_v_store]. by rewrite lookup_alter_ne. Qed.

Lemma do_spawn_dep vm p pc base cbase d vm' :
  p < v_next_pid vm → do_spawn cap stress fuel sym_fuel vm p pc base cbase d = Ret (0, vm') → dep vm' p = dep vm p.
Proof.
  intros Hp. unfold do_spawn. intros H. apply bind_Ret in H as (pr&Hpr&H). apply bind_Ret in H as (f&_&H).
  destruct f as [fid|]; [|done]. apply bind_Ret in H as ([np vm1]&Hn&H).
  assert (np ≠ p ∧ dep vm1 p = dep vm p) as [Hne Hd].
  { unfold proc_new in Hn. cbv zeta in Hn. clear H. returns. cbn [v_next_pid set_v_next_pid] in *. split; [lia|].
    unfold dep. cbn [v_procs set_v_active set_v_procs_count set_v_table put_proc set_v_procs set_v_next_pid].
    by rewrite lookup_insert_ne by lia. }
  clear Hn. apply bind_Ret in H as (nr&_&H). apply bind_Ret in H as ([st1 m1]&_&H). apply bind_Ret in H as (n&_&H).
  apply bind_Ret in H as ([st2 m2]&_&H). apply bind_Ret in H as ([[r st3] m3]&_&H). cbv zeta in H. destruct r as [owned|].
  - unfold proc_frame_init in H. returns. unfold set_acc. rewrite dep_on by done.
    match goal with E : vm_enqueue _ _ = _ |- _ => rewrite (enqueue_dep _ _ _ _ E) end.
    rewrite dep_on, put_mem_other, dep_store, put_mem_other by done. done.
  - apply bind_Ret in H as (vm2&_&H). by apply die_code in H.
Qed.

(** What the primitive should do to the depth: the stacked operands go. *)
Definition builtin_effect (id n : Z) (pr : Proc) : Z :=
  if (id =? LB_RECV_AFTER) && deadline_set (p_recv_deadline pr) then 1 else - Z.max 0 (n - 1).

Lemma do_builtin_dep vm p id n pc base cbase d vm' pr :
  get_proc vm p = Ret pr → - sp (p_mem pr) = d → p < v_next_pid vm →
  do_builtin cap stress fuel sym_fuel clock vm p id n pc base cbase d = Ret (0, vm') →
  dep vm' p = Some (d + builtin_effect id n pr).
Proof.
  intros Hpr Hd Hp. unfold do_builtin, builtin_effect. pose proof (dep_get _ _ _ Hpr) as Hd0.
  destruct (Z.eqb_spec id LB_SELF) as [->|_].
  { destruct (Z.eqb_spec n 0) as [->|]; [|done]. intros [= <-]. unfold set_acc. rewrite dep_on, Hd0 by done. f_equal. simpl. lia. }
  destruct (Z.eqb_spec id LB_SPAWN) as [->|_].
  { destruct (Z.eqb_spec n 1) as [->|]; [|done]. intros H. rewrite (do_spawn_dep _ _ _ _ _ _ _ Hp H), Hd0. f_equal. simpl. lia. }
  destruct (Z.eqb_spec id LB_SEND) as [->|_].
  { destruct (Z.eqb_spec n 2) as [->|]; [|done]. intros H. rewrite (do_send_dep _ _ _ _ _ _ _ _ Hpr H). f_equal. }
  destruct (Z.eqb_spec id LB_RECV) as [->|_].
  { destruct (Z.eqb_spec n 0) as [->|]; [|done]. intros H. rewrite (do_recv_dep _ _ _ _ _ _ _ H). f_equal. simpl. lia. }
  destruct (Z.eqb_spec id LB_MONITOR) as [->|_].
  { destruct (Z.eqb_spec n 1) as [->|]; [|done]. intros H. rewrite (do_monitor_dep _ _ _ _ H). f_equal. simpl. lia. }
  destruct (Z.eqb_spec id LB_RECV_AFTER) as [->|_].
  { destruct (Z.eqb_spec n 1) as [->|]; [|done]. intros H. rewrite (recv_after_dep _ _ _ _ _ _ _ _ Hpr H). cbn [andb].
    destruct (deadline_set _); f_equal; lia. }
  destruct (Z.eqb_spec id LB_RECV_PEEK) as [->|_].
  { destruct (Z.eqb_spec n 0) as [->|]; [|done]. intros H. rewrite (recv_peek_dep _ _ _ _ _ _ _ _ Hpr H). f_equal. simpl. lia. }
  destruct (Z.eqb_spec id LB_RECV_COMMIT) as [->|_]; [|done].
  destruct (Z.eqb_spec n 0) as [->|]; [|done]. intros H. rewrite (recv_commit_dep _ _ _ _ _ Hpr H). f_equal. simpl. lia.
Qed.
End Depth.

(** C13: an actor primitive that completes leaves the caller's stack as the
    compiler's depth count assumes: its stacked operands are gone and the rest
    is where it was, with one exception: a [recv_after] that had to wait (its
    deadline is armed or has expired when the instruction is executed again)
    leaves one slot too many, because the operand pushed again on re-execution
    is not popped. *)
Theorem builtin_stack_effect cap stress fuel sym_fuel clock vm p id n pc base cbase d vm' pr :
  get_proc vm p = Ret pr → - sp (p_mem pr) = d → p < v_next_pid vm →
  do_builtin cap stress fuel sym_fuel clock vm p id n pc base cbase d = Ret (0, vm') →
  dep vm' p = Some (d + builtin_effect id n pr).
Proof. apply do_builtin_dep. Qed.

(** A timed-out [recv_after] at depth 1 returns at depth 2. *)
Definition w_late : Proc := set_p_recv_deadline RECV_AFTER_EXPIRED w_target.
Definition w_expired : VM := put_proc 7 w_late w_vm.
Lemma builtin_stack_effect_witness :
  builtin_effect LB_RECV_AFTER 1 w_late = 1 ∧
  ∃ vm', do_builtin 4096 0 9 9 (λ _, 0) w_expired 7 LB_RECV_AFTER 1 0 0 0 1 = Ret (0, vm') ∧
    dep vm' 7 = Some (1 + builtin_effect LB_RECV_AFTER 1 w_late).
Proof.
  split; [reflexivity|]. eexists. split; [vm_compute; reflexivity|].
  eapply (builtin_stack_effect 4096 0 9 9 (λ _, 0) w_expired 7 LB_RECV_AFTER 1 0 0 0 1 _ w_late);
    [reflexivity|reflexivity|reflexivity|vm_compute; reflexivity].
Defined.
