(* ===== verification/Machine.v ===== *)
(** What the instructions mean: a machine on trees.

    Programs of the language never see addresses.  [abs_exec], [abs_call] and
    [abs_tcall] give the meaning of the instructions on a stack of trees and an
    accumulator tree; the interpreter of Interp.v implements it, whatever
    collections and arena growths happen underneath ([local_refines],
    [calls_refine]). *)
From stdpp Require Import base tactics list gmap strings.
From Stdlib Require Import ZArith Lia.
From S2P Require Import Prelude Values Heap Resource Gc GcCorrect GcSpec Tree Alloc Copy Vm Builtin Interp.
Open Scope Z_scope.

Record amach := mk_amach {
  a_pc : Z;
  a_base : Z;
  a_cbase : Z;
  a_acc : option tree (** [None]: a value no instruction may use; the code keeps a stale word *);
  a_stk : list tree (** bottom first *)
}.

Inductive ares := ANext (a : amach) | ATick (a : amach) | ADie (why : die_reason).

(** What an instruction may ask of the arena: heap bytes or a frame. *)
Inductive demand := DNone | DHeap (bytes : Z) | DFrame (lo : Z).

(** Heap values are not numbers: as operands they all behave like nil. *)
Definition tree_num (t : tree) : Val := match t with Imm v => v | _ => val_nil end.
(** A 64-bit word that is no heap reference. *)
Definition imm (v : Val) : option tree :=
  if (0 <=? v) && (v <? 2 ^ 64) && negb (is_heap_tag (val_tag v)) then Some (Imm v) else None.
Definition tree_tag (t : tree) : Z :=
  match t with
  | Imm v => val_tag v
  | TPair _ _ => TAG_PAIR
  | TClos _ _ => TAG_CLOS
  | TString _ => TAG_STRING
  | TBytes _ => TAG_BYTES
  | TResource _ _ => TAG_RESOURCE
  end.
Definition tree_true (t : tree) : bool := negb (tree_tag t =? TAG_NIL) && negb (tree_tag t =? TAG_FALSE).

(** Equality, where the trees determine it: the code compares pairs, closures,
    bytes and resources by identity. *)
Definition tree_eq (a b : tree) : option bool :=
  match a, b with
  | Imm v, Imm w =>
      Some (if cmp_numeric_path v w then deq (val_to_double v) (val_to_double w) else v =? w)
  | TString d, TString e => Some ((length d =? length e)%nat && bool_decide (d = e))
  | _, _ => if tree_tag a =? tree_tag b then None else Some false
  end.

Section Abs.
Context (im : Image) (consts : list tree).

Definition to_opt {A} (o : outcome A) : option A := match o with Ret x => Some x | _ => None end.
Definition stk_at (stk : list tree) (i : Z) : option tree := if i <? 0 then None else stk !! Z.to_nat i.
Definition aword (i : Z) : option Z := to_opt (word im i).

Definition aput (pc : Z) (acc : option tree) (stk : list tree) (a : amach) : amach :=
  mk_amach pc (a_base a) (a_cbase a) acc stk.
Definition apop (a : amach) : option (tree * list tree) :=
  l ← last (a_stk a); Some (l, take (length (a_stk a) - 1) (a_stk a)).

Definition abs_binary (f : Val → Val → outcome (Val + die_reason)) (a : amach) : option (ares * demand) :=
  '(l, stk) ← apop a;
  acc ← a_acc a;
  x ← to_opt (f (tree_num l) (tree_num acc));
  match x with
  | inl v => t ← imm v; Some (ANext (aput (a_pc a + 1) (Some t) stk a), DNone)
  | inr why => Some (ADie why, DNone)
  end.
Definition abs_cmp (test : tree → tree → option bool) (a : amach) : option (ares * demand) :=
  '(l, stk) ← apop a;
  acc ← a_acc a;
  b ← test l acc;
  Some (ANext (aput (a_pc a + 1) (Some (Imm (truth b))) stk a), DNone).
Definition abs_jif_cmp (k : Z) (test : tree → option bool) (a : amach) : option (ares * demand) :=
  '(l, stk) ← apop a;
  b ← test l;
  t ← aword (a_pc a + (if (b : bool) then k else k + 1));
  Some (ATick (aput (a_cbase a + t) (a_acc a) stk a), DNone).
Definition abs_test (op : Z → Z → bool) (dop : double → double → bool) (l acc : tree) : option bool :=
  Some (cmp_test op dop (tree_num l) (tree_num acc)).
Definition abs_push (pc : Z) (t : tree) (a : amach) : option (ares * demand) :=
  Some (ANext (aput pc (a_acc a) (a_stk a ++ [t]) a), DNone).
Definition abs_acc (k : Z) (t : tree) (a : amach) : option (ares * demand) :=
  Some (ANext (aput (a_pc a + k) (Some t) (a_stk a) a), DNone).
Definition acc_test (test : tree → tree → option bool) (a : amach) (l : tree) : option bool :=
  acc ← a_acc a; test l acc.

(** RET k: back to the continuation above the [k] arguments. *)
Definition abs_ret (a : amach) : option (ares * demand) :=
  k ← aword (a_pc a + 1);
  if (a_base a <? 0) then None
  else
    match stk_at (a_stk a) (a_base a + k + 1), stk_at (a_stk a) (a_base a + k + 2), stk_at (a_stk a) (a_base a + k + 3) with
    | Some (Imm ret), Some (Imm base), Some (Imm cbase) =>
        if (Z.of_nat (length (a_stk a)) <? a_base a) then None
        else Some (ATick (mk_amach (val_get_int ret) (val_get_int base) (val_get_int cbase) (a_acc a)
                                   (take (Z.to_nat (a_base a)) (a_stk a))), DNone)
    | _, _, _ => None
    end.

(** The instructions that stay inside the process. *)
Definition abs_exec (op : Z) (a : amach) : option (ares * demand) :=
  let pc := a_pc a in
  if op =? LOP_CONST then i ← aword (pc + 1); t ← stk_at consts i; abs_acc 2 t a
  else if op =? LOP_LOAD then k ← aword (pc + 1); t ← stk_at (a_stk a) (a_base a + k); abs_acc 2 t a
  else if op =? LOP_STORE then
    k ← aword (pc + 1); _ ← stk_at (a_stk a) (a_base a + k); acc ← a_acc a;
    Some (ANext (aput (pc + 2) (Some acc) (<[Z.to_nat (a_base a + k) := acc]> (a_stk a)) a), DNone)
  else if op =? LOP_LOADF then
    k ← aword (pc + 1); c ← stk_at (a_stk a) (a_base a);
    match c with TClos _ ts => t ← stk_at ts k; abs_acc 2 t a | _ => None end
  else if op =? LOP_PUSH then acc ← a_acc a; abs_push (pc + 1) acc a
  else if op =? LOP_LOADP then k ← aword (pc + 1); t ← stk_at (a_stk a) (a_base a + k); abs_push (pc + 2) t a
  else if op =? LOP_CONSTP then i ← aword (pc + 1); t ← stk_at consts i; abs_push (pc + 2) t a
  else if op =? LOP_GLOBP then o ← aword (pc + 1); abs_push (pc + 2) (Imm (global_val o)) a
  else if op =? LOP_RESERVE then
    n ← aword (pc + 1);
    let lo := - (Z.of_nat (length (a_stk a)) + n) in
    if (n <? 0) || (lo <? - 2 ^ 25) then None
    else Some (ANext (aput (pc + 2) None (a_stk a ++ replicate (Z.to_nat n) (Imm val_nil)) a), DFrame lo)
  else if op =? LOP_ADD then abs_binary (pure_op (arith Z.add dadd)) a
  else if op =? LOP_SUB then abs_binary (pure_op (arith Z.sub dsub)) a
  else if op =? LOP_MUL then abs_binary (pure_op (arith Z.mul dmul)) a
  else if op =? LOP_DIV then abs_binary op_div a
  else if op =? LOP_MOD then abs_binary op_mod a
  else if op =? LOP_LT then abs_cmp (abs_test Z.ltb dlt) a
  else if op =? LOP_LE then abs_cmp (abs_test Z.leb dle) a
  else if op =? LOP_GT then abs_cmp (abs_test Z.gtb (λ x y, dlt y x)) a
  else if op =? LOP_GE then abs_cmp (abs_test Z.geb (λ x y, dle y x)) a
  else if op =? LOP_EQ then abs_cmp tree_eq a
  else if op =? LOP_JIF_LT then abs_jif_cmp 1 (acc_test (abs_test Z.ltb dlt) a) a
  else if op =? LOP_JIF_LE then abs_jif_cmp 1 (acc_test (abs_test Z.leb dle) a) a
  else if op =? LOP_JIF_GT then abs_jif_cmp 1 (acc_test (abs_test Z.gtb (λ x y, dlt y x)) a) a
  else if op =? LOP_JIF_GE then abs_jif_cmp 1 (acc_test (abs_test Z.geb (λ x y, dle y x)) a) a
  else if op =? LOP_JIF_EQ then abs_jif_cmp 1 (acc_test tree_eq a) a
  else if op =? LOP_JIF_EQ_I then i ← aword (pc + 1); abs_jif_cmp 2 (λ e, tree_eq e (Imm (val_int i))) a
  else if op =? LOP_CONST_I then i ← aword (pc + 1); abs_acc 2 (Imm (val_int i)) a
  else if op =? LOP_ADD_I then
    '(l, stk) ← apop a; i ← aword (pc + 1); v ← to_opt (arith_i Z.add dadd (tree_num l) i); t ← imm v;
    Some (ANext (aput (pc + 2) (Some t) stk a), DNone)
  else if op =? LOP_SUB_I then
    '(l, stk) ← apop a; i ← aword (pc + 1); v ← to_opt (arith_i Z.sub dsub (tree_num l) i); t ← imm v;
    Some (ANext (aput (pc + 2) (Some t) stk a), DNone)
  else if op =? LOP_PAIRP then acc ← a_acc a; abs_acc 1 (Imm (truth (tree_tag acc =? TAG_PAIR))) a
  else if op =? LOP_SYMP then acc ← a_acc a; abs_acc 1 (Imm (truth (tree_tag acc =? TAG_SYM))) a
  else if op =? LOP_CONS then
    '(l, stk) ← apop a; acc ← a_acc a; Some (ANext (aput (pc + 1) (Some (TPair l acc)) stk a), DHeap SIZEOF_PAIR)
  else if op =? LOP_CAR then
    acc ← a_acc a; match acc with TPair x _ => abs_acc 1 x a | _ => Some (ADie Cartype, DNone) end
  else if op =? LOP_CDR then
    acc ← a_acc a; match acc with TPair _ y => abs_acc 1 y a | _ => Some (ADie Cdrtype, DNone) end
  else if op =? LOP_JIF then
    acc ← a_acc a; if tree_true acc then Some (ATick (aput (pc + 2) (a_acc a) (a_stk a) a), DNone)
    else t ← aword (pc + 1); Some (ATick (aput (a_cbase a + t) (a_acc a) (a_stk a) a), DNone)
  else if op =? LOP_JUMP then
    t ← aword (pc + 1); Some (ATick (aput (a_cbase a + t) (a_acc a) (a_stk a) a), DNone)
  else if op =? LOP_RET then abs_ret a
  else if op =? LOP_MAKE_CLOSURE then
    fnid ← aword (pc + 1); nfree ← aword (pc + 2);
    if nfree =? 0 then abs_acc 3 (Imm (lbox TAG_CLOS_ID fnid)) a
    else
      acc ← a_acc a;
      let stk := a_stk a ++ [acc] in
      if (nfree <? 0) || (Z.of_nat (length stk) <? nfree) || (2 ^ 20 <? nfree) then None
      else
        let k := (length stk - Z.to_nat nfree)%nat in
        Some (ANext (aput (pc + 3) (Some (TClos fnid (drop k stk))) (take k stk) a),
              DHeap (SIZEOF_CLOSURE + nfree * SIZEOF_VAL))
  else if op =? LOP_GLOBAL then o ← aword (pc + 1); abs_acc 2 (Imm (global_val o)) a
  else None.

(** ** Calls *)
Definition afun (t : tree) : option Z :=
  match t with
  | Imm v => if val_tag v =? TAG_CLOS_ID then Some (lpayload v) else None
  | TClos e _ => Some e
  | _ => None
  end.
Definition afield (f : Image → list Z) (fid : Z) : option Z := to_opt (fn_field im f fid).

(** The callee and the stack with the call block on top. *)
Definition abs_block (a : amach) : option (Z * Z * list tree) :=
  n ← aword (a_pc a + 1);
  acc ← a_acc a;
  let stk := a_stk a ++ [acc] in
  if (n <? 1) || (Z.of_nat (length stk) <? n) then None
  else
    f ← stk_at stk (Z.of_nat (length stk) - n);
    fid ← afun f;
    k ← afield fn_args fid;
    if k =? n - 1 then Some (n, fid, stk) else None.

(** The deepest slot of a frame; the compiler counts the function, its
    arguments and the continuation in [fn_maxd]. *)
Definition frame_lo (base fid : Z) : option Z :=
  maxd ← afield fn_maxd fid;
  k ← afield fn_args fid;
  let lo := - (base + maxd + 1) in
  if (0 <? lo) || (lo <? - 2 ^ 25) || (maxd <? k + 4) then None else Some lo.

Definition abs_call (a : amach) : option (amach * demand) :=
  '(n, fid, stk) ← abs_block a;
  let nb := Z.of_nat (length stk) - n in
  lo ← frame_lo nb fid;
  entry ← afield fn_entry fid;
  Some (mk_amach entry nb entry None
          (stk ++ [Imm (val_int (a_pc a + 2)); Imm (val_int (a_base a)); Imm (val_int (a_cbase a))]), DFrame lo).

(** A tail call replaces the frame and keeps its continuation. *)
Definition abs_tcall (a : amach) : option (amach * demand) :=
  '(n, fid, stk) ← abs_block a;
  let b := Z.to_nat (a_base a) in
  if (a_base a <? 0) then None
  else
    c ← a_stk a !! b;
    ok ← match afun c with
         | Some f => afield fn_args f
         | None => match c with Imm _ => Some 0 | _ => None end
         end;
    if (ok <? 0) || (Z.of_nat (length stk) - n <? a_base a) then None
    else
      match stk_at (a_stk a) (a_base a + ok + 1), stk_at (a_stk a) (a_base a + ok + 2), stk_at (a_stk a) (a_base a + ok + 3) with
      | Some (Imm ret), Some (Imm base), Some (Imm cbase) =>
          if bool_decide (is_Some (afun c)) && negb (val_is_int ret && val_is_int base && val_is_int cbase) then None
          else
          lo ← frame_lo (a_base a) fid;
          entry ← afield fn_entry fid;
          Some (mk_amach entry (a_base a) entry None
                  (take b stk ++ drop (length stk - Z.to_nat n) stk ++
                   [Imm (val_int (val_get_int ret)); Imm (val_int (val_get_int base)); Imm (val_int (val_get_int cbase))]),
                DFrame lo)
      | _, _, _ => None
      end.
End Abs.

(** * Simulation *)
Definition nth_tree (stk : list tree) (i : Z) : tree := default (Imm 0) (stk !! Z.to_nat i).

Section Sim.
Context (cap stress : Z) (K : Z → Prop) (im : Image) (consts : list tree).

(** The memory seen at the interpreter's own depth denotes the abstract
    stack, and the accumulator its tree. *)
Record sim (st : store) (m : ProcMem) (objs : list obj) (r : regs) (a : amach) : Prop := {
  sm_actor : actor_ok cap K st (set_sp (- r_dep r) m) objs (nth_tree (a_stk a));
  sm_fits : fits (set_sp (- r_dep r) m);
  sm_dep : r_dep r = Z.of_nat (length (a_stk a));
  sm_acc : ∀ t, a_acc a = Some t → repr (arena_addr K m objs) st (r_acc r) t;
  sm_pc : r_pc r = a_pc a;
  sm_base : r_base r = a_base a;
  sm_cbase : r_cbase r = a_cbase a;
  sm_gate : gc_gate m = 0;
  sm_ccall : ccall m = None;
  sm_floor : - 2 ^ 25 ≤ stack_floor m;
  sm_consts : Forall2 (repr K st) (g_consts im) consts
}.

(** ** Changing the stack *)

(** Another stack over the same heap. *)
Lemma actor_restack st p q objs T T' :
  actor_ok cap K st p objs T →
  pid q = pid p → mem q = mem p → mem_size q = mem_size p → heap_ptr q = heap_ptr p →
  gc_to q = gc_to p → gc_to_cap q = gc_to_cap p → ccall q = ccall p →
  sp q ≤ 0 → stack_floor q ≤ 0 → heap_ptr q ≤ mem_size q + sp q * 8 →
  (∀ i, 0 ≤ i < - sp q → ∃ v, slots q !! i = Some v ∧ repr (arena_addr K p objs) st v (T' i)) →
  actor_ok cap K st q objs T'.
Proof.
  intros A E1 E2 E3 E4 E5 E6 E7 H1 H2 H3 Hs. pose proof (ac_arena _ _ _ _ _ _ A) as A0.
  assert (Hf : ∀ a, foreign st p a ↔ foreign st q a) by (intros a; unfold foreign; by rewrite E2, E3, E5, E6).
  assert (Hc : ∀ a, gc_copyable q a = gc_copyable p a)
    by (intros a; unfold gc_copyable, in_fromspace, val_in_chunk; by rewrite E2, E4, E7).
  assert (Hv : ∀ ts v, arena_val st p ts v → arena_val st q ts v).
  { intros ts v [Hv Hr]. split; [done|]. intros Ht. rewrite Hc, <- Hf. by apply Hr. }
  assert (Hp : ∀ a, promoted q a = promoted p a) by (intros a; unfold promoted, val_in_chunk; by rewrite E7).
  split.
  - split; rewrite ?E1, ?E2, ?E3, ?E4; try by apply A0.
    + destruct (a_blocks _ _ _ _ _ A0). split; by rewrite ?E2, ?E3, ?E5, ?E6.
    + intros a o v Hin Hch. eapply Hv, (a_fields _ _ _ _ _ A0); eauto.
    + intros i Hi. destruct (Hs i Hi) as (v&Hi'&Hr). exists v. split; [done|]. apply Hv. by eapply repr_arena_val.
    + done.
    + by rewrite <- E3, <- E4.
    + split; [constructor|]. by intros ? ? ?%elem_of_nil.
    + intros a Ha. apply Hf, (a_promote _ _ _ _ _ A0). by rewrite <- Hp.
  - intros a Ha. destruct (ac_consts _ _ _ _ _ _ A a Ha) as [Hfa Hl]. split; [by apply Hf|done].
  - intros a. rewrite Hp. apply A.
  - intros i Hi. destruct (Hs i Hi) as (v&Hi'&Hr). exists v. split; [done|]. unfold arena_addr in *. by rewrite E2.
Qed.

Lemma nth_tree_at stk i t : stk_at stk i = Some t → 0 ≤ i < Z.of_nat (length stk) ∧ nth_tree stk i = t.
Proof.
  unfold stk_at, nth_tree. destruct (Z.ltb_spec i 0); [done|]. intros Hi. rewrite Hi.
  apply lookup_lt_Some in Hi. split; [lia|done].
Qed.

(** The slots the abstract stack describes. *)
Lemma sim_slot st m objs r a i t :
  sim st m objs r a → stk_at (a_stk a) i = Some t →
  ∃ v, read_slot m i = Ret v ∧ repr (arena_addr K m objs) st v t.
Proof.
  intros S Hi. apply nth_tree_at in Hi as [Hi <-].
  destruct (ac_stack _ _ _ _ _ _ (sm_actor _ _ _ _ _ S) i) as (v&Hv&Hr); [simpl; rewrite (sm_dep _ _ _ _ _ S); lia|].
  exists v. simpl in Hv. unfold read_slot. by rewrite Hv.
Qed.
Lemma sim_sp st m objs r a x : sim st m objs r a → sim st (set_sp x m) objs r a.
Proof. intros [H1 H2 H3 H4 H5 H6 H7 H8 H9 H10 H11]. by split. Qed.

Lemma slots_eta (m : ProcMem) : set_slots (slots m) m = m.
Proof. by destruct m. Qed.

Lemma sim_heap st m objs r a : sim st m objs r a → 0 < mem m ∧ 0 ≤ heap_ptr m ∧ 0 < mem_size m ≤ cap ∧ cap ≤ 2 ^ 30.
Proof.
  intros S. destruct (actor_size _ _ _ _ _ _ (sm_actor _ _ _ _ _ S)) as (?&?&?).
  pose proof (heap_in_block _ _ _ _ _ (ac_arena _ _ _ _ _ _ (sm_actor _ _ _ _ _ S))). simpl in *. lia.
Qed.

(** The heap stays clear of everything down to the floor and to the depth. *)
Lemma sim_clear st m objs r a d :
  sim st m objs r a → d ≤ r_dep r ∨ d ≤ - stack_floor m → heap_ptr m ≤ mem_size m - 8 * d.
Proof.
  intros S Hd. pose proof (sm_fits _ _ _ _ _ S) as F. apply fits_floor in F. simpl in F. lia.
Qed.

(** Another stack, accumulator and program counter over the same heap. *)
Lemma sim_restack st m objs r a s r' a' :
  sim st m objs r a → r_dep r' = Z.of_nat (length (a_stk a')) → r_dep r' ≤ r_dep r ∨ r_dep r' ≤ - stack_floor m →
  (∀ i, 0 ≤ i < r_dep r' → ∃ v, s !! i = Some v ∧ repr (arena_addr K m objs) st v (nth_tree (a_stk a') i)) →
  (∀ t, a_acc a' = Some t → repr (arena_addr K m objs) st (r_acc r') t) →
  r_pc r' = a_pc a' → r_base r' = a_base a' → r_cbase r' = a_cbase a' →
  sim st (set_slots s m) objs r' a'.
Proof.
  intros S Hd Hle Hs Hacc E1 E2 E3. pose proof (sim_clear _ _ _ _ _ _ S Hle) as Hcl.
  pose proof (a_sp _ _ _ _ _ (ac_arena _ _ _ _ _ _ (sm_actor _ _ _ _ _ S))) as [_ Hfl]. simpl in Hfl.
  pose proof (sm_fits _ _ _ _ _ S) as F. split; try done; try apply S.
  - eapply actor_restack; [apply S|done..|simpl; lia|done|simpl; lia|].
    intros i Hi. apply Hs. simpl in Hi. lia.
  - apply fits_floor in F. unfold fits, proc_stack_lo. simpl in *.
    destruct (Z.ltb_spec (- r_dep r') (stack_floor m)); lia.
Qed.

(** The special case where no slot is written. *)
Lemma sim_same st m objs r a r' a' :
  sim st m objs r a → a_stk a' = take (length (a_stk a')) (a_stk a) →
  r_dep r' = Z.of_nat (length (a_stk a')) →
  (∀ t, a_acc a' = Some t → repr (arena_addr K m objs) st (r_acc r') t) →
  r_pc r' = a_pc a' → r_base r' = a_base a' → r_cbase r' = a_cbase a' → sim st m objs r' a'.
Proof.
  intros S Hstk Hd Hacc E1 E2 E3. rewrite <- (slots_eta m).
  assert (Hlen : (length (a_stk a') ≤ length (a_stk a))%nat).
  { rewrite Hstk at 1. rewrite length_take. lia. }
  pose proof (sm_dep _ _ _ _ _ S) as Hdep.
  eapply sim_restack; try done; [lia|]. intros i Hi.
  destruct (ac_stack _ _ _ _ _ _ (sm_actor _ _ _ _ _ S) i) as (v&Hv&Hr); [simpl; lia|].
  exists v. split; [done|]. replace (nth_tree (a_stk a') i) with (nth_tree (a_stk a) i); [done|].
  unfold nth_tree. rewrite Hstk, lookup_take. case_decide; [done|lia].
Qed.

(** Pushing into the reserved frame. *)
Lemma push_room st m objs r a v :
  sim st m objs r a → r_dep r + 1 ≤ - stack_floor m →
  sp_room cap (r_dep r) st m = Ret (st, m) ∧ write_slot m (r_dep r) v = Ret (set_slots (<[r_dep r := v]> (slots m)) m).
Proof.
  intros S Hfl. pose proof (sim_clear _ _ _ _ _ (r_dep r + 1) S ltac:(by right)) as Hc.
  destruct (sim_heap _ _ _ _ _ S) as (_&Hh&_). pose proof (sm_dep _ _ _ _ _ S). split.
  - unfold sp_room. destruct (Z.ltb_spec (mem_size m - 8 * (r_dep r + 1)) (heap_ptr m)); [lia|done].
  - unfold write_slot, slot_in_block.
    destruct (Z.leb_spec 0 (r_dep r)); [|lia]. destruct (Z.leb_spec 0 (mem_size m - 8 * (r_dep r + 1))); [done|lia].
Qed.

Lemma push_val_ok st m objs r a v :
  sim st m objs r a → r_dep r + 1 ≤ - stack_floor m →
  push_val cap (r_dep r) v st m = Ret (st, set_slots (<[r_dep r := v]> (slots m)) m).
Proof. intros S Hfl. destruct (push_room _ _ _ _ _ v S Hfl) as [E1 E2]. unfold push_val. rewrite E1. simpl. by rewrite E2. Qed.

Lemma nth_tree_snoc stk t i :
  0 ≤ i < Z.of_nat (length stk) + 1 →
  nth_tree (stk ++ [t]) i = if decide (i = Z.of_nat (length stk)) then t else nth_tree stk i.
Proof.
  intros Hi. unfold nth_tree. destruct (decide (i = Z.of_nat (length stk))) as [->|Hne].
  - by rewrite Nat2Z.id, lookup_app_r, Nat.sub_diag by lia.
  - by rewrite lookup_app_l by lia.
Qed.

Lemma sim_push st m objs r a v t pc acc' ta :
  sim st m objs r a → r_dep r + 1 ≤ - stack_floor m → repr (arena_addr K m objs) st v t →
  (∀ t', ta = Some t' → repr (arena_addr K m objs) st acc' t') →
  sim st (set_slots (<[r_dep r := v]> (slots m)) m) objs
    (mk_regs pc (r_base r) (r_cbase r) acc' (r_dep r + 1)) (mk_amach pc (a_base a) (a_cbase a) ta (a_stk a ++ [t])).
Proof.
  intros S Hfl Hv Hacc. pose proof (sm_dep _ _ _ _ _ S) as Hd.
  eapply sim_restack; simpl; try done; try apply S.
  - rewrite length_app. simpl. lia.
  - by right.
  - intros i Hi. rewrite nth_tree_snoc by lia. rewrite <- Hd. destruct (decide (i = r_dep r)) as [->|Hne].
    + exists v. by rewrite lookup_insert_eq.
    + destruct (ac_stack _ _ _ _ _ _ (sm_actor _ _ _ _ _ S) i) as (w&Hw&Hr); [simpl; lia|].
      exists w. by rewrite lookup_insert_ne.
Qed.

(** ** Reading values *)
Lemma sim_const st m objs r a i t :
  sim st m objs r a → stk_at consts i = Some t →
  ∃ v, const_at im i = Ret v ∧ repr (arena_addr K m objs) st v t.
Proof.
  intros S Hi. unfold stk_at, const_at in *. destruct (Z.ltb_spec i 0); [done|].
  destruct (Forall2_lookup_r _ _ _ _ _ (sm_consts _ _ _ _ _ S) Hi) as (v&Hv&Hr). exists v. rewrite Hv.
  split; [done|]. eapply repr_mono; [|exact Hr]. intros x Hx. split; [by right|done].
Qed.

Lemma repr_tag F st v t : repr F st v t → val_tag v = tree_tag t.
Proof. destruct t; [by intros (->&_)|..]; [intros (?&?&H&_)|intros (?&H&_)|intros H..]; apply H. Qed.

(** Numeric operators only look at ints and floats. *)
Definition same_num (v w : Val) : Prop := v = w ∨ (is_heap_tag (val_tag v) = true ∧ w = val_nil).

Lemma repr_num F st v t : repr F st v t → same_num v (tree_num t).
Proof.
  intros Hr. pose proof (repr_tag _ _ _ _ Hr) as Ht. destruct t; [left; by destruct Hr|..]; right; rewrite Ht; done.
Qed.

Lemma same_num_view v w : same_num v w →
  val_is_int v = val_is_int w ∧ val_is_float v = val_is_float w ∧ val_to_double v = val_to_double w ∧
  (val_is_int v = true → val_get_int v = val_get_int w).
Proof.
  intros [->|[H ->]]; [done|]. destruct (heap_tag_not_num v H) as [E1 E2]. unfold val_to_double. rewrite E1, E2. done.
Qed.

Lemma arith_num op dop l acc l' acc' : same_num l l' → same_num acc acc' → arith op dop l acc = arith op dop l' acc'.
Proof.
  intros (A1&A2&A3&A4)%same_num_view (B1&B2&B3&B4)%same_num_view. unfold arith. rewrite <- A1, <- B1, A3, B3.
  destruct (val_is_int l), (val_is_int acc); cbn [andb]; try done. by rewrite A4, B4.
Qed.
Lemma arith_i_num op dop l l' i : same_num l l' → arith_i op dop l i = arith_i op dop l' i.
Proof.
  intros (A1&A2&A3&A4)%same_num_view. unfold arith_i. rewrite <- A1, A3. destruct (val_is_int l); [by rewrite A4|done].
Qed.
Lemma div_num l acc l' acc' : same_num l l' → same_num acc acc' → op_div l acc = op_div l' acc'.
Proof.
  intros (A1&A2&A3&A4)%same_num_view (B1&B2&B3&B4)%same_num_view. unfold op_div. rewrite <- A1, <- B1, A3, B3.
  destruct (val_is_int l), (val_is_int acc); cbn [andb]; try done. by rewrite A4, B4.
Qed.
Lemma mod_num l acc l' acc' : same_num l l' → same_num acc acc' → op_mod l acc = op_mod l' acc'.
Proof.
  intros (A1&A2&A3&A4)%same_num_view (B1&B2&B3&B4)%same_num_view. unfold op_mod. rewrite <- A1, <- B1.
  destruct (val_is_int l), (val_is_int acc); cbn [negb orb]; try done. by rewrite A4, B4.
Qed.
Lemma cmp_num op dop l acc l' acc' : same_num l l' → same_num acc acc' → cmp_test op dop l acc = cmp_test op dop l' acc'.
Proof.
  intros (A1&A2&A3&A4)%same_num_view (B1&B2&B3&B4)%same_num_view. unfold cmp_test, cmp_numeric_path.
  rewrite <- A1, <- B1, <- A2, <- B2, A3, B3. destruct (_ || _); [done|].
  destruct (val_is_int l), (val_is_int acc); cbn [andb]; try done. by rewrite A4, B4.
Qed.

Lemma eq_test_tree F st v w t u b :
  repr F st v t → repr F st w u → tree_eq t u = Some b → eq_test st v w = Ret b.
Proof.
  intros Hv Hw E. unfold eq_test.
  assert (Hdiff : tree_tag t ≠ tree_tag u → cmp_numeric_path v w = false → eq_test st v w = Ret false).
  { intros Hne Hc. unfold eq_test, val_equal. rewrite Hc. unfold val_is_string.
    rewrite (repr_tag _ _ _ _ Hv), (repr_tag _ _ _ _ Hw).
    destruct (Z.eqb_spec (tree_tag t) TAG_STRING), (Z.eqb_spec (tree_tag u) TAG_STRING); cbn [andb]; try congruence;
      f_equal; apply Z.eqb_neq; intros ->; apply Hne; by rewrite <- (repr_tag _ _ _ _ Hv), <- (repr_tag _ _ _ _ Hw). }
  assert (Hnum : (∀ x, t = Imm x → is_heap_tag (tree_tag u) = true) → (∀ x, u ≠ Imm x) ∨ (∀ x, t ≠ Imm x) → cmp_numeric_path v w = false).
  { intros _ Hor. unfold cmp_numeric_path.
    assert (val_is_int v = false ∧ val_is_float v = false ∨ val_is_int w = false ∧ val_is_float w = false) as [[-> ->]|[-> ->]].
    - destruct Hor as [Hu|Ht]; [right|left]; apply heap_tag_not_num.
      + rewrite (repr_tag _ _ _ _ Hw). destruct u; try done. by destruct (Hu v0).
      + rewrite (repr_tag _ _ _ _ Hv). destruct t; try done. by destruct (Ht v0).
    - by destruct (val_is_float w).
    - by destruct (val_is_float v). }
  fold (eq_test st v w).
  assert (Hgen : (∀ x, u ≠ Imm x) ∨ (∀ x, t ≠ Imm x) → (if tree_tag t =? tree_tag u then None else Some false) = Some b →
    eq_test st v w = Ret b).
  { intros Hor Eb. destruct (Z.eqb_spec (tree_tag t) (tree_tag u)); [done|]. injection Eb as <-.
    apply Hdiff; [done|]. apply Hnum; [|done]. intros x ->. destruct Hor as [Hu|Ht]; [|by destruct (Ht x)].
    destruct u; try done. by destruct (Hu v0). }
  destruct t as [x|t1 t2|e ts|d|d|ow oc], u as [y|u1 u2|e' us|d'|d'|ow' oc'];
    try (apply Hgen; [first [left; intros ? [=]; fail|right; intros ? [=]; fail]|exact E]).
  - change (Some (if cmp_numeric_path x y then deq (val_to_double x) (val_to_double y) else x =? y) = Some b) in E.
    apply (inj Some) in E as <-. destruct Hv as (->&_&Hx), Hw as (->&_&Hy). unfold eq_test, val_equal.
    destruct (cmp_numeric_path x y); [done|].
    assert (val_is_string x = false) as ->; [|done].
    unfold val_is_string. unfold is_heap_tag in Hx. rewrite !orb_false_iff in Hx. tauto.
  - change (Some ((length d =? length d')%nat && bool_decide (d = d')) = Some b) in E.
    apply (inj Some) in E as <-. unfold eq_test. rewrite Hnum; [|done|by left]. unfold val_equal, val_is_string.
    destruct Hv as (_&->&_&Cv), Hw as (_&->&_&Cw). cbn [obj_tag]. rewrite Z.eqb_refl. cbn [andb].
    unfold read_string. rewrite Cv, Cw. done.
Qed.

(** ** Allocation *)
Lemma consts_kept st p st' p' vs ts :
  (∀ a, K a → foreign st p a) → outside_kept st p st' p' → Forall2 (repr K st) vs ts → Forall2 (repr K st') vs ts.
Proof.
  intros HK Ho. intros Hf. eapply Forall2_impl; [exact Hf|]. intros v t. apply repr_mono. intros a Ha. split; [done|]. by apply Ho, HK.
Qed.

Lemma sim_foreign st m objs r a x : sim st m objs r a → K x → foreign st m x.
Proof. intros S Hx. by destruct (ac_consts _ _ _ _ _ _ (sm_actor _ _ _ _ _ S) x Hx). Qed.

(** Room for an object: the stack denotes the same trees, though everything may
    have moved; the accumulator is not a root and is lost. *)
Lemma alloc_sim st m objs r a size :
  sim st m objs r a → 0 ≤ size ≤ 2 ^ 28 → brk st + 2 * cap + 16 < ADDR_LIMIT →
  let p := set_sp (- r_dep r) m in
  let n := ta_heap_object_size size in
  (proc_heap_alloc cap stress st p size = Abort FATAL_ALLOC ∧
     cap < heap_ptr m + n + TA_STACK_HEADROOM + - proc_stack_lo p * 8) ∨
  ∃ st1 p1 objs1,
    proc_heap_alloc cap stress st p size =
      Ret (mem p1 + heap_ptr p1, zero_cell st1 (mem p1 + heap_ptr p1), set_heap_ptr (heap_ptr p1 + n) p1) ∧
    sim st1 p1 objs1 r (aput (a_pc a) None (a_stk a) a) ∧
    sp p1 = - r_dep r ∧ stack_floor p1 = stack_floor m ∧
    heap_ptr p1 + n + TA_HEAP_FIT_SLACK ≤ mem_size p1 + proc_stack_lo p1 * 8.
Proof.
  intros S Hsz Hb p n.
  destruct (proc_heap_alloc_spec cap stress K (nth_tree (a_stk a)) st p objs size) as [[E [Hg|Hc]]|(st1&p1&objs1&A1&C1&F1&_&O1&E)].
  - apply S.
  - apply S.
  - apply S.
  - done.
  - done.
  - exfalso. apply Hg. apply S.
  - left. split; [done|]. exact Hc.
  - right. exists st1, p1, objs1. destruct C1 as (C1&C2&C3&C4&C5). simpl in *.
    assert (Hp1 : set_sp (- r_dep r) p1 = p1) by (rewrite <- C1; by destruct p1).
    pose proof (ta_heap_object_size_spec size) as Hn. fold n in Hn. unfold TA_HEAP_FIT_SLACK in *.
    split; [done|]. split; [|done]. split; cbn [r_dep with_acc r_acc r_pc r_base r_cbase a_acc a_stk a_pc a_base a_cbase aput]; try apply S.
    + rewrite Hp1. exact A1.
    + rewrite Hp1. unfold fits. lia.
    + done.
    + rewrite C4. apply S.
    + rewrite C5. apply S.
    + rewrite C2. apply S.
    + eapply consts_kept; [|exact O1|apply S]. intros x Hx. exact (sim_foreign _ _ _ _ _ x S Hx).
Qed.

(** Filling it. *)
Lemma extend_sim st p objs r a o :
  let x := mem p + heap_ptr p in
  let st' := write_cell (zero_cell st x) x (Live o) in
  let p' := set_heap_ptr (heap_ptr p + obj_size o) p in
  sim st p objs r a → sp p = - r_dep r → (∀ w c, o ≠ HeapResource w c) →
  heap_ptr p + obj_size o + TA_HEAP_FIT_SLACK ≤ mem_size p + proc_stack_lo p * 8 →
  (∀ v, v ∈ obj_children o → ∃ t, repr (arena_addr K p objs) st v t) →
  (∀ v t, repr (arena_addr K p objs) st v t → repr (arena_addr K p' (objs ++ [o])) st' v t) ∧
  points_to (arena_addr K p' (objs ++ [o])) st' (lbox (obj_tag o) x) o ∧
  sim st' p' (objs ++ [o]) r (aput (a_pc a) None (a_stk a) a).
Proof.
  intros x st' p' S Hsp Ho Hfit Hch. unfold st'. rewrite zero_write. clear st'. set (st' := write_cell st x (Live o)).
  assert (Hp : set_sp (- r_dep r) p = p) by (rewrite <- Hsp; by destruct p).
  pose proof (sm_actor _ _ _ _ _ S) as A. rewrite Hp in A. pose proof (ac_arena _ _ _ _ _ _ A) as A0.
  pose proof (proc_stack_lo_le p) as Hlo. pose proof (obj_size_pos o) as Hpos. unfold TA_HEAP_FIT_SLACK in *.
  assert (Hf : heap_ptr p + obj_size o ≤ mem_size p + sp p * 8) by lia.
  assert (HK : ∀ y, K y → foreign st p y) by (intros y Hy; by apply (ac_consts _ _ _ _ _ _ A)).
  assert (Hrep : ∀ v t, repr (arena_addr K p objs) st v t → repr (arena_addr K p' (objs ++ [o])) st' v t).
  { intros v t. by apply (extend_repr cap). }
  assert (Hcell : ∀ y, K y → cells st' !! y = cells st !! y).
  { intros y Hy. apply (extend_frame cap st p objs o A0 Hf). right. auto. }
  split; [done|]. split; [apply (extend_points_to cap); done|].
  assert (A' : actor_ok cap K st' p' (objs ++ [o]) (nth_tree (a_stk a))).
  { split.
    - apply arena_extend; try done; [apply A|by intros c ->; destruct (Ho (pid p) c)|].
      intros v Hv. destruct (Hch v Hv) as [t Ht]. by eapply repr_arena_val.
    - intros y Hy. split; [apply HK in Hy; exact Hy|]. rewrite Hcell by done. by apply (ac_consts _ _ _ _ _ _ A).
    - apply A.
    - intros i Hi. destruct (ac_stack _ _ _ _ _ _ A i Hi) as (v&Hv&Hr). exists v. auto. }
  split; cbn [r_dep with_acc r_acc r_pc r_base r_cbase a_acc a_stk a_pc a_base a_cbase aput]; try apply S.
  - replace (set_sp (- r_dep r) p') with p'; [done|]. unfold p'. rewrite <- Hsp. by destruct p.
  - unfold fits, p'. change (heap_ptr p + obj_size o ≤ mem_size p + proc_stack_lo (set_sp (- r_dep r) p) * 8).
    rewrite Hp. lia.
  - done.
  - pose proof (sm_consts _ _ _ _ _ S) as Hc. eapply Forall2_impl; [exact Hc|]. intros v t. apply repr_mono.
    intros y Hy. split; [done|]. by apply Hcell.
Qed.

(** * Refinement of the instructions *)
Definition exceeds (m : ProcMem) (d : demand) : Prop :=
  match d with
  | DNone => False
  | DHeap b => cap < heap_ptr m + ta_heap_object_size b + TA_STACK_HEADROOM + - stack_floor m * 8
  | DFrame lo => cap < heap_ptr m + (1 - lo) * 8 + - Z.min lo (stack_floor m) * 8
  end.
(** The reserved depth never shrinks, and covers the frame asked for. *)
Definition floor_after (d : demand) (m m' : ProcMem) : Prop :=
  stack_floor m' = match d with DFrame lo => Z.min lo (stack_floor m) | _ => stack_floor m end.

Definition lres_of (x : ares) (r : regs) (st : store) (m : ProcMem) : lres :=
  match x with ANext _ => LNext r st m | ATick _ => LTick r st m | ADie why => LDie why r st m end.

(** The instruction does what the tree machine does, or stops the VM because
    its demand does not fit under the cap. *)
Definition refines (st : store) (m : ProcMem) (o : outcome lres) (x : ares) (d : demand) : Prop :=
  (∃ msg, o = Abort msg ∧ exceeds m d) ∨
  ∃ r' st' m', o = Ret (lres_of x r' st' m') ∧ floor_after d m m' ∧
    match x with
    | ANext a' | ATick a' => ∃ objs', sim st' m' objs' r' a'
    | ADie _ => st' = st ∧ m' = m
    end.

Lemma refines_next st m o r' st' m' objs' a' d :
  o = Ret (LNext r' st' m') → floor_after d m m' → sim st' m' objs' r' a' → refines st m o (ANext a') d.
Proof. intros -> Hf S. right. exists r', st', m'. eauto. Qed.
Lemma refines_tick st m o r' st' m' objs' a' d :
  o = Ret (LTick r' st' m') → floor_after d m m' → sim st' m' objs' r' a' → refines st m o (ATick a') d.
Proof. intros -> Hf S. right. exists r', st', m'. eauto. Qed.
Lemma refines_die st m why r' d : floor_after d m m → refines st m (Ret (LDie why r' st m)) (ADie why) d.
Proof. intros Hf. right. exists r', st, m. eauto. Qed.

Lemma imm_repr v t F st : imm v = Some t → repr F st v t.
Proof.
  unfold imm. destruct (_ && _) eqn:E; [|done]. intros [= <-].
  rewrite !andb_true_iff, Z.leb_le, Z.ltb_lt, negb_true_iff in E. split; [done|]. tauto.
Qed.
Lemma lbox_repr tag x F st : is_heap_tag (u16 tag) = false → repr F st (lbox tag x) (Imm (lbox tag x)).
Proof. intros Ht. split; [done|]. split; [apply lbox_range|]. by rewrite lbox_tag. Qed.
Lemma val_int_repr i F st : repr F st (val_int i) (Imm (val_int i)).
Proof. rewrite val_int_lbox. by apply lbox_repr. Qed.
Lemma truth_repr b F st : repr F st (truth b) (Imm (truth b)).
Proof. destruct b; by apply lbox_repr. Qed.
Lemma global_repr o F st : repr F st (global_val o) (Imm (global_val o)).
Proof. unfold global_val. destruct (_ <? _); by apply lbox_repr. Qed.

Lemma to_opt_Some {A} (o : outcome A) x : to_opt o = Some x → o = Ret x.
Proof. by destruct o; simpl; intros; simplify_eq. Qed.

(** ** Popping *)
Lemma apop_Some a l stk :
  apop a = Some (l, stk) →
  a_stk a = stk ++ [l] ∧ length (a_stk a) = S (length stk) ∧ stk = take (length stk) (a_stk a).
Proof.
  unfold apop. destruct (last (a_stk a)) as [x|] eqn:E; [|done]. apply last_Some in E as [s Es].
  simpl. intros [= -> <-]. rewrite Es, length_app, Nat.add_sub. simpl. rewrite take_app_length.
  split; [done|]. split; [lia|]. by rewrite take_app_length.
Qed.

Lemma pop_sim st m objs r a l stk :
  sim st m objs r a → apop a = Some (l, stk) →
  ∃ v, pop_val r m = Ret (v, with_dep (r_dep r - 1) r) ∧ repr (arena_addr K m objs) st v l ∧
    sim st m objs (with_dep (r_dep r - 1) r) (aput (a_pc a) (a_acc a) stk a).
Proof.
  intros S (Es&El&Et)%apop_Some. pose proof (sm_dep _ _ _ _ _ S) as Hd.
  destruct (sim_slot _ _ _ _ _ (r_dep r - 1) l S) as (v&Hv&Hr).
  { unfold stk_at. destruct (Z.ltb_spec (r_dep r - 1) 0); [lia|].
    rewrite Es, lookup_app_r by lia. by replace (_ - _)%nat with O by lia. }
  exists v. unfold pop_val. rewrite Hv. split; [done|]. split; [done|].
  eapply sim_same; [exact S|exact Et|simpl; lia|apply S..].
Qed.

(** ** Families of instructions *)
Lemma acc_refines st m objs r a v t k :
  sim st m objs r a → repr (arena_addr K m objs) st v t →
  refines st m (Ret (LNext (advance k (with_acc v r)) st m)) (ANext (aput (a_pc a + k) (Some t) (a_stk a) a)) DNone.
Proof.
  intros S Hv. eapply refines_next; [done|done|]. eapply sim_same; [exact S|by rewrite firstn_all|apply S| | |apply S..].
  - by intros ? [= <-].
  - simpl. by rewrite (sm_pc _ _ _ _ _ S).
Qed.

Lemma push_refines st m objs r a v t k :
  sim st m objs r a → r_dep r + 1 ≤ - stack_floor m → repr (arena_addr K m objs) st v t →
  refines st m (Ret (LNext (advance k (with_dep (r_dep r + 1) r)) st (set_slots (<[r_dep r := v]> (slots m)) m)))
    (ANext (aput (a_pc a + k) (a_acc a) (a_stk a ++ [t]) a)) DNone.
Proof.
  intros S Hfl Hv. eapply refines_next; [done|done|]. unfold advance, with_dep, jump. cbn [r_pc r_base r_cbase r_acc r_dep].
  rewrite (sm_pc _ _ _ _ _ S). eapply sim_push; [done..|apply S].
Qed.

Lemma tick_refines st m objs r a t t' :
  sim st m objs r a → t = t' →
  refines st m (Ret (LTick (jump r t) st m)) (ATick (aput t' (a_acc a) (a_stk a) a)) DNone.
Proof.
  intros S ->. eapply refines_tick; [done|done|]. eapply sim_same; [exact S|by rewrite firstn_all|apply S| |done|apply S..]. apply S.
Qed.

Lemma binary_refines f st m objs r a x d :
  (∀ l acc l' acc', same_num l l' → same_num acc acc' → f l acc = f l' acc') →
  sim st m objs r a → abs_binary f a = Some (x, d) → refines st m (exec_binary f r st m) x d.
Proof.
  intros Hf S. unfold abs_binary, exec_binary. destruct (apop a) as [[l stk]|] eqn:Ep; [|done].
  destruct (pop_sim _ _ _ _ _ _ _ S Ep) as (v&->&Hv&S1). cbn [mbind option_bind outcome_bind].
  destruct (a_acc a) as [acc|] eqn:Ea; [|done]. cbn [mbind option_bind].
  pose proof (sm_acc _ _ _ _ _ S _ Ea) as Hacc. change (r_acc (with_dep (r_dep r - 1) r)) with (r_acc r).
  rewrite (Hf _ _ _ _ (repr_num _ _ _ _ Hv) (repr_num _ _ _ _ Hacc)).
  destruct (f (tree_num l) (tree_num acc)) as [y| | |]; try done. cbn [to_opt mbind option_bind outcome_bind].
  destruct y as [w|why]; [|intros [= <- <-]; by apply refines_die].
  destruct (imm w) as [t|] eqn:Ei; [|done]. cbn [mbind option_bind]. intros [= <- <-].
  eapply (acc_refines _ _ _ _ _ _ _ 1 S1). by apply imm_repr.
Qed.

(** A test on values computes a test on trees. *)
Definition tests (st : store) (F : Z → Prop) (c : Val → outcome bool) (t : tree → option bool) : Prop :=
  ∀ v l b, repr F st v l → t l = Some b → c v = Ret b.

Lemma num_tests op dop st F acc ta :
  repr F st acc ta → tests st F (λ l, num_test op dop l acc) (λ l, abs_test op dop l ta).
Proof.
  intros Ha v l b Hv [= <-]. unfold num_test. f_equal. apply cmp_num; by eapply repr_num.
Qed.
Lemma eq_tests st F acc ta : repr F st acc ta → tests st F (λ e, eq_test st e acc) (λ e, tree_eq e ta).
Proof. intros Ha v l b Hv. by eapply eq_test_tree. Qed.

Lemma cmp_refines ct t st m objs r a x d :
  sim st m objs r a →
  (∀ ta, repr (arena_addr K m objs) st (r_acc r) ta → tests st (arena_addr K m objs) (λ l, ct l (r_acc r)) (λ l, t l ta)) →
  abs_cmp t a = Some (x, d) → refines st m (exec_cmp ct r st m) x d.
Proof.
  intros S Ht. unfold abs_cmp, exec_cmp. destruct (apop a) as [[l stk]|] eqn:Ep; [|done].
  destruct (pop_sim _ _ _ _ _ _ _ S Ep) as (v&->&Hv&S1). cbn [mbind option_bind outcome_bind].
  destruct (a_acc a) as [acc|] eqn:Ea; [|done]. cbn [mbind option_bind].
  change (r_acc (with_dep (r_dep r - 1) r)) with (r_acc r).
  destruct (t l acc) as [b|] eqn:Eb; [|done]. cbn [mbind option_bind].
  rewrite (Ht acc (sm_acc _ _ _ _ _ S _ Ea) v l b Hv Eb). cbn [mbind outcome_bind]. intros [= <- <-].
  eapply (acc_refines _ _ _ _ _ _ _ 1 S1). apply truth_repr.
Qed.

Lemma jif_refines k ct t st m objs r a x d :
  sim st m objs r a → tests st (arena_addr K m objs) ct t →
  abs_jif_cmp im k t a = Some (x, d) → refines st m (exec_jif_cmp im k ct r st m) x d.
Proof.
  intros S Ht. unfold abs_jif_cmp, exec_jif_cmp. destruct (apop a) as [[l stk]|] eqn:Ep; [|done].
  destruct (pop_sim _ _ _ _ _ _ _ S Ep) as (v&->&Hv&S1). cbn [mbind option_bind outcome_bind].
  destruct (t l) as [b|] eqn:Eb; [|done]. cbn [mbind option_bind]. rewrite (Ht v l b Hv Eb). cbn [mbind outcome_bind].
  change (r_pc (with_dep (r_dep r - 1) r)) with (r_pc r). rewrite (sm_pc _ _ _ _ _ S). unfold aword.
  destruct (word im (a_pc a + (if b then k else k + 1))) as [w| | |]; try done. cbn [to_opt mbind option_bind outcome_bind].
  intros [= <- <-]. apply (tick_refines _ _ _ _ _ _ _ S1). simpl. by rewrite (sm_cbase _ _ _ _ _ S).
Qed.

Lemma acc_tests ct t st m objs r a :
  sim st m objs r a →
  (∀ ta, repr (arena_addr K m objs) st (r_acc r) ta → tests st (arena_addr K m objs) (λ l, ct l (r_acc r)) (λ l, t l ta)) →
  tests st (arena_addr K m objs) (λ l, ct l (r_acc r)) (acc_test t a).
Proof.
  intros S Ht v l b Hv. unfold acc_test. destruct (a_acc a) as [acc|] eqn:Ea; [|done].
  apply Ht; [by apply (sm_acc _ _ _ _ _ S)|done].
Qed.

Lemma arith_i_refines op dop st m objs r a x d :
  sim st m objs r a →
  ('(l, stk) ← apop a; i ← aword im (a_pc a + 1); v ← to_opt (arith_i op dop (tree_num l) i); t ← imm v;
     Some (ANext (aput (a_pc a + 2) (Some t) stk a), DNone)) = Some (x, d) →
  refines st m ('(l, r) ← pop_val r m; i ← word im (r_pc r + 1); v ← arith_i op dop l i;
                Ret (LNext (advance 2 (with_acc v r)) st m)) x d.
Proof.
  intros S. destruct (apop a) as [[l stk]|] eqn:Ep; [|done].
  destruct (pop_sim _ _ _ _ _ _ _ S Ep) as (v&->&Hv&S1). cbn [mbind option_bind outcome_bind].
  change (r_pc (with_dep (r_dep r - 1) r)) with (r_pc r). rewrite (sm_pc _ _ _ _ _ S). unfold aword.
  destruct (word im (a_pc a + 1)) as [i| | |]; try done. cbn [to_opt mbind option_bind outcome_bind].
  rewrite (arith_i_num op dop _ _ i (repr_num _ _ _ _ Hv)).
  destruct (arith_i op dop (tree_num l) i) as [w| | |]; try done. cbn [to_opt mbind option_bind outcome_bind].
  destruct (imm w) as [t|] eqn:Ei; [|done]. cbn [mbind option_bind]. intros [= <- <-].
  eapply (acc_refines _ _ _ _ _ _ _ 2 S1). by apply imm_repr.
Qed.

Lemma store_refines st m objs r a k acc :
  sim st m objs r a → is_Some (stk_at (a_stk a) (a_base a + k)) → a_acc a = Some acc →
  refines st m (m ← write_slot m (r_base r + k) (r_acc r); Ret (LNext (advance 2 r) st m))
    (ANext (aput (a_pc a + 2) (Some acc) (<[Z.to_nat (a_base a + k) := acc]> (a_stk a)) a)) DNone.
Proof.
  intros S [t [Hi _]%nth_tree_at] Ea. rewrite (sm_base _ _ _ _ _ S). pose proof (sm_dep _ _ _ _ _ S) as Hd.
  pose proof (sim_clear _ _ _ _ _ (a_base a + k + 1) S ltac:(left; lia)) as Hc.
  destruct (sim_heap _ _ _ _ _ S) as (_&Hh&_). set (i := a_base a + k) in *.
  unfold write_slot, slot_in_block. destruct (Z.leb_spec 0 i); [|lia].
  destruct (Z.leb_spec 0 (mem_size m - 8 * (i + 1))); [|lia]. cbn [andb mbind outcome_bind].
  pose proof (sm_acc _ _ _ _ _ S _ Ea) as Hacc.
  eapply refines_next; [done|done|]. eapply sim_restack; [exact S|..]; simpl; try apply S.
  - by rewrite length_insert.
  - by left.
  - intros j Hj. unfold nth_tree. destruct (decide (j = i)) as [->|Hne].
    + exists (r_acc r). rewrite lookup_insert_eq, list_lookup_insert_eq by lia. done.
    + rewrite lookup_insert_ne by done. rewrite list_lookup_insert_ne by lia.
      destruct (ac_stack _ _ _ _ _ _ (sm_actor _ _ _ _ _ S) j) as (w&Hw&Hr); [simpl; lia|]. by exists w.
  - by intros ? [= <-].
  - by rewrite (sm_pc _ _ _ _ _ S).
Qed.

Lemma loadf_refines st m objs r a k c ts t e :
  sim st m objs r a → word im (a_pc a + 1) = Ret k → stk_at (a_stk a) (a_base a) = Some c → c = TClos e ts →
  stk_at ts k = Some t →
  refines st m (exec_loadf im r st m) (ANext (aput (a_pc a + 2) (Some t) (a_stk a) a)) DNone.
Proof.
  intros S Hk Hc -> Ht. unfold exec_loadf. rewrite (sm_base _ _ _ _ _ S), (sm_pc _ _ _ _ _ S).
  destruct (sim_slot _ _ _ _ _ _ _ S Hc) as (v&->&(fs&(_&Htag&_&Hcell)&Hgo)%repr_clos). cbn [mbind outcome_bind]. rewrite Hk. cbn [mbind outcome_bind].
  rewrite Htag. cbn [obj_tag]. rewrite Z.eqb_refl. cbn [negb]. rewrite Hcell.
  unfold stk_at in Ht. destruct (Z.ltb_spec k 0); [done|].
  destruct (Forall2_lookup_r _ _ _ _ _ Hgo Ht) as (f&Hf&Hr). rewrite Hf. cbn [or_undef mbind outcome_bind].
  by apply (acc_refines _ _ _ _ _ _ _ 2 S).
Qed.

Lemma field_refines (sel : Val → Val → Val) (tsel : tree → tree → tree) why st m objs r a acc :
  (∀ x y tx ty, repr (arena_addr K m objs) st x tx → repr (arena_addr K m objs) st y ty →
     repr (arena_addr K m objs) st (sel x y) (tsel tx ty)) →
  sim st m objs r a → a_acc a = Some acc →
  refines st m (exec_field sel why r st m)
    (match acc with TPair x y => ANext (aput (a_pc a + 1) (Some (tsel x y)) (a_stk a) a) | _ => ADie why end) DNone.
Proof.
  intros Hsel S Ea. pose proof (sm_acc _ _ _ _ _ S _ Ea) as Hacc. unfold exec_field. rewrite (repr_tag _ _ _ _ Hacc).
  destruct acc as [v| | | | |]; try by apply refines_die.
  - destruct Hacc as (Hq&_&Hv). cbn [tree_tag]. destruct (Z.eqb_spec (val_tag v) TAG_PAIR) as [Et|]; [|by apply refines_die].
    by rewrite Hq, Et in Hv.
  - destruct Hacc as (x&y&(_&_&_&->)&Hx&Hy). cbn [tree_tag]. rewrite Z.eqb_refl. cbn [negb].
    apply (acc_refines _ _ _ _ _ _ _ 1 S). by apply Hsel.
Qed.

(** ** Allocating instructions *)

(** The accumulator goes to the stack, where it is a root, before the
    allocation. *)
Lemma flush_alloc_sim st m objs r a acc size :
  sim st m objs r a → a_acc a = Some acc → r_dep r + 1 ≤ - stack_floor m → 0 ≤ size ≤ 2 ^ 28 →
  brk st + 2 * cap + 16 < ADDR_LIMIT →
  let n := ta_heap_object_size size in
  let m1 := set_slots (<[r_dep r := r_acc r]> (slots m)) m in
  push_val cap (r_dep r) (r_acc r) st m = Ret (st, m1) ∧
  ((proc_heap_alloc cap stress st (set_sp (- (r_dep r + 1)) m1) size = Abort FATAL_ALLOC ∧ exceeds m (DHeap size)) ∨
   ∃ st1 p1 objs1,
    proc_heap_alloc cap stress st (set_sp (- (r_dep r + 1)) m1) size =
      Ret (mem p1 + heap_ptr p1, zero_cell st1 (mem p1 + heap_ptr p1), set_heap_ptr (heap_ptr p1 + n) p1) ∧
    sim st1 p1 objs1 (with_dep (r_dep r + 1) r) (aput (a_pc a) None (a_stk a ++ [acc]) a) ∧
    sp p1 = - (r_dep r + 1) ∧ stack_floor p1 = stack_floor m ∧
    heap_ptr p1 + n + TA_HEAP_FIT_SLACK ≤ mem_size p1 + proc_stack_lo p1 * 8).
Proof.
  intros S Ea Hfl Hsz Hb n m1. split; [by eapply push_val_ok|].
  pose proof (sm_acc _ _ _ _ _ S _ Ea) as Hacc.
  pose proof (sim_push _ _ _ _ _ _ _ (r_pc r) (r_acc r) (Some acc) S Hfl Hacc ltac:(by intros ? [= <-])) as S1.
  fold m1 in S1. rewrite (sm_pc _ _ _ _ _ S) in S1 at 2. fold (with_dep (r_dep r + 1) r) in S1.
  destruct (alloc_sim _ _ _ _ _ size S1 Hsz Hb) as [[E Hc]|(st1&p1&objs1&E&S2&E1&E2&E3)]; cbn [r_dep with_dep] in *.
  - left. split; [exact E|]. simpl. unfold proc_stack_lo in Hc. simpl in Hc.
    destruct (Z.ltb_spec (- (r_dep r + 1)) (stack_floor m)); unfold TA_STACK_HEADROOM in *; lia.
  - right. exists st1, p1, objs1. done.
Qed.

Lemma read_slots_sim st m objs r a i n :
  sim st m objs r a → 0 ≤ i → i + Z.of_nat n ≤ r_dep r →
  ∃ fs, read_slots m i n = Ret fs ∧
    Forall2 (repr (arena_addr K m objs) st) fs (take n (drop (Z.to_nat i) (a_stk a))).
Proof.
  intros S. pose proof (sm_dep _ _ _ _ _ S) as Hd. revert i. induction n as [|n IH]; intros i Hi Hn; [by exists []|].
  destruct (lookup_lt_is_Some_2 (a_stk a) (Z.to_nat i)) as [t Ht]; [lia|].
  destruct (sim_slot _ _ _ _ _ i t S) as (v&Hv&Hr); [unfold stk_at; by destruct (Z.ltb_spec i 0); [lia|]|].
  destruct (IH (i + 1)) as (fs&Ef&Hfs); [lia..|]. exists (v :: fs). simpl. rewrite Hv. cbn [mbind outcome_bind]. rewrite Ef.
  split; [done|]. rewrite (drop_S _ _ _ Ht). simpl. constructor; [done|]. by replace (Datatypes.S (Z.to_nat i)) with (Z.to_nat (i + 1)) by lia.
Qed.

(** The new object, filled from the top of the stack, becomes the
    accumulator. *)
Lemma fill_refines st m st1 p objs r a o t n k d' b stk :
  let x := mem p + heap_ptr p in
  sim st1 p objs r a → sp p = - r_dep r → obj_size o = n → (∀ w c, o ≠ HeapResource w c) →
  heap_ptr p + n + TA_HEAP_FIT_SLACK ≤ mem_size p + proc_stack_lo p * 8 → stack_floor p = stack_floor m →
  (∀ v, v ∈ obj_children o → ∃ t, repr (arena_addr K p objs) st1 v t) →
  (∀ F st v, (∀ v t, repr (arena_addr K p objs) st1 v t → repr F st v t) → points_to F st v o → repr F st v t) →
  0 ≤ d' ≤ r_dep r → stk = take (Z.to_nat d') (a_stk a) →
  refines st m (Ret (LNext (advance k (with_acc (lbox (obj_tag o) x) (with_dep d' r)))
                  (write_cell (zero_cell st1 x) x (Live o)) (set_heap_ptr (heap_ptr p + n) p)))
    (ANext (aput (a_pc a + k) (Some t) stk a)) (DHeap b).
Proof.
  intros x S Hsp <- Ho Hfit Hfl Hch Ht Hd ->. destruct (extend_sim _ _ _ _ _ o S Hsp Ho Hfit Hch) as (Hrep&Hpt&S').
  pose proof (sm_dep _ _ _ _ _ S) as Hdep.
  eapply refines_next; [done|exact Hfl|]. eapply sim_same; [exact S'|..]; simpl; try apply S.
  - by rewrite length_take, Nat.min_l by lia.
  - rewrite length_take. lia.
  - intros ? [= <-]. by eapply Ht.
  - by rewrite (sm_pc _ _ _ _ _ S).
Qed.

Lemma cons_refines st m objs r a l stk acc :
  sim st m objs r a → r_dep r + 1 ≤ - stack_floor m → brk st + 2 * cap + 16 < ADDR_LIMIT →
  apop a = Some (l, stk) → a_acc a = Some acc →
  refines st m (exec_cons cap stress r st m) (ANext (aput (a_pc a + 1) (Some (TPair l acc)) stk a)) (DHeap SIZEOF_PAIR).
Proof.
  intros S Hfl Hb (Es&El&Et)%apop_Some Ea. unfold exec_cons. pose proof (sm_dep _ _ _ _ _ S) as Hd.
  destruct (flush_alloc_sim _ _ _ _ _ _ SIZEOF_PAIR S Ea Hfl) as (->&[[E Hc]|(st1&p1&objs1&E&S1&H1&H2&H3)]);
    [unfold SIZEOF_PAIR; lia|done|..]; cbn [mbind outcome_bind]; rewrite E; cbn [mbind outcome_bind].
  { left. eauto. }
  destruct (sim_slot _ _ _ _ _ (r_dep r) acc S1) as (vd&Hvd&Hrd).
  { simpl. unfold stk_at. destruct (Z.ltb_spec (r_dep r) 0); [lia|].
    rewrite lookup_app_r by lia. by replace (_ - _)%nat with O by lia. }
  destruct (sim_slot _ _ _ _ _ (r_dep r - 1) l S1) as (va&Hva&Hra).
  { simpl. unfold stk_at. destruct (Z.ltb_spec (r_dep r - 1) 0); [lia|].
    rewrite Es, <- app_assoc, lookup_app_r by lia. by replace (_ - _)%nat with O by lia. }
  replace (r_dep r + 1 - 1) with (r_dep r) by lia. replace (r_dep r + 1 - 2) with (r_dep r - 1) by lia.
  change (read_slot (set_heap_ptr ?h p1)) with (read_slot p1). rewrite Hvd. cbn [mbind outcome_bind]. rewrite Hva. cbn [mbind outcome_bind].
  eapply (fill_refines st m _ _ _ _ _ (HeapPair va vd) (TPair l acc) _ 1 (r_dep r - 1) SIZEOF_PAIR stk S1); try done; [..|simpl; lia|].
  - intros v Hv. set_unfold in Hv. destruct Hv as [->|[->|[]]]; eauto.
  - intros F st0 v Hm Hp. exists va, vd. auto.
  - simpl. rewrite Es, <- app_assoc. replace (Z.to_nat (r_dep r - 1)) with (length stk) by lia. by rewrite take_app_length.
Qed.

Lemma read_slots_eq m m' i n : slots m' = slots m → read_slots m' i n = read_slots m i n.
Proof.
  intros Hm. revert i. induction n as [|n IH]; intros i; simpl; [done|].
  unfold read_slot. rewrite Hm. destruct (slots m !! i); [|done]. cbn [or_undef mbind outcome_bind]. by rewrite IH.
Qed.

Lemma closure_refines st m objs r a fnid nfree acc :
  sim st m objs r a → word im (a_pc a + 1) = Ret fnid → word im (a_pc a + 2) = Ret nfree → nfree ≠ 0 →
  r_dep r + 1 ≤ - stack_floor m → brk st + 2 * cap + 16 < ADDR_LIMIT → a_acc a = Some acc →
  0 ≤ nfree ≤ 2 ^ 20 → nfree ≤ r_dep r + 1 →
  let stk := a_stk a ++ [acc] in
  let k := (length stk - Z.to_nat nfree)%nat in
  refines st m (exec_make_closure cap stress im r st m)
    (ANext (aput (a_pc a + 3) (Some (TClos fnid (drop k stk))) (take k stk) a)) (DHeap (SIZEOF_CLOSURE + nfree * SIZEOF_VAL)).
Proof.
  intros S Hw1 Hw2 Hne Hfl Hb Ea Hn Hnd stk k. unfold exec_make_closure. rewrite (sm_pc _ _ _ _ _ S), Hw1, Hw2.
  cbn [mbind outcome_bind]. destruct (Z.eqb_spec nfree 0); [done|]. pose proof (sm_dep _ _ _ _ _ S) as Hd.
  assert (Hlen : Z.of_nat (length stk) = r_dep r + 1) by (unfold stk; rewrite length_app; simpl; lia).
  destruct (flush_alloc_sim _ _ _ _ _ _ (SIZEOF_CLOSURE + nfree * SIZEOF_VAL) S Ea Hfl) as (->&[[E Hc]|(st1&p1&objs1&E&S1&H1&H2&H3)]);
    [unfold SIZEOF_CLOSURE, SIZEOF_VAL; lia|done|..]; cbn [mbind outcome_bind]; rewrite E; cbn [mbind outcome_bind].
  { left. eauto. }
  destruct (read_slots_sim _ _ _ _ _ (r_dep r + 1 - nfree) (Z.to_nat nfree) S1) as (fs&Efs&Hfs); [simpl; lia..|].
  simpl in Hfs. fold stk in Hfs.
  replace (Z.to_nat (r_dep r + 1 - nfree)) with k in Hfs by lia.
  rewrite take_ge in Hfs by (rewrite length_drop; lia).
  pose proof (Forall2_length _ _ _ Hfs) as Hl. rewrite length_drop in Hl.
  rewrite (read_slots_eq p1), Efs by done. cbn [mbind outcome_bind].
  replace (ta_heap_object_size (SIZEOF_CLOSURE + nfree * SIZEOF_VAL)) with (obj_size (HeapClosure fnid fs)) in *
    by (unfold obj_size, raw_size; do 3 f_equal; lia).
  eapply (fill_refines st m _ _ _ _ _ (HeapClosure fnid fs) (TClos fnid (drop k stk)) _ 3 (r_dep r + 1 - nfree) _ (take k stk) S1);
    try done; [..|simpl; lia|].
  - intros v Hv. simpl in Hv. apply list_elem_of_lookup in Hv as [j Hj].
    destruct (Forall2_lookup_l _ _ _ _ _ Hfs Hj) as (t&_&Ht). eauto.
  - intros F st0 v Hm Hp. apply repr_clos. exists fs. split; [done|]. eapply Forall2_impl; [exact Hfs|]. auto.
  - simpl. fold stk. f_equal. lia.
Qed.

(** ** Frames *)
Lemma reserve_sim st m objs r a lo :
  sim st m objs r a → - 2 ^ 25 ≤ lo ≤ 0 → lo ≤ - r_dep r ∨ r_dep r ≤ - stack_floor m → brk st + cap < ADDR_LIMIT →
  (proc_stack_reserve cap st (set_sp (- r_dep r) m) lo = Abort FATAL_STACK ∧ exceeds m (DFrame lo)) ∨
  ∃ st' m' objs', proc_stack_reserve cap st (set_sp (- r_dep r) m) lo = Ret (st', m') ∧
    sim st' m' objs' r (aput (a_pc a) None (a_stk a) a) ∧ sp m' = - r_dep r ∧ floor_after (DFrame lo) m m'.
Proof.
  intros S Hlo Hd Hb.
  destruct (proc_stack_reserve_spec cap K (nth_tree (a_stk a)) st (set_sp (- r_dep r) m) objs lo) as [[E Hc]|(st'&m'&objs'&E&A'&F'&C'&O')];
    [apply S|apply S|done|apply S|done|..].
  - left. split; [done|]. simpl. unfold proc_stack_lo in Hc. simpl in Hc.
    destruct (Z.ltb_spec (- r_dep r) (stack_floor m)); lia.
  - right. exists st', m', objs'. split; [done|]. destruct C' as (C1&C2&C3&C4&C5). simpl in *.
    assert (Hm' : set_sp (- r_dep r) m' = m') by (rewrite <- C1; by destruct m').
    split; [|by rewrite C1]. pose proof (sm_floor _ _ _ _ _ S) as Hfl.
    split; cbn [a_acc a_stk a_pc a_base a_cbase aput]; try apply S; rewrite ?Hm'; try done.
    + rewrite C4. apply S.
    + rewrite C5. apply S.
    + rewrite C2. lia.
    + eapply consts_kept; [|exact O'|apply S]. intros x Hx. exact (sim_foreign _ _ _ _ _ x S Hx).
Qed.

Lemma fill_nils_sim n st m objs r a :
  sim st m objs r a → r_dep r + Z.of_nat n ≤ - stack_floor m →
  ∃ m', fill_nils m (r_dep r) n = Ret m' ∧ stack_floor m' = stack_floor m ∧
    sim st m' objs (with_dep (r_dep r + Z.of_nat n) r) (aput (a_pc a) (a_acc a) (a_stk a ++ replicate n (Imm val_nil)) a).
Proof.
  revert m r a. induction n as [|n IH]; intros m r a S Hn.
  - exists m. split; [done|]. split; [done|]. simpl. rewrite app_nil_r, Z.add_0_r. by destruct r, a.
  - cbn [fill_nils]. destruct (push_room _ _ _ _ _ val_nil S ltac:(lia)) as [_ ->]. cbn [mbind outcome_bind].
    assert (Hnil : repr (arena_addr K m objs) st val_nil (Imm val_nil)) by by apply lbox_repr.
    pose proof (sim_push _ _ _ _ _ _ _ (r_pc r) (r_acc r) (a_acc a) S ltac:(lia) Hnil (sm_acc _ _ _ _ _ S)) as S1.
    rewrite (sm_pc _ _ _ _ _ S) in S1 at 2. destruct (IH _ _ _ S1) as (m'&E&Hf&S2); [simpl; lia|].
    exists m'. split; [exact E|]. split; [exact Hf|]. simpl in S2. rewrite <- app_assoc in S2. simpl in S2.
    by replace (r_dep r + Z.of_nat (Datatypes.S n)) with (r_dep r + 1 + Z.of_nat n) by lia.
Qed.

Lemma reserve_refines st m objs r a n :
  sim st m objs r a → word im (a_pc a + 1) = Ret n → brk st + 2 * cap + 16 < ADDR_LIMIT →
  let lo := - (Z.of_nat (length (a_stk a)) + n) in
  0 ≤ n → - 2 ^ 25 ≤ lo →
  refines st m (exec_reserve cap im r st m)
    (ANext (aput (a_pc a + 2) None (a_stk a ++ replicate (Z.to_nat n) (Imm val_nil)) a)) (DFrame lo).
Proof.
  intros S Hn Hb lo H0 Hlo. pose proof (sm_dep _ _ _ _ _ S) as Hd. destruct (sim_heap _ _ _ _ _ S) as (_&_&Hms&_).
  unfold exec_reserve. rewrite (sm_pc _ _ _ _ _ S), Hn. cbn [mbind outcome_bind].
  replace (- (r_dep r + n)) with lo by lia.
  destruct (reserve_sim _ _ _ _ _ lo S) as [[-> Hc]|(st'&m'&objs'&->&S'&_&Hf)]; [lia..| |].
  { left. eauto. }
  cbn [mbind outcome_bind]. unfold floor_after in Hf.
  destruct (fill_nils_sim (Z.to_nat n) _ _ _ _ _ S') as (m2&->&Hf2&S2); [lia|]. cbn [mbind outcome_bind].
  eapply refines_next; [done|unfold floor_after; by rewrite Hf2|]. eapply sim_same; [exact S2|..]; simpl; try apply S.
  - by rewrite firstn_all.
  - rewrite length_app, length_replicate. lia.
  - done.
  - by rewrite (sm_pc _ _ _ _ _ S).
Qed.

Lemma imm_slot st m objs r a i v :
  sim st m objs r a → stk_at (a_stk a) i = Some (Imm v) → read_slot m i = Ret v.
Proof. intros S Hi. destruct (sim_slot _ _ _ _ _ _ _ S Hi) as (w&->&->&_). done. Qed.

Lemma ret_refines st m objs r a k ret base cbase :
  sim st m objs r a → word im (a_pc a + 1) = Ret k → 0 ≤ a_base a ≤ Z.of_nat (length (a_stk a)) →
  stk_at (a_stk a) (a_base a + k + 1) = Some (Imm ret) → stk_at (a_stk a) (a_base a + k + 2) = Some (Imm base) →
  stk_at (a_stk a) (a_base a + k + 3) = Some (Imm cbase) →
  refines st m (exec_ret im r st m)
    (ATick (mk_amach (val_get_int ret) (val_get_int base) (val_get_int cbase) (a_acc a) (take (Z.to_nat (a_base a)) (a_stk a)))) DNone.
Proof.
  intros S Hk Hb H1 H2 H3. unfold exec_ret. rewrite (sm_pc _ _ _ _ _ S), Hk, (sm_base _ _ _ _ _ S). cbn [mbind outcome_bind].
  rewrite (imm_slot _ _ _ _ _ _ _ S H1), (imm_slot _ _ _ _ _ _ _ S H2), (imm_slot _ _ _ _ _ _ _ S H3). cbn [mbind outcome_bind].
  eapply refines_tick; [done|done|]. apply sim_sp. eapply sim_same; [exact S|..]; simpl; try done; try apply S.
  - by rewrite length_take, Nat.min_l by lia.
  - rewrite length_take. lia.
Qed.

(** ** All local instructions *)
Lemma pure_num f l acc l' acc' : f l acc = f l' acc' → pure_op f l acc = pure_op f l' acc'.
Proof. unfold pure_op. by intros ->. Qed.

(** The slots an instruction pushes, which the compiler counts in [fn_maxd]. *)
Definition pushes (op : Z) : Z :=
  if bool_decide (op ∈ [LOP_PUSH; LOP_LOADP; LOP_CONSTP; LOP_GLOBP; LOP_CONS; LOP_MAKE_CLOSURE]) then 1 else 0.

Ltac next_op := match goal with |- context [if ?op =? ?k then _ else _] => destruct (Z.eqb_spec op k) as [->|_] end.
Ltac get_word im S :=
  rewrite ?(sm_pc _ _ _ _ _ S); unfold aword;
  match goal with |- context [to_opt (word im ?i)] => destruct (word im i) as [?w| | |] eqn:?Hw; try done end;
  cbn [to_opt mbind option_bind outcome_bind].
Ltac get_acc a := destruct (a_acc a) as [acc|] eqn:Ea; [|done]; cbn [mbind option_bind].

Definition in_ops (op : Z) (l : list Z) : bool := existsb (Z.eqb op) l.
Ltac skip_ops H := repeat (next_op; [discriminate H|]).

Definition move_ops : list Z :=
  [LOP_CONST; LOP_LOAD; LOP_STORE; LOP_LOADF; LOP_PUSH; LOP_LOADP; LOP_CONSTP; LOP_GLOBP; LOP_RESERVE].
Lemma moves_sim st m objs r a op x d :
  in_ops op move_ops = true → sim st m objs r a → r_dep r + pushes op ≤ - stack_floor m → brk st + 2 * cap + 16 < ADDR_LIMIT →
  abs_exec im consts op a = Some (x, d) → refines st m (exec_local cap stress im op r st m) x d.
Proof.
  intros Hin S Hp Hb. pose proof (sm_dep _ _ _ _ _ S) as Hd. unfold abs_exec, exec_local. cbv zeta.
  next_op.
  { get_word im S. destruct (stk_at consts w) as [t|] eqn:Et; [|done]. cbn [mbind option_bind]. intros [= <- <-].
    destruct (sim_const _ _ _ _ _ _ _ S Et) as (v&->&Hv). by apply (acc_refines _ _ _ _ _ _ _ 2 S). }
  next_op.
  { get_word im S. destruct (stk_at (a_stk a) (a_base a + w)) as [t|] eqn:Et; [|done]. cbn [mbind option_bind]. intros [= <- <-].
    rewrite (sm_base _ _ _ _ _ S). destruct (sim_slot _ _ _ _ _ _ _ S Et) as (v&->&Hv). by apply (acc_refines _ _ _ _ _ _ _ 2 S). }
  next_op.
  { get_word im S. destruct (stk_at (a_stk a) (a_base a + w)) as [t|] eqn:Et; [|done]. cbn [mbind option_bind]. get_acc a.
    intros [= <- <-]. eapply store_refines; eauto. }
  next_op.
  { get_word im S. destruct (stk_at (a_stk a) (a_base a)) as [c|] eqn:Ec; [|done]. cbn [mbind option_bind].
    destruct c as [|?|e ts| | |]; try done. destruct (stk_at ts w) as [t|] eqn:Et; [|done]. cbn [mbind option_bind].
    intros [= <- <-]. by eapply loadf_refines. }
  next_op.
  { get_acc a. intros [= <- <-]. change (pushes LOP_PUSH) with 1 in Hp. rewrite (push_val_ok _ _ _ _ _ _ S Hp). cbn [mbind outcome_bind].
    apply (push_refines _ _ _ _ _ _ _ 1 S); [done|]. by apply (sm_acc _ _ _ _ _ S). }
  next_op.
  { change (pushes LOP_LOADP) with 1 in Hp. destruct (push_room _ _ _ _ _ 0 S Hp) as [-> _]. cbn [mbind outcome_bind].
    get_word im S. destruct (stk_at (a_stk a) (a_base a + w)) as [t|] eqn:Et; [|done]. cbn [mbind option_bind]. intros [= <- <-].
    rewrite (sm_base _ _ _ _ _ S). destruct (sim_slot _ _ _ _ _ _ _ S Et) as (v&->&Hv). cbn [mbind outcome_bind].
    destruct (push_room _ _ _ _ _ v S Hp) as [_ ->]. by apply (push_refines _ _ _ _ _ _ _ 2 S). }
  next_op.
  { change (pushes LOP_CONSTP) with 1 in Hp. destruct (push_room _ _ _ _ _ 0 S Hp) as [-> _]. cbn [mbind outcome_bind].
    get_word im S. destruct (stk_at consts w) as [t|] eqn:Et; [|done]. cbn [mbind option_bind]. intros [= <- <-].
    destruct (sim_const _ _ _ _ _ _ _ S Et) as (v&->&Hv). cbn [mbind outcome_bind].
    destruct (push_room _ _ _ _ _ v S Hp) as [_ ->]. by apply (push_refines _ _ _ _ _ _ _ 2 S). }
  next_op.
  { change (pushes LOP_GLOBP) with 1 in Hp. get_word im S. intros [= <- <-]. rewrite (push_val_ok _ _ _ _ _ _ S Hp).
    apply (push_refines _ _ _ _ _ _ _ 2 S); [done|]. apply global_repr. }
  next_op.
  { get_word im S. destruct (Z.ltb_spec w 0); [done|]. destruct (Z.ltb_spec (- (Z.of_nat (length (a_stk a)) + w)) (- 2 ^ 25)); [done|].
    cbn [orb]. intros [= <- <-]. by apply (reserve_refines _ _ _ _ _ _ S). }
  skip_ops Hin. discriminate.
Qed.

Definition arithmetic_ops : list Z :=
  [LOP_ADD; LOP_SUB; LOP_MUL; LOP_DIV; LOP_MOD; LOP_LT; LOP_LE; LOP_GT; LOP_GE; LOP_EQ; LOP_JIF_LT; LOP_JIF_LE; LOP_JIF_GT; LOP_JIF_GE; LOP_JIF_EQ; LOP_JIF_EQ_I; LOP_CONST_I; LOP_ADD_I].
Lemma arithmetic_sim st m objs r a op x d :
  in_ops op arithmetic_ops = true → sim st m objs r a → r_dep r + pushes op ≤ - stack_floor m → brk st + 2 * cap + 16 < ADDR_LIMIT →
  abs_exec im consts op a = Some (x, d) → refines st m (exec_local cap stress im op r st m) x d.
Proof.
  intros Hin S Hp Hb. pose proof (sm_dep _ _ _ _ _ S) as Hd. unfold abs_exec, exec_local. cbv zeta.
  do 9 (next_op; [discriminate Hin|]).
  next_op. { eapply binary_refines; [|done]. intros. by apply pure_num, arith_num. }
  next_op. { eapply binary_refines; [|done]. intros. by apply pure_num, arith_num. }
  next_op. { eapply binary_refines; [|done]. intros. by apply pure_num, arith_num. }
  next_op. { eapply binary_refines; [|done]. apply div_num. }
  next_op. { eapply binary_refines; [|done]. apply mod_num. }
  next_op. { eapply cmp_refines; [done|]. intros ta Ha. by apply num_tests. }
  next_op. { eapply cmp_refines; [done|]. intros ta Ha. by apply num_tests. }
  next_op. { eapply cmp_refines; [done|]. intros ta Ha. by apply num_tests. }
  next_op. { eapply cmp_refines; [done|]. intros ta Ha. by apply num_tests. }
  next_op. { eapply cmp_refines; [done|]. intros ta Ha. by apply eq_tests. }
  next_op. { eapply jif_refines; [done|]. apply (acc_tests _ _ _ _ _ _ _ S). intros ta Ha. by apply num_tests. }
  next_op. { eapply jif_refines; [done|]. apply (acc_tests _ _ _ _ _ _ _ S). intros ta Ha. by apply num_tests. }
  next_op. { eapply jif_refines; [done|]. apply (acc_tests _ _ _ _ _ _ _ S). intros ta Ha. by apply num_tests. }
  next_op. { eapply jif_refines; [done|]. apply (acc_tests _ _ _ _ _ _ _ S). intros ta Ha. by apply num_tests. }
  next_op. { eapply jif_refines; [done|]. apply (acc_tests _ _ _ _ _ _ _ S). intros ta Ha. by apply eq_tests. }
  next_op. { get_word im S. eapply jif_refines; [done|]. apply eq_tests, val_int_repr. }
  next_op. { get_word im S. intros [= <- <-]. apply (acc_refines _ _ _ _ _ _ _ 2 S), val_int_repr. }
  next_op. { eapply arith_i_refines; exact S. }
  skip_ops Hin. discriminate.
Qed.

Definition structure_ops : list Z :=
  [LOP_SUB_I; LOP_PAIRP; LOP_SYMP; LOP_CONS; LOP_CAR; LOP_CDR].
Lemma structure_sim st m objs r a op x d :
  in_ops op structure_ops = true → sim st m objs r a → r_dep r + pushes op ≤ - stack_floor m → brk st + 2 * cap + 16 < ADDR_LIMIT →
  abs_exec im consts op a = Some (x, d) → refines st m (exec_local cap stress im op r st m) x d.
Proof.
  intros Hin S Hp Hb. pose proof (sm_dep _ _ _ _ _ S) as Hd. unfold abs_exec, exec_local. cbv zeta.
  do 27 (next_op; [discriminate Hin|]).
  next_op. { eapply arith_i_refines; exact S. }
  next_op.
  { get_acc a. rewrite (repr_tag _ _ _ _ (sm_acc _ _ _ _ _ S _ Ea)). intros [= <- <-].
    apply (acc_refines _ _ _ _ _ _ _ 1 S), truth_repr. }
  next_op.
  { get_acc a. rewrite (repr_tag _ _ _ _ (sm_acc _ _ _ _ _ S _ Ea)). intros [= <- <-].
    apply (acc_refines _ _ _ _ _ _ _ 1 S), truth_repr. }
  next_op.
  { change (pushes LOP_CONS) with 1 in Hp. destruct (apop a) as [[l stk]|] eqn:Ep; [|done]. cbn [mbind option_bind]. get_acc a.
    intros [= <- <-]. by eapply cons_refines. }
  next_op.
  { get_acc a. pose proof (field_refines (λ a _, a) (λ a _, a) Cartype _ _ _ _ _ _ ltac:(auto) S Ea) as Hf.
    destruct acc; intros [= <- <-]; exact Hf. }
  next_op.
  { get_acc a. pose proof (field_refines (λ _ d, d) (λ _ d, d) Cdrtype _ _ _ _ _ _ ltac:(auto) S Ea) as Hf.
    destruct acc; intros [= <- <-]; exact Hf. }
  skip_ops Hin. discriminate.
Qed.

Lemma control_sim st m objs r a op x d :
  in_ops op move_ops = false → in_ops op arithmetic_ops = false → in_ops op structure_ops = false → sim st m objs r a → r_dep r + pushes op ≤ - stack_floor m → brk st + 2 * cap + 16 < ADDR_LIMIT →
  abs_exec im consts op a = Some (x, d) → refines st m (exec_local cap stress im op r st m) x d.
Proof.
  intros N1 N2 N3 S Hp Hb. pose proof (sm_dep _ _ _ _ _ S) as Hd. unfold abs_exec, exec_local. cbv zeta.
  do 9 (next_op; [discriminate N1|]). do 18 (next_op; [discriminate N2|]). do 6 (next_op; [discriminate N3|]).
  next_op.
  { get_acc a. unfold val_is_true. rewrite (repr_tag _ _ _ _ (sm_acc _ _ _ _ _ S _ Ea)). fold (tree_true acc).
    destruct (tree_true acc).
    - rewrite <- Ea. intros [= <- <-]. apply (tick_refines _ _ _ _ _ _ _ S). by rewrite (sm_pc _ _ _ _ _ S).
    - get_word im S. rewrite <- Ea. intros [= <- <-]. apply (tick_refines _ _ _ _ _ _ _ S). by rewrite (sm_cbase _ _ _ _ _ S). }
  next_op.
  { get_word im S. intros [= <- <-]. apply (tick_refines _ _ _ _ _ _ _ S). by rewrite (sm_cbase _ _ _ _ _ S). }
  next_op.
  { unfold abs_ret, aword. destruct (word im (a_pc a + 1)) as [k| | |] eqn:Hk; try done. cbn [to_opt mbind option_bind outcome_bind].
    destruct (Z.ltb_spec (a_base a) 0); [done|].
    destruct (stk_at (a_stk a) (a_base a + k + 1)) as [[]|] eqn:E1; try done.
    destruct (stk_at (a_stk a) (a_base a + k + 2)) as [[]|] eqn:E2; try done.
    destruct (stk_at (a_stk a) (a_base a + k + 3)) as [[]|] eqn:E3; try done.
    destruct (Z.ltb_spec (Z.of_nat (length (a_stk a))) (a_base a)); [done|]. intros [= <- <-]. by eapply ret_refines. }
  next_op.
  { change (pushes LOP_MAKE_CLOSURE) with 1 in Hp. unfold aword.
    destruct (word im (a_pc a + 1)) as [fnid| | |] eqn:Hw1; try done. cbn [to_opt mbind option_bind].
    destruct (word im (a_pc a + 2)) as [nfree| | |] eqn:Hw2; try done. cbn [to_opt mbind option_bind].
    destruct (Z.eqb_spec nfree 0) as [->|Hne].
    - intros [= <- <-]. unfold exec_make_closure. rewrite (sm_pc _ _ _ _ _ S), Hw1, Hw2. cbn [mbind outcome_bind].
      apply (acc_refines _ _ _ _ _ _ _ 3 S). by apply lbox_repr.
    - get_acc a. rewrite length_app. simpl (length [acc]).
      destruct (Z.ltb_spec nfree 0); [done|]. destruct (Z.ltb_spec (Z.of_nat (length (a_stk a) + 1)) nfree); [done|].
      destruct (Z.ltb_spec (2 ^ 20) nfree); [done|]. cbn [orb]. intros [= <- <-].
      pose proof (closure_refines _ _ _ _ _ _ _ _ S Hw1 Hw2 Hne Hp Hb Ea ltac:(lia) ltac:(lia)) as H'. cbv zeta in H'.
      by rewrite length_app in H'. }
  next_op.
  { get_word im S. intros [= <- <-]. apply (acc_refines _ _ _ _ _ _ _ 2 S), global_repr. }
  done.
Qed.

Lemma local_sim st m objs r a op x d :
  sim st m objs r a → r_dep r + pushes op ≤ - stack_floor m → brk st + 2 * cap + 16 < ADDR_LIMIT →
  abs_exec im consts op a = Some (x, d) → refines st m (exec_local cap stress im op r st m) x d.
Proof.
  destruct (in_ops op move_ops) eqn:E1; [by apply moves_sim|].
  destruct (in_ops op arithmetic_ops) eqn:E2; [by apply arithmetic_sim|].
  destruct (in_ops op structure_ops) eqn:E3; [by apply structure_sim|by apply control_sim].
Qed.

(** ** Calls *)

(** [CALL_COMMON] and the entry into a function of the image. *)
Definition exec_enter (enter : Z → Z → regs → store → ProcMem → outcome lres) (r : regs) (st : store) (m : ProcMem) : outcome lres :=
  '(n, c, r, st, m) ← call_common cap im r st m;
  match c with Fun fid => enter n fid r st m | Native _ => Undef end.

Lemma callee_sim F st v t fid : repr F st v t → afun t = Some fid → callee_of st v = Ret (Fun fid).
Proof.
  intros Hr Hf. unfold callee_of. rewrite (repr_tag _ _ _ _ Hr). destruct t as [w| |e ts| | |]; try done.
  - destruct Hr as (->&_&_). unfold afun in Hf. cbn [tree_tag]. destruct (val_tag w =? TAG_CLOS_ID); [by injection Hf as ->|done].
  - apply repr_clos in Hr as (fs&(_&_&_&->)&_). by injection Hf as ->.
Qed.

Lemma abs_block_Some a n fid stk :
  abs_block im a = Some (n, fid, stk) →
  ∃ acc f, word im (a_pc a + 1) = Ret n ∧ a_acc a = Some acc ∧ stk = a_stk a ++ [acc] ∧ 1 ≤ n ≤ Z.of_nat (length stk) ∧
    stk_at stk (Z.of_nat (length stk) - n) = Some f ∧ afun f = Some fid ∧ fn_field im fn_args fid = Ret (n - 1).
Proof.
  unfold abs_block, aword. destruct (word im (a_pc a + 1)) as [k| | |]; try done. cbn [to_opt mbind option_bind].
  destruct (a_acc a) as [acc|]; [|done]. cbn [mbind option_bind]. cbv zeta.
  set (s := a_stk a ++ [acc]). destruct (Z.ltb_spec k 1); [done|]. destruct (Z.ltb_spec (Z.of_nat (length s)) k); [done|]. cbn [orb].
  destruct (stk_at s (Z.of_nat (length s) - k)) as [f|] eqn:Ef; [|done]. cbn [mbind option_bind].
  destruct (afun f) as [g|] eqn:Eg; [|done]. cbn [mbind option_bind]. unfold afield.
  destruct (fn_field im fn_args g) as [q| | |] eqn:Eq; try done. cbn [to_opt mbind option_bind].
  destruct (Z.eqb_spec q (k - 1)) as [->|]; [|done]. intros [= -> -> <-]. exists acc, f. done.
Qed.

Lemma frame_lo_Some base fid lo :
  frame_lo im base fid = Some lo → ∃ maxd k, fn_field im fn_maxd fid = Ret maxd ∧ fn_field im fn_args fid = Ret k ∧
    lo = - (base + maxd + 1) ∧ - 2 ^ 25 ≤ lo ≤ 0 ∧ k + 4 ≤ maxd.
Proof.
  unfold frame_lo, afield. destruct (fn_field im fn_maxd fid) as [maxd| | |]; try done. cbn [to_opt mbind option_bind].
  destruct (fn_field im fn_args fid) as [k| | |]; try done. cbn [to_opt mbind option_bind]. cbv zeta.
  destruct (Z.ltb_spec 0 (- (base + maxd + 1))); [done|]. destruct (Z.ltb_spec (- (base + maxd + 1)) (- 2 ^ 25)); [done|].
  destruct (Z.ltb_spec maxd (k + 4)); [done|]. intros [= <-]. exists maxd, k. split_and!; done || lia.
Qed.

(** The common part of CALL and TCALL: the accumulator is flushed and the
    block [fn, args..] lies on top. *)
Lemma block_sim st m objs r a n fid stk :
  sim st m objs r a → r_dep r + 1 ≤ - stack_floor m → abs_block im a = Some (n, fid, stk) →
  let m1 := set_slots (<[r_dep r := r_acc r]> (slots m)) m in
  call_common cap im r st m = Ret (n, Fun fid, with_dep (r_dep r + 1) r, st, m1) ∧
  check_arity im fid n = Ret tt ∧ 1 ≤ n ≤ r_dep r + 1 ∧ Z.of_nat (length stk) = r_dep r + 1 ∧
  stk = a_stk a ++ drop (length (a_stk a)) stk ∧
  sim st m1 objs (with_dep (r_dep r + 1) r) (aput (a_pc a) (a_acc a) stk a).
Proof.
  intros S Hfl (acc&f&Hn&Ea&->&Hr&Ef&Hf&Hk)%abs_block_Some m1. pose proof (sm_dep _ _ _ _ _ S) as Hd.
  rewrite length_app in *. simpl (length [acc]) in *.
  assert (Hacc := sm_acc _ _ _ _ _ S _ Ea).
  pose proof (sim_push _ _ _ _ _ _ _ (r_pc r) (r_acc r) (a_acc a) S Hfl Hacc (sm_acc _ _ _ _ _ S)) as S1.
  fold m1 in S1. rewrite (sm_pc _ _ _ _ _ S) in S1 at 2. fold (with_dep (r_dep r + 1) r) in S1.
  destruct (sim_slot _ _ _ _ _ (r_dep r + 1 - n) f S1) as (fv&Hfv&Hrf).
  { simpl. rewrite <- Ef. f_equal. lia. }
  split.
  - unfold call_common. rewrite (sm_pc _ _ _ _ _ S), Hn. cbn [mbind outcome_bind].
    rewrite (push_val_ok _ _ _ _ _ _ S Hfl). cbn [mbind outcome_bind]. fold m1. rewrite Hfv. cbn [mbind outcome_bind].
    by rewrite (callee_sim _ _ _ _ _ Hrf Hf).
  - unfold check_arity. rewrite Hk. cbn [mbind outcome_bind]. rewrite Z.eqb_refl.
    rewrite drop_app_length. split_and!; done || lia.
Qed.

(** Writing three words on top. *)
Lemma push3_sim st m objs r a x y z :
  sim st m objs r a → r_dep r + 3 ≤ - stack_floor m →
  ∃ m1 m2 m3, write_slot m (r_dep r) (val_int x) = Ret m1 ∧ write_slot m1 (r_dep r + 1) (val_int y) = Ret m2 ∧
    write_slot m2 (r_dep r + 2) (val_int z) = Ret m3 ∧ mem_size m3 = mem_size m ∧ heap_ptr m3 = heap_ptr m ∧
    stack_floor m3 = stack_floor m ∧
    sim st m3 objs (with_dep (r_dep r + 3) r)
      (aput (a_pc a) (a_acc a) (a_stk a ++ [Imm (val_int x); Imm (val_int y); Imm (val_int z)]) a).
Proof.
  intros S Hfl.
  destruct (push_room _ _ _ _ _ (val_int x) S ltac:(lia)) as [_ E1].
  pose proof (sim_push _ _ _ _ _ _ _ (r_pc r) (r_acc r) (a_acc a) S ltac:(lia) (val_int_repr x _ _) (sm_acc _ _ _ _ _ S)) as S1.
  destruct (push_room _ _ _ _ _ (val_int y) S1 ltac:(simpl; lia)) as [_ E2].
  pose proof (sim_push _ _ _ _ _ _ _ (r_pc r) (r_acc r) (a_acc a) S1 ltac:(simpl; lia) (val_int_repr y _ _) (sm_acc _ _ _ _ _ S1)) as S2.
  destruct (push_room _ _ _ _ _ (val_int z) S2 ltac:(simpl; lia)) as [_ E3].
  pose proof (sim_push _ _ _ _ _ _ _ (r_pc r) (r_acc r) (a_acc a) S2 ltac:(simpl; lia) (val_int_repr z _ _) (sm_acc _ _ _ _ _ S2)) as S3.
  cbn [r_dep] in *. replace (r_dep r + 1 + 1) with (r_dep r + 2) in * by lia. replace (r_dep r + 2 + 1) with (r_dep r + 3) in * by lia.
  do 3 eexists. split; [exact E1|]. split; [exact E2|]. split; [exact E3|]. split; [done|]. split; [done|]. split; [done|].
  simpl in S3. rewrite <- !app_assoc in S3. simpl in S3. rewrite (sm_pc _ _ _ _ _ S) in S3 at 2. exact S3.
Qed.

Lemma call_sim st m objs r a a' d :
  sim st m objs r a → r_dep r + 4 ≤ - stack_floor m → brk st + cap < ADDR_LIMIT → abs_call im a = Some (a', d) →
  refines st m (exec_enter (exec_call cap im) r st m) (ATick a') d.
Proof.
  intros S Hfl Hb. unfold abs_call. destruct (abs_block im a) as [[[n fid] stk]|] eqn:Eb; [|done]. cbn [mbind option_bind]. cbv zeta.
  destruct (block_sim _ _ _ _ _ _ _ _ S ltac:(lia) Eb) as (E1&E2&Hn&Hlen&_&S1).
  destruct (frame_lo im (Z.of_nat (length stk) - n) fid) as [lo|] eqn:El; [|done]. cbn [mbind option_bind].
  apply frame_lo_Some in El as (maxd&k&Hmax&_&Hlo&Hrng&_). unfold afield.
  destruct (fn_field im fn_entry fid) as [entry| | |] eqn:He; try done. cbn [to_opt mbind option_bind]. intros [= <- <-].
  unfold exec_enter. rewrite E1. cbn [mbind outcome_bind]. unfold exec_call. rewrite E2. cbn [mbind outcome_bind]. cbv zeta.
  destruct (push3_sim _ _ _ _ _ (a_pc a + 2) (a_base a) (a_cbase a) S1) as (m1&m2&m3&W1&W2&W3&M1&M2&M3&S2); [simpl; lia|].
  pose proof (sim_clear _ _ _ _ _ (r_dep r + 1 + 3) S1 ltac:(right; simpl; lia)) as Hcl. cbn [r_dep with_dep r_pc r_base r_cbase r_acc] in *.
  destruct (Z.ltb_spec (mem_size (set_slots (<[r_dep r:=r_acc r]> (slots m)) m) - 8 * (r_dep r + 1 + 3))
                       (heap_ptr (set_slots (<[r_dep r:=r_acc r]> (slots m)) m))); [lia|]. cbn [mbind outcome_bind].
  rewrite (sm_pc _ _ _ _ _ S), (sm_base _ _ _ _ _ S), (sm_cbase _ _ _ _ _ S), W1. cbn [mbind outcome_bind].
  rewrite W2. cbn [mbind outcome_bind]. rewrite W3. cbn [mbind outcome_bind]. rewrite Hmax. cbn [mbind outcome_bind].
  rewrite Hlen in Hlo. rewrite <- Hlo. rewrite Hlen. cbn [stack_floor heap_ptr set_slots] in M2, M3.
  assert (Hfin : ∀ st' m' objs', sim st' m' objs' (with_dep (r_dep r + 1 + 3) r)
            (aput (a_pc a) None (stk ++ [Imm (val_int (a_pc a + 2)); Imm (val_int (a_base a)); Imm (val_int (a_cbase a))]) a) →
          floor_after (DFrame lo) m m' →
          refines st m (entry ← fn_field im fn_entry fid; Ret (LTick (mk_regs entry (r_dep r + 1 - n) entry (r_acc r) (r_dep r + 1 + 3)) st' m'))
            (ATick (mk_amach entry (r_dep r + 1 - n) entry None
              (stk ++ [Imm (val_int (a_pc a + 2)); Imm (val_int (a_base a)); Imm (val_int (a_cbase a))]))) (DFrame lo)).
  { intros st' m' objs' S' Hf. rewrite He. cbn [mbind outcome_bind]. eapply refines_tick; [done|exact Hf|].
    eapply sim_same; [exact S'|..]; simpl; try done; [by rewrite firstn_all|]. rewrite length_app. simpl. lia. }
  destruct (Z.ltb_spec lo (stack_floor m3)) as [Hlt|Hge].
  - destruct (reserve_sim _ _ _ _ _ lo S2) as [[E Hc]|(st'&m'&objs'&E&S3&_&Hf)]; [lia|right; simpl; lia|done|..];
      cbn [r_dep with_dep] in E; rewrite E; cbn [mbind outcome_bind].
    + left. eexists. split; [done|]. simpl in *. by rewrite M2, M3 in Hc.
    + eapply Hfin; [exact S3|]. unfold floor_after in *. by rewrite M3 in Hf.
  - cbn [mbind outcome_bind]. eapply Hfin.
    + eapply sim_same; [exact S2|..]; simpl; try done; [by rewrite firstn_all|rewrite length_app; simpl; lia|apply S..].
    + unfold floor_after. rewrite M3 in *. lia.
Qed.

(** ** Tail calls *)
Lemma reinsert_int v : 0 ≤ v < 2 ^ 64 → val_is_int v = true → val_int (val_get_int v) = v.
Proof.
  intros Hv Ht%val_is_int_true. rewrite val_int_lbox, lbox_eq, val_get_int_signed, signed_cong by lia.
  rewrite <- lpayload_mod, <- Ht. symmetry. rewrite (val_split v Hv) at 1. do 2 f_equal.
  by rewrite Ht.
Qed.

(** The block moves down over the frame: it is read before it is
    overwritten. *)
Lemma move_block_spec k m src dst :
  0 ≤ dst ≤ src → 8 * (dst + Z.of_nat k) ≤ mem_size m →
  (∀ i, src ≤ i < src + Z.of_nat k → is_Some (slots m !! i)) →
  ∃ s, move_block m src dst k = Ret (set_slots s m) ∧
    (∀ i, 0 ≤ i < Z.of_nat k → s !! (dst + i) = slots m !! (src + i)) ∧
    (∀ j, j < dst ∨ dst + Z.of_nat k ≤ j → s !! j = slots m !! j).
Proof.
  revert m src dst. induction k as [|k IH]; intros m src dst Hd Hr Hs.
  - exists (slots m). simpl. rewrite slots_eta. split; [done|]. split; [lia|done].
  - destruct (Hs src) as [v Hv]; [lia|]. cbn [move_block]. unfold read_slot at 1. rewrite Hv. cbn [or_undef mbind outcome_bind].
    unfold write_slot at 1, slot_in_block. destruct (Z.leb_spec 0 dst); [|lia].
    destruct (Z.leb_spec 0 (mem_size m - 8 * (dst + 1))); [|lia]. cbn [andb mbind outcome_bind].
    destruct (IH (set_slots (<[dst:=v]> (slots m)) m) (src + 1) (dst + 1)) as (s&->&H1&H2); [lia|simpl; lia|..].
    + intros i Hi. simpl. rewrite lookup_insert_ne by lia. apply Hs. lia.
    + exists s. split; [done|]. simpl in *. split.
      * intros i Hi. destruct (decide (i = 0)) as [->|Hne].
        -- rewrite !Z.add_0_r, H2 by lia. by rewrite lookup_insert_eq, Hv.
        -- replace (dst + i) with (dst + 1 + (i - 1)) by lia. rewrite H1 by lia. rewrite lookup_insert_ne by lia. f_equal. lia.
      * intros j Hj. rewrite H2 by lia. by rewrite lookup_insert_ne by lia.
Qed.

Lemma nth_tree_app stk u i :
  0 ≤ i → nth_tree (stk ++ u) i = if decide (i < Z.of_nat (length stk)) then nth_tree stk i else nth_tree u (i - Z.of_nat (length stk)).
Proof.
  intros Hi. unfold nth_tree. case_decide; [by rewrite lookup_app_l by lia|]. rewrite lookup_app_r by lia. do 2 f_equal. lia.
Qed.

Lemma sim_stack st m objs r a i :
  sim st m objs r a → 0 ≤ i < r_dep r →
  ∃ v, slots m !! i = Some v ∧ repr (arena_addr K m objs) st v (nth_tree (a_stk a) i).
Proof. intros S Hi. apply (ac_stack _ _ _ _ _ _ (sm_actor _ _ _ _ _ S)). simpl. lia. Qed.

(** The frame after a tail call. *)
Lemma tail_sim st m objs r a b n s x y z entry acc :
  sim st m objs r a → 0 ≤ b → 0 ≤ n → b + n ≤ r_dep r → b + n + 3 ≤ r_dep r ∨ b + n + 3 ≤ - stack_floor m →
  (∀ j, j < b → s !! j = slots m !! j) →
  (∀ i, 0 ≤ i < n → s !! (b + i) = slots m !! (r_dep r - n + i)) →
  s !! (b + n) = Some (val_int x) → s !! (b + n + 1) = Some (val_int y) → s !! (b + n + 2) = Some (val_int z) →
  sim st (set_slots s m) objs (mk_regs entry b entry acc (b + n + 3))
    (mk_amach entry b entry None
       (take (Z.to_nat b) (a_stk a) ++ drop (length (a_stk a) - Z.to_nat n) (a_stk a) ++ [Imm (val_int x); Imm (val_int y); Imm (val_int z)])).
Proof.
  intros S Hb Hn Hbn Hroom Hlow Hblk Hx Hy Hz. pose proof (sm_dep _ _ _ _ _ S) as Hd.
  eapply sim_restack; [exact S|..]; simpl; try done.
  - rewrite !length_app, length_take, length_drop. simpl. lia.
  - intros i Hi. rewrite nth_tree_app by lia. rewrite length_take.
    replace (Z.of_nat (Z.to_nat b `min` length (a_stk a))) with b by lia.
    case_decide; [|rewrite nth_tree_app, length_drop by lia;
      replace (Z.of_nat (length (a_stk a) - (length (a_stk a) - Z.to_nat n))) with n by lia; case_decide].
    + destruct (sim_stack _ _ _ _ _ i S) as (v&Hv&Hr); [lia|]. exists v. rewrite Hlow by lia. split; [done|].
      unfold nth_tree in *. by rewrite lookup_take_lt by lia.
    + destruct (sim_stack _ _ _ _ _ (r_dep r - n + (i - b)) S) as (v&Hv&Hr); [lia|]. exists v.
      replace i with (b + (i - b)) at 1 by lia. rewrite Hblk by lia. split; [done|].
      unfold nth_tree in *. rewrite lookup_drop. by replace (length (a_stk a) - Z.to_nat n + Z.to_nat (i - b))%nat with (Z.to_nat (r_dep r - n + (i - b))) by lia.
    + assert (i - b - n = 0 ∨ i - b - n = 1 ∨ i - b - n = 2) as [E|[E|E]] by lia; rewrite E.
      * replace i with (b + n) by lia. exists (val_int x). split; [done|apply val_int_repr].
      * replace i with (b + n + 1) by lia. exists (val_int y). split; [done|apply val_int_repr].
      * replace i with (b + n + 2) by lia. exists (val_int z). split; [done|apply val_int_repr].
Qed.

(** Taking over the frame with the continuation written back. *)
Lemma tail_write_sim st m objs r a b n x y z entry acc :
  sim st m objs r a → 0 ≤ b → 0 ≤ n → b + n ≤ r_dep r → b + n + 3 ≤ - stack_floor m →
  ∃ m1 m2 m3 m4, move_block m (r_dep r - n) b (Z.to_nat n) = Ret m1 ∧
    write_slot m1 (b + n) (val_int x) = Ret m2 ∧ write_slot m2 (b + n + 1) (val_int y) = Ret m3 ∧
    write_slot m3 (b + n + 2) (val_int z) = Ret m4 ∧ stack_floor m4 = stack_floor m ∧
    sim st m4 objs (mk_regs entry b entry acc (b + n + 3))
      (mk_amach entry b entry None
         (take (Z.to_nat b) (a_stk a) ++ drop (length (a_stk a) - Z.to_nat n) (a_stk a) ++ [Imm (val_int x); Imm (val_int y); Imm (val_int z)])).
Proof.
  intros S Hb Hn Hbn Hroom. pose proof (sim_clear _ _ _ _ _ _ S (or_intror Hroom)) as Hcl.
  destruct (sim_heap _ _ _ _ _ S) as (_&Hh&_).
  destruct (move_block_spec (Z.to_nat n) m (r_dep r - n) b) as (s&E&H1&H2); [lia..| |].
  { intros i Hi. destruct (sim_stack _ _ _ _ _ i S) as (v&Hv&_); [lia|]. by rewrite Hv. }
  assert (Hw : ∀ m' i v, mem_size m' = mem_size m → 0 ≤ i < b + n + 3 → write_slot m' i v = Ret (set_slots (<[i:=v]> (slots m')) m')).
  { intros m' i v Em Hi. unfold write_slot, slot_in_block. rewrite Em. destruct (Z.leb_spec 0 i); [|lia].
    by destruct (Z.leb_spec 0 (mem_size m - 8 * (i + 1))); [|lia]. }
  do 4 eexists. split; [exact E|]. split; [apply Hw; [done|lia]|]. split; [apply Hw; [done|lia]|]. split; [apply Hw; [done|lia]|].
  split; [done|]. simpl.
  refine (tail_sim st m objs r a b n (<[b + n + 2 := val_int z]> (<[b + n + 1 := val_int y]> (<[b + n := val_int x]> s))) x y z entry acc S _ _ _ _ _ _ _ _ _);
    try done; [by right|..].
  - intros j Hj. rewrite !lookup_insert_ne by lia. apply H2. lia.
  - intros i Hi. rewrite !lookup_insert_ne by lia. apply H1. lia.
  - by rewrite !lookup_insert_ne, lookup_insert_eq by lia.
  - by rewrite lookup_insert_ne, lookup_insert_eq by lia.
  - by rewrite lookup_insert_eq.
Qed.

Lemma stk_at_app stk u i t : stk_at stk i = Some t → stk_at (stk ++ u) i = Some t.
Proof. unfold stk_at. destruct (i <? 0); [done|]. intros H. by apply lookup_app_l_Some. Qed.

Lemma current_sim st m objs r a c :
  sim st m objs r a → stk_at (a_stk a) (a_base a) = Some c → current_fid r st m = Ret (afun c).
Proof.
  intros S Hc. unfold current_fid. rewrite (sm_base _ _ _ _ _ S). destruct (sim_slot _ _ _ _ _ _ _ S Hc) as (v&->&Hr).
  cbn [mbind outcome_bind]. rewrite (repr_tag _ _ _ _ Hr). destruct c as [w| |e ts| | |]; try done.
  - destruct Hr as (Ev&_&Hw). rewrite Ev in *. unfold afun. cbn [tree_tag]. destruct (val_tag w =? TAG_CLOS_ID); [done|].
    unfold is_heap_tag in Hw. rewrite !orb_false_iff in Hw. by destruct Hw as [[[[_ ->] _] _] _].
  - apply repr_clos in Hr as (fs&(_&_&_&->)&_). done.
Qed.

(** The self tail call: only the block moves. *)
Lemma self_tail_sim st m objs r a n ret base cbase entry fid :
  sim st m objs r a → 0 ≤ a_base a → 1 ≤ n ≤ r_dep r → a_base a ≤ r_dep r - n →
  stk_at (a_stk a) (a_base a + n) = Some (Imm ret) → stk_at (a_stk a) (a_base a + n + 1) = Some (Imm base) →
  stk_at (a_stk a) (a_base a + n + 2) = Some (Imm cbase) →
  val_is_int ret = true → val_is_int base = true → val_is_int cbase = true →
  check_arity im fid n = Ret tt → current_fid r st m = Ret (Some fid) → fn_field im fn_entry fid = Ret entry →
  ∃ m', exec_tcall cap im n fid r st m = Ret (LTick (mk_regs entry (a_base a) entry (r_acc r) (a_base a + n + 3)) st m') ∧
    stack_floor m' = stack_floor m ∧
    sim st m' objs (mk_regs entry (a_base a) entry (r_acc r) (a_base a + n + 3))
      (mk_amach entry (a_base a) entry None
         (take (Z.to_nat (a_base a)) (a_stk a) ++ drop (length (a_stk a) - Z.to_nat n) (a_stk a) ++
          [Imm (val_int (val_get_int ret)); Imm (val_int (val_get_int base)); Imm (val_int (val_get_int cbase))])).
Proof.
  intros S Hb Hn Hbn H1 H2 H3 T1 T2 T3 Ha Hc He. pose proof (sm_dep _ _ _ _ _ S) as Hd.
  destruct (nth_tree_at _ _ _ H3) as [Hr3 _]. pose proof (sim_clear _ _ _ _ _ (r_dep r) S ltac:(by left)) as Hcl.
  destruct (sim_heap _ _ _ _ _ S) as (_&Hh&_). unfold exec_tcall. rewrite Ha. cbn [mbind outcome_bind]. cbv zeta.
  rewrite Hc. cbn [mbind outcome_bind]. rewrite He, bool_decide_eq_true_2, (sm_base _ _ _ _ _ S) by done. cbn [mbind outcome_bind].
  destruct (move_block_spec (Z.to_nat n) m (r_dep r - n) (a_base a)) as (s&->&M1&M2); [lia..| |].
  { intros i Hi. destruct (sim_stack _ _ _ _ _ i S) as (v&Hv&_); [lia|]. by rewrite Hv. }
  cbn [mbind outcome_bind]. eexists. split; [done|]. split; [done|]. apply sim_sp.
  assert (Hk : ∀ i v, stk_at (a_stk a) i = Some (Imm v) → val_is_int v = true → a_base a + n ≤ i → s !! i = Some (val_int (val_get_int v))).
  { intros i v Hi Ht Hbi. destruct (sim_slot _ _ _ _ _ _ _ S Hi) as (w&Hw&->&Hr&_). rewrite M2, reinsert_int by (done || lia).
    unfold read_slot in Hw. by destruct (slots m !! i); simplify_eq/=. }
  eapply tail_sim; [exact S|lia..| | | | |]; try (by apply Hk; first [done|lia]).
  - intros j Hj. apply M2. lia.
  - intros i Hi. apply M1. lia.
Qed.

Lemma tcall_sim st m objs r a a' d :
  sim st m objs r a → r_dep r + 1 ≤ - stack_floor m → brk st + cap < ADDR_LIMIT →
  (∀ c f lo, a_stk a !! Z.to_nat (a_base a) = Some c → afun c = Some f → frame_lo im (a_base a) f = Some lo → stack_floor m ≤ lo) →
  abs_tcall im a = Some (a', d) →
  refines st m (exec_enter (exec_tcall cap im) r st m) (ATick a') d.
Proof.
  intros S Hfl Hb Hres. unfold abs_tcall. destruct (abs_block im a) as [[[n fid] stk]|] eqn:Eb; [|done]. cbn [mbind option_bind]. cbv zeta.
  destruct (block_sim _ _ _ _ _ _ _ _ S Hfl Eb) as (E1&E2&Hn&Hlen&Hstk&S1).
  pose proof Eb as (acc&f&_&_&Es&_&_&_&Hk)%abs_block_Some.
  destruct (Z.ltb_spec (a_base a) 0) as [|Hb0]; [done|].
  destruct (a_stk a !! Z.to_nat (a_base a)) as [c|] eqn:Ec; [|done]. cbn [mbind option_bind].
  assert (Hc : stk_at (a_stk a) (a_base a) = Some c) by (unfold stk_at; by destruct (Z.ltb_spec (a_base a) 0); [lia|]).
  assert (Hup : ∀ i t, stk_at (a_stk a) i = Some t → stk_at stk i = Some t) by (intros i t Hi; rewrite Es; by apply stk_at_app).
  pose proof (current_sim _ _ _ _ _ c S1 (Hup _ _ Hc)) as Hcur.
  set (okv := match afun c with Some f => afield im fn_args f | None => match c with Imm _ => Some 0 | _ => None end end).
  destruct okv as [ok|] eqn:Eok; [|done]. cbn [mbind option_bind].
  destruct (Z.ltb_spec ok 0); [done|]. destruct (Z.ltb_spec (Z.of_nat (length stk) - n) (a_base a)); [done|]. cbn [orb].
  destruct (stk_at (a_stk a) (a_base a + ok + 1)) as [[ret| | | | |]|] eqn:H1; try done.
  destruct (stk_at (a_stk a) (a_base a + ok + 2)) as [[base| | | | |]|] eqn:H2; try done.
  destruct (stk_at (a_stk a) (a_base a + ok + 3)) as [[cbase| | | | |]|] eqn:H3; try done.
  destruct (bool_decide (is_Some (afun c)) && negb (val_is_int ret && val_is_int base && val_is_int cbase)) eqn:Eint; [done|].
  destruct (frame_lo im (a_base a) fid) as [lo|] eqn:El; [|done]. cbn [mbind option_bind].
  pose proof El as (maxd&k&Hmax&Hk'&Hlo&Hrng&Hmk)%frame_lo_Some. assert (k = n - 1) as -> by congruence. unfold afield.
  destruct (fn_field im fn_entry fid) as [entry| | |] eqn:He; try done. cbn [to_opt mbind option_bind]. intros [= <- <-].
  unfold exec_enter. rewrite E1. cbn [mbind outcome_bind].
  destruct (decide (afun c = Some fid)) as [Hself|Hother].
  - unfold okv in Eok. rewrite Hself in *. unfold afield in Eok. rewrite Hk in Eok. simpl in Eok. injection Eok as <-.
    rewrite bool_decide_eq_true_2 in Eint by eauto. cbn [andb] in Eint.
    apply negb_false_iff in Eint. rewrite !andb_true_iff in Eint. destruct Eint as [[T1 T2] T3].
    replace (a_base a + (n - 1) + 1) with (a_base a + n) in H1 by lia. replace (a_base a + (n - 1) + 2) with (a_base a + n + 1) in H2 by lia.
    replace (a_base a + (n - 1) + 3) with (a_base a + n + 2) in H3 by lia.
    destruct (self_tail_sim _ _ _ _ _ n ret base cbase entry fid S1) as (m'&->&Hf&S2); try done; try (by apply Hup); [simpl; lia..|].
    eapply refines_tick; [done| |exact S2]. unfold floor_after. rewrite Hf. simpl. specialize (Hres c fid lo eq_refl Hself El). lia.
  - unfold exec_tcall. rewrite E2. cbn [mbind outcome_bind]. cbv zeta. rewrite Hcur. cbn [mbind outcome_bind]. rewrite He.
    rewrite bool_decide_eq_false_2 by done. cbn [mbind outcome_bind]. cbn [r_base with_dep r_dep]. rewrite (sm_base _ _ _ _ _ S).
    replace (match afun c with Some c0 => fn_field im fn_args c0 | None => Ret 0 end) with (Ret ok); cycle 1.
    { unfold okv, afield in Eok. destruct (afun c) as [g|]; [by apply to_opt_Some in Eok|]. destruct c; congruence. }
    cbn [mbind outcome_bind]. rewrite (imm_slot _ _ _ _ _ _ _ S1 (Hup _ _ H1)), (imm_slot _ _ _ _ _ _ _ S1 (Hup _ _ H2)), (imm_slot _ _ _ _ _ _ _ S1 (Hup _ _ H3)).
    cbn [mbind outcome_bind]. rewrite Hmax. cbn [mbind outcome_bind]. rewrite <- Hlo.
    destruct (reserve_sim _ _ _ _ _ lo S1) as [[E Hx]|(st'&m'&objs'&E&S2&_&Hf)]; [done|right; simpl; lia|done|..];
      cbn [r_dep with_dep] in E; rewrite E; cbn [mbind outcome_bind].
    { left. eauto. }
    unfold floor_after in Hf. simpl in Hf.
    destruct (tail_write_sim _ _ _ _ _ (a_base a) n (val_get_int ret) (val_get_int base) (val_get_int cbase) entry (r_acc r) S2)
      as (m1&m2&m3&m4&W1&W2&W3&W4&Hf4&S3); [simpl; lia..|]. cbn [r_dep with_dep] in *.
    rewrite W1. cbn [mbind outcome_bind]. rewrite W2. cbn [mbind outcome_bind]. rewrite W3. cbn [mbind outcome_bind].
    rewrite W4. cbn [mbind outcome_bind].
    eapply refines_tick; [done|unfold floor_after; simpl; by rewrite Hf4, Hf|]. apply sim_sp. exact S3.
Qed.
End Sim.

(** * The instructions on trees *)

(** C5: every instruction that stays inside a process has its meaning on
    trees, whatever the arena looks like: if the memory denotes a state of the
    tree machine, the operand slots were reserved by the frame, and the tree
    machine takes a step, then the interpreter reaches a memory denoting the
    machine's next state (the process dies exactly when the machine says so),
    even if the collector moved the heap or the arena grew on the way; it stops
    the VM only when the memory asked for cannot fit under the heap cap. *)
Theorem local_refines cap stress K im consts st m objs r a op x d :
  sim cap K im consts st m objs r a → r_dep r + pushes op ≤ - stack_floor m → brk st + 2 * cap + 16 < ADDR_LIMIT →
  abs_exec im consts op a = Some (x, d) →
  refines cap K im consts st m (exec_local cap stress im op r st m) x d.
Proof. apply local_sim. Qed.

(** C6: calls and tail calls.  A call of a function of the image enters it
    with a frame holding the function, its arguments and the caller's program
    counter, base and code base, on top of the caller's stack, and with the whole
    frame reserved; it stops the VM only when the frame cannot fit under the cap.
    A tail call takes over the frame in place: the new function and its arguments
    replace the old ones, the continuation is kept, and the stack below is
    untouched.  The self tail call, which neither reads nor writes the
    continuation and does not reserve, has the same meaning. *)
Theorem calls_refine cap K im consts st m objs r a a' d :
  sim cap K im consts st m objs r a → brk st + cap < ADDR_LIMIT →
  (r_dep r + 4 ≤ - stack_floor m → abs_call im a = Some (a', d) →
   refines cap K im consts st m (exec_enter cap im (exec_call cap im) r st m) (ATick a') d) ∧
  (r_dep r + 1 ≤ - stack_floor m →
   (∀ c f lo, a_stk a !! Z.to_nat (a_base a) = Some c → afun c = Some f → frame_lo im (a_base a) f = Some lo →
      stack_floor m ≤ lo) →
   abs_tcall im a = Some (a', d) →
   refines cap K im consts st m (exec_enter cap im (exec_tcall cap im) r st m) (ATick a') d).
Proof. intros S Hb. split; [intros Hd; by eapply call_sim|intros Hd Hl; by eapply tcall_sim]. Qed.

(** ** Call and return *)
Lemma cont_slots pre u junk j t : u !! j = Some t → stk_at ((pre ++ u) ++ junk) (Z.of_nat (length pre) + Z.of_nat j) = Some t.
Proof.
  intros Hj. apply stk_at_app. unfold stk_at. destruct (Z.ltb_spec (Z.of_nat (length pre) + Z.of_nat j) 0); [lia|].
  rewrite lookup_app_r by lia. by replace (_ - _)%nat with j by lia.
Qed.

Lemma cont_ret pre x y z junk : stk_at ((pre ++ [x; y; z]) ++ junk) (Z.of_nat (length pre) + Z.of_nat 0) = Some x.
Proof. by apply cont_slots. Qed.
Lemma cont_base pre x y z junk : stk_at ((pre ++ [x; y; z]) ++ junk) (Z.of_nat (length pre) + Z.of_nat 1) = Some y.
Proof. by apply cont_slots. Qed.
Lemma cont_cbase pre x y z junk : stk_at ((pre ++ [x; y; z]) ++ junk) (Z.of_nat (length pre) + Z.of_nat 2) = Some z.
Proof. by apply cont_slots. Qed.

(** RET behind a call. *)
Lemma ret_after_call im consts a a1 d fid n stk v junk pc :
  abs_block im a = Some (n, fid, stk) → abs_call im a = Some (a1, d) →
  - 2 ^ 47 ≤ a_pc a + 2 < 2 ^ 47 → - 2 ^ 47 ≤ a_base a < 2 ^ 47 → - 2 ^ 47 ≤ a_cbase a < 2 ^ 47 →
  word im (pc + 1) = Ret (n - 1) →
  abs_exec im consts LOP_RET (mk_amach pc (a_base a1) (a_cbase a1) (Some v) (a_stk a1 ++ junk)) =
    Some (ATick (mk_amach (a_pc a + 2) (a_base a) (a_cbase a) (Some v) (take (length stk - Z.to_nat n) stk)), DNone).
Proof.
  intros Eb. unfold abs_call. rewrite Eb. cbn [mbind option_bind]. cbv zeta. apply abs_block_Some in Eb as (acc&f&_&_&Es&Hn&_).
  destruct (frame_lo _ _ _) as [lo|]; [|done]. cbn [mbind option_bind]. destruct (afield _ _ _) as [entry|]; [|done]. cbn [mbind option_bind].
  intros [= <- _] Hpc Hb Hc Hk. change (abs_exec im consts LOP_RET) with (abs_ret im). unfold abs_ret.
  cbn [a_pc a_base a_cbase a_acc a_stk].
  unfold aword. rewrite Hk. cbn [to_opt mbind option_bind].
  destruct (Z.ltb_spec (Z.of_nat (length stk) - n) 0); [lia|].
  replace (Z.of_nat (length stk) - n + (n - 1) + 1) with (Z.of_nat (length stk) + Z.of_nat 0) by lia.
  replace (Z.of_nat (length stk) - n + (n - 1) + 2) with (Z.of_nat (length stk) + Z.of_nat 1) by lia.
  replace (Z.of_nat (length stk) - n + (n - 1) + 3) with (Z.of_nat (length stk) + Z.of_nat 2) by lia.
  rewrite cont_ret, cont_base, cont_cbase.
  rewrite !length_app. cbn [length]. destruct (Z.ltb_spec (Z.of_nat (length stk + 3 + length junk)) (Z.of_nat (length stk) - n)); [lia|].
  rewrite !val_get_int_id by done. rewrite <- app_assoc, take_app_le by lia. by replace (Z.to_nat (Z.of_nat (length stk) - n)) with (length stk - Z.to_nat n)%nat by lia.
Qed.

Lemma abs_ret_Some im a b d :
  abs_ret im a = Some (ATick b, d) → ∃ k ret base cbase, word im (a_pc a + 1) = Ret k ∧ 0 ≤ a_base a ≤ Z.of_nat (length (a_stk a)) ∧
    stk_at (a_stk a) (a_base a + k + 1) = Some (Imm ret) ∧ stk_at (a_stk a) (a_base a + k + 2) = Some (Imm base) ∧
    stk_at (a_stk a) (a_base a + k + 3) = Some (Imm cbase) ∧ d = DNone ∧
    b = mk_amach (val_get_int ret) (val_get_int base) (val_get_int cbase) (a_acc a) (take (Z.to_nat (a_base a)) (a_stk a)).
Proof.
  unfold abs_ret, aword. destruct (word im (a_pc a + 1)) as [k| | |]; try done. cbn [to_opt mbind option_bind].
  destruct (Z.ltb_spec (a_base a) 0); [done|].
  destruct (stk_at (a_stk a) (a_base a + k + 1)) as [[ret| | | | |]|] eqn:E1; try done.
  destruct (stk_at (a_stk a) (a_base a + k + 2)) as [[base| | | | |]|] eqn:E2; try done.
  destruct (stk_at (a_stk a) (a_base a + k + 3)) as [[cbase| | | | |]|] eqn:E3; try done.
  destruct (Z.ltb_spec (Z.of_nat (length (a_stk a))) (a_base a)); [done|]. intros [= <- <-].
  exists k, ret, base, cbase. split_and!; done || lia.
Qed.

(** What a tail call leaves: the frame below, the block, the continuation of
    the frame it replaced. *)
Lemma abs_tcall_Some im a a1 d n fid stk c f k ret base cbase :
  abs_block im a = Some (n, fid, stk) → abs_tcall im a = Some (a1, d) →
  a_stk a !! Z.to_nat (a_base a) = Some c → afun c = Some f → fn_field im fn_args f = Ret k →
  stk_at (a_stk a) (a_base a + k + 1) = Some (Imm ret) → stk_at (a_stk a) (a_base a + k + 2) = Some (Imm base) →
  stk_at (a_stk a) (a_base a + k + 3) = Some (Imm cbase) →
  0 ≤ a_base a ≤ Z.of_nat (length stk) - n ∧ a_base a1 = a_base a ∧
  a_stk a1 = (take (Z.to_nat (a_base a)) stk ++ drop (length stk - Z.to_nat n) stk) ++
    [Imm (val_int (val_get_int ret)); Imm (val_int (val_get_int base)); Imm (val_int (val_get_int cbase))].
Proof.
  intros Eb E Hc Hf Hk H1 H2 H3. unfold abs_tcall in E. rewrite Eb in E. cbn [mbind option_bind] in E. cbv zeta in E.
  destruct (Z.ltb_spec (a_base a) 0); [done|]. rewrite Hc in E. cbn [mbind option_bind] in E. rewrite Hf in E. unfold afield in E.
  rewrite Hk in E. cbn [to_opt mbind option_bind] in E. destruct (Z.ltb_spec k 0); [done|].
  destruct (Z.ltb_spec (Z.of_nat (length stk) - n) (a_base a)); [done|]. cbn [orb] in E. rewrite H1, H2, H3 in E.
  destruct (_ && _) in E; [done|]. destruct (frame_lo _ _ _) in E; [|done]. cbn [mbind option_bind] in E.
  destruct (to_opt _) in E; [|done]. cbn [mbind option_bind] in E. injection E as <- _. cbn [a_base a_stk].
  split; [lia|]. split; [done|]. by rewrite app_assoc.
Qed.

(** RET behind a tail call. *)
Lemma ret_after_tail_call im consts a a1 d n fid stk c f k pc pc1 v junk b :
  abs_block im a = Some (n, fid, stk) → abs_tcall im a = Some (a1, d) →
  a_stk a !! Z.to_nat (a_base a) = Some c → afun c = Some f → fn_field im fn_args f = Ret k →
  word im (pc + 1) = Ret k → word im (pc1 + 1) = Ret (n - 1) →
  abs_exec im consts LOP_RET (mk_amach pc (a_base a) (a_cbase a) (Some v) (a_stk a)) = Some (ATick b, DNone) →
  abs_exec im consts LOP_RET (mk_amach pc1 (a_base a1) (a_cbase a1) (Some v) (a_stk a1 ++ junk)) = Some (ATick b, DNone).
Proof.
  change (abs_exec im consts LOP_RET) with (abs_ret im). intros Eb E Hc Hf Hk Hw Hw1 (k'&ret&base&cbase&Hw'&Hb&H1&H2&H3&_&->)%abs_ret_Some.
  cbn [a_pc a_base a_stk a_acc] in *. assert (k' = k) as -> by congruence.
  destruct (abs_tcall_Some _ _ _ _ _ _ _ _ _ _ _ _ _ Eb E Hc Hf Hk H1 H2 H3) as (Hr&->&->).
  apply abs_block_Some in Eb as (acc&g&_&_&Es&Hn&_).
  unfold abs_ret, aword. cbn [a_pc a_base a_stk a_acc]. rewrite Hw1. cbn [to_opt mbind option_bind].
  destruct (Z.ltb_spec (a_base a) 0); [lia|].
  set (pre := take (Z.to_nat (a_base a)) stk ++ drop (length stk - Z.to_nat n) stk).
  assert (Hl : Z.of_nat (length pre) = a_base a + n) by (unfold pre; rewrite length_app, length_take, length_drop; lia).
  replace (a_base a + (n - 1) + 1) with (Z.of_nat (length pre) + Z.of_nat 0) by lia.
  replace (a_base a + (n - 1) + 2) with (Z.of_nat (length pre) + Z.of_nat 1) by lia.
  replace (a_base a + (n - 1) + 3) with (Z.of_nat (length pre) + Z.of_nat 2) by lia.
  rewrite cont_ret, cont_base, cont_cbase, !length_app. cbn [length].
  destruct (Z.ltb_spec (Z.of_nat (length pre + 3 + length junk)) (a_base a)); [lia|].
  rewrite !val_get_int_id by apply val_get_int_range. do 3 f_equal. unfold pre.
  rewrite <- !app_assoc, take_app_le by (rewrite length_take; lia). rewrite take_take, Nat.min_id, Es.
  by rewrite take_app_le by lia.
Qed.


(** ** Concrete instances *)

(** A process with a stack of words over the heap of [w_proc], and an image
    with a call (word 0), a tail call (word 4) and a return (word 10). *)
Definition w_mem (vs : list Val) : ProcMem := set_stack_floor (-20) (set_slots (map_seqZ 0 vs) w_proc).
Definition w_image : Image := mk_Image [22; 2; 0; 0; 23; 2; 0; 0; 0; 0; 24; 1] [0; 10] [0; 1] [8; 8] [].
Definition w_fn : Val := lbox TAG_CLOS_ID 1.
Definition w_regs (vs : list Val) (pc acc : Z) : regs := mk_regs pc 0 0 acc (Z.of_nat (length vs)).
Definition w_mach (vs : list Val) (pc acc : Z) : amach := mk_amach pc 0 0 (Some (Imm acc)) (Imm <$> vs).
Definition no_const (_ : Z) : Prop := False.
Definition word_imm (v : Val) : bool := match imm v with Some _ => true | None => false end.

Lemma word_imm_repr v F st : word_imm v = true → repr F st v (Imm v).
Proof. unfold word_imm. destruct (imm v) as [t|] eqn:E; [|done]. pose proof E as E'. unfold imm in E'. destruct (_ && _); [|done].
  injection E' as <-. intros _. by apply imm_repr. Qed.

Lemma w_sim vs pc acc :
  (length vs ≤ 20)%nat → forallb word_imm vs = true → word_imm acc = true →
  sim 4096 no_const w_image [] w_store (w_mem vs) w_objs (w_regs vs pc acc) (w_mach vs pc acc).
Proof.
  intros Hlen Hvs Hacc. rewrite forallb_forall in Hvs.
  assert (Hfit : Z.of_nat (length vs) ≤ 20) by lia. split; try done.
  - eapply (actor_restack 4096 no_const _ w_proc); [apply w_actor_ok|done..| | | |]; simpl; [lia..|].
    intros i Hi. destruct (lookup_lt_is_Some_2 vs (Z.to_nat i)) as [v Hv]; [lia|]. exists v. split.
    + unfold w_mem. simpl. apply lookup_map_seqZ_Some. split; [lia|]. by replace (Z.to_nat (i - 0)) with (Z.to_nat i) by lia.
    + unfold nth_tree. rewrite list_lookup_fmap, Hv. apply word_imm_repr, Hvs.
      apply list_elem_of_In. by eapply list_elem_of_lookup_2.
  - unfold fits, proc_stack_lo. simpl. destruct (_ <? _); lia.
  - simpl. by rewrite length_fmap.
  - intros t [= <-]. by apply word_imm_repr.
Qed.

(** Consing 5 onto the list on the stack. *)
Lemma local_refines_witness :
  refines 4096 no_const w_image [] w_store (w_mem [val_nil])
    (exec_local 4096 0 w_image LOP_CONS (w_regs [val_nil] 0 (val_int 5)) w_store (w_mem [val_nil]))
    (ANext (mk_amach 1 0 0 (Some (TPair (Imm val_nil) (Imm (val_int 5)))) [])) (DHeap SIZEOF_PAIR).
Proof.
  apply (local_refines 4096 0 no_const w_image [] w_store (w_mem [val_nil]) w_objs (w_regs [val_nil] 0 (val_int 5)) (w_mach [val_nil] 0 (val_int 5))).
  - by apply w_sim; [simpl; lia|..].
  - vm_compute. congruence.
  - vm_compute. reflexivity.
  - reflexivity.
Defined.

(** Calling function 1 with the argument 5. *)
(** Function 1 calls itself in tail position with the argument 6. *)
Definition w_frame : list Val := [w_fn; val_int 5; val_int 2; val_int 0; val_int 0; w_fn].
Lemma calls_refine_witness :
  refines 4096 no_const w_image [] w_store (w_mem [w_fn])
    (exec_enter 4096 w_image (exec_call 4096 w_image) (w_regs [w_fn] 0 (val_int 5)) w_store (w_mem [w_fn]))
    (ATick (mk_amach 10 0 10 None [Imm w_fn; Imm (val_int 5); Imm (val_int 2); Imm (val_int 0); Imm (val_int 0)])) (DFrame (-9)) ∧
  refines 4096 no_const w_image [] w_store (w_mem w_frame)
    (exec_enter 4096 w_image (exec_tcall 4096 w_image) (w_regs w_frame 4 (val_int 6)) w_store (w_mem w_frame))
    (ATick (mk_amach 10 0 10 None [Imm w_fn; Imm (val_int 6); Imm (val_int 2); Imm (val_int 0); Imm (val_int 0)])) (DFrame (-9)).
Proof.
  split.
  - refine (proj1 (calls_refine 4096 no_const w_image [] w_store (w_mem [w_fn]) w_objs (w_regs [w_fn] 0 (val_int 5)) (w_mach [w_fn] 0 (val_int 5)) _ _ _ _) _ _).
    + by apply w_sim; [simpl; lia|..].
    + vm_compute. reflexivity.
    + vm_compute. congruence.
    + vm_compute. reflexivity.
  - refine (proj2 (calls_refine 4096 no_const w_image [] w_store (w_mem w_frame) w_objs (w_regs w_frame 4 (val_int 6)) (w_mach w_frame 4 (val_int 6)) _ _ _ _) _ _ _).
    + by apply w_sim; [simpl; lia|..].
    + vm_compute. reflexivity.
    + vm_compute. congruence.
    + intros c f lo Hc Hf. change (Some (Imm w_fn) = Some c) in Hc. injection Hc as <-.
      change (Some 1 = Some f) in Hf. injection Hf as <-. intros Hl. change (Some (-9) = Some lo) in Hl. injection Hl as <-.
      vm_compute. congruence.
    + vm_compute. reflexivity.
Defined.

