(* ===== verification/Slice.v ===== *)
(** Time slices: [run_proc] always comes back. *)
From stdpp Require Import base tactics list gmap strings.
From Stdlib Require Import ZArith Lia.
From S2P Require Import Prelude Values Heap Resource Gc Alloc Copy Fragment Runq Mailbox Symtab Vm Sched Builtin Ccall Interp Depth.
Open Scope Z_scope.

(** * Straight-line instructions advance *)
Lemma LNext_inj r st m r' st' m' : LNext r st m = LNext r' st' m' → r = r'.
Proof. by intros [=]. Qed.
Ltac advances :=
  unfold exec_loadf, exec_reserve, exec_cons, exec_field, exec_ret, exec_make_closure, exec_binary, exec_cmp, exec_jif_cmp, pop_val;
  intros H; returns;
  match goal with
  | E : LNext _ _ _ = LNext _ _ _ |- _ => apply LNext_inj in E as <-; cbn [r_pc advance jump with_acc with_dep]; lia
  | E : _ = LNext _ _ _ |- _ => discriminate E
  end.
Lemma local_next cap stress im op r st m r' st' m' :
  exec_local cap stress im op r st m = Ret (LNext r' st' m') → r_pc r < r_pc r'.
Proof.
  unfold exec_local.
  repeat match goal with |- (if ?b then _ else _) = _ → _ => destruct b; [advances|] end. done.
Qed.
Lemma call_ticks cap im n fid r st m l : exec_call cap im n fid r st m = Ret l → ∃ r' st' m', l = LTick r' st' m'.
Proof. unfold exec_call. intros H. returns; eauto. Qed.
Lemma tcall_ticks cap im n fid r st m l : exec_tcall cap im n fid r st m = Ret l → ∃ r' st' m', l = LTick r' st' m'.
Proof. unfold exec_tcall. intros H. returns; eauto. Qed.

(** * The image never changes *)
Lemma wake_image vm p vm' : vm_wait_unregister vm p = Ret vm' → v_image vm' = v_image vm.
Proof. unfold vm_wait_unregister, wait_unregister_locked. intros H. by returns. Qed.
Lemma enqueue_image vm p vm' : vm_enqueue vm p = Ret vm' → v_image vm' = v_image vm.
Proof. unfold vm_enqueue. intros H. by returns. Qed.
Lemma intern_image n vm name id vm' : intern_vm n vm name = Ret (id, vm') → v_image vm' = v_image vm.
Proof. unfold intern_vm. intros H. by returns. Qed.
Lemma deliver_image n cur vm t msg rc vm' : mbox_deliver n cur vm t msg = Ret (rc, vm') → v_image vm' = v_image vm.
Proof.
  unfold mbox_deliver. intros H. returns; try done;
  repeat match goal with
  | E : vm_enqueue _ _ = Ret _ |- _ => rewrite (enqueue_image _ _ _ E); clear E
  | E : vm_wait_unregister _ _ = Ret _ |- _ => rewrite (wake_image _ _ _ E); clear E
  end; done.
Qed.

Section Image.
Context (cap stress : Z) (fuel sym_fuel : nat) (clock : nat → Z).

Lemma push_image vm p v vm' : vm_push cap vm p v = Ret vm' → v_image vm' = v_image vm.
Proof. unfold vm_push. intros H. by returns. Qed.
Lemma pop_image vm p v vm' : vm_pop vm p = Ret (v, vm') → v_image vm' = v_image vm.
Proof. unfold vm_pop. intros H. by returns. Qed.
Lemma drain_image vm p vm' : vm_drain cap vm p = Ret vm' → v_image vm' = v_image vm.
Proof. unfold vm_drain. intros H. by returns. Qed.
Lemma mbox_pop_image vm p v vm' : mbox_pop cap stress fuel vm p = Ret (v, vm') → v_image vm' = v_image vm.
Proof. unfold mbox_pop. intros H. by returns. Qed.
Lemma noproc_image cur vm p tpid ref vm' :
  deliver_noproc cap stress fuel sym_fuel cur vm p tpid ref = Ret vm' → v_image vm' = v_image vm.
Proof.
  unfold deliver_noproc. intros H. returns.
  match goal with E : mbox_deliver _ _ _ _ _ = _ |- _ => apply deliver_image in E end.
  repeat match goal with E : intern_vm _ _ _ = _ |- _ => apply intern_image in E end.
  cbn [v_image put_mem on_proc set_v_store set_v_procs] in *. congruence.
Qed.
Lemma frame_init_image vm p fid v vm' : proc_frame_init cap vm p fid v = Ret vm' → v_image vm' = v_image vm.
Proof. unfold proc_frame_init. intros H. by returns. Qed.

Lemma builtin_code vm p id n pc base cbase d c vm' :
  do_builtin cap stress fuel sym_fuel clock vm p id n pc base cbase d = Ret (c, vm') → c = 0 ∨ c = 1 ∨ c = 2.
Proof.
  unfold do_builtin, do_spawn, do_send, do_recv, do_monitor, do_recv_after, do_recv_peek, do_recv_commit, pop_acc, block_recv, do_builtin_die.
  cbv zeta. intros H. repeat case_match; try done; returns; auto.
Qed.

Ltac image_step :=
  match goal with
  | E : vm_push _ _ _ _ = Ret _ |- _ => apply push_image in E
  | E : vm_pop _ _ = Ret _ |- _ => apply pop_image in E
  | E : vm_drain _ _ _ = Ret _ |- _ => apply drain_image in E
  | E : mbox_pop _ _ _ _ _ = Ret _ |- _ => apply mbox_pop_image in E
  | E : mbox_deliver _ _ _ _ _ = Ret _ |- _ => apply deliver_image in E
  | E : vm_enqueue _ _ = Ret _ |- _ => apply enqueue_image in E
  | E : vm_wait_unregister _ _ = Ret _ |- _ => apply wake_image in E
  | E : proc_frame_init _ _ _ _ _ = Ret _ |- _ => apply frame_init_image in E
  | E : deliver_noproc _ _ _ _ _ _ _ _ _ = Ret _ |- _ => apply noproc_image in E
  | E : block_recv _ _ _ _ _ _ = Ret (0, _) |- _ => by apply block_code in E
  | E : do_builtin_die _ _ _ _ _ _ _ _ _ _ _ = Ret (0, _) |- _ => by apply die_code in E
  end.
Ltac image_kept :=
  repeat image_step;
  cbn [v_image put_mem on_proc set_v_store set_v_procs pub_sp set_acc disarm set_deadline set_v_recv_armed set_v_reads set_v_next_ref
       set_v_next_pid put_proc set_v_table set_v_procs_count set_v_active] in *; congruence.

Lemma builtin_image vm p id n pc base cbase d vm' :
  do_builtin cap stress fuel sym_fuel clock vm p id n pc base cbase d = Ret (0, vm') → v_image vm' = v_image vm.
Proof.
  unfold do_builtin. cbv zeta.
  destruct (id =? LB_SELF); [intros H; by returns|].
  destruct (id =? LB_SPAWN); [unfold do_spawn, proc_new; intros H; returns; image_kept|].
  destruct (id =? LB_SEND); [unfold do_send; intros H; returns; image_kept|].
  destruct (id =? LB_RECV); [unfold do_recv; intros H; returns; image_kept|].
  destruct (id =? LB_MONITOR); [unfold do_monitor, b_monitor, pop_acc; intros H; returns; image_kept|].
  destruct (id =? LB_RECV_AFTER); [unfold do_recv_after, b_recv_after, pop_acc, mono_now_ms; intros H; returns; image_kept|].
  destruct (id =? LB_RECV_PEEK); [unfold do_recv_peek, b_recv_peek, pop_acc; intros H; returns; image_kept|].
  destruct (id =? LB_RECV_COMMIT); [unfold do_recv_commit, b_recv_commit; intros H; returns; image_kept|done].
Qed.
End Image.

(** * Bound *)
Section Bound.
Context (cap stress : Z) (fuel sym_fuel : nat) (clock : nat → Z).
Context (cfunc_nargs : list Z) (cfunc_code : Z → VM → list Val → outcome (Val * VM)) (ccall_buf : Z).

(** C functions do not touch the loaded image. *)
Context (cfunc_image : ∀ cf vm args v vm', cfunc_code cf vm args = Ret (v, vm') → v_image vm' = v_image vm).

Lemma ccall_image vm p cf n base pc cbase d vm' :
  do_ccall cap stress fuel sym_fuel cfunc_nargs cfunc_code ccall_buf vm p cf n base pc cbase d = Ret (0, vm') → v_image vm' = v_image vm.
Proof.
  unfold do_ccall. intros H. returns; try lia; try (by apply die_code in H);
  match goal with E : cfunc_code _ _ _ = _ |- _ => exact (cfunc_image _ _ _ _ _ E) end.
Qed.

Notation step := (step cap stress fuel sym_fuel clock cfunc_nargs cfunc_code ccall_buf).
Notation run_loop := (run_loop cap stress fuel sym_fuel clock cfunc_nargs cfunc_code ccall_buf).
Notation run_proc := (run_proc cap stress fuel sym_fuel clock cfunc_nargs cfunc_code ccall_buf).

Definition code_len (vm : VM) : Z := Z.of_nat (length (words (v_image vm))).

(** A step that goes on either spends budget or moves forward in the code. *)
Definition progress (r : regs) (b : Z) (vm : VM) (r' : regs) (b' : Z) (vm' : VM) : Prop :=
  v_image vm' = v_image vm ∧ (b' = b - 1 ∧ 0 < b' ∨ b' = b ∧ r_pc r < r_pc r').

Lemma tick_progress r0 r b vm p r' b' vm' : tick r b vm p = Next r' b' vm' → progress r0 b vm r' b' vm'.
Proof.
  unfold tick. destruct (Z.leb_spec (b - 1) 0); [done|]. intros [= <- <- <-]. split; [done|]. left. lia.
Qed.
Lemma finish_progress r l b vm p r' b' vm' :
  (∀ r1 st m, l = LNext r1 st m → r_pc r < r_pc r1) →
  finish cap stress fuel sym_fuel l b vm p = Ret (Next r' b' vm') → progress r b vm r' b' vm'.
Proof.
  intros Hl. unfold finish, die_isolated. intros H. destruct l as [r1 st m|r1 st m|why r1 st m].
  - injection H as <- <- <-. split; [done|]. right. split; [done|]. by eapply Hl.
  - apply Ret_inj in H. by apply (tick_progress r) in H as [? ?].
  - returns. done.
Qed.
Lemma step_call_progress enter r b vm p r' b' vm' :
  (∀ n fid r st m l, enter n fid r st m = Ret l → ∃ r' st' m', l = LTick r' st' m') →
  step_call cap stress fuel sym_fuel cfunc_nargs cfunc_code ccall_buf enter r b vm p = Ret (Next r' b' vm') → progress r b vm r' b' vm'.
Proof.
  intros He. unfold step_call. intros H. apply bind_Ret in H as (pr&_&H). apply bind_Ret in H as ([[[[n c] r1] st] m]&Hc&H).
  assert (Hpc : r_pc r1 = r_pc r) by (unfold call_common in Hc; clear H; by returns).
  destruct c as [fid|cf].
  - apply bind_Ret in H as (l&Hl&H). apply He in Hl as (r2&st2&m2&->). eapply finish_progress; [|exact H]. done.
  - apply bind_Ret in H as ([code vm1]&Hd&H). destruct (Z.eqb_spec code 0) as [->|]; cbn [negb] in H; [|done].
    apply ccall_image in Hd. returns. injection H as <- <- <-. split; [exact Hd|]. right. cbn. rewrite Hpc. lia.
Qed.
Lemma step_builtin_progress r b vm p r' b' vm' :
  step_builtin cap stress fuel sym_fuel clock r b vm p = Ret (Next r' b' vm') → progress r b vm r' b' vm'.
Proof.
  unfold step_builtin. intros H. apply bind_Ret in H as (id&_&H). apply bind_Ret in H as (n&_&H).
  apply bind_Ret in H as ([bl vm1]&Hb&H). destruct (Z.eqb_spec bl 1); [done|]. destruct (Z.eqb_spec bl 2); [done|].
  destruct (builtin_code _ _ _ _ _ _ _ _ _ _ _ _ _ _ _ Hb) as [->|[?|?]]; [|done..].
  apply builtin_image in Hb. apply bind_Ret in H as (pr&_&H). apply bind_Ret in H as (dp&_&H). apply Ret_inj in H.
  apply (tick_progress r) in H as [Hi H]. split; [|done]. rewrite Hi. exact Hb.
Qed.

Lemma step_progress r b vm p r' b' vm' :
  step r b vm p = Ret (Next r' b' vm') → 0 ≤ r_pc r < code_len vm ∧ progress r b vm r' b' vm'.
Proof.
  unfold Interp.step. intros H. apply bind_Ret in H as (op&Hw&H).
  split.
  { unfold word in Hw. destruct (Z.ltb_spec (r_pc r) 0); [done|]. apply or_undef_Ret, lookup_lt_Some in Hw. unfold code_len. lia. }
  destruct (op =? LOP_CALL); [eapply step_call_progress; [|exact H]; intros; by eapply call_ticks|].
  destruct (op =? LOP_TCALL); [eapply step_call_progress; [|exact H]; intros; by eapply tcall_ticks|].
  destruct (op =? LOP_BUILTIN); [by eapply step_builtin_progress|].
  destruct ((op =? LOP_RET) && (r_base r =? 0)); [unfold step_exit in H; returns; done|].
  apply bind_Ret in H as (pr&_&H). apply bind_Ret in H as (l&Hl&H). eapply finish_progress; [|exact H].
  intros r1 st m ->. by eapply local_next.
Qed.

(** Instructions left: the straight-line ones of this stretch and of one
    stretch per unit of budget. *)
Definition steps_left (r : regs) (b : Z) (vm : VM) : Z := b * (code_len vm + 1) + (code_len vm - r_pc r).

Lemma step_outside r b vm p : ¬ (0 ≤ r_pc r < code_len vm) → step r b vm p = Undef.
Proof.
  intros Hpc. unfold Interp.step, word. destruct (Z.ltb_spec (r_pc r) 0); [done|].
  rewrite (proj2 (lookup_ge_None _ _)); [done|]. unfold code_len in Hpc. lia.
Qed.

Lemma run_loop_bound n k r b vm p :
  0 ≤ b → steps_left r b vm < Z.of_nat n → (0 < n)%nat →
  run_loop (n + k) r b vm p = run_loop n r b vm p ∧
  (run_loop n r b vm p ≠ NoFuel ∨ ∃ r' b' vm', step r' b' vm' p = NoFuel).
Proof.
  revert r b vm. induction n as [|n IH]; intros r b vm Hb Hn Hpos; [lia|]. cbn [Nat.add Interp.run_loop].
  destruct (step r b vm p) as [x| | |] eqn:E; cbn [mbind outcome_bind]; try (by split; [done|left]); [|by split; [done|right; eauto]].
  destruct x as [r' b' vm'|]; [|by split; [done|left]]. destruct (step_progress _ _ _ _ _ _ _ E) as [Hpc [Hi Hp]].
  assert (Hl : code_len vm' = code_len vm) by (unfold code_len; by rewrite Hi).
  assert (Hn1 : (0 < n)%nat) by (unfold steps_left in Hn; nia).
  destruct (decide (0 ≤ r_pc r' < code_len vm)) as [Hpc'|Hout].
  - apply (IH r' b' vm'); [lia|unfold steps_left in *; rewrite Hl; nia|done].
  - destruct n as [|n]; [lia|]. cbn [Nat.add Interp.run_loop]. rewrite step_outside by (by rewrite Hl). by split; [|left].
Qed.

End Bound.
