(* ===== verification/Programs.v ===== *)
(** Whole programs run by the interpreter. *)
From stdpp Require Import base tactics list gmap strings.
From Stdlib Require Import ZArith Lia.
From S2P Require Import Prelude Values Heap Resource Gc Tree Alloc Copy Fragment Runq Mailbox Symtab Vm Sched Builtin Ccall Interp Depth Slice.
Open Scope Z_scope.

(** A machine with an image and no process, and the entry process on it. *)
Definition vm_start (im : Image) : VM :=
  mk_VM (mk_store ∅ ∅ [] 4096) ∅ ∅ 16 0 [] (runq_new 4) 0 0 im 0 false false false val_nil symtab_new 0 0 [] 0 false 0 [] 0.
Definition boot (im : Image) : outcome VM :=
  '(p, vm) ← proc_new (vm_start im);
  proc_frame_init 65536 vm p 0 val_nil.
(** One slice of the entry process, the clock standing still. *)
Definition slice (vm : VM) : outcome (Z * VM) :=
  run_proc 65536 0 100 100 (λ _, 0) [] (λ _ _ _, Undef) 0 2000 vm 0.
Definition post (v : Val) (vm : VM) : outcome VM := '(_, vm) ← mbox_deliver 100 None vm 0 v; Ret vm.

(** [1 + recv_after(100)]. *)
Definition add_received : Image :=
  mk_Image [LOP_CONST_I; 1; LOP_PUSH; LOP_CONST_I; 100; LOP_BUILTIN; LB_RECV_AFTER; 1; LOP_ADD; LOP_RET; 0] [0] [0] [8] [].
(** The message is there before the program runs. *)
Definition message_first : outcome (Z * Val) :=
  vm ← boot add_received; vm ← post (val_int 5) vm; '(c, vm) ← slice vm; Ret (c, v_exit_val vm).
(** The program blocks, then the message arrives. *)
Definition message_later : outcome (Z * Z * Val) :=
  vm ← boot add_received; '(c, vm) ← slice vm; vm ← post (val_int 5) vm; '(c', vm) ← slice vm; Ret (c, c', v_exit_val vm).

(** The program [1 + recv_after(100)] receiving 5 yields the integer 6 when
    the message is already there, but the float 5.0 when it has to wait for
    it: the slot left behind by the blocked [recv_after] becomes the left
    operand of the addition. *)
Theorem recv_after_wait_changes_result :
  message_first = Ret (R_DIED, val_int 6) ∧
  message_later = Ret (R_BLOCKED, R_DIED, val_float (double_of_int 5)).
Proof. split; vm_compute; reflexivity. Qed.

(** The endless loop [JUMP 0] yields. *)
Definition endless : Image := mk_Image [LOP_JUMP; 0] [0] [0] [8] [].
Definition w_endless : VM := match boot endless with Ret vm => vm | _ => vm_start endless end.
