(* ===== verification/Trace.v ===== *)
(** Stack traces: [lisp_walk_stack] of src/main.c, [vm_walk_stack] and
    [vm_fn_name] of src/vm.c, and the crash report of [proc_die] in
    src/scheduler.c.

    The walk reads the continuations that calls leave on the stack of a
    process.  [frames] is the chain of active calls on the stack of the tree
    machine of Machine.v; calls, tail calls and returns push, replace and pop its
    head, and the walk over the process's memory returns it. *)
From stdpp Require Import base tactics list gmap strings.
From Stdlib Require Import ZArith Lia.
From S2P Require Import Prelude Values Heap Resource Gc GcCorrect GcSpec Tree Alloc Copy Symtab Vm Builtin Interp Machine.
Open Scope Z_scope.

(** * The code *)
(** The loop over [fn_entry], whose entries grow. *)
Fixpoint fid_loop (entries : list Z) (i pc : Z) : Z :=
  match entries with
  | [] => -1
  | e :: rest =>
      if pc <? e then -1
      else match rest with
           | [] => i
           | e' :: _ => if pc <? e' then i else fid_loop rest (i + 1) pc
           end
  end.
Definition lisp_fid_of_pc (im : Image) (pc : Z) : Z := fid_loop (fn_entry im) 0 pc.
Definition walk_slot (m : ProcMem) (i : Z) : outcome Val := read_slot m i.
Fixpoint walk_loop (max_depth : nat) (im : Image) (m : ProcMem) (live pc base : Z) : outcome (list Z) :=
  match max_depth with
  | O => Ret []
  | S max_depth =>
      let fid := lisp_fid_of_pc im pc in
      if fid <? 0 then Ret []
      else
        out ← (if base =? 0 then Ret []
               else
                 nargs ← fn_field im fn_args fid;
                 if live <? base + nargs + 3 then Ret []
                 else
                   ret ← walk_slot m (base + nargs + 1);
                   caller ← walk_slot m (base + nargs + 2);
                   walk_loop max_depth im m live (val_get_int ret) (val_get_int caller));
        Ret (fid :: out)
  end.
(** [pc] and [base] are the published ones. *)
Definition lisp_walk_stack (im : Image) (m : ProcMem) (pc base : Z) (max_depth : nat) : outcome (list Z) :=
  if 0 <=? sp m then Ret [] else walk_loop max_depth im m (- sp m) pc base.
(** The hook is set once an image is loaded. *)
Definition vm_walk_stack (hook : bool) (im : Image) (m : ProcMem) (pc base : Z) (max_depth : nat) : outcome (list Z) :=
  if hook then lisp_walk_stack im m pc base max_depth else Ret [].

(** The name of a function: its constant must be a known symbol. *)
Definition frame_name (consts : list Val) (t : symtab) (ci : Z) : option string :=
  if (ci <? 0) || (Z.of_nat (length consts) <=? ci) then None
  else
    v ← consts !! Z.to_nat ci;
    if negb (val_tag v =? TAG_SYM) then None
    else
      let sid := val_get_symbol v in
      if (sid <? 0) || (sym_count t <=? sid) then None else symbols t !! Z.to_nat sid.
Definition install_frame_hooks (nameidx : list Z) (im : Image) (t : symtab) : list (option string) :=
  frame_name (g_consts im) t <$> nameidx.
Definition vm_fn_name (names : list (option string)) (fid : Z) : option string :=
  if (0 <=? fid) && (fid <? Z.of_nat (length names)) then mjoin (names !! Z.to_nat fid) else None.

(** The lines of the report, with what they print. *)
Inductive report_line := Crash (pid : Z) (reason : string) | At (name : string) (fid : Z).
Definition crash_report (hook : bool) (names : list (option string)) (t : symtab) (im : Image) (m : ProcMem) (pc base : Z) (reason : Val)
    : outcome (list report_line) :=
  if val_is_nil reason || (mem m =? 0) then Ret []
  else
    fs ← vm_walk_stack hook im m pc base 64;
    let r := if val_is_symbol reason then default "?"%string (vm_symbol_name t (val_get_symbol reason)) else "?"%string in
    Ret (Crash (pid m) r :: ((λ f, At (default "?"%string (vm_fn_name names f)) f) <$> fs)).

(** * The active calls *)
(** Innermost first.  Below a frame's base lies its caller's stack. *)
Inductive frames (im : Image) : list tree → Z → Z → list Z → Prop :=
| F_entry stk pc f : lisp_fid_of_pc im pc = f → 0 ≤ f → frames im stk pc 0 [f]
| F_call stk pc base f k ret b x fs :
    lisp_fid_of_pc im pc = f → 0 ≤ f → 0 < base → fn_field im fn_args f = Ret k → 0 ≤ k →
    stk_at stk (base + k + 1) = Some (Imm ret) → stk_at stk (base + k + 2) = Some (Imm b) → stk_at stk (base + k + 3) = Some (Imm x) →
    frames im (take (Z.to_nat base) stk) (val_get_int ret) (val_get_int b) fs → frames im stk pc base (f :: fs).

Lemma stk_at_lt stk i t : stk_at stk i = Some t → 0 ≤ i < Z.of_nat (length stk).
Proof. intros H. by apply nth_tree_at in H as [? _]. Qed.

(** ** Functions and their code *)
Lemma fid_loop_spec pc : ∀ entries i,
  (∀ j e e', entries !! j = Some e → entries !! S j = Some e' → e < e') →
  ∀ j e, entries !! j = Some e → e ≤ pc → (∀ e', entries !! S j = Some e' → pc < e') → fid_loop entries i pc = i + Z.of_nat j.
Proof.
  induction entries as [|e0 rest IH]; intros i Hs j e Hj Hle Hlt; [done|]. cbn [fid_loop].
  assert (e0 ≤ e) as H0.
  { clear -Hs Hj. revert e Hj. induction j as [|j IHj]; intros e Hj; [injection Hj; lia|].
    destruct (lookup_lt_is_Some_2 (e0 :: rest) j) as [d Hd]; [apply lookup_lt_Some in Hj; simpl in *; lia|].
    specialize (IHj d Hd). specialize (Hs j d e Hd Hj). lia. }
  destruct (Z.ltb_spec pc e0); [lia|]. destruct j as [|j].
  - destruct rest as [|e1 rest]; [lia|]. specialize (Hlt e1 eq_refl). destruct (Z.ltb_spec pc e1); lia.
  - destruct rest as [|e1 rest]; [done|].
    assert (e1 ≤ e) as H1.
    { clear -Hs Hj. revert e Hj. induction j as [|j IHj]; intros e Hj; [injection Hj; lia|].
      destruct (lookup_lt_is_Some_2 (e1 :: rest) j) as [d Hd]; [apply lookup_lt_Some in Hj; simpl in *; lia|].
      specialize (IHj d Hd). specialize (Hs (S j) d e Hd Hj). lia. }
    destruct (Z.ltb_spec pc e1); [lia|]. rewrite (IH (i + 1)) with (j := j) (e := e); [lia| |done|done|done].
    intros k d d' Hk Hk'. by apply (Hs (S k)).
Qed.

(** The table is in the order the functions were emitted. *)
Definition emitted_in_order (im : Image) : Prop := ∀ j e e', fn_entry im !! j = Some e → fn_entry im !! S j = Some e' → e < e'.
Lemma fid_of_entry im fid entry : emitted_in_order im → fn_field im fn_entry fid = Ret entry → lisp_fid_of_pc im entry = fid.
Proof.
  intros Ho. unfold fn_field. destruct (Z.ltb_spec fid 0); [done|]. intros He%or_undef_Ret. unfold lisp_fid_of_pc.
  rewrite (fid_loop_spec entry _ 0 Ho (Z.to_nat fid) entry); [lia|done|done|]. intros e'. by apply Ho.
Qed.

(** ** The walk *)
Lemma walk_frames cap K im consts st m objs r a : sim cap K im consts st m objs r a → ∀ stk pc base fs,
  frames im stk pc base fs → stk `prefix_of` a_stk a → ∀ n, walk_loop n im m (Z.of_nat (length (a_stk a))) pc base = Ret (take n fs).
Proof.
  intros S stk pc base fs Hf. induction Hf as [stk pc f Hpc H0|stk pc base f k ret b x fs Hpc H0 Hb Hk Hk0 H1 H2 H3 _ IH]; intros [u Hu] [|n]; try done;
    cbn [walk_loop]; rewrite Hpc; (destruct (Z.ltb_spec f 0); [lia|]).
  - by destruct n.
  - destruct (Z.eqb_spec base 0); [lia|]. rewrite Hk. cbn [mbind outcome_bind].
    pose proof (stk_at_lt _ _ _ H3) as Hl. rewrite Hu, length_app.
    destruct (Z.ltb_spec (Z.of_nat (length stk + length u)) (base + k + 3)); [lia|].
    assert (∀ i v, stk_at stk i = Some (Imm v) → walk_slot m i = Ret v) as Hw.
    { intros i v Hi. destruct (sim_slot _ _ _ _ _ _ _ _ _ i (Imm v) S) as (w&E&Hr); [rewrite Hu; by apply stk_at_app|].
      unfold walk_slot. rewrite E. by destruct Hr as (->&_). }
    rewrite (Hw _ _ H1). cbn [mbind outcome_bind]. rewrite (Hw _ _ H2). cbn [mbind outcome_bind].
    rewrite <- length_app, <- Hu. rewrite IH; [done|]. etrans; [apply prefix_take|]. by exists u.
Qed.

(** ** Calls, tail calls and returns *)
Section calls.
Context (im : Image).

Lemma frames_app stk u pc base fs : frames im stk pc base fs → frames im (stk ++ u) pc base fs.
Proof.
  intros Hf. destruct Hf as [stk pc f Hpc H0|stk pc base f k ret b x fs Hpc H0 Hb Hk Hk0 H1 H2 H3 Hf]; [by constructor|].
  pose proof (stk_at_lt _ _ _ H3). eapply F_call; eauto using stk_at_app. rewrite take_app_le by lia. done.
Qed.
(** A frame on top of [pre] whose continuation is the last three slots. *)
Lemma frames_push pre pc base f k ret b x fs :
  lisp_fid_of_pc im pc = f → 0 ≤ f → 0 < base → fn_field im fn_args f = Ret k → 0 ≤ k → Z.of_nat (length pre) = base + k + 1 →
  frames im (take (Z.to_nat base) pre) (val_get_int ret) (val_get_int b) fs → frames im (pre ++ [Imm ret; Imm b; Imm x]) pc base (f :: fs).
Proof.
  intros Hpc H0 Hb Hk Hk0 Hl Hf. rewrite <- (app_nil_r (pre ++ _)).
  eapply F_call; try done.
  - replace (base + k + 1) with (Z.of_nat (length pre) + Z.of_nat 0) by lia. apply cont_ret.
  - replace (base + k + 2) with (Z.of_nat (length pre) + Z.of_nat 1) by lia. apply cont_base.
  - replace (base + k + 3) with (Z.of_nat (length pre) + Z.of_nat 2) by lia. apply cont_cbase.
  - rewrite app_nil_r, take_app_le by lia. done.
Qed.

Context (a a1 : amach) (d : demand) (n fid : Z) (stk : list tree) (fs : list Z).
Context (Eb : abs_block im a = Some (n, fid, stk)).
Context (Hentry : ∀ entry, fn_field im fn_entry fid = Ret entry → lisp_fid_of_pc im entry = fid).

Lemma block_facts : 0 ≤ fid ∧ 1 ≤ n ≤ Z.of_nat (length stk) ∧ fn_field im fn_args fid = Ret (n - 1) ∧ ∃ acc, stk = a_stk a ++ [acc].
Proof using Eb.
  apply abs_block_Some in Eb as (acc&f&_&_&->&Hn&_&_&Hk). split; [|by eauto].
  unfold fn_field in Hk. destruct (Z.ltb_spec fid 0); [done|lia].
Qed.
(** The caller's continuation lies below the block of the call. *)
Lemma frames_call : abs_call im a = Some (a1, d) → - 2 ^ 47 ≤ a_pc a + 2 < 2 ^ 47 → - 2 ^ 47 ≤ a_base a < 2 ^ 47 →
  n < Z.of_nat (length stk) → frames im (take (length stk - Z.to_nat n) (a_stk a)) (a_pc a + 2) (a_base a) fs →
  frames im (a_stk a1) (a_pc a1) (a_base a1) (fid :: fs).
Proof using Eb Hentry.
  intros E Hp Hb Hn Hf. destruct block_facts as (H0&Hn'&Hk&acc&Es). unfold abs_call in E. rewrite Eb in E. cbn [mbind option_bind] in E. cbv zeta in E.
  destruct (frame_lo _ _ _) as [lo|]; [|done]. cbn [mbind option_bind] in E. unfold afield in E.
  destruct (fn_field im fn_entry fid) as [entry| | |] eqn:He; try done. cbn [to_opt mbind option_bind] in E. injection E as <- <-. cbn [a_stk a_pc a_base].
  apply (frames_push _ _ _ _ (n - 1)); try done; [by apply Hentry|lia|lia|lia|].
  rewrite !val_get_int_id by done. replace (Z.to_nat (Z.of_nat (length stk) - n)) with (length stk - Z.to_nat n)%nat by lia.
  rewrite Es in *. rewrite length_app in *. cbn [length] in *. by rewrite take_app_le by lia.
Qed.
(** The frame of the current function is the one at the base. *)
Lemma frames_tcall f c : abs_tcall im a = Some (a1, d) → a_stk a !! Z.to_nat (a_base a) = Some c → afun c = Some f →
  frames im (a_stk a) (a_pc a) (a_base a) (f :: fs) → frames im (a_stk a1) (a_pc a1) (a_base a1) (fid :: fs).
Proof using Eb Hentry.
  intros E Hc Hfc Hf. destruct block_facts as (H0&Hn&Hk&acc&Es).
  assert (a_base a1 = a_base a ∧ ∃ entry, fn_field im fn_entry fid = Ret entry ∧ a_pc a1 = entry) as (Hba&entry&He&Hpc).
  { unfold abs_tcall in E. rewrite Eb in E. cbn [mbind option_bind] in E. cbv zeta in E. destruct (_ <? 0); [done|]. rewrite Hc in E. cbn [mbind option_bind] in E.
    rewrite Hfc in E. destruct (afield _ _ f) as [ok|]; [|done]. cbn [mbind option_bind] in E. destruct (_ || _); [done|].
    do 3 (match type of E with context [stk_at ?s ?i] => destruct (stk_at s i) as [[]|]; try done end). destruct (_ && _); [done|].
    destruct (frame_lo _ _ _) as [lo|]; [|done]. cbn [mbind option_bind] in E. unfold afield in E.
    destruct (fn_field im fn_entry fid) as [entry| | |]; try done. cbn [to_opt mbind option_bind] in E. injection E as <- <-. by eauto. }
  remember (f :: fs) as l eqn:El. remember (a_base a) as base eqn:Ebase. remember (a_stk a) as s eqn:Estk.
  destruct Hf as [s pc f0 Hpc' Hf'|s pc base f0 k ret b x fs' Hpc' Hf' Hb Hk' Hk0 H1 H2 H3 Hrest]; injection El as -> El.
  - rewrite <- El, Hba, Hpc. constructor; [|done]. by apply Hentry.
  - subst fs' s base. destruct (abs_tcall_Some im a a1 d n fid _ c f k ret b x Eb E Hc Hfc Hk' H1 H2 H3) as (Hr&->&->).
    apply (frames_push _ _ _ _ (n - 1)); try done; [rewrite Hpc; by apply Hentry|lia| |].
    + rewrite !length_app, length_take, length_drop. lia.
    + rewrite !val_get_int_id by apply val_get_int_range. rewrite take_app_le by (rewrite length_take; lia).
      rewrite take_take, Nat.min_id. pose proof (stk_at_lt _ _ _ H3). by rewrite Es, take_app_le by lia.
Qed.
End calls.
(** A return pops the frame when RET carries the argument count of its
    function. *)
Lemma frames_ret im consts a b d f k fs : abs_exec im consts LOP_RET a = Some (ATick b, d) → 0 < a_base a →
  word im (a_pc a + 1) = Ret k → fn_field im fn_args f = Ret k →
  frames im (a_stk a) (a_pc a) (a_base a) (f :: fs) → frames im (a_stk b) (a_pc b) (a_base b) fs.
Proof.
  change (abs_exec im consts LOP_RET) with (abs_ret im). intros (k'&ret&base&cbase&Hw&_&H1&H2&_&_&->)%abs_ret_Some Hb Hw' Hk Hf.
  assert (k' = k) as -> by congruence. inversion Hf; subst; [lia|].
  assert (k0 = k) as -> by congruence. cbn [a_stk a_pc a_base]. congruence.
Qed.

(** C37: the crash report and the profiler see the active calls.  On the memory of
    a process that denotes a tree machine, the walk returns the functions of the
    active calls, innermost first, cut at the given depth.  A call puts the
    callee in front of them, a tail call replaces the innermost, a return drops
    it. *)
Theorem trace_follows_calls cap K im consts st m objs r a fs :
  sim cap K im consts st m objs r a → emitted_in_order im →
  (frames im (a_stk a) (a_pc a) (a_base a) fs → ∀ n, (0 < length (a_stk a))%nat →
     vm_walk_stack true im (set_sp (- r_dep r) m) (r_pc r) (r_base r) n = Ret (take n fs)) ∧
  (∀ a1 d n fid stk, abs_block im a = Some (n, fid, stk) →
     (abs_call im a = Some (a1, d) → - 2 ^ 47 ≤ a_pc a + 2 < 2 ^ 47 → - 2 ^ 47 ≤ a_base a < 2 ^ 47 → n < Z.of_nat (length stk) →
        frames im (take (length stk - Z.to_nat n) (a_stk a)) (a_pc a + 2) (a_base a) fs → frames im (a_stk a1) (a_pc a1) (a_base a1) (fid :: fs)) ∧
     (∀ f c, abs_tcall im a = Some (a1, d) → a_stk a !! Z.to_nat (a_base a) = Some c → afun c = Some f →
        frames im (a_stk a) (a_pc a) (a_base a) (f :: fs) → frames im (a_stk a1) (a_pc a1) (a_base a1) (fid :: fs))) ∧
  (∀ b d f k, abs_exec im consts LOP_RET a = Some (ATick b, d) → 0 < a_base a → word im (a_pc a + 1) = Ret k → fn_field im fn_args f = Ret k →
     frames im (a_stk a) (a_pc a) (a_base a) (f :: fs) → frames im (a_stk b) (a_pc b) (a_base b) fs).
Proof.
  intros S Ho. split; [|split].
  - intros Hf n Hl. unfold vm_walk_stack, lisp_walk_stack. cbn [sp set_sp]. rewrite (sm_dep _ _ _ _ _ _ _ _ _ S), (sm_pc _ _ _ _ _ _ _ _ _ S), (sm_base _ _ _ _ _ _ _ _ _ S).
    destruct (Z.leb_spec 0 (- Z.of_nat (length (a_stk a)))); [lia|]. rewrite Z.opp_involutive.
    rewrite <- (sm_dep _ _ _ _ _ _ _ _ _ S). rewrite (sm_dep _ _ _ _ _ _ _ _ _ S) at 2.
    by apply (walk_frames cap K im consts st _ objs r a (sim_sp _ _ _ _ _ _ _ _ _ _ S) _ _ _ _ Hf).
  - intros a1 d n fid stk Eb. pose proof (λ entry, fid_of_entry im fid entry Ho) as He. split; [by apply frames_call|]. intros f c. by eapply frames_tcall.
  - intros b d f k. apply frames_ret.
Qed.

(** The report of a crash names them, up to 64. *)
Lemma crash_report_frames names t im m pc base reason fs :
  vm_walk_stack true im m pc base 64 = Ret fs → val_is_nil reason = false → mem m ≠ 0 →
  ∃ r, crash_report true names t im m pc base reason = Ret (Crash (pid m) r :: ((λ f, At (default "?"%string (vm_fn_name names f)) f) <$> fs)).
Proof. intros E Hr Hm. unfold crash_report. rewrite Hr. destruct (Z.eqb_spec (mem m) 0); [done|]. cbn [orb]. rewrite E. by eexists. Qed.

(** Function 1 of [w_image], called by function 0 at word 2. *)
Definition w_active : list Val := [lbox TAG_CLOS_ID 0; w_fn; val_int 5; val_int 4; val_int 0; val_int 0].
Definition w_called : amach := mk_amach 10 1 10 (Some (Imm (val_int 7))) (Imm <$> w_active).
Lemma w_called_sim : sim 4096 no_const w_image [] w_store (w_mem w_active) w_objs (mk_regs 10 1 10 (val_int 7) 6) w_called.
Proof. by destruct (w_sim w_active 10 (val_int 7)) as [S1 S2 S3 S4 S5 S6 S7 S8 S9 S10 S11]; [simpl; lia|vm_compute; reflexivity|vm_compute; reflexivity|split]. Qed.
Lemma trace_follows_calls_witness : vm_walk_stack true w_image (set_sp (-6) (w_mem w_active)) 10 1 64 = Ret [1; 0].
Proof.
  refine (proj1 (trace_follows_calls 4096 no_const w_image [] w_store (w_mem w_active) w_objs (mk_regs 10 1 10 (val_int 7) 6) w_called [1; 0] w_called_sim _) _ 64%nat _).
  - intros [|[|j]] e e' He He'; simpl in *; [|done|done]. simplify_eq. lia.
  - eapply (F_call _ _ 10 1 1 1 (val_int 4) (val_int 0) (val_int 0)); try (vm_compute; congruence).
    rewrite !val_get_int_id by lia. by constructor.
  - vm_compute. lia.
Defined.
