(* ===== verification/Prof.v ===== *)
(** The sampling profiler: src/prof.c.

    The profile maps call stacks to the time spent under them; the stacks are
    interned through an open-addressing table of slots that index the array of
    entries.  The files it writes are given as their contents: the lines of the
    folded stacks, and the tables of the JSON document without its
    punctuation.  [qsort] is an argument; the allocations of the writers are
    taken to succeed, those of the table are arguments. *)
From stdpp Require Import base tactics list gmap strings pretty sorting.
From Stdlib Require Import ZArith Lia Sorted.
From S2P Require Import Prelude Values Heap Vm Interp Machine Symtab Trace.
Open Scope Z_scope.

(** * The code *)
Definition PROF_MAX_DEPTH : nat := 64.
Definition PROF_HT_INIT_CAP : Z := 1024.
Definition PROF_ENTRY_INIT_CAP : Z := 64.
(** The walk gives the frames innermost first. *)
Record ProfEntry := mk_ProfEntry { e_frames : list Z; weight_ns : Z; samples : Z }.
Record ProfSlot := mk_ProfSlot { sl_hash : Z; sl_entry : Z }.
Record ProfState := mk_ProfState {
  entries : list ProfEntry;
  entry_cap : Z;
  slots_of : list ProfSlot;
  slot_cap : Z;
  slot_used : Z;
  total_ns : Z;
  total_samples : Z
}.
(** [calloc]. *)
Definition prof_init : ProfState := mk_ProfState [] 0 [] 0 0 0 0.

(** FNV-1a over 32-bit words. *)
Definition prof_hash_frames (frames : list Z) : Z :=
  foldl (λ h f, u64 (Z.lxor h (u32 f) * 1099511628211)) 1469598103934665603 frames.
Definition entry_slots (slots : list ProfSlot) : list Z := sl_entry <$> slots.

(** One old slot in the new table. *)
Definition rehash_slot (fuel : nat) (es : list ProfEntry) (mask : Z) (ns : list ProfSlot) (s : ProfSlot) : outcome (list ProfSlot) :=
  if sl_entry s <? 0 then Ret ns
  else
    e ← or_undef (es !! Z.to_nat (sl_entry s));
    '(j, _) ← probe never fuel (entry_slots ns) mask (Z.land (prof_hash_frames (e_frames e)) mask);
    Ret (<[Z.to_nat j := s]> ns).
Definition prof_rehash (ok : bool) (fuel : nat) (ps : ProfState) : outcome ProfState :=
  newcap ← chk32 (slot_cap ps * 2);
  if negb ok then Ret ps
  else
    ns ← foldM (rehash_slot fuel (entries ps) (newcap - 1)) (replicate (Z.to_nat newcap) (mk_ProfSlot 0 (-1))) (slots_of ps);
    Ret (mk_ProfState (entries ps) (entry_cap ps) ns newcap (slot_used ps) (total_ns ps) (total_samples ps)).

(** [depth] and [memcmp]. *)
Definition same_stack (es : list ProfEntry) (frames : list Z) (e : Z) : outcome bool :=
  x ← or_undef (es !! Z.to_nat e);
  Ret (bool_decide (e_frames x = frames)).
(** The allocations of one call: the first table, the larger table, the array of
    entries and the frames of a new one. *)
Record prof_mem := mk_prof_mem { ok_table : bool; ok_rehash : bool; ok_entries : bool; ok_frames : bool }.
Definition mem_ok : prof_mem := mk_prof_mem true true true true.
(** The table before the search: made at the first sample, grown when it is full
    to 70%.  [None] when there is none. *)
Definition prof_room (ok : prof_mem) (fuel : nat) (ps : ProfState) : outcome (option ProfState) :=
  if (slot_cap ps =? 0) && negb (ok_table ok) then Ret None
  else
    let ps := if slot_cap ps =? 0
              then mk_ProfState (entries ps) (entry_cap ps) (replicate (Z.to_nat PROF_HT_INIT_CAP) (mk_ProfSlot 0 (-1))) PROF_HT_INIT_CAP (slot_used ps) (total_ns ps) (total_samples ps)
              else ps in
    a ← chk32 ((slot_used ps + 1) * 10);
    b ← chk32 (slot_cap ps * 7);
    Some <$> (if b <=? a then prof_rehash (ok_rehash ok) fuel ps else Ret ps).
(** The index of the entry; [None] is NULL. *)
Definition prof_find_or_add (ok : prof_mem) (fuel : nat) (ps : ProfState) (frames : list Z) (hash : Z) : outcome (option Z * ProfState) :=
  room ← prof_room ok fuel ps;
  match room with
  | None => Ret (None, ps)
  | Some ps =>
    let mask := slot_cap ps - 1 in
    '(j, e) ← probe (same_stack (entries ps) frames) fuel (entry_slots (slots_of ps)) mask (Z.land hash mask);
    if 0 <=? e then Ret (Some e, ps)
    else
      let n := Z.of_nat (length (entries ps)) in
      let full := n =? entry_cap ps in
      newcap ← (if full then if entry_cap ps =? 0 then Ret PROF_ENTRY_INIT_CAP else chk32 (entry_cap ps * 2) else Ret (entry_cap ps));
      if full && negb (ok_entries ok) then Ret (None, ps)
      else if negb (ok_frames ok) then
        Ret (None, mk_ProfState (entries ps) newcap (slots_of ps) (slot_cap ps) (slot_used ps) (total_ns ps) (total_samples ps))
      else
        Ret (Some n, mk_ProfState (entries ps ++ [mk_ProfEntry frames 0 0]) newcap (<[Z.to_nat j := mk_ProfSlot hash n]> (slots_of ps)) (slot_cap ps)
                       (slot_used ps + 1) (total_ns ps) (total_samples ps))
  end.
Definition prof_record (ok : prof_mem) (fuel : nat) (ps : ProfState) (frames : list Z) (dt_ns : Z) : outcome ProfState :=
  '(e, ps) ← prof_find_or_add ok fuel ps frames (prof_hash_frames frames);
  match e with
  | None => Ret ps
  | Some e =>
      x ← or_undef (entries ps !! Z.to_nat e);
      Ret (mk_ProfState (<[Z.to_nat e := mk_ProfEntry (e_frames x) (u64 (weight_ns x + dt_ns)) (u64 (samples x + 1))]> (entries ps))
             (entry_cap ps) (slots_of ps) (slot_cap ps) (slot_used ps) (u64 (total_ns ps + dt_ns)) (u64 (total_samples ps + 1)))
  end.
(** The process is given by its memory and its published resume point. *)
Definition prof_collect (ok : prof_mem) (fuel : nat) (hook : bool) (im : Image) (m : ProcMem) (pc base : Z) (ps : ProfState) (dt_ns : Z) : outcome ProfState :=
  if (dt_ns =? 0) || (mem m =? 0) then Ret ps
  else
    frames ← vm_walk_stack hook im m pc base PROF_MAX_DEPTH;
    if bool_decide (frames = []) then Ret ps else prof_record ok fuel ps frames dt_ns.

(** ** Output *)
Section Output.
Context (names : list (option string)).
(** [fn#%d] for a function without a name. *)
Definition prof_name (fid : Z) : string := match vm_fn_name names fid with Some n => n | None => ("fn#" +:+ pretty fid)%string end.
Fixpoint name_index (tab : list string) (name : string) (i : Z) : Z :=
  match tab with
  | [] => -1
  | n :: tab => if bool_decide (n = name) then i else name_index tab name (i + 1)
  end.
Definition prof_intern_frame (tab : list string) (fid : Z) : list string :=
  if 0 <=? name_index tab (prof_name fid) 0 then tab else tab ++ [prof_name fid].
Record json := mk_json {
  j_frames : list string;
  j_end : Z (** microseconds *);
  j_samples : list (list Z) (** outermost first *);
  j_weights : list Z
}.
Definition prof_write_json (ps : ProfState) : json :=
  let tab := foldl (λ tab e, foldl prof_intern_frame tab (e_frames e)) [] (entries ps) in
  mk_json tab (total_ns ps `div` 1000) ((λ e, (λ fid, name_index tab (prof_name fid) 0) <$> rev (e_frames e)) <$> entries ps)
    ((λ e, weight_ns e `div` 1000) <$> entries ps).
(** The separator goes behind every frame but the last. *)
Fixpoint folded_frames (fs : list Z) : string :=
  match fs with
  | [] => ""
  | [f] => prof_name f
  | f :: fs => prof_name f +:+ ";" +:+ folded_frames fs
  end%string.
Definition prof_write_folded (ps : ProfState) : list string :=
  (λ e, folded_frames (rev (e_frames e)) +:+ " " +:+ pretty (weight_ns e `div` 1000))%string <$> entries ps.
End Output.

(** The time under each function as the innermost one. *)
Definition self_add (n : Z) (tot : list Z) (e : ProfEntry) : list Z :=
  match e_frames e with
  | fid :: _ => if (0 <=? fid) && (fid <? n) then alter (λ w, u64 (w + weight_ns e)) (Z.to_nat fid) tot else tot
  | [] => tot
  end.
Definition fn_total (n : nat) (es : list ProfEntry) : list Z := foldl (self_add (Z.of_nat n)) (replicate n 0) es.
(** The exchange sort of [fn_idx]: one pass leaves the largest in front. *)
Section Hottest.
Context (tot : list Z).
Definition total_of (fid : Z) : Z := tot !!! Z.to_nat fid.
Fixpoint exchange (x : Z) (rest : list Z) : Z * list Z :=
  match rest with
  | [] => (x, [])
  | y :: rest => if total_of x <? total_of y then let '(z, rest) := exchange y rest in (z, x :: rest)
                 else let '(z, rest) := exchange x rest in (z, y :: rest)
  end.
Fixpoint sort_ids (fuel : nat) (ids : list Z) : list Z :=
  match fuel, ids with
  | S fuel, x :: rest => let '(z, rest) := exchange x rest in z :: sort_ids fuel rest
  | _, _ => []
  end.
Fixpoint until_zero (ids : list Z) : list Z :=
  match ids with
  | [] => []
  | x :: ids => if total_of x =? 0 then [] else x :: until_zero ids
  end.
End Hottest.
(** The functions of the summary with their times; without the percentages. *)
Definition prof_print_summary (names : list (option string)) (ps : ProfState) : list (string * Z) :=
  if total_ns ps =? 0 then []
  else
    let n := length names in
    let tot := fn_total n (entries ps) in
    (λ fid, (default "?"%string (vm_fn_name names fid), total_of tot fid)) <$> until_zero tot (take 10 (sort_ids tot n (seqZ 0 (Z.of_nat n)))).

Definition cmp_entry_desc (a b : ProfEntry) : Z :=
  if weight_ns a <? weight_ns b then 1 else if weight_ns b <? weight_ns a then -1 else 0.
(** The contents of the two files, and the summary. *)
Definition prof_finish (qsort : (ProfEntry → ProfEntry → Z) → list ProfEntry → list ProfEntry) (names : list (option string)) (ps : ProfState)
    : json * list string * list (string * Z) :=
  let ps := mk_ProfState (qsort cmp_entry_desc (entries ps)) (entry_cap ps) (slots_of ps) (slot_cap ps) (slot_used ps) (total_ns ps) (total_samples ps) in
  (prof_write_json names ps, prof_write_folded names ps, prof_print_summary names ps).

(** * The table of stacks *)
(** Every occupied slot holds the index of a stack that is reached from its hash
    without crossing an empty slot; no index occurs twice. *)
Record slots_ok (cap : Z) (tab : list Z) (keys : list (list Z)) : Prop := {
  q_pow : ∃ k, 0 ≤ k ∧ cap = 2 ^ k;
  q_len : Z.of_nat (length tab) = cap;
  q_inj : ∀ i j e, tab !! i = Some e → tab !! j = Some e → 0 ≤ e → i = j;
  q_range : ∀ i e, tab !! i = Some e → 0 ≤ e → e < Z.of_nat (length keys);
  q_reach : ∀ i e, tab !! i = Some e → 0 ≤ e → ∃ key d, keys !! Z.to_nat e = Some key ∧ 0 ≤ d < cap ∧
    i = Z.to_nat ((prof_hash_frames key + d) mod cap) ∧ ∀ d', 0 ≤ d' < d → ∃ e', at_slot cap tab (prof_hash_frames key + d') = Some e' ∧ 0 ≤ e'
}.
Definition indexed (tab : list Z) (n : nat) : Prop := ∀ e, 0 ≤ e < Z.of_nat n → e ∈ tab.

Section Table.
Context (cap : Z) (tab : list Z) (keys : list (list Z)) (H : slots_ok cap tab keys) (Hload : Z.of_nat (length keys) < cap).
Lemma slots_pos : 0 < cap.
Proof using H. destruct (q_pow _ _ _ H) as (k&Hk&Hp). rewrite Hp. by apply Z.pow_pos_nonneg. Qed.
Lemma slots_mask i : Z.land i (cap - 1) = i mod cap.
Proof using H. destruct (q_pow _ _ _ H) as (k&Hk&Hp). by apply (land_mask cap k). Qed.
(** A walk ends at an accepted index or the first empty slot. *)
Lemma slots_probe stop h fuel : (∀ e, 0 ≤ e < Z.of_nat (length keys) → ∃ b, stop e = Ret b) → cap ≤ Z.of_nat fuel →
  ∃ d e, 0 ≤ d < cap ∧ probe stop fuel tab (cap - 1) (Z.land h (cap - 1)) = Ret ((h + d) mod cap, e) ∧ at_slot cap tab (h + d) = Some e ∧
    (e < 0 ∨ 0 ≤ e ∧ stop e = Ret true) ∧ ∀ d', 0 ≤ d' < d → ∃ e', at_slot cap tab (h + d') = Some e' ∧ 0 ≤ e' ∧ stop e' = Ret false.
Proof using H Hload.
  intros Hdef Hf. rewrite slots_mask. destruct (q_pow _ _ _ H) as (k&Hk&Hp). pose proof (q_len _ _ _ H) as Hlen. pose proof slots_pos as Hc.
  destruct (probe_finds cap k Hk Hp tab Hlen stop fuel (h mod cap)) as (d&e&Hd&E&Hs1&Hs2&Hs3).
  { by apply Z.mod_pos_bound. }
  { intros i e Hi He. apply Hdef. split; [done|]. by eapply (q_range _ _ _ H). }
  { destruct (gap_in_reach cap tab (length keys) (h mod cap) (q_inj _ _ _ H) (q_range _ _ _ H) Hlen Hload) as (d&e&Hd&He). exists d, e. split; [lia|done]. }
  rewrite Zplus_mod_idemp_l in E. rewrite (at_slot_mod cap tab) in Hs1.
  assert (∀ d', 0 ≤ d' < d → ∃ e', at_slot cap tab (h + d') = Some e' ∧ 0 ≤ e' ∧ stop e' = Ret false) as Hs3'.
  { intros d' Hd'. destruct (Hs3 d' Hd') as (e'&He'&?). rewrite (at_slot_mod cap tab) in He'. eauto. }
  exists d, e. split; [|done]. split; [lia|]. destruct (Z_lt_le_dec d cap) as [|Hge]; [done|]. exfalso.
  destruct (gap_in_reach cap tab (length keys) h (q_inj _ _ _ H) (q_range _ _ _ H) Hlen Hload) as (d0&e0&Hd0&He0&Hneg).
  destruct (Hs3' d0) as (e'&He'&?&_); [lia|]. rewrite He0 in He'. injection He' as ->. lia.
Qed.
(** A new index goes to the empty slot where its walk ends. *)
Lemma slots_place keys' h d e0 e key : keys `prefix_of` keys' → at_slot cap tab (h + d) = Some e0 → e0 < 0 → 0 ≤ d < cap →
  (∀ d', 0 ≤ d' < d → ∃ e', at_slot cap tab (h + d') = Some e' ∧ 0 ≤ e') →
  0 ≤ e → e ∉ tab → keys' !! Z.to_nat e = Some key → h = prof_hash_frames key →
  slots_ok cap (<[Z.to_nat ((h + d) mod cap) := e]> tab) keys' ∧
  ∀ x, 0 ≤ x → x ∈ <[Z.to_nat ((h + d) mod cap) := e]> tab ↔ x = e ∨ x ∈ tab.
Proof using H Hload.
  intros [u ->] Hat Hneg Hd Hbefore He Hnew Hkey Hh. set (j := Z.to_nat ((h + d) mod cap)). assert (tab !! j = Some e0) as Hj by done.
  pose proof (lookup_lt_Some _ _ _ Hj) as Hjl.
  assert (∀ x e', 0 ≤ e' → at_slot cap tab x = Some e' → at_slot cap (<[j := e]> tab) x = Some e') as Hother.
  { intros x e' He' Hx. unfold at_slot in *. rewrite list_lookup_insert_ne; [done|]. intros E. rewrite <- E, Hj in Hx. injection Hx as ->. lia. }
  split; [split|].
  - apply H.
  - rewrite length_insert. apply H.
  - intros a b x Ha Hb Hx. rewrite !list_lookup_insert_Some in *. destruct Ha as [(Ea&Ea'&_)|[Na Ha]], Hb as [(Eb&Eb'&_)|[Nb Hb]].
    + congruence.
    + exfalso. apply Hnew. rewrite Ea'. by eapply list_elem_of_lookup_2.
    + exfalso. apply Hnew. rewrite Eb'. by eapply list_elem_of_lookup_2.
    + by eapply (q_inj _ _ _ H).
  - intros a x Ha Hx. apply list_lookup_insert_Some in Ha as [(_&<-&_)|[_ Ha]]; [apply lookup_lt_Some in Hkey; lia|].
    pose proof (q_range _ _ _ H a x Ha Hx). rewrite length_app. lia.
  - intros a x Ha Hx. apply list_lookup_insert_Some in Ha as [(<-&<-&_)|[_ Ha]].
    + exists key, d. rewrite <- Hh. split; [done|]. split; [done|]. split; [done|]. intros d' Hd'. destruct (Hbefore d' Hd') as (e'&?&?). eauto.
    + destruct (q_reach _ _ _ H a x Ha Hx) as (key'&dk&Hk&Hdk&Ea&Hb). exists key', dk. split; [by apply lookup_app_l_Some|]. split; [done|]. split; [done|].
      intros d' Hd'. destruct (Hb d' Hd') as (e'&?&?). eauto.
  - intros x Hx. split.
    + intros [i Hi]%list_elem_of_lookup. apply list_lookup_insert_Some in Hi as [(_&<-&_)|[_ Hi]]; [by left|right]. by eapply list_elem_of_lookup_2.
    + intros [->|[i Hi]%list_elem_of_lookup]; [by apply list_elem_of_insert|].
      apply list_elem_of_lookup. exists i. rewrite list_lookup_insert_ne; [done|]. intros <-. rewrite Hj in Hi. injection Hi as ->. lia.
Qed.
End Table.

Lemma slots_new k keys : 0 ≤ k → slots_ok (2 ^ k) (entry_slots (replicate (Z.to_nat (2 ^ k)) (mk_ProfSlot 0 (-1)))) keys.
Proof.
  intros Hk. assert (0 < 2 ^ k) by (by apply Z.pow_pos_nonneg). unfold entry_slots. rewrite fmap_replicate. cbn [sl_entry]. split.
  - by exists k.
  - rewrite length_replicate. lia.
  - intros i j e [-> _]%lookup_replicate. lia.
  - intros i e [-> _]%lookup_replicate. lia.
  - intros i e [-> _]%lookup_replicate. lia.
Qed.
Section Rehash.
Context (es : list ProfEntry) (cap : Z) (fuel : nat) (Hload : Z.of_nat (length es) < cap) (Hf : cap ≤ Z.of_nat fuel).
Abbreviation keys := (e_frames <$> es).
Lemma rehash_slot_place ns s : slots_ok cap (entry_slots ns) keys → 0 ≤ sl_entry s < Z.of_nat (length es) → sl_entry s ∉ entry_slots ns →
  ∃ ns', rehash_slot fuel es (cap - 1) ns s = Ret ns' ∧ slots_ok cap (entry_slots ns') keys ∧
    ∀ x, 0 ≤ x → x ∈ entry_slots ns' ↔ x = sl_entry s ∨ x ∈ entry_slots ns.
Proof using Hload Hf.
  intros H Hs Hnew. unfold rehash_slot. destruct (Z.ltb_spec (sl_entry s) 0); [lia|].
  destruct (lookup_lt_is_Some_2 es (Z.to_nat (sl_entry s))) as [e He]; [lia|]. rewrite He. cbn [or_undef mbind outcome_bind].
  destruct (slots_probe cap (entry_slots ns) keys H ltac:(by rewrite length_fmap) never (prof_hash_frames (e_frames e)) fuel) as (d&e0&Hd&->&Hat&Hstop&Hb); [by eexists|done|].
  cbn [mbind outcome_bind]. destruct Hstop as [Hneg|[_ Hx]]; [|done].
  eexists. split; [done|]. unfold entry_slots in *. rewrite list_fmap_insert.
  apply (slots_place cap (sl_entry <$> ns) keys H ltac:(by rewrite length_fmap) keys (prof_hash_frames (e_frames e)) d e0 _ (e_frames e)); try done.
  - intros d' Hd'. destruct (Hb d' Hd') as (e'&?&?&_). eauto.
  - by rewrite list_lookup_fmap, He.
Qed.
Lemma rehash_fold : ∀ rest done ns,
  slots_ok cap (entry_slots ns) keys → (∀ x, 0 ≤ x → x ∈ entry_slots ns ↔ x ∈ entry_slots done) →
  (∀ i j e, entry_slots (done ++ rest) !! i = Some e → entry_slots (done ++ rest) !! j = Some e → 0 ≤ e → i = j) →
  (∀ e, 0 ≤ e → e ∈ entry_slots rest → e < Z.of_nat (length es)) →
  ∃ ns', foldM (rehash_slot fuel es (cap - 1)) ns rest = Ret ns' ∧ slots_ok cap (entry_slots ns') keys ∧
    ∀ x, 0 ≤ x → x ∈ entry_slots ns' ↔ x ∈ entry_slots (done ++ rest).
Proof using Hload Hf.
  induction rest as [|s rest IH]; intros done ns H Hin Hinj Hr.
  { exists ns. by rewrite app_nil_r. }
  assert (∃ ns', rehash_slot fuel es (cap - 1) ns s = Ret ns' ∧ slots_ok cap (entry_slots ns') keys ∧
    ∀ x, 0 ≤ x → x ∈ entry_slots ns' ↔ x ∈ entry_slots (done ++ [s])) as (ns'&E&H'&Hin').
  { assert (∀ x, x ∈ entry_slots (done ++ [s]) ↔ x ∈ entry_slots done ∨ x = sl_entry s) as Hsnoc.
    { intros x. unfold entry_slots. rewrite fmap_app, elem_of_app. cbn. by rewrite list_elem_of_singleton. }
    setoid_rewrite Hsnoc. destruct (Z.ltb_spec (sl_entry s) 0) as [Hneg|Hpos].
    { exists ns. unfold rehash_slot. destruct (Z.ltb_spec (sl_entry s) 0); [|lia]. split; [reflexivity|]. split; [exact H|]. intros x Hx. rewrite Hin by lia.
      split; [by left|]. intros [?| ->]; [assumption|lia]. }
    destruct (rehash_slot_place ns s H) as (ns'&E&H'&Hin').
    - split; [lia|]. apply Hr; [lia|by left].
    - rewrite Hin by lia. intros [i Hi]%list_elem_of_lookup.
      assert (i = length done) as ->; [|apply lookup_lt_Some in Hi; unfold entry_slots in Hi; rewrite length_fmap in Hi; lia].
      apply (Hinj _ _ (sl_entry s)); [| |lia]; unfold entry_slots in *; rewrite fmap_app.
      + by apply lookup_app_l_Some.
      + apply list_lookup_middle. by rewrite length_fmap.
    - exists ns'. split; [exact E|]. split; [exact H'|]. intros x Hx. rewrite Hin', Hin by lia. tauto. }
  cbn [foldM]. rewrite E. cbn [mbind outcome_bind].
  replace (done ++ s :: rest) with ((done ++ [s]) ++ rest) in * by by rewrite <- app_assoc.
  apply IH; [exact H'|exact Hin'|exact Hinj|]. intros e He Hx. apply Hr; [exact He|by right].
Qed.
End Rehash.

(** * The profile *)
(** Every stack has one entry, found from its hash; the table is never full.
    [room] is the number of entries about to be added. *)
Record table_ok (room : Z) (ps : ProfState) : Prop := {
  t_cap : 1024 ≤ slot_cap ps ≤ 1024 + 3 * Z.of_nat (length (entries ps));
  t_slots : slots_ok (slot_cap ps) (entry_slots (slots_of ps)) (e_frames <$> entries ps);
  t_indexed : indexed (entry_slots (slots_of ps)) (length (entries ps));
  t_load : (Z.of_nat (length (entries ps)) + room) * 10 < slot_cap ps * 7
}.
Record prof_ok (ps : ProfState) : Prop := {
  p_keys : NoDup (e_frames <$> entries ps);
  p_used : slot_used ps = Z.of_nat (length (entries ps));
  p_array : Z.of_nat (length (entries ps)) ≤ entry_cap ps ≤ 64 + 2 * Z.of_nat (length (entries ps));
  p_table : slot_cap ps = 0 ∧ entries ps = [] ∨ table_ok 0 ps
}.
Lemma prof_init_ok : prof_ok prof_init.
Proof. split; [constructor|done|simpl; lia|by left]. Qed.

Definition limit (fuel : nat) (ps : ProfState) : Prop :=
  Z.of_nat (length (entries ps)) < 2 ^ 26 ∧ 1024 + 3 * Z.of_nat (length (entries ps)) ≤ Z.of_nat fuel.

(** The larger table holds the same indices. *)
Lemma grow_ok fuel ps : table_ok 0 ps → limit fuel ps → slot_cap ps * 7 ≤ (Z.of_nat (length (entries ps)) + 1) * 10 →
  ∃ ns, prof_rehash true fuel ps = Ret (mk_ProfState (entries ps) (entry_cap ps) ns (slot_cap ps * 2) (slot_used ps) (total_ns ps) (total_samples ps)) ∧
    table_ok 1 (mk_ProfState (entries ps) (entry_cap ps) ns (slot_cap ps * 2) (slot_used ps) (total_ns ps) (total_samples ps)).
Proof.
  intros [Hc Hs Hi Hl] [Hn Hf] Hfull. unfold prof_rehash. rewrite chk32_small by lia. cbn [mbind outcome_bind negb].
  destruct (q_pow _ _ _ Hs) as (k&Hk&Hp).
  assert (slots_ok (slot_cap ps * 2) (entry_slots (replicate (Z.to_nat (slot_cap ps * 2)) (mk_ProfSlot 0 (-1)))) (e_frames <$> entries ps)) as Hnew.
  { replace (slot_cap ps * 2) with (2 ^ (k + 1)) by (rewrite Z.pow_add_r by lia; lia). apply slots_new. lia. }
  destruct (rehash_fold (entries ps) (slot_cap ps * 2) fuel ltac:(lia) ltac:(lia) (slots_of ps) [] _ Hnew) as (ns&->&Hns&Hin).
  - intros x Hx. split; [|intros Hx'; inversion Hx']. unfold entry_slots. rewrite fmap_replicate. intros [? _]%elem_of_replicate. cbn in *. lia.
  - apply Hs.
  - intros e He [i Hi']%list_elem_of_lookup. pose proof (q_range _ _ _ Hs i e Hi' He) as Hr. by rewrite length_fmap in Hr.
  - eexists. split; [reflexivity|]. split; cbn [slot_cap entries slots_of]; [lia|done| |lia].
    intros e He. apply Hin; [lia|]. by apply Hi.
Qed.
Lemma room_ok fuel ps : prof_ok ps → limit fuel ps → ∃ ns cap, let ps' := mk_ProfState (entries ps) (entry_cap ps) ns cap (slot_used ps) (total_ns ps) (total_samples ps) in
  prof_room mem_ok fuel ps = Ret (Some ps') ∧ table_ok 1 ps'.
Proof.
  intros [Hk Hu Ha Ht] [Hn Hf]. unfold prof_room. cbn [ok_table mem_ok negb]. rewrite andb_false_r.
  destruct Ht as [[Ec Ee]|Ht].
  - rewrite Ec. cbn [Z.eqb]. cbn [slot_used slot_cap]. rewrite Hu, Ee. cbn [length]. do 2 eexists. split; [reflexivity|].
    split; cbn [slot_cap entries slots_of length]; [unfold PROF_HT_INIT_CAP; lia| |intros e; simpl; lia|unfold PROF_HT_INIT_CAP; lia].
    by apply (slots_new 10).
  - pose proof (t_cap _ _ Ht). destruct (Z.eqb_spec (slot_cap ps) 0); [lia|]. rewrite Hu, !chk32_small by lia. cbn [mbind outcome_bind ok_rehash mem_ok].
    destruct (Z.leb_spec (slot_cap ps * 7) ((Z.of_nat (length (entries ps)) + 1) * 10)) as [Hle|Hgt].
    + destruct (grow_ok fuel ps Ht ltac:(done) Hle) as (ns&E&Ht'). rewrite E. rewrite <- Hu. by exists ns, (slot_cap ps * 2).
    + exists (slots_of ps), (slot_cap ps). rewrite <- Hu. destruct ps; cbn in *. split; [done|]. destruct Ht. split; done || (cbn in *; lia).
Qed.

(** The search ends at the entry of the stack, or at a free slot when there is
    none. *)
Lemma search_spec fuel ps frames : table_ok 1 ps → slot_cap ps ≤ Z.of_nat fuel →
  ∃ d e, let j := (prof_hash_frames frames + d) mod slot_cap ps in
    probe (same_stack (entries ps) frames) fuel (entry_slots (slots_of ps)) (slot_cap ps - 1) (Z.land (prof_hash_frames frames) (slot_cap ps - 1)) = Ret (j, e) ∧
    (0 ≤ e ∧ (∃ x, entries ps !! Z.to_nat e = Some x ∧ e_frames x = frames) ∨
     e < 0 ∧ frames ∉ e_frames <$> entries ps ∧ 0 ≤ d < slot_cap ps ∧ at_slot (slot_cap ps) (entry_slots (slots_of ps)) (prof_hash_frames frames + d) = Some e ∧
       ∀ d', 0 ≤ d' < d → ∃ e', at_slot (slot_cap ps) (entry_slots (slots_of ps)) (prof_hash_frames frames + d') = Some e' ∧ 0 ≤ e').
Proof.
  intros [Hc Hs Hi Hl] Hf.
  destruct (slots_probe _ _ _ Hs ltac:(rewrite length_fmap; lia) (same_stack (entries ps) frames) (prof_hash_frames frames) fuel) as (d&e&Hd&E&Hat&Hstop&Hb); [|done|].
  { intros e [He Hl']. rewrite length_fmap in Hl'. unfold same_stack. destruct (lookup_lt_is_Some_2 (entries ps) (Z.to_nat e)) as [x ->]; [lia|]. by eexists. }
  exists d, e. split; [exact E|]. destruct Hstop as [Hneg|[He Hst]]; [right|left].
  - split; [done|]. split; [|split; [done|split; [done|]]].
    + intros [n Hn]%list_elem_of_lookup. assert (n < length (entries ps))%nat as Hnl by (apply lookup_lt_Some in Hn; by rewrite length_fmap in Hn).
      destruct (proj1 (list_elem_of_lookup _ _) (Hi (Z.of_nat n) ltac:(lia))) as [i Hin].
      destruct (q_reach _ _ _ Hs i (Z.of_nat n) Hin ltac:(lia)) as (key&dk&Hkey&Hdk&Ei&Hbk). rewrite Nat2Z.id, Hn in Hkey. injection Hkey as <-.
      assert (at_slot (slot_cap ps) (entry_slots (slots_of ps)) (prof_hash_frames frames + dk) = Some (Z.of_nat n)) as Hdn by (unfold at_slot; by rewrite <- Ei).
      destruct (Z.lt_trichotomy d dk) as [Hlt|[->|Hgt]].
      * destruct (Hbk d ltac:(lia)) as (e'&He'&?). rewrite Hat in He'. injection He' as ->. lia.
      * rewrite Hat in Hdn. injection Hdn as ->. lia.
      * destruct (Hb dk ltac:(lia)) as (e'&He'&_&Hx). rewrite Hdn in He'. injection He' as <-. unfold same_stack in Hx. rewrite Nat2Z.id in Hx.
        rewrite list_lookup_fmap in Hn. destruct (entries ps !! n) as [x|]; [|done]. injection Hn as Hn. cbn in Hx. by rewrite bool_decide_eq_true_2 in Hx.
    + intros d' Hd'. destruct (Hb d' Hd') as (e'&?&?&_). eauto.
  - split; [done|]. unfold same_stack in Hst. destruct (entries ps !! Z.to_nat e) as [x|]; [|done]. cbn in Hst. injection Hst as Hst%bool_decide_eq_true. eauto.
Qed.

(** Adding to the entry of a stack, or behind the others. *)
Definition bump (dt : Z) (e : ProfEntry) : ProfEntry := mk_ProfEntry (e_frames e) (u64 (weight_ns e + dt)) (u64 (samples e + 1)).
Fixpoint add_weight (frames : list Z) (dt : Z) (es : list ProfEntry) : list ProfEntry :=
  match es with
  | [] => [bump dt (mk_ProfEntry frames 0 0)]
  | e :: es => if bool_decide (e_frames e = frames) then bump dt e :: es else e :: add_weight frames dt es
  end.
Lemma add_weight_at dt x : ∀ es n, NoDup (e_frames <$> es) → es !! n = Some x → add_weight (e_frames x) dt es = <[n := bump dt x]> es.
Proof.
  induction es as [|e es IH]; intros [|n] Hnd Hn; try done; cbn [add_weight].
  - injection Hn as ->. by rewrite bool_decide_eq_true_2.
  - cbn in Hnd. apply NoDup_cons in Hnd as [Hne Hnd]. rewrite bool_decide_eq_false_2; [cbn; by rewrite (IH n)|].
    intros Ee. apply Hne. rewrite Ee. apply list_elem_of_fmap. exists x. split; [done|]. by eapply list_elem_of_lookup_2.
Qed.
Lemma add_weight_new frames dt es : frames ∉ e_frames <$> es → add_weight frames dt es = es ++ [bump dt (mk_ProfEntry frames 0 0)].
Proof.
  induction es as [|e es IH]; intros Hne; [done|]. cbn [add_weight]. cbn in Hne. apply not_elem_of_cons in Hne as [Hn Hne].
  rewrite bool_decide_eq_false_2 by congruence. cbn. by rewrite IH.
Qed.

(** A new entry keeps the invariant. *)
Lemma added_ok ps x d e nc tn ts : NoDup (e_frames <$> entries ps) → slot_used ps = Z.of_nat (length (entries ps)) → table_ok 1 ps →
  e_frames x ∉ e_frames <$> entries ps → 0 ≤ d < slot_cap ps → e < 0 →
  at_slot (slot_cap ps) (entry_slots (slots_of ps)) (prof_hash_frames (e_frames x) + d) = Some e →
  (∀ d', 0 ≤ d' < d → ∃ e', at_slot (slot_cap ps) (entry_slots (slots_of ps)) (prof_hash_frames (e_frames x) + d') = Some e' ∧ 0 ≤ e') →
  Z.of_nat (length (entries ps)) + 1 ≤ nc ≤ 66 + 2 * Z.of_nat (length (entries ps)) →
  prof_ok (mk_ProfState (entries ps ++ [x]) nc
    (<[Z.to_nat ((prof_hash_frames (e_frames x) + d) mod slot_cap ps) := mk_ProfSlot (prof_hash_frames (e_frames x)) (Z.of_nat (length (entries ps)))]> (slots_of ps))
    (slot_cap ps) (slot_used ps + 1) tn ts).
Proof.
  intros Hk Hu T Hne Hd He Hat Hb Hnc. pose proof (t_cap _ _ T) as Hc. pose proof (t_load _ _ T) as Hld. set (es := entries ps) in *.
  destruct (slots_place _ _ _ (t_slots _ _ T) ltac:(rewrite length_fmap; fold es; lia) ((e_frames <$> es) ++ [e_frames x])
    (prof_hash_frames (e_frames x)) d e (Z.of_nat (length es)) (e_frames x)) as [Hs' Hin']; try done.
  { by apply prefix_app_r. } { lia. }
  { intros [i Hi]%list_elem_of_lookup. pose proof (q_range _ _ _ (t_slots _ _ T) i _ Hi ltac:(lia)) as Hr. rewrite length_fmap in Hr. fold es in Hr. lia. }
  { apply list_lookup_middle. by rewrite length_fmap, Nat2Z.id. }
  split; cbn [entries entry_cap slot_used slots_of slot_cap]; rewrite ?fmap_app, ?length_app; cbn [length fmap list_fmap].
  - apply NoDup_app. split; [done|]. split; [|by apply NoDup_singleton]. intros y Hy ->%list_elem_of_singleton. done.
  - lia.
  - lia.
  - right. split; cbn [entries slots_of slot_cap]; rewrite ?fmap_app, ?length_app; cbn [length fmap list_fmap]; [lia| | |lia].
    + unfold entry_slots in *. by rewrite list_fmap_insert.
    + intros y Hy. unfold entry_slots in *. rewrite list_fmap_insert. cbn [sl_entry]. apply Hin'; [lia|].
      destruct (decide (y = Z.of_nat (length es))); [by left|right]. apply (t_indexed _ _ T). fold es. lia.
Qed.
Lemma record_ok fuel ps frames dt : prof_ok ps → limit fuel ps → ∃ ps', prof_record mem_ok fuel ps frames dt = Ret ps' ∧ prof_ok ps' ∧
  entries ps' = add_weight frames dt (entries ps) ∧ total_ns ps' = u64 (total_ns ps + dt) ∧ total_samples ps' = u64 (total_samples ps + 1).
Proof.
  intros P L. pose proof P as [Hk Hu Ha _]. pose proof L as [Hn Hf]. destruct (room_ok fuel ps P L) as (ns&cap&Er&T). cbv zeta in Er, T.
  set (ps1 := mk_ProfState _ _ ns cap _ _ _) in *.
  pose proof (t_cap _ _ T) as Hc. pose proof (t_load _ _ T) as Hld. cbn [slot_cap entries ps1] in Hc, Hld.
  destruct (search_spec fuel ps1 frames T) as (d&e&Es&Hcase); [cbn; lia|].
  unfold prof_record, prof_find_or_add. rewrite Er. cbn [mbind outcome_bind]. rewrite Es. cbn [mbind outcome_bind].
  destruct Hcase as [(He&x&Hx&Efr)|(He&Hne&Hd&Hat&Hb)].
  - destruct (Z.leb_spec 0 e); [|lia]. cbn [mbind outcome_bind entries ps1] in *. rewrite Hx. cbn [or_undef mbind outcome_bind].
    eexists. split; [reflexivity|]. cbn [entries entry_cap slots_of slot_cap slot_used total_ns total_samples].
    assert (e_frames <$> <[Z.to_nat e:=bump dt x]> (entries ps) = e_frames <$> entries ps) as Ek.
    { rewrite list_fmap_insert. apply list_insert_id. by rewrite list_lookup_fmap, Hx. }
    split; [|split; [|done]].
    + split; cbn [entries entry_cap slots_of slot_cap slot_used]; change (mk_ProfEntry _ _ _) with (bump dt x); rewrite ?length_insert, ?Ek; try done.
      right. destruct T as [T1 T2 T3 T4]. split; cbn [slot_cap entries slots_of ps1] in *; rewrite ?length_insert, ?Ek; try done; lia.
    + subst frames. symmetry. by apply add_weight_at.
  - destruct (Z.leb_spec 0 e); [lia|]. cbn [entries entry_cap slots_of slot_cap slot_used total_ns total_samples ps1 ok_entries ok_frames mem_ok negb] in *.
    rewrite andb_false_r.
    assert (∃ nc, (if Z.of_nat (length (entries ps)) =? entry_cap ps then if entry_cap ps =? 0 then Ret PROF_ENTRY_INIT_CAP else chk32 (entry_cap ps * 2) else Ret (entry_cap ps)) = Ret nc ∧
      Z.of_nat (length (entries ps)) + 1 ≤ nc ≤ 66 + 2 * Z.of_nat (length (entries ps))) as (nc&->&Hnc).
    { destruct (Z.eqb_spec (Z.of_nat (length (entries ps))) (entry_cap ps)); [|eexists; split; [done|lia]].
      destruct (Z.eqb_spec (entry_cap ps) 0); [eexists; split; [done|unfold PROF_ENTRY_INIT_CAP; lia]|]. rewrite chk32_small by lia. eexists; split; [done|lia]. }
    cbn [mbind outcome_bind entries]. rewrite Nat2Z.id, list_lookup_middle by done. cbn [or_undef mbind outcome_bind entry_cap slots_of slot_cap slot_used total_ns total_samples e_frames weight_ns samples].
    eexists. split; [reflexivity|]. cbn [entries entry_cap slots_of slot_cap slot_used total_ns total_samples].
    rewrite insert_app_r_alt, Nat.sub_diag by lia. cbn [insert list_insert].
    split; [|split; [by rewrite add_weight_new|done]].
    by apply (added_ok ps1 (mk_ProfEntry frames (u64 (0 + dt)) (u64 (0 + 1))) d e).
Qed.

(** ** What a profile is *)
Abbreviation sample := (list Z * Z)%type.
(** The stacks in the order of their first samples, each with the time and the
    number of its samples. *)
Definition stacks (l : list sample) : list (list Z) := reverse (remove_dups (reverse l.*1)).
Definition time_under (l : list sample) (k : list Z) : Z := sumZ (filter (λ s, s.1 = k) l).*2.
Definition times_seen (l : list sample) (k : list Z) : Z := Z.of_nat (length (filter (λ s, s.1 = k) l)).
Definition profile (l : list sample) : list ProfEntry := (λ k, mk_ProfEntry k (u64 (time_under l k)) (u64 (times_seen l k))) <$> stacks l.

Lemma elem_of_stacks l k : k ∈ stacks l ↔ k ∈ l.*1.
Proof. unfold stacks. by rewrite elem_of_reverse, elem_of_remove_dups, elem_of_reverse. Qed.
Lemma stacks_nodup l : NoDup (stacks l).
Proof. unfold stacks. rewrite reverse_Permutation. apply NoDup_remove_dups. Qed.
Lemma stacks_snoc l k dt : stacks (l ++ [(k, dt)]) = if bool_decide (k ∈ stacks l) then stacks l else stacks l ++ [k].
Proof.
  unfold stacks at 1. rewrite fmap_app. cbn [fmap list_fmap fst]. rewrite reverse_snoc. cbn [remove_dups].
  case_decide as Hin; rewrite elem_of_reverse, <- elem_of_stacks in Hin.
  - by rewrite bool_decide_eq_true_2.
  - rewrite bool_decide_eq_false_2 by done. by rewrite reverse_cons.
Qed.
Lemma filter_snoc l k dt j : filter (λ s : sample, s.1 = j) (l ++ [(k, dt)]) = filter (λ s, s.1 = j) l ++ if bool_decide (k = j) then [(k, dt)] else [].
Proof. rewrite filter_app. f_equal. rewrite filter_cons, filter_nil. cbn. by case_decide; case_bool_decide. Qed.
Lemma add_weight_fmap (F : list Z → ProfEntry) k dt ks : (∀ j, e_frames (F j) = j) → NoDup ks → k ∈ ks →
  add_weight k dt (F <$> ks) = (λ j, if bool_decide (k = j) then bump dt (F j) else F j) <$> ks.
Proof.
  intros HF. induction ks as [|j ks IH]; intros Hnd Hin; [by apply not_elem_of_nil in Hin|]. apply NoDup_cons in Hnd as [Hj Hnd].
  cbn [fmap list_fmap add_weight]. rewrite HF. destruct (decide (j = k)) as [->|Hne].
  - rewrite !bool_decide_eq_true_2 by done. f_equal. apply list_fmap_ext. intros i x Hx%list_elem_of_lookup_2. rewrite bool_decide_eq_false_2; [done|]. by intros ->.
  - rewrite !bool_decide_eq_false_2 by done. f_equal. apply IH; [done|]. apply elem_of_cons in Hin as [->|?]; done.
Qed.

Lemma profile_snoc l k dt : profile (l ++ [(k, dt)]) = add_weight k dt (profile l).
Proof.
  set (F := λ j, mk_ProfEntry j (u64 (time_under l j)) (u64 (times_seen l j))).
  assert (∀ j, mk_ProfEntry j (u64 (time_under (l ++ [(k, dt)]) j)) (u64 (times_seen (l ++ [(k, dt)]) j)) = if bool_decide (k = j) then bump dt (F j) else F j) as Hstep.
  { intros j. unfold time_under, times_seen. rewrite filter_snoc. case_bool_decide; [|by rewrite app_nil_r].
    rewrite fmap_app, length_app. cbn [fmap list_fmap snd length]. rewrite sumZ_app. change (sumZ [dt]) with (dt + 0). rewrite Z.add_0_r. unfold bump, F, u64. cbn [e_frames weight_ns samples].
    rewrite !Zplus_mod_idemp_l. by rewrite Nat2Z.inj_add. }
  unfold profile. rewrite (list_fmap_ext _ _ _ (λ _ j _, Hstep j)). fold F. rewrite stacks_snoc. case_bool_decide as Hin.
  - symmetry. apply add_weight_fmap; [done|apply stacks_nodup|done].
  - rewrite add_weight_new by (rewrite <- list_fmap_compose; rewrite (list_fmap_ext _ id) by done; by rewrite list_fmap_id).
    rewrite fmap_app. f_equal.
    + apply list_fmap_ext. intros i x Hx%list_elem_of_lookup_2. rewrite bool_decide_eq_false_2; [done|]. by intros ->.
    + cbn. rewrite bool_decide_eq_true_2 by done. unfold bump, F. cbn [e_frames weight_ns samples].
      unfold time_under, times_seen. rewrite filter_none; [done|]. apply Forall_forall. intros [j x] Hx Hj. apply Hin, elem_of_stacks, list_elem_of_fmap.
      by exists (j, x).
Qed.

(** ** What is collected *)
Abbreviation event := (ProcMem * Z * Z * Z)%type.
(** A budget boundary is a sample unless the process is dead, no time has passed
    or there is no stack. *)
Definition observes (hook : bool) (im : Image) (ev : event) (s : option sample) : Prop :=
  let '(m, pc, base, dt) := ev in
  match s with
  | None => dt = 0 ∨ mem m = 0 ∨ vm_walk_stack hook im m pc base PROF_MAX_DEPTH = Ret []
  | Some (fs, w) => w = dt ∧ dt ≠ 0 ∧ mem m ≠ 0 ∧ fs ≠ [] ∧ vm_walk_stack hook im m pc base PROF_MAX_DEPTH = Ret fs
  end.
Definition collect_all (ok : prof_mem) (fuel : nat) (hook : bool) (im : Image) (ps : ProfState) (evs : list event) : outcome ProfState :=
  foldM (λ ps '(m, pc, base, dt), prof_collect ok fuel hook im m pc base ps dt) ps evs.

Lemma add_weight_length k dt es : (length (add_weight k dt es) ≤ S (length es))%nat.
Proof. induction es as [|e es IH]; cbn; [lia|]. case_bool_decide; cbn; lia. Qed.
Lemma add_weight_total k dt es : u64 (sumZ (weight_ns <$> add_weight k dt es)) = u64 (sumZ (weight_ns <$> es) + dt).
Proof.
  unfold u64, sumZ. induction es as [|e es IH]; cbn.
  - unfold u64. by rewrite Z.add_0_r, Zmod_mod.
  - case_bool_decide; cbn.
    + unfold u64. rewrite Zplus_mod_idemp_l. f_equal. lia.
    + rewrite <- Zplus_mod_idemp_r, IH, Zplus_mod_idemp_r. f_equal. lia.
Qed.
Lemma collect_fold fuel hook im : ∀ evs obs, Forall2 (observes hook im) evs obs → ∀ ps l,
  prof_ok ps → Z.of_nat (length (entries ps) + length evs) ≤ 2 ^ 26 → 1024 + 3 * Z.of_nat (length (entries ps) + length evs) ≤ Z.of_nat fuel →
  entries ps = profile l → total_ns ps = u64 (sumZ l.*2) → total_samples ps = u64 (Z.of_nat (length l)) →
  ∃ ps', collect_all mem_ok fuel hook im ps evs = Ret ps' ∧ let l' := l ++ omap id obs in
    entries ps' = profile l' ∧ total_ns ps' = u64 (sumZ l'.*2) ∧ total_samples ps' = u64 (Z.of_nat (length l')).
Proof.
  unfold collect_all. induction 1 as [|[[[m pc] base] dt] o evs obs Ho _ IH]; intros ps l P Hn Hf He Ht Hs.
  { exists ps. cbn. by rewrite app_nil_r. }
  cbn [foldM length] in *. destruct o as [[fs w]|]; cbn [omap list_omap id].
  - destruct Ho as (->&Hdt&Hm&Hfs&Hw).
    destruct (record_ok fuel ps fs dt P) as (ps1&E&P1&He1&Ht1&Hs1); [split; lia|].
    assert (prof_collect mem_ok fuel hook im m pc base ps dt = Ret ps1) as ->.
    { unfold prof_collect. rewrite Hw. destruct (Z.eqb_spec dt 0); [done|]. destruct (Z.eqb_spec (mem m) 0); [done|]. cbn [orb mbind outcome_bind].
      by rewrite bool_decide_eq_false_2. }
    cbn [mbind outcome_bind].
    pose proof (add_weight_length fs dt (entries ps)) as Hl. rewrite <- He1 in Hl.
    destruct (IH ps1 (l ++ [(fs, dt)]) P1) as (ps'&Ef&H'); [lia|lia|..|by exists ps'; rewrite <- app_assoc in H'].
    + by rewrite profile_snoc, <- He.
    + rewrite Ht1, Ht, fmap_app, sumZ_app. unfold u64. rewrite Zplus_mod_idemp_l. f_equal. cbn. lia.
    + rewrite Hs1, Hs, length_app. unfold u64. rewrite Zplus_mod_idemp_l. f_equal. cbn. lia.
  - assert (prof_collect mem_ok fuel hook im m pc base ps dt = Ret ps) as ->; [|cbn [mbind outcome_bind]; apply IH; done || lia].
    unfold prof_collect. destruct Ho as [->|[->|Hw]]; [done|by rewrite orb_true_r|]. destruct (_ || _); [done|]. by rewrite Hw.
Qed.

(** C38: the profiler's table is the profile.  While memory lasts, collecting any
    run of samples terminates, and the entries are the stacks that were observed, once
    each and in the order of their first samples, each with the sum of its times and
    the number of its samples modulo 2^64; the totals are those of all samples, and the times
    of the stacks add up to them. *)
Theorem prof_refines fuel hook im evs obs :
  Forall2 (observes hook im) evs obs → Z.of_nat (length evs) ≤ 2 ^ 26 → 1024 + 3 * Z.of_nat (length evs) ≤ Z.of_nat fuel →
  let l := omap id obs in
  ∃ ps, collect_all mem_ok fuel hook im prof_init evs = Ret ps ∧ entries ps = profile l ∧ NoDup (e_frames <$> entries ps) ∧
    total_ns ps = u64 (sumZ l.*2) ∧ total_samples ps = u64 (Z.of_nat (length l)) ∧ u64 (sumZ (weight_ns <$> entries ps)) = total_ns ps.
Proof.
  intros Ho Hn Hf. cbv zeta. destruct (collect_fold fuel hook im evs obs Ho prof_init [] prof_init_ok) as (ps&E&He&Ht&Hs); try done.
  exists ps. cbn [app] in *. split; [done|]. split; [done|]. rewrite He, Ht. split; [|split; [done|split; [done|]]].
  - unfold profile. rewrite <- list_fmap_compose, (list_fmap_ext _ id) by done. rewrite list_fmap_id. apply stacks_nodup.
  - clear. generalize (omap (M := list) id obs). intros l. induction l as [|[k dt] l IH] using rev_ind; [done|].
    rewrite profile_snoc, add_weight_total, fmap_app, sumZ_app. unfold u64 in *. rewrite <- Zplus_mod_idemp_l, IH, Zplus_mod_idemp_l. f_equal. cbn. lia.
Qed.
(** Two samples of the stack of [w_called] around an idle one. *)
Definition w_event (dt : Z) : event := (set_sp (-6) (w_mem w_active), 10, 1, dt).
Lemma prof_refines_witness : ∃ ps, collect_all mem_ok 1033 true w_image prof_init [w_event 1500; w_event 0; w_event 2500] = Ret ps ∧
  entries ps = [mk_ProfEntry [1; 0] 4000 2] ∧ total_ns ps = 4000 ∧ total_samples ps = 2.
Proof.
  assert (Forall2 (observes true w_image) [w_event 1500; w_event 0; w_event 2500] [Some ([1; 0], 1500); None; Some ([1; 0], 2500)]) as Ho.
  { repeat constructor; try done; vm_compute; reflexivity. }
  destruct (prof_refines 1033 true w_image _ _ Ho) as (ps&E&He&_&Ht&Hs&_); [vm_compute; congruence|vm_compute; congruence|].
  exists ps. split; [exact E|]. split; [rewrite He; vm_compute; reflexivity|]. split; [rewrite Ht|rewrite Hs]; vm_compute; reflexivity.
Defined.

(** A table that could not grow fills up, and then the next new stack is never
    placed: the search has no empty slot to end at. *)
Lemma full_table_hangs ok fuel ps frames dt : slots_ok (slot_cap ps) (entry_slots (slots_of ps)) (e_frames <$> entries ps) →
  ok_rehash ok = false → Forall (λ e, 0 ≤ e) (entry_slots (slots_of ps)) → 0 ≤ slot_used ps < 2 ^ 26 → slot_cap ps < 2 ^ 26 →
  frames ∉ e_frames <$> entries ps → prof_record ok fuel ps frames dt = NoFuel.
Proof.
  intros Hs Hok Hfull Hu Hc Hne. pose proof (slots_pos _ _ _ Hs) as Hpos. unfold prof_record, prof_find_or_add, prof_room.
  destruct (Z.eqb_spec (slot_cap ps) 0); [lia|]. cbn [andb]. rewrite !chk32_small by lia. cbn [mbind outcome_bind]. unfold prof_rehash. rewrite chk32_small by lia.
  cbn [mbind outcome_bind]. rewrite Hok. cbn [negb].
  assert ((Some <$> (if slot_cap ps * 7 <=? (slot_used ps + 1) * 10 then Ret ps else Ret ps)) = Ret (Some ps)) as -> by by destruct (_ <=? _).
  cbn [mbind outcome_bind]. rewrite (slots_mask _ _ _ Hs). destruct (q_pow _ _ _ Hs) as (k&Hk&Hp).
  rewrite (probe_full _ k Hk Hp _ (q_len _ _ _ Hs)); [done|by apply Z.mod_pos_bound|]. intros j e Hj.
  pose proof (proj1 (Forall_lookup _ _) Hfull _ _ Hj) as He. cbn in He. split; [exact He|].
  pose proof (q_range _ _ _ Hs _ _ Hj He) as Hr. rewrite length_fmap in Hr. unfold same_stack.
  destruct (lookup_lt_is_Some_2 (entries ps) (Z.to_nat e)) as [x Hx]; [lia|]. rewrite Hx. cbn [or_undef mbind outcome_bind]. f_equal.
  apply bool_decide_eq_false_2. intros <-. apply Hne, list_elem_of_fmap. exists x. split; [done|]. by eapply list_elem_of_lookup_2.
Qed.

(** ** The files *)
Section Files.
Context (names : list (option string)).
Lemma name_index_spec name : ∀ tab i, 0 ≤ i → (name ∈ tab → ∃ n, name_index tab name i = i + Z.of_nat n ∧ tab !! n = Some name) ∧ (name ∉ tab → name_index tab name i = -1).
Proof.
  induction tab as [|x tab IH]; intros i Hi; (split; [|intros Hne]); cbn [name_index]; try done.
  - by intros ?%not_elem_of_nil.
  - intros Hin. case_bool_decide as Hx; [exists 0%nat; subst; split; [lia|done]|].
    apply elem_of_cons in Hin as [->|Hin]; [done|]. destruct (proj1 (IH (i + 1) ltac:(lia)) Hin) as (n&->&Hn). exists (S n). split; [lia|done].
  - apply not_elem_of_cons in Hne as [? ?]. rewrite bool_decide_eq_false_2 by congruence. apply IH; [lia|done].
Qed.
Lemma name_interned tab fid : NoDup tab → NoDup (prof_intern_frame names tab fid) ∧ tab `prefix_of` prof_intern_frame names tab fid ∧ prof_name names fid ∈ prof_intern_frame names tab fid.
Proof.
  intros Hnd. unfold prof_intern_frame. destruct (name_index_spec (prof_name names fid) tab 0 ltac:(lia)) as [H1 H2].
  destruct (decide (prof_name names fid ∈ tab)) as [Hin|Hin].
  - destruct (H1 Hin) as (n&->&Hn). destruct (Z.leb_spec 0 (0 + Z.of_nat n)); [done|lia].
  - rewrite (H2 Hin). cbn. split; [|split; [by apply prefix_app_r|set_solver]].
    apply NoDup_app. split; [done|]. split; [|by apply NoDup_singleton]. by intros y Hy ->%list_elem_of_singleton.
Qed.
Lemma interned fids : ∀ tab, NoDup tab → NoDup (foldl (prof_intern_frame names) tab fids) ∧ tab `prefix_of` foldl (prof_intern_frame names) tab fids ∧
  ∀ f, f ∈ fids → prof_name names f ∈ foldl (prof_intern_frame names) tab fids.
Proof.
  induction fids as [|f fids IH]; intros tab Hnd; cbn [foldl]; [split; [done|split; [done|by intros f ?%not_elem_of_nil]]|].
  destruct (name_interned tab f Hnd) as (H1&H2&H3). destruct (IH _ H1) as (H4&H5&H6). split; [done|]. split; [by etrans|].
  intros g [->|Hg]%elem_of_cons; [|by apply H6]. eapply elem_of_prefix; done.
Qed.
Lemma names_interned es : ∀ tab, foldl (λ tab e, foldl (prof_intern_frame names) tab (e_frames e)) tab es = foldl (prof_intern_frame names) tab (concat (e_frames <$> es)).
Proof. induction es as [|e es IH]; intros tab; cbn; [done|]. by rewrite IH, foldl_app. Qed.
Lemma folded_join fs : folded_frames names fs = String.concat ";" (prof_name names <$> fs).
Proof. induction fs as [|f [|g fs] IH]; [done|done|]. cbn [folded_frames fmap list_fmap String.concat] in *. by rewrite IH. Qed.

Lemma json_stack es e : e ∈ es → let tab := foldl (λ tab e, foldl (prof_intern_frame names) tab (e_frames e)) [] es in
  (λ id, tab !! Z.to_nat id) <$> ((λ fid, name_index tab (prof_name names fid) 0) <$> rev (e_frames e)) = Some <$> (prof_name names <$> rev (e_frames e)).
Proof.
  intros He. cbv zeta. rewrite names_interned. destruct (interned (concat (e_frames <$> es)) [] (NoDup_nil_2)) as (_&_&Hin).
  rewrite <- !list_fmap_compose. apply list_fmap_ext. intros i f Hf%list_elem_of_lookup_2. cbn.
  destruct (proj1 (name_index_spec (prof_name names f) (foldl (prof_intern_frame names) [] (concat (e_frames <$> es))) 0 ltac:(lia))) as (n&->&Hn).
  - apply Hin. apply list_elem_of_In, in_concat. exists (e_frames e). split; apply list_elem_of_In; [apply list_elem_of_fmap; eauto|].
    apply list_elem_of_In, in_rev, list_elem_of_In. done.
  - by rewrite Z.add_0_l, Nat2Z.id.
Qed.
End Files.

(** ** The summary *)
Definition self_time (es : list ProfEntry) (f : Z) : Z := u64 (sumZ (weight_ns <$> filter (λ e, head (e_frames e) = Some f) es)).
Lemma self_add_length n tot e : length (self_add n tot e) = length tot.
Proof. unfold self_add. destruct (e_frames e); [done|]. by destruct (_ && _); rewrite ?length_alter. Qed.
Lemma self_fold n f : 0 ≤ f < n → ∀ es tot w, tot !! Z.to_nat f = Some (u64 w) →
  foldl (self_add n) tot es !! Z.to_nat f = Some (u64 (w + sumZ (weight_ns <$> filter (λ e, head (e_frames e) = Some f) es))).
Proof.
  intros Hf. induction es as [|e es IH]; intros tot w Ht; cbn [foldl].
  - rewrite Ht. unfold sumZ. cbn. by rewrite Z.add_0_r.
  - rewrite filter_cons. unfold self_add at 2. destruct (e_frames e) as [|g fs]; cbn [head].
    + destruct (decide _); [done|]. by apply IH.
    + destruct (decide (Some g = Some f)) as [[= ->]|Hne].
      * destruct (Z.leb_spec 0 f); [|lia]. destruct (Z.ltb_spec f n); [|lia]. cbn [andb]. rewrite (IH _ (w + weight_ns e)).
        -- cbn [fmap list_fmap]. unfold sumZ. cbn [foldr]. by rewrite Z.add_assoc.
        -- rewrite list_lookup_alter, Ht, decide_True by done. cbn [fmap option_fmap option_map]. f_equal. apply Zplus_mod_idemp_l.
      * apply IH. destruct ((0 <=? g) && (g <? n)) eqn:Eg; [|done]. rewrite list_lookup_alter_ne; [done|]. intros Heq. apply Hne. f_equal. lia.
Qed.
Lemma fn_total_self n es f : 0 ≤ f < Z.of_nat n → total_of (fn_total n es) f = self_time es f.
Proof.
  intros Hf. unfold total_of, fn_total. apply list_lookup_total_correct. rewrite (self_fold _ f Hf es _ 0); [done|]. apply lookup_replicate. split; [done|lia].
Qed.

Section Sorting.
Context (tot : list Z).
Abbreviation hotter := (λ x y, total_of tot y ≤ total_of tot x).
Lemma exchange_spec rest : ∀ x z r, exchange tot x rest = (z, r) → x :: rest ≡ₚ z :: r ∧ hotter z x ∧ Forall (hotter z) r.
Proof.
  induction rest as [|y rest IH]; intros x z r E; cbn [exchange] in E; [injection E as <- <-; split; [done|split; [lia|constructor]]|].
  destruct (Z.ltb_spec (total_of tot x) (total_of tot y)); destruct (exchange tot _ rest) as [z' r'] eqn:Ex; injection E as <- <-; destruct (IH _ _ _ Ex) as (Hp&Hx&Hr).
  - split; [by rewrite Hp, Permutation_swap|]. split; [lia|]. constructor; [lia|done].
  - split; [by rewrite Permutation_swap, Hp, Permutation_swap|]. split; [done|]. constructor; [lia|done].
Qed.
Lemma sort_ids_spec : ∀ n ids, length ids = n → sort_ids tot n ids ≡ₚ ids ∧ StronglySorted hotter (sort_ids tot n ids).
Proof.
  induction n as [|n IH]; intros [|x rest] Hl; try done; cbn [sort_ids]; [split; [done|constructor]|].
  destruct (exchange tot x rest) as [z r] eqn:E. destruct (exchange_spec _ _ _ _ E) as (Hp&_&Hr).
  destruct (IH r) as [Hp' Hs].
  { apply Permutation_length in Hp. simpl in *. lia. }
  split; [by rewrite Hp', Hp|]. constructor; [done|]. by rewrite Hp'.
Qed.
Lemma until_zero_spec : ∀ ids, ∃ k, until_zero tot ids = take k ids ∧ (k ≤ length ids)%nat ∧ Forall (λ f, total_of tot f ≠ 0) (take k ids) ∧
  ∀ f, ids !! k = Some f → total_of tot f = 0.
Proof.
  induction ids as [|x ids (k&E&Hk&Hn&Hz)]; [exists 0%nat; split; [done|split; [simpl; lia|split; [constructor|done]]]|]. cbn [until_zero].
  destruct (Z.eqb_spec (total_of tot x) 0) as [Hx|Hx].
  - exists 0%nat. split; [done|]. split; [simpl; lia|]. split; [constructor|]. by intros f [= <-].
  - exists (S k). cbn [take length]. rewrite E. split; [done|]. split; [lia|]. split; [by constructor|done].
Qed.
End Sorting.

(** The functions with the most time, in order, up to ten. *)
Lemma summary_spec names ps : total_ns ps ≠ 0 → ∃ ids k, ids ≡ₚ seqZ 0 (Z.of_nat (length names)) ∧
  StronglySorted (λ f g, self_time (entries ps) g ≤ self_time (entries ps) f) ids ∧
  prof_print_summary names ps = (λ f, (default "?"%string (vm_fn_name names f), self_time (entries ps) f)) <$> take k ids ∧ (k ≤ 10)%nat ∧
  Forall (λ f, self_time (entries ps) f ≠ 0) (take k ids) ∧ ((k < 10)%nat → ∀ f, ids !! k = Some f → self_time (entries ps) f = 0).
Proof.
  intros Hne. unfold prof_print_summary. destruct (Z.eqb_spec (total_ns ps) 0); [done|]. clear.
  set (n := length names). set (tot := fn_total n (entries ps)).
  destruct (sort_ids_spec tot n (seqZ 0 (Z.of_nat n))) as [Hp Hs]; [rewrite length_seqZ; lia|].
  set (ids := sort_ids tot n _) in *.
  assert (∀ f, f ∈ ids → total_of tot f = self_time (entries ps) f) as Ht.
  { intros f Hf. apply fn_total_self. rewrite Hp in Hf. apply elem_of_seqZ in Hf. lia. }
  destruct (until_zero_spec tot (take 10 ids)) as (k&->&Hk&Hn&Hz). rewrite length_take in Hk. rewrite take_take, Nat.min_l in * by lia.
  assert (∀ f, f ∈ take k ids → f ∈ ids) as Hsub.
  { intros f Hf. eapply elem_of_prefix; [exact Hf|apply prefix_take]. }
  exists ids, k. split; [done|]. split; [|split; [|split; [lia|split]]].
  - clear -Hs Ht. induction Hs as [|x l Hl IH Hx]; constructor; [apply IH; set_solver|]. apply Forall_forall. intros y Hy.
    rewrite <- !Ht by set_solver. by eapply Forall_forall in Hx.
  - apply list_fmap_ext. intros i f Hf%list_elem_of_lookup_2. by rewrite Ht by by apply Hsub.
  - apply Forall_forall. intros f Hf. rewrite <- Ht by by apply Hsub. by eapply Forall_forall in Hn.
  - intros Hk' f Hf. rewrite <- Ht by by eapply list_elem_of_lookup_2. apply Hz. by rewrite lookup_take_lt by lia.
Qed.

(** What the profiler writes.  With [qsort] sorting, the stacks of both files
    are the entries of the profile in order of falling time: the names of the JSON
    document are distinct and the indices of each stack name its functions,
    outermost first; a folded line has the same names joined by semicolons.  The
    summary lists the functions by falling self time, up to ten, and leaves out
    none that has more. *)
Theorem prof_files (qsort : (ProfEntry → ProfEntry → Z) → list ProfEntry → list ProfEntry) names ps :
  (∀ l, qsort cmp_entry_desc l ≡ₚ l ∧ StronglySorted (λ a b, cmp_entry_desc a b ≤ 0) (qsort cmp_entry_desc l)) → total_ns ps ≠ 0 →
  ∃ es j top, prof_finish qsort names ps =
      (j, (λ e, String.concat ";" (prof_name names <$> rev (e_frames e)) +:+ " " +:+ pretty (weight_ns e `div` 1000))%string <$> es, top) ∧
    es ≡ₚ entries ps ∧ StronglySorted (λ a b, weight_ns b ≤ weight_ns a) es ∧
    NoDup (j_frames j) ∧ j_end j = total_ns ps `div` 1000 ∧ j_weights j = (λ e, weight_ns e `div` 1000) <$> es ∧
    Forall2 (λ e ids, (λ id, j_frames j !! Z.to_nat id) <$> ids = Some <$> (prof_name names <$> rev (e_frames e))) es (j_samples j) ∧
    ∃ ids k, ids ≡ₚ seqZ 0 (Z.of_nat (length names)) ∧ StronglySorted (λ f g, self_time es g ≤ self_time es f) ids ∧
      top = (λ f, (default "?"%string (vm_fn_name names f), self_time es f)) <$> take k ids ∧ (k ≤ 10)%nat ∧
      Forall (λ f, self_time es f ≠ 0) (take k ids) ∧ ((k < 10)%nat → ∀ f, ids !! k = Some f → self_time es f = 0).
Proof.
  intros Hq Hne. destruct (Hq (entries ps)) as [Hp Hs]. unfold prof_finish. set (es := qsort cmp_entry_desc (entries ps)) in *. cbv zeta.
  set (ps' := mk_ProfState es _ _ _ _ _ _). destruct (summary_spec names ps' Hne) as (ids&k&H).
  exists es, (prof_write_json names ps'), (prof_print_summary names ps'). split.
  { f_equal. f_equal. unfold prof_write_folded. apply list_fmap_ext. intros i e _. by rewrite folded_join. }
  split; [done|]. split.
  { clear -Hs. induction Hs as [|x l Hl IH Hx]; constructor; [done|]. eapply Forall_impl; [done|]. intros y. unfold cmp_entry_desc.
    destruct (Z.ltb_spec (weight_ns x) (weight_ns y)); lia. }
  cbn [prof_write_json j_frames j_end j_weights j_samples entries total_ns ps']. split.
  { rewrite names_interned. apply interned, NoDup_nil_2. }
  split; [done|]. split; [done|]. split; [|by exists ids, k].
  apply Forall2_fmap_r, Forall_Forall2_diag, Forall_forall. intros e He. by apply json_stack.
Qed.
Definition w_qsort (cmp : ProfEntry → ProfEntry → Z) : list ProfEntry → list ProfEntry := @merge_sort _ (λ a b, cmp a b ≤ 0) (λ a b, Z_le_dec (cmp a b) 0).
Lemma prof_files_witness : ∃ es j folded top, prof_finish w_qsort [Some "main"%string; None]
    (mk_ProfState [mk_ProfEntry [0] 1000 1; mk_ProfEntry [1; 0] 4000 2] 64 [] 0 2 5000 3) = (j, folded, top) ∧
  StronglySorted (λ a b, weight_ns b ≤ weight_ns a) es ∧ es ≡ₚ [mk_ProfEntry [0] 1000 1; mk_ProfEntry [1; 0] 4000 2] ∧
  folded = ["main;fn#1 4"; "main 1"]%string ∧ top = [("?", 4000); ("main", 1000)]%string.
Proof.
  destruct (prof_files w_qsort [Some "main"%string; None]
    (mk_ProfState [mk_ProfEntry [0] 1000 1; mk_ProfEntry [1; 0] 4000 2] 64 [] 0 2 5000 3)) as (es&j&top&E&Hp&Hs&_).
  - intros l. split; [apply merge_sort_Permutation|]. apply StronglySorted_merge_sort.
    + intros a b c. unfold cmp_entry_desc. repeat case_match; lia.
    + intros a b. unfold cmp_entry_desc. destruct (Z.ltb_spec (weight_ns a) (weight_ns b)), (Z.ltb_spec (weight_ns b) (weight_ns a)); lia.
  - done.
  - exists es, j. eexists _, top. split; [exact E|]. split; [exact Hs|]. split; [exact Hp|].
    vm_compute in E. injection E as <- Ef <-. split; [symmetry; exact Ef|]. reflexivity.
Defined.
