(* ===== verification/Cmodule.v ===== *)
(** What a C module function sees: the callback window that [do_ccall] of
    src/vm.c opens (gate closed, allocations routed to the chunk arena), the
    malloc'd scratch buffers the modules build their results in, and the
    reading of string arguments.

    [yields] is the interface the module files are proved against: inside a
    window the function returns a value that denotes the stated tree, leaves
    every existing object alone and leaves a window behind. *)
From stdpp Require Import base tactics list gmap strings.
From Stdlib Require Import ZArith Lia Ascii.
From S2P Require Import Prelude Values Heap Resource Gc GcCorrect GcSpec Tree Alloc Copy.
Open Scope Z_scope.

(** * The window *)
Definition tail_chunk (a : CallbackArena) : TaChunk := default (ca_head a) (last (ca_rest a)).

(** The chunk being bumped is below the break and free beyond its fill mark;
    nothing lies above the break. *)
Record window (st : store) (p : ProcMem) : Prop := {
  w_open : ∃ a, ccall p = Some a ∧ ca_converge a = false ∧ 0 < ck_data (tail_chunk a) ∧
    0 ≤ ck_used (tail_chunk a) ∧
    ck_data (tail_chunk a) + ck_cap (tail_chunk a) ≤ brk st ∧
    (∀ x, ck_data (tail_chunk a) + ck_used (tail_chunk a) ≤ x < ck_data (tail_chunk a) + ck_cap (tail_chunk a) →
          cells st !! x = None);
  w_brk : 0 ≤ brk st < ADDR_LIMIT + 16;
  w_fresh : ∀ x, brk st ≤ x → cells st !! x = None
}.

(** A value denotes a tree through the objects of the store. *)
Definition denotes (st : store) (v : Val) (t : tree) : Prop := repr (λ x, is_Some (cells st !! x)) st v t.

Lemma denotes_mono st st' v t : cells st ⊆ cells st' → denotes st v t → denotes st' v t.
Proof.
  intros Hs. apply repr_mono. intros a [c Hc].
  pose proof (lookup_weaken _ _ _ _ Hc Hs) as Hc'. rewrite Hc, Hc'. eauto.
Qed.

(** What building a tree may move the break by: each object may open a
    chunk. *)
Definition BUMP_COST : Z := TA_CCALL_CHUNK_NEXT + 32.
Definition CHUNK_COST : Z := BUMP_COST + 64.
Fixpoint cost (t : tree) : Z :=
  match t with
  | TPair a b => CHUNK_COST + cost a + cost b
  | TString d | TBytes d => CHUNK_COST + Z.of_nat (length d)
  | _ => 0
  end.

Lemma cost_nonneg t : 0 ≤ cost t.
Proof. induction t using tree_ind'; simpl; unfold CHUNK_COST, BUMP_COST, TA_CCALL_CHUNK_NEXT in *; lia. Qed.

Definition yields (m : outcome (Val * store * ProcMem)) (st : store) (t : tree) : Prop :=
  brk st + cost t < ADDR_LIMIT →
  ∃ v st' p', m = Ret (v, st', p') ∧ denotes st' v t ∧ window st' p' ∧
    cells st ⊆ cells st' ∧ brk st ≤ brk st' ≤ brk st + cost t.

(** What one allocation in the window does. *)
Record bumped (st : store) (n x : Z) (st' : store) (a' : CallbackArena) : Prop := {
  bm_cells : cells st' = cells st;
  bm_payloads : payloads st' = payloads st;
  bm_new : cells st !! x = None;
  bm_addr : 0 < x < ADDR_LIMIT;
  bm_brk : brk st ≤ brk st' ≤ brk st + (n + BUMP_COST);
  bm_below : x < brk st';
  bm_open : ca_converge a' = false;
  bm_data : 0 < ck_data (tail_chunk a') ∧ 0 ≤ ck_used (tail_chunk a');
  bm_end : ck_data (tail_chunk a') + ck_cap (tail_chunk a') ≤ brk st';
  bm_free : ∀ y,
    ck_data (tail_chunk a') + ck_used (tail_chunk a') ≤ y < ck_data (tail_chunk a') + ck_cap (tail_chunk a') →
    y ≠ x ∧ cells st !! y = None
}.

Section Bump.
Context (st : store) (p : ProcMem) (a : CallbackArena) (n : Z).
Context (W : window st p) (Ea : ccall p = Some a) (Hn : 0 < n).
Context (Hl : brk st + (n + BUMP_COST) < ADDR_LIMIT).

(** A chunk opened for the request. *)
Lemma fresh_chunk_bumped (mk : TaChunk → CallbackArena) (cp := if TA_CCALL_CHUNK_NEXT <? n then n else TA_CCALL_CHUNK_NEXT) :
  (∀ c, ca_converge (mk c) = false ∧ tail_chunk (mk c) = c) →
  ∃ x st' a', match malloc st (SIZEOF_CHUNK + cp) with
    | None => None
    | Some (b, st') => Some (b + SIZEOF_CHUNK + 0, st', mk (mk_TaChunk (b + SIZEOF_CHUNK) (0 + n) cp))
    end = Some (x, st', a') ∧ bumped st n x st' a'.
Proof using W Hn Hl.
  intros Hmk. destruct W as [_ [Hb _] Hnone].
  unfold malloc, SIZEOF_CHUNK, BUMP_COST in *.
  assert (n ≤ cp ≤ n + 4096 ∧ 0 < cp) as [Hcp Hcp'].
  { unfold cp, TA_CCALL_CHUNK_NEXT in *. destruct (Z.ltb_spec 4096 n); lia. }
  unfold TA_CCALL_CHUNK_NEXT in *. destruct (Z.ltb_spec (brk st + (16 + cp)) ADDR_LIMIT); [|lia].
  do 3 eexists. split; [done|]. clearbody cp.
  assert (16 + cp < 16 * ((16 + cp) / 16 + 1) ≤ 16 + cp + 16) by (Z.div_mod_to_equations; lia).
  set (c := mk_TaChunk _ _ _). destruct (Hmk c) as [Hk1 Hk2].
  split; simpl; rewrite ?Hk1, ?Hk2; simpl; unfold BUMP_COST, TA_CCALL_CHUNK_NEXT; try done; try lia.
  - apply Hnone. lia.
  - intros y Hy. split; [lia|]. apply Hnone. lia.
Qed.

(** Room in the current chunk. *)
Lemma same_chunk_bumped (c := tail_chunk a) (a' : CallbackArena) :
  ck_used c + n ≤ ck_cap c → ca_converge a' = false →
  tail_chunk a' = mk_TaChunk (ck_data c) (ck_used c + n) (ck_cap c) →
  bumped st n (ck_data c + ck_used c) st a'.
Proof using W Ea Hn Hl.
  intros Hfit Hcv Et. assert (0 ≤ BUMP_COST) by done.
  destruct W as [(a0&E&Hc&Hd&Hu&Hb&Hf) _ _]. rewrite Ea in E. injection E as <-. fold c in Hd, Hu, Hb, Hf.
  split; rewrite ?Et; simpl; try done; try lia.
  - apply Hf. lia.
  - intros y Hy. split; [lia|]. apply Hf. lia.
Qed.

Lemma callback_alloc_window :
  ∃ x st' a', callback_arena_alloc st a n = Some (x, st', a') ∧ bumped st n x st' a'.
Proof using W Ea Hn Hl.
  pose proof W as [(a0&E&Hc&_) _ _]. rewrite Ea in E. injection E as <-.
  unfold callback_arena_alloc. destruct (last (ca_rest a)) as [c|] eqn:El.
  - assert (Et : tail_chunk a = c) by (unfold tail_chunk; by rewrite El).
    destruct (Z.ltb_spec (ck_cap c) (ck_used c + n)) as [Hlt|Hge].
    + apply (fresh_chunk_bumped (λ nc, mk_CallbackArena (ca_head a) (ca_rest a ++ [nc]) (ca_total a + n) (ca_resources a) (ca_converge a) (ca_promote a))).
      intros nc. unfold tail_chunk. simpl. by rewrite last_snoc.
    + do 3 eexists. split; [done|]. rewrite <- Et in *. apply same_chunk_bumped; [done..|].
      unfold tail_chunk. simpl. by rewrite last_snoc.
  - assert (Et : tail_chunk a = ca_head a) by (unfold tail_chunk; by rewrite El).
    destruct (Z.ltb_spec (ck_cap (ca_head a)) (ck_used (ca_head a) + n)) as [Hlt|Hge].
    + by apply (fresh_chunk_bumped (λ nc, mk_CallbackArena (ca_head a) [nc] (ca_total a + n) (ca_resources a) (ca_converge a) (ca_promote a))).
    + do 3 eexists. split; [done|]. rewrite <- Et in *. by apply same_chunk_bumped.
Qed.
End Bump.

Lemma raw_size_pos o : 0 < raw_size o.
Proof. destruct o; simpl; unfold SIZEOF_PAIR, SIZEOF_CLOSURE, SIZEOF_VAL, SIZEOF_STRING, SIZEOF_BYTES, SIZEOF_RESOURCE; lia. Qed.

Section Window.
Context (cap stress : Z).

(** One object: it is new, the rest of the store is untouched, the window
    stays. *)
Lemma alloc_window st p o :
  window st p → brk st + (obj_size o + BUMP_COST) < ADDR_LIMIT →
  ∃ v st' p', alloc_obj cap stress st p o = Ret (v, st', p') ∧ window st' p' ∧
    points_to (λ x, is_Some (cells st' !! x)) st' v o ∧ cells st ⊆ cells st' ∧
    brk st ≤ brk st' ≤ brk st + (obj_size o + BUMP_COST) ∧ 0 < lpayload v ∧ payloads st' = payloads st ∧ pid p' = pid p.
Proof.
  intros W Hl. destruct (w_open _ _ W) as (a&Ea&Hc&_).
  pose proof (ta_heap_object_size_spec (raw_size o)) as (_&H16&_).
  destruct (callback_alloc_window st p a (obj_size o) W Ea) as (x&st1&a1&E&B); [unfold obj_size; lia|done|].
  unfold alloc_obj, proc_heap_alloc. rewrite Ea, Hc. simpl. fold (obj_size o). rewrite E. simpl.
  do 3 eexists. split; [done|]. destruct B as [Bc Bp Bn Ba Bb Bw Bo [Bd1 Bd2] Be Bf].
  assert (Hx : x mod 2 ^ 48 = x) by (apply Z.mod_small; unfold ADDR_LIMIT in Ba; lia).
  assert (HL : ADDR_LIMIT = 2 ^ 47) by done.
  assert (Hpay : 0 < lpayload (box_tag_payload (obj_tag o) x)).
  { change (box_tag_payload (obj_tag o) x) with (lbox (obj_tag o) x). rewrite lbox_payload, Hx. lia. }
  split; [split|split; [|split]]; simpl.
  - exists a1. split; [done|]. do 4 (split; [done|]). intros y Hy. destruct (Bf y Hy) as [Hne Hno].
    rewrite Bc. by rewrite lookup_insert_ne, lookup_delete_ne.
  - destruct W as [_ Wb _]. assert (0 ≤ BUMP_COST) by done. lia.
  - intros y Hy. rewrite lookup_insert_ne, lookup_delete_ne, Bc by lia. apply W. lia.
  - unfold points_to. change (box_tag_payload (obj_tag o) x) with (lbox (obj_tag o) x). rewrite lbox_payload, lbox_tag, Hx.
    simpl. rewrite lookup_insert_eq. split; [apply lbox_range|]. split; [by destruct o|]. eauto.
  - rewrite Bc, delete_id by done. by apply insert_subseteq.
  - split; [done|]. split; [exact Hpay|done].
Qed.

(** ** The constructors, as the modules call them *)

(** [val_string(p, data, len)] with [len] an [int]: the length and the size
    computed from it must fit. *)
Definition STRING_MAX : Z := 2 ^ 31 - 16.
Definition new_string (st : store) (p : ProcMem) (d : list Z) : outcome (Val * store * ProcMem) :=
  if Z.of_nat (length d) <? STRING_MAX then val_string cap stress st p d else Undef.

Lemma new_string_yields st p d :
  window st p → Z.of_nat (length d) < STRING_MAX → yields (new_string st p d) st (TString d).
Proof.
  intros W Hd Hb. unfold new_string. destruct (Z.ltb_spec (Z.of_nat (length d)) STRING_MAX); [|lia].
  pose proof (ta_heap_object_size_spec (raw_size (HeapString d))) as (_&_&_&Hs). fold (obj_size (HeapString d)) in Hs.
  simpl in Hs, Hb. unfold SIZEOF_STRING in Hs. specialize (Hs ltac:(lia)).
  destruct (alloc_window st p (HeapString d) W) as (v&st1&p1&E&W1&P&S&B&_).
  { unfold CHUNK_COST in *. lia. }
  exists v, st1, p1. split; [exact E|]. split; [exact P|]. split; [done|]. split; [done|]. simpl. unfold CHUNK_COST in *. lia.
Qed.

Lemma pair_yields st p va vb ta tb :
  window st p → denotes st va ta → denotes st vb tb → brk st + CHUNK_COST < ADDR_LIMIT →
  ∃ v st' p', val_pair cap stress st p va vb = Ret (v, st', p') ∧ denotes st' v (TPair ta tb) ∧ window st' p' ∧
    cells st ⊆ cells st' ∧ brk st ≤ brk st' ≤ brk st + CHUNK_COST.
Proof.
  intros W Ha Hb Hr. assert (obj_size (HeapPair va vb) = 24) as Hs by done. unfold CHUNK_COST in *.
  destruct (alloc_window st p (HeapPair va vb) W) as (v&st1&p1&E&W1&P&S&B&_); [lia|].
  exists v, st1, p1. split; [exact E|]. split; [|split; [done|split; [done|lia]]].
  exists va, vb. split; [exact P|]. split; by eapply denotes_mono.
Qed.

(** Two results, then their pair: the shape of every list the modules build. *)
Lemma yields_pair st (ma : outcome (Val * store * ProcMem)) (mb : Val → store → ProcMem → outcome (Val * store * ProcMem)) ta tb :
  yields ma st ta →
  (∀ va st1 p1, denotes st1 va ta → window st1 p1 → cells st ⊆ cells st1 → yields (mb va st1 p1) st1 tb) →
  yields ('(va, st1, p1) ← ma; '(vb, st2, p2) ← mb va st1 p1; val_pair cap stress st2 p2 va vb) st (TPair ta tb).
Proof.
  intros Ha Hb Hr. simpl in Hr. pose proof (cost_nonneg tb). assert (0 < CHUNK_COST) by done.
  destruct (Ha ltac:(lia)) as (va&st1&p1&E1&D1&W1&S1&B1). rewrite E1. simpl.
  destruct (Hb va st1 p1 D1 W1 S1 ltac:(lia)) as (vb&st2&p2&E2&D2&W2&S2&B2). rewrite E2. simpl.
  destruct (pair_yields st2 p2 va vb ta tb W2) as (v&st3&p3&E3&D3&W3&S3&B3); [by eapply denotes_mono|done|lia|].
  exists v, st3, p3. split; [done|]. split; [done|]. split; [done|]. split; [by do 2 (etrans; [done|])|]. simpl. lia.
Qed.

Lemma imm_yields st p v : window st p → 0 ≤ v < 2 ^ 64 → is_heap_tag (val_tag v) = false → yields (Ret (v, st, p)) st (Imm v).
Proof. intros W Hv Ht _. exists v, st, p. split; [done|]. split; [done|]. split; [done|]. split; [done|]. simpl. lia. Qed.

Lemma int_yields st p i : window st p → yields (Ret (val_int i, st, p)) st (Imm (val_int i)).
Proof. intros W. apply imm_yields; [done|rewrite val_int_lbox; apply lbox_range|by rewrite val_int_tag]. Qed.
End Window.

(** * Arguments *)
Definition arg (args : list Val) (i : nat) : outcome Val := or_undef (args !! i).

Lemma string_denotes st v d : denotes st v (TString d) → val_is_string v = true ∧ read_string st v = Ret d.
Proof.
  intros (_&Ht&_&Hc). unfold val_is_string, read_string. rewrite Ht, Hc. done.
Qed.

Lemma not_string_denotes st v t : denotes st v t → (∀ d, t ≠ TString d) → val_is_string v = false.
Proof.
  intros Hd Hn. unfold val_is_string. apply Z.eqb_neq. destruct t; simpl in Hd.
  - destruct Hd as (->&_&Hf). intros E. rewrite E in Hf. done.
  - destruct Hd as (?&?&(_&Ht&_)&_). by rewrite Ht.
  - destruct Hd as (?&(_&Ht&_)&_). by rewrite Ht.
  - by destruct (Hn data).
  - destruct Hd as (_&Ht&_). by rewrite Ht.
  - destruct Hd as (_&Ht&_). by rewrite Ht.
Qed.

Definition is_pair_tree (t : tree) : bool := match t with TPair _ _ => true | _ => false end.
Lemma denotes_kind st v t : denotes st v t →
  val_is_pair v = is_pair_tree t ∧
  (val_is_symbol v = match t with Imm w => val_is_symbol w | _ => false end) ∧
  (val_is_int v = match t with Imm w => val_is_int w | _ => false end) ∧
  (val_is_nil v = match t with Imm w => val_is_nil w | _ => false end).
Proof.
  intros D. unfold val_is_pair, val_is_symbol, val_is_int, val_is_nil. destruct t; simpl in D.
  - destruct D as (->&_&Hf). split; [|done]. apply Z.eqb_neq. intros E. rewrite E in Hf. done.
  - destruct D as (?&?&(_&->&_)&_). done.
  - destruct D as (?&(_&->&_)&_). done.
  - destruct D as (_&->&_). done.
  - destruct D as (_&->&_). done.
  - destruct D as (_&->&_). done.
Qed.

(** * Bytes and scratch buffers *)
(** A character constant and a string literal of the sources. *)
Definition ch (a : Ascii.ascii) : Z := Z.of_N (Ascii.N_of_ascii a).
Arguments ch a%_char.
Fixpoint chars (s : string) : list Z :=
  match s with
  | EmptyString => []
  | String a s => ch a :: chars s
  end.
(** The C string a byte string starts with: the bytes up to its first NUL. *)
Fixpoint until_nul (d : list Z) : list Z :=
  match d with
  | [] => []
  | c :: d => if c =? 0 then [] else c :: until_nul d
  end.
Definition byte (c : Z) : Prop := 0 ≤ c < 256.
#[global] Instance byte_dec c : Decision (byte c).
Proof. unfold byte. apply _. Defined.
Definition byte_at (d : list Z) (i : Z) : outcome Z := if 0 <=? i then or_undef (d !! Z.to_nat i) else Undef.

Lemma byte_at_Some d (i : nat) (c : Z) : d !! i = Some c → byte_at d (Z.of_nat i) = Ret c.
Proof. intros H. unfold byte_at. destruct (Z.leb_spec 0 (Z.of_nat i)); [|lia]. rewrite Nat2Z.id, H. done. Qed.

Lemma byte_at_app pre suf i k :
  i = Z.of_nat (length pre) → 0 ≤ k → byte_at (pre ++ suf) (i + k) = byte_at suf k.
Proof.
  intros -> Hk. unfold byte_at. destruct (Z.leb_spec 0 (Z.of_nat (length pre) + k)); [|lia].
  destruct (Z.leb_spec 0 k); [|lia]. rewrite lookup_app_r by lia. do 2 f_equal. lia.
Qed.

Lemma byte_at_here pre c suf i : i = Z.of_nat (length pre) → byte_at (pre ++ c :: suf) i = Ret c.
Proof. intros ->. rewrite <- (Z.add_0_r (Z.of_nat _)). by rewrite byte_at_app. Qed.

(** A malloc'd buffer: [None] is a byte never written.  A write outside the
    buffer, and a read of an unwritten byte, are undefined. *)
Abbreviation scratch := (list (option Z)).
Definition sc_new (n : Z) : scratch := replicate (Z.to_nat n) None.
Definition sc_put (b : scratch) (i c : Z) : outcome scratch :=
  if (0 <=? i) && (i <? Z.of_nat (length b)) then Ret (<[Z.to_nat i := Some (u8 c)]> b) else Undef.
(** [memcpy(b + i, d, n)]. *)
Fixpoint sc_copy (b : scratch) (i : Z) (d : list Z) : outcome scratch :=
  match d with
  | [] => Ret b
  | c :: d => b ← sc_put b i c; sc_copy b (i + 1) d
  end.
Definition sc_read (b : scratch) (off n : Z) : outcome (list Z) :=
  if (0 <=? off) && (0 <=? n) && (off + n <=? Z.of_nat (length b))
  then or_undef (mapM id (take (Z.to_nat n) (drop (Z.to_nat off) b)))
  else Undef.

(** A buffer filled from the front: what every append loop maintains. *)
Definition filled (n : Z) (out : list Z) : scratch :=
  (Some <$> out) ++ replicate (Z.to_nat n - length out) None.

Lemma filled_new n : sc_new n = filled n [].
Proof. unfold sc_new, filled. simpl. by rewrite Nat.sub_0_r. Qed.

Lemma filled_length n out : Z.of_nat (length out) ≤ n → length (filled n out) = Z.to_nat n.
Proof. intros H. unfold filled. rewrite length_app, length_fmap, length_replicate. lia. Qed.

Lemma filled_put_u8 n out o c :
  o = Z.of_nat (length out) → o < n → sc_put (filled n out) o c = Ret (filled n (out ++ [u8 c])).
Proof.
  intros -> Ho. unfold sc_put. rewrite filled_length by lia.
  destruct (Z.leb_spec 0 (Z.of_nat (length out))); [|lia].
  destruct (Z.ltb_spec (Z.of_nat (length out)) (Z.of_nat (Z.to_nat n))); [|lia]. cbn [andb].
  rewrite Nat2Z.id. f_equal. unfold filled.
  rewrite insert_app_r_alt by (rewrite length_fmap; lia). rewrite length_fmap, Nat.sub_diag, fmap_app, length_app. simpl.
  replace (Z.to_nat n - length out)%nat with (S (Z.to_nat n - (length out + 1)))%nat by lia. simpl.
  by rewrite <- (assoc app).
Qed.

Lemma filled_put n out o c :
  o = Z.of_nat (length out) → o < n → byte c → sc_put (filled n out) o c = Ret (filled n (out ++ [c])).
Proof. intros. rewrite filled_put_u8 by done. unfold u8. by rewrite Z.mod_small. Qed.

Lemma filled_copy n out o d :
  o = Z.of_nat (length out) → o + Z.of_nat (length d) ≤ n → Forall byte d →
  sc_copy (filled n out) o d = Ret (filled n (out ++ d)).
Proof.
  revert out o. induction d as [|c d IH]; intros out o Ho Hl Hd; simpl in *.
  - by rewrite app_nil_r.
  - apply Forall_cons in Hd as [Hc Hd]. rewrite filled_put by (done || lia). simpl.
    rewrite IH, <- (assoc app); [done|rewrite length_app; simpl; lia|lia|done].
Qed.

Lemma filled_read n out m :
  m = Z.of_nat (length out) → m ≤ n → sc_read (filled n out) 0 m = Ret out.
Proof.
  intros -> Hl. unfold sc_read. rewrite filled_length by lia.
  destruct (Z.leb_spec 0 0); [|lia]. destruct (Z.leb_spec 0 (Z.of_nat (length out))); [|lia].
  destruct (Z.leb_spec (0 + Z.of_nat (length out)) (Z.of_nat (Z.to_nat n))); [|lia]. simpl.
  change (Z.to_nat 0) with 0%nat. rewrite drop_0, Nat2Z.id. unfold filled.
  rewrite take_app_length'; [|by rewrite length_fmap].
  assert (Hm : mapM id (Some <$> out) = Some out) by (apply mapM_fmap_Some; done).
  by rewrite Hm.
Qed.

(** * A window to start from: objects below 4096, the chunk above *)
Definition w_arena : CallbackArena := mk_CallbackArena (mk_TaChunk 4096 0 TA_CCALL_CHUNK0) [] 0 0 false false.
Definition w_winproc : ProcMem := set_ccall (Some w_arena) (proc_mem_init 1).
Definition w_heap (m : gmap Z cell) : store := mk_store m ∅ [] 8192.
Lemma w_heap_window m : (∀ x, 4096 ≤ x → m !! x = None) → window (w_heap m) w_winproc.
Proof.
  intros Hm. split; simpl.
  - exists w_arena. unfold tail_chunk; simpl. split; [done|]. split; [done|]. split; [lia|]. split; [lia|].
    split; [unfold TA_CCALL_CHUNK0; lia|]. intros x Hx. apply Hm. lia.
  - unfold ADDR_LIMIT. lia.
  - intros x Hx. apply Hm. lia.
Qed.
Lemma w_heap_string m x d :
  0 ≤ x < 2 ^ 48 → m !! x = Some (Live (HeapString d)) → denotes (w_heap m) (lbox TAG_STRING x) (TString d).
Proof.
  intros Hx Hm. unfold denotes. simpl. unfold points_to. rewrite lbox_payload, lbox_tag, Z.mod_small by done. simpl. rewrite Hm.
  split; [apply lbox_range|]. eauto.
Qed.
