(* ===== verification/Handle.v ===== *)
(** Resource values as a C module uses them: what [ta_resource_open] answers on
    a live, a released and a foreign one, creation inside the window of a call,
    release.  The modules that keep state behind a resource (Buffer, Process)
    are proved against these lemmas. *)
From stdpp Require Import base tactics list gmap strings.
From Stdlib Require Import ZArith Lia.
From S2P Require Import Prelude Values Heap Resource Gc GcCorrect GcSpec Tree Alloc Copy Cmodule.
Open Scope Z_scope.

(** [v] is a live resource of process [pid], of the block [ptr], with the
    destructor [dtor]. *)
Definition handle (st : store) (pid : Z) (v : Val) (ptr dtor : Z) : Prop :=
  val_tag v = TAG_RESOURCE ∧ lpayload v ≠ 0 ∧ ∃ res, read_resource st (lpayload v) = Ret (pid, res) ∧ res ≠ 0 ∧ payloads st !! res = Some (ptr, dtor).
Lemma handle_mono st st' pid v ptr dtor : cells st ⊆ cells st' → payloads st' = payloads st → handle st pid v ptr dtor → handle st' pid v ptr dtor.
Proof.
  intros Hc Hp (Ht&Ha&res&Hr&Hne&Hpl). split; [done|]. split; [done|]. exists res. rewrite Hp. split; [|done].
  unfold read_resource in *. destruct (cells st !! lpayload v) as [c|] eqn:E; [|done]. by rewrite (lookup_weaken _ _ _ _ E Hc).
Qed.
Lemma handle_open st pid v ptr dtor code :
  handle st pid v ptr dtor → ta_resource_open st pid v code = Ret (0, Some (lpayload v)) ∧
  ∃ res, read_resource st (lpayload v) = Ret (pid, res) ∧ res ≠ 0 ∧ payloads st !! res = Some (ptr, dtor).
Proof.
  intros (Ht&Ha&res&Hr&Hne&Hpl). split; [|eauto]. unfold ta_resource_open, val_get_resource. rewrite Ht, Z.eqb_refl. cbn [negb]. cbv zeta. destruct (Z.eqb_spec (lpayload v) 0); [done|]. rewrite Hr. cbn [mbind outcome_bind].
  rewrite Z.eqb_refl. cbn [negb]. destruct (Z.eqb_spec res 0); [done|]. done.
Qed.

(** ** Values that are not a live resource of the caller *)
(** The code 0 stands for the closed code of the function. *)
Definition refused (st : store) (pid : Z) (v : Val) (code : Z) : Prop :=
  ∀ c, ta_resource_open st pid v c = Ret ((if code =? 0 then c else code), None).
Lemma refused_cases st pid v :
  (val_tag v ≠ TAG_RESOURCE → refused st pid v (-1)) ∧
  (∀ owner res, val_tag v = TAG_RESOURCE → lpayload v ≠ 0 → read_resource st (lpayload v) = Ret (owner, res) →
     (owner ≠ pid → refused st pid v (-2)) ∧ (owner = pid → res = 0 → refused st pid v 0)).
Proof.
  split.
  - intros Ht c. unfold ta_resource_open, val_get_resource. destruct (Z.eqb_spec (val_tag v) TAG_RESOURCE); done.
  - intros owner res Ht Ha Hr. unfold refused, ta_resource_open, val_get_resource. rewrite Ht, Z.eqb_refl. cbn [negb]. cbv zeta.
    destruct (Z.eqb_spec (lpayload v) 0); [done|]. rewrite Hr. cbn [mbind outcome_bind]. split.
    + intros Hne c. destruct (Z.eqb_spec owner pid); [done|]. done.
    + intros -> -> c. rewrite Z.eqb_refl. done.
Qed.

(** ** Release *)
Lemma handle_release st p v ptr dtor :
  window st p → handle st (pid p) v ptr dtor → dtor ≠ 0 →
  ∃ st', ta_resource_release st (lpayload v) = Ret st' ∧ window st' p ∧ refused st' (pid p) v 0 ∧
    dtor_calls st' = dtor_calls st ++ (if ptr =? 0 then [] else [(ptr, dtor)]).
Proof.
  intros W (Ht&Ha&res&Hr&Hne&Hpl) Hd. unfold ta_resource_release. rewrite Hr. cbn [mbind outcome_bind]. destruct (Z.eqb_spec res 0); [done|]. rewrite Hpl.
  eexists. split; [done|].
  assert (Hcell : is_Some (cells st !! lpayload v)) by (unfold read_resource in Hr; destruct (cells st !! lpayload v); [by eexists|done]).
  assert (Hkeep : ∀ x c, cells st !! x = None → <[lpayload v := c]> (cells st) !! x = None) by (intros x c Hx; rewrite lookup_insert_ne; [done|]; intros Ex; rewrite Ex, Hx in Hcell; by destruct Hcell).
  split; [|split].
  - destruct W as [(a&E1&E2&E3&E4&E5&E6) Wb Wf]. split; cbn; [exists a; split_and!; try done; intros x Hx; by apply Hkeep, E6|done|intros x Hx; by apply Hkeep, Wf].
  - apply (proj2 (refused_cases _ (pid p) v) (pid p) 0); try done. unfold read_resource. cbn. by rewrite lookup_insert_eq.
  - cbn. destruct (Z.eqb_spec dtor 0); [done|]. cbn [negb]. rewrite andb_true_r. destruct (ptr =? 0); cbn [negb]; [by rewrite app_nil_r|done].
Qed.

(** ** Creation *)
Lemma malloc_window st p n x st' :
  window st p → 0 ≤ n → malloc st n = Some (x, st') → brk st' < ADDR_LIMIT + 16 → window st' p ∧ cells st' = cells st ∧ x = brk st ∧ brk st < brk st'.
Proof.
  intros [(a&E1&E2&E3&E4&E5&E6) Wb Wf] Hn. unfold malloc. destruct (_ <? ADDR_LIMIT); [|done]. intros [= <- <-] Hb. cbn in Hb.
  assert (0 ≤ n / 16) by (apply Z.div_pos; lia). split; [|split_and!; cbn; done || lia].
  split; cbn; [exists a; split_and!; try done; lia|lia|intros y Hy; apply Wf; lia].
Qed.
(** What a block of at most 16 bytes and its resource move the break by. *)
Definition NEW_COST : Z := CHUNK_COST + 64.
Lemma handle_new cap stress st p n dtor :
  window st p → 0 < brk st → brk st + NEW_COST < ADDR_LIMIT → 0 ≤ n ≤ 16 →
  ∃ st1 v st' p', malloc st n = Some (brk st, st1) ∧ ta_resource_new cap stress st1 p (brk st) dtor = Ret (v, st', p') ∧
    handle st' (pid p) v (brk st) dtor ∧ window st' p' ∧ pid p' = pid p ∧ cells st ⊆ cells st' ∧ brk st < brk st' ≤ brk st + NEW_COST.
Proof.
  intros W H0 Hb Hn. unfold NEW_COST, CHUNK_COST, BUMP_COST, TA_CCALL_CHUNK_NEXT in *.
  assert (0 ≤ n / 16 ≤ 1) as Hq by (Z.div_mod_to_equations; lia).
  destruct (malloc st n) as [[ptr st1]|] eqn:E1; [|unfold malloc in E1; destruct (Z.ltb_spec (brk st + n) ADDR_LIMIT); [done|lia]].
  assert (B1 : brk st < brk st1 ≤ brk st + 32) by (unfold malloc in E1; destruct (_ <? ADDR_LIMIT); [|done]; injection E1 as _ <-; cbn; lia).
  destruct (malloc_window st p n _ _ W ltac:(lia) E1) as (W1&C1&->&_); [lia|]. unfold ta_resource_new.
  destruct (malloc st1 SIZEOF_PAYLOAD) as [[res st2]|] eqn:E2; [|unfold malloc, SIZEOF_PAYLOAD in E2; destruct (Z.ltb_spec (brk st1 + 16) ADDR_LIMIT); [done|lia]].
  assert (B2 : brk st2 = brk st1 + 32) by (unfold malloc in E2; destruct (_ <? ADDR_LIMIT); [|done]; by injection E2 as _ <-).
  destruct (malloc_window st1 p SIZEOF_PAYLOAD _ _ W1 ltac:(done) E2) as (W2&C2&->&_); [lia|].
  exists st1. rewrite E2. cbv beta iota zeta.
  set (p1 := set_ccall _ p). set (st3 := mk_store _ _ _ _).
  assert (W3 : window st3 p1).
  { destruct W2 as [(a&F1&F2&F3&F4&F5&F6) Wb Wf]. split; cbn; [|done|done]. eexists. rewrite F1. split; [done|]. unfold tail_chunk in *. cbn. split_and!; done. }
  assert (Hpid : pid p1 = pid p) by done. assert (Hs : obj_size (HeapResource (pid p1) (brk st1)) = 16) by done.
  destruct (alloc_window cap stress st3 p1 (HeapResource (pid p1) (brk st1)) W3) as (v&st4&p4&E4&W4&P4&S4&B4&L4&Hpl&Hp4); [rewrite Hs; unfold BUMP_COST, TA_CCALL_CHUNK_NEXT; cbn; lia|].
  exists v, st4, p4. split; [done|]. split; [exact E4|]. rewrite Hs in B4. cbn in B4. unfold BUMP_COST, TA_CCALL_CHUNK_NEXT in B4.
  destruct P4 as (_&Ht&_&Hc). split_and!; try done; try lia.
  - split; [done|]. split; [lia|]. exists (brk st1). unfold read_resource. rewrite Hc, Hpid. split; [done|]. split; [lia|]. rewrite Hpl. cbn. by rewrite lookup_insert_eq.
  - etrans; [|exact S4]. cbn. by rewrite C2, C1.
Qed.
