(* ===== verification/Str.v ===== *)
(** The [str] module: src/lib/str.c, every function of it.  StrSpec.v says what
    they compute. *)
From stdpp Require Import base tactics list gmap strings.
From Stdlib Require Import ZArith Lia Ascii.
From S2P Require Import Prelude Values Heap Resource Gc GcCorrect GcSpec Tree Alloc Copy Symtab Cmodule.
Open Scope Z_scope.

Abbreviation len d := (Z.of_nat (length d)).

(** * The C library on byte arrays *)

(** [memcmp(d + i, sub, n) == 0] with [n] the length of [sub]. *)
Definition mem_eq (d : list Z) (i : Z) (sub : list Z) : outcome bool :=
  if (0 <=? i) && (i + len sub <=? len d)
  then Ret (bool_decide (take (length sub) (drop (Z.to_nat i) d) = sub)) else Undef.
(** [memchr(d + i, c, n)], as an index into [d]. *)
Fixpoint scan_byte (i c : Z) (l : list Z) : option Z :=
  match l with
  | [] => None
  | x :: l => if x =? c then Some i else scan_byte (i + 1) c l
  end.
Definition memchr (d : list Z) (i c n : Z) : outcome (option Z) :=
  if (0 <=? i) && (0 <=? n) && (i + n <=? len d)
  then Ret (scan_byte i c (take (Z.to_nat n) (drop (Z.to_nat i) d))) else Undef.
(** [n] bytes from [d + i]. *)
Definition mem_sub (d : list Z) (i n : Z) : outcome (list Z) :=
  if (0 <=? i) && (0 <=? n) && (i + n <=? len d) then Ret (take (Z.to_nat n) (drop (Z.to_nat i) d)) else Undef.
(** [memset(b + i, c, n)]. *)
Definition sc_fill (b : scratch) (i c n : Z) : outcome scratch :=
  if (0 <=? i) && (0 <=? n) && (i + n <=? len b)
  then Ret (take (Z.to_nat i) b ++ replicate (Z.to_nat n) (Some (u8 c)) ++ drop (Z.to_nat (i + n)) b) else Undef.
Definition read_pair (st : store) (v : Val) : outcome (Val * Val) :=
  match cells st !! lpayload v with
  | Some (Live (HeapPair a b)) => Ret (a, b)
  | _ => Undef
  end.
Lemma pair_denotes st v a b : denotes st v (TPair a b) → ∃ va vb, read_pair st v = Ret (va, vb) ∧ denotes st va a ∧ denotes st vb b.
Proof. intros (va&vb&(_&_&_&Hc)&Da&Db). exists va, vb. unfold read_pair. by rewrite Hc. Qed.
(** The digits of [u], most significant first: [do ... while (u > 0)]. *)
Definition DIGITS : list Z := chars "0123456789abcdef".
Fixpoint digits (fuel : nat) (base u : Z) (acc : list Z) : outcome (list Z) :=
  match fuel with
  | O => NoFuel
  | S fuel =>
      c ← byte_at DIGITS (u mod base);
      if 0 <? u / base then digits fuel base (u / base) (c :: acc) else Ret (c :: acc)
  end.
(** [snprintf("%lld")]. *)
Definition fmt_lld (n : Z) : outcome (list Z) :=
  t ← digits 64 10 (Z.abs n) [];
  Ret (if n <? 0 then ch "-" :: t else t).

(** * Scans *)

(** The first index from [i] on whose byte passes. *)
Fixpoint find_from (test : Z → bool) (fuel : nat) (d : list Z) (i : Z) : outcome Z :=
  if i <? len d then
    match fuel with
    | O => NoFuel
    | S fuel => c ← byte_at d i; if test c then Ret i else find_from test fuel d (i + 1)
    end
  else Ret (-1).
Definition is_ascii_space (c : Z) : bool :=
  (c =? ch " ") || (c =? 9) || (c =? 10) || (c =? 13) || (c =? 11) || (c =? 12).
(** [while (start < end && is_ascii_space(d[start])) start++]. *)
Fixpoint trim_start (fuel : nat) (d : list Z) (s e : Z) : outcome Z :=
  if s <? e then
    match fuel with
    | O => NoFuel
    | S fuel => c ← byte_at d s; if is_ascii_space c then trim_start fuel d (s + 1) e else Ret s
    end
  else Ret s.
Fixpoint trim_end (fuel : nat) (d : list Z) (s e : Z) : outcome Z :=
  if s <? e then
    match fuel with
    | O => NoFuel
    | S fuel => c ← byte_at d (e - 1); if is_ascii_space c then trim_end fuel d s (e - 1) else Ret e
    end
  else Ret e.
Definition trim_range (d : list Z) (s e : Z) : outcome (Z * Z) :=
  s ← trim_start (length d) d s e;
  e ← trim_end (length d) d s e;
  Ret (s, e).

(** [str_to_int]: leading blanks, then digits; the value is an [int64_t]. *)
Fixpoint skip_blanks (fuel : nat) (d : list Z) (i : Z) : outcome Z :=
  if i <? len d then
    match fuel with
    | O => NoFuel
    | S fuel => c ← byte_at d i; if (c =? ch " ") || (c =? 9) then skip_blanks fuel d (i + 1) else Ret i
    end
  else Ret i.
Fixpoint dec_loop (fuel : nat) (d : list Z) (i v : Z) (seen : bool) : outcome (Z * bool) :=
  if i <? len d then
    match fuel with
    | O => NoFuel
    | S fuel =>
        c ← byte_at d i;
        if (ch "0" <=? c) && (c <=? ch "9") then
          v ← chk64 (v * 10);
          v ← chk64 (v + (c - ch "0"));
          dec_loop fuel d (i + 1) v true
        else Ret (v, seen)
    end
  else Ret (v, seen).
Definition to_int (d : list Z) : outcome Z :=
  i ← skip_blanks (length d) d 0;
  if len d <=? i then Ret 0
  else
    c ← byte_at d i;
    let neg := c =? ch "-" in
    let i := if neg || (c =? ch "+") then i + 1 else i in
    '(v, seen) ← dec_loop (length d) d i 0 false;
    if negb (seen : bool) then Ret 0
    else if neg then chk64 (- v) else Ret v.

(** The search of [str_index_of]. *)
Fixpoint index_loop (fuel : nat) (hay needle : list Z) (cur left : Z) : outcome Z :=
  if 0 <? left then
    match fuel with
    | O => NoFuel
    | S fuel =>
        c ← byte_at needle 0;
        hit ← memchr hay cur c left;
        match hit with
        | None => Ret (-1)
        | Some hit =>
            same ← mem_eq hay hit needle;
            if (same : bool) then Ret hit else index_loop fuel hay needle (hit + 1) (left - ((hit - cur) + 1))
        end
    end
  else Ret (-1).
Definition index_of (hay needle : list Z) : outcome Z :=
  if len needle =? 0 then Ret 0
  else if len hay <? len needle then Ret (-1)
  else index_loop (length hay) hay needle 0 (len hay - len needle + 1).

(** [str_cmp_fn]. *)
Fixpoint cmp_loop (fuel : nat) (a b : list Z) (i n : Z) : outcome Z :=
  if i <? n then
    match fuel with
    | O => NoFuel
    | S fuel =>
        ca ← byte_at a i;
        cb ← byte_at b i;
        if negb (ca =? cb) then Ret (if ca <? cb then -1 else 1) else cmp_loop fuel a b (i + 1) n
    end
  else Ret (if len a =? len b then 0 else if len a <? len b then -1 else 1).
Definition str_cmp (a b : list Z) : outcome Z :=
  cmp_loop (length a) a b 0 (if len a <? len b then len a else len b).

(** [digit_val] and the loop of [str_from_base]; -1 is a bad digit. *)
Definition digit_val (c : Z) : Z :=
  if (ch "0" <=? c) && (c <=? ch "9") then c - ch "0"
  else if (ch "a" <=? c) && (c <=? ch "f") then c - ch "a" + 10
  else if (ch "A" <=? c) && (c <=? ch "F") then c - ch "A" + 10
  else -1.
Fixpoint from_base_loop (fuel : nat) (d : list Z) (base i acc : Z) : outcome (option Z) :=
  if i <? len d then
    match fuel with
    | O => NoFuel
    | S fuel =>
        c ← byte_at d i;
        let v := digit_val c in
        if (v <? 0) || (base <=? v) then Ret None
        else from_base_loop fuel d base (i + 1) (u64 (acc * base + v))
    end
  else Ret (Some acc).
Definition base_ok (base : Z) : bool := (base =? 2) || (base =? 8) || (base =? 16).

(** [str_to_base]: the digits go into [char buf[50]] from its end. *)
Fixpoint to_base_loop (fuel : nat) (buf : scratch) (i base u : Z) : outcome (Z * scratch) :=
  match fuel with
  | O => NoFuel
  | S fuel =>
      c ← byte_at DIGITS (u mod base);
      buf ← sc_put buf (i - 1) c;
      if 0 <? u / base then to_base_loop fuel buf (i - 1) base (u / base) else Ret (i - 1, buf)
  end.
Definition to_base (n base : Z) : outcome (list Z) :=
  let u := Z.land (u64 n) 0xFFFFFFFFFFFF in
  buf ← sc_put (sc_new 50) 49 0;
  '(i, buf) ← to_base_loop 49 buf 49 base u;
  sc_read buf i (49 - i).

(** * The functions of the module *)
Section Module.
(** [scratch_ok n]: whether [malloc] of [n] bytes succeeds; [fuel] bounds the
    length of the list given to [join].  [strtod] gives the value and the
    number of bytes used; [fmt_g] is [snprintf("%g")]. *)
Context (cap stress : Z) (scratch_ok : Z → bool) (fuel : nat).
Context (strtod : list Z → double * Z) (fmt_g : double → list Z) (sym_some sym_none : Z).

Abbreviation result := (outcome (Val * store * ProcMem)).
Definition empty (st : store) (p : ProcMem) : result := new_string cap stress st p [].
(** A string argument, or the answer for anything else. *)
Definition with_string (st : store) (args : list Val) (i : nat) (other : result) (k : list Z → result) : result :=
  v ← arg args i;
  if negb (val_is_string v) then other else d ← read_string st v; k d.
Definition int_arg (args : list Val) (i : nat) : outcome Z := v ← arg args i; Ret (val_get_int v).
(** [malloc] of at least one byte. *)
Definition scratch_for (n : Z) : Z := if 0 <? n then n else 1.
(** Copy into a scratch buffer, make the string, free the buffer. *)
Definition through_scratch (st : store) (p : ProcMem) (r : list Z) : result :=
  if negb (scratch_ok (scratch_for (len r))) then empty st p
  else
    tmp ← sc_copy (sc_new (scratch_for (len r))) 0 r;
    r ← sc_read tmp 0 (len r);
    new_string cap stress st p r.

Definition str_char_at (st : store) (p : ProcMem) (args : list Val) : result :=
  with_string st args 0 (Ret (val_int (-1), st, p)) (λ d,
    i ← int_arg args 1;
    if (i <? 0) || (len d <=? i) then Ret (val_int (-1), st, p)
    else c ← byte_at d i; Ret (val_int c, st, p)).

Definition str_chr_fn (st : store) (p : ProcMem) (args : list Val) : result :=
  v ← arg args 0;
  if negb (val_is_int v) then empty st p
  else
    let c := val_get_int v in
    if (c <? 0) || (255 <? c) then empty st p else new_string cap stress st p [c].

Definition str_length (st : store) (p : ProcMem) (args : list Val) : result :=
  with_string st args 0 (Ret (val_int 0, st, p)) (λ d, Ret (val_int (len d), st, p)).

Definition str_substr (st : store) (p : ProcMem) (args : list Val) : result :=
  with_string st args 0 (empty st p) (λ d,
    start ← int_arg args 1;
    slen ← int_arg args 2;
    if (start <? 0) || (slen <? 0) || (len d <? start) then empty st p
    else
      let slen := if len d <? start + slen then len d - start else slen in
      r ← mem_sub d start slen;
      through_scratch st p r).

Definition str_concat (st : store) (p : ProcMem) (args : list Val) : result :=
  with_string st args 0 (empty st p) (λ a,
    with_string st args 1 (empty st p) (λ b,
      total ← chk32 (len a + len b);
      if negb (scratch_ok (scratch_for total)) then empty st p
      else
        tmp ← sc_copy (sc_new (scratch_for total)) 0 a;
        tmp ← sc_copy tmp (len a) b;
        r ← sc_read tmp 0 total;
        new_string cap stress st p r)).

Definition str_to_int (st : store) (p : ProcMem) (args : list Val) : result :=
  with_string st args 0 (Ret (val_int 0, st, p)) (λ d, n ← to_int d; Ret (val_int n, st, p)).

Definition str_from_int (st : store) (p : ProcMem) (args : list Val) : result :=
  n ← int_arg args 0;
  t ← fmt_lld n;
  new_string cap stress st p t.

Definition val_bool (b : bool) : Val := if b then val_true else val_false.
Definition str_eq_fn (st : store) (p : ProcMem) (args : list Val) : result :=
  with_string st args 0 (Ret (val_false, st, p)) (λ a,
    with_string st args 1 (Ret (val_false, st, p)) (λ b,
      if negb (len a =? len b) then Ret (val_false, st, p)
      else same ← mem_eq a 0 b; Ret (val_bool same, st, p))).

Definition str_index_of (st : store) (p : ProcMem) (args : list Val) : result :=
  with_string st args 0 (Ret (val_int (-1), st, p)) (λ hay,
    with_string st args 1 (Ret (val_int (-1), st, p)) (λ needle,
      i ← index_of hay needle; Ret (val_int i, st, p))).

(** The scans by byte and by class, from [start] on. *)
Definition from_zero (start : Z) : Z := if start <? 0 then 0 else start.
Definition str_index_of_char (st : store) (p : ProcMem) (args : list Val) : result :=
  with_string st args 0 (Ret (val_int (-1), st, p)) (λ d,
    start ← int_arg args 1;
    c ← int_arg args 2;
    i ← find_from (λ x, x =? u8 c) (length d) d (from_zero start);
    Ret (val_int i, st, p)).
Definition str_index_of_ctrl (st : store) (p : ProcMem) (args : list Val) : result :=
  with_string st args 0 (Ret (val_int (-1), st, p)) (λ d,
    start ← int_arg args 1;
    i ← find_from (λ x, x <? 0x20) (length d) d (from_zero start);
    Ret (val_int i, st, p)).

Definition str_cmp_fn (st : store) (p : ProcMem) (args : list Val) : result :=
  with_string st args 0 (Ret (val_int 0, st, p)) (λ a,
    with_string st args 1 (Ret (val_int 0, st, p)) (λ b,
      r ← str_cmp a b; Ret (val_int r, st, p))).

(** A C string ends at the first NUL; a name of the symbol table is one. *)
Fixpoint nul_string (d : list Z) : string :=
  match d with
  | [] => EmptyString
  | c :: d => if c =? 0 then EmptyString else String (ascii_of_N (Z.to_N c)) (nul_string d)
  end.
(** [char buf[256]] holds at most 255 bytes of the name. *)
Definition str_to_sym (sym_fuel : nat) (t : symtab) (st : store) (args : list Val) : outcome (Val * symtab) :=
  v ← arg args 0;
  if negb (val_is_string v) then Ret (val_nil, t)
  else
    d ← read_string st v;
    let n := if len d <? 255 then len d else 255 in
    '(id, t) ← vm_intern_symbol true true sym_fuel t (nul_string (take (Z.to_nat n) d));
    Ret (val_symbol id, t).
Definition sym_to_str (t : symtab) (st : store) (p : ProcMem) (args : list Val) : result :=
  v ← arg args 0;
  if negb (val_is_symbol v) then Ret (val_nil, st, p)
  else
    match vm_symbol_name t (val_get_symbol v) with
    | None => Ret (val_nil, st, p)
    | Some name => new_string cap stress st p (chars name)
    end.

Definition str_trim (st : store) (p : ProcMem) (args : list Val) : result :=
  with_string st args 0 (empty st p) (λ d,
    '(s, e) ← trim_range d 0 (len d);
    r ← mem_sub d s (e - s);
    through_scratch st p r).

(** ** Splitting *)
(** [for (k = n - 1; k >= 0; k--) acc = val_pair(p, elem(k), acc)]. *)
Fixpoint build_list (elem : nat → store → ProcMem → result) (n : nat) (acc : Val) (st : store) (p : ProcMem) : result :=
  match n with
  | O => Ret (acc, st, p)
  | S n =>
      '(v, st, p) ← elem n st p;
      '(acc, st, p) ← val_pair cap stress st p v acc;
      build_list elem n acc st p
  end.
Definition byte_piece (d : list Z) (k : nat) (st : store) (p : ProcMem) : result :=
  r ← mem_sub d (Z.of_nat k) 1;
  new_string cap stress st p r.
(** The starts of the pieces, in an array of [n] ints. *)
Fixpoint split_scan (fuel : nat) (d sep : list Z) (n pos : Z) (starts : list Z) : outcome (list Z) :=
  if pos <=? len d - len sep then
    match fuel with
    | O => NoFuel
    | S fuel =>
        same ← mem_eq d pos sep;
        if (same : bool) then
          if n <=? len starts then Ret starts
          else split_scan fuel d sep n (pos + len sep) (starts ++ [pos + len sep])
        else split_scan fuel d sep n (pos + 1) starts
    end
  else Ret starts.
(** Piece [k] ends before the separator in front of the next one. *)
Definition split_piece (d sep starts : list Z) (k : nat) (st : store) (p : ProcMem) : result :=
  start ← or_undef (starts !! k);
  e ← (if (S k <? length starts)%nat then x ← or_undef (starts !! S k); Ret (x - len sep) else Ret (len d));
  r ← mem_sub d start (e - start);
  new_string cap stress st p r.
Definition str_split (st : store) (p : ProcMem) (args : list Val) : result :=
  with_string st args 0 (Ret (val_nil, st, p)) (λ d,
    with_string st args 1 (Ret (val_nil, st, p)) (λ sep,
      if len sep =? 0 then build_list (byte_piece d) (length d) val_nil st p
      else if len d <? len sep then
        '(v, st, p) ← new_string cap stress st p d;
        val_pair cap stress st p v val_nil
      else
        let n := len d / len sep + 2 in
        if negb (scratch_ok (n * 4)) then Ret (val_nil, st, p)
        else
          starts ← split_scan (S (length d)) d sep n 0 [0];
          build_list (split_piece d sep starts) (length starts) val_nil st p)).

(** ** Header blocks *)
(** [while (eol <= last && memcmp(...) != 0) eol++]. *)
Fixpoint line_end (fuel : nat) (d lsep : list Z) (eol last : Z) : outcome Z :=
  if eol <=? last then
    match fuel with
    | O => NoFuel
    | S fuel => same ← mem_eq d eol lsep; if (same : bool) then Ret eol else line_end fuel d lsep (eol + 1) last
    end
  else Ret eol.
(** The first [ksep] of the line; -1 when there is none. *)
Fixpoint colon_at (fuel : nat) (d ksep : list Z) (i stop : Z) : outcome Z :=
  if i <=? stop then
    match fuel with
    | O => NoFuel
    | S fuel => same ← mem_eq d i ksep; if (same : bool) then Ret i else colon_at fuel d ksep (i + 1) stop
    end
  else Ret (-1).
Record bounds := mk_bounds { b_ks : Z; b_ke : Z; b_vs : Z; b_ve : Z }.
Fixpoint pairs_scan (fuel : nat) (d lsep ksep : list Z) (n pos : Z) (fs : list bounds) : outcome (list bounds) :=
  if pos <=? len d then
    match fuel with
    | O => NoFuel
    | S fuel =>
        let last := len d - len lsep in
        eol ← line_end (S (length d)) d lsep pos last;
        let eol := if last <? eol then len d else eol in
        colon ← colon_at (S (length d)) d ksep pos (eol - len ksep);
        fs ← (if pos <? colon then
                '(a, b) ← trim_range d pos colon;
                '(v, w) ← trim_range d (colon + len ksep) eol;
                Ret (if len fs <? n then fs ++ [mk_bounds a b v w] else fs)
              else Ret fs);
        if len d <=? eol then Ret fs else pairs_scan fuel d lsep ksep n (eol + len lsep) fs
    end
  else Ret fs.
Definition pairs_piece (d : list Z) (fs : list bounds) (k : nat) (st : store) (p : ProcMem) : result :=
  f ← or_undef (fs !! k);
  kr ← mem_sub d (b_ks f) (b_ke f - b_ks f);
  '(key, st, p) ← new_string cap stress st p kr;
  vr ← mem_sub d (b_vs f) (b_ve f - b_vs f);
  '(v, st, p) ← new_string cap stress st p vr;
  val_pair cap stress st p key v.
Definition str_pairs (st : store) (p : ProcMem) (args : list Val) : result :=
  with_string st args 0 (Ret (val_nil, st, p)) (λ d,
    with_string st args 1 (Ret (val_nil, st, p)) (λ lsep,
      with_string st args 2 (Ret (val_nil, st, p)) (λ ksep,
        if (len lsep =? 0) || (len ksep =? 0) || (len d =? 0) then Ret (val_nil, st, p)
        else
          let n := len d / len lsep + 2 in
          if negb (scratch_ok (n * 16)) then Ret (val_nil, st, p)
          else
            fs ← pairs_scan (S (length d)) d lsep ksep n 0 [];
            build_list (pairs_piece d fs) (length fs) val_nil st p))).

(** ** Joining *)
(** The first walk: the total length and the number of elements; [None] for
    an element that is not a string, or an improper end. *)
Fixpoint join_size (fuel : nat) (st : store) (node : Val) (total count : Z) : outcome (option (Z * Z)) :=
  if val_is_pair node then
    match fuel with
    | O => NoFuel
    | S fuel =>
        '(elem, next) ← read_pair st node;
        if negb (val_is_string elem) then Ret None
        else
          d ← read_string st elem;
          total ← chk32 (total + len d);
          count ← chk32 (count + 1);
          join_size fuel st next total count
    end
  else Ret (if val_is_nil node then Some (total, count) else None).
Fixpoint join_copy (fuel : nat) (st : store) (sep : list Z) (node : Val) (tmp : scratch) (off k : Z) : outcome scratch :=
  if val_is_pair node then
    match fuel with
    | O => NoFuel
    | S fuel =>
        '(elem, next) ← read_pair st node;
        d ← read_string st elem;
        '(tmp, off) ← (if 0 <? k then t ← sc_copy tmp off sep; Ret (t, off + len sep) else Ret (tmp, off));
        tmp ← sc_copy tmp off d;
        join_copy fuel st sep next tmp (off + len d) (k + 1)
    end
  else Ret tmp.
Definition str_join (st : store) (p : ProcMem) (args : list Val) : result :=
  l ← arg args 0;
  with_string st args 1 (empty st p) (λ sep,
    r ← join_size fuel st l 0 0;
    match r with
    | None => empty st p
    | Some (total, count) =>
        total ← (if 0 <? count then s ← chk32 ((count - 1) * len sep); chk32 (total + s) else Ret total);
        if negb (scratch_ok (scratch_for total)) then empty st p
        else
          tmp ← join_copy fuel st sep l (sc_new (scratch_for total)) 0 0;
          r ← sc_read tmp 0 total;
          new_string cap stress st p r
    end).

(** ** Replacing *)
Fixpoint count_matches (fuel : nat) (d old : list Z) (i count : Z) : outcome Z :=
  if i <=? len d - len old then
    match fuel with
    | O => NoFuel
    | S fuel =>
        same ← mem_eq d i old;
        if (same : bool) then c ← chk32 (count + 1); count_matches fuel d old (i + len old) c
        else count_matches fuel d old (i + 1) count
    end
  else Ret count.
Fixpoint replace_loop (fuel : nat) (d old new : list Z) (i off : Z) (tmp : scratch) : outcome (Z * scratch) :=
  if i <? len d then
    match fuel with
    | O => NoFuel
    | S fuel =>
        same ← (if i <=? len d - len old then mem_eq d i old else Ret false);
        if (same : bool) then
          tmp ← sc_copy tmp off new;
          off ← chk32 (off + len new);
          replace_loop fuel d old new (i + len old) off tmp
        else
          c ← byte_at d i;
          tmp ← sc_put tmp off c;
          off ← chk32 (off + 1);
          replace_loop fuel d old new (i + 1) off tmp
    end
  else Ret (off, tmp).
Definition str_replace (st : store) (p : ProcMem) (args : list Val) : result :=
  with_string st args 0 (empty st p) (λ d,
    with_string st args 1 (empty st p) (λ old,
      with_string st args 2 (empty st p) (λ new,
        if len old =? 0 then new_string cap stress st p d
        else
          count ← count_matches (S (length d)) d old 0 0;
          let rlen := len d - count * (len old - len new) in
          if negb (scratch_ok (scratch_for rlen)) then empty st p
          else
            '(off, tmp) ← replace_loop (length d) d old new 0 0 (sc_new (scratch_for rlen));
            r ← sc_read tmp 0 off;
            new_string cap stress st p r))).

(** ** Case, padding *)
Definition to_upper (c : Z) : Z := if (ch "a" <=? c) && (c <=? ch "z") then c - 32 else c.
Definition to_lower (c : Z) : Z := if (ch "A" <=? c) && (c <=? ch "Z") then c + 32 else c.
Fixpoint map_loop (f : Z → Z) (fuel : nat) (d : list Z) (i : Z) (tmp : scratch) : outcome scratch :=
  if i <? len d then
    match fuel with
    | O => NoFuel
    | S fuel => c ← byte_at d i; tmp ← sc_put tmp i (f c); map_loop f fuel d (i + 1) tmp
    end
  else Ret tmp.
Definition map_string (f : Z → Z) (st : store) (p : ProcMem) (args : list Val) : result :=
  with_string st args 0 (empty st p) (λ d,
    if negb (scratch_ok (scratch_for (len d))) then empty st p
    else
      tmp ← map_loop f (length d) d 0 (sc_new (scratch_for (len d)));
      r ← sc_read tmp 0 (len d);
      new_string cap stress st p r).
Definition str_upper := map_string to_upper.
Definition str_lower := map_string to_lower.

(** [int total = (int)(len + padlen)] keeps the low 32 bits, and [malloc] gets
    it as a [size_t]. *)
Definition pad (st : store) (p : ProcMem) (d : list Z) (n c : Z) (at_start : bool) : result :=
  if (c <? 0) || (255 <? c) then new_string cap stress st p d
  else
    let padlen := n - len d in
    if padlen <=? 0 then new_string cap stress st p d
    else
      let total := i32 (len d + padlen) in
      if negb (scratch_ok (u64 total)) then new_string cap stress st p d
      else
        let tmp := sc_new (u64 total) in
        tmp ← sc_copy tmp (if at_start then padlen else 0) d;
        tmp ← sc_fill tmp (if at_start then 0 else len d) c padlen;
        r ← sc_read tmp 0 total;
        new_string cap stress st p r.
Definition pad_args (at_start : bool) (st : store) (p : ProcMem) (args : list Val) : result :=
  v1 ← arg args 1;
  v2 ← arg args 2;
  with_string st args 0 (empty st p) (λ d,
    if negb (val_is_int v1) || negb (val_is_int v2) then empty st p
    else pad st p d (val_get_int v1) (val_get_int v2) at_start).
Definition str_pad_start := pad_args true.
Definition str_pad_end := pad_args false.

(** ** Numbers *)
Definition str_parse_float (st : store) (p : ProcMem) (args : list Val) : result :=
  with_string st args 0 (Ret (val_symbol sym_none, st, p)) (λ d,
    '(s, e) ← trim_range d 0 (len d);
    if negb (scratch_ok (e - s + 1)) then Ret (val_symbol sym_none, st, p)
    else
      t ← mem_sub d s (e - s);
      let '(x, used) := strtod t in
      if (used =? e - s) && negb (used =? 0) then
        '(v, st, p) ← val_pair cap stress st p (val_float x) val_nil;
        val_pair cap stress st p (val_symbol sym_some) v
      else Ret (val_symbol sym_none, st, p)).
Definition str_from_float (st : store) (p : ProcMem) (args : list Val) : result :=
  v ← arg args 0;
  let x := if val_is_float v then val_get_float v else if val_is_int v then double_of_int (val_get_int v) else double_of_int 0 in
  new_string cap stress st p (fmt_g x).
Definition str_from_base (st : store) (p : ProcMem) (args : list Val) : result :=
  v1 ← arg args 1;
  with_string st args 0 (Ret (val_int (-1), st, p)) (λ d,
    if negb (val_is_int v1) then Ret (val_int (-1), st, p)
    else
      let base := val_get_int v1 in
      if negb (base_ok base) || (len d =? 0) then Ret (val_int (-1), st, p)
      else
        r ← from_base_loop (length d) d base 0 0;
        Ret (val_int (match r with Some acc => i64 acc | None => -1 end), st, p)).
Definition str_to_base (st : store) (p : ProcMem) (args : list Val) : result :=
  v0 ← arg args 0;
  v1 ← arg args 1;
  if negb (val_is_int v0) || negb (val_is_int v1) then empty st p
  else if negb (base_ok (val_get_int v1)) then empty st p
  else t ← to_base (val_get_int v0) (val_get_int v1); new_string cap stress st p t.
End Module.
