(* ===== verification/StrSpec.v ===== *)
(** What the [str] module computes: reference functions on byte lists, and the
    refinement of every C loop by them. *)
From stdpp Require Import base tactics list gmap strings.
From Stdlib Require Import ZArith Lia Ascii.
From S2P Require Import Prelude Values Heap Resource Gc GcCorrect GcSpec Tree Alloc Copy Symtab Cmodule Str.
Open Scope Z_scope.

(** Case analysis on the comparisons of a goal. *)
Ltac bcases :=
  repeat match goal with
  | |- context [?u =? ?v] => destruct (Z.eqb_spec u v)
  | |- context [?u <? ?v] => destruct (Z.ltb_spec u v)
  | |- context [?u <=? ?v] => destruct (Z.leb_spec u v)
  end; try lia.

(** * Reference functions *)
Definition starts_with (sub d : list Z) : bool := bool_decide (take (length sub) d = sub).
(** The first occurrence. *)
Fixpoint find_sub (sub d : list Z) : option nat :=
  if starts_with sub d then Some O
  else match d with [] => None | _ :: d => S <$> find_sub sub d end.
(** The pieces between occurrences of [sep], from left to right without
    overlap: [acc] is the piece being read, [skip] what is left of a separator. *)
Fixpoint pieces (sep : list Z) (skip : nat) (acc d : list Z) : list (list Z) :=
  match d with
  | [] => [acc]
  | c :: d' =>
      match skip with
      | S k => pieces sep k acc d'
      | O => if starts_with sep d then acc :: pieces sep (pred (length sep)) [] d' else pieces sep O (acc ++ [c]) d'
      end
  end.
Definition split_on (sep d : list Z) : list (list Z) := pieces sep O [] d.
Fixpoint intercalate (sep : list Z) (l : list (list Z)) : list Z :=
  match l with
  | [] => []
  | [x] => x
  | x :: l => x ++ sep ++ intercalate sep l
  end.
Fixpoint drop_space (d : list Z) : list Z :=
  match d with
  | [] => []
  | c :: d' => if is_ascii_space c then drop_space d' else d
  end.
Definition trim (d : list Z) : list Z := rev (drop_space (rev (drop_space d))).
(** One line of a header block. *)
Definition field (ksep line : list Z) : option (list Z * list Z) :=
  match find_sub ksep line with
  | Some (S i) => Some (trim (take (S i) line), trim (drop (S i + length ksep) line))
  | _ => None
  end.

Lemma starts_with_short sub d : (length d < length sub)%nat → starts_with sub d = false.
Proof.
  intros H. apply bool_decide_eq_false. intros E. apply (f_equal length) in E. rewrite length_take in E. lia.
Qed.
Lemma starts_with_true sub d : starts_with sub d = true ↔ ∃ r, d = sub ++ r.
Proof.
  unfold starts_with. rewrite bool_decide_eq_true. split.
  - intros E. exists (drop (length sub) d). rewrite <- E at 1. by rewrite take_drop.
  - intros [r ->]. by rewrite take_app_length.
Qed.

(** Splitting and joining are inverse. *)
Lemma pieces_skip sep sub r acc : pieces sep (length sub) acc (sub ++ r) = pieces sep O acc r.
Proof. induction sub as [|c sub IH]; [done|]. exact IH. Qed.
Lemma pieces_match sep d acc r :
  sep ≠ [] → d = sep ++ r → pieces sep O acc d = acc :: pieces sep O [] r.
Proof.
  intros Hs ->. destruct sep as [|c sep]; [done|]. cbn [app pieces].
  rewrite (proj2 (starts_with_true (c :: sep) (c :: sep ++ r))) by (by exists r). cbn [length pred].
  by rewrite pieces_skip.
Qed.
Lemma pieces_nonempty sep k acc d : pieces sep k acc d ≠ [].
Proof. revert k acc. induction d as [|c d IH]; intros k acc; [done|]. cbn [pieces]. destruct k; [case_match|]; auto. Qed.
Lemma intercalate_cons sep x l : l ≠ [] → intercalate sep (x :: l) = x ++ sep ++ intercalate sep l.
Proof. by destruct l. Qed.
Lemma intercalate_pieces sep acc d : sep ≠ [] → intercalate sep (pieces sep O acc d) = acc ++ d.
Proof.
  intros Hs. remember (length d) as n eqn:Hn. revert acc d Hn. induction (lt_wf n) as [n _ IH]. intros acc d ->.
  destruct (starts_with sep d) eqn:E.
  - apply starts_with_true in E as [r ->]. rewrite (pieces_match sep _ acc r) by done.
    rewrite intercalate_cons by apply pieces_nonempty. erewrite IH; [done| |done]. rewrite length_app. destruct sep; [done|]. simpl. lia.
  - destruct d as [|c d]; [by rewrite app_nil_r|]. cbn [pieces]. rewrite E. erewrite IH; [by rewrite <- app_assoc| |done]. simpl. lia.
Qed.
Lemma join_split sep d : sep ≠ [] → intercalate sep (split_on sep d) = d.
Proof. intros. by apply intercalate_pieces. Qed.

(** * Scans *)
Lemma mem_eq_here pre suf sub i :
  i = len pre → (length sub ≤ length suf)%nat → mem_eq (pre ++ suf) i sub = Ret (starts_with sub suf).
Proof.
  intros -> H. unfold mem_eq. rewrite length_app. destruct (Z.leb_spec 0 (len pre)); [|lia].
  destruct (Z.leb_spec (len pre + len sub) (Z.of_nat (length pre + length suf))); [|lia]. cbn [andb].
  by rewrite Nat2Z.id, drop_app_length.
Qed.
Lemma mem_sub_here pre mid suf i n : i = len pre → n = len mid → mem_sub (pre ++ mid ++ suf) i n = Ret mid.
Proof.
  intros -> ->. unfold mem_sub. rewrite !length_app. destruct (Z.leb_spec 0 (len pre)); [|lia].
  destruct (Z.leb_spec 0 (len mid)); [|lia]. destruct (Z.leb_spec (len pre + len mid) (Z.of_nat (length pre + (length mid + length suf)))); [|lia].
  cbn [andb]. by rewrite !Nat2Z.id, drop_app_length, take_app_length.
Qed.

Lemma find_from_spec test pre suf fuel :
  (length suf ≤ fuel)%nat →
  find_from test fuel (pre ++ suf) (len pre) =
  Ret (match list_find (λ c, test c = true) suf with Some (j, _) => len pre + Z.of_nat j | None => -1 end).
Proof.
  revert pre fuel. induction suf as [|c suf IH]; intros pre fuel Hf.
  - rewrite app_nil_r. destruct fuel; cbn [find_from]; rewrite Z.ltb_irrefl; done.
  - destruct fuel as [|fuel]; [simpl in Hf; lia|]. cbn [find_from].
    destruct (Z.ltb_spec (len pre) (len (pre ++ c :: suf))); [|rewrite length_app in *; simpl in *; lia].
    rewrite byte_at_here by done. cbn [mbind outcome_bind list_find]. destruct (test c) eqn:E.
    + rewrite decide_True by done. f_equal. lia.
    + rewrite decide_False by congruence. replace (pre ++ c :: suf) with ((pre ++ [c]) ++ suf) by (by rewrite <- app_assoc).
      replace (len pre + 1) with (len (pre ++ [c])) by (rewrite length_app; simpl; lia). rewrite IH by (simpl in Hf; lia).
      destruct (list_find _ suf) as [[j x]|]; simpl; f_equal. rewrite length_app. simpl. lia.
Qed.

(** ** Trimming *)
Lemma drop_space_suffix d : ∃ a, d = a ++ drop_space d ∧ Forall (λ c, is_ascii_space c = true) a.
Proof.
  induction d as [|c d (a&Ha&Hs)]; [by exists []|]. cbn [drop_space]. destruct (is_ascii_space c) eqn:E; [|by exists []].
  exists (c :: a). split; [by rewrite Ha at 1|by constructor].
Qed.
Lemma trim_start_spec pre mid suf fuel e :
  (length mid ≤ fuel)%nat → e = len pre + len mid →
  trim_start fuel (pre ++ mid ++ suf) (len pre) e = Ret (len pre + (len mid - len (drop_space mid))).
Proof.
  revert pre fuel. induction mid as [|c mid IH]; intros pre fuel Hf ->.
  - destruct fuel; cbn [trim_start length]; (destruct (Z.ltb_spec (len pre) (len pre + Z.of_nat 0)); [lia|]); f_equal; simpl; lia.
  - destruct fuel as [|fuel]; [simpl in Hf; lia|]. cbn [trim_start]. destruct (Z.ltb_spec (len pre) (len pre + len (c :: mid))); [|simpl in *; lia].
    cbn [app]. rewrite byte_at_here by done. cbn [mbind outcome_bind drop_space]. destruct (is_ascii_space c); [|f_equal; lia].
    replace (pre ++ c :: mid ++ suf) with ((pre ++ [c]) ++ mid ++ suf) by (by rewrite <- app_assoc).
    replace (len pre + 1) with (len (pre ++ [c])) by (rewrite length_app; simpl; lia).
    rewrite IH; [|simpl in Hf; lia|rewrite length_app; simpl; lia]. f_equal. rewrite length_app. simpl length. lia.
Qed.
Lemma trim_end_spec pre mid suf fuel :
  (length mid ≤ fuel)%nat →
  trim_end fuel (pre ++ rev mid ++ suf) (len pre) (len pre + len mid) = Ret (len pre + len (drop_space mid)).
Proof.
  revert suf fuel. induction mid as [|c mid IH]; intros suf fuel Hf.
  - destruct fuel; cbn [trim_end length]; (destruct (Z.ltb_spec (len pre) (len pre + Z.of_nat 0)); [lia|]); done.
  - destruct fuel as [|fuel]; [simpl in Hf; lia|]. cbn [trim_end]. destruct (Z.ltb_spec (len pre) (len pre + len (c :: mid))); [|simpl in *; lia].
    cbn [rev]. replace (pre ++ (rev mid ++ [c]) ++ suf) with ((pre ++ rev mid) ++ c :: suf) by (by rewrite <- !app_assoc).
    rewrite byte_at_here by (rewrite length_app, length_rev; simpl; lia). cbn [mbind outcome_bind drop_space].
    destruct (is_ascii_space c); [|done]. rewrite <- app_assoc.
    replace (len pre + len (c :: mid) - 1) with (len pre + len mid) by (simpl; lia). apply IH. simpl in Hf. lia.
Qed.
(** The range [trim_range] finds holds the trimmed text. *)
Lemma trim_range_spec pre mid suf d s e :
  d = pre ++ mid ++ suf → s = len pre → e = len pre + len mid →
  ∃ s' e', trim_range d s e = Ret (s', e') ∧ mem_sub d s' (e' - s') = Ret (trim mid) ∧ s' ≤ e'.
Proof.
  intros -> -> ->. unfold trim_range. rewrite trim_start_spec by (rewrite ?length_app; lia). cbn [mbind outcome_bind].
  destruct (drop_space_suffix mid) as (a&Ha&_). set (m := drop_space mid) in *.
  destruct (drop_space_suffix (rev m)) as (b&Hb&_). set (r := drop_space (rev m)) in *.
  assert (Ht : trim mid = rev r) by done. assert (Hm : m = rev r ++ rev b) by (rewrite <- (rev_involutive m), Hb, rev_app_distr; done).
  assert (Hl : len mid = len a + len m) by (rewrite Ha at 1; rewrite length_app; lia).
  assert (Hml : length m = (length r + length b)%nat) by (rewrite Hm at 1; rewrite length_app, !length_rev; lia).
  replace (len pre + (len mid - len m)) with (len (pre ++ a)) by (rewrite length_app; lia).
  replace (len pre + len mid) with (len (pre ++ a) + len (rev m)) by (rewrite length_app, length_rev; lia).
  replace (pre ++ mid ++ suf) with ((pre ++ a) ++ rev (rev m) ++ suf) by (rewrite rev_involutive, Ha; by rewrite <- !app_assoc).
  rewrite trim_end_spec by (rewrite !length_app, !length_rev; lia). cbn [mbind outcome_bind]. eexists _, _. split; [done|].
  fold r. split; [|lia]. rewrite Ht, rev_involutive. clearbody r m. rewrite Hm, <- (app_assoc (rev r)).
  apply mem_sub_here; [done|]. rewrite length_rev. lia.
Qed.

(** ** Searching *)
Lemma scan_byte_spec i c l :
  match scan_byte i c l with
  | Some h => ∃ a b, l = a ++ c :: b ∧ c ∉ a ∧ h = i + len a
  | None => c ∉ l
  end.
Proof.
  revert i. induction l as [|x l IH]; intros i; cbn [scan_byte]; [apply not_elem_of_nil|].
  destruct (Z.eqb_spec x c) as [->|Hne].
  - exists [], l. split; [done|]. split; [apply not_elem_of_nil|simpl; lia].
  - specialize (IH (i + 1)). destruct (scan_byte (i + 1) c l).
    + destruct IH as (a&b&->&Ha&->). exists (x :: a), b. split; [done|]. split; [set_solver|simpl; lia].
    + set_solver.
Qed.
(** Nothing is found where the first byte does not occur. *)
Lemma find_sub_skip c sub a r : c ∉ a → find_sub (c :: sub) (a ++ r) = Nat.add (length a) <$> find_sub (c :: sub) r.
Proof.
  induction a as [|x a IH]; intros Hc; [cbn [app length]; by destruct (find_sub (c :: sub) r)|]. apply not_elem_of_cons in Hc as [Hx Ha].
  cbn [app find_sub]. replace (starts_with (c :: sub) (x :: a ++ r)) with false.
  - rewrite IH by done. by destruct (find_sub (c :: sub) r).
  - symmetry. apply bool_decide_eq_false. simpl. congruence.
Qed.
Lemma find_sub_short sub d : (length d < length sub)%nat → find_sub sub d = None.
Proof.
  induction d as [|c d IH]; intros H; cbn [find_sub]; rewrite starts_with_short by done; [done|]. rewrite IH; [done|]. simpl in H. lia.
Qed.
Lemma find_sub_absent c sub d k :
  (k + length sub = length d)%nat → c ∉ take k d → find_sub (c :: sub) d = None.
Proof.
  intros Hk Hc. rewrite <- (take_drop k d), find_sub_skip by done. rewrite find_sub_short; [done|]. rewrite length_drop. simpl. lia.
Qed.
Lemma find_sub_step sub c d : starts_with sub (c :: d) = false → find_sub sub (c :: d) = S <$> find_sub sub d.
Proof. intros H. cbn [find_sub]. by rewrite H. Qed.

Definition or_minus (i : Z) (o : option nat) : Z := match o with Some j => i + Z.of_nat j | None => -1 end.
Lemma index_loop_spec c sub pre suf fuel :
  (length suf ≤ fuel)%nat →
  index_loop fuel (pre ++ suf) (c :: sub) (len pre) (len suf - len sub) = Ret (or_minus (len pre) (find_sub (c :: sub) suf)).
Proof.
  revert pre suf. induction fuel as [|fuel IH]; intros pre suf Hf; cbn [index_loop];
    (destruct (Z.ltb_spec 0 (len suf - len sub)) as [Hl|Hl]; [|rewrite find_sub_short by (simpl; lia); done]); [lia|].
  change (byte_at (c :: sub) 0) with (Ret c). cbn [mbind outcome_bind]. unfold memchr.
  destruct (Z.leb_spec 0 (len pre)); [|lia]. destruct (Z.leb_spec 0 (len suf - len sub)); [|lia]. cbn [andb].
  destruct (Z.leb_spec (len pre + (len suf - len sub)) (len (pre ++ suf))); [|rewrite length_app in *; lia]. cbn [mbind outcome_bind].
  rewrite Nat2Z.id, drop_app_length. set (k := Z.to_nat (len suf - len sub)).
  pose proof (scan_byte_spec (len pre) c (take k suf)) as Hs. destruct (scan_byte _ _ _) as [h|].
  - destruct Hs as (a&b&Hab&Ha&->). assert (Hsuf : suf = a ++ c :: (b ++ drop k suf)).
    { rewrite <- (take_drop k suf) at 1. rewrite Hab, <- app_assoc. done. }
    assert (Hlk : (length (take k suf) = length a + S (length b))%nat) by (rewrite Hab, length_app; done).
    rewrite length_take in Hlk. set (r := b ++ drop k suf) in *.
    assert (Hr : (length suf = length a + S (length r))%nat) by (rewrite Hsuf, length_app; done).
    assert (Hlr : (length sub ≤ length r)%nat) by lia.
    replace (pre ++ suf) with ((pre ++ a) ++ c :: r) by (rewrite Hsuf; by rewrite <- app_assoc).
    rewrite mem_eq_here; [|rewrite length_app; lia|simpl; lia]. cbn [mbind outcome_bind].
    rewrite Hsuf, find_sub_skip by done. destruct (starts_with (c :: sub) (c :: r)) eqn:E.
    + cbn [find_sub]. rewrite E. simpl. unfold or_minus. f_equal. lia.
    + rewrite find_sub_step by done. replace ((pre ++ a) ++ c :: r) with ((pre ++ a ++ [c]) ++ r) by (by rewrite <- !app_assoc).
      replace (len pre + len a + 1) with (len (pre ++ a ++ [c])) by (rewrite !length_app; simpl; lia).
      replace (len (a ++ c :: r) - len sub - (len pre + len a - len pre + 1)) with (len r - len sub) by (rewrite length_app; simpl; lia).
      rewrite IH by lia. f_equal. destruct (find_sub _ r); simpl; [|done]. rewrite !length_app. simpl. lia.
  - by rewrite (find_sub_absent c sub suf k) by (done || lia).
Qed.
Lemma index_of_spec hay needle : index_of hay needle = Ret (or_minus 0 (find_sub needle hay)).
Proof.
  unfold index_of. destruct needle as [|c sub]; [by destruct hay|]. destruct (Z.eqb_spec (len (c :: sub)) 0); [simpl in *; lia|].
  destruct (Z.ltb_spec (len hay) (len (c :: sub))); [rewrite find_sub_short by lia; done|].
  replace (len hay - len (c :: sub) + 1) with (len hay - len sub) by (simpl; lia). by apply (index_loop_spec c sub [] hay).
Qed.

(** ** Comparing *)
Fixpoint lex (a b : list Z) : Z :=
  match a, b with
  | [], [] => 0
  | [], _ => -1
  | _, [] => 1
  | x :: a, y :: b => if x =? y then lex a b else if x <? y then -1 else 1
  end.
Lemma cmp_loop_spec fuel : ∀ pre pre' a b n,
  (length a ≤ fuel)%nat → n = len pre + Z.min (len a) (len b) → length pre' = length pre →
  cmp_loop fuel (pre ++ a) (pre' ++ b) (len pre) n = Ret (lex a b).
Proof.
  induction fuel as [|fuel IH]; intros pre pre' a b n Hf -> Hp; destruct a as [|x a]; destruct b as [|y b]; cbn [length] in Hf; try lia; cbn [cmp_loop].
  6: { destruct (Z.ltb_spec (len pre) (len pre + Z.min (len (x :: a)) (len (y :: b)))); [|simpl in *; lia].
    rewrite !byte_at_here by lia. cbn [mbind outcome_bind lex]. destruct (Z.eqb_spec x y) as [->|]; cbn [negb]; [|done].
    replace (pre ++ y :: a) with ((pre ++ [y]) ++ a) by (by rewrite <- app_assoc).
    replace (pre' ++ y :: b) with ((pre' ++ [y]) ++ b) by (by rewrite <- app_assoc).
    replace (len pre + 1) with (len (pre ++ [y])) by (rewrite length_app; simpl; lia).
    apply IH; rewrite ?length_app; simpl; lia. }
  all: match goal with |- context [if ?u <? ?v then _ else _] => destruct (Z.ltb_spec u v) as [Hlt|_]; [simpl in Hlt; lia|] end.
  all: rewrite !length_app, Hp; cbn [length lex]; bcases; done || lia.
Qed.
Lemma str_cmp_spec a b : str_cmp a b = Ret (lex a b).
Proof. unfold str_cmp. apply (cmp_loop_spec _ [] [] a b); [done|simpl; bcases|done]. Qed.

(** ** Numbers *)
Definition is_digit (c : Z) : bool := (ch "0" <=? c) && (c <=? ch "9").
Fixpoint take_digits (d : list Z) : list Z :=
  match d with
  | [] => []
  | c :: d => if is_digit c then c :: take_digits d else []
  end.
Fixpoint drop_blanks (d : list Z) : list Z :=
  match d with
  | [] => []
  | c :: d' => if (c =? ch " ") || (c =? 9) then drop_blanks d' else d
  end.
Definition dec_value (v : Z) (ds : list Z) : Z := foldl (λ v c, v * 10 + (c - ch "0")) v ds.
(** The number a text starts with, [None] when it does not fit 64 bits. *)
Definition leading_int (d : list Z) : option Z :=
  match drop_blanks d with
  | [] => Some 0
  | c :: r =>
      let v := dec_value 0 (take_digits (if (c =? ch "-") || (c =? ch "+") then r else c :: r)) in
      if v <? 2 ^ 63 then Some (if c =? ch "-" then - v else v) else None
  end.

Lemma take_digits_digit d : Forall (λ c, is_digit c = true) (take_digits d).
Proof. induction d as [|c d IH]; [done|]. cbn [take_digits]. destruct (is_digit c) eqn:E; [by constructor|done]. Qed.
Lemma digit_range c : is_digit c = true → ch "0" ≤ c ≤ ch "9".
Proof. intros [H1%Z.leb_le H2%Z.leb_le]%andb_prop. lia. Qed.
Lemma dec_value_ge v ds : 0 ≤ v → Forall (λ c, is_digit c = true) ds → v ≤ dec_value v ds.
Proof.
  intros Hv H. revert v Hv. induction H as [|c ds Hc _ IH]; intros v Hv; [done|]. apply digit_range in Hc. cbn.
  specialize (IH (v * 10 + (c - ch "0")) ltac:(lia)). unfold dec_value in IH. lia.
Qed.
Lemma chk64_small v : 0 ≤ v < 2 ^ 63 → chk64 v = Ret v.
Proof. intros H. unfold chk64, in_i64. destruct (Z.leb_spec (- 2 ^ 63) v); [|lia]. destruct (Z.ltb_spec v (2 ^ 63)); [done|lia]. Qed.
Lemma chk64_big v : 2 ^ 63 ≤ v → chk64 v = Undef.
Proof. intros H. unfold chk64, in_i64. destruct (Z.ltb_spec v (2 ^ 63)); [lia|]. by rewrite andb_false_r. Qed.
Lemma dec_loop_spec fuel : ∀ pre suf v seen,
  (length suf ≤ fuel)%nat → 0 ≤ v < 2 ^ 63 →
  dec_loop fuel (pre ++ suf) (len pre) v seen =
  (let w := dec_value v (take_digits suf) in
   if w <? 2 ^ 63 then Ret (w, seen || negb (bool_decide (take_digits suf = []))) else Undef).
Proof.
  induction fuel as [|fuel IH]; intros pre suf v seen Hf Hv; destruct suf as [|c suf]; cbn [length] in Hf; try lia; cbn [dec_loop take_digits].
  1,2: rewrite app_nil_r, Z.ltb_irrefl; cbn [dec_value foldl]; destruct (Z.ltb_spec v (2 ^ 63)); [|lia]; by rewrite orb_false_r.
  destruct (Z.ltb_spec (len pre) (len (pre ++ c :: suf))); [|rewrite length_app in *; simpl in *; lia].
  rewrite byte_at_here by done. cbn [mbind outcome_bind]. fold (is_digit c). destruct (is_digit c) eqn:Ed.
  2: { cbn [dec_value foldl]. destruct (Z.ltb_spec v (2 ^ 63)); [|lia]. by rewrite orb_false_r. }
  pose proof (digit_range _ Ed) as Hc. pose proof (dec_value_ge (v * 10 + (c - ch "0")) (take_digits suf) ltac:(lia) (take_digits_digit suf)) as Hge.
  cbv zeta. change (dec_value v (c :: take_digits suf)) with (dec_value (v * 10 + (c - ch "0")) (take_digits suf)).
  destruct (decide (v * 10 < 2 ^ 63)).
  2: { rewrite chk64_big by lia. destruct (Z.ltb_spec (dec_value (v * 10 + (c - ch "0")) (take_digits suf)) (2 ^ 63)); [lia|done]. }
  rewrite chk64_small by lia. cbn [mbind outcome_bind]. destruct (decide (v * 10 + (c - ch "0") < 2 ^ 63)).
  2: { rewrite chk64_big by lia. destruct (Z.ltb_spec (dec_value (v * 10 + (c - ch "0")) (take_digits suf)) (2 ^ 63)); [lia|done]. }
  rewrite chk64_small by lia. cbn [mbind outcome_bind]. replace (pre ++ c :: suf) with ((pre ++ [c]) ++ suf) by (by rewrite <- app_assoc).
  replace (len pre + 1) with (len (pre ++ [c])) by (rewrite length_app; simpl; lia). rewrite IH by lia. cbv zeta.
  destruct (_ <? 2 ^ 63); [|done]. rewrite (bool_decide_eq_false_2 (c :: _ = [])) by done. by rewrite orb_true_r.
Qed.
Lemma skip_blanks_spec fuel : ∀ pre suf,
  (length suf ≤ fuel)%nat → ∃ a, suf = a ++ drop_blanks suf ∧ skip_blanks fuel (pre ++ suf) (len pre) = Ret (len (pre ++ a)).
Proof.
  induction fuel as [|fuel IH]; intros pre suf Hf; destruct suf as [|c suf]; cbn [length] in Hf; try lia; cbn [skip_blanks drop_blanks].
  1,2: exists []; by rewrite !app_nil_r, Z.ltb_irrefl.
  destruct (Z.ltb_spec (len pre) (len (pre ++ c :: suf))); [|rewrite length_app in *; simpl in *; lia].
  rewrite byte_at_here by done. cbn [mbind outcome_bind]. destruct (_ || _); [|exists []; by rewrite app_nil_r].
  destruct (IH (pre ++ [c]) suf) as (a&Ha&E); [lia|]. exists (c :: a). split; [by rewrite Ha at 1|].
  replace (pre ++ c :: suf) with ((pre ++ [c]) ++ suf) by (by rewrite <- app_assoc).
  replace (len pre + 1) with (len (pre ++ [c])) by (rewrite length_app; simpl; lia). rewrite E. by rewrite <- app_assoc.
Qed.
Lemma to_int_spec d : to_int d = match leading_int d with Some n => Ret n | None => Undef end.
Proof.
  unfold to_int, leading_int. destruct (skip_blanks_spec (length d) [] d) as (a&Ha&E); [done|]. change (skip_blanks (length d) d 0 = Ret (len a)) in E. rewrite E.
  cbn [mbind outcome_bind]. destruct (drop_blanks d) as [|c r].
  { rewrite app_nil_r in Ha. subst a. by destruct (Z.leb_spec (len d) (len d)); [|lia]. }
  assert (Hl : len d = len a + len (c :: r)) by (rewrite Ha at 1; rewrite length_app; lia).
  destruct (Z.leb_spec (len d) (len a)); [simpl in Hl; lia|]. rewrite Ha at 1. rewrite byte_at_here by done. cbn [mbind outcome_bind]. cbv zeta.
  assert (Hloop : ∀ pre suf, d = pre ++ suf → dec_loop (length d) d (len pre) 0 false =
    (let w := dec_value 0 (take_digits suf) in
     if w <? 2 ^ 63 then Ret (w, negb (bool_decide (take_digits suf = []))) else Undef)).
  { intros pre suf ->. apply dec_loop_spec; [rewrite length_app; lia|lia]. }
  assert (Hend : ∀ (neg : bool) ds, Forall (λ c, is_digit c = true) ds →
    ('(v, seen) ← (if dec_value 0 ds <? 2 ^ 63 then Ret (dec_value 0 ds, negb (bool_decide (ds = []))) else Undef);
     if negb seen then Ret 0 else if neg then chk64 (- v) else Ret v) =
    match (if dec_value 0 ds <? 2 ^ 63 then Some (if neg then - dec_value 0 ds else dec_value 0 ds) else None) with Some n => Ret n | None => Undef end).
  { intros neg ds Hds. pose proof (dec_value_ge 0 ds ltac:(lia) Hds) as H0. destruct (Z.ltb_spec (dec_value 0 ds) (2 ^ 63)); [|done]. cbn [mbind outcome_bind].
    case_bool_decide as Hnil; [subst ds; by destruct neg|]. cbn [negb]. destruct neg; [|done].
    unfold chk64, in_i64. destruct (Z.leb_spec (- 2 ^ 63) (- dec_value 0 ds)); [|lia]. destruct (Z.ltb_spec (- dec_value 0 ds) (2 ^ 63)); [done|lia]. }
  destruct ((c =? ch "-") || (c =? ch "+")).
  - replace (len a + 1) with (len (a ++ [c])) by (rewrite length_app; simpl; lia). rewrite (Hloop _ r) by (by rewrite Ha, <- app_assoc).
    cbv zeta. by rewrite Hend by apply take_digits_digit.
  - rewrite (Hloop a (c :: r)) by done. cbv zeta. by rewrite Hend by apply take_digits_digit.
Qed.

(** The shortest text of [u] in a base, for [u] of at most [n] digits. *)
Definition numeral_char (k : Z) : Z := nth (Z.to_nat k) DIGITS 0.
Fixpoint numeral (n : nat) (base u : Z) : list Z :=
  match n with
  | O => []
  | S n => (if u <? base then [] else numeral n base (u / base)) ++ [numeral_char (u mod base)]
  end.
Definition dec_text (n : Z) : list Z := (if n <? 0 then [ch "-"] else []) ++ numeral 64 10 (Z.abs n).
(** The value of a text in a base; [None] when a byte is not a digit of it. *)
Definition base_value (base v : Z) (d : list Z) : Z := foldl (λ v c, v * base + digit_val c) v d.
Definition base_digit (base c : Z) : bool := (0 <=? digit_val c) && (digit_val c <? base).
Definition from_base (base : Z) (d : list Z) : option Z :=
  if forallb (base_digit base) d then Some (base_value base 0 d) else None.

Ltac digit_cases k :=
  let H := fresh in
  assert (k = 0 ∨ k = 1 ∨ k = 2 ∨ k = 3 ∨ k = 4 ∨ k = 5 ∨ k = 6 ∨ k = 7 ∨ k = 8 ∨ k = 9 ∨ k = 10 ∨ k = 11 ∨ k = 12 ∨ k = 13 ∨ k = 14 ∨ k = 15) as H by lia;
  repeat destruct H as [->|H]; try (subst k).
Lemma numeral_char_at k : 0 ≤ k < 16 → byte_at DIGITS k = Ret (numeral_char k).
Proof. intros Hk. digit_cases k; reflexivity. Qed.
Lemma numeral_char_val k : 0 ≤ k < 16 → digit_val (numeral_char k) = k ∧ byte (numeral_char k).
Proof. intros Hk. digit_cases k; vm_compute; repeat split; congruence. Qed.
Lemma numeral_char_dec k : 0 ≤ k < 10 → numeral_char k = ch "0" + k.
Proof. intros Hk. digit_cases k; try reflexivity; lia. Qed.

Section Base.
Context (base : Z) (Hb : 2 ≤ base ≤ 16).
Lemma numeral_step n u : 0 ≤ u < base ^ Z.of_nat (S n) → base ≤ u → 0 < u / base < base ^ Z.of_nat n ∧ (0 < n)%nat.
Proof.
  intros Hu Hge. rewrite Nat2Z.inj_succ, Z.pow_succ_r in Hu by lia.
  assert (0 < u / base) by (apply Z.div_str_pos; lia). assert (u / base < base ^ Z.of_nat n) by (apply Z.div_lt_upper_bound; lia).
  split; [done|]. destruct n; [change (base ^ Z.of_nat 0) with 1 in *; lia|lia].
Qed.
Lemma digits_spec n u acc :
  (0 < n)%nat → 0 ≤ u < base ^ Z.of_nat n → digits n base u acc = Ret (numeral n base u ++ acc).
Proof using Hb.
  revert u acc. induction n as [|n IH]; intros u acc Hn Hu; [lia|]. cbn [digits numeral].
  pose proof (Z.mod_pos_bound u base ltac:(lia)) as Hm. rewrite numeral_char_at by lia. cbn [mbind outcome_bind].
  destruct (Z.ltb_spec u base) as [Hlt|Hge].
  - rewrite Z.div_small by lia. done.
  - destruct (numeral_step n u Hu Hge) as [Hd Hn']. destruct (Z.ltb_spec 0 (u / base)); [|lia]. rewrite IH by lia. by rewrite <- app_assoc.
Qed.
Lemma numeral_length n u : (0 < n)%nat → (0 < length (numeral n base u) ≤ n)%nat.
Proof.
  revert u. induction n as [|n IH]; intros u Hn; [lia|]. cbn [numeral]. rewrite length_app. destruct (u <? base); simpl; [lia|].
  destruct n; [simpl; lia|]. specialize (IH (u / base) ltac:(lia)). lia.
Qed.
Lemma numeral_digit n u : 0 ≤ u → Forall (λ c, base_digit base c = true ∧ byte c) (numeral n base u).
Proof using Hb.
  revert u. induction n as [|n IH]; intros u Hu; [done|]. cbn [numeral]. pose proof (Z.mod_pos_bound u base ltac:(lia)) as Hm.
  apply Forall_app. split.
  - destruct (u <? base); [done|]. apply IH. apply Z.div_pos; lia.
  - destruct (numeral_char_val (u mod base) ltac:(lia)) as [Hv Hc]. constructor; [split; [|done]|constructor]. unfold base_digit. rewrite Hv.
    destruct (Z.leb_spec 0 (u mod base)), (Z.ltb_spec (u mod base) base); done || lia.
Qed.
(** The text has the value it was made from. *)
Lemma numeral_value n u : 0 ≤ u < base ^ Z.of_nat n → base_value base 0 (numeral n base u) = u.
Proof using Hb.
  revert u. induction n as [|n IH]; intros u Hu; cbn [numeral]; [change (base ^ Z.of_nat 0) with 1 in Hu; simpl; lia|].
  pose proof (Z.mod_pos_bound u base ltac:(lia)) as Hm. unfold base_value. rewrite foldl_app. cbn [foldl].
  destruct (numeral_char_val (u mod base) ltac:(lia)) as [-> _]. destruct (Z.ltb_spec u base) as [Hlt|Hge].
  - simpl. rewrite Z.mod_small by lia. lia.
  - destruct (numeral_step n u Hu Hge) as [Hd _]. fold (base_value base 0 (numeral n base (u / base))). rewrite IH by lia.
    rewrite (Z.div_mod u base) at 3 by lia. lia.
Qed.
Lemma from_base_numeral n u : 0 ≤ u < base ^ Z.of_nat n → from_base base (numeral n base u) = Some u.
Proof using Hb.
  intros Hu. unfold from_base. rewrite numeral_value by done. destruct (forallb _ _) eqn:E; [done|].
  rewrite (proj2 (forallb_forall _ _)) in E; [done|]. intros c Hc%list_elem_of_In. revert c Hc. apply Forall_forall.
  apply (Forall_impl _ _ _ (numeral_digit n u ltac:(lia))). by intros c [].
Qed.

Lemma u64_step a v : u64 (u64 a * base + v) = u64 (a * base + v).
Proof. unfold u64. rewrite <- Z.add_mod_idemp_l, Z.mul_mod_idemp_l, Z.add_mod_idemp_l by done. done. Qed.
Lemma from_base_loop_spec fuel : ∀ pre suf v,
  (length suf ≤ fuel)%nat →
  from_base_loop fuel (pre ++ suf) base (len pre) (u64 v) =
  Ret (if forallb (base_digit base) suf then Some (u64 (base_value base v suf)) else None).
Proof using Hb.
  induction fuel as [|fuel IH]; intros pre suf v Hf; destruct suf as [|c suf]; cbn [length] in Hf; try lia; cbn [from_base_loop].
  1,2: by rewrite app_nil_r, Z.ltb_irrefl.
  destruct (Z.ltb_spec (len pre) (len (pre ++ c :: suf))); [|rewrite length_app in *; simpl in *; lia].
  rewrite byte_at_here by done. cbn [mbind outcome_bind forallb]. cbv zeta. unfold base_digit at 1.
  destruct (Z.ltb_spec (digit_val c) 0), (Z.leb_spec 0 (digit_val c)); try lia; [done|].
  destruct (Z.leb_spec base (digit_val c)), (Z.ltb_spec (digit_val c) base); try lia; [done|]. cbn [orb andb].
  rewrite u64_step. replace (pre ++ c :: suf) with ((pre ++ [c]) ++ suf) by (by rewrite <- app_assoc).
  replace (len pre + 1) with (len (pre ++ [c])) by (rewrite length_app; simpl; lia). by rewrite IH by lia.
Qed.

(** The buffer filled from its end. *)
Lemma to_base_loop_spec n : ∀ u i acc,
  (0 < n ≤ i)%nat → 0 ≤ u < base ^ Z.of_nat n →
  let t := numeral n base u in
  to_base_loop n (replicate i None ++ (Some <$> acc)) (Z.of_nat i) base u =
  Ret (Z.of_nat (i - length t), replicate (i - length t) None ++ (Some <$> t ++ acc)).
Proof using Hb.
  induction n as [|n IH]; intros u i acc Hn Hu; [lia|]. cbv zeta. cbn [to_base_loop numeral].
  pose proof (Z.mod_pos_bound u base ltac:(lia)) as Hm. rewrite numeral_char_at by lia. cbn [mbind outcome_bind].
  destruct (numeral_char_val (u mod base) ltac:(lia)) as [_ Hc].
  destruct i as [|i]; [lia|]. unfold sc_put. rewrite length_app, length_replicate.
  destruct (Z.leb_spec 0 (Z.of_nat (S i) - 1)); [|lia]. destruct (Z.ltb_spec (Z.of_nat (S i) - 1) (Z.of_nat (S i + length (Some <$> acc)))); [|lia].
  cbn [andb mbind outcome_bind]. replace (Z.of_nat (S i) - 1) with (Z.of_nat i) by lia. rewrite Nat2Z.id.
  replace (<[i:=Some (u8 (numeral_char (u mod base)))]> (replicate (S i) None ++ (Some <$> acc)))
    with (replicate i None ++ (Some <$> numeral_char (u mod base) :: acc)).
  2: { replace (S i) with (i + 1)%nat by lia. rewrite replicate_add, <- app_assoc.
    rewrite insert_app_r_alt by (rewrite length_replicate; lia). rewrite length_replicate, Nat.sub_diag. cbn [replicate app insert list_insert fmap list_fmap]. unfold u8.
    by rewrite (Z.mod_small (numeral_char _)) by exact Hc. }
  destruct (Z.ltb_spec u base) as [Hlt|Hge].
  - rewrite Z.div_small by lia. change (0 <? 0) with false. cbn [app length]. by replace (S i - 1)%nat with i by lia.
  - destruct (numeral_step n u Hu Hge) as [Hd Hn']. destruct (Z.ltb_spec 0 (u / base)); [|lia]. rewrite IH by lia.
    pose proof (numeral_length n (u / base) Hn') as Hl. rewrite !length_app, <- !app_assoc. cbn [length app].
    by replace (S i - (length (numeral n base (u / base)) + 1))%nat with (i - length (numeral n base (u / base)))%nat by lia.
Qed.
End Base.

Lemma fmt_lld_spec n : Z.abs n < 10 ^ 64 → fmt_lld n = Ret (dec_text n).
Proof.
  intros Hn. unfold fmt_lld, dec_text. rewrite (digits_spec 10) by lia. cbn [mbind outcome_bind]. rewrite app_nil_r. by destruct (n <? 0).
Qed.
Lemma to_base_spec n base : 2 ≤ base ≤ 16 → to_base n base = Ret (numeral 49 base (n mod 2 ^ 48)).
Proof.
  intros Hb. unfold to_base. replace (Z.land (u64 n) 0xFFFFFFFFFFFF) with (n mod 2 ^ 48).
  2: { change 0xFFFFFFFFFFFF with (Z.ones 48). rewrite Z.land_ones by done. unfold u64.
    apply Znumtheory.Zmod_div_mod; [done..|]. by exists (2 ^ 16). }
  change (sc_put (sc_new 50) 49 0) with (Ret (replicate 49 None ++ (Some <$> [0]))). cbn [mbind outcome_bind]. cbv zeta.
  pose proof (Z.mod_pos_bound n (2 ^ 48) ltac:(lia)) as Hm.
  assert (2 ^ 49 ≤ base ^ 49) by (apply Z.pow_le_mono_l; lia).
  change 49 with (Z.of_nat 49) at 2. rewrite (to_base_loop_spec base) by lia. cbn [mbind outcome_bind].
  pose proof (numeral_length base 49 (n mod 2 ^ 48) ltac:(lia)) as Hl. set (t := numeral 49 base (n mod 2 ^ 48)) in *. clearbody t.
  unfold sc_read. rewrite length_app, length_replicate, length_fmap, length_app. cbn [length].
  destruct (Z.leb_spec 0 (Z.of_nat (49 - length t))); [|lia]. destruct (Z.leb_spec 0 (49 - Z.of_nat (49 - length t))); [|lia].
  destruct (Z.leb_spec (Z.of_nat (49 - length t) + (49 - Z.of_nat (49 - length t))) (Z.of_nat (49 - length t + (length t + 1)))); [|lia]. cbn [andb].
  rewrite Nat2Z.id, drop_app_length' by (by rewrite length_replicate). replace (Z.to_nat (49 - Z.of_nat (49 - length t))) with (length t) by lia.
  rewrite fmap_app, take_app_length' by (by rewrite length_fmap).
  by rewrite (mapM_fmap_Some id Some) by done.
Qed.

(** Printing then reading. *)
Lemma dec_value_base v d : Forall (λ c, is_digit c = true) d → dec_value v d = base_value 10 v d.
Proof.
  intros H. revert v. induction H as [|c d Hc _ IH]; intros v; [done|]. cbn. rewrite IH. f_equal.
  unfold digit_val. unfold is_digit in Hc. rewrite Hc. done.
Qed.
Lemma numeral_dec n u : 0 ≤ u → Forall (λ c, is_digit c = true) (numeral n 10 u).
Proof.
  revert u. induction n as [|n IH]; intros u Hu; [done|]. cbn [numeral]. pose proof (Z.mod_pos_bound u 10 ltac:(lia)) as Hm.
  apply Forall_app. split; [destruct (u <? 10); [done|]; apply IH, Z.div_pos; lia|].
  constructor; [|done]. rewrite numeral_char_dec by lia. unfold is_digit. change (ch "9") with (ch "0" + 9).
  destruct (Z.leb_spec (ch "0") (ch "0" + u mod 10)), (Z.leb_spec (ch "0" + u mod 10) (ch "0" + 9)); done || lia.
Qed.
Lemma take_digits_all d : Forall (λ c, is_digit c = true) d → take_digits d = d.
Proof. induction 1 as [|c d Hc _ IH]; [done|]. cbn [take_digits]. by rewrite Hc, IH. Qed.
Lemma leading_int_text n : Z.abs n < 2 ^ 63 → leading_int (dec_text n) = Some n.
Proof.
  intros Hn. unfold dec_text. pose proof (numeral_length 10 64 (Z.abs n) ltac:(lia)) as Hl.
  pose proof (numeral_dec 64 (Z.abs n) ltac:(lia)) as Hd. pose proof (numeral_value 10 ltac:(lia) 64 (Z.abs n) ltac:(lia)) as Hv.
  set (t := numeral 64 10 (Z.abs n)) in *. clearbody t. rewrite <- dec_value_base in Hv by done. unfold leading_int.
  destruct (Z.ltb_spec n 0).
  - cbn [app drop_blanks]. change ((ch "-" =? ch " ") || (ch "-" =? 9)) with false. cbn iota. change ((ch "-" =? ch "-") || _) with true.
    change (ch "-" =? ch "-") with true. cbn iota. rewrite take_digits_all, Hv by done. cbv zeta. destruct (Z.ltb_spec (Z.abs n) (2 ^ 63)); [|lia]. f_equal. lia.
  - destruct t as [|c t]; [simpl in Hl; lia|]. pose proof (Forall_inv Hd) as Hc. cbv beta in Hc. apply digit_range in Hc.
    change (ch "0") with 48 in Hc. change (ch "9") with 57 in Hc. cbn [app drop_blanks].
    change (ch " ") with 32. change (ch "-") with 45. change (ch "+") with 43.
    destruct (Z.eqb_spec c 32); [lia|]. destruct (Z.eqb_spec c 9); [lia|]. cbn [orb]. cbn iota.
    destruct (Z.eqb_spec c 45); [lia|]. destruct (Z.eqb_spec c 43); [lia|]. cbn [orb]. cbn iota.
    rewrite take_digits_all, Hv by done. cbv zeta. destruct (Z.ltb_spec (Z.abs n) (2 ^ 63)); [|lia]. f_equal. lia.
Qed.

(** ** Splitting *)
Lemma starts_with_app sub a b : (length sub ≤ length a)%nat → starts_with sub (a ++ b) = starts_with sub a.
Proof. intros H. unfold starts_with. by rewrite take_app_le. Qed.
Lemma pieces_short sep acc d : (length d < length sep)%nat → pieces sep O acc d = [acc ++ d].
Proof.
  revert acc. induction d as [|c d IH]; intros acc H; cbn [pieces]; [by rewrite app_nil_r|].
  rewrite starts_with_short by done. rewrite IH by (simpl in H; lia). by rewrite <- app_assoc.
Qed.
Lemma pieces_step sep acc c d :
  starts_with sep (c :: d) = false → pieces sep O acc (c :: d) = pieces sep O (acc ++ [c]) d.
Proof. intros H. cbn [pieces]. by rewrite H. Qed.
(** The piece being read is what the first one starts with. *)
Lemma pieces_acc sep acc d :
  ∃ x l, pieces sep O [] d = x :: l ∧ pieces sep O acc d = (acc ++ x) :: l.
Proof.
  assert (G : ∀ a, ∃ x l, pieces sep O a d = (a ++ x) :: l ∧ pieces sep O (acc ++ a) d = (acc ++ a ++ x) :: l).
  { induction d as [|c d IH]; intros a; cbn [pieces].
    - exists [], []. rewrite !app_nil_r. done.
    - destruct (starts_with sep (c :: d)).
      + exists [], (pieces sep (pred (length sep)) [] d). by rewrite !app_nil_r.
      + destruct (IH (a ++ [c])) as (x&l&E1&E2). exists (c :: x), l. rewrite E1, <- (app_assoc acc a), E2. split; by rewrite <- !app_assoc. }
  destruct (G []) as (x&l&E1&E2). rewrite !app_nil_r in E2. by exists x, l.
Qed.
(** The first piece ends at the first separator. *)
Lemma pieces_find sep acc d :
  sep ≠ [] →
  pieces sep O acc d = match find_sub sep d with
                       | Some j => (acc ++ take j d) :: split_on sep (drop (j + length sep) d)
                       | None => [acc ++ d]
                       end.
Proof.
  intros Hs. revert acc. induction d as [|c d IH]; intros acc; cbn [find_sub]; destruct (starts_with sep _) eqn:E.
  - apply starts_with_true in E as [r E]. by destruct sep.
  - cbn [pieces]. by rewrite app_nil_r.
  - pose proof E as [r Er]%starts_with_true. rewrite (pieces_match sep _ acc r), Er by done. cbn [take].
    rewrite app_nil_r, Nat.add_0_l, drop_app_length. done.
  - rewrite pieces_step, IH by done. destruct (find_sub sep d); cbn; by rewrite <- app_assoc.
Qed.

(** Where the pieces start. *)
Fixpoint offsets (sep : list Z) (o : Z) (l : list (list Z)) : list Z :=
  match l with
  | [] => []
  | x :: l => o :: offsets sep (o + len x + len sep) l
  end.
Lemma offsets_length sep o l : length (offsets sep o l) = length l.
Proof. revert o. induction l as [|x l IH]; intros o; [done|]. cbn. by rewrite IH. Qed.
Lemma split_scan_spec sep n fuel : ∀ pre a suf so,
  sep ≠ [] → (length suf ≤ fuel)%nat → len so * len sep ≤ len pre → n = len (pre ++ a ++ suf) / len sep + 2 →
  split_scan fuel (pre ++ a ++ suf) sep n (len pre + len a) (so ++ [len pre]) =
  Ret (so ++ offsets sep (len pre) (pieces sep O a suf)).
Proof.
  induction fuel as [|fuel IH]; intros pre a suf so Hs Hf Hso Hn; cbn [split_scan].
  all: assert (0 < len sep) as Hs0 by (destruct sep; [done|simpl; lia]).
  all: destruct (Z.leb_spec (len pre + len a) (len (pre ++ a ++ suf) - len sep)) as [Hle|Hgt];
    [|rewrite pieces_short by (rewrite !length_app in Hgt; lia); done].
  all: rewrite !length_app in Hle.
  1: lia.
  rewrite app_assoc, mem_eq_here by (rewrite ?length_app; lia). cbn [mbind outcome_bind]. rewrite <- app_assoc. destruct (starts_with sep suf) eqn:E.
  - apply starts_with_true in E as [r ->]. rewrite (pieces_match sep _ a r) by done. rewrite !length_app in Hle, Hf.
    assert (len so + 1 ≤ len (pre ++ a ++ sep ++ r) / len sep).
    { apply Z.div_le_lower_bound; [done|]. rewrite !length_app. lia. }
    destruct (Z.leb_spec n (len (so ++ [len pre]))); [rewrite length_app in *; simpl in *; lia|].
    cbn [offsets]. replace (pre ++ a ++ sep ++ r) with ((pre ++ a ++ sep) ++ [] ++ r) in * by (by rewrite <- !app_assoc).
    replace (len pre + len a + len sep) with (len (pre ++ a ++ sep) + len (@nil Z)) at 1 by (rewrite !length_app; simpl; lia).
    replace (len pre + len a + len sep) with (len (pre ++ a ++ sep)) by (rewrite !length_app; lia).
    rewrite IH; [by rewrite <- app_assoc|done|lia| |done]. rewrite !length_app. simpl. lia.
  - destruct suf as [|c suf]; [rewrite pieces_short in * by (simpl; lia); simpl in *; lia|]. rewrite pieces_step by done.
    replace (pre ++ a ++ c :: suf) with (pre ++ (a ++ [c]) ++ suf) in * by (by rewrite <- !app_assoc).
    replace (len pre + len a + 1) with (len pre + len (a ++ [c])) by (rewrite length_app; simpl; lia). apply IH; (done || simpl in Hf; lia).
Qed.
(** Each piece lies between its start and the next one. *)
Lemma offsets_piece sep l k x pre d :
  l !! k = Some x → d = pre ++ intercalate sep l →
  ∃ a b, d = a ++ x ++ b ∧ offsets sep (len pre) l !! k = Some (len a) ∧
    (∀ y, offsets sep (len pre) l !! S k = Some y → y - len sep = len a + len x) ∧
    ((length l ≤ S k)%nat → b = []).
Proof.
  intros Hk ->. revert k pre Hk. induction l as [|y l IH]; intros k pre Hk; [done|]. destruct k as [|k].
  - injection Hk as ->. destruct l as [|z l].
    + exists pre, []. cbn. split_and!; [by rewrite app_nil_r|done|done|done].
    + exists pre, (sep ++ intercalate sep (z :: l)). split_and!; [done|done| |simpl; lia].
      intros w Hw. cbn in Hw. injection Hw as <-. lia.
  - cbn [lookup] in Hk. destruct l as [|z l]; [done|]. destruct (IH k (pre ++ y ++ sep) Hk) as (a&b&E&Ea&En&El).
    exists a, b. replace (len (pre ++ y ++ sep)) with (len pre + len y + len sep) in * by (rewrite !length_app; lia).
    split_and!; [|done|done|intros; apply El; simpl in *; lia]. rewrite <- E, <- !app_assoc. done.
Qed.

(** ** Replacing *)
Lemma intercalate_length sep l :
  l ≠ [] → len (intercalate sep l) = len (concat l) + (len l - 1) * len sep.
Proof.
  induction l as [|x l IH]; intros H; [done|]. destruct l as [|y l]; [simpl; rewrite app_nil_r; lia|].
  rewrite intercalate_cons by done. cbn [concat]. rewrite !length_app. specialize (IH ltac:(done)). cbn [length concat] in *. rewrite !length_app in *. lia.
Qed.
Lemma intercalate_acc new sep acc d :
  intercalate new (pieces sep O acc d) = acc ++ intercalate new (pieces sep O [] d).
Proof.
  destruct (pieces_acc sep acc d) as (x&l&E1&E2). rewrite E1, E2. destruct l; [done|]. rewrite !intercalate_cons by done. by rewrite <- app_assoc.
Qed.
Definition replace_all (old new d : list Z) : list Z := intercalate new (split_on old d).
Lemma replace_match old new r : old ≠ [] → replace_all old new (old ++ r) = new ++ replace_all old new r.
Proof. intros H. unfold replace_all, split_on. rewrite (pieces_match old _ [] r) by done. rewrite intercalate_cons by apply pieces_nonempty. done. Qed.
Lemma replace_step old new c d : starts_with old (c :: d) = false → replace_all old new (c :: d) = c :: replace_all old new d.
Proof. intros H. unfold replace_all, split_on. rewrite pieces_step by done. by rewrite intercalate_acc. Qed.
Lemma replace_length old new d :
  old ≠ [] → len (replace_all old new d) = len d - (len (split_on old d) - 1) * (len old - len new).
Proof.
  intros H. unfold replace_all. rewrite intercalate_length by apply pieces_nonempty.
  pose proof (intercalate_length old (split_on old d) ltac:(apply pieces_nonempty)) as E. rewrite join_split in E by done. lia.
Qed.
Lemma count_matches_spec old fuel : ∀ pre suf k,
  old ≠ [] → (length suf ≤ fuel)%nat → 0 ≤ k → k + len suf < 2 ^ 31 →
  count_matches fuel (pre ++ suf) old (len pre) k = Ret (k + len (split_on old suf) - 1).
Proof.
  induction fuel as [|fuel IH]; intros pre suf k Hs Hf Hk Hb; cbn [count_matches].
  all: assert (0 < len old) as Hs0 by (destruct old; [done|simpl; lia]).
  all: destruct (Z.leb_spec (len pre) (len (pre ++ suf) - len old)) as [Hle|Hgt];
    [|unfold split_on; rewrite pieces_short by (rewrite !length_app in Hgt; lia); f_equal; simpl; lia].
  all: rewrite !length_app in Hle.
  1: lia.
  rewrite mem_eq_here by (done || lia). cbn [mbind outcome_bind]. destruct (starts_with old suf) eqn:E.
  - apply starts_with_true in E as [r ->]. unfold split_on. rewrite (pieces_match old _ [] r) by done. rewrite !length_app in *.
    unfold chk32, in_i32. destruct (Z.leb_spec (- 2 ^ 31) (k + 1)), (Z.ltb_spec (k + 1) (2 ^ 31)); try lia. cbn [andb mbind outcome_bind].
    replace (pre ++ old ++ r) with ((pre ++ old) ++ r) by (by rewrite <- app_assoc).
    replace (len pre + len old) with (len (pre ++ old)) by (rewrite length_app; lia). rewrite IH; [|done|lia|lia|lia].
    unfold split_on. f_equal. cbn [length]. lia.
  - destruct suf as [|c suf]; [simpl in *; lia|]. replace (split_on old (c :: suf)) with (pieces old O [c] suf) by (unfold split_on; by rewrite pieces_step).
    replace (pre ++ c :: suf) with ((pre ++ [c]) ++ suf) in * by (by rewrite <- app_assoc).
    replace (len pre + 1) with (len (pre ++ [c])) by (rewrite length_app; simpl; lia). rewrite IH by (done || simpl in *; lia).
    destruct (pieces_acc old [c] suf) as (x&l&E1&E2). unfold split_on. by rewrite E1, E2.
Qed.
Lemma replace_loop_spec old new n fuel : ∀ pre suf out,
  old ≠ [] → (length suf ≤ fuel)%nat → Forall byte suf → Forall byte new →
  len (out ++ replace_all old new suf) ≤ n → n < 2 ^ 31 →
  let out' := out ++ replace_all old new suf in
  replace_loop fuel (pre ++ suf) old new (len pre) (len out) (filled n out) = Ret (len out', filled n out').
Proof.
  induction fuel as [|fuel IH]; intros pre suf out Hs Hf Hb Hn Hl Hmax; cbv zeta; destruct suf as [|c suf]; cbn [length] in Hf; try lia; cbn [replace_loop].
  1,2: rewrite app_nil_r, Z.ltb_irrefl; unfold replace_all, split_on; cbn; by rewrite app_nil_r.
  destruct (Z.ltb_spec (len pre) (len (pre ++ c :: suf))); [|rewrite length_app in *; simpl in *; lia].
  assert (E : (if len pre <=? len (pre ++ c :: suf) - len old then mem_eq (pre ++ c :: suf) (len pre) old else Ret false) = Ret (starts_with old (c :: suf))).
  { rewrite length_app. destruct (Z.leb_spec (len pre) (Z.of_nat (length pre + length (c :: suf)) - len old)).
    - apply mem_eq_here; [done|lia]. - by rewrite starts_with_short by lia. }
  rewrite E. cbn [mbind outcome_bind]. clear E. destruct (starts_with old (c :: suf)) eqn:E.
  - apply starts_with_true in E as [r E]. rewrite E in *. rewrite replace_match in * by done. rewrite !length_app in Hl.
    rewrite filled_copy by (done || lia). cbn [mbind outcome_bind]. unfold chk32, in_i32.
    destruct (Z.leb_spec (- 2 ^ 31) (len out + len new)), (Z.ltb_spec (len out + len new) (2 ^ 31)); try lia. cbn [andb mbind outcome_bind].
    apply Forall_app in Hb as [_ Hb]. assert (length r ≤ fuel)%nat.
    { apply (f_equal length) in E. rewrite length_app in E. destruct old; [done|]. simpl in E. lia. }
    replace (pre ++ old ++ r) with ((pre ++ old) ++ r) by (by rewrite <- app_assoc).
    replace (len pre + len old) with (len (pre ++ old)) by (rewrite length_app; lia).
    replace (len out + len new) with (len (out ++ new)) by (rewrite length_app; lia).
    rewrite IH by (done || rewrite ?length_app; lia). by rewrite <- !app_assoc.
  - rewrite byte_at_here by done. cbn [mbind outcome_bind]. rewrite replace_step in * by done. apply Forall_cons in Hb as [Hc Hb].
    rewrite length_app in Hl. cbn [length] in Hl. rewrite filled_put by (done || lia). cbn [mbind outcome_bind]. unfold chk32, in_i32.
    destruct (Z.leb_spec (- 2 ^ 31) (len out + 1)), (Z.ltb_spec (len out + 1) (2 ^ 31)); try lia. cbn [andb mbind outcome_bind].
    replace (pre ++ c :: suf) with ((pre ++ [c]) ++ suf) in * by (by rewrite <- app_assoc).
    replace (len pre + 1) with (len (pre ++ [c])) by (rewrite length_app; simpl; lia).
    replace (len out + 1) with (len (out ++ [c])) by (rewrite length_app; simpl; lia).
    rewrite IH by (done || rewrite ?length_app; simpl; lia). by rewrite <- !app_assoc.
Qed.

(** ** Header blocks *)
Lemma colon_at_spec sub fuel : ∀ pre mid suf stop,
  sub ≠ [] → (length mid ≤ fuel)%nat → stop = len pre + len mid - len sub →
  colon_at fuel (pre ++ mid ++ suf) sub (len pre) stop = Ret (or_minus (len pre) (find_sub sub mid)).
Proof.
  induction fuel as [|fuel IH]; intros pre mid suf stop Hs Hf ->; cbn [colon_at].
  all: assert (0 < len sub) as Hs0 by (destruct sub; [done|simpl; lia]).
  all: destruct (Z.leb_spec (len pre) (len pre + len mid - len sub)) as [Hle|Hgt]; [|by rewrite find_sub_short by lia].
  1: lia.
  rewrite mem_eq_here, starts_with_app by (rewrite ?length_app; lia). cbn [mbind outcome_bind].
  destruct mid as [|c mid]; [simpl in *; lia|]. destruct (starts_with sub (c :: mid)) eqn:E.
  - cbn [find_sub]. rewrite E. cbn [or_minus]. f_equal. lia.
  - rewrite find_sub_step by done. cbn [app]. replace (pre ++ c :: mid ++ suf) with ((pre ++ [c]) ++ mid ++ suf) by (by rewrite <- app_assoc).
    replace (len pre + 1) with (len (pre ++ [c])) by (rewrite length_app; simpl; lia).
    rewrite IH; [|done|simpl in Hf; lia|rewrite length_app; simpl; lia]. f_equal. destruct (find_sub sub mid); cbn [fmap option_fmap option_map or_minus]; [|done].
    rewrite length_app. simpl. lia.
Qed.
Lemma line_end_spec sub fuel : ∀ pre suf last,
  sub ≠ [] → (length suf ≤ fuel)%nat → last = len (pre ++ suf) - len sub →
  ∃ e, line_end fuel (pre ++ suf) sub (len pre) last = Ret e ∧
    (if last <? e then len (pre ++ suf) else e) = len pre + match find_sub sub suf with Some j => Z.of_nat j | None => len suf end.
Proof.
  induction fuel as [|fuel IH]; intros pre suf last Hs Hf ->; cbn [line_end].
  all: assert (0 < len sub) as Hs0 by (destruct sub; [done|simpl; lia]).
  all: destruct (Z.leb_spec (len pre) (len (pre ++ suf) - len sub)) as [Hle|Hgt];
    [|exists (len pre); split; [done|]; rewrite length_app in *; rewrite find_sub_short by lia; destruct (Z.ltb_spec (Z.of_nat (length pre + length suf) - len sub) (len pre)); lia].
  all: rewrite length_app in Hle.
  1: lia.
  rewrite mem_eq_here by lia. cbn [mbind outcome_bind]. destruct suf as [|c suf]; [simpl in *; lia|].
  destruct (starts_with sub (c :: suf)) eqn:E.
  - exists (len pre). split; [done|]. cbn [find_sub]. rewrite E, length_app. destruct (Z.ltb_spec (Z.of_nat (length pre + length (c :: suf)) - len sub) (len pre)); lia.
  - rewrite find_sub_step by done. replace (pre ++ c :: suf) with ((pre ++ [c]) ++ suf) by (by rewrite <- app_assoc).
    replace (len pre + 1) with (len (pre ++ [c])) by (rewrite length_app; simpl; lia).
    destruct (IH (pre ++ [c]) suf _ Hs ltac:(simpl in Hf; lia) eq_refl) as (e&Ee&Hv). exists e. split; [done|]. rewrite Hv, length_app.
    destruct (find_sub sub suf); simpl; lia.
Qed.
Lemma find_sub_bound sub d j : find_sub sub d = Some j → (j + length sub ≤ length d)%nat.
Proof.
  revert j. induction d as [|c d IH]; intros j; cbn [find_sub]; destruct (starts_with sub _) eqn:E; intros Hj.
  1: apply starts_with_true in E as [r E]; destruct sub; [injection Hj as <-; simpl; lia|done].
  1: done.
  - injection Hj as <-. apply starts_with_true in E as [r ->]. rewrite length_app. lia.
  - destruct (find_sub sub d) as [i|] eqn:F; [|done]. injection Hj as <-. specialize (IH i eq_refl). simpl. lia.
Qed.
Lemma find_sub_at sub d j : find_sub sub d = Some j → take (length sub) (drop j d) = sub.
Proof.
  revert j. induction d as [|c d IH]; intros j; cbn [find_sub]; destruct (starts_with sub _) eqn:E; intros Hj; try done.
  1,2: injection Hj as <-; by apply bool_decide_eq_true in E.
  destruct (find_sub sub d) as [i|]; [|done]. injection Hj as <-. by apply IH.
Qed.
(** The first line, and what is after it. *)
Lemma first_line lsep suf :
  lsep ≠ [] → ∃ line rest, suf = line ++ rest ∧
  match find_sub lsep suf with Some j => Z.of_nat j | None => len suf end = len line ∧
  (rest = [] ∧ split_on lsep suf = [line] ∨ ∃ rest', rest = lsep ++ rest' ∧ split_on lsep suf = line :: split_on lsep rest').
Proof.
  intros Hl. unfold split_on at 1 2. rewrite (pieces_find lsep [] suf Hl). destruct (find_sub lsep suf) as [j|] eqn:E.
  - pose proof (find_sub_bound _ _ _ E). exists (take j suf), (drop j suf). rewrite take_drop, length_take. split_and!; [done|lia|]. right.
    exists (drop (j + length lsep) suf). split; [|done]. rewrite <- drop_drop, <- (find_sub_at _ _ _ E) at 1. by rewrite take_drop.
  - exists suf, []. rewrite app_nil_r. split_and!; [done|lia|by left].
Qed.
(** The recorded bounds hold the text of the field. *)
Definition holds_field (d : list Z) (f : bounds) (kv : list Z * list Z) : Prop :=
  mem_sub d (b_ks f) (b_ke f - b_ks f) = Ret kv.1 ∧ mem_sub d (b_vs f) (b_ve f - b_vs f) = Ret kv.2.
Lemma field_bounds d ksep pre line suf :
  ksep ≠ [] → d = pre ++ line ++ suf → ∃ colon,
  colon_at (S (length d)) d ksep (len pre) (len pre + len line - len ksep) = Ret colon ∧
  (match field ksep line with
   | None => (len pre <? colon) = false
   | Some kv => (len pre <? colon) = true ∧ ∃ a b v w,
       trim_range d (len pre) colon = Ret (a, b) ∧ trim_range d (colon + len ksep) (len pre + len line) = Ret (v, w) ∧
       holds_field d (mk_bounds a b v w) kv
   end).
Proof.
  intros Hk ->. rewrite colon_at_spec by (done || rewrite !length_app; lia). eexists. split; [done|]. unfold field.
  destruct (find_sub ksep line) as [[|i]|] eqn:E; cbn [or_minus]; [apply Z.ltb_ge; lia| |apply Z.ltb_ge; lia].
  split; [apply Z.ltb_lt; lia|]. pose proof (find_sub_bound _ _ _ E) as Hb.
  set (key := take (S i) line). set (val := drop (S i + length ksep) line).
  assert (El : line = key ++ take (length ksep) (drop (S i) line) ++ val).
  { unfold key, val. rewrite <- drop_drop, take_drop, take_drop. done. }
  set (mid := take (length ksep) (drop (S i) line)) in *.
  assert (Hkl : length key = S i) by (unfold key; rewrite length_take; lia).
  assert (Hml : length mid = length ksep) by (unfold mid; rewrite length_take, length_drop; lia).
  assert (Hvl : (length line = S i + length ksep + length val)%nat) by (unfold val; rewrite length_drop; lia).
  destruct (trim_range_spec pre key (mid ++ val ++ suf) (pre ++ line ++ suf) (len pre) (len pre + Z.of_nat (S i))) as (a&b&E1&E2&_); [|done|lia|].
  { rewrite El at 1. by rewrite <- !app_assoc. }
  destruct (trim_range_spec (pre ++ key ++ mid) val suf (pre ++ line ++ suf) (len pre + Z.of_nat (S i) + len ksep) (len pre + len line)) as (v&w&E3&E4&_);
    [|rewrite !length_app; lia..|].
  { rewrite El at 1. by rewrite <- !app_assoc. }
  exists a, b, v, w. split_and!; [done..|]. by split.
Qed.
Definition fields (lsep ksep d : list Z) : list (list Z * list Z) := omap (field ksep) (split_on lsep d).
Lemma pairs_scan_spec lsep ksep n d fuel : ∀ pre suf fs done,
  lsep ≠ [] → ksep ≠ [] → (length suf < fuel)%nat → d = pre ++ suf → n = len d / len lsep + 2 →
  Forall2 (holds_field d) fs done → len fs * len lsep ≤ len pre →
  ∃ fs', pairs_scan fuel d lsep ksep n (len pre) fs = Ret fs' ∧ Forall2 (holds_field d) fs' (done ++ fields lsep ksep suf).
Proof.
  induction fuel as [|fuel IH]; intros pre suf fs ds Hl Hk Hf Hd Hn Hfs Hc; [lia|]. cbn [pairs_scan].
  assert (0 < len lsep) as Hl0 by (destruct lsep; [done|simpl; lia]).
  destruct (Z.leb_spec (len pre) (len d)); [|rewrite Hd, length_app in *; lia].
  destruct (line_end_spec lsep (S (length d)) pre suf (len d - len lsep) Hl) as (e&Ee&He); [rewrite Hd, length_app; lia|by rewrite <- Hd|].
  rewrite <- Hd in Ee, He. rewrite Ee. cbn [mbind outcome_bind]. cbv zeta. rewrite He. clear e Ee He.
  destruct (first_line lsep suf Hl) as (line&rest&Hsuf&->&Hrest).
  destruct (field_bounds d ksep pre line rest Hk) as (colon&Ec&Hfield); [by rewrite Hd, Hsuf|]. rewrite Ec. cbn [mbind outcome_bind].
  assert (∃ fs1, (if len pre <? colon then
                '(a, b) ← trim_range d (len pre) colon; '(v, w) ← trim_range d (colon + len ksep) (len pre + len line);
                Ret (if len fs <? n then fs ++ [mk_bounds a b v w] else fs) else Ret fs) = Ret fs1 ∧
    Forall2 (holds_field d) fs1 (ds ++ omap (field ksep) [line]) ∧ len fs1 ≤ len fs + 1) as (fs1&E1&Hfs1&Hl1).
  { cbn [omap list_omap]. destruct (field ksep line) as [kv|].
    - destruct Hfield as (->&a&b&v&w&E1&E2&Hh). rewrite E1. cbn [mbind outcome_bind]. rewrite E2. cbn [mbind outcome_bind].
      assert (len fs ≤ len d / len lsep) by (apply Z.div_le_lower_bound; [done|]; rewrite Hd, length_app; lia).
      destruct (Z.ltb_spec (len fs) n); [|lia]. eexists. split; [done|]. split; [|rewrite length_app; simpl; lia]. apply Forall2_app; [done|]. by constructor.
    - rewrite Hfield. exists fs. rewrite app_nil_r. split_and!; [done..|lia]. }
  rewrite E1. cbn [mbind outcome_bind]. unfold fields. destruct Hrest as [[-> ->]|(rest'&->&->)].
  - rewrite app_nil_r in Hsuf. destruct (Z.leb_spec (len d) (len pre + len line)); [eauto|]. rewrite Hd, Hsuf, length_app in *. lia.
  - destruct (Z.leb_spec (len d) (len pre + len line)); [rewrite Hd, Hsuf, !length_app in *; lia|].
    replace (len pre + len line + len lsep) with (len (pre ++ line ++ lsep)) by (rewrite !length_app; lia).
    destruct (IH (pre ++ line ++ lsep) rest' fs1 (ds ++ omap (field ksep) [line]) Hl Hk) as (fs'&E'&Hfs'); [|by rewrite Hd, Hsuf, <- !app_assoc|done|done| |].
    + rewrite Hsuf, !length_app in Hf. lia.
    + rewrite !length_app. pose proof (Z.mul_le_mono_nonneg_r (len fs1) (len fs + 1) (len lsep) ltac:(lia) Hl1). lia.
    + exists fs'. split; [done|]. by rewrite <- app_assoc in Hfs'; cbn [omap list_omap] in *; destruct (field ksep line).
Qed.
