(* ===== verification/StrRefine.v ===== *)
(** The functions of the [str] module against their meaning on trees.
    [meaning] gives, for the trees the arguments denote, the tree of the
    result; it is undefined where the code's result depends on an address (a
    heap object used as an integer) or where a length leaves the range of
    [int]. *)
From stdpp Require Import base tactics list gmap strings.
From Stdlib Require Import ZArith Lia Ascii.
From S2P Require Import Prelude Values Heap Resource Gc GcCorrect GcSpec Tree Alloc Copy Symtab Cmodule Str StrSpec.
Open Scope Z_scope.

Ltac foralls := repeat first [apply Forall2_cons_2|apply Forall_cons_2|apply Forall2_nil_2|apply Forall_nil_2]; try done.

(** * The functions and their meaning *)
(** [str_funcs]: the entries of the module's table, without the two that work
    on symbols. *)
Inductive strfn :=
| FCharAt | FChr | FLength | FSubstr | FConcat | FToInt | FFromInt | FEq | FIndexOf | FIndexOfChar | FIndexOfCtrl
| FCmp | FSplit | FPairs | FJoin | FTrim | FReplace | FUpper | FLower | FPadStart | FPadEnd | FParseFloat
| FFromFloat | FFromBase | FToBase.

(** Arguments by kind. *)
Definition as_string (t : tree) : option (list Z) := match t with TString d => Some d | _ => None end.
Definition as_word (t : tree) : option Z := match t with Imm v => Some (val_get_int v) | _ => None end.
Definition as_int (t : tree) : option Z :=
  match t with Imm v => if val_is_int v then Some (val_get_int v) else None | _ => None end.
Definition as_double (t : tree) : double :=
  match t with Imm v => val_to_double v | _ => double_of_int 0 end.
(** The texts of a list of strings. *)
Fixpoint as_strings (t : tree) : option (list (list Z)) :=
  match t with
  | Imm v => if val_is_nil v then Some [] else None
  | TPair (TString d) t => cons d <$> as_strings t
  | _ => None
  end.
(** What the walk over the list adds up before it stops. *)
Fixpoint walk_size (t : tree) : Z :=
  match t with
  | TPair (TString d) t => len d + 1 + walk_size t
  | _ => 0
  end.
Fixpoint spine (t : tree) : nat := match t with TPair _ t => S (spine t) | _ => O end.

Definition string_result (r : list Z) : option tree := if len r <? STRING_MAX then Some (TString r) else None.
Definition int_result (n : Z) : option tree := Some (Imm (val_int n)).
Definition list_result (l : list tree) : option tree := Some (foldr TPair (Imm val_nil) l).
Definition imm_tree (v : Val) : option tree :=
  if (0 <=? v) && (v <? 2 ^ 64) && negb (is_heap_tag (val_tag v)) then Some (Imm v) else None.

Definition char_at (d : list Z) (i : Z) : Z := if (i <? 0) || (len d <=? i) then -1 else nth (Z.to_nat i) d 0.
Definition substr (d : list Z) (s n : Z) : list Z :=
  if (s <? 0) || (n <? 0) || (len d <? s) then [] else take (Z.to_nat n) (drop (Z.to_nat s) d).
Definition first_from (test : Z → bool) (d : list Z) (s : Z) : Z :=
  match list_find (λ c, test c = true) (drop (Z.to_nat s) d) with Some (j, _) => from_zero s + Z.of_nat j | None => -1 end.
Definition padded (d : list Z) (n c : Z) (at_start : bool) : list Z :=
  if (c <? 0) || (255 <? c) then d
  else let fill := replicate (Z.to_nat n - length d) c in if at_start then fill ++ d else d ++ fill.
Definition split_bytes (sep d : list Z) : list (list Z) := if len sep =? 0 then (λ c, [c]) <$> d else split_on sep d.

Section Meaning.
Context (strtod : list Z → double * Z) (fmt_g : double → list Z) (sym_some sym_none : Z).
Definition meaning (f : strfn) (ts : list tree) : option tree :=
  match f, ts with
  | FCharAt, [s; i] => match as_string s with None => int_result (-1) | Some d => i ← as_word i; int_result (char_at d i) end
  | FChr, [c] => match as_int c with Some c => Some (TString (if (c <? 0) || (255 <? c) then [] else [c])) | None => Some (TString []) end
  | FLength, [s] => match as_string s with None => int_result 0 | Some d => int_result (len d) end
  | FSubstr, [s; i; n] => match as_string s with None => Some (TString []) | Some d => i ← as_word i; n ← as_word n; Some (TString (substr d i n)) end
  | FConcat, [s; t] => match as_string s with None => Some (TString []) | Some a => match as_string t with None => Some (TString []) | Some b => string_result (a ++ b) end end
  | FToInt, [s] => match as_string s with None => int_result 0 | Some d => n ← leading_int d; int_result n end
  | FFromInt, [n] => n ← as_word n; Some (TString (dec_text n))
  | FEq, [s; t] => Some (Imm (val_bool (match as_string s, as_string t with Some a, Some b => bool_decide (a = b) | _, _ => false end)))
  | FIndexOf, [s; t] => match as_string s with None => int_result (-1) | Some a => match as_string t with None => int_result (-1) | Some b => int_result (or_minus 0 (find_sub b a)) end end
  | FIndexOfChar, [s; i; c] => match as_string s with None => int_result (-1) | Some d => i ← as_word i; c ← as_word c; int_result (first_from (λ x, x =? u8 c) d i) end
  | FIndexOfCtrl, [s; i] => match as_string s with None => int_result (-1) | Some d => i ← as_word i; int_result (first_from (λ x, x <? 32) d i) end
  | FCmp, [s; t] => match as_string s with None => int_result 0 | Some a => match as_string t with None => int_result 0 | Some b => int_result (lex a b) end end
  | FSplit, [s; t] => match as_string s with None => list_result [] | Some d => match as_string t with None => list_result [] | Some sep => list_result (TString <$> split_bytes sep d) end end
  | FPairs, [s; t; u] =>
      match as_string s with None => list_result [] | Some d => match as_string t with None => list_result [] | Some lsep => match as_string u with None => list_result [] | Some ksep =>
        list_result (if (len lsep =? 0) || (len ksep =? 0) || (len d =? 0) then [] else (λ kv, TPair (TString kv.1) (TString kv.2)) <$> fields lsep ksep d) end end end
  | FJoin, [l; t] =>
      match as_string t with
      | None => Some (TString [])
      | Some sep => if walk_size l <? 2 ^ 31 then match as_strings l with Some l => string_result (intercalate sep l) | None => Some (TString []) end else None
      end
  | FTrim, [s] => match as_string s with None => Some (TString []) | Some d => Some (TString (trim d)) end
  | FReplace, [s; t; u] =>
      match as_string s with None => Some (TString []) | Some d => match as_string t with None => Some (TString []) | Some old => match as_string u with None => Some (TString []) | Some new =>
        if len old =? 0 then Some (TString d) else string_result (replace_all old new d) end end end
  | FUpper, [s] => match as_string s with None => Some (TString []) | Some d => Some (TString (to_upper <$> d)) end
  | FLower, [s] => match as_string s with None => Some (TString []) | Some d => Some (TString (to_lower <$> d)) end
  | FPadStart, [s; n; c] | FPadEnd, [s; n; c] =>
      match as_string s with None => Some (TString []) | Some d => match as_int n, as_int c with
        | Some n, Some c => string_result (padded d n c (match f with FPadStart => true | _ => false end)) | _, _ => Some (TString []) end end
  | FParseFloat, [s] =>
      match as_string s with None => Some (Imm (val_symbol sym_none)) | Some d =>
        let '(x, used) := strtod (trim d) in
        if (used =? len (trim d)) && negb (used =? 0)
        then x ← imm_tree (val_float x); Some (TPair (Imm (val_symbol sym_some)) (TPair x (Imm val_nil)))
        else Some (Imm (val_symbol sym_none)) end
  | FFromFloat, [x] => string_result (fmt_g (as_double x))
  | FFromBase, [s; b] =>
      match as_string s with None => int_result (-1) | Some d => match as_int b with
        | Some b => if negb (base_ok b) || (len d =? 0) then int_result (-1) else int_result (default (-1) (from_base b d))
        | None => int_result (-1) end end
  | FToBase, [n; b] =>
      match as_int n, as_int b with
      | Some n, Some b => Some (TString (if base_ok b then numeral 49 b (n mod 2 ^ 48) else []))
      | _, _ => Some (TString [])
      end
  | _, _ => None
  end.
End Meaning.

(** The strings the runtime holds: bytes, of a length an [int] holds. *)
Fixpoint text_ok (t : tree) : Prop :=
  match t with
  | TString d => Forall byte d ∧ len d < STRING_MAX
  | TPair a b => text_ok a ∧ text_ok b
  | _ => True
  end.

(** The dispatch of the module's table. *)
Definition run (cap stress : Z) (ok : Z → bool) (fuel : nat) (strtod : list Z → double * Z) (fmt_g : double → list Z)
  (sym_some sym_none : Z) (f : strfn) (st : store) (p : ProcMem) (args : list Val) : outcome (Val * store * ProcMem) :=
  match f with
  | FCharAt => str_char_at st p args
  | FChr => str_chr_fn cap stress st p args
  | FLength => str_length st p args
  | FSubstr => str_substr cap stress ok st p args
  | FConcat => str_concat cap stress ok st p args
  | FToInt => str_to_int st p args
  | FFromInt => str_from_int cap stress st p args
  | FEq => str_eq_fn st p args
  | FIndexOf => str_index_of st p args
  | FIndexOfChar => str_index_of_char st p args
  | FIndexOfCtrl => str_index_of_ctrl st p args
  | FCmp => str_cmp_fn st p args
  | FSplit => str_split cap stress ok st p args
  | FPairs => str_pairs cap stress ok st p args
  | FJoin => str_join cap stress ok fuel st p args
  | FTrim => str_trim cap stress ok st p args
  | FReplace => str_replace cap stress ok st p args
  | FUpper => str_upper cap stress ok st p args
  | FLower => str_lower cap stress ok st p args
  | FPadStart => str_pad_start cap stress ok st p args
  | FPadEnd => str_pad_end cap stress ok st p args
  | FParseFloat => str_parse_float cap stress ok strtod sym_some sym_none st p args
  | FFromFloat => str_from_float cap stress fmt_g st p args
  | FFromBase => str_from_base st p args
  | FToBase => str_to_base cap stress st p args
  end.

(** * Arguments *)
Section Args.
Context (st : store) (v : Val) (t : tree) (Hd : denotes st v t).
Lemma with_string_as args i other k :
  args !! i = Some v → with_string st args i other k = match as_string t with Some d => k d | None => other end.
Proof using Hd.
  intros Hi. unfold with_string, arg. rewrite Hi. cbn [or_undef mbind outcome_bind]. destruct (as_string t) as [d|] eqn:E.
  - destruct t; try done. injection E as ->. destruct (string_denotes _ _ _ Hd) as [-> ->]. done.
  - rewrite (not_string_denotes _ _ _ Hd); [done|]. intros d ->. done.
Qed.
Lemma int_arg_as args i n : args !! i = Some v → as_word t = Some n → int_arg args i = Ret n.
Proof using Hd.
  intros Hi Hn. unfold int_arg, arg. rewrite Hi. cbn [or_undef mbind outcome_bind]. destruct t; try done. destruct Hd as (->&_). by injection Hn as ->.
Qed.
Lemma heap_tree_tag : (∀ w, t ≠ Imm w) → is_heap_tag (val_tag v) = true.
Proof using Hd.
  intros H. destruct t; [by destruct (H v0)|..].
  - by destruct Hd as (?&?&(_&->&_)&_).
  - by destruct Hd as (?&(_&->&_)&_).
  - by destruct Hd as (_&->&_).
  - by destruct Hd as (_&->&_).
  - by destruct Hd as (_&->&_).
Qed.
Lemma val_is_int_as : val_is_int v = match as_int t with Some _ => true | None => false end.
Proof using Hd.
  assert ((∀ w, t ≠ Imm w) → val_is_int v = false) as H by (intros; by apply heap_tag_not_num, heap_tree_tag).
  destruct t as [w| | | | |]; [destruct Hd as (->&_); cbn; by destruct (val_is_int w)|by apply H..].
Qed.
Lemma val_get_int_as n : as_int t = Some n → val_get_int v = n.
Proof using Hd. destruct t; try done. destruct Hd as (->&_). cbn. destruct (val_is_int v0); [|done]. by intros [= ->]. Qed.
End Args.

Lemma as_string_ok t d : as_string t = Some d → text_ok t → Forall byte d ∧ len d < STRING_MAX.
Proof. destruct t; try done. by intros [= ->]. Qed.

(** * Building results *)
Section Refine.
Context (cap stress : Z) (ok : Z → bool).

Lemma lbox_yields st p tag x : window st p → is_heap_tag (u16 tag) = false → yields (Ret (lbox tag x, st, p)) st (Imm (lbox tag x)).
Proof. intros W Ht. apply imm_yields; [done|apply lbox_range|by rewrite lbox_tag]. Qed.
Lemma symbol_yields st p s : window st p → yields (Ret (val_symbol s, st, p)) st (Imm (val_symbol s)).
Proof. intros W. by apply lbox_yields. Qed.
Lemma nil_yields st p : window st p → yields (Ret (val_nil, st, p)) st (Imm val_nil).
Proof. intros W. by apply lbox_yields. Qed.
Lemma bool_yields st p b : window st p → yields (Ret (val_bool b, st, p)) st (Imm (val_bool b)).
Proof. intros W. destruct b; by apply lbox_yields. Qed.
Lemma empty_yields st p : window st p → yields (empty cap stress st p) st (TString []).
Proof. intros W. by apply new_string_yields. Qed.

(** A list is built from its last element on. *)
Fixpoint list_cost (ts : list tree) : Z := match ts with [] => 0 | t :: ts => CHUNK_COST + cost t + list_cost ts end.
Lemma list_cost_app ts us : list_cost (ts ++ us) = list_cost ts + list_cost us.
Proof. induction ts as [|t ts IH]; [done|]. cbn [app list_cost]. lia. Qed.
Lemma list_cost_nonneg ts : 0 ≤ list_cost ts.
Proof. induction ts as [|t ts IH]; [done|]. cbn [list_cost]. pose proof (cost_nonneg t). assert (0 ≤ CHUNK_COST) by done. lia. Qed.
Lemma list_cost_tree ts : cost (foldr TPair (Imm val_nil) ts) = list_cost ts.
Proof. induction ts as [|t ts IH]; [done|]. cbn [foldr cost list_cost]. by rewrite IH. Qed.
Lemma build_list_from elem (ts : list tree) : ∀ acc tail st p,
  window st p → denotes st acc tail → brk st + list_cost ts < ADDR_LIMIT →
  (∀ k t st' p', ts !! k = Some t → window st' p' → yields (elem k st' p') st' t) →
  ∃ v st' p', build_list cap stress elem (length ts) acc st p = Ret (v, st', p') ∧ denotes st' v (foldr TPair tail ts) ∧ window st' p' ∧
    cells st ⊆ cells st' ∧ brk st ≤ brk st' ≤ brk st + list_cost ts.
Proof.
  induction ts as [|t ts IH] using rev_ind; intros acc tail st p W Ha Hb He.
  - exists acc, st, p. cbn. split_and!; (done || lia).
  - rewrite length_app, Nat.add_1_r. rewrite list_cost_app in *. cbn [list_cost] in Hb |- *. cbn [build_list].
    pose proof (cost_nonneg t). pose proof (list_cost_nonneg ts). assert (0 ≤ CHUNK_COST) by done.
    destruct (He (length ts) t st p) as (v&st1&p1&E1&D1&W1&S1&B1); [by apply list_lookup_middle|done|lia|]. rewrite E1. cbn [mbind outcome_bind].
    destruct (pair_yields cap stress st1 p1 v acc t tail W1 D1) as (w&st2&p2&E2&D2&W2&S2&B2); [by eapply denotes_mono|lia|]. rewrite E2. cbn [mbind outcome_bind].
    destruct (IH w (TPair t tail) st2 p2 W2 D2) as (r&st3&p3&E3&D3&W3&S3&B3); [lia| |].
    { intros k u st' p' Hk. apply He. rewrite lookup_app_l; [done|]. by eapply lookup_lt_Some. }
    exists r, st3, p3. rewrite foldr_app. split_and!; [done|done|done|by do 2 (etrans; [done|])|lia|lia].
Qed.
Lemma build_list_yields elem ts st p :
  window st p → (∀ k t st' p', ts !! k = Some t → window st' p' → yields (elem k st' p') st' t) →
  yields (build_list cap stress elem (length ts) val_nil st p) st (foldr TPair (Imm val_nil) ts).
Proof.
  intros W He Hb. rewrite list_cost_tree in *. apply build_list_from; [done| |done|done]. repeat split; vm_compute; done.
Qed.

(** Scratch buffers. *)
Context (Hok : ∀ n, ok n = true).
Lemma scratch_for_ge n : n ≤ scratch_for n.
Proof. unfold scratch_for. destruct (Z.ltb_spec 0 n); lia. Qed.
Lemma through_scratch_yields st p r :
  window st p → Forall byte r → len r < STRING_MAX → yields (through_scratch cap stress ok st p r) st (TString r).
Proof using Hok.
  intros W Hb Hl. unfold through_scratch. rewrite Hok. cbn [negb]. pose proof (scratch_for_ge (len r)).
  rewrite filled_new, filled_copy by (done || simpl; lia). cbn [mbind outcome_bind app]. rewrite filled_read by lia. cbn [mbind outcome_bind].
  by apply new_string_yields.
Qed.
Lemma map_loop_spec f n fuel : ∀ pre suf out,
  (length suf ≤ fuel)%nat → Forall (λ c, byte (f c)) suf → length out = length pre → len pre + len suf ≤ n →
  map_loop f fuel (pre ++ suf) (len pre) (filled n out) = Ret (filled n (out ++ (f <$> suf))).
Proof.
  induction fuel as [|fuel IH]; intros pre suf out Hf Hb Ho Hn; destruct suf as [|c suf]; cbn [length] in Hf; try lia; cbn [map_loop].
  1,2: rewrite app_nil_r, Z.ltb_irrefl; cbn; by rewrite app_nil_r.
  destruct (Z.ltb_spec (len pre) (len (pre ++ c :: suf))); [|rewrite length_app in *; simpl in *; lia].
  apply Forall_cons in Hb as [Hc Hb]. rewrite byte_at_here by done. cbn [mbind outcome_bind length] in *. rewrite filled_put by (done || lia). cbn [mbind outcome_bind].
  replace (pre ++ c :: suf) with ((pre ++ [c]) ++ suf) by (by rewrite <- app_assoc).
  replace (len pre + 1) with (len (pre ++ [c])) by (rewrite length_app; simpl; lia).
  rewrite IH; [by rewrite <- app_assoc|lia|done|rewrite !length_app; simpl; lia|rewrite length_app; simpl; lia].
Qed.
Lemma map_string_yields f st p v d :
  window st p → denotes st v (TString d) → Forall (λ c, byte (f c)) d → len d < STRING_MAX →
  yields (map_string cap stress ok f st p [v]) st (TString (f <$> d)).
Proof using Hok.
  intros W D Hb Hl. unfold map_string. rewrite (with_string_as _ _ _ D) by done. cbn [as_string]. rewrite Hok. cbn [negb]. pose proof (scratch_for_ge (len d)).
  rewrite filled_new, (map_loop_spec f _ _ [] d []) by (done || simpl; lia). cbn [mbind outcome_bind app].
  rewrite filled_read by (rewrite ?length_fmap; lia). cbn [mbind outcome_bind]. apply new_string_yields; [done|]. by rewrite length_fmap.
Qed.

(** ** Parts of a string *)
Lemma mem_sub_take d s n : 0 ≤ s → 0 ≤ n → s + n ≤ len d → mem_sub d s n = Ret (take (Z.to_nat n) (drop (Z.to_nat s) d)).
Proof.
  intros. unfold mem_sub. destruct (Z.leb_spec 0 s), (Z.leb_spec 0 n), (Z.leb_spec (s + n) (len d)); done || lia.
Qed.
Lemma substr_yields st p d s n :
  window st p → Forall byte d → len d < STRING_MAX →
  yields (if (s <? 0) || (n <? 0) || (len d <? s) then empty cap stress st p
          else r ← mem_sub d s (if len d <? s + n then len d - s else n); through_scratch cap stress ok st p r) st (TString (substr d s n)).
Proof using Hok.
  intros W Hb Hl. unfold substr. destruct (_ || _) eqn:E; [by apply empty_yields|].
  apply orb_false_iff in E as [[E1%Z.ltb_ge E2%Z.ltb_ge]%orb_false_iff E3%Z.ltb_ge].
  assert (Hr : mem_sub d s (if len d <? s + n then len d - s else n) = Ret (take (Z.to_nat n) (drop (Z.to_nat s) d))).
  { destruct (Z.ltb_spec (len d) (s + n)); rewrite mem_sub_take by lia; [|done]. f_equal.
    rewrite !take_ge; [done|rewrite length_drop; lia..]. }
  rewrite Hr. cbn [mbind outcome_bind]. apply through_scratch_yields; [done|by apply Forall_take, Forall_drop|].
  rewrite length_take, length_drop. lia.
Qed.
Lemma find_index_from test d s :
  find_from test (length d) d (from_zero s) = Ret (first_from test d s).
Proof.
  unfold first_from. assert (Hz : Z.to_nat s = Z.to_nat (from_zero s)) by (unfold from_zero; destruct (Z.ltb_spec s 0); lia).
  assert (0 ≤ from_zero s) by (unfold from_zero; destruct (Z.ltb_spec s 0); lia). rewrite Hz. set (i := from_zero s) in *.
  destruct (decide (i ≤ len d)) as [Hi|Hi].
  - assert (Hl : len (take (Z.to_nat i) d) = i) by (rewrite length_take; lia).
    pose proof (find_from_spec test (take (Z.to_nat i) d) (drop (Z.to_nat i) d) (length d) ltac:(rewrite length_drop; lia)) as E.
    by rewrite take_drop, Hl in E.
  - rewrite drop_ge by lia. cbn. destruct d as [|c d]; cbn [length find_from]; [destruct (Z.ltb_spec i (Z.of_nat 0))|destruct (Z.ltb_spec i (Z.of_nat (S (length d))))]; simpl in *; done || lia.
Qed.

(** ** Splitting *)
Lemma split_piece_yields st p d sep l k x :
  window st p → len d < STRING_MAX → d = intercalate sep l → l !! k = Some x →
  yields (split_piece cap stress d sep (offsets sep 0 l) k st p) st (TString x).
Proof.
  intros W Hl Hd Hk. destruct (offsets_piece sep l k x [] d Hk Hd) as (a&b&E&Ea&En&Eb). change (len (@nil Z)) with 0 in *.
  unfold split_piece. rewrite Ea. cbn [or_undef mbind outcome_bind]. rewrite offsets_length.
  assert (He : (if (S k <? length l)%nat then x ← or_undef (offsets sep 0 l !! S k); Ret (x - len sep) else Ret (len d)) = Ret (len a + len x)).
  { destruct (Nat.ltb_spec (S k) (length l)) as [Hlt|Hge].
    - destruct (lookup_lt_is_Some_2 (offsets sep 0 l) (S k)) as [y Hy]; [by rewrite offsets_length|]. rewrite Hy. cbn [or_undef mbind outcome_bind]. by rewrite En.
    - rewrite E, Eb, app_nil_r, length_app by done. f_equal. lia. }
  rewrite He. cbn [mbind outcome_bind]. rewrite E at 1. rewrite mem_sub_here by lia. cbn [mbind outcome_bind].
  apply new_string_yields; [done|]. rewrite E, !length_app in Hl. lia.
Qed.
Lemma split_yields st p d sep :
  window st p → len d < STRING_MAX →
  yields (if len sep =? 0 then build_list cap stress (byte_piece cap stress d) (length d) val_nil st p
          else if len d <? len sep then '(v, st, p) ← new_string cap stress st p d; val_pair cap stress st p v val_nil
          else if negb (ok ((len d / len sep + 2) * 4)) then Ret (val_nil, st, p)
          else starts ← split_scan (S (length d)) d sep (len d / len sep + 2) 0 [0];
               build_list cap stress (split_piece cap stress d sep starts) (length starts) val_nil st p)
    st (foldr TPair (Imm val_nil) (TString <$> split_bytes sep d)).
Proof using Hok.
  intros W Hl. unfold split_bytes. destruct (Z.eqb_spec (len sep) 0) as [E|E].
  - replace (length d) with (length (TString <$> ((λ c, [c]) <$> d))) by (by rewrite !length_fmap). apply build_list_yields; [done|].
    intros k t st' p' Hk W'. rewrite !list_lookup_fmap in Hk. destruct (d !! k) as [c|] eqn:Ek; [|done]. injection Hk as <-.
    unfold byte_piece. pose proof (take_drop_middle d k c Ek) as Hd. rewrite <- Hd at 1. apply lookup_lt_Some in Ek.
    rewrite (mem_sub_here (take k d) [c] (drop (S k) d)) by (rewrite ?length_take; simpl; lia). by apply new_string_yields.
  - assert (Hs : sep ≠ []) by (by intros ->). destruct (Z.ltb_spec (len d) (len sep)).
    + unfold split_on. rewrite pieces_short by lia. change (yields ('(v, st, p) ← new_string cap stress st p d; '(w, st, p) ← Ret (val_nil, st, p); val_pair cap stress st p v w) st (TPair (TString d) (Imm val_nil))).
      apply (yields_pair cap stress st (new_string cap stress st p d) (λ _ st p, Ret (val_nil, st, p))); [by apply new_string_yields|]. intros. by apply nil_yields.
    + rewrite Hok. cbn [negb]. pose proof (split_scan_spec sep (len d / len sep + 2) (S (length d)) [] [] d []) as Es. cbn [app length] in Es.
      change (Z.of_nat 0 + Z.of_nat 0) with 0 in Es. change (Z.of_nat 0) with 0 in Es. rewrite Es by (done || lia). cbn [mbind outcome_bind]. rewrite offsets_length.
      change (pieces sep O [] d) with (split_on sep d). rewrite <- (length_fmap TString). apply build_list_yields; [done|].
      intros k t st' p' Hk W'. rewrite list_lookup_fmap in Hk. destruct (split_on sep d !! k) as [x|] eqn:Ek; [|done]. injection Hk as <-.
      apply split_piece_yields; [done|done|by rewrite join_split|done].
Qed.
Lemma trim_length d : len (trim d) ≤ len d.
Proof.
  unfold trim. rewrite length_rev. destruct (drop_space_suffix d) as (a&Ha&_). destruct (drop_space_suffix (rev (drop_space d))) as (b&Hb&_).
  apply (f_equal length) in Ha, Hb. rewrite length_app in *. rewrite length_rev in Hb. lia.
Qed.
Lemma trim_bytes d : Forall byte d → Forall byte (trim d).
Proof.
  intros H. assert (G : ∀ l, Forall byte l → Forall byte (drop_space l)).
  { intros l Hl. destruct (drop_space_suffix l) as (a&Ha&_). rewrite Ha in Hl. by apply Forall_app in Hl as []. }
  unfold trim. by apply Forall_rev, G, Forall_rev, G.
Qed.
Lemma mem_sub_length d i n r : mem_sub d i n = Ret r → len r = n ∧ len r ≤ len d.
Proof.
  unfold mem_sub. destruct (Z.leb_spec 0 i), (Z.leb_spec 0 n), (Z.leb_spec (i + n) (len d)); try done. intros [= <-].
  rewrite length_take, length_drop. lia.
Qed.
Lemma pairs_yields st p d lsep ksep :
  window st p → len d < STRING_MAX →
  yields (if (len lsep =? 0) || (len ksep =? 0) || (len d =? 0) then Ret (val_nil, st, p)
          else if negb (ok ((len d / len lsep + 2) * 16)) then Ret (val_nil, st, p)
          else fs ← pairs_scan (S (length d)) d lsep ksep (len d / len lsep + 2) 0 [];
               build_list cap stress (pairs_piece cap stress d fs) (length fs) val_nil st p)
    st (foldr TPair (Imm val_nil)
         (if (len lsep =? 0) || (len ksep =? 0) || (len d =? 0) then [] else (λ kv, TPair (TString kv.1) (TString kv.2)) <$> fields lsep ksep d)).
Proof using Hok.
  intros W Hl. destruct (_ || _ || _) eqn:E; [by apply nil_yields|]. apply orb_false_iff in E as [[E1%Z.eqb_neq E2%Z.eqb_neq]%orb_false_iff _].
  rewrite Hok. cbn [negb].
  destruct (pairs_scan_spec lsep ksep (len d / len lsep + 2) d (S (length d)) [] d [] []) as (fs&Efs&Hfs); try done; [by intros ->|by intros ->|lia|].
  change (len (@nil Z)) with 0 in Efs. rewrite Efs. cbn [mbind outcome_bind]. cbn [app] in Hfs.
  rewrite (Forall2_length _ _ _ Hfs), <- (length_fmap (λ kv, TPair (TString kv.1) (TString kv.2))). apply build_list_yields; [done|].
  intros k t st' p' Hk W'. rewrite list_lookup_fmap in Hk. destruct (fields lsep ksep d !! k) as [kv|] eqn:Ek; [|done]. injection Hk as <-.
  destruct (Forall2_lookup_r _ _ _ _ _ Hfs Ek) as (f&Ef&Hk1&Hk2). unfold pairs_piece. rewrite Ef. cbn [or_undef mbind outcome_bind]. rewrite Hk1. cbn [mbind outcome_bind].
  apply mem_sub_length in Hk1 as [_ Hl1]. pose proof (mem_sub_length _ _ _ _ Hk2) as [_ Hl2]. rewrite Hk2. cbn [mbind outcome_bind].
  apply (yields_pair cap stress st' (new_string cap stress st' p' kv.1) (λ _ st p, new_string cap stress st p kv.2) (TString kv.1) (TString kv.2)).
  - apply new_string_yields; [done|lia].
  - intros v st1 p1 _ W1 _. apply new_string_yields; [done|lia].
Qed.

(** ** Joining *)
Lemma pair_view st v t :
  denotes st v t →
  match t with
  | TPair a b => val_is_pair v = true ∧ ∃ x y, read_pair st v = Ret (x, y) ∧ denotes st x a ∧ denotes st y b
  | Imm w => val_is_pair v = false ∧ val_is_nil v = val_is_nil w
  | _ => val_is_pair v = false ∧ val_is_nil v = false
  end.
Proof.
  intros D. unfold val_is_pair, val_is_nil, read_pair. destruct t; cbn in D.
  - destruct D as (->&_&Ht). split; [|done]. apply Z.eqb_neq. intros E. by rewrite E in Ht.
  - destruct D as (x&y&(_&->&_&->)&Dx&Dy). split; [done|]. by exists x, y.
  - by destruct D as (?&(_&->&_)&_).
  - by destruct D as (_&->&_).
  - by destruct D as (_&->&_).
  - by destruct D as (_&->&_).
Qed.
Lemma chk32_ok n : - 2 ^ 31 ≤ n < 2 ^ 31 → chk32 n = Ret n.
Proof. intros H. unfold chk32, in_i32. destruct (Z.leb_spec (- 2 ^ 31) n), (Z.ltb_spec n (2 ^ 31)); done || lia. Qed.
Lemma walk_size_nonneg t : 0 ≤ walk_size t.
Proof. induction t as [| [] ? _ IH| | | |] using tree_ind'; cbn [walk_size]; try lia. Qed.
Lemma join_size_spec t : ∀ fuel st v total count,
  denotes st v t → (spine t ≤ fuel)%nat → 0 ≤ total → 0 ≤ count → total + count + walk_size t < 2 ^ 31 →
  join_size fuel st v total count =
  Ret (match as_strings t with Some l => Some (total + len (concat l), count + len l) | None => None end).
Proof.
  induction t as [w|a b _ IH| | | |] using tree_ind'; intros fuel st v total count D Hf Ht Hc Hw; pose proof (pair_view _ _ _ D) as Hv; cbn iota in Hv.
  1,3-6: destruct fuel; cbn [join_size]; destruct Hv as [-> ->]; cbn [as_strings]; try done.
  1,2: destruct (val_is_nil w); cbn; do 3 f_equal; lia.
  destruct fuel as [|fuel]; [cbn in Hf; lia|]. cbn [join_size]. destruct Hv as (->&x&y&->&Dx&Dy). cbn [mbind outcome_bind].
  destruct (as_string a) as [d|] eqn:Ea.
  - destruct a; try done. injection Ea as ->. destruct (string_denotes _ _ _ Dx) as [-> ->]. cbn [negb mbind outcome_bind walk_size] in *.
    pose proof (walk_size_nonneg b). rewrite !chk32_ok by lia. cbn [mbind outcome_bind].
    rewrite IH by (done || cbn in Hf; lia). cbn [as_strings]. destruct (as_strings b) as [l|]; [|done]. cbn [fmap option_fmap option_map concat length].
    rewrite length_app. do 3 f_equal; lia.
  - rewrite (not_string_denotes _ _ _ Dx) by (by intros d ->). cbn [negb as_strings]. by destruct a.
Qed.
Definition joined (sep : list Z) (k : Z) (l : list (list Z)) : list Z :=
  if 0 <? k then concat (app sep <$> l) else intercalate sep l.
Lemma joined_cons sep k x l : 0 ≤ k → joined sep k (x :: l) = (if 0 <? k then sep else []) ++ x ++ joined sep (k + 1) l.
Proof.
  intros Hk. unfold joined. destruct (Z.ltb_spec 0 (k + 1)); [|lia]. destruct (Z.ltb_spec 0 k); [cbn [fmap list_fmap concat]; by rewrite <- app_assoc|]. cbn [app].
  revert x. induction l as [|y l IH]; intros x; [cbn; by rewrite app_nil_r|]. rewrite intercalate_cons, IH by done. cbn [fmap list_fmap concat]. by rewrite <- app_assoc.
Qed.
Lemma join_copy_spec sep n t : ∀ fuel st v out k l,
  denotes st v t → (spine t ≤ fuel)%nat → as_strings t = Some l → text_ok t → Forall byte sep → 0 ≤ k →
  len out + len (joined sep k l) ≤ n →
  join_copy fuel st sep v (filled n out) (len out) k = Ret (filled n (out ++ joined sep k l)).
Proof.
  induction t as [w|a b _ IH| | | |] using tree_ind'; intros fuel st v out k l D Hf Hl Hok1 Hsep Hk Hn; try done; pose proof (pair_view _ _ _ D) as Hv; cbn iota in Hv.
  - cbn in Hl. destruct (val_is_nil w); [|done]. injection Hl as <-. assert (joined sep k [] = []) as -> by (unfold joined; by destruct (0 <? k)).
    rewrite app_nil_r. destruct fuel; cbn [join_copy]; by destruct Hv as [-> _].
  - destruct fuel as [|fuel]; [cbn in Hf; lia|]. cbn [join_copy]. destruct Hv as (->&x&y&->&Dx&Dy). cbn [mbind outcome_bind].
    destruct a as [| | |d| |]; try done. cbn in Hl. destruct (as_strings b) as [r|]; [|done]. injection Hl as <-.
    destruct (string_denotes _ _ _ Dx) as [_ ->]. cbn [mbind outcome_bind]. destruct Hok1 as [[Hd _] Hb].
    rewrite joined_cons in Hn |- * by done. set (pre := if 0 <? k then sep else []) in *. rewrite !length_app in Hn.
    assert (E : (if 0 <? k then t ← sc_copy (filled n out) (len out) sep; Ret (t, len out + len sep) else Ret (filled n out, len out)) = Ret (filled n (out ++ pre), len (out ++ pre))).
    { unfold pre in *. destruct (0 <? k); [|by rewrite app_nil_r]. rewrite filled_copy by (done || lia). cbn [mbind outcome_bind]. rewrite length_app. do 2 f_equal. lia. }
    rewrite E. cbn [mbind outcome_bind]. rewrite filled_copy by (done || rewrite ?length_app; lia). cbn [mbind outcome_bind].
    replace (len (out ++ pre) + len d) with (len ((out ++ pre) ++ d)) by (rewrite !length_app; lia).
    rewrite (IH fuel st y _ _ r) by (done || rewrite ?length_app; cbn in Hf; lia). by rewrite <- !app_assoc.
Qed.
Lemma concat_intercalate sep l : len (concat l) ≤ len (intercalate sep l).
Proof. destruct l as [|x l]; [done|]. rewrite intercalate_length by done. cbn [length]. lia. Qed.
Lemma join_yields fuel st p v t sep r :
  window st p → denotes st v t → (spine t ≤ fuel)%nat → text_ok t → Forall byte sep → walk_size t < 2 ^ 31 →
  match as_strings t with Some l => string_result (intercalate sep l) | None => Some (TString []) end = Some r →
  yields (r ← join_size fuel st v 0 0;
    match r with
    | None => empty cap stress st p
    | Some (total, count) =>
        total ← (if 0 <? count then s ← chk32 ((count - 1) * len sep); chk32 (total + s) else Ret total);
        if negb (ok (scratch_for total)) then empty cap stress st p
        else
          tmp ← join_copy fuel st sep v (sc_new (scratch_for total)) 0 0;
          r ← sc_read tmp 0 total;
          new_string cap stress st p r
    end) st r.
Proof using Hok.
  intros W D Hf Ht Hs Hw Hr. rewrite (join_size_spec t) by (done || lia). cbn [mbind outcome_bind].
  destruct (as_strings t) as [l|] eqn:El; [|injection Hr as <-; by apply empty_yields].
  unfold string_result in Hr. destruct (Z.ltb_spec (len (intercalate sep l)) STRING_MAX) as [Hmax|]; [|done]. injection Hr as <-. rewrite !Z.add_0_l.
  assert (E : (if 0 <? len l then s ← chk32 ((len l - 1) * len sep); chk32 (len (concat l) + s) else Ret (len (concat l))) = Ret (len (intercalate sep l))).
  { destruct l as [|x l]; [done|]. rewrite intercalate_length in * by done. unfold STRING_MAX in Hmax. set (L := x :: l) in *.
    assert (0 ≤ (len L - 1) * len sep) by (apply Z.mul_nonneg_nonneg; subst L; cbn [length]; lia).
    destruct (Z.ltb_spec 0 (len L)); [|subst L; cbn [length] in *; lia]. rewrite chk32_ok by lia. cbn [mbind outcome_bind]. by rewrite chk32_ok by lia. }
  rewrite E. cbn [mbind outcome_bind]. rewrite Hok. cbn [negb]. pose proof (scratch_for_ge (len (intercalate sep l))).
  rewrite filled_new. change 0 with (len (@nil Z)) at 1. rewrite (join_copy_spec sep _ t fuel st v [] 0 l) by (done || unfold joined; simpl; lia).
  cbn [mbind outcome_bind app]. change (joined sep 0 l) with (intercalate sep l). rewrite filled_read by lia. by apply new_string_yields.
Qed.

(** ** Replacing and padding *)
Lemma replace_yields st p d old new r :
  window st p → Forall byte d → len d < STRING_MAX → Forall byte new →
  (if len old =? 0 then Some (TString d) else string_result (replace_all old new d)) = Some r →
  yields (if len old =? 0 then new_string cap stress st p d
        else
          count ← count_matches (S (length d)) d old 0 0;
          let rlen := len d - count * (len old - len new) in
          if negb (ok (scratch_for rlen)) then empty cap stress st p
          else
            '(off, tmp) ← replace_loop (length d) d old new 0 0 (sc_new (scratch_for rlen));
            r ← sc_read tmp 0 off;
            new_string cap stress st p r) st r.
Proof using Hok.
  intros W Hb Hl Hn. destruct (Z.eqb_spec (len old) 0) as [E|E]; [intros [= <-]; by apply new_string_yields|].
  unfold string_result. destruct (Z.ltb_spec (len (replace_all old new d)) STRING_MAX) as [Hmax|]; [|done]. intros [= <-].
  assert (Hs : old ≠ []) by (by intros ->). pose proof (count_matches_spec old (S (length d)) [] d 0 Hs) as Ec. cbn [app] in Ec. change (len (@nil Z)) with 0 in Ec.
  unfold STRING_MAX in *. rewrite Ec by lia. cbn [mbind outcome_bind]. cbv zeta. rewrite Hok. cbn [negb].
  replace (len d - (0 + len (split_on old d) - 1) * (len old - len new)) with (len (replace_all old new d)) by (rewrite replace_length by done; lia).
  pose proof (scratch_for_ge (len (replace_all old new d))). set (n := scratch_for _) in *.
  assert (n < 2 ^ 31) by (unfold n, scratch_for; destruct (Z.ltb_spec 0 (len (replace_all old new d))); lia).
  pose proof (replace_loop_spec old new n (length d) [] d []) as Er. cbn [app] in Er. change (len (@nil Z)) with 0 in Er.
  rewrite filled_new, Er by (done || lia). cbn [mbind outcome_bind]. rewrite filled_read by lia. cbn [mbind outcome_bind]. by apply new_string_yields.
Qed.
Lemma sc_copy_at d : ∀ pre old post,
  length old = length d → Forall byte d → sc_copy (pre ++ old ++ post) (len pre) d = Ret (pre ++ (Some <$> d) ++ post).
Proof.
  induction d as [|c d IH]; intros pre old post Ho Hd; destruct old as [|x old]; try done. cbn [sc_copy]. apply Forall_cons in Hd as [Hc Hd].
  unfold sc_put. rewrite !length_app. cbn [length].
  destruct (Z.leb_spec 0 (len pre)); [|lia]. destruct (Z.ltb_spec (len pre) (Z.of_nat (length pre + (S (length old) + length post)))); [|lia].
  cbn [andb mbind outcome_bind]. rewrite Nat2Z.id, insert_app_r_alt, Nat.sub_diag by lia. cbn [app insert list_insert].
  replace (u8 c) with c by (unfold u8; symmetry; apply Z.mod_small, Hc).
  replace (pre ++ Some c :: old ++ post) with ((pre ++ [Some c]) ++ old ++ post) by (by rewrite <- app_assoc).
  replace (len pre + 1) with (len (pre ++ [Some c])) by (rewrite length_app; simpl; lia).
  rewrite IH by (done || simpl in Ho; lia). by rewrite <- app_assoc.
Qed.
Lemma sc_fill_at pre old post c n :
  n = len old → sc_fill (pre ++ old ++ post) (len pre) c n = Ret (pre ++ replicate (length old) (Some (u8 c)) ++ post).
Proof.
  intros ->. unfold sc_fill. rewrite !length_app. destruct (Z.leb_spec 0 (len pre)), (Z.leb_spec 0 (len old)); try lia.
  destruct (Z.leb_spec (len pre + len old) (Z.of_nat (length pre + (length old + length post)))); [|lia]. cbn [andb].
  replace (Z.to_nat (len pre + len old)) with (length (pre ++ old)) by (rewrite length_app; lia).
  assert (drop (length (pre ++ old)) (pre ++ old ++ post) = post) as -> by (rewrite app_assoc; apply drop_app_length).
  by rewrite !Nat2Z.id, take_app_length.
Qed.
Lemma sc_read_all l n : n = len l → sc_read (Some <$> l) 0 n = Ret l.
Proof.
  intros ->. rewrite <- (filled_read (len l) l (len l)) by done. f_equal. unfold filled. rewrite Nat2Z.id, Nat.sub_diag. cbn. by rewrite app_nil_r.
Qed.
Lemma pad_yields st p d n c at_start r :
  window st p → Forall byte d → len d < STRING_MAX → - 2 ^ 47 ≤ n < 2 ^ 47 → string_result (padded d n c at_start) = Some r →
  yields (pad cap stress ok st p d n c at_start) st r.
Proof using Hok.
  intros W Hb Hl Hn. unfold string_result, padded, pad. destruct (_ || _) eqn:E.
  { destruct (Z.ltb_spec (len d) STRING_MAX); [|lia]. intros [= <-]. by apply new_string_yields. }
  apply orb_false_iff in E as [E1%Z.ltb_ge E2%Z.ltb_ge]. cbv zeta. destruct (Z.leb_spec (n - len d) 0) as [Hz|Hz].
  { replace (Z.to_nat n - length d)%nat with O by lia. cbn [replicate app]. rewrite app_nil_r.
    assert ((if at_start then d else d) = d) as -> by (by destruct at_start). destruct (Z.ltb_spec (len d) STRING_MAX); [|lia]. intros [= <-]. by apply new_string_yields. }
  set (fill := replicate (Z.to_nat n - length d) c). assert (Hfl : len fill = n - len d) by (unfold fill; rewrite length_replicate; lia).
  destruct (Z.ltb_spec (len (if at_start then fill ++ d else d ++ fill)) STRING_MAX) as [Hmax|]; [|done]. intros [= <-].
  assert (Hn31 : n < STRING_MAX) by (destruct at_start; rewrite length_app in Hmax; lia). unfold STRING_MAX in *.
  replace (len d + (n - len d)) with n by lia. replace (i32 n) with n by (symmetry; apply (signed_small 32); lia).
  assert (Eu : u64 n = n) by (unfold u64; apply Z.mod_small; lia). rewrite !Eu, Hok. cbn [negb].
  assert (Hf : Forall byte fill) by (apply Forall_replicate; unfold byte; lia). assert (Hu : u8 c = c) by (unfold u8; apply Z.mod_small; lia).
  assert (Hall : sc_new n = replicate (Z.to_nat (n - len d)) None ++ replicate (length d) None ++ [] ∧ sc_new n = [] ++ replicate (length d) None ++ replicate (Z.to_nat (n - len d)) None).
  { unfold sc_new. rewrite app_nil_r, <- !replicate_add. split; cbn; rewrite <- ?replicate_add; f_equal; lia. }
  assert (Hnew : Some <$> fill = replicate (Z.to_nat (n - len d)) (Some c)) by (unfold fill; rewrite fmap_replicate; f_equal; lia).
  destruct Hall as [H1 H2]. destruct at_start.
  - pose proof (sc_copy_at d (replicate (Z.to_nat (n - len d)) None) (replicate (length d) None) []) as Ec.
    pose proof (sc_fill_at [] (replicate (Z.to_nat (n - len d)) None) (Some <$> d) c (n - len d)) as Ef. rewrite !length_replicate in Ec, Ef.
    rewrite (length_replicate (Z.to_nat (n - len d))), Z2Nat.id in Ec by lia. rewrite H1, Ec by done. cbn [mbind outcome_bind]. rewrite app_nil_r. cbn [app] in Ef. change (len (@nil (option Z))) with 0 in Ef.
    rewrite Ef by lia. cbn [mbind outcome_bind]. rewrite Hu, <- Hnew, <- fmap_app. rewrite sc_read_all by (rewrite length_app; lia). by apply new_string_yields.
  - pose proof (sc_copy_at d [] (replicate (length d) None) (replicate (Z.to_nat (n - len d)) None)) as Ec.
    pose proof (sc_fill_at (Some <$> d) (replicate (Z.to_nat (n - len d)) None) [] c (n - len d)) as Ef. rewrite !length_replicate, !app_nil_r, length_fmap in *.
    rewrite H2. change (len (@nil (option Z))) with 0 in Ec. rewrite Ec by done. cbn [mbind outcome_bind app].
    rewrite Ef by lia. cbn [mbind outcome_bind]. rewrite Hu, <- Hnew, <- fmap_app. rewrite sc_read_all by (rewrite length_app; lia). by apply new_string_yields.
Qed.

(** ** Every function *)
Context (fuel : nat) (strtod : list Z → double * Z) (fmt_g : double → list Z) (sym_some sym_none : Z).
Local Abbreviation denote := (meaning strtod fmt_g sym_some sym_none).
Local Abbreviation call := (run cap stress ok fuel strtod fmt_g sym_some sym_none).

(** Opens the argument list; decides each argument's kind; reads integers. *)
Ltac take_args ts :=
  destruct ts as [|? [|? [|? [|? ?]]]]; cbn [meaning run]; try (intros; discriminate);
  repeat match goal with
  | H : Forall2 _ _ (_ :: _) |- _ => apply Forall2_cons_inv_r in H as (?&?&?&?&->)
  | H : Forall2 _ _ [] |- _ => apply Forall2_nil_inv_r in H as ->
  | H : Forall text_ok (_ :: _) |- _ => apply Forall_cons in H as [? ?]
  | H : Forall text_ok [] |- _ => clear H
  end.
Ltac by_kind :=
  repeat match goal with
  | D : denotes ?st ?v ?t |- context [with_string ?st ?args ?i ?o ?k] =>
      rewrite (with_string_as st v t D args i o k) by reflexivity;
      let E := fresh "E" in let d := fresh "d" in let B := fresh "B" in
      destruct (as_string t) as [d|] eqn:E; [apply as_string_ok in E as [B E]; [|done]|]
  end.
Ltac read_word :=
  match goal with
  | D : denotes ?st ?v ?t |- context [int_arg ?args ?i] =>
      let E := fresh "E" in destruct (as_word t) as [?|] eqn:E; [|discriminate];
      rewrite (int_arg_as st v t D args i _ eq_refl E); clear E; cbn [mbind option_bind outcome_bind]
  end.
Ltac result := let H := fresh in intros H; apply (inj Some) in H; subst.

Lemma number_refines f st p args ts r :
  f ∈ [FCharAt; FLength; FToInt; FIndexOf; FIndexOfChar; FIndexOfCtrl; FCmp; FEq] →
  window st p → Forall2 (denotes st) args ts → Forall text_ok ts → denote f ts = Some r → yields (call f st p args) st r.
Proof using.
  intros Hf W Ha Ht. revert Hf. rewrite !elem_of_cons, elem_of_nil. intros [->|[->|[->|[->|[->|[->|[->|[->|[]]]]]]]]]; take_args ts.
  - unfold str_char_at. by_kind; [|result; by apply int_yields]. read_word. result. unfold char_at.
    destruct (_ || _) eqn:Eo; [by apply int_yields|]. apply orb_false_iff in Eo as [E1%Z.ltb_ge E2%Z.leb_gt].
    destruct (lookup_lt_is_Some_2 d (Z.to_nat z)) as [c Hc]; [lia|]. unfold byte_at. destruct (Z.leb_spec 0 z); [|lia]. rewrite Hc.
    cbn [or_undef mbind outcome_bind]. rewrite (nth_lookup_Some _ _ _ _ Hc). by apply int_yields.
  - unfold str_length. by_kind; result; by apply int_yields.
  - unfold str_to_int. by_kind; [|result; by apply int_yields]. rewrite to_int_spec. destruct (leading_int d) as [n|]; [|done]. result. by apply int_yields.
  - unfold str_index_of. by_kind; [|result; by apply int_yields..]. rewrite index_of_spec. result. by apply int_yields.
  - unfold str_index_of_char. by_kind; [|result; by apply int_yields]. do 2 read_word. rewrite find_index_from. result. by apply int_yields.
  - unfold str_index_of_ctrl. by_kind; [|result; by apply int_yields]. read_word. rewrite find_index_from. result. by apply int_yields.
  - unfold str_cmp_fn. by_kind; [|result; by apply int_yields..]. rewrite str_cmp_spec. result. by apply int_yields.
  - unfold str_eq_fn. by_kind; result; [|by apply (bool_yields st p false)..]. destruct (Z.eqb_spec (len d) (len d0)) as [El|El]; cbn [negb].
    + unfold mem_eq. cbn [Z.leb andb]. destruct (Z.leb_spec (0 + len d0) (len d)); [|lia]. cbn [mbind outcome_bind]. change (Z.to_nat 0) with O. rewrite drop_0, take_ge by lia.
      by apply bool_yields.
    + rewrite bool_decide_eq_false_2 by congruence. by apply (bool_yields st p false).
Qed.

Ltac fetch := unfold arg; cbn [lookup list_lookup or_undef mbind outcome_bind].
Ltac by_int :=
  match goal with
  | D : denotes ?st ?v ?t |- context [val_is_int ?v] =>
      rewrite (val_is_int_as st v t D); let E := fresh "E" in destruct (as_int t) as [?|] eqn:E;
      [rewrite (val_get_int_as st v t D _ E)|]; cbn [negb orb]
  end.
Lemma as_int_range t n : as_int t = Some n → - 2 ^ 47 ≤ n < 2 ^ 47.
Proof using. destruct t; try done. cbn. destruct (val_is_int v); [|done]. intros [= <-]. apply val_get_int_range. Qed.
Lemma as_word_range t n : as_word t = Some n → - 2 ^ 47 ≤ n < 2 ^ 47.
Proof using. destruct t; try done. intros [= <-]. apply val_get_int_range. Qed.
Lemma base_ok_range b : base_ok b = true → 2 ≤ b ≤ 16.
Proof using. unfold base_ok. rewrite !orb_true_iff, !Z.eqb_eq. lia. Qed.
Lemma val_int_u64 n : val_int (i64 (u64 n)) = val_int n.
Proof using.
  assert (Hm : ∀ x, x mod 2 ^ 48 = (x mod 2 ^ 64) mod 2 ^ 48) by (intros; apply Znumtheory.Zmod_div_mod; [done..|by exists (2 ^ 16)]).
  rewrite !val_int_lbox, !lbox_eq. f_equal. rewrite (Hm (i64 _)), (Hm n). unfold i64. rewrite signed_cong by done. unfold u64. by rewrite Zmod_mod.
Qed.
Lemma case_bytes d : Forall byte d → Forall (λ c, byte (to_upper c)) d ∧ Forall (λ c, byte (to_lower c)) d.
Proof using.
  intros H. split; apply (Forall_impl _ _ _ H); intros c Hc; unfold byte, to_upper, to_lower in *.
  - destruct (Z.leb_spec (ch "a") c), (Z.leb_spec c (ch "z")); cbn [andb]; try lia. change (ch "a") with 97 in *. lia.
  - destruct (Z.leb_spec (ch "A") c), (Z.leb_spec c (ch "Z")); cbn [andb]; try lia. change (ch "Z") with 90 in *. lia.
Qed.
Lemma trim_yields st d (k : Z → Z → outcome (Val * store * ProcMem)) r :
  (∀ s e, mem_sub d s (e - s) = Ret (trim d) → e - s = len (trim d) → yields (k s e) st r) →
  yields ('(s, e) ← trim_range d 0 (len d); k s e) st r.
Proof using.
  intros H. destruct (trim_range_spec [] d [] d 0 (len d)) as (s&e&E&Em&Hle); [by rewrite app_nil_r|done|done|]. rewrite E. cbn [mbind outcome_bind].
  apply H; [done|]. by destruct (mem_sub_length _ _ _ _ Em).
Qed.

Lemma text_refines f st p args ts r :
  f ∈ [FChr; FSubstr; FConcat; FFromInt; FTrim; FReplace; FUpper; FLower; FFromFloat; FToBase; FFromBase] →
  window st p → Forall2 (denotes st) args ts → Forall text_ok ts → denote f ts = Some r → yields (call f st p args) st r.
Proof using Hok.
  intros Hf W Ha Ht. revert Hf. rewrite !elem_of_cons, elem_of_nil.
  intros [->|[->|[->|[->|[->|[->|[->|[->|[->|[->|[->|[]]]]]]]]]]]]; take_args ts.
  - unfold str_chr_fn. fetch. by_int; result; [|by apply empty_yields]. destruct (_ || _); [by apply empty_yields|by apply new_string_yields].
  - unfold str_substr. by_kind; [|result; by apply empty_yields]. do 2 read_word. result. by apply substr_yields.
  - unfold str_concat. by_kind; [|result; by apply empty_yields..]. unfold string_result. destruct (Z.ltb_spec (len (d ++ d0)) STRING_MAX) as [Hm|]; [|done].
    result. unfold STRING_MAX in *. pose proof (scratch_for_ge (len d + len d0)). pose proof Hm as Hm'. rewrite length_app in Hm. rewrite chk32_ok by lia. cbn [mbind outcome_bind]. rewrite Hok. cbn [negb].
    rewrite filled_new, filled_copy by (done || simpl; lia). cbn [mbind outcome_bind app]. rewrite filled_copy by (done || lia). cbn [mbind outcome_bind].
    rewrite filled_read by (rewrite ?length_app; lia). by apply new_string_yields.
  - unfold str_from_int. destruct (as_word t) as [n|] eqn:E; [|done]. pose proof (as_word_range _ _ E). erewrite int_arg_as by done. cbn [mbind option_bind outcome_bind].
    rewrite fmt_lld_spec by lia. result. apply new_string_yields; [done|]. unfold dec_text. pose proof (numeral_length 10 64 (Z.abs n) ltac:(lia)).
    rewrite length_app. unfold STRING_MAX. set (u := numeral 64 10 (Z.abs n)) in *. clearbody u. destruct (n <? 0); cbn [length]; lia.
  - unfold str_trim. by_kind; result; [|by apply empty_yields]. apply trim_yields. intros s e Em _. rewrite Em. cbn [mbind outcome_bind].
    pose proof (trim_length d). apply through_scratch_yields; [done|by apply trim_bytes|lia].
  - unfold str_replace. by_kind; [|result; by apply empty_yields..]. by apply replace_yields.
  - unfold str_upper, map_string. destruct (as_string t) as [d|] eqn:E; result.
    + destruct t; try done. injection E as ->. match goal with H : text_ok _ |- _ => destruct H as [Hb Hl] end. apply map_string_yields; [done|done|by apply case_bytes|done].
    + erewrite with_string_as by done. rewrite E. by apply empty_yields.
  - unfold str_lower, map_string. destruct (as_string t) as [d|] eqn:E; result.
    + destruct t; try done. injection E as ->. match goal with H : text_ok _ |- _ => destruct H as [Hb Hl] end. apply map_string_yields; [done|done|by apply case_bytes|done].
    + erewrite with_string_as by done. rewrite E. by apply empty_yields.
  - unfold str_from_float. fetch. unfold string_result.
    assert (Ex : (if val_is_float x then val_get_float x else if val_is_int x then double_of_int (val_get_int x) else double_of_int 0) = as_double t).
    { destruct t as [w| | | | |] eqn:Et; [by destruct H as (->&_)|..]; destruct (heap_tag_not_num x) as [-> ->]; by try (eapply heap_tree_tag; [exact H|]). }
    rewrite Ex. destruct (Z.ltb_spec (len (fmt_g (as_double t))) STRING_MAX); [|done]. result. by apply new_string_yields.
  - unfold str_to_base. fetch. do 2 (by_int; [|result; by apply empty_yields]). result.
    destruct (base_ok z0) eqn:Eb; cbn [negb]; [|by apply empty_yields]. apply base_ok_range in Eb. rewrite to_base_spec by done. cbn [mbind outcome_bind].
    apply new_string_yields; [done|]. pose proof (numeral_length z0 49 (z mod 2 ^ 48) ltac:(lia)). unfold STRING_MAX. lia.
  - unfold str_from_base. fetch. by_kind; [|result; by apply int_yields]. by_int; [|result; by apply int_yields].
    destruct (base_ok z) eqn:Eb; cbn [negb orb]; [|result; by apply int_yields]. destruct (len d =? 0); [result; by apply int_yields|].
    apply base_ok_range in Eb. pose proof (from_base_loop_spec z Eb (length d) [] d 0 (le_n _)) as El. cbn [app] in El. change (len (@nil Z)) with 0 in El.
    change (u64 0) with 0 in El. rewrite El. cbn [mbind outcome_bind]. unfold from_base. result. destruct (forallb _ d); cbn [default from_option]; [rewrite val_int_u64|]; by apply int_yields.
Qed.

Lemma pad_args_yields (at_start : bool) st p args ts r f :
  f = (if at_start then FPadStart else FPadEnd) →
  window st p → Forall2 (denotes st) args ts → Forall text_ok ts → denote f ts = Some r →
  yields (pad_args cap stress ok at_start st p args) st r.
Proof using Hok.
  intros -> W Ha Ht. destruct at_start; take_args ts; unfold pad_args; fetch; (by_kind; [|result; by apply empty_yields]);
    do 2 (by_int; [|by_int || idtac; result; by apply empty_yields]); apply pad_yields; try done; by eapply as_int_range.
Qed.
Lemma parse_float_yields st p v s r :
  window st p → denotes st v s → text_ok s → denote FParseFloat [s] = Some r →
  yields (str_parse_float cap stress ok strtod sym_some sym_none st p [v]) st r.
Proof using Hok.
  intros W D Ht. unfold str_parse_float. cbn [meaning]. by_kind; [|result; by apply symbol_yields]. intros Hr. apply trim_yields. intros b e Em El.
  rewrite Hok. cbn [negb]. rewrite Em. cbn [mbind outcome_bind]. rewrite El. destruct (strtod (trim d)) as [x used]. revert Hr.
  destruct (_ && _); [|result; by apply symbol_yields]. unfold imm_tree. destruct (_ && _ && _) eqn:Ex; [|done]. cbn [mbind option_bind]. result.
  apply andb_prop in Ex as [[Ex1%Z.leb_le Ex2%Z.ltb_lt]%andb_prop Ex3%negb_true_iff].
  apply (yields_pair cap stress st (Ret (val_symbol sym_some, st, p)) (λ _ st p, val_pair cap stress st p (val_float x) val_nil)
    (Imm (val_symbol sym_some)) (TPair (Imm (val_float x)) (Imm val_nil))); [by apply symbol_yields|]. intros _ st1 p1 _ W1 _.
  apply (yields_pair cap stress st1 (Ret (val_float x, st1, p1)) (λ _ st p, Ret (val_nil, st, p)) (Imm (val_float x)) (Imm val_nil)); [by apply imm_yields|].
  intros _ st2 p2 _ W2 _. by apply nil_yields.
Qed.
Lemma call_meaning f st p args ts r :
  window st p → Forall2 (denotes st) args ts → Forall text_ok ts → Forall (λ t, (spine t ≤ fuel)%nat) ts →
  denote f ts = Some r → yields (call f st p args) st r.
Proof using Hok.
  intros W Ha Ht Hs. destruct f;
    try (apply number_refines; [solve [repeat constructor]|done..]); try (apply text_refines; [solve [repeat constructor]|done..]).
  - take_args ts. unfold str_split. by_kind; result; [|by apply nil_yields..]. by apply split_yields.
  - take_args ts. unfold str_pairs. by_kind; result; [|by apply nil_yields..]. by apply pairs_yields.
  - take_args ts. unfold str_join. fetch. by_kind; [|result; by apply empty_yields]. destruct (Z.ltb_spec (walk_size t) (2 ^ 31)); [|done].
    intros Hr. eapply join_yields; try done. by apply Forall_cons in Hs as [].
  - by apply (pad_args_yields true).
  - by apply (pad_args_yields false).
  - take_args ts. by apply parse_float_yields.
Qed.
End Refine.

(** * Properties *)
Section Properties.
Context (cap stress : Z) (ok : Z → bool) (fuel : nat) (strtod : list Z → double * Z) (fmt_g : double → list Z) (sym_some sym_none : Z).
Local Abbreviation call := (run cap stress ok fuel strtod fmt_g sym_some sym_none).


(** Two calls in a row, the second on the result of the first. *)
Lemma call_then f g st p args ts us (rest : list Val) (t r : tree) :
  (∀ n, ok n = true) → window st p → Forall2 (denotes st) args ts → Forall text_ok ts → Forall (λ t, (spine t ≤ fuel)%nat) ts →
  meaning strtod fmt_g sym_some sym_none f ts = Some t →
  Forall2 (denotes st) rest us → Forall text_ok (t :: us) → Forall (λ t, (spine t ≤ fuel)%nat) (t :: us) →
  meaning strtod fmt_g sym_some sym_none g (t :: us) = Some r →
  brk st + cost t + cost r < ADDR_LIMIT →
  ∃ v st1 p1 w st2 p2, call f st p args = Ret (v, st1, p1) ∧ call g st1 p1 (v :: rest) = Ret (w, st2, p2) ∧ denotes st2 w r ∧ window st2 p2.
Proof.
  intros Hok W Ha Ht Hs Hm Hr Ht' Hs' Hm' Hb. pose proof (cost_nonneg r).
  destruct (call_meaning cap stress ok Hok fuel strtod fmt_g sym_some sym_none f st p args ts t W Ha Ht Hs Hm) as (v&st1&p1&E1&D1&W1&S1&B1); [lia|].
  assert (Ha' : Forall2 (denotes st1) (v :: rest) (t :: us)) by (constructor; [done|]; eapply Forall2_impl; [exact Hr|]; intros; by eapply denotes_mono).
  destruct (call_meaning cap stress ok Hok fuel strtod fmt_g sym_some sym_none g st1 p1 (v :: rest) (t :: us) r W1 Ha' Ht' Hs' Hm') as (w&st2&p2&E2&D2&W2&_); [lia|].
  eauto 12.
Qed.
Lemma list_tree_strings l :
  as_strings (foldr TPair (Imm val_nil) (TString <$> l)) = Some l ∧ spine (foldr TPair (Imm val_nil) (TString <$> l)) = length l ∧
  walk_size (foldr TPair (Imm val_nil) (TString <$> l)) = len (concat l) + len l.
Proof.
  induction l as [|x l (IH1&IH2&IH3)]; [done|]. cbn [fmap list_fmap foldr as_strings spine walk_size concat length]. rewrite IH1, IH2, IH3, length_app.
  split_and!; [done|done|lia].
Qed.
Lemma list_tree_ok l : Forall (λ x, Forall byte x ∧ len x < STRING_MAX) l → text_ok (foldr TPair (Imm val_nil) (TString <$> l)).
Proof. induction 1; [done|]. by split. Qed.
Lemma concat_split sep d : sep ≠ [] → (length (concat (split_on sep d)) + length (split_on sep d) ≤ S (length d))%nat.
Proof.
  intros Hs. pose proof (intercalate_length sep (split_on sep d) ltac:(apply pieces_nonempty)) as E. rewrite join_split in E by done.
  assert (1 ≤ len sep) by (destruct sep; [done|simpl; lia]). assert (0 < len (split_on sep d)) by (destruct (split_on sep d) eqn:F; [by apply pieces_nonempty in F|simpl; lia]).
  assert (len (split_on sep d) - 1 ≤ (len (split_on sep d) - 1) * len sep) by nia. lia.
Qed.
Lemma split_ok sep d : sep ≠ [] → Forall byte d → len d < STRING_MAX → Forall (λ x, Forall byte x ∧ len x < STRING_MAX) (split_on sep d).
Proof.
  intros Hs Hb Hl. apply Forall_lookup_2. intros k x Hk. destruct (offsets_piece sep _ k x [] d Hk) as (a&b&E&_); [by rewrite join_split|].
  rewrite E in Hb, Hl. apply Forall_app in Hb as [_ [Hx _]%Forall_app]. rewrite !length_app in Hl. split; [done|lia].
Qed.

Lemma split_join st p vd vs d sep :
  (∀ n, ok n = true) → window st p → denotes st vd (TString d) → denotes st vs (TString sep) → text_ok (TString d) → text_ok (TString sep) →
  sep ≠ [] → (length d < fuel)%nat → brk st + cost (foldr TPair (Imm val_nil) (TString <$> split_on sep d)) + cost (TString d) < ADDR_LIMIT →
  ∃ l st1 p1 r st2 p2, call FSplit st p [vd; vs] = Ret (l, st1, p1) ∧ call FJoin st1 p1 [l; vs] = Ret (r, st2, p2) ∧
    denotes st2 r (TString d) ∧ window st2 p2.
Proof.
  intros Hok W Dd Ds Hd Hs Hne Hf Hb. destruct (list_tree_strings (split_on sep d)) as (E1&E2&E3). pose proof (concat_split sep d Hne) as Hc.
  set (t := foldr TPair _ _) in *. assert (len d < STRING_MAX) by apply Hd.
  apply (call_then FSplit FJoin st p [vd; vs] [TString d; TString sep] [TString sep] [vs] t (TString d)); try done.
  - foralls.
  - foralls.
  - foralls; cbn; lia.
  - cbn [meaning as_string]. unfold split_bytes. destruct (Z.eqb_spec (len sep) 0); [destruct sep; [done|simpl in *; lia]|done].
  - foralls.
  - foralls. apply list_tree_ok, split_ok; [done|apply Hd..].
  - foralls; [rewrite E2; lia|cbn; lia].
  - cbn [meaning as_string]. rewrite E1, E3, join_split by done. unfold STRING_MAX in *. destruct (Z.ltb_spec (len (concat (split_on sep d)) + len (split_on sep d)) (2 ^ 31)); [|lia].
    unfold string_result, STRING_MAX. destruct (Z.ltb_spec (len d) (2 ^ 31 - 16)); [done|lia].
Qed.
(** Printing a number and reading it. *)
Lemma print_read f g st p ints ts n rest us t :
  (∀ n, ok n = true) → window st p → Forall2 (denotes st) ints ts → Forall2 (denotes st) rest us →
  Forall text_ok (ts ++ us) → Forall (λ t, spine t = O) (ts ++ us) →
  meaning strtod fmt_g sym_some sym_none f ts = Some (TString t) → meaning strtod fmt_g sym_some sym_none g (TString t :: us) = Some (Imm (val_int n)) →
  Forall byte t → len t < STRING_MAX → brk st + cost (TString t) < ADDR_LIMIT →
  ∃ v st1 p1 st2 p2, call f st p ints = Ret (v, st1, p1) ∧ call g st1 p1 (v :: rest) = Ret (val_int n, st2, p2).
Proof.
  intros Hok W Hi Hr Ht Hs Hf Hg Hbt Hlt Hb. apply Forall_app in Ht as [Ht1 Ht2]. apply Forall_app in Hs as [Hs1 Hs2].
  destruct (call_then f g st p ints ts us rest (TString t) (Imm (val_int n))) as (v&st1&p1&w&st2&p2&E1&E2&D&_); try done.
  - apply (Forall_impl _ _ _ Hs1). lia.
  - by constructor.
  - constructor; [cbn; lia|]. apply (Forall_impl _ _ _ Hs2). lia.
  - cbn [cost]. cbn [cost] in Hb. lia.
  - destruct D as (->&_). eauto 8.
Qed.
Lemma int_denotes st n : denotes st (val_int n) (Imm (val_int n)).
Proof. split; [done|]. rewrite val_int_lbox. split; [apply lbox_range|]. by rewrite lbox_tag. Qed.
Lemma numeral_ok base u : 2 ≤ base ≤ 16 → 0 ≤ u → Forall byte (numeral 49 base u) ∧ Forall byte (numeral 64 base u).
Proof. intros Hb Hu. split; apply (Forall_impl _ _ _ (numeral_digit base Hb _ u Hu)); by intros ? []. Qed.
Lemma val_int_mod n : val_int (n mod 2 ^ 48) = val_int n.
Proof. rewrite (val_int_lbox (n mod _)), (val_int_lbox n), (lbox_eq _ (n mod _)), (lbox_eq _ n). by rewrite Zmod_mod. Qed.
Lemma as_int_val n : - 2 ^ 47 ≤ n < 2 ^ 47 → as_int (Imm (val_int n)) = Some n ∧ as_word (Imm (val_int n)) = Some n.
Proof. intros Hn. unfold as_int, as_word. by rewrite val_int_is_int, val_get_int_id. Qed.

(** C27: what one function of the module takes apart the matching one puts
    together: joining a split string with the same separator, reading a
    printed integer, and reading a number printed in base 2, 8 or 16 all give
    back what they were given. *)
Theorem strings_roundtrip st p :
  (∀ n, ok n = true) → window st p →
  (∀ vd vs d sep, denotes st vd (TString d) → denotes st vs (TString sep) → text_ok (TString d) → text_ok (TString sep) →
     sep ≠ [] → (length d < fuel)%nat → brk st + cost (foldr TPair (Imm val_nil) (TString <$> split_on sep d)) + cost (TString d) < ADDR_LIMIT →
     ∃ l st1 p1 r st2 p2, call FSplit st p [vd; vs] = Ret (l, st1, p1) ∧ call FJoin st1 p1 [l; vs] = Ret (r, st2, p2) ∧
       denotes st2 r (TString d) ∧ window st2 p2) ∧
  (∀ n, - 2 ^ 47 ≤ n < 2 ^ 47 → brk st + cost (TString (dec_text n)) < ADDR_LIMIT →
     ∃ t st1 p1 st2 p2, call FFromInt st p [val_int n] = Ret (t, st1, p1) ∧ call FToInt st1 p1 [t] = Ret (val_int n, st2, p2)) ∧
  (∀ n b, - 2 ^ 47 ≤ n < 2 ^ 47 → base_ok b = true → brk st + cost (TString (numeral 49 b (n mod 2 ^ 48))) < ADDR_LIMIT →
     ∃ t st1 p1 st2 p2, call FToBase st p [val_int n; val_int b] = Ret (t, st1, p1) ∧
       call FFromBase st1 p1 [t; val_int b] = Ret (val_int n, st2, p2)).
Proof.
  intros Hok W. split; [intros; by eapply split_join|]. split.
  - intros n Hn Hb. destruct (as_int_val n Hn) as [_ Ew]. pose proof (numeral_length 10 64 (Z.abs n) ltac:(lia)) as Hl.
    apply (print_read FFromInt FToInt st p [val_int n] [Imm (val_int n)] n [] [] (dec_text n)); try done.
    + foralls. apply int_denotes.
    + foralls.
    + foralls.
    + cbn [meaning]. by rewrite Ew.
    + cbn [meaning as_string]. by rewrite leading_int_text by lia.
    + unfold dec_text. apply Forall_app. split; [destruct (n <? 0); foralls|]. by apply numeral_ok; lia.
    + unfold dec_text, STRING_MAX. rewrite length_app. set (u := numeral 64 10 (Z.abs n)) in *. clearbody u. destruct (n <? 0); cbn [length]; lia.
  - intros n b Hn Hbase Hb. pose proof (base_ok_range b Hbase) as Hr. destruct (as_int_val n Hn) as [Ei _]. destruct (as_int_val b ltac:(lia)) as [Eb _].
    pose proof (Z.mod_pos_bound n (2 ^ 48) ltac:(done)) as Hm. pose proof (numeral_length b 49 (n mod 2 ^ 48) ltac:(lia)) as Hl.
    assert (2 ^ 49 ≤ b ^ 49) by (apply Z.pow_le_mono_l; lia).
    apply (print_read FToBase FFromBase st p [val_int n; val_int b] [Imm (val_int n); Imm (val_int b)] n [val_int b] [Imm (val_int b)] (numeral 49 b (n mod 2 ^ 48))); try done.
    + foralls; apply int_denotes.
    + foralls; apply int_denotes.
    + foralls.
    + foralls.
    + cbn [meaning]. by rewrite Ei, Eb, Hbase.
    + cbn [meaning as_string]. rewrite Eb, Hbase, from_base_numeral by lia. destruct (Z.eqb_spec (len (numeral 49 b (n mod 2 ^ 48))) 0); [lia|]. cbn [negb orb default from_option].
      unfold int_result, id. by rewrite val_int_mod.
    + exact (proj1 (numeral_ok b (n mod 2 ^ 48) Hr ltac:(lia))).
    + unfold STRING_MAX. lia.
Qed.

(** A copy stays inside its buffer or is undefined. *)
Lemma sc_copy_cases d : ∀ b i, sc_copy b i d = Undef ∨ ∃ b', sc_copy b i d = Ret b' ∧ length b' = length b.
Proof.
  induction d as [|c d IH]; intros b i; cbn [sc_copy]; [right; by exists b|]. unfold sc_put. destruct (_ && _); [|by left]. cbn [mbind outcome_bind].
  destruct (IH (<[Z.to_nat i:=Some (u8 c)]> b) (i + 1)) as [->|(b'&->&E)]; [by left|]. right. exists b'. by rewrite length_insert in E.
Qed.
Lemma sc_fill_out b i c n : len b < i + n → sc_fill b i c n = Undef.
Proof. intros H. unfold sc_fill. destruct (Z.leb_spec (i + n) (len b)); [lia|]. by rewrite andb_false_r. Qed.

(** Where the module leaves the range of C's integers.  Padding to a
    width of 2^31 or more truncates the width to 32 bits before the buffer
    is allocated: a width whose low half is negative as an [int] makes
    [malloc] fail and gives the string unpadded, any other writes past the
    end of the buffer.  Reading an integer of more than 63 bits overflows
    [int64_t].  Both are undefined behaviour reached by plain program
    values. *)
Theorem strings_overflow :
  (∀ st p d n c at_start, 0 ≤ c ≤ 255 → len d < STRING_MAX → 2 ^ 31 ≤ n < 2 ^ 47 → (∀ m, ok m = (m <? 2 ^ 63)) →
     pad cap stress ok st p d n c at_start = if i32 n <? 0 then new_string cap stress st p d else Undef) ∧
  (∀ st p v d, denotes st v (TString d) → leading_int d = None → call FToInt st p [v] = Undef).
Proof.
  split.
  - intros st p d n c at_start Hc Hd Hn Hok. unfold STRING_MAX in Hd. unfold pad. destruct (Z.ltb_spec c 0), (Z.ltb_spec 255 c); try lia. cbn [orb]. cbv zeta.
    destruct (Z.leb_spec (n - len d) 0); [lia|]. replace (len d + (n - len d)) with n by lia. rewrite Hok.
    pose proof (signed_range 32 n ltac:(done)) as Hr. pose proof (signed_cong 32 n ltac:(done)) as Hcg. fold (i32 n) in Hr, Hcg. change (2 ^ (32 - 1)) with (2 ^ 31) in Hr.
    destruct (Z.ltb_spec (i32 n) 0) as [Hneg|Hpos].
    + assert (Hu : u64 (i32 n) = i32 n + 2 ^ 64) by (unfold u64; symmetry; apply (Z.mod_unique _ _ (-1)); lia). rewrite Hu.
      destruct (Z.ltb_spec (i32 n + 2 ^ 64) (2 ^ 63)); [lia|done].
    + assert (Hu : u64 (i32 n) = i32 n) by (unfold u64; apply Z.mod_small; lia). rewrite Hu. destruct (Z.ltb_spec (i32 n) (2 ^ 63)); [|lia]. cbn [negb].
      assert (Hlt : i32 n ≤ n - 2 ^ 32).
      { rewrite (Z.mod_small (i32 n)) in Hcg by lia. rewrite Hcg. pose proof (Z.div_mod n (2 ^ 32) ltac:(done)).
        assert (1 ≤ n / 2 ^ 32); [|lia]. apply Z.div_le_lower_bound; [done|]. destruct (decide (2 ^ 32 ≤ n)); [lia|]. rewrite Z.mod_small in Hcg by lia. lia. }
      destruct (sc_copy_cases d (sc_new (i32 n)) (if at_start then n - len d else 0)) as [->|(b&->&Eb)]; [done|]. cbn [mbind outcome_bind].
      unfold sc_new in Eb. rewrite length_replicate in Eb. rewrite sc_fill_out; [done|]. destruct at_start; lia.
  - intros st p v d D E. cbn [run]. unfold str_to_int. rewrite (with_string_as _ _ _ D) by done. cbn [as_string]. rewrite to_int_spec, E. done.
Qed.
End Properties.

(** ** Concrete calls *)
Definition w_strings : store :=
  w_heap (<[1024 := Live (HeapString (chars "k: v, w"))]> (<[2048 := Live (HeapString (chars ", "))]> {[3072 := Live (HeapString (chars "99999999999999999999"))]})).
Definition w_str (x : Z) : Val := lbox TAG_STRING x.
Lemma w_strings_window : window w_strings w_winproc.
Proof. apply w_heap_window. intros x Hx. rewrite !lookup_insert_ne by lia. apply lookup_singleton_ne. lia. Qed.
Lemma w_strings_denote :
  denotes w_strings (w_str 1024) (TString (chars "k: v, w")) ∧ denotes w_strings (w_str 2048) (TString (chars ", ")) ∧
  denotes w_strings (w_str 3072) (TString (chars "99999999999999999999")).
Proof. split_and!; by apply w_heap_string. Qed.
Definition w_strtod (d : list Z) : double * Z := (double_of_int 0, 0).
Definition w_fmt (d : double) : list Z := chars "0".
Lemma w_text_ok (s : string) : (bool_decide (Forall byte (chars s)) && (len (chars s) <? STRING_MAX)) = true → text_ok (TString (chars s)).
Proof. intros [H1%bool_decide_eq_true H2%Z.ltb_lt]%andb_prop. by split. Qed.

Lemma strings_roundtrip_witness :
  ∃ t st1 p1 st2 p2, run 4096 0 (λ _, true) 8 w_strtod w_fmt 1 2 FToBase w_strings w_winproc [val_int (-1); val_int 2] = Ret (t, st1, p1) ∧
    run 4096 0 (λ _, true) 8 w_strtod w_fmt 1 2 FFromBase st1 p1 [t; val_int 2] = Ret (val_int (-1), st2, p2).
Proof.
  destruct (strings_roundtrip 4096 0 (λ _, true) 8 w_strtod w_fmt 1 2 w_strings w_winproc) as (_&_&H); [done|apply w_strings_window|].
  apply (H (-1) 2); [lia|reflexivity|vm_compute; reflexivity].
Defined.
Lemma strings_overflow_witness :
  pad 4096 0 (λ m, m <? 2 ^ 63) w_strings w_winproc [] (2 ^ 32 + 1) 65 true = Undef ∧
  run 4096 0 (λ _, true) 8 w_strtod w_fmt 1 2 FToInt w_strings w_winproc [w_str 3072] = Undef.
Proof.
  split.
  - destruct (strings_overflow 4096 0 (λ m, m <? 2 ^ 63) 8 w_strtod w_fmt 1 2) as [H _].
    rewrite H; [vm_compute; reflexivity|lia|vm_compute; reflexivity|lia|reflexivity].
  - destruct (strings_overflow 4096 0 (λ _, true) 8 w_strtod w_fmt 1 2) as [_ H]. destruct w_strings_denote as (_&_&D).
    apply (H _ _ _ _ D). vm_compute. reflexivity.
Defined.
