(* ===== verification/Sexp.v ===== *)
(** The [sexp] module: src/lib/sexp.c, the reader of s-expressions.

    The functions run in a state monad over what they share: the cursor
    [Parser], the error text, the symbol table and the heap of the process.
    The text [src] is the argument string, whose bytes do not move while the
    collector's gate is closed.  Characters are compared with ASCII constants
    only, so their signedness does not matter. *)
From stdpp Require Import base tactics list gmap strings.
From Stdlib Require Import ZArith Lia Ascii.
From S2P Require Import Prelude Values Heap Resource Gc GcCorrect GcSpec Tree Alloc Copy Symtab Cmodule Str StrSpec.
Open Scope Z_scope.

Definition SEXP_MAX_DEPTH : Z := 10000.
Definition SEXP_INT48_MAX : Z := 2 ^ 47 - 1.
Definition SEXP_INT48_MIN : Z := - 2 ^ 47.
Definition SEXP_INT_TOK : Z := 31.
Definition SEXP_SYM_TOK : Z := 255.
Definition SEXP_STR_TOK : Z := 512.

Record Parser := mk_Parser { ps_pos : Z; ps_line : Z; ps_col : Z; ps_failed : bool }.
(** [sexp_errbuf] as the C string it holds. *)
Record world := mk_world { w_ps : Parser; sexp_errbuf : list Z; w_tab : symtab; w_st : store; w_pm : ProcMem }.

Definition parse (A : Type) : Type := world → outcome (A * world).
#[global] Instance parse_ret : MRet parse := λ A x w, Ret (x, w).
#[global] Instance parse_bind : MBind parse := λ A B f m w,
  match m w with
  | Ret (a, w') => f a w'
  | Abort why => Abort why
  | Undef => Undef
  | NoFuel => NoFuel
  end.
Definition lift {A} (m : outcome A) : parse A := λ w, a ← m; Ret (a, w).
Definition nofuel {A} : parse A := λ _, NoFuel.
Definition cursor : parse Parser := λ w, Ret (w_ps w, w).
Definition set_cursor (ps : Parser) : parse unit :=
  λ w, Ret (tt, mk_world ps (sexp_errbuf w) (w_tab w) (w_st w) (w_pm w)).
(** A heap operation. *)
Definition on_heap (f : store → ProcMem → outcome (Val * store * ProcMem)) : parse Val := λ w,
  '(v, st, p) ← f (w_st w) (w_pm w);
  Ret (v, mk_world (w_ps w) (sexp_errbuf w) (w_tab w) st p).

(** ** The C library: [snprintf("line %d, col %d: %s")] into 128 bytes, and
    [strtoll] at base 10, which clamps and leaves the unread text. *)
Definition snprintf_err (line col : Z) (msg : string) : outcome (list Z) :=
  l ← fmt_lld line;
  c ← fmt_lld col;
  Ret (take 127 (chars "line " ++ l ++ chars ", col " ++ c ++ chars ": " ++ chars msg)).
Definition strtoll (s : list Z) : Z * list Z :=
  let t := drop_space s in
  let neg := match t with c :: _ => c =? ch "-" | [] => false end in
  let u := match t with c :: r => if (c =? ch "-") || (c =? ch "+") then r else t | [] => [] end in
  match take_digits u with
  | [] => (0, s)
  | ds =>
      let v := dec_value 0 ds in
      (Z.max (- 2 ^ 63) (Z.min (2 ^ 63 - 1) (if neg then - v else v)), drop (length ds) u)
  end.

(** ** Characters *)
Definition is_space (c : Z) : bool := (c =? ch " ") || (c =? 9) || (c =? 10) || (c =? 13).
Definition is_delim (c : Z) : bool :=
  is_space c || (c =? ch "(") || (c =? ch ")") || (c =? 39) || (c =? 34) || (c =? ch ";").
(** The character a backslash and [e] stand for. *)
Definition escape (e : Z) : option Z :=
  if e =? ch "n" then Some 10
  else if e =? ch "t" then Some 9
  else if e =? ch "r" then Some 13
  else if (e =? 34) || (e =? 92) then Some e
  else None.

Section Reader.
(** [scratch_ok n]: whether an allocation of [n] bytes succeeds; [ok_arr] and
    [ok_hash]: those of the symbol table. *)
Context (cap stress : Z) (scratch_ok : Z → bool) (ok_arr ok_hash : bool) (sym_fuel : nat).
Context (src : list Z).
(** Rounds for the loops that read a character each. *)
Abbreviation rounds := (S (length src)).

Definition parse_fail (msg : string) : parse Val := λ w,
  let ps := w_ps w in
  text ← snprintf_err (ps_line ps) (ps_col ps) msg;
  Ret (val_int (-1), mk_world (mk_Parser (ps_pos ps) (ps_line ps) (ps_col ps) true) text (w_tab w) (w_st w) (w_pm w)).
Definition failed : parse bool := ps ← cursor; mret (ps_failed ps).

Definition at_eof : parse bool := ps ← cursor; mret (len src <=? ps_pos ps).
Definition peek : parse Z := ps ← cursor; lift (byte_at src (ps_pos ps)).
Definition advance : parse unit :=
  ps ← cursor;
  c ← lift (byte_at src (ps_pos ps));
  pos ← lift (chk32 (ps_pos ps + 1));
  if c =? 10 then line ← lift (chk32 (ps_line ps + 1)); set_cursor (mk_Parser pos line 1 (ps_failed ps))
  else col ← lift (chk32 (ps_col ps + 1)); set_cursor (mk_Parser pos (ps_line ps) col (ps_failed ps)).

(** [while (!at_eof(ps) && stop(peek(ps)) == 0) advance(ps)]. *)
Fixpoint advance_until (stop : Z → bool) (fuel : nat) : parse unit :=
  match fuel with
  | O => nofuel
  | S fuel =>
      eof ← at_eof;
      if (eof : bool) then mret tt
      else c ← peek; if stop c then mret tt else _ ← advance; advance_until stop fuel
  end.
Fixpoint skip_ws (fuel : nat) : parse unit :=
  match fuel with
  | O => nofuel
  | S fuel =>
      eof ← at_eof;
      if (eof : bool) then mret tt
      else
        c ← peek;
        if is_space c then _ ← advance; skip_ws fuel
        else if c =? ch ";" then _ ← advance_until (λ c, c =? 10) rounds; skip_ws fuel
        else mret tt
  end.

(** The scratch buffer of [cap] bytes, [n] of them written. *)
Fixpoint string_loop (fuel : nat) (cap n : Z) (out : scratch) : parse (Val + list Z) :=
  match fuel with
  | O => nofuel
  | S fuel =>
      eof ← at_eof;
      if (eof : bool) then v ← parse_fail "unterminated string"; mret (inl v)
      else
        c ← peek;
        if c =? 34 then _ ← advance; r ← lift (sc_read out 0 n); mret (inr r)
        else
          let store_char (c : Z) : parse (Val + list Z) :=
            if cap <? n + 1 then
              cap ← lift (chk32 (cap * 2));
              if negb (scratch_ok cap) then v ← parse_fail "out of memory"; mret (inl v)
              else
                out ← lift (sc_put (out ++ sc_new (cap - len out)) n c);
                string_loop fuel cap (n + 1) out
            else out ← lift (sc_put out n c); string_loop fuel cap (n + 1) out in
          if c =? 92 then
            _ ← advance;
            eof ← at_eof;
            if (eof : bool) then v ← parse_fail "unterminated string"; mret (inl v)
            else
              e ← peek;
              match escape e with
              | None => v ← parse_fail "unknown escape in string"; mret (inl v)
              | Some c => _ ← advance; store_char c
              end
          else _ ← advance; store_char c
  end.
Definition parse_string : parse Val :=
  _ ← advance;
  if negb (scratch_ok SEXP_STR_TOK) then parse_fail "out of memory"
  else
    r ← string_loop rounds SEXP_STR_TOK 0 (sc_new SEXP_STR_TOK);
    match r with
    | inl v => mret v
    | inr d => on_heap (λ st p, new_string cap stress st p d)
    end.

Definition intern_symbol (name : list Z) : parse Z := λ w,
  '(id, t) ← vm_intern_symbol ok_arr ok_hash sym_fuel (w_tab w) (nul_string name);
  Ret (id, mk_world (w_ps w) (sexp_errbuf w) t (w_st w) (w_pm w)).

(** An optional sign and at least one digit, all digits. *)
Definition all_digits (tok : list Z) : bool :=
  let i := match tok with c :: _ => if (c =? ch "-") || (c =? ch "+") then 1%nat else 0%nat | [] => 0%nat end in
  (i <? length tok)%nat && forallb is_digit (drop i tok).
Definition parse_symbol (tok : list Z) : parse Val :=
  if SEXP_SYM_TOK <? len tok then parse_fail "symbol too long"
  else
    idx ← intern_symbol tok;
    if idx <? 0 then parse_fail "out of memory" else mret (val_symbol idx).
Definition parse_atom (as_name : bool) : parse Val :=
  ps ← cursor;
  let start := ps_pos ps in
  _ ← advance_until is_delim rounds;
  ps ← cursor;
  tok ← lift (mem_sub src start (ps_pos ps - start));
  if len tok =? 0 then parse_fail "unexpected ')'"
  else if as_name then parse_symbol tok
  else if all_digits tok then
    if SEXP_INT_TOK <? len tok then parse_fail "integer literal too long"
    else
      let '(v, rest) := strtoll tok in
      if negb (len rest =? 0) || (v <? SEXP_INT48_MIN) || (SEXP_INT48_MAX <? v)
      then parse_fail "integer literal out of int48 range"
      else mret (val_int v)
  else if bool_decide (tok = chars "nil") then mret val_nil
  else if bool_decide (tok = chars "true") then mret val_true
  else if bool_decide (tok = chars "false") then mret val_false
  else parse_symbol tok.

Fixpoint reverse_onto (fuel : nat) (acc tail : Val) : parse Val :=
  if val_is_pair acc then
    match fuel with
    | O => nofuel
    | S fuel =>
        '(a, next) ← (λ w, lift (read_pair (w_st w) acc) w);
        l ← on_heap (λ st p, val_pair cap stress st p a tail);
        reverse_onto fuel next l
    end
  else mret tail.

(** [peek(ps) == '.'] with a delimiter behind it. *)
Definition at_dot : parse bool :=
  c ← peek;
  if c =? ch "." then
    ps ← cursor;
    if ps_pos ps + 1 <? len src then d ← lift (byte_at src (ps_pos ps + 1)); mret (is_delim d) else mret false
  else mret false.

Fixpoint parse_form (fuel : nat) (depth : Z) : parse Val :=
  match fuel with
  | O => nofuel
  | S fuel =>
      if SEXP_MAX_DEPTH <? depth then parse_fail "nesting too deep"
      else
        _ ← skip_ws rounds;
        eof ← at_eof;
        if (eof : bool) then parse_fail "unexpected end of input"
        else
          c ← peek;
          if c =? ch "(" then _ ← advance; parse_list_tail fuel (depth + 1) val_nil
          else if c =? 39 then
            _ ← advance;
            _ ← skip_ws rounds;
            eof ← at_eof;
            if (eof : bool) then parse_fail "unexpected end of input"
            else
              qc ← peek;
              form ← (if (qc =? ch "(") || (qc =? 34) then parse_form fuel (depth + 1) else parse_atom true);
              bad ← failed;
              if (bad : bool) then mret form
              else
                idx ← intern_symbol (chars "quote");
                l ← on_heap (λ st p, val_pair cap stress st p form val_nil);
                on_heap (λ st p, val_pair cap stress st p (val_symbol idx) l)
          else if c =? 34 then parse_string
          else parse_atom false
  end
with parse_list_tail (fuel : nat) (depth : Z) (acc : Val) : parse Val :=
  match fuel with
  | O => nofuel
  | S fuel =>
      _ ← skip_ws rounds;
      eof ← at_eof;
      if (eof : bool) then parse_fail "unbalanced '(' — missing ')'"
      else
        c ← peek;
        if c =? ch ")" then _ ← advance; reverse_onto rounds acc val_nil
        else
          dot ← (if val_is_pair acc then at_dot else mret false);
          if (dot : bool) then
            _ ← advance;
            tail ← parse_form fuel depth;
            bad ← failed;
            if (bad : bool) then mret tail
            else
              _ ← skip_ws rounds;
              eof ← at_eof;
              closed ← (if (eof : bool) then mret false else c ← peek; mret (c =? ch ")"));
              if negb closed then parse_fail "'.' tail must end the list"
              else _ ← advance; reverse_onto rounds acc tail
          else
            form ← parse_form fuel depth;
            bad ← failed;
            if (bad : bool) then mret form
            else
              acc ← on_heap (λ st p, val_pair cap stress st p form acc);
              parse_list_tail fuel depth acc
  end.

(** Rounds for the recursion: a form takes two per character. *)
Definition form_fuel : nat := 2 * length src + 2.
Fixpoint forms_loop (fuel : nat) (acc : Val) : parse Val :=
  match fuel with
  | O => nofuel
  | S fuel =>
      _ ← skip_ws rounds;
      eof ← at_eof;
      if (eof : bool) then reverse_onto rounds acc val_nil
      else
        form ← parse_form form_fuel 0;
        bad ← failed;
        if (bad : bool) then mret (val_int (-1))
        else
          acc ← on_heap (λ st p, val_pair cap stress st p form acc);
          forms_loop fuel acc
  end.
End Reader.

Section Module.
Context (cap stress : Z) (scratch_ok : Z → bool) (ok_arr ok_hash : bool) (sym_fuel : nat).

(** The value, the error text of the worker thread, the table and the heap. *)
Definition sexp_parse (t : symtab) (st : store) (p : ProcMem) (args : list Val)
    : outcome (Val * list Z * symtab * store * ProcMem) :=
  v ← arg args 0;
  if negb (val_is_string v) then Ret (val_int (-1), chars "parse: argument is not a string", t, st, p)
  else
    d ← read_string st v;
    '(v, w) ← forms_loop cap stress scratch_ok ok_arr ok_hash sym_fuel d (S (length d)) val_nil
                (mk_world (mk_Parser 0 1 1 false) [] t st p);
    Ret (v, sexp_errbuf w, w_tab w, w_st w, w_pm w).

Definition sexp_err (err : list Z) (st : store) (p : ProcMem) : outcome (Val * store * ProcMem) :=
  new_string cap stress st p err.
End Module.
