(* ===== verification/SexpSpec.v ===== *)
(** The grammar of s-expressions and the reader of Sexp.v against it: lexical
    functions, the grammar as a pair of relations, and the refinement of every
    loop of the reader. *)
From stdpp Require Import base tactics list gmap strings.
From Stdlib Require Import ZArith Lia Ascii.
From S2P Require Import Prelude Values Heap Resource Gc GcCorrect GcSpec Tree Alloc Copy Symtab Cmodule Str StrSpec Sexp.
Open Scope Z_scope.

(** * The language *)
Inductive datum :=
| DNil | DTrue | DFalse
| DInt (n : Z)
| DSym (name : string)
| DStr (d : list Z)
| DPair (a b : datum).
Definition dquote (x : datum) : datum := DPair (DSym "quote") (DPair x DNil).
Definition dlist (xs : list datum) (tail : datum) : datum := foldr DPair tail xs.

(** ** Characters and words *)
Definition blanks : list Z := [32; 9; 10; 13].
Definition blank (c : Z) : bool := bool_decide (c ∈ blanks).
Definition delimiter (c : Z) : bool := bool_decide (c ∈ blanks ++ chars "()';" ++ [34]).
Definition escapes : list (Z * Z) := [(ch "n", 10); (ch "t", 9); (ch "r", 13); (34, 34); (92, 92)].
Definition escape_of (e : Z) : option Z := snd ∘ snd <$> list_find (λ q, q.1 = e) escapes.
(** A sign or none, and at least one digit. *)
Definition numeric (tok : list Z) : bool :=
  let ds := match tok with c :: r => if bool_decide (c ∈ chars "+-") then r else tok | [] => [] end in
  negb (bool_decide (ds = [])) && forallb is_digit ds.

Lemma bool_decide_elem c l : bool_decide (c ∈ l) = existsb (Z.eqb c) l.
Proof.
  induction l as [|x l IH]; [done|]. cbn [existsb]. rewrite <- IH. apply eq_true_iff_eq.
  rewrite orb_true_iff, !bool_decide_eq_true, Z.eqb_eq, elem_of_cons. done.
Qed.
Lemma is_space_blank c : is_space c = blank c.
Proof. unfold blank. rewrite bool_decide_elem. cbn. unfold is_space. change (ch " ") with 32. by rewrite orb_false_r, !orb_assoc. Qed.
Lemma is_delim_delimiter c : is_delim c = delimiter c.
Proof.
  unfold delimiter. rewrite bool_decide_elem. cbn. unfold is_delim, is_space.
  change (ch " ") with 32. change (ch "(") with 40. change (ch ")") with 41. change (ch ";") with 59. bcases; done.
Qed.
Lemma escape_escape_of e : escape e = escape_of e.
Proof.
  unfold escape, escape_of, escapes. cbn [list_find fst]. change (ch "n") with 110. change (ch "t") with 116. change (ch "r") with 114.
  repeat match goal with |- context [decide (?x = e)] => destruct (decide (x = e)) as [<-|?]; [done|] end.
  destruct (Z.eqb_spec e 110), (Z.eqb_spec e 116), (Z.eqb_spec e 114), (Z.eqb_spec e 34), (Z.eqb_spec e 92); done || congruence.
Qed.
Lemma all_digits_numeric tok : all_digits tok = numeric tok.
Proof.
  unfold all_digits, numeric. destruct tok as [|c r]; [done|]. rewrite bool_decide_elem. cbn [existsb chars]. rewrite orb_false_r, (orb_comm (c =? ch "+")).
  destruct ((c =? ch "-") || (c =? ch "+")); cbn [drop]; [|done]. by destruct r.
Qed.

(** Blanks, and comments to the end of their line. *)
Fixpoint skip (comment : bool) (s : list Z) : list Z :=
  match s with
  | [] => []
  | c :: r =>
      if comment then skip (negb (c =? 10)) r
      else if blank c then skip false r
      else if c =? ch ";" then skip true r
      else s
  end.
Fixpoint token (s : list Z) : list Z :=
  match s with
  | [] => []
  | c :: s => if delimiter c then [] else c :: token s
  end.
(** The text behind an opening quote: the characters and what follows the
    closing one. *)
Fixpoint literal (s : list Z) : option (list Z * list Z) :=
  match s with
  | [] => None
  | c :: r =>
      if c =? 34 then Some ([], r)
      else if c =? 92 then
        match r with
        | [] => None
        | e :: r => c ← escape_of e; '(d, r) ← literal r; Some (c :: d, r)
        end
      else '(d, r) ← literal r; Some (c :: d, r)
  end.
Definition name_of (tok : list Z) : option datum :=
  if len tok <=? SEXP_SYM_TOK then Some (DSym (nul_string tok)) else None.
Definition signed_value (tok : list Z) : Z :=
  match tok with
  | c :: r => if c =? ch "-" then - dec_value 0 r else if c =? ch "+" then dec_value 0 r else dec_value 0 tok
  | [] => 0
  end.
(** What an atom spells. *)
Definition atom_of (tok : list Z) : option datum :=
  if numeric tok then
    let v := signed_value tok in
    if (len tok <=? SEXP_INT_TOK) && (- 2 ^ 47 <=? v) && (v <? 2 ^ 47) then Some (DInt v) else None
  else if bool_decide (tok = chars "nil") then Some DNil
  else if bool_decide (tok = chars "true") then Some DTrue
  else if bool_decide (tok = chars "false") then Some DFalse
  else name_of tok.
(** A dot that is not the start of a longer atom. *)
Definition dotted (s : list Z) : bool :=
  match s with
  | c :: d :: _ => (c =? ch ".") && delimiter d
  | _ => false
  end.

(** [form n s x r]: at nesting depth [n] the text [s] starts with a form that
    reads as [x], and [r] follows it.  [tail n b s x r]: the text behind a
    parenthesis, [b] when an element came before, closes the list with [x]. *)
Inductive form : Z → list Z → datum → list Z → Prop :=
| F_atom n s s1 c r x :
    n ≤ SEXP_MAX_DEPTH → skip false s = c :: s1 → delimiter c = false → atom_of (token (c :: s1)) = Some x →
    c :: s1 = token (c :: s1) ++ r → form n s x r
| F_string n s s1 d r :
    n ≤ SEXP_MAX_DEPTH → skip false s = 34 :: s1 → literal s1 = Some (d, r) → form n s (DStr d) r
| F_list n s s1 x r :
    n ≤ SEXP_MAX_DEPTH → skip false s = ch "(" :: s1 → tail (n + 1) false s1 x r → form n s x r
| F_name n s s1 c s2 r x :
    n ≤ SEXP_MAX_DEPTH → skip false s = 39 :: s1 → skip false s1 = c :: s2 → delimiter c = false →
    name_of (token (c :: s2)) = Some x → c :: s2 = token (c :: s2) ++ r → form n s (dquote x) r
| F_quote n s s1 c s2 r x :
    n ≤ SEXP_MAX_DEPTH → skip false s = 39 :: s1 → skip false s1 = c :: s2 → c = ch "(" ∨ c = 34 →
    form (n + 1) (c :: s2) x r → form n s (dquote x) r
with tail : Z → bool → list Z → datum → list Z → Prop :=
| T_end n b s r : skip false s = ch ")" :: r → tail n b s DNil r
| T_dot n s s1 x s2 r :
    skip false s = ch "." :: s1 → dotted (skip false s) = true →
    form n s1 x s2 → skip false s2 = ch ")" :: r → tail n true s x r
| T_cons n b s c s1 x s2 y r :
    skip false s = c :: s1 → c ≠ ch ")" → b && dotted (skip false s) = false →
    form n (skip false s) x s2 → tail n true s2 y r → tail n b s (DPair x y) r.
Scheme form_mind := Minimality for form Sort Prop with tail_mind := Minimality for tail Sort Prop.
Combined Scheme grammar_ind from form_mind, tail_mind.

Inductive program : list Z → list datum → Prop :=
| P_end s : skip false s = [] → program s []
| P_form s c s1 x r xs : skip false s = c :: s1 → form 0 (c :: s1) x r → program r xs → program s (x :: xs).

(** ** The grammar is unambiguous *)
Lemma skip_idem s : skip false (skip false s) = skip false s.
Proof.
  enough (∀ b, skip false (skip b s) = skip b s) by done.
  induction s as [|c s IH]; intros b; [by destruct b|]. cbn [skip]. destruct b; [apply IH|].
  destruct (blank c) eqn:Es; [apply IH|]. destruct (c =? ch ";") eqn:Ec; [apply IH|].
  cbn [skip]. by rewrite Es, Ec.
Qed.

Lemma token_rest s r r' : s = token s ++ r → s = token s ++ r' → r = r'.
Proof. intros H1 H2. apply (inj (app (token s))). congruence. Qed.

Ltac same_start :=
  repeat match goal with
  | H : skip false ?s = _, H' : skip false ?s = _ |- _ => rewrite H in H'; simplify_eq
  | H : delimiter (ch _) = false |- _ => vm_compute in H; discriminate H
  | H : delimiter 34 = false |- _ => vm_compute in H; discriminate H
  | H : delimiter 39 = false |- _ => vm_compute in H; discriminate H
  | H : ch _ = ch _ ∨ _ |- _ => destruct H as [H|H]; vm_compute in H; try discriminate H
  | H : _ :: _ = token ?s ++ ?r, H' : _ :: _ = token ?s ++ ?r' |- _ => pose proof (token_rest _ _ _ H H'); clear H'; subst
  end.

Lemma grammar_det :
  (∀ n s x r, form n s x r → ∀ x' r', form n s x' r' → x = x' ∧ r = r') ∧
  (∀ n b s x r, tail n b s x r → ∀ x' r', tail n b s x' r' → x = x' ∧ r = r').
Proof.
  apply grammar_ind.
  - intros n s s1 c r x Hn Hs Hc Ha Hr x' r' H. inversion H; subst; same_start; split; congruence.
  - intros n s s1 d r Hn Hs Hl x' r' H. inversion H; subst; same_start; split; congruence.
  - intros n s s1 x r Hn Hs _ IH x' r' H. inversion H; subst; same_start; by apply IH.
  - intros n s s1 c s2 r x Hn Hs Hs1 Hc Ha Hr x' r' H. inversion H; subst; same_start; try (split; congruence).
    by destruct_or!; subst.
  - intros n s s1 c s2 r x Hn Hs Hs1 Hc _ IH x' r' H. inversion H; subst; same_start.
    + by destruct_or!; subst.
    + edestruct IH as [-> ->]; [done|done].
  - intros n b s r Hs x' r' H. inversion H; subst; same_start; done.
  - intros n s s1 x s2 r Hs Hd _ IH Hs2 x' r' H. inversion H; subst; same_start.
    + destruct (IH x' _ ltac:(done)) as [-> ->]. same_start. done.
    + cbn [andb] in *; congruence.
  - intros n b s c s1 x s2 y r Hs Hc Hd _ IH _ IH2 x' r' H. inversion H; subst; same_start.
    + cbn [andb] in *; congruence.
    + match goal with Hf : form _ _ _ _ |- _ => destruct (IH _ _ Hf); subst end.
      match goal with Ht : tail _ true ?s _ _ |- _ => by destruct (IH2 _ _ Ht); subst end.
Qed.

(** ** The grammar by the first character *)
Definition quoted (n : Z) (s : list Z) (x : datum) (r : list Z) : Prop :=
  ∃ c s1, skip false s = c :: s1 ∧
    if (c =? ch "(") || (c =? 34) then form (n + 1) (c :: s1) x r
    else c :: s1 = token (c :: s1) ++ r ∧ token (c :: s1) ≠ [] ∧ name_of (token (c :: s1)) = Some x.

Lemma token_start c s : token (c :: s) ≠ [] ↔ delimiter c = false.
Proof. cbn [token]. by destruct (delimiter c). Qed.

Section First.
Context (n : Z) (s : list Z) (c : Z) (s1 : list Z) (Hs : skip false s = c :: s1).

Lemma form_open x r : n ≤ SEXP_MAX_DEPTH → c = ch "(" → form n s x r ↔ tail (n + 1) false s1 x r.
Proof using Hs. intros Hn ->. split; [|by apply F_list]. intros H. inversion H; subst; same_start; done. Qed.
Lemma form_str x r : n ≤ SEXP_MAX_DEPTH → c = 34 → form n s x r ↔ ∃ d, literal s1 = Some (d, r) ∧ x = DStr d.
Proof using Hs.
  intros Hn ->. split; [|intros (d&?&->); by eapply F_string]. intros H. inversion H; subst; same_start; eauto.
Qed.
Lemma form_quoted x r : n ≤ SEXP_MAX_DEPTH → c = 39 → form n s x r ↔ ∃ y, x = dquote y ∧ quoted n s1 y r.
Proof using Hs.
  intros Hn ->. split.
  - intros H. inversion H; subst; same_start; eexists; (split; [done|]); eexists _, _; (split; [done|]).
    + match goal with |- context [(?c =? ch "(") || _] => destruct (Z.eqb_spec c (ch "(")); [by subst|]; destruct (Z.eqb_spec c 34); [by subst|] end.
      cbn [orb]. by rewrite token_start.
    + by destruct_or!; subst.
  - intros (y&->&c&s2&Hs2&Hq). destruct ((c =? ch "(") || (c =? 34)) eqn:Ec.
    + eapply F_quote; [done..| |done]. apply orb_prop in Ec. destruct Ec as [Ec%Z.eqb_eq|Ec%Z.eqb_eq]; auto.
    + destruct Hq as (Hr&Ht%token_start&Hn'). by eapply F_name.
Qed.
Lemma form_atom x r :
  n ≤ SEXP_MAX_DEPTH → c ≠ ch "(" → c ≠ 39 → c ≠ 34 →
  form n s x r ↔ c :: s1 = token (c :: s1) ++ r ∧ token (c :: s1) ≠ [] ∧ atom_of (token (c :: s1)) = Some x.
Proof using Hs.
  intros Hn H1 H2 H3. rewrite token_start. split; [|intros (?&?&?); by eapply F_atom].
  intros H. inversion H; subst; same_start; done.
Qed.
Lemma tail_end b x r : c = ch ")" → tail n b s x r ↔ x = DNil ∧ r = s1.
Proof using Hs. intros ->. split; [|intros [-> ->]; by apply T_end]. intros H. inversion H; subst; same_start; done. Qed.
Ltac at_dots := repeat match goal with H : context [dotted (skip false ?s)] |- _ => rewrite Hs in H; cbn [andb] in H end.
Lemma tail_dot b x r : c ≠ ch ")" → b && dotted (c :: s1) = true →
  tail n b s x r ↔ ∃ s2, form n s1 x s2 ∧ skip false s2 = ch ")" :: r.
Proof using Hs.
  intros Hc [-> Hd]%andb_prop. split.
  - intros H. inversion H; subst; same_start; [by eauto|]. at_dots. congruence.
  - intros (s2&Hf&Hs2). assert (c = ch ".") as ->.
    { destruct s1; [done|]. cbn [dotted] in Hd. by apply andb_prop in Hd as [Hd%Z.eqb_eq _]. }
    eapply T_dot; [exact Hs|by rewrite Hs|exact Hf|exact Hs2].
Qed.
Lemma tail_cons b x r : c ≠ ch ")" → b && dotted (c :: s1) = false →
  tail n b s x r ↔ ∃ y z s2, x = DPair y z ∧ form n (c :: s1) y s2 ∧ tail n true s2 z r.
Proof using Hs.
  intros Hc Hd. split.
  - intros H. inversion H; subst; same_start; at_dots; [cbn [andb] in Hd; congruence|]. eexists _, _, _. split; [done|]. split; [|done]. by rewrite <- Hs.
  - intros (y&z&s2&->&Hf&Ht). eapply T_cons; [exact Hs|exact Hc|by rewrite Hs|rewrite Hs; exact Hf|exact Ht].
Qed.
End First.
Lemma form_start n s x r : form n s x r → n ≤ SEXP_MAX_DEPTH ∧ skip false s ≠ [].
Proof. intros H. inversion H; subst; (split; [done|congruence]). Qed.
Lemma tail_start n b s x r : tail n b s x r → skip false s ≠ [].
Proof. intros H. inversion H; subst; congruence. Qed.
(** * Running the reader *)
Lemma bind_run {A B} (m : parse A) (f : A → parse B) w a w' : m w = Ret (a, w') → (m ≫= f) w = f a w'.
Proof. intros H. unfold mbind, parse_bind. by rewrite H. Qed.
Ltac step := erewrite bind_run; [|first [reflexivity | eassumption]]; cbv beta.

(** The cursor behind the characters [pre]. *)
Definition next_at (lc : Z * Z) (c : Z) : Z * Z := if c =? 10 then (lc.1 + 1, 1) else (lc.1, lc.2 + 1).
Definition line_col (pre : list Z) : Z * Z := foldl next_at (1, 1) pre.
Definition here (pre : list Z) : Parser := mk_Parser (len pre) (line_col pre).1 (line_col pre).2 false.

Lemma line_col_bounds pre : 1 ≤ (line_col pre).1 ≤ 1 + len pre ∧ 1 ≤ (line_col pre).2 ≤ 1 + len pre.
Proof.
  unfold line_col. induction pre as [|c pre IH] using rev_ind; [simpl; lia|].
  rewrite foldl_app, length_app. revert IH. generalize (foldl next_at (1, 1) pre). intros [l k] IH. simpl in *. unfold next_at.
  destruct (c =? 10); simpl; lia.
Qed.

Section Cursor.
Context (src : list Z) (Hlen : len src ≤ 2 ^ 30).
Context (e : list Z) (t : symtab) (st : store) (p : ProcMem).
(** The world with the cursor behind [pre]. *)
Abbreviation W pre := (mk_world (here pre) e t st p).

Lemma at_eof_run pre s : src = pre ++ s → at_eof src (W pre) = Ret (match s with [] => true | _ => false end, W pre).
Proof using. clear Hlen.
  intros ->. unfold at_eof. step. unfold mret, parse_ret, here. cbn [ps_pos]. rewrite length_app. do 2 f_equal.
  destruct s; simpl; [apply Z.leb_le; lia|apply Z.leb_gt; lia].
Qed.
Lemma peek_run pre c s : src = pre ++ c :: s → peek src (W pre) = Ret (c, W pre).
Proof using. clear Hlen. intros ->. unfold peek. step. unfold lift, here. cbn [ps_pos]. by rewrite byte_at_here. Qed.
Lemma advance_run pre c s : src = pre ++ c :: s → advance src (W pre) = Ret (tt, W (pre ++ [c])).
Proof using Hlen.
  intros E. unfold advance. step. pose proof (line_col_bounds pre). pose proof Hlen as Hl. rewrite E, length_app in Hl. simpl in Hl.
  erewrite (bind_run _ _ _ c); [|unfold lift, here; cbn [ps_pos w_ps]; rewrite E, byte_at_here; done].
  erewrite (bind_run _ _ _ (len pre + 1)); [|unfold lift, here; cbn [ps_pos w_ps]; rewrite chk32_small; [done|lia]].
  assert (Hn : here (pre ++ [c]) = let lc := next_at (line_col pre) c in mk_Parser (len pre + 1) lc.1 lc.2 false).
  { unfold here, line_col. rewrite foldl_app, length_app. cbn. f_equal. lia. }
  rewrite Hn. unfold next_at. cbn [w_ps ps_line ps_col ps_failed here]. destruct (c =? 10); cbn [fst snd].
  - by erewrite bind_run; [|unfold lift; rewrite chk32_small; [done|lia]].
  - by erewrite bind_run; [|unfold lift; rewrite chk32_small; [done|lia]].
Qed.

(** The characters in front of the first one that [stop]s. *)
Fixpoint chars_until (stop : Z → bool) (s : list Z) : list Z :=
  match s with
  | [] => []
  | c :: s => if stop c then [] else c :: chars_until stop s
  end.
Lemma advance_until_run stop fuel : ∀ pre s, src = pre ++ s → (length s < fuel)%nat →
  ∃ r, s = chars_until stop s ++ r ∧ advance_until src stop fuel (W pre) = Ret (tt, W (pre ++ chars_until stop s)).
Proof using Hlen.
  induction fuel as [|fuel IH]; intros pre s E Hf; [lia|]. cbn [advance_until].
  erewrite bind_run by by apply at_eof_run. destruct s as [|c s]; [exists []; cbn [chars_until skip app]; rewrite (app_nil_r pre); done|].
  erewrite bind_run by by eapply peek_run. cbn [chars_until]. destruct (stop c); [eexists; cbn [app]; rewrite (app_nil_r pre); done|].
  erewrite bind_run by by eapply advance_run. simpl in Hf.
  destruct (IH (pre ++ [c]) s) as (r&Er&Hr); [by rewrite <- (assoc app)|lia|]. exists r. rewrite Hr, <- (assoc app). simpl.
  split; [by f_equal|done].
Qed.

Lemma skip_comment s : skip true s = skip false (drop (length (chars_until (λ c, c =? 10) s)) s).
Proof using. clear Hlen.
  induction s as [|c s IH]; [done|]. cbn [skip chars_until]. destruct (Z.eqb_spec c 10) as [->|Hc]; [done|]. exact IH.
Qed.
Lemma skip_ws_run fuel : ∀ pre s, src = pre ++ s → (length s < fuel)%nat →
  ∃ ws, s = ws ++ skip false s ∧ skip_ws src fuel (W pre) = Ret (tt, W (pre ++ ws)).
Proof using Hlen.
  induction fuel as [|fuel IH]; intros pre s E Hf; [lia|]. cbn [skip_ws].
  erewrite bind_run by by apply at_eof_run. destruct s as [|c s]; [exists []; cbn [chars_until skip app]; rewrite (app_nil_r pre); done|].
  erewrite bind_run by by eapply peek_run. rewrite is_space_blank. cbn [skip]. simpl in Hf. destruct (blank c).
  { erewrite bind_run by by eapply advance_run. destruct (IH (pre ++ [c]) s) as (ws&Ew&Hw); [by rewrite <- (assoc app)|lia|].
    exists (c :: ws). rewrite Hw, <- (assoc app). split; [simpl; by f_equal|done]. }
  destruct (Z.eqb_spec c (ch ";")) as [Hc|]; [|exists []; cbn [chars_until skip app]; rewrite (app_nil_r pre); done].
  destruct (advance_until_run (λ c, c =? 10) (S (length src)) pre (c :: s)) as (r&Er&Hr);
    [done|rewrite E, length_app; simpl; lia|].
  erewrite bind_run by exact Hr. set (line := chars_until _ (c :: s)) in *.
  assert (Hl : line = c :: chars_until (λ c, c =? 10) s) by (unfold line; cbn [chars_until]; by rewrite Hc).
  assert (Hs : s = chars_until (λ c, c =? 10) s ++ r) by (rewrite Hl in Er; by injection Er).
  destruct (IH (pre ++ line) r) as (ws&Ew&Hw); [by rewrite E, Er, (assoc app)| |].
  { apply (f_equal length) in Hs. rewrite length_app in Hs. lia. }
  assert (Hk : skip true s = skip false r) by (rewrite skip_comment; rewrite Hs at 2; by rewrite drop_app_length).
  rewrite Hk. exists (line ++ ws). rewrite Hw, <- (assoc app). split; [|by rewrite (assoc app)].
  by rewrite <- Ew.
Qed.
End Cursor.

(** * What the reader builds *)

(** The tree of a datum, with symbols as indices into the table. *)
Fixpoint shows (names : list string) (x : datum) (tr : tree) : Prop :=
  match x with
  | DNil => tr = Imm val_nil
  | DTrue => tr = Imm val_true
  | DFalse => tr = Imm val_false
  | DInt n => tr = Imm (val_int n)
  | DSym s => ∃ i : nat, names !! i = Some s ∧ Z.of_nat i < 2 ^ 32 ∧ tr = Imm (val_symbol (Z.of_nat i))
  | DStr d => tr = TString d
  | DPair a b => ∃ ta tb, shows names a ta ∧ shows names b tb ∧ tr = TPair ta tb
  end.
Definition spells (t : symtab) (st : store) (v : Val) (x : datum) : Prop :=
  ∃ tr, denotes st v tr ∧ shows (symbols t) x tr.

(** What every part of the reader leaves alone. *)
Record kept (t : symtab) (st : store) (t' : symtab) (st' : store) (p' : ProcMem) : Prop := {
  k_tab : sym_ok t';
  k_names : symbols t `prefix_of` symbols t';
  k_win : window st' p';
  k_cells : cells st ⊆ cells st'
}.
Lemma kept_refl t st p : sym_ok t → window st p → kept t st t st p.
Proof. by split. Qed.
Lemma kept_trans t st t1 st1 p1 t2 st2 p2 : kept t st t1 st1 p1 → kept t1 st1 t2 st2 p2 → kept t st t2 st2 p2.
Proof. intros [_ N1 _ C1] [T2 N2 W2 C2]. split; [done|by etrans|done|by etrans]. Qed.

Lemma shows_mono names names' x tr : names `prefix_of` names' → shows names x tr → shows names' x tr.
Proof.
  intros Hp. revert tr. induction x; intros tr; simpl; try done.
  - intros (i&Hi&?). exists i. split; [by eapply prefix_lookup_Some|done].
  - intros (ta&tb&Ha&Hb&->). exists ta, tb. auto.
Qed.
Lemma spells_kept t st t' st' p' v x : kept t st t' st' p' → spells t st v x → spells t' st' v x.
Proof. intros K (tr&D&S). exists tr. split; [eapply denotes_mono, D; apply K|eapply shows_mono, S; apply K]. Qed.

Lemma spells_imm t st v x : 0 ≤ v < 2 ^ 64 → is_heap_tag (val_tag v) = false → shows (symbols t) x (Imm v) → spells t st v x.
Proof. intros Hv Ht Hs. by exists (Imm v). Qed.
Lemma spells_nil t st : spells t st val_nil DNil.
Proof. by apply spells_imm. Qed.
Lemma spells_int t st n : spells t st (val_int n) (DInt n).
Proof. apply spells_imm; [rewrite val_int_lbox; apply lbox_range|by rewrite val_int_tag|done]. Qed.
Lemma spells_symbol t st i name :
  symbols t !! i = Some name → Z.of_nat i < 2 ^ 32 → spells t st (val_symbol (Z.of_nat i)) (DSym name).
Proof.
  intros Hi Hl. change (val_symbol (Z.of_nat i)) with (lbox TAG_SYM (u32 (Z.of_nat i))).
  apply spells_imm; [apply lbox_range|by rewrite lbox_tag|]. by exists i.
Qed.

(** The shape of a value that spells a pair, and of one that ends a list. *)
Lemma spells_pair t st v x y : spells t st v (DPair x y) →
  val_is_pair v = true ∧ ∃ a b, read_pair st v = Ret (a, b) ∧ spells t st a x ∧ spells t st b y.
Proof.
  intros (tr&D&ta&tb&Sa&Sb&->). destruct D as (a&b&(_&Ht&_&Hc)&Da&Db). unfold val_is_pair, read_pair. rewrite Ht, Hc.
  split; [done|]. exists a, b. split; [done|]. split; eexists; done.
Qed.
Lemma spells_nil_not_pair t st v : spells t st v DNil → val_is_pair v = false.
Proof. intros (tr&D&->). by destruct D as (->&_). Qed.

Section Reading.
Context (cap stress : Z) (scratch_ok : Z → bool) (sym_fuel : nat) (src : list Z).
Context (Hok : ∀ n, scratch_ok n = true) (Hlen : len src ≤ 2 ^ 30) (Hsrc : Forall byte src).

(** The reader stopped with an error text. *)
Record rejected (t : symtab) (st : store) (w' : world) : Prop := {
  f_flag : ps_failed (w_ps w') = true;
  f_text : (0 < length (sexp_errbuf w') ≤ 127)%nat;
  f_kept : kept t st (w_tab w') (w_st w') (w_pm w')
}.
(** Room for the rest [s] of the text: four objects and one symbol a
    character, and [k] bytes more. *)
Record ready (pre s : list Z) (t : symtab) (st : store) (p : ProcMem) (k : Z) : Prop := {
  r_src : src = pre ++ s;
  r_kept : kept t st t st p;
  r_room : brk st + 4 * CHUNK_COST * len s + k < ADDR_LIMIT;
  r_fuel : Z.max 512 (6 * (sym_count t + len s)) ≤ Z.of_nat sym_fuel;
  r_count : sym_count t + len s < 2 ^ 31
}.
(** The reader's answer against a part [G] of the grammar: a datum of [G] and
    the cursor behind its text, or an error where [G] has none. *)
Record read_as (s : list Z) (t : symtab) (st : store) (k : Z) (v : Val) (x : datum) (r mid : list Z)
    (t' : symtab) (st' : store) (p' : ProcMem) : Prop := {
  g_text : s = mid ++ r;
  g_some : (0 < length mid)%nat;
  g_kept : kept t st t' st' p';
  g_val : spells t' st' v x;
  g_brk : brk st ≤ brk st' ≤ brk st + 4 * CHUNK_COST * len mid + k;
  g_syms : sym_count t' ≤ sym_count t + len mid
}.
Definition reads (G : datum → list Z → Prop) (m : outcome (Val * world)) (pre s e : list Z) (t : symtab) (st : store) (k : Z) : Prop :=
  (∃ x r v mid t' st' p', G x r ∧ m = Ret (v, mk_world (here (pre ++ mid)) e t' st' p') ∧ read_as s t st k v x r mid t' st' p') ∨
  ((∀ x r, ¬ G x r) ∧ ∃ v w', m = Ret (v, w') ∧ rejected t st w').

Lemma fmt_int_run z : 0 ≤ z < 2 ^ 31 → fmt_lld z = Ret (dec_text z).
Proof using. clear. intros H. apply fmt_lld_spec. rewrite Z.abs_eq by lia. etrans; [apply H|done]. Qed.
Lemma fail_run msg pre s e t st p :
  src = pre ++ s → kept t st t st p → ∃ w', parse_fail msg (mk_world (here pre) e t st p) = Ret (val_int (-1), w') ∧ rejected t st w'.
Proof using Hlen.
  intros E K. unfold parse_fail, snprintf_err. cbn [w_ps here ps_line ps_col ps_pos w_tab w_st w_pm].
  pose proof (line_col_bounds pre). pose proof Hlen as Hl. rewrite E, length_app in Hl.
  rewrite !fmt_int_run by lia. cbn [mbind outcome_bind]. eexists. split; [done|]. split; [done| |done].
  cbn [sexp_errbuf]. rewrite length_take, length_app. change (length (chars "line ")) with 5%nat. lia.
Qed.

(** Interning, in the table of the reader. *)
Lemma intern_run name pre e t st p :
  kept t st t st p → Z.max 512 (6 * (sym_count t + 1)) ≤ Z.of_nat sym_fuel → sym_count t + 1 < 2 ^ 31 →
  ∃ i t', intern_symbol true true sym_fuel name (mk_world (here pre) e t st p) = Ret (Z.of_nat i, mk_world (here pre) e t' st p) ∧
    kept t st t' st p ∧ symbols t' !! i = Some (nul_string name) ∧ Z.of_nat i < 2 ^ 32 ∧ sym_count t' ≤ sym_count t + 1.
Proof using.
  clear Hok Hlen Hsrc. intros K Hf Hc. unfold intern_symbol. cbn [w_tab].
  destruct (intern_refines t (nul_string name) sym_fuel (k_tab _ _ _ _ _ K)) as (t'&E&Ht&Es).
  { unfold intern_fuel. pose proof (s_size _ (k_tab _ _ _ _ _ K)). lia. }
  rewrite E. cbn [mbind outcome_bind]. destruct (intern_spec (symbols t) (nul_string name)) as (Hp&Hi&H0&Hl).
  rewrite <- Es in Hp, Hi, Hl. exists (Z.to_nat (intern (symbols t) (nul_string name)).1), t'.
  rewrite Z2Nat.id by done. split; [done|]. apply lookup_lt_Some in Hi as Hlt. unfold sym_count in *.
  split; [split; [done|done|apply K|done]|]. split; [done|]. lia.
Qed.

Lemma pair_run pre e t st p a b x y :
  kept t st t st p → spells t st a x → spells t st b y → brk st + CHUNK_COST < ADDR_LIMIT →
  ∃ v st' p', on_heap (λ st p, val_pair cap stress st p a b) (mk_world (here pre) e t st p) = Ret (v, mk_world (here pre) e t st' p') ∧
    kept t st t st' p' ∧ spells t st' v (DPair x y) ∧ brk st ≤ brk st' ≤ brk st + CHUNK_COST.
Proof using.
  clear. intros K (ta&Da&Sa) (tb&Db&Sb) Hb. destruct (pair_yields cap stress st p a b ta tb) as (v&st1&p1&E&D&W1&C1&B1);
    [apply K|done|done|done|].
  exists v, st1, p1. unfold on_heap. cbn [w_st w_pm w_ps w_tab sexp_errbuf]. rewrite E. split; [done|].
  split; [split; [apply K|done|done|done]|]. split; [|done]. exists (TPair ta tb). split; [done|]. by exists ta, tb.
Qed.

Lemma reverse_onto_run pre e t xs : ∀ fuel st p acc tl y,
  kept t st t st p → spells t st acc (dlist xs DNil) → spells t st tl y → (length xs ≤ fuel)%nat →
  brk st + CHUNK_COST * len xs < ADDR_LIMIT →
  ∃ v st' p', reverse_onto cap stress fuel acc tl (mk_world (here pre) e t st p) = Ret (v, mk_world (here pre) e t st' p') ∧
    kept t st t st' p' ∧ spells t st' v (dlist (rev xs) y) ∧ brk st ≤ brk st' ≤ brk st + CHUNK_COST * len xs.
Proof using.
  clear. assert (0 < CHUNK_COST) as HC by done. induction xs as [|x xs IH]; intros fuel st p acc tl y K Ha Hl Hf Hb; simpl length in *.
  - assert (Hp : val_is_pair acc = false) by by eapply spells_nil_not_pair.
    exists tl, st, p. split; [|split; [done|split; [done|lia]]]. destruct fuel; cbn [reverse_onto]; by rewrite Hp.
  - destruct fuel as [|fuel]; [lia|]. cbn [dlist foldr] in Ha. destruct (spells_pair _ _ _ _ _ Ha) as (Hp&a&b&Hr&Ha1&Hb1).
    cbn [reverse_onto]. rewrite Hp.
    erewrite bind_run; [|unfold lift; cbn [w_st]; rewrite Hr; cbn [mbind outcome_bind]; done]. cbv beta iota.
    destruct (pair_run pre e t st p a tl x y) as (v&st1&p1&E&K1&H1&B1); [done..|lia|].
    erewrite bind_run by exact E.
    destruct (IH fuel st1 p1 b v (DPair x y)) as (v2&st2&p2&E2&K2&H2&B2).
    { by split; try apply K1. } { by eapply spells_kept. } { done. } { lia. } { lia. }
    exists v2, st2, p2. rewrite E2. split; [done|]. split; [by eapply kept_trans|]. split; [|lia].
    cbn [rev]. unfold dlist in *. by rewrite foldr_app.
Qed.

(** ** String literals *)
Lemma escape_byte e c : escape_of e = Some c → byte e → byte c.
Proof using. clear. rewrite <- escape_escape_of. unfold escape. intros H He. repeat (case_match; simplify_eq); done. Qed.
Lemma filled_grow n m out : 0 ≤ n ≤ m → len out ≤ n → filled n out ++ sc_new (m - n) = filled m out.
Proof using. clear. intros Hn Ho. unfold filled, sc_new. rewrite <- (assoc app). f_equal. rewrite <- replicate_add. f_equal. lia. Qed.

(** One more character in the buffer, grown when it is full. *)
Lemma store_run (K : Z → scratch → parse (Val + list Z)) (c n : Z) (cp : Z) out w :
  byte c → len out < 2 ^ 30 → 1 ≤ cp → len out ≤ cp → n = len out →
  ∃ cp', 1 ≤ cp' ∧ len out + 1 ≤ cp' ∧
  (if cp <? n + 1 then
     cap ← lift (chk32 (cp * 2));
     if negb (scratch_ok cap) then v ← parse_fail "out of memory"; mret (inl v)
     else o ← lift (sc_put (filled cp out ++ sc_new (cap - len (filled cp out))) n c); K cap o
   else o ← lift (sc_put (filled cp out) n c); K cp o) w = K cp' (filled cp' (out ++ [c])) w.
Proof using Hok.
  clear Hlen Hsrc src. intros Hc Hn Hcp Ho ->. destruct (Z.ltb_spec cp (len out + 1)) as [Hlt|Hge].
  - exists (cp * 2). split; [lia|]. split; [lia|].
    erewrite bind_run; [|unfold lift; rewrite chk32_small; [done|lia]]. rewrite Hok. cbn [negb].
    rewrite filled_length by lia. rewrite Z2Nat.id, filled_grow by lia.
    erewrite bind_run; [|unfold lift; rewrite filled_put; [done|done|lia|done]]. done.
  - exists cp. split; [lia|]. split; [lia|].
    erewrite bind_run; [|unfold lift; rewrite filled_put; [done|done|lia|done]]. done.
Qed.

Lemma string_loop_run e t st p fuel : ∀ pre s cp out,
  src = pre ++ s → (length s < fuel)%nat → kept t st t st p → 1 ≤ cp → len out ≤ cp → len out + len s < 2 ^ 30 →
  match literal s with
  | Some (d, r) => ∃ mid, s = mid ++ r ∧ len d + 1 ≤ len mid ∧
      string_loop scratch_ok src fuel cp (len out) (filled cp out) (mk_world (here pre) e t st p) =
        Ret (inr (out ++ d), mk_world (here (pre ++ mid)) e t st p)
  | None => ∃ v w', string_loop scratch_ok src fuel cp (len out) (filled cp out) (mk_world (here pre) e t st p) = Ret (inl v, w') ∧
      rejected t st w'
  end.
Proof using Hok Hlen Hsrc.
  induction fuel as [|fuel IH]; intros pre s cp out E Hf K Hcp Ho Hl; [lia|]. cbn [string_loop].
  erewrite bind_run by by apply at_eof_run. destruct s as [|c s].
  { destruct (fail_run "unterminated string" pre [] e t st p E K) as (w'&Ef&Hw). cbn [literal].
    erewrite bind_run by exact Ef. by eexists _, _. }
  erewrite bind_run by by eapply peek_run. cbn [literal]. simpl in Hf, Hl.
  pose proof Hsrc as Hb. rewrite E in Hb. apply Forall_app in Hb as [_ [Hc Hs]%Forall_cons].
  destruct (c =? 34).
  { exists [c]. split; [done|]. split; [done|]. erewrite bind_run by by eapply advance_run.
    erewrite bind_run; [|unfold lift; rewrite filled_read by (done || lia); done]. by rewrite app_nil_r. }
  destruct (c =? 92).
  - erewrite bind_run by by eapply advance_run. destruct s as [|c2 s].
    { destruct (fail_run "unterminated string" (pre ++ [c]) [] e t st p) as (w'&Ef&Hw); [by rewrite app_nil_r|done|].
      erewrite bind_run; [|apply at_eof_run; by rewrite app_nil_r]. cbv beta iota. erewrite bind_run by exact Ef. by eexists _, _. }
    assert (E1 : src = (pre ++ [c]) ++ c2 :: s) by (by rewrite <- (assoc app)). apply Forall_cons in Hs as [Hc2 Hs]. simpl in Hf, Hl.
    erewrite bind_run by by eapply at_eof_run. cbv beta iota. erewrite bind_run by by eapply peek_run.
    rewrite escape_escape_of. destruct (escape_of c2) as [c3|] eqn:Ee; cbn [mbind option_bind].
    + erewrite bind_run by by eapply advance_run.
      edestruct (store_run (λ cap o, string_loop scratch_ok src fuel cap (len out + 1) o) c3 (len out) cp out) as (cp'&H1&H2&->);
        [by eapply escape_byte|lia|done|done|done|].
      specialize (IH ((pre ++ [c]) ++ [c2]) s cp' (out ++ [c3])). rewrite length_app in IH. simpl in IH.
      replace (Z.of_nat (length out + 1)) with (len out + 1) in IH by lia.
      destruct (literal s) as [[d r]|]; cbn [mbind option_bind].
      * destruct IH as (mid&->&Hm&IH); [by rewrite <- (assoc app)|lia|done|done|done|lia|].
        exists (c :: c2 :: mid). split; [done|]. split; [simpl; lia|]. rewrite IH, <- !(assoc app). done.
      * apply IH; [by rewrite <- (assoc app)|lia|done|done|done|lia].
    + destruct (fail_run "unknown escape in string" (pre ++ [c]) (c2 :: s) e t st p E1 K) as (w'&Ef&Hw).
      erewrite bind_run by exact Ef. by eexists _, _.
  - erewrite bind_run by by eapply advance_run.
    edestruct (store_run (λ cap o, string_loop scratch_ok src fuel cap (len out + 1) o) c (len out) cp out) as (cp'&H1&H2&->);
      [done|lia|done|done|done|].
    specialize (IH (pre ++ [c]) s cp' (out ++ [c])). rewrite length_app in IH. simpl in IH.
    replace (Z.of_nat (length out + 1)) with (len out + 1) in IH by lia.
    destruct (literal s) as [[d r]|]; cbn [mbind option_bind].
    + destruct IH as (mid&->&Hm&IH); [by rewrite <- (assoc app)|lia|done|done|done|lia|].
      exists (c :: mid). split; [done|]. split; [simpl; lia|]. rewrite IH, <- !(assoc app). done.
    + apply IH; [by rewrite <- (assoc app)|lia|done|done|done|lia].
Qed.

Lemma parse_string_run pre s s1 e t st p :
  ready pre s t st p 0 → s = 34 :: s1 →
  reads (λ x r, ∃ d, literal s1 = Some (d, r) ∧ x = DStr d) (parse_string cap stress scratch_ok src (mk_world (here pre) e t st p))
    pre s e t st (- (2 * CHUNK_COST)).
Proof using Hok Hlen Hsrc.
  intros [E K Hr _ _] ->. unfold parse_string. assert (0 < CHUNK_COST) as HC by done.
  erewrite bind_run by by eapply advance_run. rewrite Hok. cbn [negb].
  pose proof Hlen as Hl. rewrite E, length_app in Hl. simpl length in *.
  pose proof (string_loop_run e t st p (S (length src)) (pre ++ [34]) s1 SEXP_STR_TOK []) as H. simpl length in H.
  rewrite filled_new. change (Z.of_nat 0) with 0 in H. destruct (literal s1) as [[d r]|].
  - destruct H as (mid&->&Hm&H); [by rewrite <- (assoc app)|rewrite E, length_app; simpl; lia|done|done|done|lia|].
    rewrite length_app in *. erewrite bind_run by exact H. cbn [app].
    destruct (new_string_yields cap stress st p d) as (v&st1&p1&Ev&D&W1&C1&B1); [apply K|unfold STRING_MAX; lia|simpl; nia|].
    left. exists (DStr d), r, v, (34 :: mid), t, st1, p1. split; [by exists d|]. unfold on_heap. cbn [w_st w_pm]. rewrite Ev.
    split; [cbn; by rewrite <- (assoc app)|]. split; [done|simpl; lia| | | |simpl; lia].
    + split; [apply K|done|done|done].
    + by exists (TString d).
    + simpl in B1 |- *. nia.
  - right. split; [by intros x r (d&?&_)|].
    destruct H as (v&w'&H&Hw); [by rewrite <- (assoc app)|rewrite E, length_app; simpl; lia|done|done|done|lia|].
    erewrite bind_run by exact H. by exists v, w'.
Qed.

(** ** Atoms *)
Lemma token_until s : token s = chars_until is_delim s.
Proof using. clear. induction s as [|c s IH]; [done|]. cbn [token chars_until]. by rewrite IH, is_delim_delimiter. Qed.

Lemma digits_strtoll ds : ds ≠ [] → forallb is_digit ds = true → take_digits ds = ds ∧ drop_space ds = ds ∧
  match ds with c :: _ => c ≠ ch "-" ∧ c ≠ ch "+" | [] => True end.
Proof using.
  clear. intros Hd Hf. assert (Forall (λ c, is_digit c = true) ds) as HF
    by (apply Forall_forall; intros c Hc; rewrite forallb_forall in Hf; by apply Hf, list_elem_of_In).
  split; [by apply take_digits_all|]. destruct ds as [|c ds]; [done|]. apply Forall_cons in HF as [Hc%digit_range _].
  change (ch "0") with 48 in Hc. change (ch "9") with 57 in Hc. cbn [drop_space]. unfold is_ascii_space. change (ch " ") with 32.
  change (ch "-") with 45. change (ch "+") with 43. bcases. split; [done|lia].
Qed.
Definition clamp64 (v : Z) : Z := Z.max (- 2 ^ 63) (Z.min (2 ^ 63 - 1) v).
Lemma strtoll_digits tok : numeric tok = true → strtoll tok = (clamp64 (signed_value tok), []).
Proof using.
  clear. rewrite <- all_digits_numeric. unfold all_digits, strtoll, signed_value. destruct tok as [|c r]; [done|].
  destruct ((c =? ch "-") || (c =? ch "+")) eqn:Es.
  - intros [Hl%Nat.ltb_lt Hf]%andb_prop. cbn [drop] in Hf. destruct (digits_strtoll r) as (Ht&_&_); [by destruct r; simpl in *; [lia|]|done|].
    assert (Hsp : drop_space (c :: r) = c :: r).
    { apply orb_prop in Es. by destruct Es as [E%Z.eqb_eq|E%Z.eqb_eq]; subst c. }
    rewrite Hsp, Es, Ht. destruct r as [|c1 r]; [simpl in Hl; lia|]. rewrite drop_all. unfold clamp64.
    destruct (Z.eqb_spec c (ch "-")); [done|]. cbn [orb] in Es. by rewrite Es.
  - intros [Hl Hf]%andb_prop. cbn [drop] in Hf. destruct (digits_strtoll (c :: r)) as (Ht&Hsp&Hm&Hp); [done|done|].
    apply Z.eqb_neq in Hm, Hp. by rewrite Hsp, Es, Ht, drop_all, Hm, Hp.
Qed.

(** An answer without an object. *)
Lemma reads_imm (G : datum → list Z → Prop) pre s r tok e t st p v x :
  s = tok ++ r → (0 < length tok)%nat → kept t st t st p → spells t st v x → G x r →
  reads G (Ret (v, mk_world (here (pre ++ tok)) e t st p)) pre s e t st (- (2 * CHUNK_COST)).
Proof using.
  clear. intros Es Ht K Hv HG. assert (0 < CHUNK_COST) as HC by done. left. exists x, r, v, tok, t, st, p. split; [done|]. split; [done|].
  split; try done; nia.
Qed.
Lemma reads_fail (G : datum → list Z → Prop) msg pre s mid r e t st p k :
  src = pre ++ s → s = mid ++ r → kept t st t st p → (∀ x r, ¬ G x r) →
  reads G (parse_fail msg (mk_world (here (pre ++ mid)) e t st p)) pre s e t st k.
Proof using Hlen.
  intros E Es K HG. destruct (fail_run msg (pre ++ mid) r e t st p) as (w'&Ef&Hw); [by rewrite <- (assoc app), <- Es|done|].
  right. split; [done|]. by eexists _, w'.
Qed.

Lemma parse_symbol_run (G : datum → list Z → Prop) pre s r tok e t st p :
  ready pre s t st p 0 → s = tok ++ r → (0 < length tok)%nat → (∀ x r', G x r' ↔ name_of tok = Some x ∧ r' = r) →
  reads G (parse_symbol true true sym_fuel tok (mk_world (here (pre ++ tok)) e t st p)) pre s e t st (- (2 * CHUNK_COST)).
Proof using Hlen.
  intros [E K Hr Hf Hc] Es Ht HG. assert (0 < CHUNK_COST) as HC by done. unfold parse_symbol, name_of in *.
  destruct (Z.ltb_spec SEXP_SYM_TOK (len tok)) as [Hlt|Hge].
  - eapply reads_fail; [done..|]. intros x r' [H _]%HG. destruct (Z.leb_spec (len tok) SEXP_SYM_TOK); [lia|done].
  - assert (len s = len tok + len r) as Hs by (rewrite Es, length_app; lia).
    destruct (intern_run tok (pre ++ tok) e t st p K) as (i&t'&Ei&K'&Hi&Hb&Hn); [lia|lia|].
    erewrite bind_run by exact Ei. destruct (Z.ltb_spec (Z.of_nat i) 0); [lia|]. left.
    exists (DSym (nul_string tok)), r, (val_symbol (Z.of_nat i)), tok, t', st, p.
    destruct (Z.leb_spec (len tok) SEXP_SYM_TOK); [|lia]. split; [by apply HG|]. split; [done|].
    split; [done|done|done|by apply spells_symbol|nia|lia].
Qed.

Lemma parse_atom_run (as_name : bool) pre s e t st p :
  ready pre s t st p 0 →
  reads (λ x r, s = token s ++ r ∧ token s ≠ [] ∧ (if as_name then name_of else atom_of) (token s) = Some x)
    (parse_atom true true sym_fuel src as_name (mk_world (here pre) e t st p)) pre s e t st (- (2 * CHUNK_COST)).
Proof using Hlen.
  intros R. pose proof R as [E K Hr Hf Hc]. unfold parse_atom. step. cbv zeta.
  destruct (advance_until_run src Hlen e t st p is_delim (S (length src)) pre s) as (r&Es&Ea);
    [done|rewrite E, length_app; lia|]. rewrite <- token_until in Es, Ea.
  erewrite bind_run by exact Ea. step. cbn [w_ps here ps_pos]. rewrite length_app.
  erewrite bind_run; [|unfold lift; rewrite E, Es at 1; rewrite (mem_sub_here pre (token s) r) by lia; done].
  set (tok := token s) in *. clearbody tok.
  destruct (Z.eqb_spec (len tok) 0) as [H0|Hn0].
  { eapply reads_fail; [done..|]. intros x r' (_&Hn&_). by destruct tok. }
  assert (Ht : (0 < length tok)%nat) by lia.
  assert (HG : ∀ (o : list Z → option datum) x r', s = tok ++ r' ∧ tok ≠ [] ∧ o tok = Some x ↔ o tok = Some x ∧ r' = r).
  { intros o x r'. split; [|by intros [? ->]; destruct tok]. intros (H&_&?). split; [done|]. rewrite Es in H. by apply (inj (app tok)) in H. }
  destruct as_name; [eapply parse_symbol_run; [done..|]; apply HG|].
  unfold atom_of in *. rewrite all_digits_numeric. destruct (numeric tok) eqn:Ed.
  - destruct (Z.ltb_spec SEXP_INT_TOK (len tok)) as [Hl|Hl].
    { eapply reads_fail; [done..|]. intros x r' (_&_&H). destruct (Z.leb_spec (len tok) SEXP_INT_TOK); [lia|done]. }
    rewrite strtoll_digits by done. unfold SEXP_INT48_MIN, SEXP_INT48_MAX, clamp64. set (v := signed_value tok) in *. clearbody v.
    change (negb (len [] =? 0)) with false. cbn [orb].
    assert (Hrng : (Z.max (- 2 ^ 63) (Z.min (2 ^ 63 - 1) v) <? - 2 ^ 47) || (2 ^ 47 - 1 <? Z.max (- 2 ^ 63) (Z.min (2 ^ 63 - 1) v)) =
      negb ((- 2 ^ 47 <=? v) && (v <? 2 ^ 47))).
    { bcases; done. }
    rewrite Hrng. destruct (Z.leb_spec (len tok) SEXP_INT_TOK) as [_|]; [|lia]. cbn [andb].
    destruct ((- 2 ^ 47 <=? v) && (v <? 2 ^ 47)) eqn:Ev; cbn [negb].
    + apply andb_prop in Ev as [Hv1%Z.leb_le Hv2%Z.ltb_lt]. rewrite Z.min_r, Z.max_r by lia.
      eapply reads_imm; [done..|apply spells_int|]. split; [done|]. split; [by destruct tok|done].
    + eapply reads_fail; [done..|]. by intros x r' (_&_&H).
  - repeat case_bool_decide; try (eapply reads_imm; [done..| |split; [done|split; [by destruct tok|done]]]; by apply spells_imm).
    eapply parse_symbol_run; [done..|]. apply HG.
Qed.

(** ** Moving along the text *)
Lemma ready_shift pre ws s s' t st p k : ready pre s t st p k → s = ws ++ s' → ready (pre ++ ws) s' t st p k.
Proof using.
  clear. intros [E K Hr Hf Hc] ->. assert (0 < CHUNK_COST) as HC by done. rewrite length_app in *.
  split; [by rewrite <- (assoc app)|done|nia|lia|lia].
Qed.
Lemma ready_next pre s t st p k k1 v x r mid t' st' p' k' :
  ready pre s t st p k → read_as s t st k1 v x r mid t' st' p' → k' + k1 ≤ k → ready (pre ++ mid) r t' st' p' k'.
Proof using.
  clear. intros [E K Hr Hf Hc] [-> Hm K' Hv Hb Hn] Hk. assert (0 < CHUNK_COST) as HC by done. rewrite length_app in *.
  split; [by rewrite <- (assoc app)|by split; try apply K'|nia|lia|lia].
Qed.
Lemma reads_shift (G G' : datum → list Z → Prop) m pre ws s' s e t st k k' :
  reads G' m (pre ++ ws) s' e t st k' → s = ws ++ s' → (∀ x r, G x r ↔ G' x r) → k' ≤ k + 4 * CHUNK_COST * len ws →
  reads G m pre s e t st k.
Proof using.
  clear. intros [(x&r&v&mid&t'&st'&p'&HG&Em&[-> Hm K Hv Hb Hn])|[HG Hw]] -> Hiff Hk.
  - left. exists x, r, v, (ws ++ mid), t', st', p'. rewrite (assoc app). split; [by apply Hiff|]. split; [done|].
    split; [by rewrite (assoc app)|rewrite length_app; lia|done|done|rewrite length_app; nia|rewrite length_app; lia].
  - right. split; [|done]. intros x r H%Hiff. by eapply HG.
Qed.
Lemma at_dot_run pre c s e t st p : src = pre ++ c :: s →
  at_dot src (mk_world (here pre) e t st p) = Ret (dotted (c :: s), mk_world (here pre) e t st p).
Proof using.
  clear Hlen Hok Hsrc. intros E. unfold at_dot. erewrite bind_run by by eapply peek_run. cbn [dotted]. destruct (c =? ch "."); [|by destruct s].
  step. cbn [w_ps here ps_pos]. assert (Hl : len src = len pre + 1 + len s) by (rewrite E, length_app; simpl; lia).
  rewrite Hl. destruct (Z.ltb_spec (len pre + 1) (len pre + 1 + len s)) as [Hlt|Hge]; (destruct s as [|d s]; [simpl in *; try done; lia|]).
  - erewrite bind_run; [|unfold lift; rewrite E, byte_at_app by (done || lia); done]. unfold mret, parse_ret. by rewrite is_delim_delimiter.
  - simpl in Hge. lia.
Qed.
Lemma failed_run pre e t st p : failed (mk_world (here pre) e t st p) = Ret (false, mk_world (here pre) e t st p).
Proof using. done. Qed.
Lemma rejected_run t st w' : rejected t st w' → failed w' = Ret (true, w').
Proof using. clear. intros [Hf _ _]. unfold failed. step. by rewrite Hf. Qed.
Lemma rejected_kept t st t1 st1 p1 w' : kept t st t1 st1 p1 → rejected t1 st1 w' → rejected t st w'.
Proof using. clear. intros K [Hf Hl K']. split; [done|done|by eapply kept_trans]. Qed.
Lemma spells_list_pair t st v xs : spells t st v (dlist xs DNil) → val_is_pair v = match xs with [] => false | _ => true end.
Proof using. clear. destruct xs; [apply spells_nil_not_pair|]. intros H. by apply spells_pair in H as [? _]. Qed.

(** ** Forms and lists *)
Abbreviation FORM := (parse_form cap stress scratch_ok true true sym_fuel src).
Abbreviation TAIL := (parse_list_tail cap stress scratch_ok true true sym_fuel src).
Definition form_spec (fuel : nat) : Prop := ∀ n pre s e t st p,
  ready pre s t st p 0 → (2 * length s + 1 ≤ fuel)%nat →
  reads (form n s) (FORM fuel n (mk_world (here pre) e t st p)) pre s e t st (- (2 * CHUNK_COST)).
Definition tail_spec (fuel : nat) : Prop := ∀ n pre s acc xs e t st p,
  ready pre s t st p (CHUNK_COST * len xs) → spells t st acc (dlist xs DNil) → (length xs ≤ length pre)%nat →
  (2 * length s + 2 ≤ fuel)%nat →
  reads (λ x r, ∃ y, tail n (match xs with [] => false | _ => true end) s y r ∧ x = dlist (rev xs) y)
    (TAIL fuel n acc (mk_world (here pre) e t st p)) pre s e t st (CHUNK_COST * len xs).


(** Quoting what [m] reads behind the quote character. *)
Lemma quote_run (G : datum → list Z → Prop) (m : parse Val) pre front s3 s e t st p :
  ready pre s t st p 0 → s = front ++ s3 → (0 < length front)%nat →
  reads G (m (mk_world (here (pre ++ front)) e t st p)) (pre ++ front) s3 e t st (- (2 * CHUNK_COST)) →
  reads (λ x r, ∃ y, x = dquote y ∧ G y r)
    ((form ← m;
      bad ← failed;
      if (bad : bool) then mret form
      else
        idx ← intern_symbol true true sym_fuel (chars "quote");
        l ← on_heap (λ st p, val_pair cap stress st p form val_nil);
        on_heap (λ st p, val_pair cap stress st p (val_symbol idx) l)) (mk_world (here (pre ++ front)) e t st p))
    pre s e t st (- (2 * CHUNK_COST)).
Proof using.
  clear Hok Hlen Hsrc. intros [E K Hr Hf Hc] Es Hfr [(x&r&v&mid&t1&st1&p1&HG&Em&[Et Hm K1 Hv Hb Hn])|[HG (v&w'&Em&Hw)]].
  - assert (0 < CHUNK_COST) as HC by done. rewrite Es, Et, !length_app in Hr, Hf, Hc.
    erewrite bind_run by exact Em. erewrite bind_run by apply failed_run. cbv iota.
    destruct (intern_run (chars "quote") ((pre ++ front) ++ mid) e t1 st1 p1) as (i&t2&Ei&K2&Hi&Hlt&Hn2); [by split; try apply K1|lia|lia|].
    erewrite bind_run by exact Ei. assert (K2' : kept t2 st1 t2 st1 p1) by by split; try apply K2.
    destruct (pair_run ((pre ++ front) ++ mid) e t2 st1 p1 v val_nil x DNil) as (l&st3&p3&E3&K3&H3&B3);
      [done|exact (spells_kept _ _ _ _ _ _ _ K2 Hv)|apply spells_nil|nia|].
    erewrite bind_run by exact E3. assert (K3' : kept t2 st3 t2 st3 p3) by by split; try apply K3.
    destruct (pair_run ((pre ++ front) ++ mid) e t2 st3 p3 (val_symbol (Z.of_nat i)) l (DSym "quote") (DPair x DNil))
      as (q&st4&p4&E4&K4&H4&B4); [done|by apply spells_symbol|done|nia|].
    left. exists (dquote x), r, q, (front ++ mid), t2, st4, p4. split; [by exists x|]. split; [by rewrite E4, (assoc app)|].
    split; [by rewrite Es, Et, (assoc app)|rewrite length_app; lia| |done|rewrite length_app; nia|rewrite length_app; lia].
    eapply kept_trans; [exact K1|]. eapply kept_trans; [exact K2|]. eapply kept_trans; [exact K3|exact K4].
  - right. split; [by intros x r (y&_&?%HG)|]. exists v, w'. erewrite bind_run by exact Em.
    erewrite bind_run by by eapply rejected_run. done.
Qed.

Lemma form_step fuel : form_spec fuel → tail_spec fuel → form_spec (S fuel).
Proof using Hok Hlen Hsrc.
  intros IHf IHt n pre s e t st p R Hfu. pose proof R as [E K _ _ _]. cbn [parse_form]. assert (0 < CHUNK_COST) as HC by done.
  destruct (Z.ltb_spec SEXP_MAX_DEPTH n) as [Hn|Hn].
  { rewrite <- (app_nil_r pre) at 1. eapply reads_fail; [done|done|done|]. intros x r [H _]%form_start. lia. }
  destruct (skip_ws_run src Hlen e t st p (S (length src)) pre s) as (ws&Ew&Hw); [done|rewrite E, length_app; lia|].
  erewrite bind_run by exact Hw. pose proof (ready_shift _ ws _ _ _ _ _ _ R Ew) as R1. pose proof R1 as [E1 _ _ _ _].
  erewrite bind_run by by apply at_eof_run. destruct (skip false s) as [|c s1] eqn:Es.
  { eapply reads_fail; [done|done|done|]. by intros x r [_ H]%form_start. }
  cbv iota. erewrite bind_run by by eapply peek_run.
  assert (Hls : (length s1 < length s)%nat) by (apply (f_equal length) in Ew; rewrite length_app in Ew; simpl in Ew; lia).
  assert (R2 : ready ((pre ++ ws) ++ [c]) s1 t st p 0) by by eapply ready_shift.
  destruct (Z.eqb_spec c (ch "(")) as [Hc|Hc1].
  { erewrite bind_run by by eapply advance_run.
    eapply (reads_shift _ _ _ pre (ws ++ [c]) s1); [|by rewrite <- (assoc app)| |].
    - rewrite (assoc app). eapply (IHt (n + 1) ((pre ++ ws) ++ [c]) s1 val_nil []); [done|apply spells_nil|simpl; lia|lia].
    - intros x r. rewrite (form_open n s c s1 Es x r Hn Hc). cbn [rev dlist foldr]. naive_solver.
    - rewrite length_app. simpl length. nia. }
  destruct (Z.eqb_spec c 39) as [Hc|Hc2].
  { erewrite bind_run by by eapply advance_run. destruct R2 as [E2 _ _ _ _].
    destruct (skip_ws_run src Hlen e t st p (S (length src)) ((pre ++ ws) ++ [c]) s1) as (ws2&Ew2&Hw2);
      [done|rewrite E2, length_app; lia|]. erewrite bind_run by exact Hw2.
    assert (E3 : src = (((pre ++ ws) ++ [c]) ++ ws2) ++ skip false s1) by (rewrite <- (assoc app _ ws2), <- Ew2; done).
    erewrite bind_run by by apply at_eof_run. rewrite <- !(assoc app).
    destruct (skip false s1) as [|c3 s3] eqn:Es3.
    { eapply (reads_fail _ _ _ _ _ []); [done|by rewrite app_nil_r, Ew, Ew2, app_nil_r|done|].
      intros x r H. apply (form_quoted n s c s1 Es x r Hn Hc) in H as (y&_&c3&s3&H&_). congruence. }
    cbv iota. erewrite bind_run; [|eapply peek_run; by rewrite !(assoc app)].
    assert (Es' : s = (ws ++ [c] ++ ws2) ++ c3 :: s3) by (rewrite <- !(assoc app), <- Ew2; done).
    pose proof (ready_shift _ _ _ _ _ _ _ _ R Es') as R3.
    assert (Hl3 : (length (c3 :: s3) ≤ length s1)%nat) by (rewrite Ew2, length_app; lia).
    eapply (reads_shift _ _ _ pre [] s); [|done|intros x r; apply (form_quoted n s c s1 Es x r Hn Hc)|].
    - rewrite app_nil_r. eapply (quote_run (quoted n s1) _ pre _ (c3 :: s3)); [done|done|rewrite !length_app; simpl; lia|].
      unfold quoted. destruct ((c3 =? ch "(") || (c3 =? 34)) eqn:Ec3.
      + eapply (reads_shift _ _ _ _ [] (c3 :: s3)); [rewrite app_nil_r; apply (IHf (n + 1)); [done|lia]|done| |].
        * intros x r. rewrite Es3. split; [intros (?&?&[= <- <-]&H); by rewrite Ec3 in H|]. intros H. exists c3, s3. by rewrite Ec3.
        * change (len []) with 0. lia.
      + eapply (reads_shift _ _ _ _ [] (c3 :: s3)); [rewrite app_nil_r; by apply (parse_atom_run true)|done| |].
        * intros x r. rewrite Es3. split; [intros (?&?&[= <- <-]&H); by rewrite Ec3 in H|]. intros H. exists c3, s3. by rewrite Ec3.
        * change (len []) with 0. lia.
    - change (len []) with 0. lia. }
  destruct (Z.eqb_spec c 34) as [Hc|Hc3].
  - eapply (reads_shift _ _ _ pre ws (c :: s1)); [eapply parse_string_run; [done|by f_equal]|done| |nia].
    intros x r. by apply (form_str n s c).
  - eapply (reads_shift _ _ _ pre ws (c :: s1)); [by apply (parse_atom_run false)|done| |nia].
    intros x r. by apply (form_atom n s c).
Qed.

Lemma ready_weaken pre s t st p k k' : ready pre s t st p k → k' ≤ k → ready pre s t st p k'.
Proof using. clear. intros [E K Hr Hf Hc] Hk. split; try done. lia. Qed.
(** The end of a list: the elements read so far, onto its tail. *)
Lemma close_run (G : datum → list Z → Prop) fuel pre s front r acc tl xs y e t st t1 st1 p1 :
  s = front ++ r → (0 < length front)%nat → kept t st t1 st1 p1 → brk st ≤ brk st1 ≤ brk st + 4 * CHUNK_COST * len front →
  sym_count t1 ≤ sym_count t + len front → spells t1 st1 acc (dlist xs DNil) → spells t1 st1 tl y → (length xs ≤ fuel)%nat →
  brk st1 + CHUNK_COST * len xs < ADDR_LIMIT → G (dlist (rev xs) y) r →
  reads G (reverse_onto cap stress fuel acc tl (mk_world (here (pre ++ front)) e t1 st1 p1)) pre s e t st (CHUNK_COST * len xs).
Proof using.
  clear Hok Hlen Hsrc. intros Es Hf K Hb Hn Ha Hl Hfu Hr HG.
  destruct (reverse_onto_run (pre ++ front) e t1 xs fuel st1 p1 acc tl y) as (v&st2&p2&E&K2&Hv&B2);
    [by split; try apply K|done..|].
  left. exists (dlist (rev xs) y), r, v, front, t1, st2, p2. split; [done|]. split; [done|].
  split; [done|done|by eapply kept_trans|done|lia|lia].
Qed.

Lemma dot_step fuel n pre s front s1 acc xs e t st p :
  form_spec fuel → ready pre s t st p (CHUNK_COST * len xs) → spells t st acc (dlist xs DNil) → (length xs ≤ length pre)%nat →
  s = front ++ s1 → (0 < length front)%nat → (2 * length s1 + 1 ≤ fuel)%nat →
  reads (λ x r, ∃ y, (∃ s2, form n s1 y s2 ∧ skip false s2 = ch ")" :: r) ∧ x = dlist (rev xs) y)
    ((tail ← FORM fuel n;
      bad ← failed;
      if (bad : bool) then mret tail
      else
        _ ← skip_ws src (S (length src));
        eof ← at_eof src;
        closed ← (if (eof : bool) then mret false else c ← peek src; mret (c =? ch ")"));
        if negb closed then parse_fail "'.' tail must end the list"
        else _ ← advance src; reverse_onto cap stress (S (length src)) acc tail) (mk_world (here (pre ++ front)) e t st p))
    pre s e t st (CHUNK_COST * len xs).
Proof using Hok Hlen Hsrc.
  intros IHf R Ha Hx Es Hfr Hfu. assert (0 < CHUNK_COST) as HC by done.
  pose proof (ready_weaken _ _ _ _ _ _ 0 (ready_shift _ _ _ _ _ _ _ _ R Es) ltac:(nia)) as R1.
  destruct (IHf n (pre ++ front) s1 e t st p R1 Hfu) as [(x&r&v&mid&t1&st1&p1&HG&Em&Hread)|[HG (v&w'&Em&Hw)]].
  - erewrite bind_run by exact Em. erewrite bind_run by apply failed_run. cbv iota.
    pose proof (ready_next _ _ _ _ _ _ _ _ _ _ _ _ _ _ (2 * CHUNK_COST) R1 Hread ltac:(lia)) as [E2 K2 _ _ _].
    destruct Hread as [Et Hm K1 Hv Hb Hn]. pose proof R as [E _ Hroom _ _].
    destruct (skip_ws_run src Hlen e t1 st1 p1 (S (length src)) ((pre ++ front) ++ mid) r) as (ws&Ew&Hw); [done|rewrite E2, length_app; lia|].
    erewrite bind_run by exact Hw.
    assert (Es3 : s = (front ++ mid ++ ws) ++ skip false r) by (by rewrite <- !(assoc app), <- Ew, Es, Et).
    assert (E3 : src = (((pre ++ front) ++ mid) ++ ws) ++ skip false r) by (by rewrite E2, <- !(assoc app), <- Ew).
    erewrite bind_run by by apply at_eof_run. destruct (skip false r) as [|c r1] eqn:Er.
    { cbv iota. step. cbn [negb]. rewrite <- !(assoc app). right. split.
      - intros x' r' (y&(s2&[? ->]%(proj1 grammar_det _ _ _ _ HG)&?)&_). congruence.
      - destruct (fail_run "'.' tail must end the list" (pre ++ front ++ mid ++ ws) [] e t1 st1 p1) as (w'&Ef&Hwf);
          [by rewrite !(assoc app)|by split; try apply K1|]. eexists _, w'. split; [done|]. by eapply rejected_kept. }
    cbv iota. erewrite (bind_run _ _ _ (c =? ch ")"));
      [|erewrite bind_run by (eapply peek_run; done); done].
    destruct (Z.eqb_spec c (ch ")")) as [->|Hc]; cbn [negb].
    + erewrite bind_run by by eapply advance_run. rewrite <- !(assoc app).
      eapply (close_run _ _ pre s _ r1 acc v xs x); try done.
      * by rewrite Es3, <- !(assoc app).
      * rewrite !length_app. lia.
      * rewrite !length_app. nia.
      * rewrite !length_app. lia.
      * exact (spells_kept _ _ _ _ _ _ _ K1 Ha).
      * rewrite E, length_app. lia.
      * rewrite Es, Et, !length_app in Hroom. nia.
      * exists x. split; [|done]. by exists r.
    + rewrite <- !(assoc app). right. split.
      * intros x' r' (y&(s2&[? ->]%(proj1 grammar_det _ _ _ _ HG)&?)&_). congruence.
      * destruct (fail_run "'.' tail must end the list" (pre ++ front ++ mid ++ ws) (c :: r1) e t1 st1 p1) as (w'&Ef&Hwf);
          [by rewrite !(assoc app)|by split; try apply K1|]. eexists _, w'. split; [done|]. by eapply rejected_kept.
  - right. split; [by intros x r (y&(s2&?%HG&_)&_)|]. exists v, w'. erewrite bind_run by exact Em.
    erewrite bind_run by by eapply rejected_run. done.
Qed.

Lemma cons_step fuel n pre s front s1 acc xs e t st p :
  form_spec fuel → tail_spec fuel → ready pre s t st p (CHUNK_COST * len xs) → spells t st acc (dlist xs DNil) →
  (length xs ≤ length pre)%nat → s = front ++ s1 → (2 * length s1 + 1 ≤ fuel)%nat →
  reads (λ x r, ∃ y, (∃ a z s2, y = DPair a z ∧ form n s1 a s2 ∧ tail n true s2 z r) ∧ x = dlist (rev xs) y)
    ((form ← FORM fuel n;
      bad ← failed;
      if (bad : bool) then mret form
      else
        acc ← on_heap (λ st p, val_pair cap stress st p form acc);
        TAIL fuel n acc) (mk_world (here (pre ++ front)) e t st p))
    pre s e t st (CHUNK_COST * len xs).
Proof using Hlen.
  intros IHf IHt R Ha Hx Es Hfu. assert (0 < CHUNK_COST) as HC by done.
  pose proof (ready_shift _ _ _ _ _ _ _ _ R Es) as R1.
  destruct (IHf n (pre ++ front) s1 e t st p (ready_weaken _ _ _ _ _ _ 0 R1 ltac:(nia)) Hfu)
    as [(x&r&v&mid&t1&st1&p1&HG&Em&Hread)|[HG (v&w'&Em&Hw)]].
  - erewrite bind_run by exact Em. erewrite bind_run by apply failed_run. cbv iota.
    pose proof (ready_next _ _ _ _ _ _ _ _ _ _ _ _ _ _ (CHUNK_COST * len xs + 2 * CHUNK_COST) R1 Hread ltac:(lia)) as [E2 K2 Hr2 Hf2 Hc2].
    destruct Hread as [Et Hm K1 Hv Hb Hn].
    destruct (pair_run ((pre ++ front) ++ mid) e t1 st1 p1 v acc x (dlist xs DNil)) as (l&st3&p3&E3&K3&H3&B3);
      [done|done|exact (spells_kept _ _ _ _ _ _ _ K1 Ha)|nia|].
    erewrite bind_run by exact E3. rewrite <- (assoc app).
    destruct (IHt n (pre ++ front ++ mid) r l (x :: xs) e t1 st3 p3) as [(x2&r2&v2&mid2&t4&st4&p4&(y&Hy&->)&Em2&[Et2 Hm2 K4 Hv2 Hb2 Hn2])|[HG2 (v2&w2&Em2&Hw2)]].
    + split; [by rewrite (assoc app)|by split; try apply K3|simpl length; nia|done|done].
    + done.
    + rewrite !length_app. simpl. lia.
    + rewrite Et, length_app in Hfu. lia.
    + left. exists (dlist (rev (x :: xs)) y), r2, v2, (front ++ mid ++ mid2), t4, st4, p4. split; [|split; [|split]].
      * exists (DPair x y). split; [by exists x, y, r|]. cbn [rev]. unfold dlist. by rewrite foldr_app.
      * by rewrite Em2, !(assoc app).
      * by rewrite Es, Et, Et2, !(assoc app).
      * rewrite !length_app. lia.
      * eapply kept_trans; [exact K1|]. eapply kept_trans; [exact K3|exact K4].
      * done.
      * rewrite !length_app. simpl length in Hb2. nia.
      * rewrite !length_app. lia.
    + right. split.
      * intros x' r' (y&(a&z&s2&->&[? ->]%(proj1 grammar_det _ _ _ _ HG)&Ht)&_). apply (HG2 (dlist (rev (x :: xs)) z) r'). by exists z.
      * exists v2, w2. split; [done|]. eapply rejected_kept; [|done]. eapply kept_trans; [exact K1|exact K3].
  - right. split; [by intros x r (y&(a&z&s2&_&?%HG&_)&_)|]. exists v, w'. erewrite bind_run by exact Em.
    erewrite bind_run by by eapply rejected_run. done.
Qed.

Lemma tail_step fuel : form_spec fuel → tail_spec fuel → tail_spec (S fuel).
Proof using Hok Hlen Hsrc.
  intros IHf IHt n pre s acc xs e t st p R Ha Hx Hfu. pose proof R as [E K Hroom _ _]. cbn [parse_list_tail].
  assert (0 < CHUNK_COST) as HC by done. set (b := match xs with [] => false | _ => true end).
  destruct (skip_ws_run src Hlen e t st p (S (length src)) pre s) as (ws&Ew&Hw); [done|rewrite E, length_app; lia|].
  erewrite bind_run by exact Hw. pose proof (ready_shift _ ws _ _ _ _ _ _ R Ew) as [E1 _ _ _ _].
  erewrite bind_run by by apply at_eof_run. destruct (skip false s) as [|c s1] eqn:Es.
  { eapply reads_fail; [done|done|done|]. by intros x r (y&?%tail_start&_). }
  cbv iota. erewrite bind_run by by eapply peek_run. assert (Hl : (length (ws ++ c :: s1) = length s)%nat) by by rewrite <- Ew.
  rewrite length_app in Hl. simpl in Hl.
  destruct (Z.eqb_spec c (ch ")")) as [Hc|Hc].
  { erewrite bind_run by by eapply advance_run. rewrite <- (assoc app).
    eapply (close_run _ _ pre s (ws ++ [c]) s1 acc val_nil xs DNil); try done.
    - by rewrite <- (assoc app).
    - rewrite length_app. simpl. lia.
    - rewrite length_app. nia.
    - lia.
    - apply spells_nil.
    - rewrite E, length_app. lia.
    - nia.
    - exists DNil. split; [|done]. by apply (tail_end n s c s1 Es). }
  erewrite (bind_run _ _ _ (b && dotted (c :: s1))); [|rewrite (spells_list_pair _ _ _ _ Ha); fold b; destruct b; [by apply at_dot_run|done]].
  destruct (b && dotted (c :: s1)) eqn:Ed.
  - erewrite bind_run by by eapply advance_run. rewrite <- (assoc app).
    eapply (reads_shift _ _ _ pre [] s); [rewrite app_nil_r; eapply (dot_step fuel n pre s (ws ++ [c]) s1)|done| |]; try done.
    + by rewrite <- (assoc app).
    + rewrite length_app. simpl. lia.
    + lia.
    + intros x r. by setoid_rewrite (tail_dot n s c s1 Es b _ _ Hc Ed).
    + simpl length. lia.
  - eapply (reads_shift _ _ _ pre [] s); [rewrite app_nil_r; eapply (cons_step fuel n pre s ws (c :: s1))|done| |]; try done.
    + simpl. lia.
    + intros x r. by setoid_rewrite (tail_cons n s c s1 Es b _ _ Hc Ed).
    + simpl length. lia.
Qed.

Lemma reader_run fuel : form_spec fuel ∧ tail_spec fuel.
Proof using Hok Hlen Hsrc.
  induction fuel as [|fuel [IHf IHt]]; [split; intros ?; intros; lia|].
  split; [by apply form_step|by apply tail_step].
Qed.
End Reading.
