(* ===== verification/SexpRefine.v ===== *)
(** The functions of the [sexp] module against the grammar, and a printer
    whose text they read back. *)
From stdpp Require Import base tactics list gmap strings.
From Stdlib Require Import ZArith Lia Ascii.
From S2P Require Import Prelude Values Heap Resource Gc GcCorrect GcSpec Tree Alloc Copy Symtab Cmodule Str StrSpec Sexp SexpSpec.
Open Scope Z_scope.

(** * All forms of a text *)
Section Forms.
Context (cap stress : Z) (scratch_ok : Z → bool) (sym_fuel : nat) (src : list Z).
Context (Hok : ∀ n, scratch_ok n = true) (Hlen : len src ≤ 2 ^ 30) (Hsrc : Forall byte src).

Lemma program_det s xs : program s xs → ∀ ys, program s ys → xs = ys.
Proof using.
  clear. induction 1 as [s Hs|s c s1 x r xs Hs Hf _ IH]; intros ys H; inversion H; subst; same_start; [done|].
  match goal with Hf' : form 0 _ _ _ |- _ => destruct (proj1 grammar_det _ _ _ _ Hf _ _ Hf'); subst end.
  f_equal. by apply IH.
Qed.

Lemma forms_loop_run fuel : ∀ pre s acc xs t st p,
  ready sym_fuel src pre s t st p (CHUNK_COST * len xs) → spells t st acc (dlist xs DNil) →
  (length xs ≤ length pre)%nat → (length s < fuel)%nat →
  ∃ v w', forms_loop cap stress scratch_ok true true sym_fuel src fuel acc (mk_world (here pre) [] t st p) = Ret (v, w') ∧
    kept t st (w_tab w') (w_st w') (w_pm w') ∧
    ((∃ ys, program s ys ∧ spells (w_tab w') (w_st w') v (dlist (rev xs ++ ys) DNil) ∧ sexp_errbuf w' = []) ∨
     ((∀ ys, ¬ program s ys) ∧ v = val_int (-1) ∧ (0 < length (sexp_errbuf w') ≤ 127)%nat)).
Proof using Hok Hlen Hsrc.
  induction fuel as [|fuel IH]; intros pre s acc xs t st p R Ha Hx Hfu; [lia|]. pose proof R as [E K Hroom _ _]. cbn [forms_loop].
  assert (0 < CHUNK_COST) as HC by done.
  destruct (skip_ws_run src Hlen [] t st p (S (length src)) pre s) as (ws&Ew&Hw); [done|rewrite E, length_app; lia|].
  erewrite bind_run by exact Hw. pose proof (ready_shift _ _ _ ws _ _ _ _ _ _ R Ew) as R1. pose proof R1 as [E1 _ _ _ _].
  erewrite bind_run by by apply at_eof_run. destruct (skip false s) as [|c s1] eqn:Es.
  { destruct (reverse_onto_run cap stress (pre ++ ws) [] t xs (S (length src)) st p acc val_nil DNil) as (v&st1&p1&Er&K1&Hv&B1);
      [done|done|apply spells_nil|rewrite E, length_app; lia|nia|].
    eexists v, _. split; [exact Er|]. split; [done|]. left. exists []. rewrite app_nil_r. split; [by constructor|done]. }
  cbv iota. assert (Hl : (length (ws ++ c :: s1) = length s)%nat) by by rewrite <- Ew. rewrite length_app in Hl.
  destruct (proj1 (reader_run cap stress scratch_ok sym_fuel src Hok Hlen Hsrc (form_fuel src)) 0 (pre ++ ws) (c :: s1) [] t st p)
    as [(x&r&v&mid&t1&st1&p1&HG&Em&Hread)|[HG (v&w'&Em&Hw')]].
  { eapply ready_weaken; [done|nia]. }
  { unfold form_fuel. rewrite E, length_app. lia. }
  - erewrite bind_run by exact Em. erewrite bind_run by apply failed_run. cbv iota.
    pose proof (ready_next _ _ _ _ _ _ _ _ _ _ _ _ _ _ _ _ (CHUNK_COST * len xs + 2 * CHUNK_COST) R1 Hread ltac:(lia)) as [E2 K2 Hr2 Hf2 Hc2].
    destruct Hread as [Et Hm K1 Hv Hb Hn].
    destruct (pair_run cap stress ((pre ++ ws) ++ mid) [] t1 st1 p1 v acc x (dlist xs DNil)) as (l&st3&p3&E3&K3&H3&B3);
      [done|done|exact (spells_kept _ _ _ _ _ _ _ K1 Ha)|nia|].
    erewrite bind_run by exact E3.
    destruct (IH ((pre ++ ws) ++ mid) r l (x :: xs) t1 st3 p3) as (v2&w2&Em2&K4&Hcase).
    + split; [done|by split; try apply K3|simpl length; nia|done|done].
    + done.
    + rewrite !length_app. simpl. lia.
    + rewrite Et, length_app in Hl. lia.
    + exists v2, w2. split; [done|]. split; [eapply kept_trans; [exact K1|]; eapply kept_trans; [exact K3|exact K4]|].
      destruct Hcase as [(ys&Hp&Hy&He)|[Hno Hrest]]; [left|right].
      * exists (x :: ys). split; [by eapply P_form|]. split; [|done]. cbn [rev] in Hy. by rewrite <- (assoc app) in Hy.
      * split; [|done]. intros ys H. inversion H; subst; same_start.
        match goal with Hf : form 0 _ _ _ |- _ => destruct (proj1 grammar_det _ _ _ _ HG _ _ Hf); subst end. by eapply Hno.
  - erewrite bind_run by exact Em. erewrite bind_run by by eapply rejected_run. eexists _, w'. split; [done|]. split; [apply Hw'|].
    right. split; [|split; [done|apply Hw']]. intros ys H. inversion H; subst; same_start. by eapply HG.
Qed.
End Forms.

(** * The functions *)

(** A text the reader can take: bytes, at most 2^30 of them, room for what it
    denotes and for its symbols. *)
Definition readable (sym_fuel : nat) (t : symtab) (st : store) (tr : tree) : Prop :=
  match tr with
  | TString d => Forall byte d ∧ len d ≤ 2 ^ 30 ∧ brk st + 4 * CHUNK_COST * len d < ADDR_LIMIT ∧
      Z.max 512 (6 * (sym_count t + len d)) ≤ Z.of_nat sym_fuel ∧ sym_count t + len d < 2 ^ 31
  | _ => True
  end.
Definition reads_as (tr : tree) (xs : list datum) : Prop := ∃ d, tr = TString d ∧ program d xs.

Lemma sexp_parse_run cap stress scratch_ok sym_fuel t st p v tr :
  (∀ n, scratch_ok n = true) → window st p → sym_ok t → denotes st v tr → readable sym_fuel t st tr →
  ∃ r err t' st' p', sexp_parse cap stress scratch_ok true true sym_fuel t st p [v] = Ret (r, err, t', st', p') ∧
    kept t st t' st' p' ∧
    ((∃ xs, reads_as tr xs ∧ spells t' st' r (dlist xs DNil) ∧ err = []) ∨
     ((∀ xs, ¬ reads_as tr xs) ∧ r = val_int (-1) ∧ (0 < length err ≤ 127)%nat)).
Proof.
  intros Hok W T D Hr. unfold sexp_parse. cbn [arg lookup list_lookup or_undef mbind outcome_bind]. assert (0 < CHUNK_COST) as HC by done.
  assert ((∃ d, tr = TString d) ∨ ¬ ∃ d, tr = TString d) as [[d ->]|Hn] by (destruct tr; (by left; eexists) || (right; by intros [])).
  - destruct (string_denotes _ _ _ D) as [-> ->]. cbn [negb mbind outcome_bind]. destruct Hr as (Hb&Hl&Hroom&Hf&Hc).
    destruct (forms_loop_run cap stress scratch_ok sym_fuel d Hok Hl Hb (S (length d)) [] d val_nil [] t st p) as (r&w&E&K&Hcase).
    { split; [done|by apply kept_refl|simpl; lia|done|done]. } { apply spells_nil. } { done. } { lia. }
    change (mk_Parser 0 1 1 false) with (here []). rewrite E. cbn [mbind outcome_bind].
    exists r, (sexp_errbuf w), (w_tab w), (w_st w), (w_pm w). split; [done|]. split; [done|].
    destruct Hcase as [(ys&Hp&Hy&He)|[Hno Hrest]]; [left; exists ys; split; [by exists d|done]|right].
    split; [|done]. intros xs (d'&[= <-]&Hp). by eapply Hno.
  - rewrite (not_string_denotes _ _ _ D) by (intros d ->; apply Hn; by exists d). cbn [negb].
    eexists _, _, t, st, p. split; [done|]. split; [by apply kept_refl|]. right.
    split; [intros xs (d&->&_); apply Hn; by exists d|]. split; [done|]. vm_compute. lia.
Qed.

(** * A printer *)
Definition int_text (n : Z) : list Z := (if n <? 0 then [ch "-"] else []) ++ numeral 15 10 (Z.abs n).
(** A quote or a backslash behind a backslash. *)
Fixpoint escaped (d : list Z) : list Z :=
  match d with
  | [] => [34]
  | c :: d => (if (c =? 34) || (c =? 92) then [92; c] else [c]) ++ escaped d
  end.
Definition quoted_name (x : datum) : option string :=
  match x with
  | DPair (DSym q) (DPair (DSym s) DNil) => if bool_decide (q = "quote") then Some s else None
  | _ => None
  end.
(** [in_tail]: [x] is the rest of a list whose elements are being printed. *)
Definition atom_text (in_tail : bool) (a : list Z) : list Z :=
  if in_tail then chars " . " ++ a ++ [ch ")"] else a.
Fixpoint print (in_tail : bool) (x : datum) : list Z :=
  match x with
  | DNil => if in_tail then [ch ")"] else chars "nil"
  | DTrue => atom_text in_tail (chars "true")
  | DFalse => atom_text in_tail (chars "false")
  | DInt n => atom_text in_tail (int_text n)
  | DSym s => atom_text in_tail (chars s)
  | DStr d => atom_text in_tail (34 :: escaped d)
  | DPair a b =>
      match (if in_tail then None else quoted_name x) with
      | Some s => 39 :: chars s
      | None => (if in_tail then ch " " else ch "(") :: print false a ++ print true b
      end
  end.
(** Parentheses around the innermost atom. *)
Fixpoint nesting (in_tail : bool) (x : datum) : Z :=
  match x with
  | DPair a b => (if in_tail then 0 else 1) + Z.max (nesting false a) (nesting true b)
  | _ => 0
  end.

(** A name: no delimiter and no NUL in it. *)
Definition name_ok (s : string) : bool :=
  forallb (λ c, negb (delimiter c) && negb (c =? 0)) (chars s) && (0 <? len (chars s)) && (len (chars s) <=? SEXP_SYM_TOK).
(** What the text of an atom can spell: a symbol that is not a number, a
    constant or a dot, unless it is quoted. *)
Definition symbol_ok (s : string) : bool :=
  name_ok s && negb (numeric (chars s)) &&
  negb (bool_decide (s = "nil")) && negb (bool_decide (s = "true")) && negb (bool_decide (s = "false")) && negb (bool_decide (s = ".")).
Fixpoint printable (in_tail : bool) (x : datum) : bool :=
  match x with
  | DNil | DTrue | DFalse => true
  | DInt n => (- 2 ^ 47 <=? n) && (n <? 2 ^ 47)
  | DSym s => symbol_ok s
  | DStr d => bool_decide (Forall byte d)
  | DPair a b =>
      match (if in_tail then None else quoted_name x) with
      | Some s => name_ok s
      | None => printable false a && printable true b
      end
  end.

(** ** Its lexical parts *)
Definition ends (r : list Z) : bool := match r with [] => true | c :: _ => delimiter c end.

Lemma token_app a r : forallb (λ c, negb (delimiter c)) a = true → ends r = true → token (a ++ r) = a.
Proof.
  intros Ha Hr. induction a as [|c a IH]; cbn [app token].
  - destruct r as [|c r]; [done|]. cbn [token ends] in *. by rewrite Hr.
  - cbn [forallb] in Ha. apply andb_prop in Ha as [Hc Ha]. destruct (delimiter c); [done|]. by rewrite IH.
Qed.
Lemma skip_visible c s : blank c = false → c ≠ ch ";" → skip false (c :: s) = c :: s.
Proof. intros Hc Hs. cbn [skip]. rewrite Hc. by apply Z.eqb_neq in Hs as ->. Qed.
Lemma delim_visible c : delimiter c = false → blank c = false ∧ c ≠ ch ";" ∧ c ≠ ch ")" ∧ c ≠ 34 ∧ c ≠ 39 ∧ c ≠ ch "(".
Proof.
  rewrite <- is_delim_delimiter, <- is_space_blank. unfold is_delim. intros H. do 5 apply orb_false_elim in H as [H ?]. split; [done|]. by split_and!; apply Z.eqb_neq.
Qed.
Lemma nul_chars s : forallb (λ c, negb (c =? 0)) (chars s) = true → nul_string (chars s) = s.
Proof.
  induction s as [|a s IH]; [done|]. cbn [chars forallb nul_string]. intros [Ha Hs]%andb_prop.
  destruct (ch a =? 0); [done|]. rewrite IH by done. unfold ch. by rewrite N2Z.id, ascii_N_embedding.
Qed.
Lemma name_ok_parts s : name_ok s = true →
  forallb (λ c, negb (delimiter c)) (chars s) = true ∧ nul_string (chars s) = s ∧ (∃ c r, chars s = c :: r ∧ delimiter c = false) ∧
  name_of (chars s) = Some (DSym s).
Proof.
  unfold name_ok, name_of. intros [[Hf Hl%Z.ltb_lt]%andb_prop Hn]%andb_prop. rewrite Hn.
  assert (forallb (λ c, negb (delimiter c)) (chars s) = true ∧ forallb (λ c, negb (c =? 0)) (chars s) = true) as [H1 H2].
  { clear -Hf. induction (chars s) as [|c l IH]; [done|]. cbn [forallb] in *. apply andb_prop in Hf as [[-> ->]%andb_prop Hf].
    by apply IH in Hf as [-> ->]. }
  split; [done|]. split; [by apply nul_chars|]. split; [|by rewrite nul_chars].
  destruct (chars s) as [|c r]; [simpl in Hl; lia|]. exists c, r. split; [done|]. cbn [forallb] in H1.
  apply andb_prop in H1 as [H1 _]. by apply negb_true_iff in H1.
Qed.

Lemma digit_not_delim c : is_digit c = true → delimiter c = false.
Proof.
  intros Hc%digit_range. change (ch "0") with 48 in Hc. change (ch "9") with 57 in Hc. rewrite <- is_delim_delimiter. unfold is_delim, is_space.
  change (ch " ") with 32. change (ch "(") with 40. change (ch ")") with 41. change (ch ";") with 59. bcases; done.
Qed.
Lemma forallb_impl {A} (P Q : A → bool) l : (∀ x, P x = true → Q x = true) → Forall (λ x, P x = true) l → forallb Q l = true.
Proof. intros H HF. induction HF as [|x l Hx _ IH]; [done|]. cbn [forallb]. by rewrite IH, H. Qed.
Lemma int_text_atom n : - 2 ^ 47 ≤ n < 2 ^ 47 →
  atom_of (int_text n) = Some (DInt n) ∧ forallb (λ c, negb (delimiter c)) (int_text n) = true ∧
  ∃ c r, int_text n = c :: r ∧ delimiter c = false ∧ c ≠ ch ".".
Proof.
  intros Hn. pose proof (numeral_length 10 15 (Z.abs n) ltac:(lia)) as Hl. pose proof (numeral_dec 15 (Z.abs n) ltac:(lia)) as Hd.
  pose proof (numeral_value 10 ltac:(lia) 15 (Z.abs n) ltac:(lia)) as Hv. rewrite <- dec_value_base in Hv by done. unfold int_text.
  set (u := numeral 15 10 (Z.abs n)) in *. clearbody u. destruct u as [|c u]; [simpl in Hl; lia|].
  pose proof (forallb_impl is_digit is_digit _ ltac:(done) Hd) as Hf.
  pose proof (forallb_impl is_digit (λ c, negb (delimiter c)) _ ltac:(intros ? H; cbv beta; by rewrite digit_not_delim) Hd) as Hnd.
  destruct (digits_strtoll (c :: u)) as (_&_&Hm&Hp); [done|done|]. pose proof (Forall_inv Hd) as Hc. cbv beta in Hc.
  assert (Hrng : (- 2 ^ 47 <=? n) && (n <? 2 ^ 47) = true) by (bcases; done).
  unfold atom_of. rewrite <- all_digits_numeric. unfold all_digits, signed_value. destruct (Z.ltb_spec n 0) as [Hneg|Hpos]; cbn [app].
  - change (ch "-" =? ch "-") with true. cbn [orb drop]. rewrite Hf.
    change (1 <? length (ch "-" :: c :: u))%nat with true. cbn [andb]. rewrite Hv. replace (- Z.abs n) with n by lia.
    rewrite <- andb_assoc, Hrng, andb_true_r. destruct (Z.leb_spec (len (ch "-" :: c :: u)) SEXP_INT_TOK) as [_|H];
      [|unfold SEXP_INT_TOK in H; simpl in H, Hl; lia].
    split; [done|]. split; [by cbn [forallb] in *; rewrite Hnd|]. eexists _, _. done.
  - apply Z.eqb_neq in Hm, Hp. rewrite Hm, Hp. cbn [orb drop]. rewrite Hf. change (0 <? length (c :: u))%nat with true. cbn [andb].
    rewrite Hv. replace (Z.abs n) with n by lia. rewrite <- andb_assoc, Hrng, andb_true_r.
    destruct (Z.leb_spec (len (c :: u)) SEXP_INT_TOK) as [_|H]; [|unfold SEXP_INT_TOK in H; simpl in H, Hl; lia].
    split; [done|]. split; [done|]. exists c, u. split; [done|]. split; [by apply digit_not_delim|].
    intros ->. done.
Qed.
Lemma escaped_literal d r : literal (escaped d ++ r) = Some (d, r).
Proof.
  induction d as [|c d IH]; [done|]. cbn [escaped]. destruct ((c =? 34) || (c =? 92)) eqn:Ec.
  - cbn [app literal]. change (92 =? 34) with false. change (92 =? 92) with true. cbv iota.
    assert (escape_of c = Some c) as -> by (apply orb_prop in Ec; destruct Ec as [E%Z.eqb_eq|E%Z.eqb_eq]; by subst c).
    cbn [mbind option_bind]. by rewrite IH.
  - apply orb_false_elim in Ec as [E1 E2]. cbn [app literal]. by rewrite E1, E2, IH.
Qed.
Lemma symbol_atom s : symbol_ok s = true → atom_of (chars s) = Some (DSym s) ∧ name_ok s = true ∧ s ≠ ".".
Proof.
  unfold symbol_ok, atom_of. intros [[[[[Hn Hd]%andb_prop H1]%andb_prop H2]%andb_prop H3]%andb_prop H4]%andb_prop.
  apply negb_true_iff in Hd, H1, H2, H3, H4. rewrite Hd. apply bool_decide_eq_false in H1, H2, H3, H4.
  destruct (name_ok_parts s Hn) as (_&Hs&_&Hname).
  assert (Hc : ∀ k, s ≠ k → nul_string (chars k) = k → chars s ≠ chars k) by (intros k Hk Ek E; apply Hk; by rewrite <- Hs, E).
  rewrite !bool_decide_eq_false_2 by (by apply Hc). done.
Qed.

(** ** Its text is in the grammar *)
Lemma form_skip n s s' x r : skip false s = skip false s' → form n s x r → form n s' x r.
Proof.
  intros E H. inversion H; subst;
    match goal with Hs : skip false s = _ |- _ => rewrite E in Hs end;
    [by eapply F_atom|by eapply F_string|by eapply F_list|by eapply F_name|by eapply F_quote].
Qed.
Lemma atom_form n a r x c a1 :
  n ≤ SEXP_MAX_DEPTH → a = c :: a1 → delimiter c = false → forallb (λ c, negb (delimiter c)) a = true → ends r = true →
  atom_of a = Some x → form n (a ++ r) x r.
Proof.
  intros Hn -> Hc Ha Hr Hx. pose proof (token_app _ _ Ha Hr) as Ht. pose proof (delim_visible c Hc) as (Hv1&Hv2&_).
  cbn [app] in *. eapply F_atom; [done|by apply skip_visible|done|by rewrite Ht|by rewrite Ht].
Qed.

(** What the text of a datum in element position starts with. *)
Definition starts (s : list Z) : Prop := ∃ c s1, s = c :: s1 ∧ skip false s = s ∧ c ≠ ch ")" ∧ dotted s = false.
Lemma starts_delim c s : blank c = false → c ≠ ch ";" → c ≠ ch ")" → c ≠ ch "." → starts (c :: s).
Proof.
  intros H1 H2 H3 H4. exists c, s. split; [done|]. split; [by apply skip_visible|]. split; [done|]. destruct s; [done|]. cbn [dotted].
  by apply Z.eqb_neq in H4 as ->.
Qed.
Lemma print_starts x r : printable false x = true → ends r = true → starts (print false x ++ r).
Proof.
  intros Hp Hr. destruct x as [| | |n|s|d|a b]; try (by apply starts_delim).
  - cbn [printable] in Hp. apply andb_prop in Hp as [H1%Z.leb_le H2%Z.ltb_lt].
    destruct (int_text_atom n ltac:(lia)) as (_&_&c&u&E&Hc&Hdot). cbn [print atom_text]. rewrite E.
    pose proof (delim_visible c Hc) as (?&?&?&_). by apply starts_delim.
  - cbn [printable print atom_text] in *. destruct (symbol_atom s Hp) as (_&Hn&Hdot).
    destruct (name_ok_parts s Hn) as (Hf&Hs&(c&u&E&Hc)&_). pose proof (delim_visible c Hc) as (Hv1&Hv2&Hv3&_).
    rewrite E in *. exists c, (u ++ r). split; [done|]. split; [by apply skip_visible|]. split; [done|]. cbn [app].
    destruct (Z.eqb_spec c (ch ".")) as [->|Hne].
    + destruct u as [|c2 u]; [by rewrite <- Hs in Hdot|]. cbn [forallb] in Hf. apply andb_prop in Hf as [_ [H2%negb_true_iff _]%andb_prop].
      cbn [app dotted]. by rewrite H2, andb_false_r.
    + apply Z.eqb_neq in Hne. destruct (u ++ r); [done|]. cbn [dotted]. by rewrite Hne.
  - cbn [print]. destruct (quoted_name (DPair a b)); by apply starts_delim.
Qed.
Lemma tail_text_ends x r : ends (print true x ++ r) = true.
Proof. by destruct x. Qed.

Lemma quoted_name_Some x s : quoted_name x = Some s → x = dquote (DSym s).
Proof. destruct x as [| | | | | |[] [| | | | | |[] []]]; try done. cbn. case_bool_decide; [|done]. by intros [= ->]; subst. Qed.
Lemma tail_atom n a x r :
  form n (a ++ [ch ")"] ++ r) x ([ch ")"] ++ r) → tail n true (chars " . " ++ (a ++ [ch ")"]) ++ r) x r.
Proof.
  intros H. change (chars " . ") with [32; 46; 32]. rewrite <- (assoc app). eapply (T_dot _ _ _ _ ([ch ")"] ++ r)); [done|done|by eapply form_skip, H|done].
Qed.

(** The atoms, in either position. *)
Lemma print_atom n a x r :
  (∀ r, ends r = true → form n (a ++ r) x r) →
  (ends r = true → form n (atom_text false a ++ r) x r) ∧ tail n true (atom_text true a ++ r) x r.
Proof. intros H. split; [apply H|]. cbn [atom_text]. apply tail_atom, H. done. Qed.

Lemma nesting_nonneg x : ∀ b, 0 ≤ nesting b x.
Proof. induction x as [| | | | | |a IHa b IHb]; intros c; cbn [nesting]; [lia..|]. specialize (IHa false). destruct c; lia. Qed.
Lemma tail_skip n b s s' x r : skip false s = skip false s' → tail n b s x r → tail n b s' x r.
Proof.
  intros E H. inversion H as [? ? ? ? H1|? ? ? ? ? ? H1 H2 H3 H4|? ? ? ? ? ? ? ? ? H1 H2 H3 H4 H5]; subst; rewrite E in H1.
  - by apply T_end.
  - rewrite E in H2. by eapply T_dot.
  - rewrite E in H3, H4. by eapply T_cons.
Qed.

Lemma print_form x : ∀ n r,
  (printable false x = true → n + nesting false x ≤ SEXP_MAX_DEPTH → ends r = true → form n (print false x ++ r) x r) ∧
  (printable true x = true → n + nesting true x ≤ SEXP_MAX_DEPTH → tail n true (print true x ++ r) x r).
Proof.
  induction x as [| | |i|s|d|a IHa b IHb]; intros n r; cbn [nesting]; rewrite ?Z.add_0_r.
  - split; intros; [by eapply atom_form|by apply T_end].
  - split; intros; eapply print_atom; try done; intros; by eapply atom_form.
  - split; intros; eapply print_atom; try done; intros; by eapply atom_form.
  - cbn [printable print]. split; intros [H1%Z.leb_le H2%Z.ltb_lt]%andb_prop; destruct (int_text_atom i ltac:(lia)) as (Ha&Hf&c&u&E&Hc&_);
      intros; eapply print_atom; try done; intros; by eapply atom_form.
  - cbn [printable print]. split; intros Hs; destruct (symbol_atom s Hs) as (Ha&Hn&_);
      destruct (name_ok_parts s Hn) as (Hf&_&(c&u&E&Hc)&_); intros; eapply print_atom; try done; intros; by eapply atom_form.
  - cbn [print]. split; intros; eapply print_atom; try done; intros; (eapply F_string; [done|done|apply escaped_literal]).
  - pose proof (nesting_nonneg a false).
    assert (Hpair : ∀ m b', printable false a = true → printable true b = true → m + Z.max (nesting false a) (nesting true b) ≤ SEXP_MAX_DEPTH →
      tail m b' (print false a ++ print true b ++ r) (DPair a b) r).
    { intros m b' Ha Hb Hm. destruct (print_starts a (print true b ++ r) Ha (tail_text_ends b r)) as (c&s1&Es&Hsk&Hc&Hd).
      eapply T_cons; [by rewrite Hsk|done|rewrite Hsk, Hd; apply andb_false_r|rewrite Hsk|].
      - apply IHa; [done|lia|apply tail_text_ends].
      - apply IHb; [done|lia]. }
    cbn [printable print]. split.
    + destruct (quoted_name (DPair a b)) as [s|] eqn:Eq.
      * intros Hs Hn Hr. apply quoted_name_Some in Eq as ->. destruct (name_ok_parts s Hs) as (Hf&_&(c&u&E&Hc)&Hname).
        pose proof (token_app _ _ Hf Hr) as Ht. pose proof (delim_visible c Hc) as (Hv1&Hv2&_). rewrite E in *. cbn [app] in *.
        eapply F_name; [lia|done|by apply skip_visible|done|by rewrite Ht|by rewrite Ht].
      * intros [Ha Hb]%andb_prop Hn Hr. cbn [app]. eapply F_list; [lia|done|]. rewrite <- (assoc app). apply Hpair; [done|done|lia].
    + intros [Ha Hb]%andb_prop Hn. cbn [app]. rewrite <- (assoc app).
      eapply tail_skip; [|by apply Hpair; [..|lia]]. done.
Qed.

(** A file of forms, one a line. *)
Definition print_all (xs : list datum) : list Z := concat ((λ x, print false x ++ [10]) <$> xs).
Lemma print_all_program xs :
  Forall (λ x, printable false x = true ∧ nesting false x ≤ SEXP_MAX_DEPTH) xs → program (print_all xs) xs.
Proof.
  unfold print_all. induction 1 as [|x xs [Hp Hn] _ IH]; [by apply P_end|]. cbn [fmap list_fmap concat]. rewrite <- (assoc app).
  set (r := [10] ++ _). assert (Hr : program r xs).
  { inversion IH as [s Hs|s c s1 y r' ys Hs Hf Hr]; subst; [by apply P_end|by eapply P_form]. }
  destruct (print_starts x r Hp eq_refl) as (c&s1&E&Hs&_). eapply P_form; [by rewrite Hs, E| |done].
  rewrite <- E. by apply print_form.
Qed.

(** * Properties *)
Section Properties.
Context (cap stress : Z) (scratch_ok : Z → bool) (sym_fuel : nat) (t : symtab) (st : store) (p : ProcMem).
Context (Hok : ∀ n, scratch_ok n = true) (W : window st p) (T : sym_ok t).

(** C28: [sexp.parse] is the grammar.  On any argument it returns, inside its
    window, with the heap and the symbol table only extended.  The result is
    the list of the forms the grammar gives the text, with an empty error text,
    and -1 with an error text exactly when the grammar gives it none or the
    argument is not a string; [sexp.err] then returns that text. *)
Theorem sexp_parse_grammar v tr :
  denotes st v tr → readable sym_fuel t st tr →
  ∃ r err t' st' p', sexp_parse cap stress scratch_ok true true sym_fuel t st p [v] = Ret (r, err, t', st', p') ∧
    kept t st t' st' p' ∧ yields (sexp_err cap stress err st' p') st' (TString err) ∧
    ((∃ xs, reads_as tr xs ∧ spells t' st' r (dlist xs DNil) ∧ err = []) ∨
     ((∀ xs, ¬ reads_as tr xs) ∧ r = val_int (-1) ∧ err ≠ [])).
Proof using Hok W T.
  intros D Hr. destruct (sexp_parse_run cap stress scratch_ok sym_fuel t st p v tr Hok W T D Hr) as (r&err&t'&st'&p'&E&K&Hcase).
  exists r, err, t', st', p'. split; [done|]. split; [done|]. split.
  - apply new_string_yields; [apply K|]. unfold STRING_MAX. destruct Hcase as [(xs&_&_&->)|(_&_&Hl)]; [done|lia].
  - destruct Hcase as [?|(Hno&Hr'&Hl)]; [by left|right]. split; [done|]. split; [done|]. intros ->. simpl in Hl. lia.
Qed.

(** C29: what is printed reads back.  For data whose integers fit 48 bits,
    whose symbols have spellable names (quoted ones any name, also that of a
    number or of nil) and which nest at most [SEXP_MAX_DEPTH] deep, the reader
    returns exactly them. *)
Theorem sexp_roundtrip v xs :
  denotes st v (TString (print_all xs)) → readable sym_fuel t st (TString (print_all xs)) →
  Forall (λ x, printable false x = true ∧ nesting false x ≤ SEXP_MAX_DEPTH) xs →
  ∃ r t' st' p', sexp_parse cap stress scratch_ok true true sym_fuel t st p [v] = Ret (r, [], t', st', p') ∧
    kept t st t' st' p' ∧ spells t' st' r (dlist xs DNil).
Proof using Hok W T.
  intros D Hr Hx%print_all_program. destruct (sexp_parse_run cap stress scratch_ok sym_fuel t st p v _ Hok W T D Hr)
    as (r&err&t'&st'&p'&E&K&[(ys&(d&[= <-]&Hy)&Hh&->)|(Hno&_)]).
  - exists r, t', st', p'. split; [done|]. split; [done|]. by rewrite (program_det _ _ Hx _ Hy).
  - exfalso. apply (Hno xs). by exists (print_all xs).
Qed.
End Properties.

(** ** Concrete texts *)
Definition w_data : list datum :=
  [DPair (DSym "define") (DPair (DInt (-5)) (DPair (DStr (chars "a\b")) (DSym "rest"))); dquote (DSym "nil"); DNil].
Definition w_sexp : store :=
  w_heap (<[1024 := Live (HeapString (chars "''a"))]> {[2048 := Live (HeapString (print_all w_data))]}).
Lemma w_sexp_window : window w_sexp w_winproc.
Proof. apply w_heap_window. intros x Hx. rewrite lookup_insert_ne by lia. apply lookup_singleton_ne. lia. Qed.

(** A quote of a quote is no form, though the file's grammar has it. *)
Lemma quote_quote_refused xs : ¬ program (chars "''a") xs.
Proof.
  intros H. inversion H as [s Hs|s c s1 x r ys Hs Hf _]; subst; [done|]. injection Hs as <- <-.
  apply (form_quoted 0 (chars "''a") 39 (chars "'a") eq_refl) in Hf as (y&_&c&s1&Hs&Hq); [|done|done]. injection Hs as <- <-. by destruct Hq as (_&Ht&_).
Qed.
Lemma sexp_parse_grammar_witness :
  ∃ err t' st' p', sexp_parse 4096 0 (λ _, true) true true 512 symtab_new w_sexp w_winproc [lbox TAG_STRING 1024] =
    Ret (val_int (-1), err, t', st', p') ∧ err ≠ [].
Proof.
  destruct (sexp_parse_grammar 4096 0 (λ _, true) 512 symtab_new w_sexp w_winproc ltac:(done) w_sexp_window sym_ok_new
    (lbox TAG_STRING 1024) (TString (chars "''a"))) as (r&err&t'&st'&p'&E&_&_&[(xs&(d&[= <-]&Hp)&_)|(_&->&He)]).
  - by apply w_heap_string.
  - split; [apply (bool_decide_unpack _); vm_compute; exact I|]. vm_compute. repeat split; congruence.
  - exfalso. exact (quote_quote_refused _ Hp).
  - exists err, t', st', p'. exact (conj E He).
Defined.
Lemma sexp_roundtrip_witness :
  ∃ r t' st' p', sexp_parse 4096 0 (λ _, true) true true 512 symtab_new w_sexp w_winproc [lbox TAG_STRING 2048] = Ret (r, [], t', st', p') ∧
    spells t' st' r (dlist w_data DNil).
Proof.
  destruct (sexp_roundtrip 4096 0 (λ _, true) 512 symtab_new w_sexp w_winproc ltac:(done) w_sexp_window sym_ok_new
    (lbox TAG_STRING 2048) w_data) as (r&t'&st'&p'&E&_&H).
  - by apply w_heap_string.
  - split; [apply (bool_decide_unpack _); vm_compute; exact I|]. vm_compute. repeat split; congruence.
  - apply (bool_decide_unpack _). vm_compute. exact I.
  - exists r, t', st', p'. exact (conj E H).
Defined.
