(* ===== verification/Buffer.v ===== *)
(** The [buffer] module: src/lib/buffer.c, mutable byte buffers behind the
    resource values of Resource.v.

    [bufs] is the memory of the module: the [BufState] blocks by address.  The
    address is the [ptr] of the resource's payload.  A buffer with contents
    [d] behaves as the byte sequence [d]. *)
From stdpp Require Import base tactics list gmap strings.
From Stdlib Require Import ZArith Lia.
From S2P Require Import Prelude Values Heap Resource Gc GcCorrect GcSpec Tree Alloc Copy Cmodule Handle Str StrSpec StrRefine.
Open Scope Z_scope.

(** * The code *)
(** [b_data] is [None] for NULL, else a block of [b_cap] bytes. *)
Record BufState := mk_BufState { b_data : option scratch; b_len : Z; b_cap : Z }.
Abbreviation bufmem := (gmap Z BufState).
Definition SIZEOF_BUFSTATE : Z := 16.
Definition BUF_DTOR : Z := 1.
(** The destructor frees the block and its data. *)
Definition buf_dtor (bufs : bufmem) (ptr : Z) : outcome bufmem :=
  match bufs !! ptr with
  | None => Undef
  | Some _ => Ret (delete ptr bufs)
  end.

(** [while (newcap < need) newcap *= 2]. *)
Fixpoint double_to (fuel : nat) (newcap need : Z) : outcome Z :=
  if newcap <? need then
    match fuel with
    | O => NoFuel
    | S fuel => c ← chk32 (newcap * 2); double_to fuel c need
    end
  else Ret newcap.
(** [ok n]: whether [realloc] to [n] bytes succeeds; [None] is 0 (no memory). *)
Definition buf_ensure (ok : Z → bool) (b : BufState) (add : Z) : outcome (option BufState) :=
  need ← chk32 (b_len b + add);
  if need <=? b_cap b then Ret (Some b)
  else
    newcap ← double_to 32 (if b_cap b =? 0 then 16 else b_cap b) need;
    if negb (ok newcap) then Ret None
    else
      let old := default [] (b_data b) in
      Ret (Some (mk_BufState (Some (old ++ replicate (Z.to_nat newcap - length old) None)) (b_len b) newcap)).
(** Writing to NULL is undefined unless nothing is written. *)
Definition buf_write (b : BufState) (d : list Z) : outcome BufState :=
  data ← (match b_data b with
          | None => if bool_decide (d = []) then Ret None else Undef
          | Some sc => sc ← sc_copy sc (b_len b) d; Ret (Some sc)
          end);
  n ← chk32 (b_len b + Z.of_nat (length d));
  Ret (mk_BufState data n (b_cap b)).
Definition buf_read (b : BufState) (off n : Z) : outcome (list Z) :=
  match b_data b with
  | None => if n =? 0 then Ret [] else Undef
  | Some sc => sc_read sc off n
  end.

Section Module.
Context (cap stress : Z) (ok : Z → bool).
Abbreviation result := (outcome (Val * store * ProcMem * bufmem)).

Definition buffer_raw_new (st : store) (p : ProcMem) (bufs : bufmem) : result :=
  match malloc st SIZEOF_BUFSTATE with
  | None => Abort "abort"
  | Some (ptr, st) =>
      '(v, st, p) ← ta_resource_new cap stress st p ptr BUF_DTOR;
      Ret (v, st, p, <[ptr := mk_BufState None 0 0]> bufs)
  end.
(** The preamble of every operation: [k] gets the address of the buffer. *)
Definition with_buf (st : store) (p : ProcMem) (bufs : bufmem) (args : list Val) (k : Z → BufState → result) : result :=
  v ← arg args 0;
  '(code, h) ← ta_resource_open st (pid p) v (-1);
  match h with
  | None => Ret (val_int code, st, p, bufs)
  | Some a =>
      '(_, res) ← read_resource st a;
      '(ptr, _) ← or_undef (payloads st !! res);
      b ← or_undef (bufs !! ptr);
      k ptr b
  end.
Definition buffer_raw_push_str (st : store) (p : ProcMem) (bufs : bufmem) (args : list Val) : result :=
  with_buf st p bufs args (λ ptr b,
    v ← arg args 1;
    if negb (val_is_string v) then Ret (val_int (-1), st, p, bufs)
    else
      d ← read_string st v;
      r ← buf_ensure ok b (Z.of_nat (length d));
      match r with
      | None => Ret (val_int (-1), st, p, bufs)
      | Some b => b ← buf_write b d; Ret (val_int (b_len b), st, p, <[ptr := b]> bufs)
      end).
Definition buffer_raw_push_byte (st : store) (p : ProcMem) (bufs : bufmem) (args : list Val) : result :=
  with_buf st p bufs args (λ ptr b,
    v ← arg args 1;
    let n := val_get_int v in
    if (0 <=? n) && (n <=? 255) then
      r ← buf_ensure ok b 1;
      match r with
      | None => Ret (val_int (-1), st, p, bufs)
      | Some b => b ← buf_write b [n]; Ret (val_int (b_len b), st, p, <[ptr := b]> bufs)
      end
    else Ret (val_int (-1), st, p, bufs)).
Definition buffer_raw_to_string (st : store) (p : ProcMem) (bufs : bufmem) (args : list Val) : result :=
  with_buf st p bufs args (λ _ b,
    d ← buf_read b 0 (b_len b);
    '(v, st, p) ← new_string cap stress st p d;
    Ret (v, st, p, bufs)).
Definition buffer_raw_slice (st : store) (p : ProcMem) (bufs : bufmem) (args : list Val) : result :=
  with_buf st p bufs args (λ _ b,
    v1 ← arg args 1;
    v2 ← arg args 2;
    let s := val_get_int v1 in
    let e := val_get_int v2 in
    if (0 <=? s) && (e <=? b_len b) && (s <=? e) then
      d ← buf_read b s (e - s);
      '(v, st, p) ← new_string cap stress st p d;
      Ret (v, st, p, bufs)
    else Ret (val_int (-1), st, p, bufs)).
(** The release runs the destructor on the payload's pointer. *)
Definition buffer_raw_close (st : store) (p : ProcMem) (bufs : bufmem) (args : list Val) : result :=
  v ← arg args 0;
  '(code, h) ← ta_resource_open st (pid p) v 1;
  match h with
  | None => Ret (val_int code, st, p, bufs)
  | Some a =>
      '(_, res) ← read_resource st a;
      '(ptr, _) ← or_undef (payloads st !! res);
      st ← ta_resource_release st a;
      bufs ← buf_dtor bufs ptr;
      Ret (val_int 1, st, p, bufs)
  end.
Definition buffer_raw_length (st : store) (p : ProcMem) (bufs : bufmem) (args : list Val) : result :=
  with_buf st p bufs args (λ _ b, Ret (val_int (b_len b), st, p, bufs)).
End Module.

(** * A buffer as a byte sequence *)
(** Capacities are 0 or powers of two from 16 on. *)
Record holds (b : BufState) (d : list Z) : Prop := {
  hd_len : b_len b = len d;
  hd_bytes : Forall byte d;
  hd_cap : b_cap b = 0 ∨ ∃ k, 0 ≤ k ≤ 26 ∧ b_cap b = 16 * 2 ^ k;
  hd_data : match b_data b with
            | None => b_cap b = 0 ∧ d = []
            | Some sc => ∃ junk, sc = (Some <$> d) ++ junk ∧ len sc = b_cap b
            end
}.
(** [v] is a live buffer of process [pid] at address [ptr]. *)
Definition opened (st : store) (pid : Z) (v : Val) (ptr : Z) : Prop := handle st pid v ptr BUF_DTOR.

Definition BUF_MAX : Z := 2 ^ 30.
Lemma double_to_spec need n : ∀ k,
  0 ≤ k ≤ 26 → 27 - k ≤ Z.of_nat n → need ≤ BUF_MAX → ∃ j, k ≤ j ≤ 26 ∧ double_to n (16 * 2 ^ k) need = Ret (16 * 2 ^ j) ∧ need ≤ 16 * 2 ^ j.
Proof.
  induction n as [|n IH]; intros k Hk Hn Hneed; cbn [double_to]; (destruct (Z.ltb_spec (16 * 2 ^ k) need) as [Hlt|Hge]; [|exists k; split; [lia|done]]); [lia|].
  assert (k < 26).
  { destruct (decide (k = 26)) as [->|]; [|lia]. unfold BUF_MAX in Hneed. change (16 * 2 ^ 26) with (2 ^ 30) in Hlt. lia. }
  assert (E : 16 * 2 ^ k * 2 = 16 * 2 ^ (k + 1)) by (rewrite Z.pow_add_r by lia; lia).
  assert (16 * 2 ^ (k + 1) ≤ 2 ^ 30) by (change (2 ^ 30) with (16 * 2 ^ 26); apply Z.mul_le_mono_nonneg_l; [lia|apply Z.pow_le_mono_r; lia]).
  rewrite E, chk32_ok by lia. cbn [mbind outcome_bind]. destruct (IH (k + 1)) as (j&Hj&Ej&Hle); [lia|lia|done|]. exists j. split; [lia|done].
Qed.
(** Past 2^30 bytes the doubling leaves the range of [int]. *)
Lemma double_to_overflow need n : ∀ k,
  0 ≤ k ≤ 26 → 27 - k ≤ Z.of_nat n → BUF_MAX < need → double_to n (16 * 2 ^ k) need = Undef.
Proof.
  induction n as [|n IH]; intros k Hk Hn Hneed; [lia|]. cbn [double_to]. unfold BUF_MAX in *.
  assert (16 * 2 ^ k ≤ 2 ^ 30) by (change (2 ^ 30) with (16 * 2 ^ 26); apply Z.mul_le_mono_nonneg_l; [lia|apply Z.pow_le_mono_r; lia]).
  destruct (Z.ltb_spec (16 * 2 ^ k) need); [|lia]. destruct (decide (k = 26)) as [->|].
  - reflexivity.
  - assert (E : 16 * 2 ^ k * 2 = 16 * 2 ^ (k + 1)) by (rewrite Z.pow_add_r by lia; lia).
    assert (16 * 2 ^ (k + 1) ≤ 2 ^ 30) by (change (2 ^ 30) with (16 * 2 ^ 26); apply Z.mul_le_mono_nonneg_l; [lia|apply Z.pow_le_mono_r; lia]).
    rewrite E, chk32_ok by lia. cbn [mbind outcome_bind]. apply IH; lia.
Qed.

Section Append.
Context (ok : Z → bool) (b : BufState) (d : list Z) (H : holds b d).
Lemma buf_append s :
  (∀ n, ok n = true) → Forall byte s → len (d ++ s) ≤ BUF_MAX →
  ∃ b1 b2, buf_ensure ok b (len s) = Ret (Some b1) ∧ buf_write b1 s = Ret b2 ∧ holds b2 (d ++ s).
Proof using H.
  intros Hok Hs Hl. destruct H as [Hlen Hb Hcap Hdata]. unfold buf_ensure. rewrite Hlen. rewrite length_app in Hl. unfold BUF_MAX in Hl.
  rewrite chk32_ok by lia. cbn [mbind outcome_bind].
  assert (Hw : ∀ b1, b_len b1 = len d → (b_cap b1 = 0 ∨ ∃ k, 0 ≤ k ≤ 26 ∧ b_cap b1 = 16 * 2 ^ k) → len d + len s ≤ b_cap b1 →
    match b_data b1 with None => b_cap b1 = 0 ∧ d = [] | Some sc => ∃ junk, sc = (Some <$> d) ++ junk ∧ len sc = b_cap b1 end →
    ∃ b2, buf_write b1 s = Ret b2 ∧ holds b2 (d ++ s)).
  { intros b1 E1 E2 E3 E4. unfold buf_write. rewrite E1. destruct (b_data b1) as [sc|].
    - destruct E4 as (junk&->&Hsc). rewrite length_app, length_fmap in Hsc.
      assert (Ej : junk = take (length s) junk ++ drop (length s) junk) by (by rewrite take_drop).
      rewrite Ej. pose proof (sc_copy_at s (Some <$> d) (take (length s) junk) (drop (length s) junk)) as Ec. rewrite length_fmap in Ec.
      rewrite Ec by (done || rewrite length_take; lia). cbn [mbind outcome_bind]. rewrite chk32_ok by lia. cbn [mbind outcome_bind].
      eexists. split; [done|]. split; cbn; [rewrite length_app; lia|by apply Forall_app|done|].
      exists (drop (length s) junk). rewrite fmap_app, <- app_assoc. split; [done|]. rewrite !length_app, !length_fmap, length_drop. lia.
    - destruct E4 as [Hz ->]. assert (s = []) as -> by (destruct s; [done|simpl in *; lia]).
      rewrite bool_decide_eq_true_2 by done. cbn [mbind outcome_bind]. rewrite chk32_ok by done. eexists. split; [done|]. by split. }
  destruct (Z.leb_spec (len d + len s) (b_cap b)) as [Hfit|Hgrow].
  - destruct (Hw b Hlen Hcap Hfit Hdata) as (b2&E&Hb2). eauto.
  - destruct (double_to_spec (len d + len s) 32 (if b_cap b =? 0 then 0 else Z.log2 (b_cap b / 16))) as (j&Hj&Ej&Hle); [| |unfold BUF_MAX; lia|].
    { destruct (Z.eqb_spec (b_cap b) 0); [lia|]. destruct Hcap as [|(k&Hk&->)]; [done|]. rewrite Z.mul_comm, Z.div_mul, Z.log2_pow2 by lia. lia. }
    { destruct (Z.eqb_spec (b_cap b) 0); [lia|]. destruct Hcap as [|(k&Hk&->)]; [done|]. rewrite Z.mul_comm, Z.div_mul, Z.log2_pow2 by lia. lia. }
    replace (16 * 2 ^ (if b_cap b =? 0 then 0 else Z.log2 (b_cap b / 16))) with (if b_cap b =? 0 then 16 else b_cap b) in Ej.
    2: { destruct (Z.eqb_spec (b_cap b) 0); [done|]. destruct Hcap as [|(k&Hk&->)]; [done|]. rewrite (Z.mul_comm 16 (2 ^ k)), Z.div_mul, Z.log2_pow2 by lia. lia. }
    rewrite Ej. cbn [mbind outcome_bind]. rewrite Hok. cbn [negb]. cbv zeta.
    set (old := default [] (b_data b)). assert (Hold : ∃ junk, old = (Some <$> d) ++ junk ∧ len old = b_cap b).
    { unfold old. destruct (b_data b) as [sc|]; [done|]. destruct Hdata as [-> ->]. by exists []. }
    destruct Hold as (junk&Eold&Lold). assert (Hcl : b_cap b ≤ 16 * 2 ^ j) by lia.
    eexists. destruct (Hw (mk_BufState (Some (old ++ replicate (Z.to_nat (16 * 2 ^ j) - length old) None)) (len d) (16 * 2 ^ j))) as (b2&E&Hb2); cbn; try done.
    + right. exists j. split; [|done]. pose proof (Z.log2_nonneg (b_cap b / 16)). destruct (b_cap b =? 0); lia.
    + exists (junk ++ replicate (Z.to_nat (16 * 2 ^ j) - length old) None). rewrite Eold at 1. rewrite <- app_assoc. split; [done|].
      rewrite length_app, length_replicate. lia.
    + exists b2. done.
Qed.
Lemma buf_overflow s : BUF_MAX < len (d ++ s) → buf_ensure ok b (len s) = Undef.
Proof using H.
  intros Hl. destruct H as [Hlen Hb Hcap _]. unfold buf_ensure. rewrite Hlen. rewrite length_app in Hl. unfold chk32, in_i32.
  destruct (_ && _) eqn:E; [|done]. cbn [mbind outcome_bind].
  assert (Hcm : b_cap b ≤ BUF_MAX).
  { destruct Hcap as [->|(k&Hk&->)]; [done|]. change BUF_MAX with (16 * 2 ^ 26). apply Z.mul_le_mono_nonneg_l; [lia|apply Z.pow_le_mono_r; lia]. }
  destruct (Z.leb_spec (len d + len s) (b_cap b)); [lia|]. destruct Hcap as [->|(k&Hk&->)].
  - by rewrite (double_to_overflow _ 32 0) by lia.
  - destruct (Z.eqb_spec (16 * 2 ^ k) 0); [assert (0 < 2 ^ k) by (apply Z.pow_pos_nonneg; lia); lia|]. by rewrite double_to_overflow by lia.
Qed.
Lemma buf_read_spec s n : 0 ≤ s → 0 ≤ n → s + n ≤ len d → buf_read b s n = Ret (take (Z.to_nat n) (drop (Z.to_nat s) d)).
Proof using H.
  intros Hs Hn Hsn. destruct H as [Hlen Hb Hcap Hdata]. unfold buf_read. destruct (b_data b) as [sc|].
  - destruct Hdata as (junk&->&Hsc). unfold sc_read. rewrite length_app, length_fmap in *.
    destruct (Z.leb_spec 0 s), (Z.leb_spec 0 n), (Z.leb_spec (s + n) (Z.of_nat (length d + length junk))); try lia. cbn [andb].
    rewrite drop_app_le by (rewrite length_fmap; lia). rewrite take_app_le by (rewrite length_drop, length_fmap; lia).
    rewrite <- fmap_drop, <- fmap_take. by rewrite (mapM_fmap_Some id Some) by done.
  - destruct Hdata as [_ ->]. simpl in Hsn. assert (n = 0) as -> by lia. cbn. by rewrite drop_nil.
Qed.
End Append.

(** * The operations *)
Inductive bufop :=
| OPush (v : Val) (s : list Z)
| OByte (n : Z)
| OString
| OSlice (s e : Z)
| OLength
| OClose.
Section Refine.
Context (cap stress : Z) (ok : Z → bool).
Definition call (op : bufop) (st : store) (p : ProcMem) (bufs : bufmem) (v : Val) : outcome (Val * store * ProcMem * bufmem) :=
  match op with
  | OPush w _ => buffer_raw_push_str ok st p bufs [v; w]
  | OByte n => buffer_raw_push_byte ok st p bufs [v; val_int n]
  | OString => buffer_raw_to_string cap stress st p bufs [v]
  | OSlice s e => buffer_raw_slice cap stress st p bufs [v; val_int s; val_int e]
  | OLength => buffer_raw_length st p bufs [v]
  | OClose => buffer_raw_close st p bufs [v]
  end.
(** The result on a byte sequence and the sequence afterwards; [None] when the
    buffer is gone. *)
Definition apply_op (op : bufop) (d : list Z) : tree * option (list Z) :=
  match op with
  | OPush _ s => (Imm (val_int (len (d ++ s))), Some (d ++ s))
  | OByte n => if (0 <=? n) && (n <=? 255) then (Imm (val_int (len (d ++ [n]))), Some (d ++ [n])) else (Imm (val_int (-1)), Some d)
  | OString => (TString d, Some d)
  | OSlice s e =>
      (if (0 <=? s) && (e <=? len d) && (s <=? e) then TString (take (Z.to_nat (e - s)) (drop (Z.to_nat s) d)) else Imm (val_int (-1)), Some d)
  | OLength => (Imm (val_int (len d)), Some d)
  | OClose => (Imm (val_int 1), None)
  end.
(** The argument is a string of the store, integers are 48-bit, and the buffer
    stays within 2^30 bytes. *)
Definition op_ok (st : store) (d : list Z) (op : bufop) : Prop :=
  match op with
  | OPush v s => denotes st v (TString s) ∧ Forall byte s ∧ len (d ++ s) ≤ BUF_MAX
  | OByte n => - 2 ^ 47 ≤ n < 2 ^ 47 ∧ len d < BUF_MAX
  | OSlice s e => - 2 ^ 47 ≤ s < 2 ^ 47 ∧ - 2 ^ 47 ≤ e < 2 ^ 47
  | _ => True
  end.

Lemma new_string_frame st p d v st' p' :
  window st p → brk st + cost (TString d) < ADDR_LIMIT → new_string cap stress st p d = Ret (v, st', p') → payloads st' = payloads st ∧ pid p' = pid p.
Proof.
  intros W Hb E. unfold new_string in E. destruct (_ <? STRING_MAX); [|done].
  pose proof (ta_heap_object_size_spec (raw_size (HeapString d))) as (_&_&_&Hs). fold (obj_size (HeapString d)) in Hs. simpl in Hs, Hb. unfold SIZEOF_STRING in Hs. specialize (Hs ltac:(lia)).
  destruct (alloc_window cap stress st p (HeapString d) W) as (w&st1&p1&E1&_&_&_&_&_&Hp&Hpid); [unfold CHUNK_COST in *; lia|].
  unfold val_string in E. rewrite E1 in E. injection E as <- <- <-. done.
Qed.
Lemma with_buf_opened st p bufs args v ptr b k :
  args !! 0%nat = Some v → opened st (pid p) v ptr → bufs !! ptr = Some b → with_buf st p bufs args k = k ptr b.
Proof.
  intros Ha Ho Hb. unfold with_buf, arg. rewrite Ha. cbn [or_undef mbind outcome_bind].
  destruct (handle_open _ _ _ _ _ (-1) Ho) as (E&res&Hr&_&Hpl). rewrite E. cbn [mbind outcome_bind]. rewrite Hr. cbn [mbind outcome_bind]. rewrite Hpl. cbn [or_undef mbind outcome_bind]. by rewrite Hb.
Qed.

(** What an operation on a live buffer leaves behind. *)
Definition leaves (m : outcome (Val * store * ProcMem * bufmem)) (st : store) (p : ProcMem) (bufs : bufmem) (v : Val) (ptr : Z) (r : tree) (d : list Z) : Prop :=
  ∃ w st' p' b', m = Ret (w, st', p', <[ptr := b']> bufs) ∧ denotes st' w r ∧ window st' p' ∧ pid p' = pid p ∧ cells st ⊆ cells st' ∧
    opened st' (pid p) v ptr ∧ holds b' d.
Lemma leaves_int st p bufs v ptr b d n :
  window st p → opened st (pid p) v ptr → holds b d → leaves (Ret (val_int n, st, p, <[ptr := b]> bufs)) st p bufs v ptr (Imm (val_int n)) d.
Proof. intros W Ho Hb. exists (val_int n), st, p, b. split_and!; try done. apply int_denotes. Qed.
Lemma leaves_string st p bufs v ptr b d r :
  window st p → opened st (pid p) v ptr → bufs !! ptr = Some b → holds b d → len r < STRING_MAX → brk st + cost (TString r) < ADDR_LIMIT →
  leaves ('(w, st, p) ← new_string cap stress st p r; Ret (w, st, p, bufs)) st p bufs v ptr (TString r) d.
Proof.
  intros W Ho Hb Hh Hl Hbrk. destruct (new_string_yields cap stress st p r W Hl Hbrk) as (w&st'&p'&E&D&W'&Hs&_). rewrite E. cbn [mbind outcome_bind].
  destruct (new_string_frame _ _ _ _ _ _ W Hbrk E) as [Hp Hpid]. exists w, st', p', b. rewrite insert_id by done. split_and!; try done. by eapply handle_mono.
Qed.
Lemma holds_max b d : holds b d → len d ≤ BUF_MAX.
Proof.
  intros [Hl _ Hcap Hd]. assert (Hc : b_cap b ≤ BUF_MAX).
  { destruct Hcap as [->|(k&Hk&->)]; [done|]. change BUF_MAX with (16 * 2 ^ 26). apply Z.mul_le_mono_nonneg_l; [lia|apply Z.pow_le_mono_r; lia]. }
  destruct (b_data b); [|by destruct Hd as [_ ->]]. destruct Hd as (junk&->&E). rewrite length_app, length_fmap in E. lia.
Qed.
Lemma op_refines op st p bufs v ptr b d d' :
  (∀ n, ok n = true) → window st p → opened st (pid p) v ptr → bufs !! ptr = Some b → holds b d → op_ok st d op →
  brk st + cost (apply_op op d).1 < ADDR_LIMIT → (apply_op op d).2 = Some d' →
  leaves (call op st p bufs v) st p bufs v ptr (apply_op op d).1 d'.
Proof.
  intros Hok W Ho Hb Hh Hop Hbrk Hd'. pose proof (holds_max _ _ Hh) as Hmax. assert (BUF_MAX < STRING_MAX) by done.
  destruct op as [w s|n| |s e| |]; cbn [call apply_op fst snd op_ok] in *; try done.
  - destruct Hop as (Dw&Hs&Hl). injection Hd' as <-. unfold buffer_raw_push_str. rewrite (with_buf_opened _ _ _ _ v ptr b) by done.
    unfold arg. cbn [lookup list_lookup or_undef mbind outcome_bind]. destruct (string_denotes _ _ _ Dw) as [-> ->]. cbn [negb mbind outcome_bind].
    destruct (buf_append ok b d Hh s Hok Hs Hl) as (b1&b2&->&E2&Hh2). cbn [mbind outcome_bind]. rewrite E2. cbn [mbind outcome_bind].
    rewrite (hd_len _ _ Hh2). by apply leaves_int.
  - destruct Hop as [Hn Hl]. unfold buffer_raw_push_byte. rewrite (with_buf_opened _ _ _ _ v ptr b) by done.
    unfold arg. cbn [lookup list_lookup or_undef mbind outcome_bind]. cbv zeta. rewrite val_get_int_id by done. destruct (_ && _) eqn:En; injection Hd' as <-.
    + apply andb_prop in En as [En1%Z.leb_le En2%Z.leb_le].
      destruct (buf_append ok b d Hh [n] Hok) as (b1&b2&E1&E2&Hh2); [constructor; [unfold byte; lia|done]|rewrite length_app; simpl; lia|].
      change (len [n]) with 1 in E1. rewrite E1. cbn [mbind outcome_bind]. rewrite E2. cbn [mbind outcome_bind]. rewrite (hd_len _ _ Hh2). by apply leaves_int.
    + rewrite <- (insert_id bufs ptr b) at 1 by done. by apply leaves_int.
  - injection Hd' as <-. unfold buffer_raw_to_string. rewrite (with_buf_opened _ _ _ _ v ptr b) by done. rewrite (hd_len _ _ Hh).
    rewrite (buf_read_spec b d Hh) by lia. rewrite Nat2Z.id, take_ge by (rewrite length_drop; lia). change (Z.to_nat 0) with O. rewrite drop_0. cbn [mbind outcome_bind].
    apply (leaves_string st p bufs v ptr b d); done || lia.
  - injection Hd' as <-. destruct Hop as [Hs He]. unfold buffer_raw_slice. rewrite (with_buf_opened _ _ _ _ v ptr b) by done.
    unfold arg. cbn [lookup list_lookup or_undef mbind outcome_bind]. cbv zeta. rewrite !val_get_int_id by done. rewrite (hd_len _ _ Hh).
    destruct (_ && _ && _) eqn:En.
    + apply andb_prop in En as [[En1%Z.leb_le En2%Z.leb_le]%andb_prop En3%Z.leb_le]. rewrite (buf_read_spec b d Hh) by lia. cbn [mbind outcome_bind].
      apply (leaves_string st p bufs v ptr b d); try done. rewrite length_take, length_drop. lia.
    + rewrite <- (insert_id bufs ptr b) at 1 by done. by apply leaves_int.
  - injection Hd' as <-. unfold buffer_raw_length. rewrite (with_buf_opened _ _ _ _ v ptr b) by done. rewrite (hd_len _ _ Hh).
    rewrite <- (insert_id bufs ptr b) at 1 by done. by apply leaves_int.
Qed.

(** ** Closing, and values that are not a live buffer of the caller *)
Lemma refused_call op st p bufs v code :
  refused st (pid p) v code →
  call op st p bufs v = Ret (val_int (if code =? 0 then match op with OClose => 1 | _ => -1 end else code), st, p, bufs).
Proof.
  intros H. destruct op; cbn [call]; unfold buffer_raw_push_str, buffer_raw_push_byte, buffer_raw_to_string, buffer_raw_slice, buffer_raw_length, buffer_raw_close, with_buf, arg;
    cbn [lookup list_lookup or_undef mbind outcome_bind]; rewrite H; cbn [mbind outcome_bind]; by destruct (code =? 0).
Qed.
Lemma close_refines st p bufs v ptr b :
  window st p → opened st (pid p) v ptr → bufs !! ptr = Some b →
  ∃ st', call OClose st p bufs v = Ret (val_int 1, st', p, delete ptr bufs) ∧ window st' p ∧ refused st' (pid p) v 0 ∧ dtor_calls st' = dtor_calls st ++ (if ptr =? 0 then [] else [(ptr, BUF_DTOR)]).
Proof.
  intros W Ho Hb. destruct (handle_open _ _ _ _ _ 1 Ho) as (E&res&Hr&Hne&Hpl). cbn [call]. unfold buffer_raw_close, arg. cbn [lookup list_lookup or_undef mbind outcome_bind].
  rewrite E. cbn [mbind outcome_bind]. rewrite Hr. cbn [mbind outcome_bind]. rewrite Hpl. cbn [or_undef mbind outcome_bind].
  destruct (handle_release st p v ptr BUF_DTOR W Ho) as (st'&->&H); [done|]. cbn [mbind outcome_bind].
  unfold buf_dtor. rewrite Hb. exists st'. by split.
Qed.
End Refine.

(** ** Creation *)
Lemma new_refines cap stress st p bufs :
  window st p → 0 < brk st → brk st + NEW_COST < ADDR_LIMIT → (∀ x, is_Some (bufs !! x) → x < brk st) →
  ∃ v st' p' ptr b, buffer_raw_new cap stress st p bufs = Ret (v, st', p', <[ptr := b]> bufs) ∧ opened st' (pid p) v ptr ∧ bufs !! ptr = None ∧
    holds b [] ∧ window st' p' ∧ pid p' = pid p ∧ cells st ⊆ cells st' ∧ ptr < brk st' ≤ brk st + NEW_COST.
Proof.
  intros W H0 Hb Hbufs. destruct (handle_new cap stress st p SIZEOF_BUFSTATE BUF_DTOR W H0 Hb) as (st1&v&st'&p'&E1&E2&Ho&W'&Hp&Hc&Hl); [done|].
  unfold buffer_raw_new. rewrite E1, E2. cbn [mbind outcome_bind]. exists v, st', p', (brk st), (mk_BufState None 0 0). split_and!; try done; try lia.
  - apply eq_None_not_Some. intros Hs'%Hbufs. lia.
  - split; [done|done|by left|done].
Qed.

(** * Properties *)

(** C30: a buffer behaves as a byte sequence.  A new buffer is empty; on the
    owner's live buffer every operation returns the result the sequence gives
    (lengths, the whole text, a slice, -1 for a bad byte or range), leaves the
    new sequence, and touches no other buffer; closing runs the destructor
    once and makes every later operation answer -1, and a second close 1.  A
    value that is no resource is answered with -1 and a buffer owned by
    another actor with -2, with nothing changed. *)
Theorem buffer_refines cap stress ok st p bufs :
  (∀ n, ok n = true) → window st p →
  (0 < brk st → brk st + NEW_COST < ADDR_LIMIT → (∀ x, is_Some (bufs !! x) → x < brk st) →
   ∃ v st' p' ptr b, buffer_raw_new cap stress st p bufs = Ret (v, st', p', <[ptr := b]> bufs) ∧ opened st' (pid p) v ptr ∧ bufs !! ptr = None ∧
     holds b [] ∧ window st' p') ∧
  (∀ op v ptr b d d', opened st (pid p) v ptr → bufs !! ptr = Some b → holds b d → op_ok st d op →
     brk st + cost (apply_op op d).1 < ADDR_LIMIT → (apply_op op d).2 = Some d' →
     ∃ w st' p' b', call cap stress ok op st p bufs v = Ret (w, st', p', <[ptr := b']> bufs) ∧ denotes st' w (apply_op op d).1 ∧ window st' p' ∧
       opened st' (pid p) v ptr ∧ holds b' d') ∧
  (∀ v ptr b, opened st (pid p) v ptr → bufs !! ptr = Some b → ptr ≠ 0 →
     ∃ st', call cap stress ok OClose st p bufs v = Ret (val_int 1, st', p, delete ptr bufs) ∧ dtor_calls st' = dtor_calls st ++ [(ptr, BUF_DTOR)] ∧
       ∀ op bufs', call cap stress ok op st' p bufs' v = Ret (val_int (match op with OClose => 1 | _ => -1 end), st', p, bufs')) ∧
  (∀ op v, val_tag v ≠ TAG_RESOURCE → call cap stress ok op st p bufs v = Ret (val_int (-1), st, p, bufs)) ∧
  (∀ op v owner res, val_tag v = TAG_RESOURCE → lpayload v ≠ 0 → read_resource st (lpayload v) = Ret (owner, res) → owner ≠ pid p →
     call cap stress ok op st p bufs v = Ret (val_int (-2), st, p, bufs)).
Proof.
  intros Hok W. split_and!.
  - intros H0 Hb Hbufs. destruct (new_refines cap stress st p bufs W H0 Hb Hbufs) as (v&st'&p'&ptr&b&?&?&?&?&?&_). by exists v, st', p', ptr, b.
  - intros op v ptr b d d' Ho Hb Hh Hop Hbrk Hd. destruct (op_refines cap stress ok op st p bufs v ptr b d d') as (w&st'&p'&b'&?&?&?&_&_&?&?); try done. by exists w, st', p', b'.
  - intros v ptr b Ho Hb Hp. destruct (close_refines cap stress ok st p bufs v ptr b W Ho Hb) as (st'&E&_&Hr&Hd). exists st'. split; [done|].
    destruct (Z.eqb_spec ptr 0); [done|]. split; [done|]. intros op bufs'. by rewrite (refused_call cap stress ok op st' p bufs' v 0).
  - intros op v Ht. rewrite (refused_call cap stress ok op st p bufs v (-1)); [done|]. by apply refused_cases.
  - intros op v owner res Ht Ha Hr Hne. rewrite (refused_call cap stress ok op st p bufs v (-2)); [done|]. by eapply refused_cases.
Qed.

(** The capacity doubles at [int]: appending past 2^30 bytes is undefined. *)
Theorem buffer_overflow ok b d s : holds b d → BUF_MAX < len (d ++ s) → buf_ensure ok b (len s) = Undef.
Proof. intros H. by apply (buf_overflow ok b d H). Qed.

Definition w_buf : BufState := mk_BufState (Some (filled 16 [65; 66])) 2 16.
Definition w_bufstore : store := mk_store {[ 1024 := Live (HeapResource 1 2048) ]} {[ 2048 := (3072, BUF_DTOR) ]} [] 8192.
Lemma w_buf_window : window w_bufstore w_winproc.
Proof.
  destruct (w_heap_window {[ 1024 := Live (HeapResource 1 2048) ]}) as [W1 W2 W3]; [|by split].
  intros x Hx. apply lookup_singleton_ne. lia.
Qed.
Lemma buffer_refines_witness :
  ∃ w st' p' b', call 4096 0 (λ _, true) (OByte 67) w_bufstore w_winproc {[ 3072 := w_buf ]} (lbox TAG_RESOURCE 1024) = Ret (w, st', p', <[3072 := b']> {[ 3072 := w_buf ]}) ∧
    denotes st' w (Imm (val_int 3)) ∧ holds b' [65; 66; 67].
Proof.
  destruct (buffer_refines 4096 0 (λ _, true) w_bufstore w_winproc {[ 3072 := w_buf ]}) as (_&H&_); [done|apply w_buf_window|].
  destruct (H (OByte 67) (lbox TAG_RESOURCE 1024) 3072 w_buf [65; 66] [65; 66; 67]) as (w&st'&p'&b'&E&D&_&_&Hh).
  - split; [by rewrite lbox_tag|]. split; [by rewrite lbox_payload|]. exists 2048. rewrite lbox_payload. done.
  - done.
  - split; [done|by repeat constructor|right; by exists 0|]. cbn. by exists (replicate 14 None).
  - split; [lia|vm_compute; reflexivity].
  - vm_compute. reflexivity.
  - done.
  - exists w, st', p', b'. done.
Defined.
