(* ===== verification/Registry.v ===== *)
(** The C function and module registry of src/api.c: an array of at most
    [MAX_CFUNCS] functions, an open-addressing hash from names to indices built
    once with 512 slots, and the list of modules with its frozen host prefix. *)
From stdpp Require Import base tactics list gmap strings.
From Stdlib Require Import ZArith Lia.
From S2P Require Import Prelude Symtab.
Open Scope Z_scope.

Definition MAX_CFUNCS : Z := 128.
Definition CFUNC_HASH : Z := 512.
(** The function pointer is a number. *)
Record cfunc := mk_cfunc { cf_name : string; cf_fn : Z; cf_nargs : Z }.
(** [None] for an array that has been freed. *)
Record registry := mk_registry {
  cfuncs : list cfunc (** [cfuncs[0..cfunc_count)] *);
  cfunc_hash : list Z (** indices, -1 = empty *);
  cfunc_hash_cap : Z (** 0 = not built *);
  mod_funcs : option (list (list cfunc));
  mod_nfuncs : option (list Z);
  mod_names : option (list string);
  mod_count : Z;
  mod_cap : Z;
  host_mod_count : Z
}.
Definition registry_new : registry := mk_registry [] [] 0 (Some []) (Some []) (Some []) 0 0 0.
Definition set_cfuncs (r : registry) (fs : list cfunc) (hash : list Z) (cap : Z) : registry :=
  mk_registry fs hash cap (mod_funcs r) (mod_nfuncs r) (mod_names r) (mod_count r) (mod_cap r) (host_mod_count r).

(** * C functions *)
Definition cfunc_names (r : registry) : list string := cf_name <$> cfuncs r.
Definition cfunc_hash_lookup (fuel : nat) (r : registry) (name : string) (h : Z) : outcome Z :=
  let mask := cfunc_hash_cap r - 1 in
  '(_, e) ← probe (name_is (cfunc_names r) name) fuel (cfunc_hash r) mask (Z.land h mask);
  Ret (if e <? 0 then -1 else e).
(** [ok]: whether the [malloc] of the table succeeds. *)
Definition cfunc_hash_insert (ok : bool) (fuel : nat) (r : registry) (idx : Z) : outcome registry :=
  if (cfunc_hash_cap r =? 0) && negb ok then Ret r
  else
    let r := if cfunc_hash_cap r =? 0 then set_cfuncs r (cfuncs r) (replicate (Z.to_nat CFUNC_HASH) (-1)) CFUNC_HASH else r in
    let mask := cfunc_hash_cap r - 1 in
    name ← or_undef (cfunc_names r !! Z.to_nat idx);
    '(i, e) ← probe (name_is (cfunc_names r) name) fuel (cfunc_hash r) mask (Z.land (ta_name_hash name) mask);
    if 0 <=? e then Ret r
    else Ret (set_cfuncs r (cfuncs r) (<[Z.to_nat i := idx]> (cfunc_hash r)) (cfunc_hash_cap r)).
(** [dup]: whether [strdup] succeeds. *)
Definition vm_register (dup ok : bool) (fuel : nat) (r : registry) (name : string) (fn nargs : Z) : outcome registry :=
  let n := Z.of_nat (length (cfuncs r)) in
  if MAX_CFUNCS <=? n then Ret r
  else if negb dup then Ret r
  else cfunc_hash_insert ok fuel (set_cfuncs r (cfuncs r ++ [mk_cfunc name fn nargs]) (cfunc_hash r) (cfunc_hash_cap r)) n.
Definition vm_find_cfunc (fuel : nat) (r : registry) (name : string) : outcome Z :=
  if 0 <? cfunc_hash_cap r then cfunc_hash_lookup fuel r name (ta_name_hash name)
  else Ret (scan_names (cfunc_names r) name 0).

(** * Modules *)
(** The three arrays are reallocated together; an array whose reallocation
    succeeded is freed again when another one failed, while the machine keeps
    pointing to its old place. *)
Definition grown {A} (ok : bool) (a : option A) : option A := if ok then None else a.
Definition push {A} (a : option (list A)) (x : A) : outcome (option (list A)) := l ← or_undef a; Ret (Some (l ++ [x])).
(** [okf], [okn], [okm]: the reallocations; [dup] and [ok] as above for every
    function; an allocation of a qualified name is not checked by the code
    and assumed to succeed. *)
Fixpoint register_all (dup ok : bool) (fuel : nat) (r : registry) (name : string) (fs : list cfunc) : outcome registry :=
  match fs with
  | [] => Ret r
  | f :: fs =>
      r ← vm_register dup ok fuel r (name +:+ "." +:+ cf_name f) (cf_fn f) (cf_nargs f);
      register_all dup ok fuel r name fs
  end.
Definition vm_register_module (okf okn okm dup ok : bool) (fuel : nat) (r : registry) (name : string) (fs : list cfunc) : outcome registry :=
  let full := mod_cap r <=? mod_count r in
  if full && negb (okf && okn && okm) then
    Ret (mk_registry (cfuncs r) (cfunc_hash r) (cfunc_hash_cap r) (grown okf (mod_funcs r)) (grown okn (mod_nfuncs r)) (grown okm (mod_names r))
           (mod_count r) (mod_cap r) (host_mod_count r))
  else
    let cap := if full then if mod_cap r =? 0 then 16 else mod_cap r * 2 else mod_cap r in
    mf ← push (mod_funcs r) fs;
    mn ← push (mod_nfuncs r) (Z.of_nat (length fs));
    mm ← push (mod_names r) name;
    register_all dup ok fuel (mk_registry (cfuncs r) (cfunc_hash r) (cfunc_hash_cap r) mf mn mm (mod_count r + 1) cap (host_mod_count r)) name fs.
(** The [n] names from the front. *)
Fixpoint host_scan (n : nat) (names : list string) (name : string) : outcome bool :=
  match n with
  | O => Ret false
  | S n =>
      match names with
      | [] => Undef
      | m :: names => if bool_decide (m = name) then Ret true else host_scan n names name
      end
  end.
Definition vm_host_module_registered (r : registry) (name : string) : outcome bool :=
  if host_mod_count r <=? 0 then Ret false
  else names ← or_undef (mod_names r); host_scan (Z.to_nat (host_mod_count r)) names name.
Definition vm_seal_host_modules (r : registry) : registry :=
  mk_registry (cfuncs r) (cfunc_hash r) (cfunc_hash_cap r) (mod_funcs r) (mod_nfuncs r) (mod_names r) (mod_count r) (mod_cap r) (mod_count r).
Definition is_builtin_module (r : registry) (name : string) : outcome bool :=
  if bool_decide (name = "net" ∨ name = "timer" ∨ name = "cov") then Ret true
  else vm_host_module_registered r name.

(** * The hash invariant *)
(** An index is first when no earlier function has its name. *)
Definition first_at (names : list string) (n : nat) (name : string) : Prop :=
  names !! n = Some name ∧ ∀ m, (m < n)%nat → names !! m ≠ Some name.
Record reg_ok (tab : list Z) (names : list string) : Prop := {
  r_len : Z.of_nat (length tab) = CFUNC_HASH;
  r_inj : ∀ i j e, tab !! i = Some e → tab !! j = Some e → 0 ≤ e → i = j;
  r_first : ∀ i e, tab !! i = Some e → 0 ≤ e → ∃ name, first_at names (Z.to_nat e) name;
  r_found : ∀ n name, first_at names n name → ∃ d, 0 ≤ d < CFUNC_HASH ∧
    at_slot CFUNC_HASH tab (ta_name_hash name + d) = Some (Z.of_nat n) ∧
    ∀ d', 0 ≤ d' < d → ∃ e, at_slot CFUNC_HASH tab (ta_name_hash name + d') = Some e ∧ 0 ≤ e
}.
Lemma first_unique names n m name : first_at names n name → first_at names m name → n = m.
Proof. intros [Hn Hn'] [Hm Hm']. destruct (Nat.lt_trichotomy n m) as [H|[H|H]]; [by apply Hm' in H|done|by apply Hn' in H]. Qed.
Lemma first_exists names name : name ∈ names → ∃ n, first_at names n name.
Proof.
  intros H. induction names as [|x names IH]; [by apply not_elem_of_nil in H|]. destruct (decide (x = name)) as [->|Hne].
  - exists 0%nat. split; [done|]. intros; lia.
  - apply elem_of_cons in H as [->|H]; [done|]. destruct (IH H) as (n&Hn&Hm). exists (S n). split; [done|].
    intros [|m] Hlt; [by intros [= ->]|]. apply Hm. lia.
Qed.
Lemma scan_first names n name : first_at names n name → scan_names names name 0 = Z.of_nat n.
Proof.
  assert (G : ∀ i, first_at names n name → scan_names names name i = i + Z.of_nat n); [|intros; by rewrite G].
  revert n. induction names as [|x names IH]; intros n i [Hn Hm]; [done|]. cbn [scan_names]. case_bool_decide as E.
  - destruct n as [|n]; [lia|]. by destruct (Hm 0%nat ltac:(lia)); subst.
  - destruct n as [|n]; [by injection Hn as ->|]. rewrite (IH n); [lia|]. split; [done|]. intros m Hlt. apply (Hm (S m)). lia.
Qed.
Lemma scan_missing names name i : name ∉ names → scan_names names name i = -1.
Proof.
  revert i. induction names as [|x names IH]; intros i H; [done|]. apply not_elem_of_cons in H as [Hx H]. cbn [scan_names].
  rewrite bool_decide_eq_false_2 by done. by apply IH.
Qed.

Section Hash.
Context (tab : list Z) (names : list string) (H : reg_ok tab names) (Hload : Z.of_nat (length names) ≤ MAX_CFUNCS).
Lemma reg_empty i : ∃ d e, 0 ≤ d < CFUNC_HASH ∧ at_slot CFUNC_HASH tab (i + d) = Some e ∧ e < 0.
Proof using H Hload.
  assert (∃ j e, tab !! j = Some e ∧ e < 0) as (j&e&Hj&He).
  { destruct (decide (Forall (λ e, 0 ≤ e) tab)) as [Hall|Hn].
    - exfalso. assert (Hle : (length tab ≤ length (seqZ 0 (Z.of_nat (length names))))%nat).
      { apply submseteq_length, NoDup_submseteq.
        - assert (taken tab = tab) as <-; [|apply taken_nodup, H].
          unfold taken. clear -Hall. induction Hall as [|x l Hx _ IH]; [done|]. rewrite filter_cons, decide_True by done. by rewrite IH.
        - intros e [j Hj]%list_elem_of_lookup. apply elem_of_seqZ. rewrite Forall_lookup in Hall. specialize (Hall j e Hj). cbv beta in Hall.
          destruct (r_first _ _ H j e Hj Hall) as (nm&Hnm&_). apply lookup_lt_Some in Hnm. lia. }
      rewrite length_seqZ in Hle. pose proof (r_len _ _ H). unfold CFUNC_HASH, MAX_CFUNCS in *. lia.
    - apply not_Forall_Exists in Hn; [|apply _]. apply Exists_exists in Hn as (e&[j Hj]%list_elem_of_lookup&He). exists j, e. split; [done|]. simpl in He. lia. }
  pose proof (r_len _ _ H) as Hlen. apply lookup_lt_Some in Hj as Hjl.
  exists ((Z.of_nat j - i) mod CFUNC_HASH), e. split; [by apply Z.mod_pos_bound|]. split; [|done]. unfold at_slot. rewrite Zplus_mod_idemp_r.
  replace (i + (Z.of_nat j - i)) with (Z.of_nat j) by lia. by rewrite Z.mod_small, Nat2Z.id by lia.
Qed.

(** The walk for a name ends at its first index or, for a new name, at an
    empty slot. *)
Lemma reg_probe more name fuel :
  CFUNC_HASH ≤ Z.of_nat fuel → let h := ta_name_hash name in
  ∃ d e, 0 ≤ d < CFUNC_HASH ∧ probe (name_is (names ++ more) name) fuel tab (CFUNC_HASH - 1) (Z.land h (CFUNC_HASH - 1)) = Ret ((h + d) mod CFUNC_HASH, e) ∧
    at_slot CFUNC_HASH tab (h + d) = Some e ∧
    (∀ d', 0 ≤ d' < d → ∃ e', at_slot CFUNC_HASH tab (h + d') = Some e' ∧ 0 ≤ e') ∧
    (0 ≤ e ∧ first_at names (Z.to_nat e) name ∨ e < 0 ∧ name ∉ names).
Proof using H Hload.
  intros Hf h. assert (Hp : CFUNC_HASH = 2 ^ 9) by done. pose proof (r_len _ _ H) as Hlen.
  rewrite (land_mask CFUNC_HASH 9 ltac:(done) Hp).
  assert (Hdef : ∀ i e, at_slot CFUNC_HASH tab i = Some e → 0 ≤ e → ∃ nm, first_at names (Z.to_nat e) nm ∧ name_is (names ++ more) name e = Ret (bool_decide (nm = name))).
  { intros i e Hi He. destruct (r_first _ _ H _ e Hi He) as (nm&Hnm). exists nm. split; [done|]. destruct Hnm as [Hnm _]. unfold name_is.
    by rewrite lookup_app_l, Hnm by (by eapply lookup_lt_Some). }
  destruct (probe_finds CFUNC_HASH 9 ltac:(done) Hp tab Hlen (name_is (names ++ more) name) fuel (h mod CFUNC_HASH)) as (d&e&Hd&->&Hs1&Hs2&Hs3).
  { by apply Z.mod_pos_bound. } { intros i e Hi He. destruct (Hdef i e Hi He) as (nm&_&E). eauto. }
  { destruct (reg_empty (h mod CFUNC_HASH)) as (d&e&Hd&He). exists d, e. split; [lia|done]. }
  exists d, e. rewrite Zplus_mod_idemp_l. rewrite (at_slot_mod CFUNC_HASH tab) in Hs1.
  assert (d < CFUNC_HASH).
  { destruct (reg_empty (h mod CFUNC_HASH)) as (d0&e0&Hd0&He0&Hneg0). destruct (decide (d ≤ d0)); [lia|].
    destruct (Hs3 d0) as (e'&He'&Hpos&_); [lia|]. rewrite He0 in He'. injection He' as ->. lia. }
  split; [lia|]. split; [done|]. split; [done|]. split.
  { intros d' Hd'. destruct (Hs3 d' Hd') as (e'&He'&Hpos&_). rewrite (at_slot_mod CFUNC_HASH tab) in He'. eauto. }
  destruct Hs2 as [Hneg|[Hpos Ht]].
  - right. split; [done|]. intros Hin. destruct (first_exists _ _ Hin) as (n&Hn). destruct (r_found _ _ H n name Hn) as (dk&Hdk&Hk1&Hk2). fold h in Hk1, Hk2.
    destruct (Z.lt_trichotomy d dk) as [Hlt|[->|Hgt]].
    + destruct (Hk2 d) as (e'&He'&?); [lia|]. rewrite Hs1 in He'. injection He' as ->. lia.
    + rewrite Hs1 in Hk1. injection Hk1 as ->. lia.
    + destruct (Hs3 dk) as (e'&He'&?&Hf'); [lia|]. rewrite (at_slot_mod CFUNC_HASH tab), Hk1 in He'. injection He' as <-.
      destruct (Hdef _ _ Hk1 ltac:(lia)) as (nm&Hnm&E). rewrite Nat2Z.id in Hnm. destruct Hn as [Hn _], Hnm as [Hnm _]. rewrite Hn in Hnm. injection Hnm as <-.
      rewrite Hf' in E. by rewrite bool_decide_eq_true_2 in E.
  - left. split; [done|]. destruct (Hdef _ _ Hs1 Hpos) as (nm&Hnm&E). rewrite Ht in E. injection E as E. symmetry in E. apply bool_decide_eq_true in E. by subst.
Qed.
Lemma reg_lookup fuel r name :
  CFUNC_HASH ≤ Z.of_nat fuel → cfunc_names r = names → cfunc_hash r = tab → cfunc_hash_cap r = CFUNC_HASH →
  vm_find_cfunc fuel r name = Ret (scan_names names name 0).
Proof using H Hload.
  intros Hf En Et Ec. unfold vm_find_cfunc, cfunc_hash_lookup. rewrite Ec, En, Et. change (0 <? CFUNC_HASH) with true. cbn iota. cbv zeta.
  destruct (reg_probe [] name fuel Hf) as (d&e&_&E&_&_&Hr). rewrite app_nil_r in E. rewrite E. cbn [mbind outcome_bind]. f_equal.
  destruct Hr as [[Hpos Hfirst]|[Hneg Habs]].
  - destruct (Z.ltb_spec e 0); [lia|]. rewrite (scan_first _ _ _ Hfirst). lia.
  - destruct (Z.ltb_spec e 0); [|lia]. by rewrite scan_missing.
Qed.
End Hash.

Lemma first_app names x n name :
  first_at (names ++ [x]) n name ↔ first_at names n name ∨ n = length names ∧ name = x ∧ x ∉ names.
Proof.
  split.
  - intros [Hn Hm]. apply lookup_app_Some in Hn as [Hn|[Hge Hn]].
    + left. split; [done|]. intros m Hlt Hx. apply (Hm m Hlt). apply lookup_app_l_Some. done.
    + right. destruct (n - length names)%nat eqn:E; [|done]. injection Hn as ->. split; [lia|]. split; [done|].
      intros [m Hx]%list_elem_of_lookup. apply lookup_lt_Some in Hx as Hlt. apply (Hm m); [lia|]. by apply lookup_app_l_Some.
  - intros [[Hn Hm]|(->&->&Hx)].
    + apply lookup_lt_Some in Hn as Hlt. split; [by apply lookup_app_l_Some|]. intros m Hlt'. rewrite lookup_app_l by lia. by apply Hm.
    + split; [by apply list_lookup_middle|]. intros m Hlt. rewrite lookup_app_l by lia. intros E. apply Hx. by eapply list_elem_of_lookup_2.
Qed.
Lemma reg_insert tab names name r fuel fs ok :
  reg_ok tab names → Z.of_nat (length names) < MAX_CFUNCS → CFUNC_HASH ≤ Z.of_nat fuel →
  cfuncs r = fs → cf_name <$> fs = names ++ [name] →
  (cfunc_hash r = tab ∧ cfunc_hash_cap r = CFUNC_HASH ∨ cfunc_hash_cap r = 0 ∧ ok = true ∧ tab = replicate (Z.to_nat CFUNC_HASH) (-1)) →
  ∃ tab', cfunc_hash_insert ok fuel r (Z.of_nat (length names)) = Ret (set_cfuncs r fs tab' CFUNC_HASH) ∧ reg_ok tab' (names ++ [name]).
Proof.
  intros H Hl Hf Efs Enames Hcap. unfold cfunc_hash_insert.
  assert ((cfunc_hash_cap r =? 0) && negb ok = false) as -> by (destruct Hcap as [[_ ->]|(->&->&_)]; done). cbv zeta.
  set (r1 := if cfunc_hash_cap r =? 0 then _ else r).
  assert (E1 : r1 = set_cfuncs r fs tab CFUNC_HASH) by (subst r1; destruct Hcap as [[E Ec]|(->&_&->)]; [rewrite Ec|by rewrite Efs]; cbn; destruct r; cbn in *; by subst).
  rewrite E1. unfold cfunc_names. cbn [cfuncs cfunc_hash cfunc_hash_cap set_cfuncs]. rewrite Enames, Nat2Z.id, list_lookup_middle by done. cbn [or_undef mbind outcome_bind].
  destruct (reg_probe tab names H ltac:(lia) [name] name fuel Hf) as (d&e&Hd&E&Hat&Hbefore&Hr). rewrite E. cbn [mbind outcome_bind]. clear E E1 r1.
  destruct Hr as [[Hpos Hfirst]|[Hneg Hnew]].
  - destruct (Z.leb_spec 0 e); [|lia]. exists tab. split; [done|]. destruct H as [Hlen Hinj Hfst Hfound]. split; [done|done| |].
    + intros i e' Hi He'. destruct (Hfst i e' Hi He') as (nm&Hnm). exists nm. apply first_app. by left.
    + intros n nm Hn. apply first_app in Hn as [Hn|(_&->&Hno)]; [by apply Hfound|]. destruct Hfirst as [Hx _]. exfalso. apply Hno. by eapply list_elem_of_lookup_2.
  - destruct (Z.leb_spec 0 e); [lia|]. set (h := ta_name_hash name) in *. set (j := Z.to_nat ((h + d) mod CFUNC_HASH)).
    assert (Hj : tab !! j = Some e) by done. pose proof (lookup_lt_Some _ _ _ Hj) as Hjl. destruct H as [Hlen Hinj Hfst Hfound].
    exists (<[j := Z.of_nat (length names)]> tab). split; [by unfold set_cfuncs|].
    assert (Hother : ∀ x e', 0 ≤ e' → at_slot CFUNC_HASH tab x = Some e' → at_slot CFUNC_HASH (<[j := Z.of_nat (length names)]> tab) x = Some e').
    { intros x e' He' Hx. unfold at_slot in *. rewrite list_lookup_insert_ne; [done|]. intros Ej. rewrite <- Ej, Hj in Hx. injection Hx as ->. lia. }
    assert (Hrange : ∀ i e', tab !! i = Some e' → 0 ≤ e' → e' < Z.of_nat (length names)).
    { intros i e' Hi He'. destruct (Hfst i e' Hi He') as (nm&Hnm&_). apply lookup_lt_Some in Hnm. lia. }
    split.
    + by rewrite length_insert.
    + intros a b e' Ha Hb He'. rewrite !list_lookup_insert_Some in *. destruct Ha as [(Ea&Ea'&_)|[Na Ha]], Hb as [(Eb&Eb'&_)|[Nb Hb]]; [congruence| | |by eapply Hinj].
      * pose proof (Hrange b _ Hb He'). lia.
      * pose proof (Hrange a _ Ha He'). lia.
    + intros a e' Ha He'. apply list_lookup_insert_Some in Ha as [(_&<-&_)|[_ Ha]].
      * exists name. rewrite Nat2Z.id. apply first_app. by right.
      * destruct (Hfst a e' Ha He') as (nm&Hnm). exists nm. apply first_app. by left.
    + intros n nm Hn. apply first_app in Hn as [Hn|(->&->&_)].
      * destruct (Hfound n nm Hn) as (dk&Hdk&Hk1&Hk2). exists dk. split; [done|]. split; [apply Hother; [lia|done]|].
        intros d' Hd'. destruct (Hk2 d' Hd') as (e'&He'&?). exists e'. split; [by apply Hother|done].
      * exists d. split; [lia|]. fold h. split.
        { unfold at_slot. fold j. by apply list_lookup_insert_eq. }
        intros d' Hd'. destruct (Hbefore d' Hd') as (e'&He'&?). exists e'. split; [by apply Hother|done].
Qed.

(** * The abstract registry *)
Inductive reg_op :=
| OpFn (name : string) (fn nargs : Z)
| OpModule (name : string) (fs : list cfunc)
| OpSeal.
Definition exec_op (fuel : nat) (op : reg_op) (r : registry) : outcome registry :=
  match op with
  | OpFn name fn nargs => vm_register true true fuel r name fn nargs
  | OpModule name fs => vm_register_module true true true true true fuel r name fs
  | OpSeal => Ret (vm_seal_host_modules r)
  end.
Fixpoint run_ops (fuel : nat) (ops : list reg_op) (r : registry) : outcome registry :=
  match ops with
  | [] => Ret r
  | op :: ops => r ← exec_op fuel op r; run_ops fuel ops r
  end.

(** What was registered, in order; the modules, and the host's among them. *)
Record reg_view := mk_view { v_funcs : list cfunc; v_mods : list string; v_host : list string }.
Definition qualified (name : string) (fs : list cfunc) : list cfunc :=
  (λ f, mk_cfunc (name +:+ "." +:+ cf_name f) (cf_fn f) (cf_nargs f)) <$> fs.
Definition add_funcs (s : reg_view) (fs : list cfunc) : reg_view := mk_view (take (Z.to_nat MAX_CFUNCS) (v_funcs s ++ fs)) (v_mods s) (v_host s).
Definition view_op (s : reg_view) (op : reg_op) : reg_view :=
  match op with
  | OpFn name fn nargs => add_funcs s [mk_cfunc name fn nargs]
  | OpModule name fs => add_funcs (mk_view (v_funcs s) (v_mods s ++ [name]) (v_host s)) (qualified name fs)
  | OpSeal => mk_view (v_funcs s) (v_mods s) (v_mods s)
  end.
Definition view_of (ops : list reg_op) : reg_view := foldl view_op (mk_view [] [] []) ops.

Record reg_refines (r : registry) (s : reg_view) : Prop := {
  rf_funcs : cfuncs r = v_funcs s;
  rf_max : Z.of_nat (length (cfuncs r)) ≤ MAX_CFUNCS;
  rf_hash : cfuncs r = [] ∧ cfunc_hash_cap r = 0 ∨ cfunc_hash_cap r = CFUNC_HASH ∧ reg_ok (cfunc_hash r) (cfunc_names r);
  rf_mf : is_Some (mod_funcs r);
  rf_mn : is_Some (mod_nfuncs r);
  rf_mods : mod_names r = Some (v_mods s);
  rf_count : mod_count r = Z.of_nat (length (v_mods s));
  rf_host : host_mod_count r = Z.of_nat (length (v_host s)) ∧ v_host s `prefix_of` v_mods s
}.

Lemma reg_ok_nil : reg_ok (replicate (Z.to_nat CFUNC_HASH) (-1)) [].
Proof.
  assert (Hneg : ∀ i e, replicate (Z.to_nat CFUNC_HASH) (-1) !! i = Some e → e = -1) by (intros i e [-> _]%lookup_replicate; done).
  split.
  - by rewrite length_replicate.
  - intros i j e Hi. apply Hneg in Hi. lia.
  - intros i e Hi. apply Hneg in Hi. lia.
  - intros n name [Hn _]. done.
Qed.
Lemma register_refines fuel r s name fn nargs :
  CFUNC_HASH ≤ Z.of_nat fuel → reg_refines r s →
  ∃ r', vm_register true true fuel r name fn nargs = Ret r' ∧ reg_refines r' (add_funcs s [mk_cfunc name fn nargs]).
Proof.
  intros Hf [Ef Hm Hh H1 H2 H3 H4 H5]. unfold vm_register, add_funcs. cbv zeta. rewrite <- Ef. destruct (Z.leb_spec MAX_CFUNCS (Z.of_nat (length (cfuncs r)))) as [Hfull|Hroom].
  - exists r. split; [done|]. rewrite take_app_length' by (unfold MAX_CFUNCS in *; lia). done.
  - cbn [negb]. set (f := mk_cfunc name fn nargs). set (r0 := set_cfuncs r _ _ _).
    assert (Hl : length (cfuncs r) = length (cfunc_names r)) by (unfold cfunc_names; by rewrite length_fmap). rewrite Hl.
    destruct (reg_insert (if cfunc_hash_cap r =? 0 then replicate (Z.to_nat CFUNC_HASH) (-1) else cfunc_hash r) (cfunc_names r) name r0 fuel (cfuncs r ++ [f]) true) as (tab'&E&Hok'); try done.
    + destruct Hh as [[E0 ->]|[-> Hok]]; [|done]. unfold cfunc_names. rewrite E0. apply reg_ok_nil.
    + by rewrite <- Hl.
    + unfold cfunc_names. by rewrite fmap_app.
    + cbn. destruct Hh as [[_ ->]|[-> _]]; [by right|by left].
    + eexists. split; [exact E|]. rewrite take_ge by (rewrite length_app; unfold MAX_CFUNCS in *; simpl; lia).
      split; cbn; try done; [rewrite length_app; unfold MAX_CFUNCS in *; simpl; lia|]. right. split; [done|]. unfold cfunc_names. cbn. by rewrite fmap_app.
Qed.
Lemma take_take_app {A} n (l k m : list A) : take n (take n (l ++ k) ++ m) = take n (l ++ k ++ m).
Proof.
  rewrite app_assoc. set (x := l ++ k). destruct (decide (length x ≤ n)%nat) as [H|H]; [by rewrite (take_ge x n) by done|].
  rewrite (take_app_le x m n) by lia. rewrite take_app_le; [|rewrite length_take; lia]. by rewrite take_take, Nat.min_id.
Qed.
Lemma register_all_refines fuel name fs : ∀ r s,
  CFUNC_HASH ≤ Z.of_nat fuel → reg_refines r s → ∃ r', register_all true true fuel r name fs = Ret r' ∧ reg_refines r' (add_funcs s (qualified name fs)).
Proof.
  induction fs as [|f fs IH]; intros r s Hf Hr; cbn [register_all].
  - exists r. split; [done|]. unfold add_funcs. cbn. rewrite app_nil_r, take_ge; [by destruct s|]. destruct Hr as [<- Hm _ _ _ _ _ _]. unfold MAX_CFUNCS in *. lia.
  - destruct (register_refines fuel r s (name +:+ "." +:+ cf_name f) (cf_fn f) (cf_nargs f) Hf Hr) as (r1&E1&Hr1). rewrite E1. cbn [mbind outcome_bind].
    destruct (IH r1 _ Hf Hr1) as (r2&E2&Hr2). exists r2. split; [done|]. unfold add_funcs in *. cbn in Hr2 |- *. by rewrite take_take_app in Hr2.
Qed.
Lemma exec_refines fuel r s op :
  CFUNC_HASH ≤ Z.of_nat fuel → reg_refines r s → ∃ r', exec_op fuel op r = Ret r' ∧ reg_refines r' (view_op s op).
Proof.
  intros Hf Hr. destruct op as [name fn nargs|name fs|]; cbn [exec_op view_op]; [by apply register_refines| |].
  - unfold vm_register_module. cbn [andb negb]. rewrite andb_false_r. cbv zeta. destruct Hr as [Ef Hm Hh [mf H1] [mn H2] H3 H4 [H5 H6]]. rewrite H1, H2, H3. cbn [push or_undef mbind outcome_bind].
    apply register_all_refines; [done|]. split; cbn; try done; [rewrite H4, length_app; simpl; lia|]. split; [done|]. by apply prefix_app_r.
  - eexists. split; [done|]. destruct Hr as [Ef Hm Hh H1 H2 H3 H4 [H5 H6]]. split; cbn; try done.
Qed.
Lemma run_refines fuel ops : ∀ r s,
  CFUNC_HASH ≤ Z.of_nat fuel → reg_refines r s → ∃ r', run_ops fuel ops r = Ret r' ∧ reg_refines r' (foldl view_op s ops).
Proof.
  induction ops as [|op ops IH]; intros r s Hf Hr; [by exists r|]. cbn [run_ops foldl].
  destruct (exec_refines fuel r s op Hf Hr) as (r1&->&Hr1). cbn [mbind outcome_bind]. by apply IH.
Qed.
Lemma refines_new : reg_refines registry_new (mk_view [] [] []).
Proof. split; cbn; try done; by left. Qed.
Lemma host_scan_spec host mods name :
  host `prefix_of` mods → host_scan (length host) mods name = Ret (bool_decide (name ∈ host)).
Proof.
  intros [k ->]. induction host as [|m host IH]; [done|]. cbn [length host_scan app]. destruct (decide (m = name)) as [->|E].
  - by rewrite !bool_decide_eq_true_2 by (done || constructor).
  - rewrite (bool_decide_eq_false_2 (m = name)), IH by done. f_equal. apply bool_decide_ext. rewrite elem_of_cons. naive_solver.
Qed.
Lemma find_refines fuel r s name :
  CFUNC_HASH ≤ Z.of_nat fuel → reg_refines r s → vm_find_cfunc fuel r name = Ret (scan_names (cf_name <$> v_funcs s) name 0).
Proof.
  intros Hf [Ef Hm Hh _ _ _ _ _]. rewrite <- Ef. fold (cfunc_names r). destruct Hh as [[E0 Ec]|[Ec Hok]].
  - unfold vm_find_cfunc. rewrite Ec. done.
  - apply (reg_lookup (cfunc_hash r) (cfunc_names r) Hok); try done. unfold cfunc_names. by rewrite length_fmap.
Qed.
Lemma builtin_refines r s name :
  reg_refines r s → is_builtin_module r name = Ret (bool_decide (name ∈ ["net"; "timer"; "cov"] ++ v_host s)).
Proof.
  intros [_ _ _ _ _ H3 _ [H5 H6]]. unfold is_builtin_module. destruct (decide (name = "net" ∨ name = "timer" ∨ name = "cov")) as [E|E]; [rewrite (bool_decide_eq_true_2 (name = "net" ∨ _)) by done|rewrite (bool_decide_eq_false_2 (name = "net" ∨ _)) by done].
  - rewrite bool_decide_eq_true_2; [done|]. apply elem_of_app. left. rewrite !elem_of_cons. tauto.
  - assert (Hb : bool_decide (name ∈ v_host s) = bool_decide (name ∈ ["net"; "timer"; "cov"] ++ v_host s)).
    { apply bool_decide_ext. rewrite elem_of_app, !elem_of_cons, elem_of_nil. tauto. }
    unfold vm_host_module_registered. rewrite H5, H3. destruct (Z.leb_spec (Z.of_nat (length (v_host s))) 0).
    + destruct (v_host s); [|simpl in *; lia]. rewrite <- Hb. done.
    + cbn [or_undef mbind outcome_bind]. by rewrite Nat2Z.id, host_scan_spec, Hb.
Qed.

(** * Properties *)

(** C31: whatever is registered, in whatever order, the registry keeps the
    first [MAX_CFUNCS] functions; a lookup terminates and gives the index of
    the first function of that name, exactly as a linear search would, or -1;
    and the test for a builtin module depends only on the modules registered
    before the last seal. *)
Theorem registry_refines ops :
  ∃ r, run_ops 512 ops registry_new = Ret r ∧ cfuncs r = v_funcs (view_of ops) ∧
    (∀ name, vm_find_cfunc 512 r name = Ret (scan_names (cf_name <$> v_funcs (view_of ops)) name 0)) ∧
    (∀ name, is_builtin_module r name = Ret (bool_decide (name ∈ ["net"; "timer"; "cov"] ++ v_host (view_of ops)))).
Proof.
  destruct (run_refines 512 ops registry_new _ ltac:(done) refines_new) as (r&E&Hr). exists r. split; [done|].
  split; [apply Hr|]. split; intros name; [by apply find_refines|by apply builtin_refines].
Qed.

(** A table that could not be allocated at the first registration is built by
    the second one, without the function registered before: that function is
    in the array and is not found any more. *)
Theorem registry_oom_loses :
  ∃ r1 r2, vm_register true false 512 registry_new "print" 1 1 = Ret r1 ∧ vm_find_cfunc 512 r1 "print" = Ret 0 ∧
    vm_register true true 512 r1 "vm.spawn" 2 1 = Ret r2 ∧ cfunc_names r2 = ["print"; "vm.spawn"] ∧ vm_find_cfunc 512 r2 "print" = Ret (-1).
Proof. eexists _, _. split; [vm_compute; reflexivity|]. split; [vm_compute; reflexivity|]. split; [vm_compute; reflexivity|]. split; vm_compute; reflexivity. Qed.
