(* ===== verification/Vmmod.v ===== *)
(** The [vm] module of src/api.c: the program's arguments, queries of the
    registry, and the token vectors a process keeps for the parser.

    A token vector is a malloc'd [TokVec] with its array of entries and the
    copies of its strings, which nothing else points to; the vectors of a
    process form a linked list.  [toks] is that memory of one process. *)
From stdpp Require Import base tactics list gmap strings.
From Stdlib Require Import ZArith Lia Ascii.
From S2P Require Import Prelude Values Heap Resource Gc GcCorrect GcSpec Tree Alloc Copy Symtab Cmodule Str Registry.
Open Scope Z_scope.

(** * Arguments and registry queries *)
Section Queries.
Context (cap stress : Z) (g_argv : list string).

Definition vm_get_arg_fn (st : store) (p : ProcMem) (args : list Val) : outcome (Val * store * ProcMem) :=
  let start := if (2 <=? len g_argv) && bool_decide (g_argv !! 1%nat = Some "--bootstrap" ∨ g_argv !! 1%nat = Some "--bootstrap-emit") then 2 else 1 in
  idx ← (if 1 <=? len args then v ← arg args 0; Ret (if val_is_int v then i32 (val_get_int v) else 0) else Ret 0);
  arg_idx ← chk32 (start + idx);
  if len g_argv <=? arg_idx then new_string cap stress st p []
  else if arg_idx <? 0 then Undef
  else a ← or_undef (g_argv !! Z.to_nat arg_idx); new_string cap stress st p (chars a).
End Queries.

(** The name a symbol or a string spells. *)
Definition name_arg (t : symtab) (st : store) (v : Val) : outcome (option string) :=
  if val_is_symbol v then Ret (vm_symbol_name t (val_get_symbol v))
  else if val_is_string v then d ← read_string st v; Ret (Some (nul_string d))
  else Ret None.
Definition vm_cfunc_index_fn (r : registry) (t : symtab) (st : store) (args : list Val) : outcome Val :=
  v ← arg args 0;
  name ← name_arg t st v;
  match name with
  | None => Ret (val_int (-1))
  | Some name => Ret (val_int (scan_names (cfunc_names r) name 0))
  end.
Definition vm_is_builtin_module_fn (r : registry) (st : store) (args : list Val) : outcome Val :=
  v ← arg args 0;
  if negb (val_is_string v) then Ret val_false
  else d ← read_string st v; b ← is_builtin_module r (nul_string d); Ret (val_bool b).
(** The reader behind it is a stub that returns nil; the copy of the text is
    made and freed around it. *)
Definition parse_source : Val := val_nil.
Definition vm_parse_source_fn (dup : bool) (st : store) (args : list Val) : outcome Val :=
  v ← arg args 0;
  if negb (val_is_string v) then Ret val_nil
  else _ ← read_string st v; if negb dup then Ret val_nil else Ret parse_source.

(** * Token vectors *)

(** A [char *] member: NULL, its own block, or a freed one. *)
Inductive cstr := SNull | SOwn (d : list Z) | SFreed.
Record TokEntry := mk_TokEntry { type_idx : Z; val_type : Z; te_num : Z; te_str : cstr }.
Definition TokEntry_zero : TokEntry := mk_TokEntry 0 0 0 SNull.
(** [tv_entries] is [None] once the array has been freed; an address is
    positive, 0 is NULL. *)
Record TokVec := mk_TokVec { tv_next : Z; tv_id : Z; tv_len : Z; tv_entries : option (list TokEntry) }.
Record toks := mk_toks { tk_mem : gmap Z TokVec; tok_vecs : Z; tok_next_id : Z; tk_brk : Z }.
Definition toks_new : toks := mk_toks ∅ 0 0 16.

Section Tokens.
Context (cap stress : Z) (fuel sym_fuel : nat).

Fixpoint find_loop (n : nat) (m : gmap Z TokVec) (v id : Z) : outcome Z :=
  if v =? 0 then Ret 0
  else
    match n with
    | O => NoFuel
    | S n => x ← or_undef (m !! v); if tv_id x =? id then Ret v else find_loop n m (tv_next x) id
    end.
(** The address of the vector, 0 for none. *)
Definition tok_find (s : toks) (handle : Val) : outcome Z := find_loop fuel (tk_mem s) (tok_vecs s) (i32 (val_get_int handle)).

(** [link] is the place that points to [v]: the head, or the [next] of a
    vector. *)
Definition set_link (s : toks) (link : option Z) (v : Z) : outcome toks :=
  match link with
  | None => Ret (mk_toks (tk_mem s) v (tok_next_id s) (tk_brk s))
  | Some a =>
      x ← or_undef (tk_mem s !! a);
      Ret (mk_toks (<[a := mk_TokVec v (tv_id x) (tv_len x) (tv_entries x)]> (tk_mem s)) (tok_vecs s) (tok_next_id s) (tk_brk s))
  end.
Fixpoint unlink_loop (n : nat) (s : toks) (link : option Z) (v vec : Z) : outcome toks :=
  if v =? 0 then Ret s
  else if v =? vec then x ← or_undef (tk_mem s !! vec); set_link s link (tv_next x)
  else
    match n with
    | O => NoFuel
    | S n => x ← or_undef (tk_mem s !! v); unlink_loop n s (Some v) (tv_next x) vec
    end.
Definition tok_unlink (s : toks) (vec : Z) : outcome toks := unlink_loop fuel s None (tok_vecs s) vec.

(** The number of elements. *)
Fixpoint list_count (n : nat) (st : store) (cur : Val) (len : Z) : outcome Z :=
  if val_is_pair cur then
    match n with
    | O => NoFuel
    | S n => len ← chk32 (len + 1); '(_, next) ← read_pair st cur; list_count n st next len
    end
  else Ret len.
Definition entry_of (st : store) (item : Val) : outcome TokEntry :=
  '(type_val, val_val) ← read_pair st item;
  let ty := if val_is_symbol type_val then i32 (val_get_symbol type_val) else 0 in
  if val_is_int val_val then Ret (mk_TokEntry ty 1 (val_get_int val_val) SNull)
  else if val_is_string val_val then d ← read_string st val_val; Ret (mk_TokEntry ty 2 0 (SOwn d))
  else Ret (mk_TokEntry ty 0 0 SNull).
(** [for (i = 0; i < len; i++)] over the calloc'd array. *)
Fixpoint fill_loop (n : nat) (st : store) (cur : Val) (i : nat) (es : list TokEntry) : outcome (list TokEntry) :=
  match n with
  | O => Ret es
  | S n =>
      '(item, next) ← read_pair st cur;
      e ← entry_of st item;
      if (i <? length es)%nat then fill_loop n st next (S i) (<[i := e]> es) else Undef
  end.
Definition vm_make_tok_vec_fn (s : toks) (st : store) (args : list Val) : outcome (Val * toks) :=
  l ← arg args 0;
  if negb (val_is_pair l) then Ret (val_int (-1), s)
  else
    n ← list_count fuel st l 0;
    let id := tok_next_id s in
    next_id ← chk32 (tok_next_id s + 1);
    es ← fill_loop (Z.to_nat n) st l 0 (replicate (Z.to_nat n) TokEntry_zero);
    let a := tk_brk s in
    Ret (val_int id, mk_toks (<[a := mk_TokVec (tok_vecs s) id n (Some es)]> (tk_mem s)) a next_id (a + 32)).

Definition eof_symbol (t : symtab) : outcome (Val * symtab) :=
  '(id, t) ← vm_intern_symbol true true sym_fuel t "eof"; Ret (val_symbol id, t).
Definition vm_tok_type_fn (s : toks) (t : symtab) (args : list Val) : outcome (Val * symtab) :=
  h ← arg args 0;
  vec ← tok_find s h;
  v1 ← arg args 1;
  let pos := i32 (val_get_int v1) in
  if vec =? 0 then Ret (val_nil, t)
  else
    x ← or_undef (tk_mem s !! vec);
    if (pos <? 0) || (tv_len x <=? pos) then eof_symbol t
    else
      es ← or_undef (tv_entries x);
      e ← or_undef (es !! Z.to_nat pos);
      Ret (val_symbol (u32 (type_idx e)), t).
Definition vm_tok_val_fn (s : toks) (st : store) (p : ProcMem) (args : list Val) : outcome (Val * store * ProcMem) :=
  h ← arg args 0;
  vec ← tok_find s h;
  v1 ← arg args 1;
  let pos := i32 (val_get_int v1) in
  if vec =? 0 then Ret (val_nil, st, p)
  else
    x ← or_undef (tk_mem s !! vec);
    if (pos <? 0) || (tv_len x <=? pos) then Ret (val_nil, st, p)
    else
      es ← or_undef (tv_entries x);
      e ← or_undef (es !! Z.to_nat pos);
      if val_type e =? 1 then Ret (val_int (te_num e), st, p)
      else if val_type e =? 2 then
        match te_str e with
        | SOwn d => new_string cap stress st p (until_nul d)
        | _ => Undef
        end
      else Ret (val_nil, st, p).

(** [free(entries[i].str)] for every entry, [free(entries)]. *)
Definition free_str (e : TokEntry) : outcome TokEntry :=
  match te_str e with
  | SFreed => Undef
  | SNull => Ret e
  | SOwn _ => Ret (mk_TokEntry (type_idx e) (val_type e) (te_num e) SFreed)
  end.
Fixpoint free_strs (n : nat) (i : nat) (es : list TokEntry) : outcome (list TokEntry) :=
  match n with
  | O => Ret es
  | S n => e ← or_undef (es !! i); e ← free_str e; free_strs n (S i) (<[i := e]> es)
  end.
Definition free_entries (m : gmap Z TokVec) (vec : Z) : outcome (gmap Z TokVec) :=
  x ← or_undef (m !! vec);
  es ← or_undef (tv_entries x);
  _ ← free_strs (Z.to_nat (tv_len x)) 0 es;
  Ret (<[vec := mk_TokVec (tv_next x) (tv_id x) (tv_len x) None]> m).
(** [free(vec)]. *)
Definition free_vec (m : gmap Z TokVec) (vec : Z) : outcome (gmap Z TokVec) :=
  _ ← or_undef (m !! vec); Ret (delete vec m).

Definition with_mem (s : toks) (m : gmap Z TokVec) : toks := mk_toks m (tok_vecs s) (tok_next_id s) (tk_brk s).
Definition vm_free_tok_vec_fn (s : toks) (args : list Val) : outcome (Val * toks) :=
  h ← arg args 0;
  vec ← tok_find s h;
  if vec =? 0 then Ret (val_nil, s)
  else
    m ← free_entries (tk_mem s) vec;
    s ← tok_unlink (with_mem s m) vec;
    m ← free_vec (tk_mem s) vec;
    Ret (val_nil, with_mem s m).

Fixpoint free_all (n : nat) (m : gmap Z TokVec) (vec : Z) : outcome (gmap Z TokVec) :=
  if vec =? 0 then Ret m
  else
    match n with
    | O => NoFuel
    | S n =>
        x ← or_undef (m !! vec);
        m ← free_entries m vec;
        m ← free_vec m vec;
        free_all n m (tv_next x)
    end.
Definition vm_free_proc_tokvecs (s : toks) : outcome toks :=
  m ← free_all fuel (tk_mem s) (tok_vecs s);
  Ret (mk_toks m 0 (tok_next_id s) (tk_brk s)).
End Tokens.

(** * What the vectors mean *)
Inductive tval := VNil | VInt (n : Z) | VStr (d : list Z).
Record tok := mk_tok { tok_ty : Z; tok_v : tval }.
Definition ty_of (t : tree) : Z := match t with Imm w => if val_is_symbol w then val_get_symbol w else 0 | _ => 0 end.
Definition val_of (t : tree) : tval :=
  match t with
  | Imm w => if val_is_int w then VInt (val_get_int w) else VNil
  | TString d => VStr d
  | _ => VNil
  end.
(** The tokens of a list of pairs; a list with another element has none. *)
Fixpoint toks_of (t : tree) : option (list tok) :=
  match t with
  | TPair (TPair ty v) rest => cons (mk_tok (ty_of ty) (val_of v)) <$> toks_of rest
  | TPair _ _ => None
  | _ => Some []
  end.
(** The vectors of a process by their handles, the newest first. *)
Abbreviation vectors := (list (Z * list tok)).
Definition handle_id (h : Val) : Z := i32 (val_get_int h).
Definition vec_at (vs : vectors) (h : Val) : option (list tok) := snd ∘ snd <$> list_find (λ q, q.1 = handle_id h) vs.
Definition without (vs : vectors) (h : Val) : vectors := filter (λ q, q.1 ≠ handle_id h) vs.
Definition tok_at (ts : list tok) (v : Val) : option tok :=
  let pos := i32 (val_get_int v) in if 0 <=? pos then ts !! Z.to_nat pos else None.
Definition tval_tree (v : tval) : tree :=
  match v with
  | VNil => Imm val_nil
  | VInt n => Imm (val_int n)
  | VStr d => TString (until_nul d)
  end.

(** * Representation *)
Definition entry (x : tok) : TokEntry :=
  match tok_v x with
  | VNil => mk_TokEntry (i32 (tok_ty x)) 0 0 SNull
  | VInt n => mk_TokEntry (i32 (tok_ty x)) 1 n SNull
  | VStr d => mk_TokEntry (i32 (tok_ty x)) 2 0 (SOwn d)
  end.
Definition vec_of (nx : Z) (q : Z * list tok) : TokVec := mk_TokVec nx q.1 (len q.2) (Some (entry <$> q.2)).
(** The list from [p] to [q] through the vectors at these addresses. *)
Fixpoint seg (m : gmap Z TokVec) (p : Z) (l : list (Z * (Z * list tok))) (q : Z) : Prop :=
  match l with
  | [] => p = q
  | (a, x) :: l => p = a ∧ a ≠ 0 ∧ ∃ nx, m !! a = Some (vec_of nx x) ∧ seg m nx l q
  end.
Record owns (s : toks) (l : list (Z * (Z * list tok))) : Prop := {
  o_seg : seg (tk_mem s) (tok_vecs s) l 0;
  o_nodup : NoDup l.*1;
  o_all : ∀ a, is_Some (tk_mem s !! a) → a ∈ l.*1;
  o_brk : 0 < tk_brk s ∧ ∀ a, a ∈ l.*1 → a < tk_brk s;
  o_ids : NoDup l.*2.*1 ∧ ∀ i, i ∈ l.*2.*1 → i < tok_next_id s;
  o_next : 0 ≤ tok_next_id s < 2 ^ 31;
  o_range : Forall (λ q : Z * (Z * list tok), Forall (λ x, 0 ≤ tok_ty x < 2 ^ 32) q.2.2) l
}.
Definition tok_repr (s : toks) (vs : vectors) : Prop := ∃ l, l.*2 = vs ∧ owns s l.

Lemma seg_ext m m' p l q : (∀ a, a ∈ l.*1 → m !! a = m' !! a) → seg m p l q → seg m' p l q.
Proof.
  revert p. induction l as [|[a x] l IH]; intros p Hm; [done|]. intros (->&H0&nx&Ha&Hs). split; [done|]. split; [done|].
  exists nx. rewrite <- Hm by left. split; [done|]. apply IH; [|done]. intros b Hb. apply Hm. by right.
Qed.
Lemma seg_app m p l1 l2 q : seg m p (l1 ++ l2) q ↔ ∃ r, seg m p l1 r ∧ seg m r l2 q.
Proof.
  revert p. induction l1 as [|[a x] l1 IH]; intros p; simpl; [naive_solver|]. setoid_rewrite IH. naive_solver.
Qed.

(** ** Values of the argument list *)
Lemma entry_of_run st v ty w : denotes st v (TPair ty w) → entry_of st v = Ret (entry (mk_tok (ty_of ty) (val_of w))).
Proof.
  intros D. destruct (pair_denotes _ _ _ _ D) as (va&vb&E&Da&Db). unfold entry_of. rewrite E. cbn [mbind outcome_bind].
  destruct (denotes_kind _ _ _ Da) as (_&Hs&_). destruct (denotes_kind _ _ _ Db) as (_&_&Hi&_). rewrite Hs, Hi.
  assert (Hty : (if match ty with Imm w => val_is_symbol w | _ => false end then i32 (val_get_symbol va) else 0) = i32 (ty_of ty)).
  { destruct ty as [u| | | | |]; try done. destruct Da as (->&_). cbn [ty_of]. by destruct (val_is_symbol u). }
  cbv zeta. rewrite Hty. unfold entry. cbn [tok_v tok_ty]. destruct w as [u| | | | |]; cbn [val_of].
  - destruct Db as (->&Hr&Hf). destruct (val_is_int u); [done|]. assert (val_is_string u = false) as ->; [|done].
    apply Z.eqb_neq. intros Es. rewrite Es in Hf. done.
  - by rewrite (not_string_denotes _ _ _ Db).
  - by rewrite (not_string_denotes _ _ _ Db).
  - destruct (string_denotes _ _ _ Db) as [-> ->]. done.
  - by rewrite (not_string_denotes _ _ _ Db).
  - by rewrite (not_string_denotes _ _ _ Db).
Qed.

Lemma toks_of_cons a b ts : toks_of (TPair a b) = Some ts → ∃ ty w rest, a = TPair ty w ∧ toks_of b = Some rest ∧ ts = mk_tok (ty_of ty) (val_of w) :: rest.
Proof. destruct a; try done. cbn. destruct (toks_of b); [|done]. intros [= <-]. by eexists _, _, _. Qed.
Lemma list_count_run st t : ∀ v ts fuel k,
  denotes st v t → toks_of t = Some ts → (length ts ≤ fuel)%nat → 0 ≤ k → k + len ts < 2 ^ 31 →
  list_count fuel st v k = Ret (k + len ts).
Proof.
  induction t as [u|ta tb IHt1 IHt2|e0 ts0 IHts|d|d|w0 r0] using tree_ind'; intros v ts fuel k D Ht Hf Hk Hl;
    destruct (denotes_kind _ _ _ D) as (Hp&_&_);
    try (injection Ht as <-; destruct fuel; cbn [list_count]; rewrite Hp; cbn [is_pair_tree]; by rewrite Z.add_0_r).
  apply toks_of_cons in Ht as (ty&w&rest&->&Hb&->). destruct (pair_denotes _ _ _ _ D) as (va&vb&E&Da&Db).
  simpl length in *. destruct fuel as [|fuel]; [lia|]. cbn [list_count]. rewrite Hp. cbn [is_pair_tree].
  rewrite chk32_small by lia. cbn [mbind outcome_bind]. rewrite E. cbn [mbind outcome_bind].
  rewrite (IHt2 vb rest fuel (k + 1)); [f_equal; lia|done|done|lia|lia|lia].
Qed.
Lemma fill_loop_run st t : ∀ v ts pre,
  denotes st v t → toks_of t = Some ts →
  fill_loop (length ts) st v (length pre) (pre ++ replicate (length ts) TokEntry_zero) = Ret (pre ++ (entry <$> ts)).
Proof.
  induction t as [u|ta tb IHt1 IHt2|e0 ts0 IHts|d|d|w0 r0] using tree_ind'; intros v ts pre D Ht; try (injection Ht as <-; done).
  apply toks_of_cons in Ht as (ty&w&rest&->&Hb&->). destruct (pair_denotes _ _ _ _ D) as (va&vb&E&Da&Db).
  cbn [length fill_loop replicate]. rewrite E. cbn [mbind outcome_bind]. rewrite (entry_of_run _ _ _ _ Da). cbn [mbind outcome_bind].
  rewrite length_app. cbn [length]. destruct (Nat.ltb_spec (length pre) (length pre + S (length (replicate (length rest) TokEntry_zero)))); [|lia].
  rewrite insert_app_r_alt, Nat.sub_diag by lia. cbn [insert list_insert].
  specialize (IHt2 vb rest (pre ++ [entry (mk_tok (ty_of ty) (val_of w))]) Db Hb). rewrite length_app in IHt2. cbn [length] in IHt2.
  rewrite Nat.add_1_r, <- !(assoc app) in IHt2. exact IHt2.
Qed.

(** ** The list operations *)
Lemma find_run m id l : ∀ fuel p,
  seg m p l 0 → (length l ≤ fuel)%nat →
  find_loop fuel m p id = Ret (match list_find (λ q, q.2.1 = id) l with Some (_, (a, _)) => a | None => 0 end).
Proof.
  induction l as [|[a x] l IH]; intros fuel p Hs Hf; simpl in Hf; [by destruct fuel; simpl in Hs; subst|].
  destruct Hs as (->&H0&nx&Ha&Hs). destruct fuel as [|fuel]; [lia|]. cbn [find_loop list_find snd fst].
  apply Z.eqb_neq in H0 as ->. rewrite Ha. cbn [or_undef mbind outcome_bind vec_of tv_id tv_next].
  destruct (decide (x.1 = id)) as [->|Hne]; [by rewrite Z.eqb_refl|]. apply Z.eqb_neq in Hne as ->. rewrite IH by (done || lia).
  by destruct (list_find _ l) as [[i [b y]]|].
Qed.
Definition last_addr (link : option Z) (l : list (Z * (Z * list tok))) : option Z :=
  match last l.*1 with Some b => Some b | None => link end.
Lemma unlink_run s a x l : ∀ fuel link p,
  seg (tk_mem s) p l a → a ∉ l.*1 → a ≠ 0 → tk_mem s !! a = Some x → (length l ≤ fuel)%nat →
  unlink_loop fuel s link p a = set_link s (last_addr link l) (tv_next x).
Proof.
  intros fuel. revert fuel. induction l as [|[b y] l IH]; intros fuel link p Hs Hn H0 Ha Hf; simpl in Hf.
  - simpl in Hs. subst p. apply Z.eqb_neq in H0. destruct fuel; cbn [unlink_loop]; rewrite H0, Z.eqb_refl, Ha; done.
  - destruct Hs as (->&Hb0&nx&Hb&Hs). apply not_elem_of_cons in Hn as [Hne Hn]. destruct fuel as [|fuel]; [lia|]. cbn [unlink_loop].
    apply Z.eqb_neq in Hb0 as ->. destruct (Z.eqb_spec b a); [done|]. rewrite Hb. cbn [or_undef mbind outcome_bind vec_of tv_next].
    rewrite IH by (done || lia). unfold last_addr. cbn [fmap list_fmap]. rewrite last_cons. by destruct (last l.*1).
Qed.

Lemma free_strs_run rest : ∀ pre, Forall (λ e, te_str e ≠ SFreed) rest → ∃ es, free_strs (length rest) (length pre) (pre ++ rest) = Ret es.
Proof.
  induction rest as [|e rest IH]; intros pre Hf; cbn [length free_strs]; [by eexists|]. apply Forall_cons in Hf as [He Hf].
  rewrite lookup_app_r, Nat.sub_diag by lia. cbn [lookup list_lookup or_undef mbind outcome_bind].
  assert (∃ e', free_str e = Ret e') as [e' ->] by (unfold free_str; destruct (te_str e); [by eexists|by eexists|done]).
  cbn [mbind outcome_bind]. rewrite insert_app_r_alt, Nat.sub_diag by lia. cbn [insert list_insert].
  specialize (IH (pre ++ [e']) Hf). rewrite length_app, <- app_assoc in IH. cbn [length] in IH. rewrite Nat.add_1_r in IH. exact IH.
Qed.
Lemma free_entries_run m a nx q : m !! a = Some (vec_of nx q) →
  free_entries m a = Ret (<[a := mk_TokVec nx q.1 (len q.2) None]> m).
Proof.
  intros Ha. unfold free_entries. rewrite Ha. cbn [or_undef mbind outcome_bind vec_of tv_entries tv_len tv_next tv_id].
  destruct (free_strs_run (entry <$> q.2) []) as [es E].
  { apply Forall_fmap, Forall_forall. intros x _. unfold entry; simpl. by destruct (tok_v x). }
  rewrite length_fmap in E. cbn [length app] in E. rewrite Nat2Z.id, E. done.
Qed.
Lemma free_all_run l : ∀ fuel m p,
  seg m p l 0 → NoDup l.*1 → (length l ≤ fuel)%nat →
  ∃ m', free_all fuel m p = Ret m' ∧ ∀ a, m' !! a = (if decide (a ∈ l.*1) then None else m !! a).
Proof.
  induction l as [|[a x] l IH]; intros fuel m p Hs Hn Hf; simpl in Hf.
  - simpl in Hs. subst p. exists m. split; [by destruct fuel|]. done.
  - destruct Hs as (->&H0&nx&Ha&Hs). cbn [fmap list_fmap fst] in Hn. apply NoDup_cons in Hn as [Hna Hn]. destruct fuel as [|fuel]; [lia|]. cbn [free_all].
    apply Z.eqb_neq in H0 as ->. rewrite Ha. cbn [or_undef mbind outcome_bind]. rewrite (free_entries_run _ _ _ _ Ha). cbn [mbind outcome_bind].
    unfold free_vec. rewrite lookup_insert_eq. cbn [or_undef mbind outcome_bind tv_next vec_of]. rewrite delete_insert_eq.
    destruct (IH fuel (delete a m) nx) as (m'&E&Hm); [|done|lia|].
    { eapply seg_ext; [|done]. intros b Hb. rewrite lookup_delete_ne; [done|]. by intros ->. }
    exists m'. split; [done|]. intros b. rewrite Hm. cbn [fmap list_fmap fst].
    destruct (decide (b = a)) as [->|Hne].
    + rewrite lookup_delete_eq. destruct (decide (a ∈ l.*1)), (decide (a ∈ a :: l.*1)); try done. by destruct n0; left.
    + rewrite lookup_delete_ne by done. apply decide_ext. rewrite elem_of_cons. naive_solver.
Qed.

(** * The functions on represented vectors *)
Lemma filter_keep {A} (P : A → Prop) `{∀ x, Decision (P x)} (l : list A) : Forall P l → filter P l = l.
Proof. induction 1 as [|x l Hx _ IH]; [done|]. rewrite filter_cons, decide_True by done. by rewrite IH. Qed.
Lemma without_app (l1 l2 : vectors) q h :
  q.1 = handle_id h → NoDup (l1 ++ q :: l2).*1 → without (l1 ++ q :: l2) h = l1 ++ l2.
Proof.
  intros Hq Hn. unfold without. rewrite filter_app, filter_cons, decide_False by tauto. rewrite fmap_app in Hn. cbn [fmap list_fmap] in Hn.
  apply NoDup_app in Hn as (_&Hd&[Hn _]%NoDup_cons).
  rewrite !filter_keep; [done|apply Forall_forall; intros x Hx E..].
  - apply Hn. rewrite Hq, <- E. by apply list_elem_of_fmap_2.
  - apply (Hd x.1); [by apply list_elem_of_fmap_2|]. rewrite E, Hq. left.
Qed.

Lemma toks_of_range t ts : toks_of t = Some ts → Forall (λ x, 0 ≤ tok_ty x < 2 ^ 32) ts.
Proof.
  revert ts. induction t as [u|ta tb IHt1 IHt2|e0 ts0 IHts|d|d|w0 r0] using tree_ind'; intros ts Ht; try (by injection Ht as <-).
  apply toks_of_cons in Ht as (ty&w&rest&->&Hb&->). constructor; [|by apply IHt2]. cbn [tok_ty].
  destruct ty as [u| | | | |]; try done. cbn [ty_of]. destruct (val_is_symbol u); [|done]. unfold val_get_symbol, val_payload32. by apply Z.mod_pos_bound.
Qed.

Section Refine.
Context (cap stress : Z) (fuel sym_fuel : nat) (s : toks) (l : list (Z * (Z * list tok))) (O : owns s l).
Context (Hf : (length l ≤ fuel)%nat).

(** A handle finds nothing, or one vector of the list. *)
Lemma find_vec h :
  vec_at l.*2 h = None ∧ without l.*2 h = l.*2 ∧ tok_find fuel s h = Ret 0 ∨
  ∃ l1 a q l2 nx, l = l1 ++ (a, q) :: l2 ∧ q.1 = handle_id h ∧ tok_find fuel s h = Ret a ∧ vec_at l.*2 h = Some q.2 ∧ a ≠ 0 ∧
    tk_mem s !! a = Some (vec_of nx q) ∧ seg (tk_mem s) (tok_vecs s) l1 a ∧ seg (tk_mem s) nx l2 0.
Proof using O Hf.
  pose proof (o_seg _ _ O) as Hs. unfold tok_find, vec_at. rewrite (find_run _ _ l) by done. rewrite list_find_fmap.
  change ((λ q : Z * list tok, q.1 = handle_id h) ∘ snd) with (λ q : Z * (Z * list tok), q.2.1 = handle_id h).
  fold (handle_id h). destruct (list_find _ l) as [[i [a q]]|] eqn:E.
  - right. apply list_find_Some in E as (Hi&Hq&_). cbn [snd] in Hq. pose proof (take_drop_middle l i _ Hi) as El.
    rewrite <- El in Hs. apply seg_app in Hs as (r&H1&->&H0&nx&Ha&H2).
    exists (take i l), a, q, (drop (S i) l), nx. by rewrite El.
  - left. split; [done|]. split; [|done]. apply list_find_None in E. apply filter_keep, Forall_fmap. exact E.
Qed.

Lemma type_run t h v :
  vm_tok_type_fn fuel sym_fuel s t [h; v] =
  match vec_at l.*2 h with
  | None => Ret (val_nil, t)
  | Some ts => match tok_at ts v with Some x => Ret (val_symbol (tok_ty x), t) | None => eof_symbol sym_fuel t end
  end.
Proof using O Hf.
  unfold vm_tok_type_fn. cbn [arg lookup list_lookup or_undef mbind outcome_bind].
  destruct (find_vec h) as [(->&_&->)|(l1&a&q&l2&nx&El&Hq&->&->&Ha&Hm&_)]; cbn [mbind outcome_bind]; [done|].
  apply Z.eqb_neq in Ha as ->. rewrite Hm. cbn [or_undef mbind outcome_bind vec_of tv_len tv_entries]. unfold tok_at.
  destruct (Z.ltb_spec (i32 (val_get_int v)) 0); [by destruct (Z.leb_spec 0 (i32 (val_get_int v))); [lia|]|].
  destruct (Z.leb_spec 0 (i32 (val_get_int v))); [|lia]. cbn [orb].
  destruct (Z.leb_spec (len q.2) (i32 (val_get_int v))).
  - by rewrite lookup_ge_None_2 by lia.
  - destruct (lookup_lt_is_Some_2 q.2 (Z.to_nat (i32 (val_get_int v)))) as [x Hx]; [lia|].
    rewrite list_lookup_fmap, Hx. cbn [fmap option_fmap option_map or_undef mbind outcome_bind].
    assert (0 ≤ tok_ty x < 2 ^ 32) as Hr.
    { pose proof (o_range _ _ O) as HF. rewrite El in HF. apply Forall_app in HF as [_ [HF _]%Forall_cons].
      rewrite Forall_forall in HF. apply HF. by eapply list_elem_of_lookup_2. }
    do 3 f_equal. unfold entry. assert (type_idx (entry x) = i32 (tok_ty x)) as Ht by (unfold entry; by destruct (tok_v x)).
    fold (entry x). rewrite Ht. unfold u32, i32. rewrite signed_cong by done. by apply Z.mod_small.
Qed.

Lemma val_run st p h v :
  window st p → (∀ ts x d, vec_at l.*2 h = Some ts → tok_at ts v = Some x → tok_v x = VStr d → len d < STRING_MAX) →
  yields (vm_tok_val_fn cap stress fuel s st p [h; v]) st
    (tval_tree (default VNil (ts ← vec_at l.*2 h; tok_v <$> tok_at ts v))).
Proof using O Hf.
  intros W Hd. unfold vm_tok_val_fn. cbn [arg lookup list_lookup or_undef mbind outcome_bind].
  destruct (find_vec h) as [(->&_&->)|(l1&a&q&l2&nx&El&Hq&->&Ev&Ha&Hm&_)]; cbn [mbind outcome_bind option_bind default tval_tree];
    [by apply imm_yields|].
  rewrite Ev in *. apply Z.eqb_neq in Ha as ->. rewrite Hm. cbn [or_undef mbind outcome_bind option_bind vec_of tv_len tv_entries]. unfold tok_at in *.
  destruct (Z.ltb_spec (i32 (val_get_int v)) 0).
  { destruct (Z.leb_spec 0 (i32 (val_get_int v))); [lia|]. by apply imm_yields. }
  destruct (Z.leb_spec 0 (i32 (val_get_int v))); [|lia]. cbn [orb].
  destruct (Z.leb_spec (len q.2) (i32 (val_get_int v))).
  - rewrite lookup_ge_None_2 by lia. by apply imm_yields.
  - destruct (lookup_lt_is_Some_2 q.2 (Z.to_nat (i32 (val_get_int v)))) as [x Hx]; [lia|].
    rewrite list_lookup_fmap, Hx. cbn [fmap option_fmap option_map or_undef mbind outcome_bind default].
    specialize (Hd q.2 x). unfold entry. destruct (tok_v x) as [|n|d] eqn:Ex; cbn [val_type te_num te_str tval_tree].
    + by apply imm_yields.
    + by apply int_yields.
    + apply new_string_yields; [done|]. specialize (Hd d eq_refl Hx eq_refl). clear -Hd.
      assert (len (until_nul d) ≤ len d); [|lia]. clear. induction d as [|c d IH]; [done|]. cbn [until_nul]. destruct (c =? 0); simpl; lia.
Qed.

Lemma make_run st v tr ts :
  denotes st v tr → is_pair_tree tr = true → toks_of tr = Some ts → (length ts ≤ fuel)%nat → len ts < 2 ^ 31 → tok_next_id s + 1 < 2 ^ 31 →
  ∃ s', vm_make_tok_vec_fn fuel s st [v] = Ret (val_int (tok_next_id s), s') ∧ tok_next_id s' = tok_next_id s + 1 ∧
    tok_repr s' ((tok_next_id s, ts) :: l.*2).
Proof using O.
  clear Hf. intros D Hp Ht Hfu Hl Hn. unfold vm_make_tok_vec_fn. cbn [arg lookup list_lookup or_undef mbind outcome_bind].
  destruct (denotes_kind _ _ _ D) as (->&_). rewrite Hp. cbn [negb]. destruct O as [Os On Oa [Ob1 Ob2] [Oi1 Oi2] Onx Or].
  rewrite (list_count_run _ _ _ _ _ _ D Ht) by (done || lia). cbn [mbind outcome_bind]. rewrite chk32_small by lia. cbn [mbind outcome_bind].
  rewrite Z.add_0_l, Nat2Z.id. pose proof (fill_loop_run _ _ _ _ [] D Ht) as Hfill. cbn [app length] in Hfill. rewrite Hfill. cbn [mbind outcome_bind].
  eexists. split; [done|]. split; [done|]. exists ((tk_brk s, (tok_next_id s, ts)) :: l). split; [done|].
  assert (Hnew : tk_brk s ∉ l.*1) by (intros H%Ob2; lia).
  split; cbn [tk_mem tok_vecs tok_next_id tk_brk fmap list_fmap fst snd seg].
  - split; [done|]. split; [lia|]. exists (tok_vecs s). rewrite lookup_insert_eq. split; [done|].
    eapply seg_ext; [|done]. intros a Ha. rewrite lookup_insert_ne; [done|]. by intros <-.
  - by apply NoDup_cons.
  - intros a [x Hx]. apply lookup_insert_Some in Hx as [[<- _]|[_ Hx]]; [left|right]. apply Oa. by eexists.
  - split; [lia|]. intros a [->|Ha%Ob2]%elem_of_cons; lia.
  - split; [apply NoDup_cons; split; [intros H%Oi2; lia|done]|]. intros i [->|Hi%Oi2]%elem_of_cons; lia.
  - lia.
  - apply Forall_cons. split; [|done]. by eapply toks_of_range.
Qed.

(** Removing a vector from the list. *)
Lemma unlinked l1 a q l2 nx m :
  l = l1 ++ (a, q) :: l2 → tk_mem s !! a = Some (vec_of nx q) → seg (tk_mem s) (tok_vecs s) l1 a → seg (tk_mem s) nx l2 0 →
  m = <[a := mk_TokVec nx q.1 (len q.2) None]> (tk_mem s) →
  ∃ s', set_link (with_mem s m) (last_addr None l1) nx = Ret s' ∧ is_Some (tk_mem s' !! a) ∧ tok_next_id s' = tok_next_id s ∧
    owns (with_mem s' (delete a (tk_mem s'))) (l1 ++ l2).
Proof using O.
  clear Hf. intros El Ha H1 H2 ->. destruct O as [Os On Oa [Ob1 Ob2] [Oi1 Oi2] Onx Or]. rewrite El in *. clear El Os.
  rewrite !fmap_app in *. cbn [fmap list_fmap fst snd] in *.
  apply NoDup_app in On as (On1&Ond&[On2 On3]%NoDup_cons). apply NoDup_app in Oi1 as (Oi1&Oid&[_ Oi3]%NoDup_cons).
  assert (Ha1 : a ∉ l1.*1) by (intros H; apply (Ond a H); left).
  assert (Hrest : NoDup (l1 ++ l2).*1 ∧ NoDup (l1 ++ l2).*2.*1 ∧ (∀ b, b ∈ (l1 ++ l2).*1 → b < tk_brk s) ∧
    (∀ i, i ∈ (l1 ++ l2).*2.*1 → i < tok_next_id s) ∧ Forall (λ q : Z * (Z * list tok), Forall (λ x, 0 ≤ tok_ty x < 2 ^ 32) q.2.2) (l1 ++ l2)).
  { rewrite !fmap_app. split_and!.
    - apply NoDup_app. split; [done|]. split; [|done]. intros b Hb Hb'. apply (Ond b Hb). by right.
    - apply NoDup_app. split; [done|]. split; [|done]. intros b Hb Hb'. apply (Oid b Hb). by right.
    - intros b [Hb|Hb]%elem_of_app; apply Ob2; apply elem_of_app; [by left|by right; right].
    - intros b [Hb|Hb]%elem_of_app; apply Oi2; apply elem_of_app; [by left|by right; right].
    - apply Forall_app in Or as [Or1 [_ Or2]%Forall_cons]. by apply Forall_app. }
  destruct Hrest as (R1&R2&R3&R4&R5).
  unfold last_addr. destruct (last l1.*1) as [b|] eqn:Eb.
  - assert (∃ l0 y, l1 = l0 ++ [(b, y)]) as (l0&y&->).
    { destruct l1 as [|z l1 _] using rev_ind; [done|]. rewrite fmap_app in Eb. cbn [fmap list_fmap] in Eb. rewrite last_snoc in Eb. injection Eb as <-. destruct z as [c y]. by exists l1, y. }
    apply seg_app in H1 as (r&Hs0&->&Hb0&nb&Hb&Hnb). simpl in Hnb. subst nb.
    rewrite fmap_app in On1, Ond, Ha1, Oa. cbn [fmap list_fmap fst] in On1, Ond, Ha1, Oa. assert (b ≠ a) by (intros ->; apply Ha1, elem_of_app; right; left).
    apply NoDup_app in On1 as (On0&Ond0&_). assert (Hb00 : b ∉ l0.*1) by (intros Hx; apply (Ond0 b Hx); left).
    unfold set_link, with_mem. cbn [tk_mem]. rewrite lookup_insert_ne, Hb by done. cbn [or_undef mbind outcome_bind].
    eexists. split; [done|]. cbn [tk_mem tok_next_id tok_vecs tk_brk vec_of tv_id tv_len tv_entries].
    rewrite lookup_insert_ne, lookup_insert_eq by done. split; [by eexists|]. split; [done|].
    split; cbn [tk_mem tok_next_id tok_vecs tk_brk]; try done.
    + apply seg_app. exists nx. split; [apply seg_app; exists b; split|].
      * eapply seg_ext; [|exact Hs0]. intros c Hc. assert (c ≠ a) by (intros ->; apply Ha1, elem_of_app; by left).
        assert (c ≠ b) by (by intros ->). by rewrite lookup_delete_ne, !lookup_insert_ne by done.
      * simpl. split; [done|]. split; [done|]. exists nx. rewrite lookup_delete_ne, lookup_insert_eq by done. done.
      * eapply seg_ext; [|exact H2]. intros c Hc. assert (c ≠ a) by (by intros ->).
        assert (c ≠ b). { intros ->. apply (Ond b); [apply elem_of_app; right; left|by right]. }
        by rewrite lookup_delete_ne, !lookup_insert_ne by done.
    + intros c [z [Hc Hz]%lookup_delete_Some]. rewrite fmap_app, fmap_app. cbn [fmap list_fmap fst].
      assert (c ∈ (l0.*1 ++ [b]) ++ a :: l2.*1) as [Hin|[->|Hin]%elem_of_cons]%elem_of_app; [|apply elem_of_app; by left|done|apply elem_of_app; by right].
      apply Oa. apply lookup_insert_Some in Hz as [[<- _]|[_ Hz]]; [by eexists|]. rewrite lookup_insert_ne in Hz by done. by eexists.
  - assert (l1 = []) as ->.
    { destruct l1 as [|z l1 _] using rev_ind; [done|]. rewrite fmap_app in Eb. cbn [fmap list_fmap] in Eb. rewrite last_snoc in Eb. done. }
    simpl in H1. cbn [set_link with_mem]. eexists. split; [done|]. cbn [tk_mem tok_next_id tok_vecs tk_brk with_mem].
    rewrite lookup_insert_eq. split; [by eexists|]. split; [done|]. cbn [app] in *.
    split; cbn [tk_mem tok_next_id tok_vecs tk_brk with_mem]; try done.
    + eapply seg_ext; [|exact H2]. intros c Hc. assert (c ≠ a) by (by intros ->). by rewrite lookup_delete_ne, lookup_insert_ne by done.
    + intros c [z [Hc Hz]%lookup_delete_Some]. rewrite lookup_insert_ne in Hz by done.
      assert (c ∈ a :: l2.*1) as [->|Hin]%elem_of_cons; [apply Oa; by eexists|done|done].
Qed.

Lemma free_run h :
  ∃ s', vm_free_tok_vec_fn fuel s [h] = Ret (val_nil, s') ∧ tok_next_id s' = tok_next_id s ∧ tok_repr s' (without l.*2 h).
Proof using O Hf.
  unfold vm_free_tok_vec_fn. cbn [arg lookup list_lookup or_undef mbind outcome_bind].
  destruct (find_vec h) as [(_&->&->)|(l1&a&q&l2&nx&El&Hq&->&_&Ha&Hm&H1&H2)]; cbn [mbind outcome_bind].
  - exists s. split; [done|]. split; [done|]. by exists l.
  - apply Z.eqb_neq in Ha as Ha'. rewrite Ha', (free_entries_run _ _ _ _ Hm). cbn [mbind outcome_bind].
    set (m := <[a := _]> (tk_mem s)).
    destruct (unlinked l1 a q l2 nx m El Hm H1 H2 eq_refl) as (s'&E&[x Hx]&Hn&Ow).
    assert (Hal : a ∉ l1.*1).
    { pose proof (o_nodup _ _ O) as On. rewrite El, fmap_app in On. apply NoDup_app in On as (_&Hd&_). intros Hin. apply (Hd a Hin). left. }
    unfold tok_unlink. rewrite (unlink_run (with_mem s m) a (mk_TokVec nx q.1 (len q.2) None) l1).
    + cbn [tv_next]. rewrite E. cbn [mbind outcome_bind]. unfold free_vec. rewrite Hx. cbn [or_undef mbind outcome_bind].
      eexists. split; [done|]. split; [done|]. exists (l1 ++ l2). split; [|done].
      rewrite El, !fmap_app. cbn [fmap list_fmap snd]. symmetry. apply without_app; [done|].
      destruct (o_ids _ _ O) as [Oi _]. rewrite El, !fmap_app in Oi. cbn [fmap list_fmap snd] in Oi. by rewrite fmap_app.
    + cbn [with_mem tk_mem tok_vecs]. eapply seg_ext; [|exact H1]. intros c Hc. unfold m. rewrite lookup_insert_ne; [done|]. by intros ->.
    + done.
    + done.
    + apply lookup_insert_eq.
    + rewrite El, length_app in Hf. simpl in Hf. lia.
Qed.

Lemma die_run : ∃ s', vm_free_proc_tokvecs fuel s = Ret s' ∧ tk_mem s' = ∅ ∧ tok_vecs s' = 0.
Proof using O Hf.
  unfold vm_free_proc_tokvecs. destruct (free_all_run l fuel (tk_mem s) (tok_vecs s)) as (m&->&Hm); [apply O|apply O|done|].
  cbn [mbind outcome_bind]. eexists. split; [done|]. split; [|done]. cbn [tk_mem]. apply map_eq. intros a. rewrite Hm, lookup_empty.
  destruct (decide (a ∈ l.*1)) as [|Hn]; [done|]. destruct (tk_mem s !! a) eqn:E; [|done]. destruct Hn. apply (o_all _ _ O). by eexists.
Qed.
End Refine.

Lemma repr_new : tok_repr toks_new [].
Proof. exists []. split; [done|]. split; cbn; try done; [constructor|intros a [x H]; by rewrite lookup_empty in H|split; [lia|by intros ? ?%not_elem_of_nil]|split; [constructor|by intros ? ?%not_elem_of_nil]]. Qed.

(** * Properties *)


Definition w_toks : toks := mk_toks {[16 := mk_TokVec 0 0 1 (Some [mk_TokEntry 7 1 42 SNull])]} 16 1 48.
Lemma w_toks_repr : tok_repr w_toks [(0, [mk_tok 7 (VInt 42)])].
Proof.
  exists [(16, (0, [mk_tok 7 (VInt 42)]))]. split; [done|]. split; cbn; try done.
  - split; [done|]. split; [done|]. exists 0. by rewrite lookup_singleton_eq.
  - apply NoDup_singleton.
  - intros a [x Hx]. apply lookup_singleton_Some in Hx as [<- _]. left.
  - split; [lia|]. intros a ->%list_elem_of_singleton. lia.
  - split; [apply NoDup_singleton|]. intros a ->%list_elem_of_singleton. lia.
  - repeat constructor; cbn; lia.
Qed.

(** [get_arg] gives an argument behind the program's own, or the empty string,
    for every index from 0; for a negative one below the start it reads in
    front of the argument array. *)
Theorem get_arg_negative cap stress a0 rest st p i :
  - 2 ^ 31 ≤ i < 0 → rest !! 0%nat ≠ Some "--bootstrap" → rest !! 0%nat ≠ Some "--bootstrap-emit" →
  i ≠ -1 → vm_get_arg_fn cap stress (a0 :: rest) st p [val_int i] = Undef.
Proof.
  intros Hi H1 H2 Hne. unfold vm_get_arg_fn. cbn [length arg lookup list_lookup or_undef mbind outcome_bind].
  change (1 <=? Z.of_nat 1) with true. cbv iota. rewrite val_int_is_int, val_get_int_id by lia. cbn [mbind outcome_bind].
  unfold i32. rewrite signed_small by lia.
  rewrite (bool_decide_eq_false_2 (_ ∨ _)) by (intros [H|H]; destruct rest; simpl in H, H1, H2; congruence). rewrite andb_false_r.
  unfold chk32, in_i32. destruct (Z.leb_spec (- 2 ^ 31) (1 + i)); [|lia]. destruct (Z.ltb_spec (1 + i) (2 ^ 31)); [|lia]. cbn [andb mbind outcome_bind].
  destruct (Z.leb_spec (Z.of_nat (S (length rest))) (1 + i)); [lia|]. destruct (Z.ltb_spec (1 + i) 0); [done|lia].
Qed.
