(* ===== verification/Net.v ===== *)
(** The [net] module: src/lib/net.c, with [vm_watch_fd] and [vm_yield] of
    src/vm.c.

    The registry of connects in progress is shared by the worker threads, which
    run [net_connect] again each time its process is woken, and the resolver
    thread.  Requests and connects are malloc'd structs, kept by address; a read
    of a freed one is undefined.  The lists through [next] are lists of
    addresses, [resolve_tail] is a pointer of its own.  What runs between a lock
    and its unlock is one operation.  The answers of the operating system
    (descriptors, errnos, clock) are arguments. *)
From stdpp Require Import base tactics list gmap strings.
From Stdlib Require Import ZArith Lia.
From S2P Require Import Prelude Values Heap Resource Gc GcCorrect GcSpec Tree Alloc Copy Symtab Cmodule Str.
Open Scope Z_scope.

(** * The calling process *)
Record pio := mk_pio {
  wait_fd : Z;
  wait_events : Z;
  wait_deadline_ms : Z;
  last_errno : Z;
  yield_requested : bool
}.
Definition vm_watch_fd (fd events : Z) (p : pio) : pio := mk_pio fd events (wait_deadline_ms p) (last_errno p) (yield_requested p).
Definition vm_yield (p : pio) : pio := mk_pio (wait_fd p) (wait_events p) (wait_deadline_ms p) (last_errno p) true.
Definition arm_deadline (d : Z) (p : pio) : pio := mk_pio (wait_fd p) (wait_events p) d (last_errno p) (yield_requested p).
Definition set_errno (e : Z) (p : pio) : pio := mk_pio (wait_fd p) (wait_events p) (wait_deadline_ms p) e (yield_requested p).
(** [if (p->wait_fd == fd) p->wait_fd = -1]. *)
Definition unwatch (fd : Z) (p : pio) : pio :=
  if wait_fd p =? fd then mk_pio (-1) (wait_events p) (wait_deadline_ms p) (last_errno p) (yield_requested p) else p.
Definition POLLIN : Z := 1.
Definition POLLOUT : Z := 4.
Definition ECONNREFUSED : Z := 111.
Definition EINPROGRESS : Z := 115.
Definition EALREADY : Z := 114.
Definition EISCONN : Z := 106.
Definition EAGAIN : Z := 11.
Definition NET_CONNECT_DEFAULT_TIMEOUT_MS : Z := 10000.

(** What a function answers; [net_sym] interns the symbols. *)
Inductive net_answer := AFd (fd : Z) | ANil | ASym (name : string) | AInt (n : Z) | AStr (d : list Z).
Definition answer_val (cap stress : Z) (sym_fuel : nat) (t : symtab) (st : store) (p : ProcMem) (a : net_answer)
    : outcome (Val * symtab * store * ProcMem) :=
  match a with
  | AFd n | AInt n => Ret (val_int n, t, st, p)
  | ANil => Ret (val_nil, t, st, p)
  | ASym s => '(id, t) ← vm_intern_symbol true true sym_fuel t s; Ret (val_symbol id, t, st, p)
  | AStr d => '(v, st, p) ← new_string cap stress st p d; Ret (v, t, st, p)
  end.

(** * The registry *)
Record NetResolve := mk_NetResolve {
  nr_pid : Z;
  nr_host : string;
  nr_port : Z;
  nr_pipe_r : Z;
  nr_pipe_w : Z;
  nr_state : Z (** 0 queued, 1 in progress, 2 done *);
  nr_cancelled : bool;
  nr_deadline : Z;
  nr_eai : Z;
  nr_ai : option Z (** the address list *)
}.
Record NetConnect := mk_NetConnect { nc_pid : Z; nc_fd : Z; nc_deadline : Z }.
(** [ns_reqs], [ns_conns], [ns_ais]: what is allocated.  [ns_fds]: the open
    descriptors; [ns_stale]: those that were closed while not open. *)
Record NetState := mk_NetState {
  ns_reqs : gmap Z NetResolve;
  ns_conns : gmap Z NetConnect;
  ns_ais : gset Z;
  resolver_started : bool;
  resolve_queue : list Z;
  resolve_tail : option Z;
  in_flight : list Z;
  resolves : list Z;
  connects : list Z;
  ns_fds : gset Z;
  ns_stale : list Z
}.
Definition net_state_new : NetState := mk_NetState ∅ ∅ ∅ false [] None [] [] [] ∅ [].

Definition set_reqs (m : gmap Z NetResolve) (s : NetState) : NetState :=
  mk_NetState m (ns_conns s) (ns_ais s) (resolver_started s) (resolve_queue s) (resolve_tail s) (in_flight s) (resolves s) (connects s) (ns_fds s) (ns_stale s).
Definition set_conns (m : gmap Z NetConnect) (l : list Z) (s : NetState) : NetState :=
  mk_NetState (ns_reqs s) m (ns_ais s) (resolver_started s) (resolve_queue s) (resolve_tail s) (in_flight s) (resolves s) l (ns_fds s) (ns_stale s).
Definition set_ais (m : gset Z) (s : NetState) : NetState :=
  mk_NetState (ns_reqs s) (ns_conns s) m (resolver_started s) (resolve_queue s) (resolve_tail s) (in_flight s) (resolves s) (connects s) (ns_fds s) (ns_stale s).
Definition set_started (b : bool) (s : NetState) : NetState :=
  mk_NetState (ns_reqs s) (ns_conns s) (ns_ais s) b (resolve_queue s) (resolve_tail s) (in_flight s) (resolves s) (connects s) (ns_fds s) (ns_stale s).
Definition set_lists (q : list Z) (tl : option Z) (f r : list Z) (s : NetState) : NetState :=
  mk_NetState (ns_reqs s) (ns_conns s) (ns_ais s) (resolver_started s) q tl f r (connects s) (ns_fds s) (ns_stale s).
Definition set_fds (fds : gset Z) (stale : list Z) (s : NetState) : NetState :=
  mk_NetState (ns_reqs s) (ns_conns s) (ns_ais s) (resolver_started s) (resolve_queue s) (resolve_tail s) (in_flight s) (resolves s) (connects s) fds stale.

Definition get_req (s : NetState) (a : Z) : outcome NetResolve := or_undef (ns_reqs s !! a).
Definition put_req (a : Z) (r : NetResolve) (s : NetState) : NetState := set_reqs (<[a := r]> (ns_reqs s)) s.
(** [free(r->host); free(r)]. *)
Definition free_req (s : NetState) (a : Z) : outcome NetState := _ ← get_req s a; Ret (set_reqs (delete a (ns_reqs s)) s).
Definition freeaddrinfo (s : NetState) (ai : Z) : outcome NetState :=
  if bool_decide (ai ∈ ns_ais s) then Ret (set_ais (ns_ais s ∖ {[ai]}) s) else Undef.
(** [if (ai) freeaddrinfo(ai)]. *)
Definition free_ai (s : NetState) (ai : option Z) : outcome NetState :=
  match ai with Some ai => freeaddrinfo s ai | None => Ret s end.
Definition open_fd (fd : Z) (s : NetState) : NetState := set_fds ({[fd]} ∪ ns_fds s) (ns_stale s) s.
Definition close_fd (fd : Z) (s : NetState) : NetState :=
  if bool_decide (fd ∈ ns_fds s) then set_fds (ns_fds s ∖ {[fd]}) (ns_stale s) s else set_fds (ns_fds s) (fd :: ns_stale s) s.
(** [if (fd >= 0) close(fd)]. *)
Definition close_if (fd : Z) (s : NetState) : NetState := if 0 <=? fd then close_fd fd s else s.

(** ** Lists through [next] *)
Fixpoint next_unlink (a : Z) (l : list Z) : list Z :=
  match l with
  | [] => []
  | b :: l => if b =? a then l else b :: next_unlink a l
  end.
(** [tail->next = r]: what followed [tail] is cut off. *)
Fixpoint link_after (tl a : Z) (l : list Z) : list Z :=
  match l with
  | [] => []
  | b :: l => if b =? tl then [b; a] else b :: link_after tl a l
  end.
Fixpoint find_req (s : NetState) (pid : Z) (l : list Z) : outcome (option Z) :=
  match l with
  | [] => Ret None
  | a :: l => r ← get_req s a; if nr_pid r =? pid then Ret (Some a) else find_req s pid l
  end.
Definition net_resolve_find (s : NetState) (pid : Z) : outcome (option Z) := find_req s pid (resolves s).
Definition net_resolve_remove (s : NetState) (a : Z) : NetState :=
  set_lists (resolve_queue s) (resolve_tail s) (in_flight s) (next_unlink a (resolves s)) s.
(** The request and whether the resolver owns it. *)
Definition net_resolve_find_pending (s : NetState) (pid : Z) : outcome (option (Z * bool)) :=
  q ← find_req s pid (resolve_queue s);
  match q with
  | Some a => Ret (Some (a, false))
  | None => f ← find_req s pid (in_flight s); Ret (match f with Some a => Some (a, true) | None => None end)
  end.
Definition net_resolve_unlink_queue (s : NetState) (a : Z) : NetState :=
  let q := next_unlink a (resolve_queue s) in
  set_lists q (if bool_decide (resolve_tail s = Some a) then last q else resolve_tail s) (in_flight s) (resolves s) s.

(** * The resolver thread: its critical sections *)
Definition with_state (st : Z) (r : NetResolve) : NetResolve :=
  mk_NetResolve (nr_pid r) (nr_host r) (nr_port r) (nr_pipe_r r) (nr_pipe_w r) st (nr_cancelled r) (nr_deadline r) (nr_eai r) (nr_ai r).
Definition with_result (eai : Z) (ai : option Z) (r : NetResolve) : NetResolve :=
  mk_NetResolve (nr_pid r) (nr_host r) (nr_port r) (nr_pipe_r r) (nr_pipe_w r) (nr_state r) (nr_cancelled r) (nr_deadline r) eai ai.
Definition with_cancelled (r : NetResolve) : NetResolve :=
  mk_NetResolve (nr_pid r) (nr_host r) (nr_port r) (nr_pipe_r r) (nr_pipe_w r) (nr_state r) true (nr_deadline r) (nr_eai r) (nr_ai r).

(** The first one waits while the queue is empty. *)
Definition resolver_take (s : NetState) : outcome (option Z * NetState) :=
  match resolve_queue s with
  | [] => Ret (None, s)
  | a :: q =>
      r ← get_req s a;
      let s := set_lists q (match q with [] => None | _ => resolve_tail s end) (a :: in_flight s) (resolves s) s in
      Ret (Some a, put_req a (with_state 1 r) s)
  end.
(** [getaddrinfo] stores its answer in the request; then the second section:
    the request is freed when it was cancelled, and is done otherwise. *)
Definition resolver_finish (s : NetState) (a eai : Z) (ai : option Z) : outcome (bool * NetState) :=
  r ← get_req s a;
  let r := with_result eai ai r in
  let s := put_req a r (set_ais (match ai with Some x => {[x]} ∪ ns_ais s | None => ns_ais s end) s) in
  let s := set_lists (resolve_queue s) (resolve_tail s) (next_unlink a (in_flight s)) (resolves s) s in
  if nr_cancelled r then
    s ← free_ai s (nr_ai r);
    s ← free_req s a;
    Ret (false, s)
  else Ret (true, put_req a (with_state 2 r) (set_lists (resolve_queue s) (resolve_tail s) (in_flight s) (a :: resolves s) s)).
(** [write(r->pipe_w, &b, 1)], after the unlock: the descriptor written to. *)
Definition resolver_write (s : NetState) (a : Z) : outcome Z := r ← get_req s a; Ret (nr_pipe_w r).

(** * Connecting *)
(** The answers of the system to one call of [net_connect]. *)
Record os := mk_os {
  o_now : Z (** at the start *);
  o_now_fin : Z (** in [net_connect_finish] *);
  o_now_new : Z (** of a fresh call *);
  o_alloc : option Z (** the struct allocated, if any *);
  o_pipe : option (Z * Z);
  o_strdup : bool;
  o_thread : bool;
  o_numeric : bool (** [inet_pton] *);
  o_socket : Z + Z (** a descriptor or an errno *);
  o_connect : Z (** 0 or an errno *);
  o_soerr : Z (** of [getsockopt] *)
}.

(** Stage 3. [None]: no connect of this process. *)
Fixpoint find_conn (s : NetState) (pid : Z) (l : list Z) : outcome (option Z) :=
  match l with
  | [] => Ret None
  | a :: l => e ← or_undef (ns_conns s !! a); if nc_pid e =? pid then Ret (Some a) else find_conn s pid l
  end.
Definition drop_conn (s : NetState) (a : Z) : NetState := set_conns (delete a (ns_conns s)) (next_unlink a (connects s)) s.
Definition net_connect_finish (o : os) (pid : Z) (s : NetState) (p : pio) : outcome (option net_answer * NetState * pio) :=
  c ← find_conn s pid (connects s);
  match c with
  | None => Ret (None, s, p)
  | Some a =>
      e ← or_undef (ns_conns s !! a);
      if nc_deadline e <? o_now_fin o then Ret (Some (ASym "timeout"), close_fd (nc_fd e) (drop_conn s a), arm_deadline (-1) p)
      else if o_soerr o =? 0 then Ret (Some (AFd (nc_fd e)), drop_conn s a, arm_deadline (-1) p)
      else if o_soerr o =? ECONNREFUSED then
        Ret (Some (ASym "refused"), close_fd (nc_fd e) (drop_conn s a), arm_deadline (-1) (set_errno (o_soerr o) p))
      else if (o_soerr o =? EINPROGRESS) || (o_soerr o =? EALREADY) then
        Ret (Some ANil, s, vm_yield (arm_deadline (nc_deadline e) (vm_watch_fd (nc_fd e) POLLOUT p)))
      else Ret (Some (ASym "error"), close_fd (nc_fd e) (drop_conn s a), arm_deadline (-1) (set_errno (o_soerr o) p))
  end.

(** Stage 2. *)
Definition net_connect_sockaddr (o : os) (pid deadline : Z) (s : NetState) (p : pio) : net_answer * NetState * pio :=
  match o_socket o with
  | inr e => (ASym "error", s, set_errno e p)
  | inl fd =>
      let s := open_fd fd s in
      if o_connect o =? 0 then (AFd fd, s, p)
      else if (o_connect o =? EINPROGRESS) || (o_connect o =? EALREADY) then
        match o_alloc o with
        | None => (ASym "error", close_fd fd s, p)
        | Some a =>
            (ANil, set_conns (<[a := mk_NetConnect pid fd deadline]> (ns_conns s)) (a :: connects s) s,
             vm_yield (arm_deadline deadline (vm_watch_fd fd POLLOUT p)))
        end
      else if o_connect o =? EISCONN then (AFd fd, s, p)
      else (ASym (if o_connect o =? ECONNREFUSED then "refused" else "error"), close_fd fd s, set_errno (o_connect o) p)
  end.

(** Stage 1. *)
Definition net_connect_dns_enqueue (o : os) (pid : Z) (host : string) (port timeout_ms : Z) (s : NetState) (p : pio)
    : outcome (net_answer * NetState * pio) :=
  match o_alloc o, o_pipe o with
  | None, _ | _, None => Ret (ASym "error", s, p)
  | Some a, Some (pr, pw) =>
      let s := open_fd pw (open_fd pr s) in
      deadline ← chk64 (o_now_new o + timeout_ms);
      if negb (o_strdup o) then Ret (ASym "error", close_fd pw (close_fd pr s), p)
      else
        let r := mk_NetResolve pid host port pr pw 0 false deadline 0 None in
        let q := match resolve_tail s with Some tl => link_after tl a (resolve_queue s) | None => [a] end in
        let s1 := put_req a r (set_lists q (Some a) (in_flight s) (resolves s) s) in
        if negb (resolver_started s) && negb (o_thread o) then
          let s2 := set_lists (next_unlink a q) (last (next_unlink a q)) (in_flight s) (resolves s) s1 in
          s3 ← free_req s2 a;
          Ret (ASym "error", close_fd pw (close_fd pr s3), p)
        else
          Ret (ANil, set_started true s1, vm_yield (arm_deadline deadline (vm_watch_fd pr POLLIN p)))
  end.

(** The re-entry of stage 1: an answer, an address to connect to with the
    deadline left, or nothing for this process. *)
Inductive resumption := RAnswer (a : net_answer) | RResolved (ai deadline : Z) | RNone.
Definition close_pipes (r : NetResolve) (s : NetState) (p : pio) : NetState * pio :=
  (close_if (nr_pipe_w r) (close_if (nr_pipe_r r) s), unwatch (nr_pipe_r r) p).
Definition net_resume (o : os) (pid : Z) (s : NetState) (p : pio) : outcome (resumption * NetState * pio) :=
  d ← net_resolve_find s pid;
  match d with
  | Some a =>
      r ← get_req s a;
      s ← free_req (net_resolve_remove s a) a;
      let '(s, p) := close_pipes r s p in
      if nr_deadline r <? o_now o then
        s ← free_ai s (nr_ai r);
        Ret (RAnswer (ASym "timeout"), s, arm_deadline (-1) p)
      else if negb (nr_eai r =? 0) then
        s ← free_ai s (nr_ai r);
        Ret (RAnswer (ASym "dns_error"), s, p)
      else ai ← or_undef (nr_ai r); Ret (RResolved ai (nr_deadline r), s, p)
  | None =>
      f ← net_resolve_find_pending s pid;
      match f with
      | None => Ret (RNone, s, p)
      | Some (a, inflight) =>
          r ← get_req s a;
          if nr_deadline r <=? o_now o then
            s ← (if (inflight : bool) then Ret (put_req a (with_cancelled r) s) else free_req (net_resolve_unlink_queue s a) a);
            let '(s, p) := close_pipes r s p in
            Ret (RAnswer (ASym "timeout"), s, arm_deadline (-1) p)
          else Ret (RAnswer ANil, s, vm_yield (arm_deadline (nr_deadline r) (vm_watch_fd (nr_pipe_r r) POLLIN p)))
      end
  end.

(** [net_connect] with its arguments read. *)
Definition connect_to (o : os) (pid : Z) (host : string) (port timeout_ms : Z) (s : NetState) (p : pio)
    : outcome (net_answer * NetState * pio) :=
  let p := arm_deadline (-1) p in
  '(r, s, p) ← net_resume o pid s p;
  match r with
  | RAnswer a => Ret (a, s, p)
  | RResolved ai deadline =>
      let '(a, s, p) := net_connect_sockaddr o pid deadline s p in
      s ← freeaddrinfo s ai;
      Ret (a, s, p)
  | RNone =>
      '(c, s, p) ← net_connect_finish o pid s p;
      match c with
      | Some a => Ret (a, s, p)
      | None =>
          if o_numeric o then
            deadline ← chk64 (o_now_new o + timeout_ms);
            Ret (net_connect_sockaddr o pid deadline s p)
          else net_connect_dns_enqueue o pid host port timeout_ms s p
      end
  end.
Definition net_connect (state_ok : bool) (o : os) (pid : Z) (st : store) (args : list Val) (s : NetState) (p : pio)
    : outcome (net_answer * NetState * pio) :=
  if negb state_ok then Ret (AInt (-1), s, p)
  else if (length args <? 2)%nat then Ret (AInt (-1), s, p)
  else
    v0 ← arg args 0;
    v1 ← arg args 1;
    if negb (val_is_string v0) || negb (val_is_int v1) then Ret (AInt (-1), s, p)
    else
      d ← read_string st v0;
      let port := i32 (val_get_int v1) in
      let timeout_ms := match args !! 2%nat with
        | Some v => if val_is_int v && (0 <? val_get_int v) then val_get_int v else NET_CONNECT_DEFAULT_TIMEOUT_MS
        | None => NET_CONNECT_DEFAULT_TIMEOUT_MS
        end in
      connect_to o pid (nul_string d) port timeout_ms s p.

(** * Sockets *)
Definition int_arg32 (args : list Val) (i : nat) : outcome Z := v ← arg args i; Ret (i32 (val_get_int v)).
Definition net_close (args : list Val) (s : NetState) : outcome (net_answer * NetState) :=
  fd ← int_arg32 args 0; Ret (ANil, close_fd fd s).
Definition net_errno (p : pio) : net_answer := AInt (last_errno p).
(** [sock], [bind] and [listen]: a descriptor or an errno; 0 or an errno. *)
Definition net_listen (sock : Z + Z) (bind listen : Z) (s : NetState) (p : pio) : net_answer * NetState * pio :=
  match sock with
  | inr e => (AInt (-1), s, set_errno e p)
  | inl fd =>
      let s := open_fd fd s in
      if negb (bind =? 0) then (AInt (-1), close_fd fd s, set_errno bind p)
      else if negb (listen =? 0) then (AInt (-1), close_fd fd s, set_errno listen p)
      else (AFd fd, s, p)
  end.
Definition net_accept (args : list Val) (conn : Z + Z) (s : NetState) (p : pio) : outcome (net_answer * NetState * pio) :=
  server_fd ← int_arg32 args 0;
  match conn with
  | inl fd => Ret (AFd fd, open_fd fd s, p)
  | inr e =>
      if e =? EAGAIN then Ret (ANil, s, vm_yield (vm_watch_fd server_fd POLLIN p))
      else Ret (AInt (-1), s, set_errno e p)
  end.
Definition read_limit (args : list Val) : outcome Z :=
  n ← (if (2 <=? length args)%nat then int_arg32 args 1 else Ret 4096);
  let n := if n <=? 0 then 4096 else n in
  Ret (if 65536 <? n then 65536 else n).
(** [got n]: the bytes read into a buffer of [n], or an errno. *)
Definition net_read (args : list Val) (alloc : Z → bool) (got : Z → list Z + Z) (p : pio) : outcome (net_answer * pio) :=
  fd ← int_arg32 args 0;
  max_len ← read_limit args;
  if negb (alloc max_len) then Ret (AInt (-1), p)
  else
    match got max_len with
    | inr e => if e =? EAGAIN then Ret (ANil, vm_yield (vm_watch_fd fd POLLIN p)) else Ret (AInt (-1), set_errno e p)
    | inl [] => Ret (ASym "eof", p)
    | inl d => Ret (AStr d, p)
    end.
Definition net_write (args : list Val) (st : store) (put : list Z → Z + Z) (p : pio) : outcome (net_answer * pio) :=
  fd ← int_arg32 args 0;
  v ← arg args 1;
  if negb (val_is_string v) then Ret (AInt (-1), p)
  else
    d ← read_string st v;
    match put d with
    | inr e => if e =? EAGAIN then Ret (ANil, vm_yield (vm_watch_fd fd POLLOUT p)) else Ret (AInt (-1), set_errno e p)
    | inl n => Ret (AInt n, p)
    end.
