(* ===== verification/NetSpec.v ===== *)
(** The registry of connects under any interleaving of the workers and the
    resolver thread. *)
From stdpp Require Import base tactics list gmap strings.
From Stdlib Require Import ZArith Lia.
From S2P Require Import Prelude Values Heap Resource Gc GcCorrect GcSpec Tree Alloc Copy Symtab Cmodule Str Net.
Open Scope Z_scope.

(** * The system *)

(** Where the resolver thread is: waiting, inside [getaddrinfo] for a request,
    or between its unlock and the write to the request's pipe. *)
Inductive rthread := RIdle | RResolving (a : Z) | RWriting (a : Z).
(** [y_held]: the address lists workers have taken out of done requests. *)
Record sys := mk_sys { y_net : NetState; y_res : rthread; y_held : gset Z }.
Definition sys_new : sys := mk_sys net_state_new RIdle ∅.

(** An allocation is new. *)
Definition os_ok (s : NetState) (o : os) : Prop :=
  ∀ a, o_alloc o = Some a → ns_reqs s !! a = None ∧ ns_conns s !! a = None.
(** [getaddrinfo] gives a new address list exactly when it succeeds. *)
Definition gai_ok (y : sys) (eai : Z) (ai : option Z) : Prop :=
  match ai with Some x => eai = 0 ∧ x ∉ ns_ais (y_net y) | None => eai ≠ 0 end.
Definition hold (r : resumption) (h : gset Z) : gset Z := match r with RResolved ai _ => {[ai]} ∪ h | _ => h end.

Inductive net_step : sys → sys → Prop :=
| S_resume o pid p s t h r s' p' :
    net_resume o pid s p = Ret (r, s', p') → net_step (mk_sys s t h) (mk_sys s' t (hold r h))
| S_finish o pid p s t h c s' p' :
    net_connect_finish o pid s p = Ret (c, s', p') → net_step (mk_sys s t h) (mk_sys s' t h)
| S_connect o pid deadline p s t h a s' p' :
    os_ok s o → net_connect_sockaddr o pid deadline s p = (a, s', p') → net_step (mk_sys s t h) (mk_sys s' t h)
| S_enqueue o pid host port timeout_ms p s t h a s' p' :
    os_ok s o → net_connect_dns_enqueue o pid host port timeout_ms s p = Ret (a, s', p') → net_step (mk_sys s t h) (mk_sys s' t h)
| S_free ai s t h s' :
    ai ∈ h → freeaddrinfo s ai = Ret s' → net_step (mk_sys s t h) (mk_sys s' t (h ∖ {[ai]}))
| S_close fd s t h : net_step (mk_sys s t h) (mk_sys (close_fd fd s) t h)
| S_open fd s t h : net_step (mk_sys s t h) (mk_sys (open_fd fd s) t h)
| S_take s h a s' : resolver_started s = true → resolver_take s = Ret (Some a, s') → net_step (mk_sys s RIdle h) (mk_sys s' (RResolving a) h)
| S_done s h a eai ai b s' :
    gai_ok (mk_sys s (RResolving a) h) eai ai → resolver_finish s a eai ai = Ret (b, s') →
    net_step (mk_sys s (RResolving a) h) (mk_sys s' (if b then RWriting a else RIdle) h)
| S_write s h a : net_step (mk_sys s (RWriting a) h) (mk_sys s RIdle h).
Inductive net_reachable : sys → Prop :=
| reach_new : net_reachable sys_new
| reach_step y y' : net_reachable y → net_step y y' → net_reachable y'.

(** * The invariant *)
Definition req_lists (s : NetState) : list Z := resolve_queue s ++ in_flight s ++ resolves s.
(** The allocated blocks are those on the list, each once. *)
Definition tracks {A} (m : gmap Z A) (l : list Z) : Prop := NoDup l ∧ ∀ a, is_Some (m !! a) ↔ a ∈ l.
(** The fields of a request, by the list it is on. *)
Record req_ok (s : NetState) (a : Z) (r : NetResolve) : Prop := {
  k_queue : a ∈ resolve_queue s → nr_state r = 0 ∧ nr_cancelled r = false ∧ nr_ai r = None;
  k_flight : a ∈ in_flight s → nr_state r = 1 ∧ nr_ai r = None;
  k_done : a ∈ resolves s → nr_state r = 2 ∧ nr_cancelled r = false ∧ (nr_eai r = 0 ↔ is_Some (nr_ai r))
}.
(** Each allocated address list has one owner: a request or a worker. *)
Record ais_ok (m : gmap Z NetResolve) (ais h : gset Z) : Prop := {
  o_own : ∀ x, x ∈ ais ↔ (∃ a r, m !! a = Some r ∧ nr_ai r = Some x) ∨ x ∈ h;
  o_sep : ∀ a r x, m !! a = Some r → nr_ai r = Some x → x ∉ h;
  o_uniq : ∀ a b r r' x, m !! a = Some r → m !! b = Some r' → nr_ai r = Some x → nr_ai r' = Some x → a = b
}.
Record net_inv (s : NetState) (t : rthread) (h : gset Z) : Prop := {
  v_reqs : tracks (ns_reqs s) (req_lists s);
  v_conns : tracks (ns_conns s) (connects s);
  v_tail : resolve_tail s = last (resolve_queue s);
  v_flight : in_flight s = match t with RResolving a => [a] | _ => [] end;
  v_req : ∀ a r, ns_reqs s !! a = Some r → req_ok s a r;
  v_ais : ais_ok (ns_reqs s) (ns_ais s) h
}.

Lemma inv_new : net_inv net_state_new RIdle ∅.
Proof.
  assert (∀ A, tracks (∅ : gmap Z A) []) as Ht.
  { intros A. split; [constructor|]. intros a. rewrite lookup_empty. split; [by intros []|by intros ?%not_elem_of_nil]. }
  split; cbn; [apply Ht|apply Ht|done|done|by intros ? ? ?|].
  split; [|by intros ? ? ? ?|by intros ? ? ? ? ? ?].
  intros x. split; [set_solver|]. intros [(? & ? & Hl & _)|Hx]; [by rewrite lookup_empty in Hl|set_solver].
Qed.

(** ** Blocks and lists *)
Section tracks.
Context {A : Type}.
Implicit Types (m : gmap Z A) (l : list Z).

Lemma tracks_perm m l l' : l ≡ₚ l' → tracks m l → tracks m l'.
Proof. intros Hp [H1 H2]. split; [by rewrite <- Hp|]. intros a. by rewrite H2, Hp. Qed.
Lemma tracks_in m l a : tracks m l → a ∈ l → is_Some (m !! a).
Proof. intros [_ H]. by rewrite H. Qed.
Lemma tracks_add m l a x : tracks m l → m !! a = None → tracks (<[a := x]> m) (a :: l).
Proof.
  intros [H1 H2] Hn. split.
  - constructor; [|done]. rewrite <- H2, Hn. by intros [].
  - intros b. rewrite elem_of_cons, <- H2. destruct (decide (b = a)) as [->|Hb].
    + rewrite lookup_insert_eq. naive_solver.
    + rewrite lookup_insert_ne by done. naive_solver.
Qed.
Lemma tracks_upd m l a x : tracks m l → a ∈ l → tracks (<[a := x]> m) l.
Proof.
  intros [H1 H2] Ha. split; [done|]. intros b. destruct (decide (b = a)) as [->|Hb].
  - rewrite lookup_insert_eq. naive_solver.
  - rewrite lookup_insert_ne by done. by rewrite H2.
Qed.
Lemma tracks_del m l a : tracks m (a :: l) → tracks (delete a m) l.
Proof.
  intros [[Hn H1]%NoDup_cons H2]. split; [done|]. intros b. destruct (decide (b = a)) as [->|Hb].
  - rewrite lookup_delete_eq. split; [by intros []|done].
  - rewrite lookup_delete_ne by done. rewrite H2, elem_of_cons. naive_solver.
Qed.
End tracks.

(** ** Lists through [next] *)
Lemma unlink_perm a l : a ∈ l → l ≡ₚ a :: next_unlink a l.
Proof.
  induction l as [|b l IH]; [by intros ?%not_elem_of_nil|]. intros Ha. cbn [next_unlink].
  destruct (Z.eqb_spec b a) as [->|Hne]; [done|].
  apply elem_of_cons in Ha as [->|Ha]; [done|]. by rewrite Permutation_swap, <- IH.
Qed.
Lemma unlink_last a l : last l ≠ Some a → last (next_unlink a l) = last l.
Proof.
  induction l as [|b l IH]; [done|]. cbn [next_unlink]. intros Hl. destruct (Z.eqb_spec b a) as [->|Hne].
  - by destruct l.
  - destruct l as [|c l]; [done|]. rewrite last_cons_cons in Hl |- *. specialize (IH Hl).
    revert IH. cbn [next_unlink]. destruct (Z.eqb_spec c a) as [->|Hc]; [|done].
    destruct l as [|d l]; [done|]. by rewrite last_cons_cons.
Qed.
Lemma link_after_last tl a l : NoDup l → last l = Some tl → link_after tl a l = l ++ [a].
Proof.
  induction l as [|b l IH]; [done|]. intros [Hb Hn]%NoDup_cons Hl. cbn [link_after app].
  destruct (Z.eqb_spec b tl) as [->|Hne].
  - destruct l as [|c l]; [done|]. exfalso. rewrite last_cons_cons in Hl. apply Hb. by apply last_Some_elem_of.
  - destruct l as [|c l]; [by injection Hl|]. rewrite last_cons_cons in Hl. by rewrite IH.
Qed.
Lemma unlink_snoc a l : a ∉ l → next_unlink a (l ++ [a]) = l.
Proof.
  induction l as [|b l IH]; [intros _; cbn; by rewrite Z.eqb_refl|]. intros [Hne Hn]%not_elem_of_cons.
  cbn [next_unlink app]. destruct (Z.eqb_spec b a); [done|]. by rewrite IH.
Qed.

(** ** Owners of the address lists *)
Section ais.
Context (m : gmap Z NetResolve) (ais h : gset Z) (Hok : ais_ok m ais h).

Lemma ais_keep m' : (∀ b x, (∃ r, m' !! b = Some r ∧ nr_ai r = Some x) ↔ ∃ r, m !! b = Some r ∧ nr_ai r = Some x) → ais_ok m' ais h.
Proof using Hok.
  destruct Hok as [H1 H2 H3]. intros He. split.
  - intros x. rewrite (H1 x). split; (intros [(b & Hb)|Hx]; [|by right]); left; exists b; by apply He.
  - intros a r x Hr Hx. destruct (proj1 (He a x)) as (r0 & ? & ?); [by eauto|]. by eapply H2.
  - intros a b r r' x Hr Hr' Hx Hx'. destruct (proj1 (He a x)) as (r0 & ? & ?); [eauto|].
    destruct (proj1 (He b x)) as (r1 & ? & ?); [by eauto|]. by eapply (H3 a b r0 r1).
Qed.
Lemma ais_upd a r r' : m !! a = Some r → nr_ai r' = nr_ai r → ais_ok (<[a := r']> m) ais h.
Proof using Hok.
  intros Ha He. apply ais_keep. intros b x. destruct (decide (b = a)) as [->|Hb].
  - rewrite lookup_insert_eq, Ha. split; intros (? & [= <-] & ?); eexists; (split; [done|congruence]).
  - by rewrite lookup_insert_ne by done.
Qed.
Lemma ais_add a r : m !! a = None → nr_ai r = None → ais_ok (<[a := r]> m) ais h.
Proof using Hok.
  intros Ha He. apply ais_keep. intros b x. destruct (decide (b = a)) as [->|Hb].
  - rewrite lookup_insert_eq, Ha. split; [intros (? & [= <-] & ?); congruence|by intros (? & ? & ?)].
  - by rewrite lookup_insert_ne by done.
Qed.
Lemma ais_del a r : m !! a = Some r → nr_ai r = None → ais_ok (delete a m) ais h.
Proof using Hok.
  intros Ha He. apply ais_keep. intros b x. destruct (decide (b = a)) as [->|Hb].
  - rewrite lookup_delete_eq, Ha. split; [by intros (? & ? & ?)|intros (? & [= <-] & ?); congruence].
  - by rewrite lookup_delete_ne by done.
Qed.
(** A worker takes the address list of a request it frees. *)
Lemma ais_hold a r x : m !! a = Some r → nr_ai r = Some x → ais_ok (delete a m) ais ({[x]} ∪ h).
Proof using Hok.
  destruct Hok as [H1 H2 H3]. intros Ha Hx. split.
  - intros y. rewrite H1, elem_of_union, elem_of_singleton. split.
    + intros [(b & r' & Hb & Hy)|Hy]; [|by right; right]. destruct (decide (b = a)) as [->|Hne].
      * right; left. congruence.
      * left. exists b, r'. by rewrite lookup_delete_ne.
    + intros [(b & r' & Hb & Hy)|[->|Hy]]; [|by left; eauto|by right].
      apply lookup_delete_Some in Hb as [_ Hb]. left. eauto.
  - intros b r' y Hb Hy. apply lookup_delete_Some in Hb as [Hne Hb]. apply not_elem_of_union. split; [|by eauto].
    rewrite elem_of_singleton. intros ->. apply Hne. by eapply (H3 a b r r').
  - intros b c r1 r2 y Hb Hc. apply lookup_delete_Some in Hb as [_ Hb], Hc as [_ Hc]. eauto.
Qed.
(** [getaddrinfo] stores a new one. *)
Lemma ais_result a r r' x : m !! a = Some r → nr_ai r = None → x ∉ ais → nr_ai r' = Some x → ais_ok (<[a := r']> m) ({[x]} ∪ ais) h.
Proof using Hok.
  destruct Hok as [H1 H2 H3]. intros Ha Hr Hx Hx'.
  assert (∀ b r1 y, m !! b = Some r1 → nr_ai r1 = Some y → y ≠ x ∧ b ≠ a) as Hn.
  { intros b r1 y Hb Hy. split; [|congruence]. intros ->. apply Hx, H1. left. eauto. }
  split.
  - intros y. rewrite elem_of_union, elem_of_singleton, H1. split.
    + intros [->|[(b & r1 & Hb & Hy)|Hy]]; [left; exists a, r'; by rewrite lookup_insert_eq| |by right].
      left. exists b, r1. rewrite lookup_insert_ne; [done|]. destruct (Hn b r1 y); congruence.
    + intros [(b & r1 & Hb & Hy)|Hy]; [|by right; right]. apply lookup_insert_Some in Hb as [[-> ->]|[_ Hb]]; [left; congruence|].
      right; left. eauto.
  - intros b r1 y Hb Hy. apply lookup_insert_Some in Hb as [[-> ->]|[_ Hb]]; [|eauto].
    intros Hh. apply Hx, H1. right. congruence.
  - intros b c r1 r2 y Hb Hc Hy1 Hy2.
    apply lookup_insert_Some in Hb as [[-> ->]|[? Hb]], Hc as [[-> ->]|[? Hc]]; [done| | |by eauto].
    + destruct (Hn c r2 y); congruence.
    + destruct (Hn b r1 y); congruence.
Qed.
Lemma ais_held x : x ∈ h → x ∈ ais.
Proof using Hok. intros Hx. apply (o_own _ _ _ Hok). by right. Qed.
Lemma ais_free x : x ∈ h → ais_ok m (ais ∖ {[x]}) (h ∖ {[x]}).
Proof using Hok.
  destruct Hok as [H1 H2 H3]. intros Hx. split; [|set_solver|done].
  intros y. rewrite !elem_of_difference, H1, elem_of_singleton. split; [naive_solver|].
  intros [(b & r & Hb & Hy)|[? ?]]; [|naive_solver]. split; [left; eauto|]. intros ->. by eapply H2.
Qed.
End ais.
(** A request is freed with its address list. *)
Lemma ais_drop m ais h a r x : ais_ok m ais h → m !! a = Some r → nr_ai r = Some x → ais_ok (delete a m) (ais ∖ {[x]}) h.
Proof.
  intros Hok Ha Hx. pose proof (o_sep _ _ _ Hok _ _ _ Ha Hx) as Hs.
  replace h with (({[x]} ∪ h) ∖ {[x]}) by set_solver. apply ais_free; [|set_solver]. by eapply ais_hold.
Qed.

(** * The operations keep the invariant *)
Lemma req_ok_mono s s' a r :
  (a ∈ resolve_queue s' → a ∈ resolve_queue s) → (a ∈ in_flight s' → a ∈ in_flight s) → (a ∈ resolves s' → a ∈ resolves s) →
  req_ok s a r → req_ok s' a r.
Proof. intros H1 H2 H3 [K1 K2 K3]. split; auto. Qed.
Lemma unlink_sub a l x : x ∈ next_unlink a l → x ∈ l.
Proof.
  induction l as [|b l IH]; [done|]. cbn [next_unlink]. destruct (b =? a); [by right|].
  rewrite !elem_of_cons. naive_solver.
Qed.
Lemma close_if_eq fd s : ∃ f st, close_if fd s = set_fds f st s.
Proof.
  unfold close_if, close_fd. destruct (0 <=? fd); [case_bool_decide; by eexists _, _|].
  exists (ns_fds s), (ns_stale s). by destruct s.
Qed.
Lemma close_fd_eq fd s : ∃ f st, close_fd fd s = set_fds f st s.
Proof. unfold close_fd. case_bool_decide; by eexists _, _. Qed.
Lemma close_pipes_eq r s p : ∃ f st, close_pipes r s p = (set_fds f st s, unwatch (nr_pipe_r r) p).
Proof.
  unfold close_pipes. destruct (close_if_eq (nr_pipe_r r) s) as (f1 & st1 & ->).
  destruct (close_if_eq (nr_pipe_w r) (set_fds f1 st1 s)) as (f2 & st2 & ->). by exists f2, st2.
Qed.

Lemma find_req_spec s pid l : (∀ a, a ∈ l → is_Some (ns_reqs s !! a)) →
  ∃ x, find_req s pid l = Ret x ∧ match x with Some a => a ∈ l ∧ ∃ r, ns_reqs s !! a = Some r ∧ nr_pid r = pid | None => True end.
Proof.
  induction l as [|a l IH]; intros Hl; [by exists None|].
  destruct (Hl a ltac:(by left)) as [r Hr]. cbn [find_req]. unfold get_req. rewrite Hr. cbn [or_undef mbind outcome_bind].
  destruct (Z.eqb_spec (nr_pid r) pid) as [<-|Hne].
  - exists (Some a). split; [done|]. split; [by left|eauto].
  - destruct IH as (x & -> & Hx); [intros; apply Hl; by right|]. exists x. split; [done|].
    destruct x; [|done]. destruct Hx as [? Hx]. split; [by right|done].
Qed.
Lemma find_conn_spec s pid l : (∀ a, a ∈ l → is_Some (ns_conns s !! a)) →
  ∃ x, find_conn s pid l = Ret x ∧ match x with Some a => a ∈ l ∧ ∃ e, ns_conns s !! a = Some e ∧ nc_pid e = pid | None => True end.
Proof.
  induction l as [|a l IH]; intros Hl; [by exists None|].
  destruct (Hl a ltac:(by left)) as [r Hr]. cbn [find_conn]. rewrite Hr. cbn [or_undef mbind outcome_bind].
  destruct (Z.eqb_spec (nc_pid r) pid) as [<-|Hne].
  - exists (Some a). split; [done|]. split; [by left|eauto].
  - destruct IH as (x & -> & Hx); [intros; apply Hl; by right|]. exists x. split; [done|].
    destruct x; [|done]. destruct Hx as [? Hx]. split; [by right|done].
Qed.

Section inv.
Context (s : NetState) (t : rthread) (h : gset Z) (Hi : net_inv s t h).
Implicit Types (fds : gset Z) (stale : list Z).

Lemma inv_in a : a ∈ req_lists s → is_Some (ns_reqs s !! a).
Proof using Hi. apply tracks_in, (v_reqs _ _ _ Hi). Qed.
Lemma inv_disjoint a :
  (a ∈ resolve_queue s → a ∉ in_flight s ∧ a ∉ resolves s) ∧ (a ∈ in_flight s → a ∉ resolve_queue s ∧ a ∉ resolves s) ∧
  (a ∈ resolves s → a ∉ resolve_queue s ∧ a ∉ in_flight s).
Proof using Hi.
  destruct (v_reqs _ _ _ Hi) as [Hn _]. unfold req_lists in Hn. apply NoDup_app in Hn as (_ & H1 & Hn).
  apply NoDup_app in Hn as (_ & H2 & _). specialize (H1 a). specialize (H2 a). rewrite elem_of_app in H1. tauto.
Qed.
Lemma inv_fds fds stale : net_inv (set_fds fds stale s) t h.
Proof using Hi. destruct Hi as [H1 H2 H3 H4 H5 H6]. split; try done. intros a r Hr. by eapply req_ok_mono, H5. Qed.
Lemma inv_conns_add a e fds stale : ns_conns s !! a = None →
  net_inv (set_conns (<[a := e]> (ns_conns s)) (a :: connects s) (set_fds fds stale s)) t h.
Proof using Hi.
  intros Ha. destruct Hi as [H1 H2 H3 H4 H5 H6]. split; try done; [by apply tracks_add|]. intros b r Hr. by eapply req_ok_mono, H5.
Qed.
Lemma inv_conns_drop a fds stale : a ∈ connects s → net_inv (set_fds fds stale (drop_conn s a)) t h.
Proof using Hi.
  intros Ha. destruct Hi as [H1 H2 H3 H4 H5 H6]. split; try done.
  - cbn. apply tracks_del. by eapply tracks_perm; [apply unlink_perm|].
  - intros b r Hr. by eapply req_ok_mono, H5.
Qed.
(** A done request is picked up. *)
Lemma inv_done a ais' h' fds stale : a ∈ resolves s → ais_ok (delete a (ns_reqs s)) ais' h' →
  net_inv (set_ais ais' (set_fds fds stale (set_reqs (delete a (ns_reqs s)) (net_resolve_remove s a)))) t h'.
Proof using Hi.
  intros Ha Hais. destruct Hi as [H1 H2 H3 H4 H5 H6]. split; try done.
  - cbn. apply tracks_del. eapply tracks_perm; [|exact H1]. unfold req_lists. cbn.
    rewrite (unlink_perm a (resolves s)) at 1 by done. by rewrite !(assoc_L (++)), <- Permutation_middle.
  - intros b r Hb. cbn in Hb. apply lookup_delete_Some in Hb as [_ Hb]. eapply req_ok_mono, H5; try done. cbn. apply unlink_sub.
Qed.
(** A queued request is dropped by its worker. *)
Lemma inv_unqueue a r fds stale : a ∈ resolve_queue s → ns_reqs s !! a = Some r →
  net_inv (set_fds fds stale (set_reqs (delete a (ns_reqs s)) (net_resolve_unlink_queue s a))) t h.
Proof using Hi.
  intros Ha Hr. destruct Hi as [H1 H2 H3 H4 H5 H6]. split; try done.
  - cbn. apply tracks_del. eapply tracks_perm; [|exact H1]. unfold req_lists. cbn. by rewrite (unlink_perm a (resolve_queue s)) at 1.
  - cbn. rewrite H3. case_bool_decide as Hl; [done|]. symmetry. by apply unlink_last.
  - intros b r' Hb. cbn in Hb. apply lookup_delete_Some in Hb as [_ Hb]. eapply req_ok_mono, H5; try done. cbn. apply unlink_sub.
  - cbn. eapply ais_del; [done..|]. by apply (k_queue _ _ _ (H5 _ _ Hr)).
Qed.
(** A request being resolved is cancelled. *)
Lemma inv_cancel a r fds stale : a ∈ in_flight s → ns_reqs s !! a = Some r →
  net_inv (set_fds fds stale (put_req a (with_cancelled r) s)) t h.
Proof using Hi.
  intros Ha Hr. pose proof (inv_disjoint a) as (_ & Hd & _). destruct Hi as [H1 H2 H3 H4 H5 H6]. split; try done.
  - cbn. apply tracks_upd; [done|]. unfold req_lists. cbn. set_solver.
  - intros b r' Hb. cbn in Hb. apply lookup_insert_Some in Hb as [[<- <-]|[_ Hb]]; [|by eapply req_ok_mono, H5].
    destruct (H5 _ _ Hr) as [K1 K2 K3]. destruct (Hd Ha). split; cbn; try done.
  - cbn. by eapply ais_upd.
Qed.
End inv.

Lemma inv_resume o pid p s t h : net_inv s t h → ∃ r s' p', net_resume o pid s p = Ret (r, s', p') ∧ net_inv s' t (hold r h).
Proof.
  intros Hi. unfold net_resume, net_resolve_find.
  destruct (find_req_spec s pid (resolves s)) as (d & -> & Hd); [intros; apply (inv_in _ _ _ Hi); unfold req_lists; set_solver|].
  cbn [mbind outcome_bind]. destruct d as [a|].
  - destruct Hd as (Ha & r & Hr & _). unfold get_req at 1, free_req, get_req. cbn [net_resolve_remove set_lists ns_reqs].
    rewrite Hr. cbn [or_undef mbind outcome_bind].
    destruct (close_pipes_eq r (set_reqs (delete a (ns_reqs s)) (net_resolve_remove s a)) p) as (f & st & ->).
    destruct (k_done _ _ _ (v_req _ _ _ Hi _ _ Hr) Ha) as (_ & _ & Hai). pose proof (v_ais _ _ _ Hi) as Hais.
    assert (∃ s' , free_ai (set_fds f st (set_reqs (delete a (ns_reqs s)) (net_resolve_remove s a))) (nr_ai r) = Ret s' ∧ net_inv s' t h) as (s' & Hf & Hs').
    { destruct (nr_ai r) as [x|] eqn:Hx; cbn [free_ai].
      - unfold freeaddrinfo. rewrite bool_decide_eq_true_2 by (apply (o_own _ _ _ Hais); left; eauto).
        eexists. split; [done|]. apply (inv_done _ _ _ Hi); [done|]. by eapply ais_drop.
      - eexists. split; [done|]. apply (inv_done _ _ _ Hi a (ns_ais s) h f st); [done|]. by eapply ais_del. }
    rewrite Hf. cbn [mbind outcome_bind]. destruct (_ <? _); [by eauto 6|].
    destruct (Z.eqb_spec (nr_eai r) 0) as [He|He]; cbn [negb]; [|by eauto 6].
    apply Hai in He as [x Hx]. rewrite Hx. cbn [or_undef mbind outcome_bind]. eexists _, _, _. split; [done|].
    apply (inv_done _ _ _ Hi a (ns_ais s) _ f st); [done|]. by eapply ais_hold.
  - unfold net_resolve_find_pending.
    destruct (find_req_spec s pid (resolve_queue s)) as (q & -> & Hq); [intros; apply (inv_in _ _ _ Hi); unfold req_lists; set_solver|].
    cbn [mbind outcome_bind]. destruct q as [a|].
    + destruct Hq as (Ha & r & Hr & _). cbn [mbind outcome_bind]. unfold get_req at 1, free_req, get_req.
      cbn [net_resolve_unlink_queue set_lists ns_reqs]. rewrite Hr. cbn [or_undef mbind outcome_bind].
      destruct (_ <=? _); [|by eauto 6].
      destruct (close_pipes_eq r (set_reqs (delete a (ns_reqs s)) (net_resolve_unlink_queue s a)) p) as (f & st & ->).
      eexists _, _, _. split; [done|]. by eapply inv_unqueue.
    + destruct (find_req_spec s pid (in_flight s)) as (i & -> & Hf); [intros; apply (inv_in _ _ _ Hi); unfold req_lists; set_solver|].
      cbn [mbind outcome_bind]. destruct i as [a|]; [|by eauto 6].
      destruct Hf as (Ha & r & Hr & _). unfold get_req. rewrite Hr. cbn [or_undef mbind outcome_bind].
      destruct (_ <=? _); [|by eauto 6]. cbn [mbind outcome_bind].
      destruct (close_pipes_eq r (put_req a (with_cancelled r) s) p) as (f & st & ->).
      eexists _, _, _. split; [done|]. by eapply inv_cancel.
Qed.

Lemma inv_finish o pid p s t h : net_inv s t h → ∃ c s' p', net_connect_finish o pid s p = Ret (c, s', p') ∧ net_inv s' t h.
Proof.
  intros Hi. unfold net_connect_finish.
  destruct (find_conn_spec s pid (connects s)) as (c & -> & Hc); [intros a Ha; by eapply tracks_in; [apply (v_conns _ _ _ Hi)|]|].
  cbn [mbind outcome_bind]. destruct c as [a|]; [|by eauto 6].
  destruct Hc as (Ha & e & He & _). rewrite He. cbn [or_undef mbind outcome_bind].
  assert (net_inv (close_fd (nc_fd e) (drop_conn s a)) t h) as H1.
  { destruct (close_fd_eq (nc_fd e) (drop_conn s a)) as (f & st & ->). by apply inv_conns_drop. }
  assert (net_inv (drop_conn s a) t h) as H2 by (apply (inv_conns_drop s t h Hi a (ns_fds s) (ns_stale s)); done).
  repeat case_match; by eauto 6.
Qed.

Lemma inv_sockaddr o pid deadline p s t h : os_ok s o → net_inv s t h → net_inv (net_connect_sockaddr o pid deadline s p).1.2 t h.
Proof.
  intros Ho Hi. unfold net_connect_sockaddr. destruct (o_socket o) as [fd|e]; [|done].
  assert (net_inv (close_fd fd (open_fd fd s)) t h) as H1 by (destruct (close_fd_eq fd (open_fd fd s)) as (f & st & ->); by apply inv_fds, inv_fds).
  assert (net_inv (open_fd fd s) t h) as H2 by by apply inv_fds.
  destruct (o_connect o =? 0); [done|]. destruct (_ || _).
  - destruct (o_alloc o) as [a|] eqn:Ha; [|done]. apply (inv_conns_add s t h Hi). by apply Ho.
  - by destruct (_ =? EISCONN).
Qed.

(** An address list a worker is done with. *)
Lemma inv_free ai s t h : net_inv s t h → ai ∈ h → ∃ s', freeaddrinfo s ai = Ret s' ∧ net_inv s' t (h ∖ {[ai]}).
Proof.
  intros [H1 H2 H3 H4 H5 H6] Ha. unfold freeaddrinfo. rewrite bool_decide_eq_true_2 by by eapply ais_held.
  eexists. split; [done|]. split; try done; [|by apply ais_free]. intros b r Hr. by eapply req_ok_mono, H5.
Qed.

(** A new request goes to the end of the queue. *)
Lemma inv_queued s t h a r fds stale b : net_inv s t h → ns_reqs s !! a = None →
  nr_state r = 0 → nr_cancelled r = false → nr_ai r = None →
  net_inv (set_started b (put_req a r (set_lists (resolve_queue s ++ [a]) (Some a) (in_flight s) (resolves s) (set_fds fds stale s)))) t h.
Proof.
  intros Hi Hn K1 K2 K3. assert (a ∉ req_lists s) as Ha.
  { destruct (v_reqs _ _ _ Hi) as [_ H]. rewrite <- H, Hn. by intros []. }
  unfold req_lists in Ha. rewrite !elem_of_app in Ha.
  destruct Hi as [H1 H2 H3 H4 H5 H6]. split; try done.
  - cbn. eapply tracks_perm; [|by apply tracks_add]. unfold req_lists. cbn. rewrite <- !(assoc_L (++)). cbn. apply Permutation_middle.
  - cbn. by rewrite last_snoc.
  - intros c r' Hc. cbn in Hc. apply lookup_insert_Some in Hc as [[<- <-]|[Hne Hc]].
    + split; cbn; try done; intros; exfalso; tauto.
    + eapply req_ok_mono, H5; try done. cbn. rewrite elem_of_app, list_elem_of_singleton. naive_solver.
  - cbn. by apply ais_add.
Qed.
(** The queue after the append. *)
Lemma inv_link s t h a : net_inv s t h →
  match resolve_tail s with Some tl => link_after tl a (resolve_queue s) | None => [a] end = resolve_queue s ++ [a].
Proof.
  intros Hi. rewrite (v_tail _ _ _ Hi). destruct (last (resolve_queue s)) as [tl|] eqn:Hl.
  - apply link_after_last; [|done]. destruct (v_reqs _ _ _ Hi) as [Hn _]. by apply NoDup_app in Hn as [? _].
  - by apply last_None in Hl as ->.
Qed.
(** The deadline of a new request fits its field. *)
Definition deadline_ok (o : os) (timeout_ms : Z) : Prop :=
  in_i64 (o_now_new o + timeout_ms) = true ∨ o_alloc o = None ∨ o_pipe o = None.
Lemma enqueue_deadline o pid host port timeout_ms s p x :
  net_connect_dns_enqueue o pid host port timeout_ms s p = Ret x → deadline_ok o timeout_ms.
Proof.
  unfold net_connect_dns_enqueue, deadline_ok, chk64. destruct (o_alloc o); [|by auto]. destruct (o_pipe o) as [[]|]; [|by auto].
  destruct (in_i64 _); [by auto|done].
Qed.
Lemma inv_enqueue o pid host port timeout_ms p s t h : net_inv s t h → os_ok s o → deadline_ok o timeout_ms →
  ∃ a s' p', net_connect_dns_enqueue o pid host port timeout_ms s p = Ret (a, s', p') ∧ net_inv s' t h.
Proof.
  intros Hi Ho Hd. unfold net_connect_dns_enqueue. destruct (o_alloc o) as [a|] eqn:Ha; [|by eauto 6].
  destruct (o_pipe o) as [[pr pw]|] eqn:Hp; [|by eauto 6]. destruct (Ho a Ha) as [Hn _].
  destruct Hd as [Hd|[?|?]]; [|congruence..]. unfold chk64. rewrite Hd. cbn [mbind outcome_bind].
  assert (net_inv (open_fd pw (open_fd pr s)) t h) as Hi' by by apply inv_fds, inv_fds.
  assert (∀ s, net_inv s t h → net_inv (close_fd pw (close_fd pr s)) t h) as Hc.
  { intros s0 H0. destruct (close_fd_eq pr s0) as (f & st & ->), (close_fd_eq pw (set_fds f st s0)) as (f' & st' & ->). by apply inv_fds, inv_fds. }
  destruct (o_strdup o); cbn [negb]; [|by eauto 6].
  rewrite (inv_link _ _ _ a Hi').
  assert (a ∉ resolve_queue s) as Hq.
  { intros Hq. destruct (inv_in _ _ _ Hi a) as [? ?]; [unfold req_lists; set_solver|congruence]. }
  destruct (_ && _).
  - change (resolve_queue (open_fd pw (open_fd pr s))) with (resolve_queue s). rewrite unlink_snoc by done.
    unfold free_req, get_req. cbn [put_req set_reqs set_lists ns_reqs]. rewrite lookup_insert_eq. cbn [or_undef mbind outcome_bind].
    eexists _, _, _. split; [done|]. apply Hc. rewrite delete_insert_id by done. rewrite <- (v_tail _ _ _ Hi). by destruct s.
  - eexists _, _, _. split; [done|]. by apply (inv_queued s t h).
Qed.

Lemma inv_take s h : net_inv s RIdle h → ∃ x s', resolver_take s = Ret (x, s') ∧
  match x with Some a => net_inv s' (RResolving a) h | None => s' = s end.
Proof.
  intros Hi. unfold resolver_take. destruct (resolve_queue s) as [|a q] eqn:Hq; [by eexists _, _|].
  assert (a ∈ resolve_queue s) as Ha by (rewrite Hq; by left).
  destruct (inv_in _ _ _ Hi a) as [r Hr]; [unfold req_lists; set_solver|].
  unfold get_req. rewrite Hr. cbn [or_undef mbind outcome_bind]. eexists _, _. split; [done|]. cbn beta iota.
  destruct (inv_disjoint _ _ _ Hi a) as (Hd & _). destruct (Hd Ha) as [_ Hd'].
  destruct (v_reqs _ _ _ Hi) as [Hnd _]. unfold req_lists in Hnd. rewrite Hq in Hnd. apply NoDup_cons in Hnd as [Hnd _].
  destruct Hi as [H1 H2 H3 H4 H5 H6]. cbn in H4.
  destruct (k_queue _ _ _ (H5 _ _ Hr) Ha) as (K1 & K2 & K3). split; try done.
  - cbn. apply tracks_upd; [|unfold req_lists; cbn; set_solver]. eapply tracks_perm; [|exact H1]. unfold req_lists. cbn. rewrite Hq.
    cbn. apply Permutation_middle.
  - cbn. rewrite H3, Hq. by destruct q.
  - cbn. by rewrite H4.
  - intros b r' Hb. cbn in Hb. apply lookup_insert_Some in Hb as [[<- <-]|[Hne Hb]].
    + split; cbn; try done. intros. exfalso. set_solver.
    + eapply req_ok_mono, H5; try done; cbn; [rewrite Hq; by right|]. rewrite elem_of_cons. naive_solver.
  - cbn. by eapply ais_upd.
Qed.

(** The request being resolved, with its answer: dropped when cancelled, done otherwise. *)
Lemma inv_resolved s a h r eai ai ais' : net_inv s (RResolving a) h → ns_reqs s !! a = Some r →
  ais_ok (<[a := with_result eai ai r]> (ns_reqs s)) ais' h → nr_cancelled r = false → (eai = 0 ↔ is_Some ai) →
  net_inv (put_req a (with_state 2 (with_result eai ai r)) (set_ais ais' (set_lists (resolve_queue s) (resolve_tail s) [] (a :: resolves s)
    (put_req a (with_result eai ai r) s)))) (RWriting a) h.
Proof.
  intros Hi Hr Hais Hc He. pose proof (v_flight _ _ _ Hi) as Hf. cbn in Hf.
  destruct (inv_disjoint _ _ _ Hi a) as (_ & Hd & _). destruct Hd as [Hd _]; [rewrite Hf; by left|].
  destruct Hi as [H1 H2 H3 H4 H5 H6]. split; try done.
  - cbn. rewrite insert_insert_eq. apply tracks_upd; [|unfold req_lists; cbn; set_solver]. eapply tracks_perm; [|exact H1].
    unfold req_lists. cbn. by rewrite Hf.
  - intros b r' Hb. cbn in Hb. rewrite insert_insert_eq in Hb. apply lookup_insert_Some in Hb as [[<- <-]|[Hne Hb]].
    + split; cbn; try done. by intros ?%not_elem_of_nil.
    + eapply req_ok_mono, H5; try done; cbn; [by intros ?%not_elem_of_nil|]. rewrite elem_of_cons. naive_solver.
  - cbn. eapply (ais_upd _ _ _ Hais); [apply lookup_insert_eq|done].
Qed.
Lemma inv_dropped s a h r eai ai ais' fds stale : net_inv s (RResolving a) h → ns_reqs s !! a = Some r →
  ais_ok (delete a (ns_reqs s)) ais' h →
  net_inv (set_reqs (delete a (<[a := with_result eai ai r]> (ns_reqs s))) (set_ais ais' (set_lists (resolve_queue s) (resolve_tail s) [] (resolves s)
    (set_fds fds stale s)))) RIdle h.
Proof.
  intros Hi Hr Hais. pose proof (v_flight _ _ _ Hi) as Hf. cbn in Hf. destruct Hi as [H1 H2 H3 H4 H5 H6].
  rewrite delete_insert_eq. split; try done.
  - cbn. apply tracks_del. eapply tracks_perm; [|exact H1]. unfold req_lists. cbn. rewrite Hf. symmetry. apply Permutation_middle.
  - intros b r' Hb. cbn in Hb. apply lookup_delete_Some in Hb as [_ Hb]. eapply req_ok_mono, H5; try done. by intros ?%not_elem_of_nil.
Qed.
Lemma inv_answer s a h eai ai : net_inv s (RResolving a) h → gai_ok (mk_sys s (RResolving a) h) eai ai →
  ∃ b s', resolver_finish s a eai ai = Ret (b, s') ∧ net_inv s' (if b : bool then RWriting a else RIdle) h.
Proof.
  intros Hi Hg. pose proof (v_flight _ _ _ Hi) as Hf. cbn in Hf.
  assert (a ∈ in_flight s) as Ha by (rewrite Hf; by left).
  destruct (inv_in _ _ _ Hi a) as [r Hr]; [unfold req_lists; set_solver|].
  destruct (k_flight _ _ _ (v_req _ _ _ Hi _ _ Hr) Ha) as [_ Hn].
  unfold resolver_finish, get_req at 1. rewrite Hr. cbn [or_undef mbind outcome_bind with_result nr_cancelled nr_ai].
  cbn [put_req set_reqs set_ais in_flight]. rewrite Hf. cbn [next_unlink]. rewrite Z.eqb_refl.
  pose proof (v_ais _ _ _ Hi) as Hais.
  assert (eai = 0 ↔ is_Some ai) as He by (destruct ai; cbn in Hg; split; [by eauto|tauto|done|by intros []]).
  destruct (nr_cancelled r) eqn:Hc.
  - destruct ai as [x|]; cbn in Hg.
    + unfold free_ai, freeaddrinfo. cbn [ns_ais set_lists]. rewrite bool_decide_eq_true_2 by set_solver. cbn [mbind outcome_bind].
      unfold free_req, get_req. cbn [ns_reqs set_ais set_lists put_req set_reqs]. rewrite lookup_insert_eq. cbn [or_undef mbind outcome_bind].
      eexists _, _. split; [done|]. apply (inv_dropped s a h r eai (Some x) (({[x]} ∪ ns_ais s) ∖ {[x]}) (ns_fds s) (ns_stale s)); [done..|].
      replace (({[x]} ∪ ns_ais s) ∖ {[x]}) with (ns_ais s) by set_solver. by eapply ais_del.
    + cbn [free_ai mbind outcome_bind]. unfold free_req, get_req. cbn [ns_reqs set_ais set_lists put_req set_reqs]. rewrite lookup_insert_eq. cbn [or_undef mbind outcome_bind].
      eexists _, _. split; [done|]. apply (inv_dropped s a h r eai None (ns_ais s) (ns_fds s) (ns_stale s)); [done..|]. by eapply ais_del.
  - eexists _, _. split; [done|]. apply (inv_resolved s a h r eai ai (match ai with Some x => {[x]} ∪ ns_ais s | None => ns_ais s end)); try done.
    destruct ai as [x|]; cbn in Hg; [apply (ais_result _ _ _ Hais a r); tauto|]. by eapply (ais_upd _ _ _ Hais a r).
Qed.

Lemma step_inv y y' : net_step y y' → net_inv (y_net y) (y_res y) (y_held y) → net_inv (y_net y') (y_res y') (y_held y').
Proof.
  intros Hs Hi. destruct Hs; cbn in *.
  - destruct (inv_resume o pid p _ _ _ Hi) as (? & ? & ? & ? & ?). congruence.
  - destruct (inv_finish o pid p _ _ _ Hi) as (? & ? & ? & ? & ?). congruence.
  - pose proof (inv_sockaddr o pid deadline p s t h ltac:(done) Hi) as H1. by rewrite H0 in H1.
  - destruct (inv_enqueue o pid host port timeout_ms p _ _ _ Hi) as (? & ? & ? & ? & ?); [done|by eapply enqueue_deadline|congruence].
  - destruct (inv_free ai _ _ _ Hi) as (? & ? & ?); [done|congruence].
  - destruct (close_fd_eq fd s) as (f & st & ->). by apply inv_fds.
  - by apply inv_fds.
  - destruct (inv_take _ _ Hi) as (x & s1 & Hx & H1). rewrite Hx in H0. by injection H0 as -> ->.
  - destruct (inv_answer s a h eai ai Hi) as (x & s1 & Hx & H1); [done|]. rewrite Hx in H0. by injection H0 as -> ->.
  - destruct Hi as [H1 H2 H3 H4 H5 H6]. by split.
Qed.
Lemma reachable_inv y : net_reachable y → net_inv (y_net y) (y_res y) (y_held y).
Proof. induction 1 as [|y y' _ IH Hs]; [exact inv_new|by eapply step_inv]. Qed.

(** * Safety *)
Definition returns {A} (o : outcome A) : Prop := ∃ x, o = Ret x.

(** C33: however the workers and the resolver thread interleave, every request
    is on exactly one list with the fields of that list, the tail is the last
    queued request, every struct and every address list that is allocated has
    exactly one owner, and no operation touches freed memory: each returns. *)
Theorem net_safe y : net_reachable y →
  net_inv (y_net y) (y_res y) (y_held y) ∧
  (∀ o pid p, returns (net_resume o pid (y_net y) p) ∧ returns (net_connect_finish o pid (y_net y) p)) ∧
  (∀ o pid host port timeout_ms p, os_ok (y_net y) o → in_i64 (o_now_new o + timeout_ms) = true →
     returns (net_connect_dns_enqueue o pid host port timeout_ms (y_net y) p)) ∧
  (∀ ai, ai ∈ y_held y → returns (freeaddrinfo (y_net y) ai)) ∧
  (y_res y = RIdle → returns (resolver_take (y_net y))) ∧
  (∀ a eai ai, y_res y = RResolving a → gai_ok y eai ai → returns (resolver_finish (y_net y) a eai ai)).
Proof.
  intros Hr%reachable_inv. destruct y as [s t h]. cbn in *. split; [done|]. repeat split.
  - destruct (inv_resume o pid p _ _ _ Hr) as (? & ? & ? & -> & _). by eexists.
  - destruct (inv_finish o pid p _ _ _ Hr) as (? & ? & ? & -> & _). by eexists.
  - intros o pid host port timeout_ms p Ho Hd. destruct (inv_enqueue o pid host port timeout_ms p _ _ _ Hr Ho) as (? & ? & ? & -> & _); [by left|by eexists].
  - intros ai Ha. destruct (inv_free ai _ _ _ Hr Ha) as (? & -> & _). by eexists.
  - intros ->. destruct (inv_take _ _ Hr) as (? & ? & -> & _). by eexists.
  - intros a eai ai -> Hg. destruct (inv_answer _ _ _ _ _ Hr Hg) as (? & ? & -> & _). by eexists.
Qed.

(** ** One request *)
Definition os_at (now : Z) (numeric : bool) : os := mk_os now now now (Some 1000) (Some (3, 4)) true true numeric (inl 5) 0 0.
Definition pio_new : pio := mk_pio (-1) 0 (-1) 0 false.
Definition snd3 {A} (x : outcome (A * NetState * pio)) : NetState := match x with Ret (_, s, _) => s | _ => net_state_new end.
Definition snd2 {A} (x : outcome (A * NetState)) : NetState := match x with Ret (_, s) => s | _ => net_state_new end.
(** Process 7 asks for a host at time 0 with a timeout of 100; the resolver
    takes the request. *)
Definition asked : NetState := snd3 (net_connect_dns_enqueue (os_at 0 false) 7 "host" 80 100 net_state_new pio_new).
Definition dequeued : NetState := snd2 (resolver_take asked).
Lemma dequeued_reachable : net_reachable (mk_sys dequeued (RResolving 1000) ∅).
Proof.
  apply (reach_step (mk_sys asked RIdle ∅)); [|by apply S_take].
  apply (reach_step sys_new); [constructor|]. eapply (S_enqueue (os_at 0 false) 7 "host" 80 100 pio_new); [|reflexivity].
  intros a _. split; apply lookup_empty.
Qed.
Lemma net_safe_witness : returns (resolver_finish dequeued 1000 0 (Some 1)).
Proof. apply (net_safe _ dequeued_reachable); [reflexivity|]. split; [reflexivity|]. apply not_elem_of_empty. Defined.

(** The resolver has answered and is about to write to the pipe, when the
    worker is woken by the deadline and picks the request up. *)
Definition answered : NetState := snd2 (resolver_finish dequeued 1000 0 (Some 1)).
Definition picked : NetState := snd3 (net_resume (os_at 101 false) 7 answered pio_new).
(** Between its unlock and its write to the request's pipe the resolver
    thread owns nothing: a worker that the deadline wakes there frees the
    request, and [r->pipe_w] is read from freed memory. *)
Theorem resolver_write_after_free : ∃ y a, net_reachable y ∧ y_res y = RWriting a ∧ resolver_write (y_net y) a = Undef.
Proof.
  exists (mk_sys picked (RWriting 1000) ∅), 1000. split; [|split; reflexivity].
  apply (reach_step (mk_sys answered (RWriting 1000) ∅)).
  - apply (reach_step _ _ dequeued_reachable). apply (S_done dequeued ∅ 1000 0 (Some 1) true); [|reflexivity].
    split; [reflexivity|]. apply not_elem_of_empty.
  - by apply (S_resume (os_at 101 false) 7 pio_new answered (RWriting 1000) ∅ (RAnswer (ASym "timeout")) picked (unwatch 3 pio_new)).
Qed.

(** The worker times out while [getaddrinfo] runs. *)
Definition timed_out : NetState := snd3 (connect_to (os_at 100 false) 7 "host" 80 100 dequeued pio_new).
Lemma timed_out_reachable : net_reachable (mk_sys timed_out (RResolving 1000) ∅).
Proof.
  apply (reach_step _ _ dequeued_reachable).
  by apply (S_resume (os_at 100 false) 7 pio_new dequeued (RResolving 1000) ∅ (RAnswer (ASym "timeout")) timed_out (unwatch 3 pio_new)).
Qed.
(** After such a timeout, while [getaddrinfo] still runs, the next connect
    of the process is answered ['timeout] without being tried, a numeric
    address that would connect at once included, and the descriptors of the
    cancelled request are closed a second time, when they may be someone else's. *)
Theorem timeout_sticks : ∃ s o,
  net_reachable (mk_sys s (RResolving 1000) ∅) ∧ ns_fds s = {[3]} ∧ o_numeric o = true ∧ o_connect o = 0 ∧
  ∃ s' p', connect_to o 7 "127.0.0.1" 80 10000 s pio_new = Ret (ASym "timeout", s', p') ∧ ns_fds s' = ∅ ∧ ns_stale s' = [4].
Proof.
  exists (open_fd 3 timed_out), (os_at 200 true). split; [|repeat split].
  - apply (reach_step _ _ timed_out_reachable). constructor.
  - eexists _, _. split; [reflexivity|]. split; reflexivity.
Qed.

(** A request outlives the lock that protects it.  The resolver thread can
    read a request that a worker has freed; and while a request that timed out
    is still being resolved, the next connect of its process is answered
    ['timeout] untried, with the descriptors closed a second time. *)
Theorem resolver_races :
  (∃ y a, net_reachable y ∧ y_res y = RWriting a ∧ resolver_write (y_net y) a = Undef) ∧
  (∃ s o, net_reachable (mk_sys s (RResolving 1000) ∅) ∧ ns_fds s = {[3]} ∧ o_numeric o = true ∧ o_connect o = 0 ∧
    ∃ s' p', connect_to o 7 "127.0.0.1" 80 10000 s pio_new = Ret (ASym "timeout", s', p') ∧ ns_fds s' = ∅ ∧ ns_stale s' = [4]).
Proof. split; [exact resolver_write_after_free|exact timeout_sticks]. Qed.

(** * What a connect answers *)

(** What process [pid] waits for, until when. *)
Definition waits (s : NetState) (pid fd events d : Z) : Prop :=
  (events = POLLIN ∧ ∃ a r, ns_reqs s !! a = Some r ∧ nr_pid r = pid ∧ nr_pipe_r r = fd ∧ nr_deadline r = d) ∨
  (events = POLLOUT ∧ ∃ a, ns_conns s !! a = Some (mk_NetConnect pid fd d)).
(** A request or a connect of the process holds the descriptor. *)
Definition holds_fd (s : NetState) (pid fd : Z) : Prop :=
  (∃ a r, ns_reqs s !! a = Some r ∧ nr_pid r = pid ∧ (nr_pipe_r r = fd ∨ nr_pipe_w r = fd)) ∨
  (∃ a d, ns_conns s !! a = Some (mk_NetConnect pid fd d)).
(** The deadline of a request or a connect of the process has come. *)
Definition past_deadline (s : NetState) (pid now : Z) : Prop := ∃ fd ev d, waits s pid fd ev d ∧ d ≤ now.

Record settled_pio (y0 : bool) (p : pio) : Prop := { t_deadline : wait_deadline_ms p = -1; t_yield : yield_requested p = y0 }.
(** An answer of process [pid], from the descriptors [fds0] and the flag [y0]:
    nil suspends it with a watch and a deadline that is not past; every other
    answer lets it run on, and a failure keeps no descriptor. *)
Definition answer_ok (pid now : Z) (fds0 : gset Z) (y0 : bool) (late : Prop) (a : net_answer) (s : NetState) (p : pio) : Prop :=
  match a with
  | ANil => yield_requested p = true ∧ now ≤ wait_deadline_ms p ∧ waits s pid (wait_fd p) (wait_events p) (wait_deadline_ms p) ∧
      ∀ fd, fd ∈ ns_fds s → fd ∈ fds0 ∨ holds_fd s pid fd
  | AFd fd => settled_pio y0 p ∧ ns_fds s ⊆ {[fd]} ∪ fds0
  | ASym n => settled_pio y0 p ∧ ns_fds s ⊆ fds0 ∧ (n = "timeout" ∧ late ∨ n ∈ ["dns_error"; "refused"; "error"]%string)
  | _ => False
  end.

Lemma close_fd_sub fd s : ns_fds (close_fd fd s) ⊆ ns_fds s ∖ {[fd]}.
Proof. unfold close_fd. case_bool_decide; cbn; set_solver. Qed.
Lemma close_pipes_fds r s p : ns_fds (close_pipes r s p).1 ⊆ ns_fds s.
Proof.
  assert (∀ fd s, ns_fds (close_if fd s) ⊆ ns_fds s) as H.
  { intros fd s0. unfold close_if. destruct (_ <=? _); [|done]. pose proof (close_fd_sub fd s0). set_solver. }
  cbn. etrans; [apply H|apply H].
Qed.
Lemma unwatch_keeps fd p : wait_deadline_ms (unwatch fd p) = wait_deadline_ms p ∧ yield_requested (unwatch fd p) = yield_requested p.
Proof. unfold unwatch. by destruct (_ =? _). Qed.

Lemma sockaddr_answers o pid now deadline s p y0 late : settled_pio y0 p → now ≤ deadline →
  let '(a, s', p') := net_connect_sockaddr o pid deadline s p in answer_ok pid now (ns_fds s) y0 late a s' p'.
Proof.
  intros [H1 H2] Hd. unfold net_connect_sockaddr. destruct (o_socket o) as [fd|e].
  2:{ cbn. split; [by split|]. split; [done|]. right. set_solver. }
  pose proof (close_fd_sub fd (open_fd fd s)) as Hc. cbn [open_fd set_fds ns_fds] in Hc.
  assert (∀ n p, n ∈ ["dns_error"; "refused"; "error"]%string → settled_pio y0 p →
    answer_ok pid now (ns_fds s) y0 late (ASym n) (close_fd fd (open_fd fd s)) p) as Hf.
  { intros n q Hn Hq. split; [done|]. split; [set_solver|by right]. }
  destruct (o_connect o =? 0); [by split|]. destruct (_ || _).
  - destruct (o_alloc o) as [a|]; [|apply Hf; [set_solver|by split]].
    cbn. split; [done|]. split; [done|]. split.
    + right. split; [done|]. exists a. apply lookup_insert_eq.
    + intros fd'. rewrite elem_of_union, elem_of_singleton. intros [->|?]; [right; right|by left].
      exists a, deadline. apply lookup_insert_eq.
  - destruct (_ =? EISCONN); [by split|]. apply Hf; [|by split]. destruct (_ =? _); set_solver.
Qed.

Lemma finish_answers o pid now s t h p y0 late : net_inv s t h → settled_pio y0 p → now ≤ o_now_fin o → (past_deadline s pid (o_now_fin o) → late) →
  ∃ c s' p', net_connect_finish o pid s p = Ret (c, s', p') ∧
  match c with Some a => answer_ok pid now (ns_fds s) y0 late a s' p' | None => s' = s ∧ p' = p end.
Proof.
  intros Hi [H1 H2] Hnow Hl. unfold net_connect_finish.
  destruct (find_conn_spec s pid (connects s)) as (c & -> & Hc); [intros a Ha; by eapply tracks_in; [apply (v_conns _ _ _ Hi)|]|].
  cbn [mbind outcome_bind]. destruct c as [a|]; [|by eexists _, _, _].
  destruct Hc as (Ha & e & He & Hp). rewrite He. cbn [or_undef mbind outcome_bind].
  assert (ns_conns s !! a = Some (mk_NetConnect pid (nc_fd e) (nc_deadline e))) as He' by (destruct e; cbn in *; by subst).
  assert (ns_fds (close_fd (nc_fd e) (drop_conn s a)) ⊆ ns_fds s) as Hs.
  { pose proof (close_fd_sub (nc_fd e) (drop_conn s a)) as H. cbn in H. set_solver. }
  destruct (Z.ltb_spec (nc_deadline e) (o_now_fin o)).
  { eexists _, _, _. split; [done|]. split; [by split|]. split; [done|]. left. split; [done|]. apply Hl.
    eexists _, _, _. split; [right; split; [done|by eexists]|lia]. }
  destruct (_ =? 0); [eexists _, _, _; split; [done|]; split; [by split|]; cbn; set_solver|].
  assert (∀ n e', n ∈ ["dns_error"; "refused"; "error"]%string →
    answer_ok pid now (ns_fds s) y0 late (ASym n) (close_fd (nc_fd e) (drop_conn s a)) (arm_deadline (-1) (set_errno e' p))) as Hf.
  { intros n e' Hn. split; [by split|]. split; [done|by right]. }
  destruct (_ =? ECONNREFUSED); [eexists _, _, _; split; [done|]; apply Hf; set_solver|].
  destruct (_ || _); [|eexists _, _, _; split; [done|]; apply Hf; set_solver].
  eexists _, _, _. split; [done|]. cbn. split; [done|]. split; [lia|]. split; [|by left]. right. split; [done|by eexists].
Qed.

Lemma enqueue_answers o pid now host port timeout_ms s t h p y0 late : net_inv s t h → os_ok s o → settled_pio y0 p →
  in_i64 (o_now_new o + timeout_ms) = true → now ≤ o_now_new o + timeout_ms →
  ∃ a s' p', net_connect_dns_enqueue o pid host port timeout_ms s p = Ret (a, s', p') ∧ answer_ok pid now (ns_fds s) y0 late a s' p'.
Proof.
  intros Hi Ho [H1 H2] Hd Hnow. assert (∀ s', ns_fds s' ⊆ ns_fds s → answer_ok pid now (ns_fds s) y0 late (ASym "error") s' p) as He.
  { intros s' Hs. split; [by split|]. split; [done|]. right. set_solver. }
  unfold net_connect_dns_enqueue. destruct (o_alloc o) as [a|] eqn:Ha; [|by eauto 7].
  destruct (o_pipe o) as [[pr pw]|] eqn:Hp; [|by eauto 7]. unfold chk64. rewrite Hd. cbn [mbind outcome_bind].
  assert (∀ s1, ns_fds s1 = {[pw]} ∪ ({[pr]} ∪ ns_fds s) → ns_fds (close_fd pw (close_fd pr s1)) ⊆ ns_fds s) as Hc.
  { intros s1 Hs1. pose proof (close_fd_sub pr s1). pose proof (close_fd_sub pw (close_fd pr s1)). set_solver. }
  destruct (o_strdup o); cbn [negb]; [|by eauto 9]. destruct (_ && _).
  - unfold free_req, get_req. cbn [put_req set_reqs set_lists ns_reqs]. rewrite lookup_insert_eq. cbn [or_undef mbind outcome_bind].
    eexists _, _, _. split; [done|]. by apply He, Hc.
  - eexists _, _, _. split; [done|]. cbn. split; [done|]. split; [lia|]. split.
    + left. split; [done|]. eexists a, _. split; [apply lookup_insert_eq|]. by split.
    + intros fd Hfd. assert (fd ∈ ns_fds s ∨ pr = fd ∨ pw = fd) as [?|Hx] by set_solver; [by left|]. right. left. eexists a, _. split; [apply lookup_insert_eq|]. by split.
Qed.

(** What the re-entry of stage 1 leaves. *)
Definition resume_ok (o : os) (pid : Z) (fds0 : gset Z) (y0 : bool) (late : Prop) (s : NetState) (p : pio) (r : resumption) (s' : NetState) (p' : pio) : Prop :=
  match r with
  | RAnswer a => answer_ok pid (o_now o) fds0 y0 late a s' p'
  | RResolved ai d => settled_pio y0 p' ∧ o_now o ≤ d ∧ ai ∈ ns_ais s' ∧ ns_fds s' ⊆ fds0
  | RNone => s' = s ∧ p' = p
  end.
Lemma timeout_answer pid now fds0 y0 (late : Prop) s p fd : settled_pio y0 p → ns_fds s ⊆ fds0 → late →
  answer_ok pid now fds0 y0 late (ASym "timeout") s (arm_deadline (-1) (unwatch fd p)).
Proof. intros [H1 H2] Hs Hl. split; [|by auto]. split; [done|]. cbn. by rewrite (proj2 (unwatch_keeps fd p)). Qed.

Lemma done_answers o pid s t h p y0 (late : Prop) a r : net_inv s t h → settled_pio y0 p → a ∈ resolves s → ns_reqs s !! a = Some r →
  (nr_deadline r ≤ o_now o → late) → net_resolve_find s pid = Ret (Some a) →
  ∃ x s' p', net_resume o pid s p = Ret (x, s', p') ∧ resume_ok o pid (ns_fds s) y0 late s p x s' p'.
Proof.
  intros Hi Hp Ha Hr Hl Hd. unfold net_resume. rewrite Hd. cbn [mbind outcome_bind]. unfold get_req at 1, free_req, get_req.
  cbn [net_resolve_remove set_lists ns_reqs]. rewrite Hr. cbn [or_undef mbind outcome_bind].
  pose proof (close_pipes_fds r (set_reqs (delete a (ns_reqs s)) (net_resolve_remove s a)) p) as Hs.
  destruct (close_pipes_eq r (set_reqs (delete a (ns_reqs s)) (net_resolve_remove s a)) p) as (f & st & He).
  rewrite He in Hs |- *. cbn in Hs. pose proof (v_ais _ _ _ Hi) as Hais.
  destruct (k_done _ _ _ (v_req _ _ _ Hi _ _ Hr) Ha) as (_ & _ & Hai).
  destruct (unwatch_keeps (nr_pipe_r r) p) as [Hu1 Hu2]. destruct Hp as [H1 H2].
  set (s1 := set_fds _ _ _).
  assert (∃ s', free_ai s1 (nr_ai r) = Ret s' ∧ ns_fds s' ⊆ ns_fds s) as (s' & Hf & Hs').
  { destruct (nr_ai r) as [x|] eqn:Hx; cbn [free_ai]; [|by eexists].
    unfold freeaddrinfo. rewrite bool_decide_eq_true_2 by (apply (o_own _ _ _ Hais); left; eauto). by eexists. }
  rewrite Hf. cbn [mbind outcome_bind]. destruct (Z.ltb_spec (nr_deadline r) (o_now o)) as [Hlt|Hge].
  { eexists _, _, _. split; [done|]. apply timeout_answer; [by split|done|]. apply Hl. lia. }
  destruct (Z.eqb_spec (nr_eai r) 0) as [H0|H0]; cbn [negb].
  - apply Hai in H0 as [x Hx]. rewrite Hx. cbn [or_undef mbind outcome_bind]. eexists _, _, _. split; [done|].
    split; [split; congruence|]. split; [done|]. split; [|done]. apply (o_own _ _ _ Hais). left. eauto.
  - eexists _, _, _. split; [done|]. split; [split; congruence|]. split; [done|]. right. set_solver.
Qed.
Lemma pending_answers o pid s t h p y0 (late : Prop) a r b : net_inv s t h → settled_pio y0 p → ns_reqs s !! a = Some r → nr_pid r = pid →
  (nr_deadline r ≤ o_now o → late) → net_resolve_find s pid = Ret None → net_resolve_find_pending s pid = Ret (Some (a, b)) →
  ∃ x s' p', net_resume o pid s p = Ret (x, s', p') ∧ resume_ok o pid (ns_fds s) y0 late s p x s' p'.
Proof.
  intros Hi Hp Hr Hpid Hl Hd Hf. unfold net_resume. rewrite Hd. cbn [mbind outcome_bind]. rewrite Hf. cbn [mbind outcome_bind].
  unfold get_req at 1. rewrite Hr. cbn [or_undef mbind outcome_bind].
  destruct (Z.leb_spec (nr_deadline r) (o_now o)) as [Hle|Hgt].
  - assert (∃ s1, (if b then Ret (put_req a (with_cancelled r) s) else free_req (net_resolve_unlink_queue s a) a) = Ret s1 ∧ ns_fds s1 = ns_fds s)
      as (s1 & -> & Hs1).
    { destruct b; [by eexists|]. unfold free_req, get_req. cbn [net_resolve_unlink_queue set_lists ns_reqs]. rewrite Hr. by eexists. }
    cbn [mbind outcome_bind]. pose proof (close_pipes_fds r s1 p) as Hs. destruct (close_pipes_eq r s1 p) as (f & st & He).
    rewrite He in Hs |- *. eexists _, _, _. split; [done|]. apply timeout_answer; [done| |by apply Hl]. by rewrite Hs1 in Hs.
  - eexists _, _, _. split; [done|]. cbn. split; [done|]. split; [lia|]. split; [|by left]. left. split; [done|]. by exists a, r.
Qed.
Lemma resume_answers o pid s t h p y0 late : net_inv s t h → settled_pio y0 p → (past_deadline s pid (o_now o) → late) →
  ∃ r s' p', net_resume o pid s p = Ret (r, s', p') ∧ resume_ok o pid (ns_fds s) y0 late s p r s' p'.
Proof.
  intros Hi Hp Hl.
  assert (∀ a r, ns_reqs s !! a = Some r → nr_pid r = pid → nr_deadline r ≤ o_now o → late) as Hl'.
  { intros a r Hr Hpid Hle. apply Hl. eexists _, _, _. split; [|exact Hle]. left. split; [done|]. by exists a, r. }
  destruct (find_req_spec s pid (resolves s)) as (d & Hd & Hd'); [intros; apply (inv_in _ _ _ Hi); unfold req_lists; set_solver|].
  destruct d as [a|]; [destruct Hd' as (Ha & r & Hr & Hpid); eapply done_answers; eauto|].
  destruct (find_req_spec s pid (resolve_queue s)) as (q & Hq & Hq'); [intros; apply (inv_in _ _ _ Hi); unfold req_lists; set_solver|].
  destruct q as [a|].
  { destruct Hq' as (Ha & r & Hr & Hpid). eapply (pending_answers o pid s t h p y0 late a r false); eauto.
    unfold net_resolve_find_pending. by rewrite Hq. }
  destruct (find_req_spec s pid (in_flight s)) as (i & Hf & Hf'); [intros; apply (inv_in _ _ _ Hi); unfold req_lists; set_solver|].
  destruct i as [a|].
  { destruct Hf' as (Ha & r & Hr & Hpid). eapply (pending_answers o pid s t h p y0 late a r true); eauto.
    unfold net_resolve_find_pending. rewrite Hq. cbn [mbind outcome_bind]. by rewrite Hf. }
  exists RNone, s, p. split; [|done]. unfold net_resume, net_resolve_find. rewrite Hd. cbn [mbind outcome_bind].
  unfold net_resolve_find_pending. rewrite Hq. cbn [mbind outcome_bind]. by rewrite Hf.
Qed.

Lemma sockaddr_ais o pid deadline s p : ns_ais (net_connect_sockaddr o pid deadline s p).1.2 = ns_ais s.
Proof.
  unfold net_connect_sockaddr. destruct (o_socket o) as [fd|]; [|done]. destruct (close_fd_eq fd (open_fd fd s)) as (f & st & ->).
  by repeat case_match.
Qed.
(** The address list is freed after the connect. *)
Lemma answer_fds pid now fds1 fds0 y0 late a s p ais : fds1 ⊆ fds0 → answer_ok pid now fds1 y0 late a s p →
  answer_ok pid now fds0 y0 late a (set_ais ais s) p.
Proof.
  intros Hs. destruct a; cbn; [|intros (? & ? & Hw & Hf); repeat split; [done..|]| |done|done].
  - intros [? ?]. split; [done|]. set_solver.
  - intros fd Hfd. destruct (Hf fd Hfd); [left; set_solver|by right].
  - intros (? & ? & ?). split; [done|]. split; [set_solver|done].
Qed.

Definition os_50 : os := mk_os 50 50 50 (Some 2000) (Some (6, 7)) true true false (inl 5) 0 0.

(** ** Reading *)
Lemma read_limit_bounds args n : read_limit args = Ret n → 1 ≤ n ≤ 65536.
Proof.
  unfold read_limit. intros (k & _ & [= <-])%bind_Ret.
  destruct (Z.leb_spec k 0); [done|]. destruct (Z.ltb_spec 65536 k); lia.
Qed.
