(* ===== verification/Process.v ===== *)
(** The [process] module: src/lib/process.c, child processes behind the resource
    values of Resource.v.

    [procs] is what the module acts on: its [ChildState] blocks by address, the
    open descriptors of this process, the children not yet reaped with the
    descriptors they started with, the descriptions that do not block, and how
    many blocks of [proc_build_argv] are allocated.  A close of a descriptor
    that is not open, a signal to or a wait for a process that is no child is
    recorded in [x_stale].  The answers of the operating system are arguments. *)
From stdpp Require Import base tactics list gmap strings.
From Stdlib Require Import ZArith Lia.
From S2P Require Import Prelude Values Heap Resource Gc GcCorrect GcSpec Tree Alloc Copy Cmodule Handle Str StrSpec StrRefine.
Open Scope Z_scope.

(** * The operating system *)
(** What a descriptor refers to: the writing or reading end of a pipe, or
    something else. *)
Inductive file := PipeEnd (pipe : Z) (wr : bool) | OtherFile (n : Z).
Record Child := mk_Child { k_argv : list string; k_fds : gmap Z file }.
Record ChildState := mk_ChildState { c_pid : Z; c_in : Z; c_out : Z }.
Record procs := mk_procs {
  x_states : gmap Z ChildState;
  x_fds : gmap Z file;
  x_kids : gmap Z Child;
  x_nonblock : gset (Z * bool);
  x_pipes : Z;
  x_blocks : Z;
  x_killed : list Z;
  x_stale : list Z
}.
Definition with_states (m : gmap Z ChildState) (w : procs) : procs :=
  mk_procs m (x_fds w) (x_kids w) (x_nonblock w) (x_pipes w) (x_blocks w) (x_killed w) (x_stale w).
Definition with_blocks (n : Z) (w : procs) : procs :=
  mk_procs (x_states w) (x_fds w) (x_kids w) (x_nonblock w) (x_pipes w) n (x_killed w) (x_stale w).
Definition with_kids (k : gmap Z Child) (w : procs) : procs :=
  mk_procs (x_states w) (x_fds w) k (x_nonblock w) (x_pipes w) (x_blocks w) (x_killed w) (x_stale w).
Definition with_nonblock (b : gset (Z * bool)) (w : procs) : procs :=
  mk_procs (x_states w) (x_fds w) (x_kids w) b (x_pipes w) (x_blocks w) (x_killed w) (x_stale w).
Definition with_fds (m : gmap Z file) (w : procs) : procs :=
  mk_procs (x_states w) m (x_kids w) (x_nonblock w) (x_pipes w) (x_blocks w) (x_killed w) (x_stale w).
Definition with_stale (l : list Z) (w : procs) : procs :=
  mk_procs (x_states w) (x_fds w) (x_kids w) (x_nonblock w) (x_pipes w) (x_blocks w) (x_killed w) l.
Definition with_killed (l : list Z) (w : procs) : procs :=
  mk_procs (x_states w) (x_fds w) (x_kids w) (x_nonblock w) (x_pipes w) (x_blocks w) l (x_stale w).
Definition put_state (ptr : Z) (c : ChildState) (w : procs) : procs := with_states (<[ptr := c]> (x_states w)) w.

Definition sys_close (fd : Z) (w : procs) : procs :=
  if bool_decide (is_Some (x_fds w !! fd)) then with_fds (delete fd (x_fds w)) w else with_stale (fd :: x_stale w) w.
(** [if (fd >= 0) close(fd)]. *)
Definition sys_close_if (fd : Z) (w : procs) : procs := if 0 <=? fd then sys_close fd w else w.
(** A new pipe; its ends block. *)
Definition sys_pipe (r wr : Z) (w : procs) : procs :=
  mk_procs (x_states w) (<[r := PipeEnd (x_pipes w) false]> (<[wr := PipeEnd (x_pipes w) true]> (x_fds w))) (x_kids w) (x_nonblock w)
    (x_pipes w + 1) (x_blocks w) (x_killed w) (x_stale w).
Definition sys_kill (pid : Z) (w : procs) : procs :=
  if bool_decide (is_Some (x_kids w !! pid)) then with_killed (pid :: x_killed w) w else with_stale (pid :: x_stale w) w.
Definition sys_waitpid (pid : Z) (w : procs) : procs :=
  if bool_decide (is_Some (x_kids w !! pid)) then with_kids (delete pid (x_kids w)) w else with_stale (pid :: x_stale w) w.
(** [fcntl] sets or clears [O_NONBLOCK] of the description behind [fd]. *)
Definition set_nonblock (fds : gmap Z file) (fd : Z) (on : bool) (b : gset (Z * bool)) : gset (Z * bool) :=
  match fds !! fd with
  | Some (PipeEnd n wr) => if on then {[(n, wr)]} ∪ b else b ∖ {[(n, wr)]}
  | _ => b
  end.
Definition dup2 (a b : Z) (fds : gmap Z file) : gmap Z file :=
  match fds !! a with Some f => <[b := f]> fds | None => fds end.
(** The descriptors of the child between [fork] and [execv]. *)
Definition child_fds (i0 i1 o0 o1 : Z) (fds : gmap Z file) : gmap Z file :=
  delete o1 (delete o0 (delete i1 (delete i0 (dup2 o1 1 (dup2 i0 0 fds))))).

(** * The code *)
Definition SIZEOF_CHILDSTATE : Z := 12.
Definition PROC_DTOR : Z := 2.
Definition proc_dtor (w : procs) (ptr : Z) : outcome procs :=
  ps ← or_undef (x_states w !! ptr);
  let w := sys_close_if (c_out ps) (sys_close_if (c_in ps) w) in
  let w := if negb (c_pid ps =? -1) then sys_waitpid (c_pid ps) (sys_kill (c_pid ps) w) else w in
  Ret (with_states (delete ptr (x_states w)) w).
(** [ta_resource_release] with this destructor. *)
Definition proc_release (st : store) (a : Z) (w : procs) : outcome (store * procs) :=
  '(_, res) ← read_resource st a;
  if res =? 0 then Ret (st, w)
  else
    '(ptr, _) ← or_undef (payloads st !! res);
    st ← ta_resource_release st a;
    w ← proc_dtor w ptr;
    Ret (st, w).

(** The first walk: [None] for an element that is no string or an improper
    list. *)
Fixpoint count_args (n : nat) (st : store) (node : Val) (count : Z) : outcome (option Z) :=
  if val_is_pair node then
    match n with
    | O => NoFuel
    | S n =>
        '(car, cdr) ← read_pair st node;
        if negb (val_is_string car) then Ret None
        else count ← chk32 (count + 1); count_args n st cdr count
    end
  else Ret (if val_is_nil node then Some count else None).
(** The second walk fills [av] from slot [length av] on; when a copy cannot be
    allocated everything is freed again. *)
Fixpoint copy_args (n : nat) (ok : nat → bool) (st : store) (node : Val) (count : Z) (av : list (list Z)) (blocks : Z)
    : outcome (option (list (list Z)) * Z) :=
  if val_is_pair node then
    match n with
    | O => NoFuel
    | S n =>
        '(car, cdr) ← read_pair st node;
        e ← read_string st car;
        if negb (Z.of_nat (length av) <? count + 2) then Undef
        else if negb (ok (S (length av))) then Ret (None, blocks - Z.of_nat (length av) - 1)
        else copy_args n ok st cdr count (av ++ [e]) (blocks + 1)
    end
  else Ret (Some av, blocks).
Definition proc_build_argv (fuel : nat) (ok : nat → bool) (st : store) (cmd argv : Val) (w : procs) : outcome (option (list (list Z)) * procs) :=
  if negb (val_is_string cmd) then Ret (None, w)
  else
    hs ← read_string st cmd;
    count ← count_args fuel st argv 0;
    match count with
    | None => Ret (None, w)
    | Some count =>
        if negb (ok 0%nat) then Ret (None, w)
        else if negb (ok 1%nat) then Ret (None, w)
        else '(av, blocks) ← copy_args fuel ok st argv count [hs] (x_blocks w + 2); Ret (av, with_blocks blocks w)
    end.
Definition proc_free_argv (av : list (list Z)) (w : procs) : procs := with_blocks (x_blocks w - Z.of_nat (length av) - 1) w.

(** The answers of the system to one [process_raw_run]. *)
Record spawn_os := mk_spawn_os {
  q_alloc : nat → bool;
  q_access : bool;
  q_in : option (Z * Z);
  q_out : option (Z * Z);
  q_fork : option Z
}.

Section Module.
Context (cap stress : Z) (fuel : nat).
Abbreviation result := (outcome (Val * store * ProcMem * procs)).

Definition process_raw_run (o : spawn_os) (st : store) (p : ProcMem) (w : procs) (args : list Val) : result :=
  v0 ← arg args 0;
  v1 ← arg args 1;
  '(av, w) ← proc_build_argv fuel (q_alloc o) st v0 v1 w;
  match av with
  | None => Ret (val_int (-1), st, p, w)
  | Some av =>
      if negb (q_access o) then Ret (val_int (-1), st, p, proc_free_argv av w)
      else
        match malloc st SIZEOF_CHILDSTATE with
        | None => Abort "abort"
        | Some (ptr, st) =>
            let w := put_state ptr (mk_ChildState (-1) (-1) (-1)) w in
            '(res, st, p) ← ta_resource_new cap stress st p ptr PROC_DTOR;
            let hr := val_get_resource res in
            let fail w := '(st, w) ← proc_release st hr w; Ret (val_int (-1), st, p, proc_free_argv av w) in
            match q_in o with
            | None => fail w
            | Some (i0, i1) =>
                let w := sys_pipe i0 i1 w in
                match q_out o with
                | None => fail (sys_close i1 (sys_close i0 w))
                | Some (o0, o1) =>
                    let w := sys_pipe o0 o1 w in
                    match q_fork o with
                    | None => fail (sys_close o1 (sys_close o0 (sys_close i1 (sys_close i0 w))))
                    | Some pid =>
                        let cf := child_fds i0 i1 o0 o1 (x_fds w) in
                        let w := with_kids (<[pid := mk_Child (nul_string <$> av) cf]> (x_kids w)) w in
                        let w := with_nonblock (set_nonblock cf 1 false (set_nonblock cf 0 false (x_nonblock w))) w in
                        let w := sys_close o1 (sys_close i0 w) in
                        let w := with_nonblock (set_nonblock (x_fds w) o0 true (set_nonblock (x_fds w) i1 true (x_nonblock w))) w in
                        Ret (res, st, p, proc_free_argv av (put_state ptr (mk_ChildState pid i1 o0) w))
                    end
                end
            end
        end
  end.

(** The preamble: [k] gets the header and the address of the state. *)
Definition with_child (closed : Z) (st : store) (p : ProcMem) (w : procs) (args : list Val) (k : Z → Z → ChildState → result) : result :=
  v ← arg args 0;
  '(code, h) ← ta_resource_open st (pid p) v closed;
  match h with
  | None => Ret (val_int code, st, p, w)
  | Some a =>
      '(_, res) ← read_resource st a;
      '(ptr, _) ← or_undef (payloads st !! res);
      ps ← or_undef (x_states w !! ptr);
      k a ptr ps
  end.
Definition process_raw_stdin_w (st : store) (p : ProcMem) (w : procs) (args : list Val) : result :=
  with_child (-1) st p w args (λ _ _ ps, Ret (val_int (c_in ps), st, p, w)).
Definition process_raw_stdout_r (st : store) (p : ProcMem) (w : procs) (args : list Val) : result :=
  with_child (-1) st p w args (λ _ _ ps, Ret (val_int (c_out ps), st, p, w)).
(** [status]: the exit code when [waitpid] succeeds and the child exited. *)
Definition process_raw_wait (status : option Z) (st : store) (p : ProcMem) (w : procs) (args : list Val) : result :=
  with_child (-1) st p w args (λ a ptr ps,
    if c_pid ps =? -1 then Ret (val_int (-1), st, p, w)
    else
      let w := sys_close_if (c_out ps) (sys_close_if (c_in ps) w) in
      '(st, w) ← proc_release st a (put_state ptr (mk_ChildState (-1) (-1) (-1)) w);
      let w := sys_waitpid (c_pid ps) w in
      Ret (val_int (default (-1) status), st, p, w)).
Definition process_raw_close (st : store) (p : ProcMem) (w : procs) (args : list Val) : result :=
  with_child 1 st p w args (λ a ptr ps,
    let w := sys_close_if (c_out ps) (sys_close_if (c_in ps) w) in
    '(st, w) ← proc_release st a (put_state ptr (mk_ChildState (-1) (-1) (-1)) w);
    let w := if negb (c_pid ps =? -1) then sys_waitpid (c_pid ps) w else w in
    Ret (val_int 1, st, p, w)).
Definition process_raw_close_stdin (st : store) (p : ProcMem) (w : procs) (args : list Val) : result :=
  with_child (-1) st p w args (λ _ ptr ps,
    if c_in ps <? 0 then Ret (val_int (-1), st, p, w)
    else
      let w := sys_close (c_in ps) (put_state ptr (mk_ChildState (c_pid ps) (-1) (c_out ps)) w) in
      Ret (val_int 1, st, p, w)).
End Module.

(** * The invariant *)
(** Every state has its child, not yet reaped, and the open parent's ends of its
    pipes, shared with no other state; every child and every open end of a
    module pipe belongs to a state; no call ever went astray. *)
Record kids_ok (w : procs) : Prop := {
  u_stale : x_stale w = [];
  u_pos : ∀ k, is_Some (x_kids w !! k) → 0 < k;
  u_nonneg : ∀ fd, is_Some (x_fds w !! fd) → 0 ≤ fd;
  u_pid : ∀ ptr c, x_states w !! ptr = Some c → is_Some (x_kids w !! c_pid c);
  u_in : ∀ ptr c, x_states w !! ptr = Some c → c_in c = -1 ∨ 0 ≤ c_in c ∧ ∃ n, x_fds w !! c_in c = Some (PipeEnd n true);
  u_out : ∀ ptr c, x_states w !! ptr = Some c → 0 ≤ c_out c ∧ ∃ n, x_fds w !! c_out c = Some (PipeEnd n false);
  u_apart : ∀ ptr ptr' c c', x_states w !! ptr = Some c → x_states w !! ptr' = Some c' → ptr ≠ ptr' →
    c_pid c ≠ c_pid c' ∧ c_out c ≠ c_out c' ∧ (c_in c = c_in c' → c_in c = -1);
  u_kids : ∀ k, is_Some (x_kids w !! k) → ∃ ptr c, x_states w !! ptr = Some c ∧ c_pid c = k;
  u_ends : ∀ fd n wr, x_fds w !! fd = Some (PipeEnd n wr) → ∃ ptr c, x_states w !! ptr = Some c ∧ fd = (if wr : bool then c_in c else c_out c)
}.
(** What stays when the child of [ptr] is gone. *)
Definition without (ptr : Z) (c : ChildState) (w : procs) : procs :=
  with_kids (delete (c_pid c) (x_kids w)) (with_fds (delete (c_out c) (delete (c_in c) (x_fds w))) (with_states (delete ptr (x_states w)) w)).

Section inv.
Context (w : procs) (H : kids_ok w) (ptr : Z) (c : ChildState) (Hc : x_states w !! ptr = Some c).

Lemma no_fd : x_fds w !! (-1) = None.
Proof using H. apply eq_None_not_Some. intros Hs%(u_nonneg _ H). lia. Qed.
Lemma in_ne_out : c_in c ≠ c_out c.
Proof using H Hc. destruct (u_out _ H _ _ Hc) as (?&n&Ho). destruct (u_in _ H _ _ Hc) as [->|(?&n'&Hi)]; [lia|]. intros E. rewrite E, Ho in Hi. done. Qed.
(** Closing both ends, as wait, close and the destructor do. *)
Lemma close_both : sys_close_if (c_out c) (sys_close_if (c_in c) w) = with_fds (delete (c_out c) (delete (c_in c) (x_fds w))) w.
Proof using H Hc.
  destruct (u_out _ H _ _ Hc) as (Ho0&n&Ho). pose proof in_ne_out as Hne.
  assert (sys_close_if (c_in c) w = with_fds (delete (c_in c) (x_fds w)) w) as ->.
  { unfold sys_close_if. destruct (u_in _ H _ _ Hc) as [->|(H0&m&Hi)].
    - cbn [Z.leb]. rewrite delete_id by apply no_fd. by destruct w.
    - rewrite (proj2 (Z.leb_le 0 (c_in c)) H0). unfold sys_close. by rewrite bool_decide_eq_true_2 by (by rewrite Hi). }
  unfold sys_close_if. rewrite (proj2 (Z.leb_le 0 (c_out c)) Ho0). unfold sys_close. cbn [x_fds with_fds].
  rewrite bool_decide_eq_true_2; [done|]. rewrite lookup_delete_ne by done. by rewrite Ho.
Qed.
Lemma waitpid_kid w' : x_kids w' = x_kids w → sys_waitpid (c_pid c) w' = with_kids (delete (c_pid c) (x_kids w')) w'.
Proof using H Hc. intros E. unfold sys_waitpid. rewrite E, bool_decide_eq_true_2; [done|]. by apply (u_pid _ H ptr). Qed.
Lemma pid_pos : 0 < c_pid c.
Proof using H Hc. by apply (u_pos _ H), (u_pid _ H ptr). Qed.

(** The other states keep their child and descriptors. *)
Lemma without_ok : kids_ok (without ptr c w).
Proof using H Hc.
  destruct (u_out _ H _ _ Hc) as (Ho0&n0&Ho).
  assert (∀ q d fd, q ≠ ptr → x_states w !! q = Some d → is_Some (x_fds w !! fd) → (fd = c_in d ∧ c_in d ≠ -1 ∨ fd = c_out d) →
    delete (c_out c) (delete (c_in c) (x_fds w)) !! fd = x_fds w !! fd) as Hkeep.
  { intros q d fd Hq Hd [f Hf] Hfd. destruct (u_apart _ H _ _ _ _ Hc Hd (not_eq_sym Hq)) as (_&Ha&Hb).
    assert (c_in d = -1 ∨ c_in d ≠ c_out c) as Hx.
    { destruct (u_in _ H _ _ Hd) as [?|(?&m&Hi)]; [by left|right]. intros E. rewrite E, Ho in Hi. done. }
    assert (c_out d ≠ c_in c) as Hy.
    { destruct (u_out _ H _ _ Hd) as (?&m&Hi). intros E. destruct (u_in _ H _ _ Hc) as [?|(?&m'&Hi')]; [lia|]. rewrite <- E, Hi in Hi'. done. }
    rewrite lookup_delete_ne; [rewrite lookup_delete_ne; [done|]|]; destruct Hfd as [[-> ?]| ->].
    - intros E. specialize (Hb E). congruence.
    - congruence.
    - destruct Hx; congruence.
    - done. }
  split; cbn.
  - apply (u_stale _ H).
  - intros k Hk. apply (u_pos _ H). destruct (decide (k = c_pid c)) as [->|]; [by apply (u_pid _ H ptr)|]. by rewrite lookup_delete_ne in Hk.
  - intros fd [f Hf]. apply lookup_delete_Some in Hf as [_ Hf]. apply lookup_delete_Some in Hf as [_ Hf]. apply (u_nonneg _ H). by eexists.
  - intros q d Hd. apply lookup_delete_Some in Hd as [Hq Hd]. destruct (u_apart _ H _ _ _ _ Hc Hd Hq) as (Ha&_).
    rewrite lookup_delete_ne by done. by apply (u_pid _ H q).
  - intros q d Hd. apply lookup_delete_Some in Hd as [Hq Hd]. destruct (u_in _ H _ _ Hd) as [?|(H0&m&Hi)]; [by left|right].
    split; [done|]. exists m. rewrite (Hkeep q d) by (done || (by rewrite Hi) || (left; split; [done|lia])). done.
  - intros q d Hd. apply lookup_delete_Some in Hd as [Hq Hd]. destruct (u_out _ H _ _ Hd) as (H0&m&Hi).
    split; [done|]. exists m. rewrite (Hkeep q d) by (done || (by rewrite Hi) || by right). done.
  - intros q q' d d' Hd Hd'. apply lookup_delete_Some in Hd as [_ Hd], Hd' as [_ Hd']. by apply (u_apart _ H).
  - intros k [x Hk]. apply lookup_delete_Some in Hk as [Hne Hk]. destruct (u_kids _ H k) as (q&d&Hd&<-); [by eexists|].
    exists q, d. split; [|done]. rewrite lookup_delete_ne; [done|]. intros ->. congruence.
  - intros fd m wr Hf. apply lookup_delete_Some in Hf as [N1 Hf]. apply lookup_delete_Some in Hf as [N2 Hf].
    destruct (u_ends _ H _ _ _ Hf) as (q&d&Hd&E). exists q, d. split; [|done]. rewrite lookup_delete_ne; [done|]. intros ->.
    assert (d = c) as -> by congruence. by destruct wr.
Qed.
End inv.

(** * The operations on a child *)
Lemma release_sentinel st p v ptr w : ptr ≠ 0 →
  window st p → handle st (pid p) v ptr PROC_DTOR → x_states w !! ptr = Some (mk_ChildState (-1) (-1) (-1)) →
  ∃ st', proc_release st (lpayload v) w = Ret (st', with_states (delete ptr (x_states w)) w) ∧ window st' p ∧ refused st' (pid p) v 0 ∧
    dtor_calls st' = dtor_calls st ++ [(ptr, PROC_DTOR)].
Proof.
  intros H0 W Hh Hw. destruct (handle_release st p v ptr PROC_DTOR W Hh) as (st'&Er&W'&Hr&Hd); [done|].
  destruct (handle_open _ _ _ _ _ 0 Hh) as (_&res&E&Hne&Hpl). unfold proc_release. rewrite E. cbn [mbind outcome_bind].
  destruct (Z.eqb_spec res 0); [done|]. rewrite Hpl. cbn [or_undef mbind outcome_bind]. rewrite Er. cbn [mbind outcome_bind].
  unfold proc_dtor. rewrite Hw. exists st'. split; [done|]. split; [done|]. split; [done|]. by destruct (Z.eqb_spec ptr 0).
Qed.
Definition forget_stdin (ptr : Z) (c : ChildState) (w : procs) : procs :=
  with_fds (delete (c_in c) (x_fds w)) (put_state ptr (mk_ChildState (c_pid c) (-1) (c_out c)) w).
Lemma forget_stdin_ok w ptr c : kids_ok w → x_states w !! ptr = Some c → c_in c ≠ -1 → kids_ok (forget_stdin ptr c w).
Proof.
  intros H Hc Hin. destruct (u_in _ H _ _ Hc) as [?|(Hi0&n&Hi)]; [done|].
  assert (∀ q d, x_states w !! q = Some d → c_out d ≠ c_in c) as Hout.
  { intros q d Hd E. destruct (u_out _ H _ _ Hd) as (_&m&Ho). congruence. }
  split; cbn; try apply H.
  - intros fd [f Hf]. apply lookup_delete_Some in Hf as [_ Hf]. apply (u_nonneg _ H). by eexists.
  - intros q d Hd. apply lookup_insert_Some in Hd as [[<- <-]|[Hq Hd]]; [by apply (u_pid _ H ptr c)|by apply (u_pid _ H q d)].
  - intros q d Hd. apply lookup_insert_Some in Hd as [[<- <-]|[Hq Hd]]; [by left|].
    destruct (u_in _ H _ _ Hd) as [?|(H0&m&Hm)]; [by left|right]. split; [done|]. exists m. rewrite lookup_delete_ne; [done|].
    intros E. destruct (u_apart _ H _ _ _ _ Hc Hd Hq) as (_&_&Hx). auto.
  - intros q d Hd. apply lookup_insert_Some in Hd as [[<- <-]|[Hq Hd]]; cbn.
    + destruct (u_out _ H _ _ Hc) as (H0&m&Hm). split; [done|]. exists m. rewrite lookup_delete_ne; [done|]. by apply not_eq_sym, (Hout ptr).
    + destruct (u_out _ H _ _ Hd) as (H0&m&Hm). split; [done|]. exists m. rewrite lookup_delete_ne; [done|]. by apply not_eq_sym, (Hout q).
  - intros q q' d d' Hd Hd' Hq. apply lookup_insert_Some in Hd as [[<- <-]|[N Hd]]; apply lookup_insert_Some in Hd' as [[<- <-]|[N' Hd']]; cbn.
    + done.
    + destruct (u_apart _ H _ _ _ _ Hc Hd' Hq) as (?&?&_). by split_and!.
    + destruct (u_apart _ H _ _ _ _ Hd Hc Hq) as (?&?&_). by split_and!.
    + by apply (u_apart _ H q q').
  - intros k Hk. destruct (u_kids _ H k Hk) as (q&d&Hd&<-). destruct (decide (q = ptr)) as [->|Hq].
    + assert (d = c) as -> by congruence. eexists ptr, _. split; [apply lookup_insert_eq|done].
    + exists q, d. by rewrite lookup_insert_ne.
  - intros fd m wr Hf. apply lookup_delete_Some in Hf as [N Hf]. destruct (u_ends _ H _ _ _ Hf) as (q&d&Hd&E).
    destruct (decide (q = ptr)) as [->|Hq]; [|exists q, d; by rewrite lookup_insert_ne].
    assert (d = c) as -> by congruence. eexists ptr, _. split; [apply lookup_insert_eq|]. by destruct wr.
Qed.

Section ops.
Context (st : store) (p : ProcMem) (v : Val) (w : procs) (ptr : Z) (c : ChildState) (rest : list Val).
Context (W : window st p) (Hh : handle st (pid p) v ptr PROC_DTOR) (Hp : ptr ≠ 0) (H : kids_ok w) (Hc : x_states w !! ptr = Some c).

Lemma with_child_open closed k : with_child closed st p w (v :: rest) k = k (lpayload v) ptr c.
Proof using Hh Hc.
  unfold with_child, arg. cbn [lookup list_lookup or_undef mbind outcome_bind].
  destruct (handle_open _ _ _ _ _ closed Hh) as (->&res&E&_&Hpl). cbn [mbind outcome_bind]. rewrite E. cbn [mbind outcome_bind].
  rewrite Hpl. cbn [or_undef mbind outcome_bind]. by rewrite Hc.
Qed.
(** The state and the descriptors are gone; the child is reaped by its exit. *)
Lemma wait_refines status : ∃ st', process_raw_wait status st p w (v :: rest) = Ret (val_int (default (-1) status), st', p, without ptr c w) ∧
  window st' p ∧ refused st' (pid p) v 0 ∧ dtor_calls st' = dtor_calls st ++ [(ptr, PROC_DTOR)].
Proof using All.
  unfold process_raw_wait. rewrite with_child_open. pose proof (pid_pos _ H _ _ Hc) as Hpos.
  destruct (Z.eqb_spec (c_pid c) (-1)); [lia|]. rewrite (close_both _ H _ _ Hc).
  destruct (release_sentinel st p v ptr (put_state ptr (mk_ChildState (-1) (-1) (-1)) (with_fds (delete (c_out c) (delete (c_in c) (x_fds w))) w)) Hp W Hh)
    as (st'&->&Hst); [apply lookup_insert_eq|]. cbn [mbind outcome_bind]. exists st'. split; [|done].
  rewrite (waitpid_kid _ H _ _ Hc) by done. cbn. by rewrite delete_insert_eq.
Qed.
Lemma close_child_refines : ∃ st', process_raw_close st p w (v :: rest) = Ret (val_int 1, st', p, without ptr c w) ∧
  window st' p ∧ refused st' (pid p) v 0 ∧ dtor_calls st' = dtor_calls st ++ [(ptr, PROC_DTOR)].
Proof using All.
  unfold process_raw_close. rewrite with_child_open. pose proof (pid_pos _ H _ _ Hc) as Hpos. rewrite (close_both _ H _ _ Hc).
  destruct (release_sentinel st p v ptr (put_state ptr (mk_ChildState (-1) (-1) (-1)) (with_fds (delete (c_out c) (delete (c_in c) (x_fds w))) w)) Hp W Hh)
    as (st'&->&Hst); [apply lookup_insert_eq|]. cbn [mbind outcome_bind]. exists st'. split; [|done].
  destruct (Z.eqb_spec (c_pid c) (-1)); [lia|]. cbn [negb]. rewrite (waitpid_kid _ H _ _ Hc) by done. cbn. by rewrite delete_insert_eq.
Qed.
Lemma close_stdin_refines : process_raw_close_stdin st p w (v :: rest) =
  (if c_in c =? -1 then Ret (val_int (-1), st, p, w) else Ret (val_int 1, st, p, forget_stdin ptr c w)).
Proof using Hh Hc H.
  unfold process_raw_close_stdin. rewrite with_child_open. destruct (u_in _ H _ _ Hc) as [->|(H0&n&Hi)]; [done|].
  destruct (Z.eqb_spec (c_in c) (-1)); [lia|]. destruct (Z.ltb_spec (c_in c) 0); [lia|]. unfold sys_close. cbn [x_fds put_state with_states].
  by rewrite bool_decide_eq_true_2 by (by rewrite Hi).
Qed.
(** The holder died or lost its last reference. *)
Lemma dtor_refines : proc_dtor w ptr = Ret (with_killed (c_pid c :: x_killed w) (without ptr c w)).
Proof using Hc H.
  unfold proc_dtor. rewrite Hc. cbn [or_undef mbind outcome_bind]. rewrite (close_both _ H _ _ Hc). pose proof (pid_pos _ H _ _ Hc).
  destruct (Z.eqb_spec (c_pid c) (-1)); [lia|]. cbn [negb]. unfold sys_kill. cbn [x_kids with_fds].
  rewrite bool_decide_eq_true_2 by by apply (u_pid _ H ptr). by rewrite (waitpid_kid _ H _ _ Hc).
Qed.
End ops.

(** * Starting a child *)
(** The strings of a proper list; [None] for anything else. *)
Fixpoint strings_of (t : tree) : option (list (list Z)) :=
  match t with
  | TPair (TString d) t => cons d <$> strings_of t
  | Imm w => if val_is_nil w then Some [] else None
  | _ => None
  end.
Lemma count_args_run st t : ∀ v n k, denotes st v t → (spine t ≤ n)%nat → 0 ≤ k → k + Z.of_nat (spine t) < 2 ^ 31 →
  count_args n st v k = Ret ((λ ds, k + len ds) <$> strings_of t).
Proof.
  induction t as [u|ta tb _ IHt|e0 ts0 IHts|d|d|w0 r0] using tree_ind'; intros v n k D Hn Hk Hl;
    destruct (denotes_kind _ _ _ D) as (Hp&_&_&Hnil);
    try (destruct n; cbn [count_args]; rewrite Hp; cbn [is_pair_tree]; rewrite Hnil; cbn [strings_of]; first [done|destruct (val_is_nil u); cbn; rewrite ?Z.add_0_r; done]).
  destruct (pair_denotes _ _ _ _ D) as (va&vb&E&Da&Db). cbn [spine] in *. destruct n as [|n]; [lia|]. cbn [count_args]. rewrite Hp. cbn [is_pair_tree].
  rewrite E. cbn [mbind outcome_bind]. assert ((∃ d, ta = TString d) ∨ ∀ d, ta ≠ TString d) as [[d ->]|Hns] by (destruct ta; eauto).
  - destruct (string_denotes _ _ _ Da) as [-> _]. cbn [negb]. rewrite chk32_small by lia. cbn [mbind outcome_bind].
    rewrite (IHt vb n (k + 1)) by (done || lia). cbn [strings_of]. destruct (strings_of tb); [|done]. cbn. do 2 f_equal. lia.
  - rewrite (not_string_denotes _ _ _ Da) by done. cbn [negb]. destruct ta; try done. by destruct (Hns data).
Qed.
(** Whatever allocation fails, nothing of the argument vector stays allocated. *)
Lemma copy_args_blocks ok st count : ∀ n v av b r b', copy_args n ok st v count av b = Ret (r, b') →
  b' = match r with Some av' => b + Z.of_nat (length av') - Z.of_nat (length av) | None => b - Z.of_nat (length av) - 1 end.
Proof.
  induction n as [|n IH]; intros v av b r b'; cbn [copy_args]; destruct (val_is_pair v); try done; try (intros [= <- <-]; lia).
  intros ([car cdr]&_&(e&_&E)%bind_Ret)%bind_Ret. destruct (negb _); [done|]. destruct (negb _); [injection E as <- <-; done|].
  apply IH in E as ->. rewrite length_app. cbn. destruct r; lia.
Qed.
Lemma build_argv_blocks fuel ok st cmd argv w av w' : proc_build_argv fuel ok st cmd argv w = Ret (av, w') →
  w' = with_blocks (x_blocks w + match av with Some av => Z.of_nat (length av) + 1 | None => 0 end) w.
Proof.
  assert (w = with_blocks (x_blocks w + 0) w) as H0 by (rewrite Z.add_0_r; by destruct w).
  unfold proc_build_argv. destruct (negb _); [by intros [= <- <-]|]. intros (hs&_&(c&_&E)%bind_Ret)%bind_Ret. destruct c as [c|]; [|by injection E as <- <-].
  destruct (negb (ok 0%nat)); [by injection E as <- <-|]. destruct (negb (ok 1%nat)); [by injection E as <- <-|].
  apply bind_Ret in E as ([r b']&Hcopy&[= <- <-]). apply copy_args_blocks in Hcopy as ->. f_equal. destruct r; cbn; lia.
Qed.

(** ** Descriptors *)
Definition fresh2 (w : procs) (a b : Z) : Prop := 0 ≤ a ∧ 0 ≤ b ∧ a ≠ b ∧ x_fds w !! a = None ∧ x_fds w !! b = None.
(** [pipe] gives descriptors that are not open, [fork] a pid that is no child's. *)
Record spawn_ok (w : procs) (o : spawn_os) : Prop := {
  s_in : ∀ i0 i1, q_in o = Some (i0, i1) → fresh2 w i0 i1;
  s_out : ∀ i0 i1 o0 o1, q_in o = Some (i0, i1) → q_out o = Some (o0, o1) → fresh2 (sys_pipe i0 i1 w) o0 o1;
  s_fork : ∀ pid, q_fork o = Some pid → 0 < pid ∧ x_kids w !! pid = None
}.
Definition pipes_used (n : Z) (w : procs) : procs :=
  mk_procs (x_states w) (x_fds w) (x_kids w) (x_nonblock w) n (x_blocks w) (x_killed w) (x_stale w).
Lemma pipes_used_ok n w : kids_ok w → kids_ok (pipes_used n w).
Proof. intros []. by split. Qed.
Lemma killed_ok l w : kids_ok w → kids_ok (with_killed l w).
Proof. intros []. by split. Qed.
Lemma sys_close_open fd w : is_Some (x_fds w !! fd) → sys_close fd w = with_fds (delete fd (x_fds w)) w.
Proof. intros H. unfold sys_close. by rewrite bool_decide_eq_true_2. Qed.

(** Equality of two maps by cases on the key. *)
Ltac map_cases :=
  apply map_eq; intros x;
  repeat match goal with
  | |- context [delete ?a _ !! x] => destruct (decide (a = x)) as [<-|]; [rewrite ?lookup_delete_eq|rewrite !(lookup_delete_ne _ a) by done]
  | |- context [<[?a := _]> _ !! x] => destruct (decide (a = x)) as [<-|]; [rewrite ?lookup_insert_eq|rewrite !(lookup_insert_ne _ a) by done]
  end.
Ltac open_fd := cbn [x_fds with_fds sys_pipe with_nonblock with_kids put_state with_states with_blocks]; rewrite ?lookup_delete_ne, ?lookup_insert_eq by congruence; rewrite ?lookup_insert_ne, ?lookup_insert_eq by congruence; by eexists.

Section pipes.
Context (w : procs) (i0 i1 o0 o1 : Z) (Hi : fresh2 w i0 i1) (Ho : fresh2 (sys_pipe i0 i1 w) o0 o1).
Lemma pipes_apart : i0 ≠ i1 ∧ o0 ≠ o1 ∧ o0 ≠ i0 ∧ o0 ≠ i1 ∧ o1 ≠ i0 ∧ o1 ≠ i1 ∧ x_fds w !! o0 = None ∧ x_fds w !! o1 = None.
Proof using Hi Ho.
  destruct Hi as (_&_&Hn&_&_), Ho as (_&_&Hn'&H0&H1). cbn in H0, H1.
  apply lookup_insert_None in H0 as [[E0 Ha]%lookup_insert_None Hb]. apply lookup_insert_None in H1 as [[E1 Hc]%lookup_insert_None Hd].
  by split_and!.
Qed.
Lemma close_one : sys_close i1 (sys_close i0 (sys_pipe i0 i1 w)) = pipes_used (x_pipes w + 1) w.
Proof using Hi.
  destruct Hi as (_&_&Hn&H0&H1). rewrite (sys_close_open i0) by open_fd. rewrite sys_close_open by open_fd.
  unfold with_fds, pipes_used. cbn. f_equal. map_cases; done.
Qed.
Lemma close_two : sys_close o1 (sys_close o0 (sys_close i1 (sys_close i0 (sys_pipe o0 o1 (sys_pipe i0 i1 w))))) = pipes_used (x_pipes w + 1 + 1) w.
Proof using Hi Ho.
  pose proof pipes_apart as (?&?&?&?&?&?&?&?). destruct Hi as (_&_&_&F0&F1).
  rewrite (sys_close_open i0) by open_fd. rewrite (sys_close_open i1) by open_fd. rewrite (sys_close_open o0) by open_fd. rewrite sys_close_open by open_fd.
  unfold with_fds, pipes_used. cbn. f_equal. map_cases; done.
Qed.
End pipes.

(** ** The new child *)
(** Where a success leaves the system: the parent keeps the far ends. *)
Definition spawned (ptr pid i1 o0 : Z) (kid : Child) (nb : gset (Z * bool)) (w : procs) : procs :=
  mk_procs (<[ptr := mk_ChildState pid i1 o0]> (x_states w)) (<[i1 := PipeEnd (x_pipes w) true]> (<[o0 := PipeEnd (x_pipes w + 1) false]> (x_fds w)))
    (<[pid := kid]> (x_kids w)) nb (x_pipes w + 2) (x_blocks w) (x_killed w) (x_stale w).
Lemma spawned_ok ptr pid i1 o0 kid nb w : kids_ok w → x_states w !! ptr = None → 0 < pid → x_kids w !! pid = None →
  0 ≤ i1 → 0 ≤ o0 → i1 ≠ o0 → x_fds w !! i1 = None → x_fds w !! o0 = None → kids_ok (spawned ptr pid i1 o0 kid nb w).
Proof.
  intros H Hptr Hpos Hpid H1 H0 Hne N1 N0.
  assert (∀ q d, x_states w !! q = Some d → q ≠ ptr ∧ c_pid d ≠ pid ∧ c_in d ≠ i1 ∧ c_in d ≠ o0 ∧ c_out d ≠ i1 ∧ c_out d ≠ o0) as Hold.
  { intros q d Hd. destruct (u_pid _ H _ _ Hd) as [k Hk], (u_out _ H _ _ Hd) as (_&n&Ho). split; [congruence|].
    destruct (u_in _ H _ _ Hd) as [?|(_&n'&Hi)]; split_and!; try congruence; try lia. }
  split; cbn.
  - apply (u_stale _ H).
  - intros k [x Hk]. apply lookup_insert_Some in Hk as [[<- _]|[_ Hk]]; [done|]. apply (u_pos _ H). by eexists.
  - intros fd [f Hf]. apply lookup_insert_Some in Hf as [[<- _]|[_ Hf]]; [done|]. apply lookup_insert_Some in Hf as [[<- _]|[_ Hf]]; [done|].
    apply (u_nonneg _ H). by eexists.
  - intros q d Hd. apply lookup_insert_Some in Hd as [[<- <-]|[_ Hd]]; cbn; [rewrite lookup_insert_eq; by eexists|].
    destruct (Hold _ _ Hd) as (_&?&_). rewrite lookup_insert_ne by done. by apply (u_pid _ H q).
  - intros q d Hd. apply lookup_insert_Some in Hd as [[<- <-]|[_ Hd]]; cbn; [right; split; [done|]; rewrite lookup_insert_eq; by eexists|].
    destruct (Hold _ _ Hd) as (_&_&?&?&_). by rewrite !lookup_insert_ne by done; apply (u_in _ H q).
  - intros q d Hd. apply lookup_insert_Some in Hd as [[<- <-]|[_ Hd]]; cbn; [split; [done|]; rewrite lookup_insert_ne by done; rewrite lookup_insert_eq; by eexists|].
    destruct (Hold _ _ Hd) as (_&_&_&_&?&?). by rewrite !lookup_insert_ne by done; apply (u_out _ H q).
  - intros q q' d d' Hd Hd' Hq. apply lookup_insert_Some in Hd as [[<- <-]|[_ Hd]]; apply lookup_insert_Some in Hd' as [[<- <-]|[_ Hd']]; cbn.
    + done.
    + destruct (Hold _ _ Hd') as (_&?&?&?&?&?). split_and!; congruence.
    + destruct (Hold _ _ Hd) as (_&?&?&?&?&?). split_and!; congruence.
    + by apply (u_apart _ H q q').
  - intros k [x Hk]. apply lookup_insert_Some in Hk as [[<- _]|[_ Hk]]; [eexists ptr, _; split; [apply lookup_insert_eq|done]|].
    destruct (u_kids _ H k) as (q&d&Hd&<-); [by eexists|]. exists q, d. destruct (Hold _ _ Hd) as (?&_). by rewrite lookup_insert_ne.
  - intros fd n wr Hf. apply lookup_insert_Some in Hf as [[<- [= _ <-]]|[_ Hf]]; [eexists ptr, _; split; [apply lookup_insert_eq|done]|].
    apply lookup_insert_Some in Hf as [[<- [= _ <-]]|[_ Hf]]; [eexists ptr, _; split; [apply lookup_insert_eq|done]|].
    destruct (u_ends _ H _ _ _ Hf) as (q&d&Hd&E). exists q, d. destruct (Hold _ _ Hd) as (?&_). by rewrite lookup_insert_ne.
Qed.

(** The child's table when none of the four descriptors is 0 or 1: its standard
    input and output are the near ends, and its far ends are closed. *)
Lemma child_stdio w i0 i1 o0 o1 : fresh2 w i0 i1 → fresh2 (sys_pipe i0 i1 w) o0 o1 → Forall (λ fd, 2 ≤ fd) [i0; i1; o0; o1] →
  let cf := child_fds i0 i1 o0 o1 (x_fds (sys_pipe o0 o1 (sys_pipe i0 i1 w))) in
  cf !! 0 = Some (PipeEnd (x_pipes w) false) ∧ cf !! 1 = Some (PipeEnd (x_pipes w + 1) true) ∧ ∀ fd, 2 ≤ fd → cf !! fd = x_fds w !! fd.
Proof.
  intros Hi Ho Hf. pose proof (pipes_apart w i0 i1 o0 o1 Hi Ho) as (?&?&?&?&?&?&?&?). destruct Hi as (_&_&_&?&?).
  rewrite !Forall_cons in Hf. destruct Hf as (?&?&?&?&_). cbv zeta. unfold child_fds, dup2. cbn [x_fds sys_pipe x_pipes].
  rewrite (lookup_insert_ne _ o0 i0), (lookup_insert_ne _ o1 i0), lookup_insert_eq by done.
  rewrite (lookup_insert_ne _ 0 o1), (lookup_insert_ne _ o0 o1), lookup_insert_eq by (done || lia).
  split; [|split].
  - rewrite !lookup_delete_ne by lia. rewrite lookup_insert_ne by lia. apply lookup_insert_eq.
  - rewrite !lookup_delete_ne by lia. apply lookup_insert_eq.
  - intros fd Hfd. destruct (decide (o1 = fd)) as [<-|]; [by rewrite lookup_delete_eq|rewrite lookup_delete_ne by done].
    destruct (decide (o0 = fd)) as [<-|]; [by rewrite lookup_delete_eq|rewrite lookup_delete_ne by done].
    destruct (decide (i1 = fd)) as [<-|]; [by rewrite lookup_delete_eq|rewrite lookup_delete_ne by done].
    destruct (decide (i0 = fd)) as [<-|]; [by rewrite lookup_delete_eq|rewrite lookup_delete_ne by done].
    by rewrite !lookup_insert_ne by (done || lia).
Qed.

(** Only the far ends do not block. *)
Definition kept_fds (i0 i1 o0 o1 : Z) (w : procs) : gmap Z file := delete o1 (delete i0 (x_fds (sys_pipe o0 o1 (sys_pipe i0 i1 w)))).
Definition nonblock_after (i0 i1 o0 o1 : Z) (w : procs) : gset (Z * bool) :=
  let cf := child_fds i0 i1 o0 o1 (x_fds (sys_pipe o0 o1 (sys_pipe i0 i1 w))) in
  let fds := kept_fds i0 i1 o0 o1 w in
  set_nonblock fds o0 true (set_nonblock fds i1 true (set_nonblock cf 1 false (set_nonblock cf 0 false (x_nonblock w)))).
Lemma kept_fds_spec w i0 i1 o0 o1 : fresh2 w i0 i1 → fresh2 (sys_pipe i0 i1 w) o0 o1 →
  kept_fds i0 i1 o0 o1 w = <[i1 := PipeEnd (x_pipes w) true]> (<[o0 := PipeEnd (x_pipes w + 1) false]> (x_fds w)).
Proof.
  intros Hi Ho. pose proof (pipes_apart w i0 i1 o0 o1 Hi Ho) as (?&?&?&?&?&?&?&?). destruct Hi as (_&_&_&?&?).
  unfold kept_fds. cbn. map_cases; try done; rewrite ?lookup_insert_ne, ?lookup_insert_eq by done; done.
Qed.
Lemma nonblock_ends w i0 i1 o0 o1 : fresh2 w i0 i1 → fresh2 (sys_pipe i0 i1 w) o0 o1 → Forall (λ fd, 2 ≤ fd) [i0; i1; o0; o1] →
  let nb := nonblock_after i0 i1 o0 o1 w in
  (x_pipes w, false) ∉ nb ∧ (x_pipes w + 1, true) ∉ nb ∧ (x_pipes w, true) ∈ nb ∧ (x_pipes w + 1, false) ∈ nb.
Proof.
  intros Hi Ho Hf. destruct (child_stdio w i0 i1 o0 o1 Hi Ho Hf) as (C0&C1&_).
  pose proof (pipes_apart w i0 i1 o0 o1 Hi Ho) as (?&?&?&?&?&?&?&?).
  cbv zeta. unfold nonblock_after. rewrite kept_fds_spec by done. cbv zeta. unfold set_nonblock. rewrite C0, C1.
  rewrite lookup_insert_eq, (lookup_insert_ne _ i1 o0), lookup_insert_eq by done.
  assert (∀ a b : bool, (x_pipes w, a) ≠ (x_pipes w + 1, b)) as Hne by (intros a b [=]; lia). pose proof (Hne true false). pose proof (Hne false true). pose proof (Hne false false). pose proof (Hne true true). set_solver.
Qed.

(** ** Running *)
(** The system's answers when the child starts. *)
Definition spawn_result (o : spawn_os) : option (Z * Z * Z * Z * Z) :=
  if negb (q_access o) then None
  else '(i0, i1) ← q_in o; '(o0, o1) ← q_out o; pid ← q_fork o; Some (i0, i1, o0, o1, pid).

Lemma copy_args_total ok st count t : ∀ v n ds av b, denotes st v t → strings_of t = Some ds → (spine t ≤ n)%nat →
  Z.of_nat (length av) + len ds < count + 2 → ∃ r b', copy_args n ok st v count av b = Ret (r, b') ∧
  match r with Some av' => av' = av ++ ds | None => ∃ i, ok i = false end.
Proof.
  induction t as [u|ta tb _ IHt|e0 ts0 IHts|d|d|w0 r0] using tree_ind'; intros v n ds av b D Hds Hn Hl;
    destruct (denotes_kind _ _ _ D) as (Hp&_); try done.
  - cbn [strings_of] in Hds. destruct (val_is_nil u); [|done]. injection Hds as <-. exists (Some av), b.
    rewrite app_nil_r. split; [|done]. destruct n; cbn [copy_args]; by rewrite Hp.
  - destruct ta; try done. cbn [strings_of] in Hds. destruct (strings_of tb) as [ds'|]; [|done]. injection Hds as <-.
    destruct (pair_denotes _ _ _ _ D) as (va&vb&E&Da&Db). cbn [spine length] in *. destruct n as [|n]; [lia|]. cbn [copy_args]. rewrite Hp. cbn [is_pair_tree].
    rewrite E. cbn [mbind outcome_bind]. destruct (string_denotes _ _ _ Da) as [_ ->]. cbn [mbind outcome_bind].
    destruct (Z.ltb_spec (Z.of_nat (length av)) (count + 2)); [|lia]. cbn [negb]. destruct (ok (S (length av))) eqn:Ho; cbn [negb].
    + destruct (IHt vb n ds' (av ++ [data]) (b + 1)) as (r&b'&E'&Hr); [done|done|lia|rewrite length_app; cbn; lia|].
      exists r, b'. split; [done|]. destruct r; [|done]. by rewrite Hr, <- app_assoc.
    + eexists None, _. split; [done|]. eauto.
Qed.

Section Run.
Context (cap stress : Z) (fuel : nat) (o : spawn_os) (st : store) (p : ProcMem) (w : procs) (cmd argv : Val) (d0 : list Z) (t : tree).
Context (Dc : denotes st cmd (TString d0)) (Da : denotes st argv t) (Hfuel : (spine t ≤ fuel)%nat) (Hlen : Z.of_nat (spine t) < 2 ^ 31).

(** The vector, or nothing, and then nothing stays allocated. *)
Lemma build_argv_run : ∃ av, proc_build_argv fuel (q_alloc o) st cmd argv w =
    Ret (av, with_blocks (x_blocks w + match av with Some av => Z.of_nat (length av) + 1 | None => 0 end) w) ∧
  match av with Some av => ∃ ds, strings_of t = Some ds ∧ av = d0 :: ds | None => strings_of t = None ∨ ∃ i, q_alloc o i = false end.
Proof using Dc Da Hfuel Hlen.
  assert (∃ av w', proc_build_argv fuel (q_alloc o) st cmd argv w = Ret (av, w') ∧
    match av with Some av => ∃ ds, strings_of t = Some ds ∧ av = d0 :: ds | None => strings_of t = None ∨ ∃ i, q_alloc o i = false end) as (av&w'&E&Hav).
  2:{ exists av. rewrite E. by apply build_argv_blocks in E as ->. }
  unfold proc_build_argv. destruct (string_denotes _ _ _ Dc) as [-> ->]. cbn [negb mbind outcome_bind].
  rewrite (count_args_run st t argv fuel 0) by (done || lia). cbn [mbind outcome_bind]. destruct (strings_of t) as [ds|] eqn:Hds; cbn [fmap option_fmap option_map]; [|exists None, w; split; [done|by left]].
  destruct (q_alloc o 0%nat) eqn:E0; cbn [negb]; [|exists None, w; split; [done|by eauto]]. destruct (q_alloc o 1%nat) eqn:E1; cbn [negb]; [|exists None, w; split; [done|by eauto]].
  destruct (copy_args_total (q_alloc o) st (0 + len ds) t argv fuel ds [d0] (x_blocks w + 2)) as (r&b'&->&Hr); [done|done|done|cbn; lia|].
  cbn [mbind outcome_bind]. eexists r, _. split; [done|]. destruct r; [|by right]. by exists ds.
Qed.

Context (W : window st p) (Hb0 : 0 < brk st) (Hb : brk st + NEW_COST < ADDR_LIMIT) (H : kids_ok w) (Ho : spawn_ok w o).
Context (Hold : ∀ q, is_Some (x_states w !! q) → q < brk st).

(** A failure undoes everything but the numbers of the pipes. *)
Lemma undone ptr s n (av : list (list Z)) : x_states w !! ptr = None →
  let w1 := with_blocks (x_blocks w + (Z.of_nat (length av) + 1)) w in
  let w2 := pipes_used n (put_state ptr s w1) in
  proc_free_argv av (with_states (delete ptr (x_states w2)) w2) = pipes_used n w.
Proof using.
  clear. intros Hn. cbv zeta. unfold proc_free_argv, with_states, with_blocks, pipes_used. cbn. rewrite delete_insert_id by done. f_equal. lia.
Qed.
Lemma spawn_refines : ∃ v st' p' w', process_raw_run cap stress fuel o st p w [cmd; argv] = Ret (v, st', p', w') ∧ window st' p' ∧ pid p' = pid p ∧
  ((v = val_int (-1) ∧ (∃ n, w' = pipes_used n w) ∧ (strings_of t = None ∨ spawn_result o = None ∨ ∃ i, q_alloc o i = false)) ∨
   ∃ ds i0 i1 o0 o1 pid nb, strings_of t = Some ds ∧ spawn_result o = Some (i0, i1, o0, o1, pid) ∧ handle st' (Heap.pid p) v (brk st) PROC_DTOR ∧
     w' = spawned (brk st) pid i1 o0 (mk_Child (nul_string <$> d0 :: ds) (child_fds i0 i1 o0 o1 (x_fds (sys_pipe o0 o1 (sys_pipe i0 i1 w))))) nb w ∧
     (Forall (λ fd, 2 ≤ fd) [i0; i1; o0; o1] → (x_pipes w, false) ∉ nb ∧ (x_pipes w + 1, true) ∉ nb ∧ (x_pipes w, true) ∈ nb ∧ (x_pipes w + 1, false) ∈ nb)).
Proof using All.
  assert (w = pipes_used (x_pipes w) w) as Hw by by destruct w.
  unfold process_raw_run, arg. cbn [lookup list_lookup or_undef mbind outcome_bind]. destruct build_argv_run as (av&->&Hav). cbn [mbind outcome_bind].
  destruct av as [av|]; cycle 1.
  { eexists _, _, _, _. split; [done|]. split; [done|]. split; [done|]. left. split; [done|]. split; [|tauto]. exists (x_pipes w). by rewrite Z.add_0_r. }
  destruct Hav as (ds&Hds&->). set (av := d0 :: ds). set (w1 := with_blocks _ w).
  assert (proc_free_argv av w1 = w) as Hfree.
  { unfold proc_free_argv, w1, with_blocks. cbn. destruct w; cbn. f_equal. lia. }
  unfold spawn_result. destruct (q_access o); cbn [negb]; cycle 1.
  { eexists _, _, _, _. split; [done|]. split; [done|]. split; [done|]. left. split; [done|]. split; [|by auto]. exists (x_pipes w). by rewrite Hfree. }
  destruct (handle_new cap stress st p SIZEOF_CHILDSTATE PROC_DTOR W Hb0 Hb) as (st1&v&st2&p2&E1&E2&Hh&W2&Hp&_); [done|].
  rewrite E1. cbv zeta. rewrite E2. cbn [mbind outcome_bind]. set (ptr := brk st) in *. set (s := mk_ChildState (-1) (-1) (-1)).
  assert (x_states w !! ptr = None) as Hn by (apply eq_None_not_Some; intros Hs%Hold; lia).
  assert (val_get_resource v = lpayload v) as Hv by (destruct Hh as (Ht&_); unfold val_get_resource; by rewrite Ht, Z.eqb_refl).
  rewrite <- Hp in Hh. rewrite Hv.
  assert (∀ n, ∃ st', ('(st', w') ← proc_release st2 (lpayload v) (pipes_used n (put_state ptr s w1)); Ret (val_int (-1), st', p2, proc_free_argv av w')) =
    Ret (val_int (-1), st', p2, pipes_used n w) ∧ window st' p2) as Hfail.
  { intros n. destruct (release_sentinel st2 p2 v ptr (pipes_used n (put_state ptr s w1))) as (st'&->&W'&_); [lia|done|done|apply lookup_insert_eq|].
    cbn [mbind outcome_bind]. exists st'. split; [|done]. do 2 f_equal. by apply (undone ptr s n av). }
  destruct (q_in o) as [[i0 i1]|] eqn:Ein; cycle 1.
  { destruct (Hfail (x_pipes w)) as (st'&E&W'). change (pipes_used (x_pipes w) (put_state ptr s w1)) with (put_state ptr s w1) in E. rewrite E.
    eexists _, _, _, _. split; [done|]. split; [done|]. split; [done|]. left. split; [done|]. split; [by eexists|]. right; left. done. }
  pose proof (s_in _ _ Ho _ _ Ein) as Hi. destruct (q_out o) as [[o0 o1]|] eqn:Eout; cycle 1.
  { rewrite (close_one (put_state ptr s w1) i0 i1 Hi). destruct (Hfail (x_pipes w + 1)) as (st'&E&W'). cbn [x_pipes put_state with_states w1 with_blocks]. rewrite E.
    eexists _, _, _, _. split; [done|]. split; [done|]. split; [done|]. left. split; [done|]. split; [by eexists|]. right; left. done. }
  pose proof (s_out _ _ Ho _ _ _ _ Ein Eout) as Hi2. destruct (q_fork o) as [pd|] eqn:Efork; cycle 1.
  { rewrite (close_two (put_state ptr s w1) i0 i1 o0 o1 Hi Hi2). destruct (Hfail (x_pipes w + 1 + 1)) as (st'&E&W'). cbn [x_pipes put_state with_states w1 with_blocks]. rewrite E.
    eexists _, _, _, _. split; [done|]. split; [done|]. split; [done|]. left. split; [done|]. split; [by eexists|]. right; left. done. }
  eexists _, _, _, _. split; [done|]. split; [done|]. split; [done|]. right. exists ds, i0, i1, o0, o1, pd, (nonblock_after i0 i1 o0 o1 w). split; [done|]. split; [done|].
  rewrite Hp in Hh. split; [done|]. split; [|by apply nonblock_ends].
  pose proof (pipes_apart w i0 i1 o0 o1 Hi Hi2) as (?&?&?&?&?&?&?&?).
  rewrite (sys_close_open i0) by open_fd. rewrite sys_close_open by open_fd.
  set (kid := mk_Child _ _).
  transitivity (mk_procs (<[ptr := mk_ChildState pd i1 o0]> (<[ptr := s]> (x_states w))) (kept_fds i0 i1 o0 o1 w) (<[pd := kid]> (x_kids w))
    (nonblock_after i0 i1 o0 o1 w) (x_pipes w + 1 + 1) (x_blocks w + (Z.of_nat (length av) + 1) - Z.of_nat (length av) - 1) (x_killed w) (x_stale w)); [reflexivity|].
  unfold spawned. rewrite insert_insert_eq, kept_fds_spec by done. f_equal; lia.
Qed.
End Run.

(** * Properties *)
Inductive pop := PStdin | PStdout | PWait (status : option Z) | PClose | PCloseStdin.
Definition pcall (op : pop) (st : store) (p : ProcMem) (w : procs) (v : Val) : outcome (Val * store * ProcMem * procs) :=
  match op with
  | PStdin => process_raw_stdin_w st p w [v]
  | PStdout => process_raw_stdout_r st p w [v]
  | PWait status => process_raw_wait status st p w [v]
  | PClose => process_raw_close st p w [v]
  | PCloseStdin => process_raw_close_stdin st p w [v]
  end.
Lemma refused_pcall op st p w v code : refused st (pid p) v code →
  pcall op st p w v = Ret (val_int (if code =? 0 then match op with PClose => 1 | _ => -1 end else code), st, p, w).
Proof.
  intros H. destruct op; cbn [pcall]; unfold process_raw_stdin_w, process_raw_stdout_r, process_raw_wait, process_raw_close, process_raw_close_stdin, with_child, arg;
    cbn [lookup list_lookup or_undef mbind outcome_bind]; rewrite H; cbn [mbind outcome_bind]; by destruct (code =? 0).
Qed.
(** What an operation answers for the child [c] of [ptr] and what it leaves. *)
Definition pop_result (op : pop) (ptr : Z) (c : ChildState) (w : procs) : Z * procs :=
  match op with
  | PStdin => (c_in c, w)
  | PStdout => (c_out c, w)
  | PWait status => (default (-1) status, without ptr c w)
  | PClose => (1, without ptr c w)
  | PCloseStdin => if c_in c =? -1 then (-1, w) else (1, forget_stdin ptr c w)
  end.
Lemma pop_refines op st p w v ptr c : window st p → kids_ok w → ptr ≠ 0 → handle st (pid p) v ptr PROC_DTOR → x_states w !! ptr = Some c →
  ∃ st', pcall op st p w v = Ret (val_int (pop_result op ptr c w).1, st', p, (pop_result op ptr c w).2) ∧ window st' p ∧ kids_ok (pop_result op ptr c w).2 ∧
    match op with PWait _ | PClose => refused st' (pid p) v 0 ∧ dtor_calls st' = dtor_calls st ++ [(ptr, PROC_DTOR)] | _ => st' = st end.
Proof.
  intros W H Hp Hh Hc. destruct op; cbn [pcall pop_result fst snd].
  - exists st. unfold process_raw_stdin_w. by rewrite (with_child_open st p v w ptr c []) by done.
  - exists st. unfold process_raw_stdout_r. by rewrite (with_child_open st p v w ptr c []) by done.
  - destruct (wait_refines st p v w ptr c [] W Hh Hp H Hc status) as (st'&E&W'&Hr). exists st'. split; [done|]. split; [done|]. split; [by apply without_ok|done].
  - destruct (close_child_refines st p v w ptr c [] W Hh Hp H Hc) as (st'&E&W'&Hr). exists st'. split; [done|]. split; [done|]. split; [by apply without_ok|done].
  - exists st. rewrite (close_stdin_refines st p v w ptr c []) by done. destruct (Z.eqb_spec (c_in c) (-1)) as [|Hne]; cbn [fst snd]; [done|].
    split; [done|]. split; [done|]. split; [|done]. by apply forget_stdin_ok.
Qed.

(** C35: children, descriptors and states stay in step.  Starting a child
    answers -1 and leaves nothing behind, or gives a handle to a child that runs
    the command with the arguments of the list cut at their NULs, the far ends of
    two pipes in the parent, only they non-blocking.  The operations on a live
    handle answer its descriptors or close them; [wait] and [close] close both
    ends once, reap the child once and free its state, after which the handle is
    closed; the destructor also kills.  Anything else is answered with -1 or -2
    and changes nothing.  Every case keeps the invariant. *)
Theorem children_safe cap stress fuel st p w : window st p → kids_ok w →
  (∀ o cmd argv d0 t, denotes st cmd (TString d0) → denotes st argv t → (spine t ≤ fuel)%nat → Z.of_nat (spine t) < 2 ^ 31 →
     0 < brk st → brk st + NEW_COST < ADDR_LIMIT → spawn_ok w o → (∀ q, is_Some (x_states w !! q) → q < brk st) →
     ∃ v st' p' w', process_raw_run cap stress fuel o st p w [cmd; argv] = Ret (v, st', p', w') ∧ window st' p' ∧ kids_ok w' ∧
       ((v = val_int (-1) ∧ (∃ n, w' = pipes_used n w) ∧ (strings_of t = None ∨ spawn_result o = None ∨ ∃ i, q_alloc o i = false)) ∨
        ∃ ds i0 i1 o0 o1 pid nb cf, strings_of t = Some ds ∧ spawn_result o = Some (i0, i1, o0, o1, pid) ∧
          handle st' (Heap.pid p) v (brk st) PROC_DTOR ∧ w' = spawned (brk st) pid i1 o0 (mk_Child (nul_string <$> d0 :: ds) cf) nb w ∧
          (Forall (λ fd, 2 ≤ fd) [i0; i1; o0; o1] →
             cf !! 0 = Some (PipeEnd (x_pipes w) false) ∧ cf !! 1 = Some (PipeEnd (x_pipes w + 1) true) ∧
             (x_pipes w, false) ∉ nb ∧ (x_pipes w + 1, true) ∉ nb ∧ (x_pipes w, true) ∈ nb ∧ (x_pipes w + 1, false) ∈ nb))) ∧
  (∀ op v ptr c, ptr ≠ 0 → handle st (pid p) v ptr PROC_DTOR → x_states w !! ptr = Some c →
     ∃ st', pcall op st p w v = Ret (val_int (pop_result op ptr c w).1, st', p, (pop_result op ptr c w).2) ∧ window st' p ∧ kids_ok (pop_result op ptr c w).2 ∧
       match op with
       | PWait _ | PClose => ∀ op' w', pcall op' st' p w' v = Ret (val_int (match op' with PClose => 1 | _ => -1 end), st', p, w')
       | _ => st' = st
       end) ∧
  (∀ ptr c, x_states w !! ptr = Some c → ∃ w', proc_dtor w ptr = Ret w' ∧ w' = with_killed (c_pid c :: x_killed w) (without ptr c w) ∧ kids_ok w') ∧
  (∀ op v, val_tag v ≠ TAG_RESOURCE → pcall op st p w v = Ret (val_int (-1), st, p, w)) ∧
  (∀ op v owner res, val_tag v = TAG_RESOURCE → lpayload v ≠ 0 → read_resource st (lpayload v) = Ret (owner, res) → owner ≠ pid p →
     pcall op st p w v = Ret (val_int (-2), st, p, w)).
Proof.
  intros W H. split; [|split; [|split; [|split]]].
  - intros o cmd argv d0 t Dc Da Hf Hl Hb0 Hb Ho Hold.
    destruct (spawn_refines cap stress fuel o st p w cmd argv d0 t Dc Da Hf Hl W Hb0 Hb H Ho Hold) as (v&st'&p'&w'&E&W'&_&Hr).
    exists v, st', p', w'. split; [done|]. split; [done|]. destruct Hr as [(Hv&[n ->]&Hr)|(ds&i0&i1&o0&o1&pd&nb&Hds&Hs&Hh&->&Hnb)].
    + split; [by apply pipes_used_ok|]. left. split; [done|]. split; [by eexists|done].
    + assert (q_in o = Some (i0, i1) ∧ q_out o = Some (o0, o1) ∧ q_fork o = Some pd) as (Ei&Eo&Ef).
      { revert Hs. unfold spawn_result. destruct (q_access o), (q_in o) as [[]|], (q_out o) as [[]|], (q_fork o); cbn; try done. by intros [= -> -> -> -> ->]. }
      pose proof (s_in _ _ Ho _ _ Ei) as Hi. pose proof (s_out _ _ Ho _ _ _ _ Ei Eo) as Ho2. destruct (s_fork _ _ Ho _ Ef) as [Hpos Hpid].
      pose proof (pipes_apart w i0 i1 o0 o1 Hi Ho2) as (?&?&?&?&?&?&?&?).
      split.
      * destruct Hi as (?&?&?&?&?), Ho2 as (?&?&?&_). apply spawned_ok; try done. apply eq_None_not_Some. intros Hs'%Hold. lia.
      * right. eexists ds, i0, i1, o0, o1, pd, nb, _. split; [done|]. split; [done|]. split; [done|]. split; [done|].
        intros Hfd. destruct (child_stdio w i0 i1 o0 o1 Hi Ho2 Hfd) as (C0&C1&_). split; [done|]. split; [done|]. by apply Hnb.
  - intros op v ptr c Hp Hh Hc. destruct (pop_refines op st p w v ptr c W H Hp Hh Hc) as (st'&E&W'&Hk&Hop). exists st'. split; [done|]. split; [done|]. split; [done|].
    destruct op; try done; destruct Hop as [Hr _]; intros op' w'; by rewrite (refused_pcall op' st' p w' v 0).
  - intros ptr c Hc. eexists. split; [by apply dtor_refines|]. split; [done|]. by apply killed_ok, without_ok.
  - intros op v Ht. rewrite (refused_pcall op st p w v (-1)); [done|]. by apply refused_cases.
  - intros op v owner res Ht Ha Hr Hne. rewrite (refused_pcall op st p w v (-2)); [done|]. by eapply refused_cases.
Qed.

Definition w_child : ChildState := mk_ChildState 50 5 6.
Definition w_procs : procs := mk_procs {[ 3072 := w_child ]} {[ 5 := PipeEnd 0 true; 6 := PipeEnd 1 false ]} {[ 50 := mk_Child ["/bin/cat"%string] ∅ ]} ∅ 2 0 [] [].
Definition w_procstore : store := mk_store {[ 1024 := Live (HeapResource 1 2048) ]} {[ 2048 := (3072, PROC_DTOR) ]} [] 8192.
Lemma w_procs_ok : kids_ok w_procs.
Proof.
  assert (∀ k, is_Some (x_kids w_procs !! k) → k = 50) as Hk by (intros k [x Hx]; cbn [x_kids w_procs] in Hx; by apply lookup_singleton_Some in Hx as [<- _]).
  assert (∀ q c, x_states w_procs !! q = Some c → q = 3072 ∧ c = w_child) as Hs by (intros q c Hx; cbn [x_states w_procs] in Hx; by apply lookup_singleton_Some in Hx as [<- <-]).
  assert (∀ fd f, x_fds w_procs !! fd = Some f → fd = 5 ∧ f = PipeEnd 0 true ∨ fd = 6 ∧ f = PipeEnd 1 false) as Hf.
  { intros fd f Hx. cbn [x_fds w_procs] in Hx. apply lookup_insert_Some in Hx as [[<- <-]|[_ Hx]]; [by left|]. apply lookup_singleton_Some in Hx as [<- <-]. by right. }
  split.
  - reflexivity.
  - intros k ->%Hk. lia.
  - intros fd [f [[-> _]|[-> _]]%Hf]; lia.
  - intros q c [-> ->]%Hs. by eexists.
  - intros q c [-> ->]%Hs. right. split; [done|]. by exists 0.
  - intros q c [-> ->]%Hs. split; [done|]. by exists 1.
  - intros q q' c c' [-> _]%Hs [-> _]%Hs. done.
  - intros k ->%Hk. by exists 3072, w_child.
  - intros fd n wr [[-> [= _ ->]]|[-> [= _ ->]]]%Hf; by exists 3072, w_child.
Qed.
Lemma w_procs_window : window w_procstore w_winproc.
Proof.
  destruct (w_heap_window {[ 1024 := Live (HeapResource 1 2048) ]}) as [W1 W2 W3]; [|by split].
  intros x Hx. apply lookup_singleton_ne. lia.
Qed.
Lemma children_safe_witness : ∃ st', pcall (PWait (Some 7)) w_procstore w_winproc w_procs (lbox TAG_RESOURCE 1024) =
    Ret (val_int 7, st', w_winproc, without 3072 w_child w_procs) ∧
  ∀ op' w', pcall op' st' w_winproc w' (lbox TAG_RESOURCE 1024) = Ret (val_int (match op' with PClose => 1 | _ => -1 end), st', w_winproc, w').
Proof.
  destruct (children_safe 4096 0 10 w_procstore w_winproc w_procs w_procs_window w_procs_ok) as (_&Hops&_).
  destruct (Hops (PWait (Some 7)) (lbox TAG_RESOURCE 1024) 3072 w_child) as (st'&E&_&_&Hr).
  - done.
  - split; [by rewrite lbox_tag|]. split; [by rewrite lbox_payload|]. exists 2048. by rewrite lbox_payload.
  - reflexivity.
  - exists st'. split; [exact E|exact Hr].
Defined.

(** Every child inherits the far ends of the children before it: after
    [close_stdin] a writing end of the pipe is still open in a child started
    later, so the first child sees no end of file while that one lives. *)
Theorem eof_withheld w ptr c ptr' pid i0 i1 o0 o1 argv nb : kids_ok w → x_states w !! ptr = Some c → ptr' ≠ ptr → 2 ≤ c_in c →
  fresh2 w i0 i1 → fresh2 (sys_pipe i0 i1 w) o0 o1 → Forall (λ fd, 2 ≤ fd) [i0; i1; o0; o1] →
  let kid := mk_Child argv (child_fds i0 i1 o0 o1 (x_fds (sys_pipe o0 o1 (sys_pipe i0 i1 w)))) in
  let w' := forget_stdin ptr c (spawned ptr' pid i1 o0 kid nb w) in
  ∃ n, x_fds w !! c_in c = Some (PipeEnd n true) ∧ x_fds w' !! c_in c = None ∧ x_kids w' !! pid = Some kid ∧ k_fds kid !! c_in c = Some (PipeEnd n true).
Proof.
  intros H Hc Hne Hin Hi Ho Hf kid w'. destruct (u_in _ H _ _ Hc) as [?|(_&n&Hn)]; [lia|]. exists n. split; [done|].
  destruct (child_stdio w i0 i1 o0 o1 Hi Ho Hf) as (_&_&Hk). split; [apply lookup_delete_eq|]. split; [apply lookup_insert_eq|].
  cbn [kid k_fds]. by rewrite Hk.
Qed.
