(* ===== verification/Tls.v ===== *)
(** The [tls] module: src/lib/tls.c, connections behind the resource values of
    Resource.v.

    [tls] is what the module acts on: its [TlsState] blocks by address, the live
    SSL objects with the descriptor and the server name they carry, the open
    descriptors, and the objects that were sent a close notification.  An SSL
    object freed twice and a close of a descriptor that is not open are recorded
    in [t_stale].  What OpenSSL answers is an argument of each call. *)
From stdpp Require Import base tactics list gmap strings.
From Stdlib Require Import ZArith Lia.
From S2P Require Import Prelude Values Heap Resource Gc GcCorrect GcSpec Tree Alloc Copy Cmodule Handle Str Net.
Open Scope Z_scope.

(** * OpenSSL and the descriptors *)
Record SSL := mk_SSL { o_fd : Z (** -1 before [SSL_set_fd] *); o_name : option string }.
Record TlsState := mk_TlsState { t_ssl : Z; t_fd : Z (** -1 once handed back *) }.
Record tls := mk_tls {
  t_states : gmap Z TlsState;
  t_ssls : gmap Z SSL;
  t_fds : gset Z;
  t_shut : list Z;
  t_stale : list Z
}.
Definition with_tstates (m : gmap Z TlsState) (w : tls) : tls := mk_tls m (t_ssls w) (t_fds w) (t_shut w) (t_stale w).
Definition with_ssls (m : gmap Z SSL) (w : tls) : tls := mk_tls (t_states w) m (t_fds w) (t_shut w) (t_stale w).
Definition put_tls (ptr : Z) (s : TlsState) (w : tls) : tls := with_tstates (<[ptr := s]> (t_states w)) w.
Definition ssl_free (ssl : Z) (w : tls) : tls :=
  if bool_decide (is_Some (t_ssls w !! ssl)) then with_ssls (delete ssl (t_ssls w)) w
  else mk_tls (t_states w) (t_ssls w) (t_fds w) (t_shut w) (ssl :: t_stale w).
Definition ssl_shutdown (ssl : Z) (w : tls) : tls := mk_tls (t_states w) (t_ssls w) (t_fds w) (ssl :: t_shut w) (t_stale w).
Definition tls_close_fd (fd : Z) (w : tls) : tls :=
  if bool_decide (fd ∈ t_fds w) then mk_tls (t_states w) (t_ssls w) (t_fds w ∖ {[fd]}) (t_shut w) (t_stale w)
  else mk_tls (t_states w) (t_ssls w) (t_fds w) (t_shut w) (fd :: t_stale w).

(** What [SSL_get_error] says of a failed call. *)
Inductive ssl_error := SslWantRead | SslWantWrite | SslZeroReturn | SslProtocol | SslSyscall (errno : Z) | SslOther.

(** * The code *)
Definition EPERM : Z := 1.
Definition EBADF : Z := 9.
Definition ENOMEM : Z := 12.
Definition EINVAL : Z := 22.
Definition EPROTO : Z := 71.
Definition ECONNRESET : Z := 104.
Definition SIZEOF_TLSSTATE : Z := 16.
Definition TLS_DTOR : Z := 3.

Definition tls_dtor (w : tls) (ptr : Z) : outcome tls :=
  s ← or_undef (t_states w !! ptr);
  let w := if t_ssl s =? 0 then w else ssl_free (t_ssl s) (ssl_shutdown (t_ssl s) w) in
  let w := if 0 <=? t_fd s then tls_close_fd (t_fd s) w else w in
  Ret (with_tstates (delete ptr (t_states w)) w).
(** [ta_resource_release] with this destructor. *)
Definition tls_release (st : store) (a : Z) (w : tls) : outcome (store * tls) :=
  '(_, res) ← read_resource st a;
  if res =? 0 then Ret (st, w)
  else
    '(ptr, _) ← or_undef (payloads st !! res);
    st ← ta_resource_release st a;
    w ← tls_dtor w ptr;
    Ret (st, w).
Definition tls_open_errno (code : Z) (io : pio) : pio := set_errno (if code =? -2 then EPERM else EBADF) io.
(** [errno] is read for a failed system call only. *)
Definition tls_record_error (e : ssl_error) (io : pio) : pio :=
  set_errno match e with
            | SslProtocol => EPROTO
            | SslSyscall n => if negb (n =? 0) then n else ECONNRESET
            | _ => ECONNRESET
            end io.
(** The waits shared by the operations; [None]: the error is terminal. *)
Definition tls_want (e : ssl_error) (fd : Z) (io : pio) : option pio :=
  match e with
  | SslWantRead => Some (vm_yield (vm_watch_fd fd POLLIN io))
  | SslWantWrite => Some (vm_yield (vm_watch_fd fd POLLOUT io))
  | _ => None
  end.

(** The answers of the system to one [tls_raw_wrap]. *)
Record wrap_os := mk_wrap_os {
  k_ctx : bool;
  k_ssl : option Z;
  k_setfd : bool;
  k_name : bool (** the copy of the host name *);
  k_state : bool
}.
Section Module.
Context (cap stress : Z).

Definition tls_raw_wrap (o : wrap_os) (st : store) (p : ProcMem) (w : tls) (io : pio) (args : list Val) : outcome (Val * store * ProcMem * tls * pio) :=
  v0 ← arg args 0;
  if negb (val_is_int v0) then Ret (val_int (-1), st, p, w, set_errno EINVAL io)
  else
    let fd := i32 (val_get_int v0) in
    if fd <? 0 then Ret (val_int (-1), st, p, w, set_errno EBADF io)
    else if negb (k_ctx o) then Ret (val_int (-1), st, p, w, set_errno ENOMEM io)
    else
      match k_ssl o with
      | None => Ret (val_int (-1), st, p, w, set_errno ENOMEM io)
      | Some ssl =>
          let w := with_ssls (<[ssl := mk_SSL (-1) None]> (t_ssls w)) w in
          if negb (k_setfd o) then Ret (val_int (-1), st, p, ssl_free ssl w, set_errno EINVAL io)
          else
            v1 ← arg args 1;
            name ← (if val_is_string v1 then d ← read_string st v1; Ret (if (0 <? len d) && k_name o then Some (nul_string d) else None)
                    else Ret None);
            let w := with_ssls (<[ssl := mk_SSL fd name]> (t_ssls w)) w in
            match (if k_state o then malloc st SIZEOF_TLSSTATE else None) with
            | None => Ret (val_int (-1), st, p, ssl_free ssl w, set_errno ENOMEM io)
            | Some (ptr, st) =>
                '(res, st, p) ← ta_resource_new cap stress st p ptr TLS_DTOR;
                Ret (res, st, p, put_tls ptr (mk_TlsState ssl fd) w, io)
            end
      end.
End Module.

(** The other functions answer what [answer_val] turns into a value. *)
Abbreviation result := (outcome (net_answer * store * tls * pio)).
(** The preamble of a handshake, a read and a write. *)
Definition with_tls (st : store) (p : ProcMem) (w : tls) (io : pio) (args : list Val) (k : Z → Z → TlsState → result) : result :=
  v ← arg args 0;
  '(code, h) ← ta_resource_open st (pid p) v (-1);
  match h with
  | None => Ret (AInt code, st, w, tls_open_errno code io)
  | Some a =>
      '(_, res) ← read_resource st a;
      '(ptr, _) ← or_undef (payloads st !! res);
      s ← or_undef (t_states w !! ptr);
      k a ptr s
  end.
(** [None]: [SSL_connect] answered 1. *)
Definition tls_raw_hs (r : option ssl_error) (st : store) (p : ProcMem) (w : tls) (io : pio) (args : list Val) : result :=
  with_tls st p w io args (λ a ptr s,
    match r with
    | None => Ret (AInt 1, st, w, io)
    | Some e =>
        match tls_want e (t_fd s) io with
        | Some io => Ret (ANil, st, w, io)
        | None =>
            '(st, w) ← tls_release st a (put_tls ptr (mk_TlsState (t_ssl s) (-1)) w);
            Ret (AInt (-1), st, w, tls_record_error e io)
        end
    end).
Definition tls_read_limit (args : list Val) : outcome Z :=
  v ← arg args 1;
  let n := if val_is_int v then i32 (val_get_int v) else 4096 in
  let n := if n <=? 0 then 4096 else n in
  Ret (if 65536 <? n then 65536 else n).
(** [got n]: the bytes [SSL_read] put into a buffer of [n], or its error. *)
Definition tls_raw_read (alloc : Z → bool) (got : Z → list Z + ssl_error) (st : store) (p : ProcMem) (w : tls) (io : pio) (args : list Val) : result :=
  with_tls st p w io args (λ _ _ s,
    max_len ← tls_read_limit args;
    if negb (alloc max_len) then Ret (AInt (-1), st, w, set_errno ENOMEM io)
    else
      match got max_len with
      | inl d => if len d <=? max_len then Ret (AStr d, st, w, io) else Undef
      | inr SslZeroReturn => Ret (ASym "eof", st, w, io)
      | inr e =>
          match tls_want e (t_fd s) io with
          | Some io => Ret (ANil, st, w, io)
          | None => Ret (AInt (-1), st, w, tls_record_error e io)
          end
      end).
(** [put d]: how many bytes of [d] [SSL_write] took, or its error. *)
Definition tls_raw_write (put : list Z → Z + ssl_error) (st : store) (p : ProcMem) (w : tls) (io : pio) (args : list Val) : result :=
  with_tls st p w io args (λ _ _ s,
    v ← arg args 1;
    if negb (val_is_string v) then Ret (AInt (-1), st, w, set_errno EINVAL io)
    else
      d ← read_string st v;
      match put d with
      | inl n => Ret (AInt n, st, w, io)
      | inr e =>
          match tls_want e (t_fd s) io with
          | Some io => Ret (ANil, st, w, io)
          | None => Ret (AInt (-1), st, w, tls_record_error e io)
          end
      end).
Definition tls_raw_close (st : store) (p : ProcMem) (w : tls) (io : pio) (args : list Val) : result :=
  v ← arg args 0;
  '(code, h) ← ta_resource_open st (pid p) v 1;
  match h with
  | None => Ret (AInt code, st, w, if code =? -2 then set_errno EPERM io else io)
  | Some a =>
      '(_, res) ← read_resource st a;
      '(ptr, _) ← or_undef (payloads st !! res);
      s ← or_undef (t_states w !! ptr);
      v1 ← arg args 1;
      let keep_fd := val_is_int v1 && negb (val_get_int v1 =? 0) in
      let w := if keep_fd then put_tls ptr (mk_TlsState (t_ssl s) (-1)) w else w in
      '(st, w) ← tls_release st a w;
      Ret (AInt (if keep_fd then t_fd s else 1), st, w, io)
  end.

(** * The invariant *)
(** Every state has its SSL object, bound to its open descriptor, and shares
    neither with another; every live object belongs to a state. *)
Record tls_ok (w : tls) : Prop := {
  l_stale : t_stale w = [];
  l_state : ∀ ptr s, t_states w !! ptr = Some s → t_ssl s ≠ 0 ∧ 0 ≤ t_fd s ∧ t_fd s ∈ t_fds w ∧ ∃ n, t_ssls w !! t_ssl s = Some (mk_SSL (t_fd s) n);
  l_apart : ∀ ptr ptr' s s', t_states w !! ptr = Some s → t_states w !! ptr' = Some s' → ptr ≠ ptr' → t_ssl s ≠ t_ssl s' ∧ t_fd s ≠ t_fd s';
  l_live : ∀ ssl, is_Some (t_ssls w !! ssl) → ∃ ptr s, t_states w !! ptr = Some s ∧ t_ssl s = ssl
}.
(** What stays when the connection of [ptr] is gone; its descriptor stays open
    when [keep]. *)
Definition disconnect (keep : bool) (ptr : Z) (s : TlsState) (w : tls) : tls :=
  mk_tls (delete ptr (t_states w)) (delete (t_ssl s) (t_ssls w)) (if keep then t_fds w else t_fds w ∖ {[t_fd s]}) (t_ssl s :: t_shut w) (t_stale w).

Section inv.
Context (w : tls) (H : tls_ok w) (ptr : Z) (s : TlsState) (Hs : t_states w !! ptr = Some s).
Lemma disconnect_ok keep : tls_ok (disconnect keep ptr s w).
Proof using H Hs.
  split; cbn.
  - apply (l_stale _ H).
  - intros q d Hd. apply lookup_delete_Some in Hd as [Hq Hd]. destruct (l_state _ H _ _ Hd) as (H1&H2&H3&n&Hn).
    destruct (l_apart _ H _ _ _ _ Hs Hd Hq) as [Ha Hb]. split; [done|]. split; [done|].
    split; [destruct keep; set_solver|]. exists n. by rewrite lookup_delete_ne.
  - intros q q' d d' Hd Hd'. apply lookup_delete_Some in Hd as [_ Hd], Hd' as [_ Hd']. by apply (l_apart _ H).
  - intros ssl [x Hx]. apply lookup_delete_Some in Hx as [Hne Hx]. destruct (l_live _ H ssl) as (q&d&Hd&<-); [by eexists|].
    exists q, d. split; [|done]. rewrite lookup_delete_ne; [done|]. intros ->. congruence.
Qed.
Lemma dtor_keeps keep : tls_dtor (if (keep : bool) then put_tls ptr (mk_TlsState (t_ssl s) (-1)) w else w) ptr = Ret (disconnect keep ptr s w).
Proof using H Hs.
  destruct (l_state _ H _ _ Hs) as (H1&H2&H3&n&Hn). unfold tls_dtor, disconnect. destruct keep; cbn [t_states put_tls with_tstates].
  - rewrite lookup_insert_eq. cbn [or_undef mbind outcome_bind t_ssl t_fd]. destruct (Z.eqb_spec (t_ssl s) 0); [done|].
    unfold ssl_free. cbn [t_ssls ssl_shutdown put_tls with_tstates]. rewrite bool_decide_eq_true_2 by by rewrite Hn. cbn. by rewrite delete_insert_eq.
  - rewrite Hs. cbn [or_undef mbind outcome_bind]. destruct (Z.eqb_spec (t_ssl s) 0); [done|].
    unfold ssl_free. cbn [t_ssls ssl_shutdown]. rewrite bool_decide_eq_true_2 by by rewrite Hn. destruct (Z.leb_spec 0 (t_fd s)); [|lia].
    unfold tls_close_fd. cbn [t_fds with_ssls ssl_shutdown]. by rewrite bool_decide_eq_true_2.
Qed.
End inv.

(** * The operations on a connection *)
Lemma tls_release_run st p v ptr w w' : ptr ≠ 0 → window st p → handle st (pid p) v ptr TLS_DTOR → tls_dtor w ptr = Ret w' →
  ∃ st', tls_release st (lpayload v) w = Ret (st', w') ∧ window st' p ∧ refused st' (pid p) v 0 ∧ dtor_calls st' = dtor_calls st ++ [(ptr, TLS_DTOR)].
Proof.
  intros H0 W Hh Hd. destruct (handle_release st p v ptr TLS_DTOR W Hh) as (st'&Er&W'&Hr&Hc); [done|].
  destruct (handle_open _ _ _ _ _ 0 Hh) as (_&res&E&Hne&Hpl). unfold tls_release. rewrite E. cbn [mbind outcome_bind].
  destruct (Z.eqb_spec res 0); [done|]. rewrite Hpl. cbn [or_undef mbind outcome_bind]. rewrite Er. cbn [mbind outcome_bind]. rewrite Hd.
  exists st'. split; [done|]. split; [done|]. split; [done|]. by destruct (Z.eqb_spec ptr 0).
Qed.

(** What a failed call waits for, and the errno of a terminal error. *)
Definition wanted (e : ssl_error) : option Z := match e with SslWantRead => Some POLLIN | SslWantWrite => Some POLLOUT | _ => None end.
Definition errno_of (e : ssl_error) : Z :=
  match e with SslProtocol => EPROTO | SslSyscall n => if n =? 0 then ECONNRESET else n | _ => ECONNRESET end.
Definition suspended (fd ev : Z) (io : pio) : pio := mk_pio fd ev (wait_deadline_ms io) (last_errno io) true.
Lemma want_spec e fd io : tls_want e fd io = (λ ev, suspended fd ev io) <$> wanted e.
Proof. by destruct e. Qed.
Lemma record_spec e io : tls_record_error e io = set_errno (errno_of e) io.
Proof. destruct e as [| | | |n|]; try done. unfold tls_record_error, errno_of. by destruct (n =? 0). Qed.

Inductive top :=
| THandshake (r : option ssl_error)
| TRead (alloc : Z → bool) (got : Z → list Z + ssl_error)
| TWrite (put : list Z → Z + ssl_error)
| TClose.
Definition tcall (op : top) (st : store) (p : ProcMem) (w : tls) (io : pio) (args : list Val) : result :=
  match op with
  | THandshake r => tls_raw_hs r st p w io args
  | TRead alloc got => tls_raw_read alloc got st p w io args
  | TWrite put => tls_raw_write put st p w io args
  | TClose => tls_raw_close st p w io args
  end.
(** How an error of [SSL_read] or [SSL_write] is answered. *)
Definition wait_or_fail (e : ssl_error) (s : TlsState) (io : pio) : net_answer * pio :=
  match wanted e with Some ev => (ANil, suspended (t_fd s) ev io) | None => (AInt (-1), set_errno (errno_of e) io) end.
(** The answer of an operation on the connection [s] with a second argument
    that denotes [t], and whether the connection ends and keeps its
    descriptor. *)
Definition clamp_read (t : tree) : Z :=
  let n := match t with Imm v => if val_is_int v then i32 (val_get_int v) else 4096 | _ => 4096 end in
  if n <=? 0 then 4096 else Z.min n 65536.
Definition keeps (t : tree) : bool := match t with Imm v => val_is_int v && negb (val_get_int v =? 0) | _ => false end.
Definition top_answer (op : top) (s : TlsState) (t : tree) (io : pio) : net_answer * pio :=
  match op with
  | THandshake None => (AInt 1, io)
  | THandshake (Some e) => wait_or_fail e s io
  | TRead alloc got =>
      if alloc (clamp_read t) then
        match got (clamp_read t) with inl d => (AStr d, io) | inr SslZeroReturn => (ASym "eof", io) | inr e => wait_or_fail e s io end
      else (AInt (-1), set_errno ENOMEM io)
  | TWrite put =>
      match t with
      | TString d => match put d with inl n => (AInt n, io) | inr e => wait_or_fail e s io end
      | _ => (AInt (-1), set_errno EINVAL io)
      end
  | TClose => (AInt (if keeps t then t_fd s else 1), io)
  end.
Definition finishes (op : top) (t : tree) : option bool :=
  match op with
  | THandshake (Some e) => match wanted e with Some _ => None | None => Some true end
  | TClose => Some (keeps t)
  | _ => None
  end.
(** [SSL_read] gives no more than it was asked for. *)
Definition top_ok (op : top) : Prop := match op with TRead _ got => ∀ n d, got n = inl d → len d ≤ n | _ => True end.

Lemma int_tree {A} st v t (f : Val → A) d : denotes st v t →
  (if val_is_int v then f v else d) = match t with Imm u => if val_is_int u then f u else d | _ => d end.
Proof. intros D. destruct (denotes_kind _ _ _ D) as (_&_&->&_). destruct t; [|done..]. simpl in D. by destruct D as (->&_). Qed.

Section ops.
Context (st : store) (p : ProcMem) (v : Val) (w : tls) (io : pio) (ptr : Z) (s : TlsState) (v1 : Val) (t : tree).
Context (W : window st p) (Hh : handle st (pid p) v ptr TLS_DTOR) (Hp : ptr ≠ 0) (H : tls_ok w) (Hs : t_states w !! ptr = Some s) (D : denotes st v1 t).

Lemma with_tls_open rest k : with_tls st p w io (v :: rest) k = k (lpayload v) ptr s.
Proof using Hh Hs.
  unfold with_tls, arg. cbn [lookup list_lookup or_undef mbind outcome_bind].
  destruct (handle_open _ _ _ _ _ (-1) Hh) as (->&res&E&_&Hpl). cbn [mbind outcome_bind]. rewrite E. cbn [mbind outcome_bind].
  rewrite Hpl. cbn [or_undef mbind outcome_bind]. by rewrite Hs.
Qed.
Lemma read_limit_spec : tls_read_limit [v; v1] = Ret (clamp_read t) ∧ 0 < clamp_read t ≤ 65536.
Proof using D.
  unfold tls_read_limit, clamp_read, arg. cbn [lookup list_lookup or_undef mbind outcome_bind]. rewrite (int_tree st v1 t (λ u, i32 (val_get_int u)) 4096 D).
  generalize (match t with Imm v => if val_is_int v then i32 (val_get_int v) else 4096 | _ => 4096 end). intros n.
  destruct (Z.leb_spec n 0); [split; [done|lia]|]. destruct (Z.ltb_spec 65536 n); (split; [f_equal; lia|lia]).
Qed.
Lemma keeps_spec : val_is_int v1 && negb (val_get_int v1 =? 0) = keeps t.
Proof using D. exact (int_tree st v1 t (λ u, negb (val_get_int u =? 0)) false D). Qed.

(** The whole table. *)
Lemma connection_op op : top_ok op → ∃ st' io', tcall op st p w io [v; v1] = Ret ((top_answer op s t io).1, st', match finishes op t with Some keep => disconnect keep ptr s w | None => w end, io') ∧
  io' = (top_answer op s t io).2 ∧ window st' p ∧ match finishes op t with Some _ => refused st' (pid p) v 0 ∧ dtor_calls st' = dtor_calls st ++ [(ptr, TLS_DTOR)] | None => st' = st end.
Proof using All.
  intros Hok. destruct op as [[e|]|alloc got|put|]; cbn [tcall top_answer finishes].
  - unfold tls_raw_hs. rewrite with_tls_open, want_spec. unfold wait_or_fail. destruct (wanted e) as [ev|]; cbn [fmap option_fmap option_map fst snd]; [by eexists _, _|].
    destruct (tls_release_run st p v ptr (put_tls ptr (mk_TlsState (t_ssl s) (-1)) w) (disconnect true ptr s w) Hp W Hh) as (st'&->&W'&Hr); [by apply (dtor_keeps w H ptr s Hs true)|].
    cbn [mbind outcome_bind]. rewrite record_spec. by eexists _, _.
  - unfold tls_raw_hs. rewrite with_tls_open. by eexists _, _.
  - unfold tls_raw_read. rewrite with_tls_open. destruct read_limit_spec as [-> _]. cbn [mbind outcome_bind].
    destruct (alloc (clamp_read t)); cbn [negb fst snd]; [|by eexists _, _].
    destruct (got (clamp_read t)) as [d|e] eqn:Eg; cbn [fst snd].
    + pose proof (Hok _ _ Eg). destruct (Z.leb_spec (len d) (clamp_read t)); [by eexists _, _|lia].
    + rewrite want_spec, record_spec. unfold wait_or_fail. destruct e; cbn; by eexists _, _.
  - unfold tls_raw_write. rewrite with_tls_open. unfold arg. cbn [lookup list_lookup or_undef mbind outcome_bind].
    assert ((∃ d, t = TString d) ∨ ∀ d, t ≠ TString d) as [[d Et]|Hn] by (destruct t; eauto).
    + rewrite Et in *. destruct (string_denotes _ _ _ D) as [-> ->]. cbn [negb mbind outcome_bind]. destruct (put d) as [n|e]; cbn [fst snd]; [by eexists _, _|].
      rewrite want_spec, record_spec. unfold wait_or_fail. destruct (wanted e); by eexists _, _.
    + rewrite (not_string_denotes _ _ _ D) by done. cbn [negb]. destruct t; try (by eexists _, _). by destruct (Hn data).
  - unfold tls_raw_close, arg. cbn [lookup list_lookup or_undef mbind outcome_bind].
    destruct (handle_open _ _ _ _ _ 1 Hh) as (->&res&E&_&Hpl). cbn [mbind outcome_bind]. rewrite E. cbn [mbind outcome_bind].
    rewrite Hpl. cbn [or_undef mbind outcome_bind]. rewrite Hs. cbn [or_undef mbind outcome_bind]. rewrite keeps_spec.
    destruct (tls_release_run st p v ptr _ (disconnect (keeps t) ptr s w) Hp W Hh (dtor_keeps w H ptr s Hs (keeps t))) as (st'&E'&W'&Hr).
    rewrite E'. cbn [mbind outcome_bind fst snd]. by eexists _, _.
Qed.
End ops.

(** * Wrapping a descriptor *)
Definition connected (ptr ssl fd : Z) (name : option string) (w : tls) : tls :=
  mk_tls (<[ptr := mk_TlsState ssl fd]> (t_states w)) (<[ssl := mk_SSL fd name]> (t_ssls w)) (t_fds w) (t_shut w) (t_stale w).
(** The descriptor is open and wrapped by no other connection, the SSL object is new. *)
Record wrap_ok (w : tls) (o : wrap_os) (fd : Z) : Prop := {
  r_fd : 0 ≤ fd < 2 ^ 31;
  r_open : fd ∈ t_fds w;
  r_alone : ∀ ptr s, t_states w !! ptr = Some s → t_fd s ≠ fd;
  r_new : ∀ ssl, k_ssl o = Some ssl → ssl ≠ 0 ∧ t_ssls w !! ssl = None
}.
(** The server name is sent when the host is a text that is not empty. *)
Definition sni (t : tree) (ok : bool) : option string := match t with TString d => if (0 <? len d) && ok then Some (nul_string d) else None | _ => None end.
Lemma connected_ok ptr ssl fd name w : tls_ok w → t_states w !! ptr = None → ssl ≠ 0 → t_ssls w !! ssl = None → 0 ≤ fd → fd ∈ t_fds w →
  (∀ q s, t_states w !! q = Some s → t_fd s ≠ fd) → tls_ok (connected ptr ssl fd name w).
Proof.
  intros H Hp H0 Hn Hf Ho Ha.
  assert (∀ q s, t_states w !! q = Some s → t_ssl s ≠ ssl) as Hne.
  { intros q s Hs E. destruct (l_state _ H _ _ Hs) as (_&_&_&n&E'). congruence. }
  split; cbn.
  - apply (l_stale _ H).
  - intros q s Hs. apply lookup_insert_Some in Hs as [[<- <-]|[_ Hs]]; cbn.
    + split; [done|]. split; [done|]. split; [done|]. exists name. apply lookup_insert_eq.
    + destruct (l_state _ H _ _ Hs) as (?&?&?&n&E). split; [done|]. split; [done|]. split; [done|]. exists n. rewrite lookup_insert_ne; [done|]. by apply not_eq_sym, (Hne q).
  - intros q q' s s' Hs Hs' Hq. apply lookup_insert_Some in Hs as [[<- <-]|[_ Hs]]; apply lookup_insert_Some in Hs' as [[<- <-]|[_ Hs']]; cbn.
    + done.
    + split; apply not_eq_sym; [by apply (Hne q')|by apply (Ha q')].
    + split; [by apply (Hne q)|by apply (Ha q)].
    + by apply (l_apart _ H q q').
  - intros x [y Hx]. apply lookup_insert_Some in Hx as [[<- _]|[_ Hx]]; [eexists ptr, _; split; [apply lookup_insert_eq|done]|].
    destruct (l_live _ H x) as (q&s&Hs&E); [by eexists|]. exists q, s. split; [|done]. rewrite lookup_insert_ne; [done|]. intros <-. congruence.
Qed.

Lemma wrap_refines cap stress o st p w io fd v1 t :
  window st p → tls_ok w → wrap_ok w o fd → denotes st v1 t → 0 < brk st → brk st + NEW_COST < ADDR_LIMIT → (∀ q, is_Some (t_states w !! q) → q < brk st) →
  ∃ r st' p' w' io', tls_raw_wrap cap stress o st p w io [val_int fd; v1] = Ret (r, st', p', w', io') ∧ window st' p' ∧ pid p' = pid p ∧ tls_ok w' ∧
    (r = val_int (-1) ∧ w' = w ∧ last_errno io' ≠ 0 ∧ (k_ctx o = false ∨ k_ssl o = None ∨ k_setfd o = false ∨ k_state o = false) ∨
     ∃ ssl, k_ssl o = Some ssl ∧ handle st' (pid p) r (brk st) TLS_DTOR ∧ w' = connected (brk st) ssl fd (sni t (k_name o)) w ∧ io' = io).
Proof.
  intros W H [Hfd Hopen Hal Hnew] D Hb0 Hb Hold. unfold tls_raw_wrap, arg. cbn [lookup list_lookup or_undef mbind outcome_bind].
  rewrite val_int_is_int, val_get_int_id by lia. cbn [negb]. cbv zeta. unfold i32. rewrite (signed_small 32 fd) by lia. destruct (Z.ltb_spec fd 0); [lia|].
  destruct (k_ctx o); cbn [negb]; [|eexists _, _, _, _, _; split; [done|]; split; [done|]; split; [done|]; split; [done|]; left; split_and!; try done; by left].
  destruct (k_ssl o) as [ssl|] eqn:Essl; [|eexists _, _, _, _, _; split; [done|]; split; [done|]; split; [done|]; split; [done|]; left; split_and!; try done; by right; left].
  destruct (Hnew ssl eq_refl) as [Hssl0 Hn].
  assert (∀ o1 o2, ssl_free ssl (with_ssls (<[ssl := o2]> (<[ssl := o1]> (t_ssls w))) w) = w) as Hfree.
  { intros o1 o2. unfold ssl_free. cbn [t_ssls with_ssls]. rewrite bool_decide_eq_true_2 by (rewrite lookup_insert_eq; by eexists).
    rewrite delete_insert_eq, delete_insert_id by done. by destruct w. }
  destruct (k_setfd o) eqn:Eset; cbn [negb]; cycle 1.
  { eexists _, _, _, _, _. split; [done|]. split; [done|]. split; [done|]. rewrite <- (insert_insert_eq (t_ssls w) ssl (mk_SSL (-1) None) (mk_SSL (-1) None)), Hfree.
    split; [done|]. left. split_and!; try done. by right; right; left. }
  assert ((if val_is_string v1 then d ← read_string st v1; Ret (if (0 <? len d) && k_name o then Some (nul_string d) else None) else Ret None) = Ret (sni t (k_name o))) as ->.
  { assert ((∃ d, t = TString d) ∨ ∀ d, t ≠ TString d) as [[d ->]|Hns] by (destruct t; eauto).
    - destruct (string_denotes _ _ _ D) as [-> ->]. done.
    - rewrite (not_string_denotes _ _ _ D) by done. destruct t; try done. by destruct (Hns data). }
  cbn [mbind outcome_bind t_ssls with_ssls]. destruct (k_state o) eqn:Est; cycle 1.
  { eexists _, _, _, _, _. split; [done|]. split; [done|]. split; [done|].
    change (with_ssls ?m (with_ssls _ w)) with (with_ssls m w). rewrite Hfree. split; [done|]. left. split_and!; try done. by right; right; right. }
  destruct (handle_new cap stress st p SIZEOF_TLSSTATE TLS_DTOR W Hb0 Hb) as (st1&v&st2&p2&E1&E2&Hh&W2&Hp&_); [done|].
  rewrite E1. cbv beta iota. rewrite E2. cbn [mbind outcome_bind].
  eexists _, _, _, _, _. split; [done|]. split; [done|]. split; [done|].
  assert (put_tls (brk st) (mk_TlsState ssl fd) (with_ssls (<[ssl := mk_SSL fd (sni t (k_name o))]> (<[ssl := mk_SSL (-1) None]> (t_ssls w))) (with_ssls (<[ssl := mk_SSL (-1) None]> (t_ssls w)) w)) =
    connected (brk st) ssl fd (sni t (k_name o)) w) as -> by (unfold connected, put_tls, with_tstates, with_ssls; cbn; by rewrite insert_insert_eq).
  split; [|right; by exists ssl]. apply connected_ok; [done| |done|done|lia|done|done]. apply eq_None_not_Some. intros Hs%Hold. lia.
Qed.

(** * Properties *)
Lemma refused_tcall op st p w io v rest code : refused st (pid p) v code →
  tcall op st p w io (v :: rest) = Ret (AInt (if code =? 0 then match op with TClose => 1 | _ => -1 end else code), st, w,
    match op with TClose => if code =? -2 then set_errno EPERM io else io | _ => set_errno (if code =? -2 then EPERM else EBADF) io end).
Proof.
  intros H. destruct op; cbn [tcall]; unfold tls_raw_hs, tls_raw_read, tls_raw_write, tls_raw_close, with_tls, arg, tls_open_errno;
    cbn [lookup list_lookup or_undef mbind outcome_bind]; rewrite H; cbn [mbind outcome_bind]; destruct (Z.eqb_spec code 0) as [->|]; done.
Qed.

(** C36: a TLS connection is freed once and never loses a descriptor.  Wrapping a
    descriptor answers -1 and leaves nothing behind, or gives a handle to an SSL
    object bound to it, with the server name cut at its NUL.  A handshake, read
    or write that has to wait suspends the process on the descriptor of its
    connection and changes nothing else; a failed handshake frees the connection and leaves the
    descriptor open for the caller; a close frees it and closes the descriptor or gives it
    back; after either the handle is closed.  The destructor frees what is left; another process's or
    a forged handle changes nothing.  Every case keeps the invariant. *)
Theorem tls_safe cap stress st p w io : window st p → tls_ok w →
  (∀ o fd v1 t, wrap_ok w o fd → denotes st v1 t → 0 < brk st → brk st + NEW_COST < ADDR_LIMIT → (∀ q, is_Some (t_states w !! q) → q < brk st) →
     ∃ r st' p' w' io', tls_raw_wrap cap stress o st p w io [val_int fd; v1] = Ret (r, st', p', w', io') ∧ window st' p' ∧ tls_ok w' ∧
       (r = val_int (-1) ∧ w' = w ∧ last_errno io' ≠ 0 ∧ (k_ctx o = false ∨ k_ssl o = None ∨ k_setfd o = false ∨ k_state o = false) ∨
        ∃ ssl, k_ssl o = Some ssl ∧ handle st' (pid p) r (brk st) TLS_DTOR ∧ w' = connected (brk st) ssl fd (sni t (k_name o)) w ∧ io' = io)) ∧
  (∀ op v v1 t ptr s, top_ok op → ptr ≠ 0 → handle st (pid p) v ptr TLS_DTOR → t_states w !! ptr = Some s → denotes st v1 t →
     ∃ st' w', tcall op st p w io [v; v1] = Ret ((top_answer op s t io).1, st', w', (top_answer op s t io).2) ∧ window st' p ∧ tls_ok w' ∧
       match finishes op t with
       | Some keep => w' = disconnect keep ptr s w ∧ (keep = true → t_fd s ∈ t_fds w') ∧ (keep = false → t_fd s ∉ t_fds w') ∧
           ∀ op' w2 io' rest, ∃ io2, tcall op' st' p w2 io' (v :: rest) = Ret (AInt (match op' with TClose => 1 | _ => -1 end), st', w2, io2)
       | None => st' = st ∧ w' = w
       end) ∧
  (∀ ptr s, t_states w !! ptr = Some s → ∃ w', tls_dtor w ptr = Ret w' ∧ w' = disconnect false ptr s w ∧ tls_ok w') ∧
  (∀ op v rest, val_tag v ≠ TAG_RESOURCE → ∃ io', tcall op st p w io (v :: rest) = Ret (AInt (-1), st, w, io')) ∧
  (∀ op v rest owner res, val_tag v = TAG_RESOURCE → lpayload v ≠ 0 → read_resource st (lpayload v) = Ret (owner, res) → owner ≠ pid p →
     tcall op st p w io (v :: rest) = Ret (AInt (-2), st, w, set_errno EPERM io)).
Proof.
  intros W H. split; [|split; [|split; [|split]]].
  - intros o fd v1 t Ho D Hb0 Hb Hold. destruct (wrap_refines cap stress o st p w io fd v1 t W H Ho D Hb0 Hb Hold) as (r&st'&p'&w'&io'&E&W'&_&H'&Hr).
    by exists r, st', p', w', io'.
  - intros op v v1 t ptr s Hok Hp Hh Hs D. destruct (connection_op st p v w io ptr s v1 t W Hh Hp H Hs D op Hok) as (st'&io'&E&->&W'&Hr).
    eexists st', _. split; [exact E|]. split; [done|]. destruct (finishes op t) as [keep|]; [|done].
    split; [by apply disconnect_ok|]. split; [done|]. destruct (l_state _ H _ _ Hs) as (_&_&Hf&_). split; [|split]; [by intros ->|intros ->; cbn; set_solver|].
    intros op' w2 io2 rest. rewrite (refused_tcall op' st' p w2 io2 v rest 0) by apply Hr. by eexists.
  - intros ptr s Hs. eexists. split; [exact (dtor_keeps w H ptr s Hs false)|]. split; [done|]. by apply disconnect_ok.
  - intros op v rest Ht. rewrite (refused_tcall op st p w io v rest (-1)) by by apply refused_cases. by eexists.
  - intros op v rest owner res Ht Ha Hr Hne. rewrite (refused_tcall op st p w io v rest (-2)) by by eapply refused_cases. by destruct op.
Qed.

(** A connection on descriptor 5 whose handshake fails. *)
Definition w_conn : TlsState := mk_TlsState 70 5.
Definition w_tls : tls := mk_tls {[ 3072 := w_conn ]} {[ 70 := mk_SSL 5 (Some "host"%string) ]} {[ 5 ]} [] [].
Definition w_tlsstore : store := mk_store {[ 1024 := Live (HeapResource 1 2048) ]} {[ 2048 := (3072, TLS_DTOR) ]} [] 8192.
Lemma w_tls_ok : tls_ok w_tls.
Proof.
  assert (∀ q s, t_states w_tls !! q = Some s → q = 3072 ∧ s = w_conn) as Hs by (intros q s Hx; cbn [t_states w_tls] in Hx; by apply lookup_singleton_Some in Hx as [<- <-]).
  split.
  - reflexivity.
  - intros q s [-> ->]%Hs. split; [done|]. split; [done|]. split; [cbn; set_solver|]. by eexists.
  - intros q q' s s' [-> _]%Hs [-> _]%Hs. done.
  - intros ssl [x Hx]. cbn [t_ssls w_tls] in Hx. apply lookup_singleton_Some in Hx as [<- _]. by exists 3072, w_conn.
Qed.
Lemma w_tls_window : window w_tlsstore w_winproc.
Proof. destruct (w_heap_window {[ 1024 := Live (HeapResource 1 2048) ]}) as [W1 W2 W3]; [|by split]. intros x Hx. apply lookup_singleton_ne. lia. Qed.
Lemma tls_safe_witness : ∃ st' w', tcall (THandshake (Some SslProtocol)) w_tlsstore w_winproc w_tls (mk_pio (-1) 0 (-1) 0 false) [lbox TAG_RESOURCE 1024; val_nil] =
    Ret (AInt (-1), st', w', mk_pio (-1) 0 (-1) EPROTO false) ∧ tls_ok w' ∧ 5 ∈ t_fds w'.
Proof.
  destruct (tls_safe 4096 0 w_tlsstore w_winproc w_tls (mk_pio (-1) 0 (-1) 0 false) w_tls_window w_tls_ok) as (_&Hops&_).
  destruct (Hops (THandshake (Some SslProtocol)) (lbox TAG_RESOURCE 1024) val_nil (Imm val_nil) 3072 w_conn) as (st'&w'&E&_&H'&_&Hk&_).
  - done.
  - done.
  - split; [by rewrite lbox_tag|]. rewrite lbox_payload. split; [done|]. exists 2048. by vm_compute.
  - done.
  - split; [done|]. split; [vm_compute; split; congruence|done].
  - exists st', w'. split; [exact E|]. split; [exact H'|]. by apply Hk.
Defined.
