(* ===== verification/File.v ===== *)
(** The [file] module: src/lib/file.c.  A file system is a type of states with
    [mkdir] and [stat]; the answers of the other calls are arguments. *)
From stdpp Require Import base tactics list gmap strings.
From Stdlib Require Import ZArith Lia Ascii.
From S2P Require Import Prelude Values Heap Resource Gc GcCorrect GcSpec Tree Alloc Copy Cmodule.
Open Scope Z_scope.

Definition EEXIST : Z := 17.
(** * Directories *)
(** [mkdir]: [None] or an errno.  [is_dir]: [None] when [stat] fails. *)
Class FileSystem (F : Type) := {
  mkdir : list Z → F → option Z * F;
  is_dir : list Z → F → option bool
}.
Section Directories.
Context {F : Type} `{FileSystem F}.

Definition make_dir (path : list Z) (f : F) : bool * F :=
  let '(e, f) := mkdir path f in
  match e with
  | None => (true, f)
  | Some e => if negb (e =? EEXIST) then (false, f) else (default false (is_dir path f), f)
  end.
(** The loop over the separators; [pre] is the path cut at the cursor. *)
Fixpoint make_parents (pre rest : list Z) (f : F) : bool * F :=
  match rest with
  | [] => (true, f)
  | c :: rest =>
      if c =? ch "/" then
        let '(ok, f) := make_dir pre f in
        if (ok : bool) then make_parents (pre ++ [c]) rest f else (false, f)
      else make_parents (pre ++ [c]) rest f
  end.
(** Trailing separators go, but not the first character; the list is reversed. *)
Fixpoint strip_slashes (r : list Z) : list Z :=
  match r with
  | c :: ((_ :: _) as r') => if c =? ch "/" then strip_slashes r' else r
  | _ => r
  end.
Definition last_dir (path : list Z) : list Z := rev (strip_slashes (rev path)).
(** [dup]: whether [strdup] succeeds.  The loop starts behind the first byte of
    the copy, which an empty copy does not have. *)
Definition file_mkdir_p (dup : bool) (st : store) (args : list Val) (f : F) : outcome (Val * F) :=
  v ← arg args 0;
  if negb (val_is_string v) then Ret (val_int (-1), f)
  else
    hs ← read_string st v;
    if Z.of_nat (length hs) =? 0 then Ret (val_int 0, f)
    else if negb dup then Ret (val_int 0, f)
    else
      match until_nul hs with
      | [] => Undef
      | c :: rest =>
          let '(ok, f) := make_parents [c] rest f in
          let '(ok, f) := if (ok : bool) then make_dir (last_dir (c :: rest)) f else (false, f) in
          Ret (val_int (if ok then 1 else 0), f)
      end.
End Directories.

(** * Files *)
Section Module.
Context (cap stress : Z).
Abbreviation result := (outcome (Val * store * ProcMem)).

(** What reading a file meets: it opens, the seek succeeds, its size, the buffer
    is allocated, what [fread] gives. *)
Record read_os := mk_read_os { f_open : bool; f_seek : bool; f_size : Z; f_alloc : bool; f_data : list Z }.
Definition file_read (o : read_os) (st : store) (p : ProcMem) (args : list Val) : result :=
  v ← arg args 0;
  if negb (val_is_string v) then Ret (val_nil, st, p)
  else if negb (f_open o) then Ret (val_nil, st, p)
  else if negb (f_seek o) then Ret (val_nil, st, p)
  else if f_size o <? 0 then Ret (val_nil, st, p)
  else if negb (f_alloc o) then Ret (val_nil, st, p)
  else if f_size o <? Z.of_nat (length (f_data o)) then Undef
  else
    let got := i32 (Z.of_nat (length (f_data o))) in
    if got <? 0 then Undef else new_string cap stress st p (take (Z.to_nat got) (f_data o)).
(** [put d]: [None] when the file does not open; else how many bytes were
    written and whether the close succeeded. *)
Definition file_write (put : list Z → list Z → option (Z * bool)) (st : store) (args : list Val) : outcome Val :=
  v0 ← arg args 0;
  v1 ← arg args 1;
  if negb (val_is_string v0) || negb (val_is_string v1) then Ret (val_int (-1))
  else
    path ← read_string st v0;
    data ← read_string st v1;
    match put (until_nul path) data with
    | None => Ret (val_int (-1))
    | Some (n, closed) => Ret (val_int (if closed && (i32 n =? Z.of_nat (length data)) then 1 else 0))
    end.
Definition file_exists (access : list Z → bool) (st : store) (args : list Val) : outcome Val :=
  v ← arg args 0;
  if negb (val_is_string v) then Ret (val_int 0)
  else hs ← read_string st v; Ret (val_int (if access (until_nul hs) then 1 else 0)).
Definition DOT : list Z := chars ".".
Definition DOTDOT : list Z := chars "..".
Fixpoint list_entries (ents : list (list Z)) (st : store) (p : ProcMem) (l : Val) : result :=
  match ents with
  | [] => Ret (l, st, p)
  | e :: ents =>
      if bool_decide (e = DOT) || bool_decide (e = DOTDOT) then list_entries ents st p l
      else
        '(s, st, p) ← new_string cap stress st p e;
        '(l, st, p) ← val_pair cap stress st p s l;
        list_entries ents st p l
  end.
(** [dir]: the names [readdir] gives, unless the directory does not open. *)
Definition file_list_dir (dir : list Z → option (list (list Z))) (st : store) (p : ProcMem) (args : list Val) : result :=
  v ← arg args 0;
  if negb (val_is_string v) then Ret (val_int (-1), st, p)
  else
    hs ← read_string st v;
    match dir (until_nul hs) with
    | None => Ret (val_int (-1), st, p)
    | Some ents => list_entries ents st p val_nil
    end.
Definition file_remove (remove : list Z → bool) (st : store) (args : list Val) : outcome Val :=
  v ← arg args 0;
  if negb (val_is_string v) then Ret (val_int (-1))
  else hs ← read_string st v; Ret (val_int (if remove (until_nul hs) then 1 else -1)).
Definition file_rename (rename : list Z → list Z → bool) (st : store) (args : list Val) : outcome Val :=
  v0 ← arg args 0;
  v1 ← arg args 1;
  if negb (val_is_string v0) || negb (val_is_string v1) then Ret (val_int (-1))
  else
    old ← read_string st v0;
    new ← read_string st v1;
    Ret (val_int (if rename (until_nul old) (until_nul new) then 1 else -1)).
Definition file_cwd (cwd : option (list Z)) (st : store) (p : ProcMem) : result :=
  match cwd with
  | None => Ret (val_int (-1), st, p)
  | Some d => new_string cap stress st p d
  end.
(** The pair inside is built first. *)
Definition file_stat (stat : list Z → option (Z * Z)) (st : store) (p : ProcMem) (args : list Val) : result :=
  v ← arg args 0;
  if negb (val_is_string v) then Ret (val_int (-1), st, p)
  else
    hs ← read_string st v;
    match stat (until_nul hs) with
    | None => Ret (val_int (-1), st, p)
    | Some (size, mtime) =>
        '(l, st, p) ← val_pair cap stress st p (val_int mtime) val_nil;
        val_pair cap stress st p (val_int size) l
    end.
End Module.

(** * What the other functions answer *)
Section Answers.
Context (cap stress : Z).
(** The entries without the two dots, the last one first. *)
Definition entries_tree (ents : list (list Z)) (t : tree) : tree :=
  foldl (λ t e, TPair (TString e) t) t (filter (λ e, e ≠ DOT ∧ e ≠ DOTDOT) ents).
Definition entries_cost (ents : list (list Z)) : Z := sumZ ((λ e, 2 * CHUNK_COST + Z.of_nat (length e)) <$> ents).
Lemma list_entries_yields : ∀ ents st p l t, window st p → denotes st l t → Forall (λ e, Z.of_nat (length e) < STRING_MAX) ents →
  brk st + entries_cost ents < ADDR_LIMIT → ∃ v st' p', list_entries cap stress ents st p l = Ret (v, st', p') ∧
    denotes st' v (entries_tree ents t) ∧ window st' p' ∧ cells st ⊆ cells st' ∧ brk st ≤ brk st' ≤ brk st + entries_cost ents.
Proof.
  assert (0 < CHUNK_COST) as HC by done.
  assert (∀ ents, 0 ≤ entries_cost ents) as Hpos by (intros es; apply sumZ_nonneg, Forall_fmap, Forall_true; intros; cbn; lia).
  induction ents as [|e ents IH]; intros st p l t W D Hl Hb; cbn [list_entries].
  { exists l, st, p. unfold entries_cost, sumZ in *; cbn in *. split; [done|]. split; [done|]. split; [done|]. split; [done|]. lia. }
  apply Forall_cons in Hl as [Hle Hl]. pose proof (Hpos ents). unfold entries_cost, entries_tree in *. cbn [fmap list_fmap] in *. unfold sumZ in Hb; cbn [foldr] in Hb.
  fold (sumZ ((λ e, 2 * CHUNK_COST + Z.of_nat (length e)) <$> ents)) in Hb. unfold sumZ; cbn [foldr]. fold (sumZ ((λ e, 2 * CHUNK_COST + Z.of_nat (length e)) <$> ents)).
  rewrite filter_cons. destruct (decide (e ≠ DOT ∧ e ≠ DOTDOT)) as [[N1 N2]|Hn].
  - rewrite !bool_decide_eq_false_2 by done. cbn [orb].
    destruct (new_string_yields cap stress st p e W Hle) as (s&st1&p1&->&D1&W1&S1&B1); [simpl; lia|]. simpl in B1. cbn [mbind outcome_bind].
    destruct (pair_yields cap stress st1 p1 s l (TString e) t W1 D1) as (l'&st2&p2&->&D2&W2&S2&B2); [by eapply denotes_mono|lia|]. cbn [mbind outcome_bind].
    destruct (IH st2 p2 l' (TPair (TString e) t) W2 D2 Hl) as (v&st'&p'&->&D'&W'&S'&B'); [lia|].
    exists v, st', p'. split; [done|]. split; [exact D'|]. split; [done|]. split; [by do 2 (etrans; [done|])|lia].
  - assert (bool_decide (e = DOT) || bool_decide (e = DOTDOT) = true) as ->.
    { destruct (decide (e = DOT)); [by rewrite bool_decide_eq_true_2|]. destruct (decide (e = DOTDOT)); [by rewrite (bool_decide_eq_true_2 (e = DOTDOT)), orb_true_r|]. by destruct Hn. }
    destruct (IH st p l t W D Hl) as (v&st'&p'&->&D'&W'&S'&B'); [lia|]. exists v, st', p'. split; [done|]. split; [done|]. split; [done|]. split; [done|lia].
Qed.

Section arg.
Context (st : store) (p : ProcMem) (W : window st p) (v : Val) (hs : list Z) (D : denotes st v (TString hs)).
Lemma file_read_yields o : f_open o = true → f_seek o = true → 0 ≤ f_size o → f_alloc o = true → Z.of_nat (length (f_data o)) ≤ f_size o →
  Z.of_nat (length (f_data o)) < STRING_MAX → yields (file_read cap stress o st p [v]) st (TString (f_data o)).
Proof using W D.
  intros H1 H2 H3 H4 H5 H6. unfold file_read, arg. cbn [lookup list_lookup or_undef mbind outcome_bind]. destruct (string_denotes _ _ _ D) as [-> _].
  rewrite H1, H2, H4. cbn [negb]. destruct (Z.ltb_spec (f_size o) 0); [lia|]. destruct (Z.ltb_spec (f_size o) (Z.of_nat (length (f_data o)))); [lia|].
  unfold STRING_MAX in H6. cbv zeta. unfold i32. rewrite signed_small by (simpl; lia). destruct (Z.ltb_spec (Z.of_nat (length (f_data o))) 0); [lia|].
  rewrite Nat2Z.id, firstn_all. apply new_string_yields; [done|unfold STRING_MAX; lia].
Qed.
(** The length of a file of 2 to 4 GiB is negative at [int]. *)
Lemma file_read_large o : f_open o = true → f_seek o = true → f_alloc o = true → f_size o = Z.of_nat (length (f_data o)) → 2 ^ 31 ≤ f_size o < 2 ^ 32 →
  file_read cap stress o st p [v] = Undef.
Proof using D.
  intros H1 H2 H4 H5 H6. unfold file_read, arg. cbn [lookup list_lookup or_undef mbind outcome_bind]. destruct (string_denotes _ _ _ D) as [-> _].
  rewrite H1, H2, H4. cbn [negb]. destruct (Z.ltb_spec (f_size o) 0); [lia|]. destruct (Z.ltb_spec (f_size o) (Z.of_nat (length (f_data o)))); [lia|].
  cbv zeta. rewrite <- H5. unfold i32, signed. change (2 ^ (32 - 1)) with (2 ^ 31). rewrite (Z.mod_small (f_size o)) by lia.
  destruct (Z.ltb_spec (f_size o) (2 ^ 31)); [lia|]. destruct (Z.ltb_spec (f_size o - 2 ^ 32) 0); [done|lia].
Qed.
Lemma file_stat_yields stat size mtime : stat (until_nul hs) = Some (size, mtime) →
  yields (file_stat cap stress stat st p [v]) st (TPair (Imm (val_int size)) (TPair (Imm (val_int mtime)) (Imm val_nil))).
Proof using W D.
  intros E Hb. unfold file_stat, arg. cbn [lookup list_lookup or_undef mbind outcome_bind]. destruct (string_denotes _ _ _ D) as [-> ->]. cbn [negb mbind outcome_bind]. rewrite E.
  assert (∀ st' i, denotes st' (val_int i) (Imm (val_int i))) as Hi by (intros st' i; split; [done|]; split; [rewrite val_int_lbox; apply lbox_range|by rewrite val_int_tag]).
  assert (0 < CHUNK_COST) as HC by done. simpl in Hb.
  destruct (pair_yields cap stress st p (val_int mtime) val_nil (Imm (val_int mtime)) (Imm val_nil) W (Hi _ _)) as (l&st1&p1&->&D1&W1&S1&B1); [|lia|].
  { split; [done|]. split; [vm_compute; split; congruence|done]. }
  cbn [mbind outcome_bind]. destruct (pair_yields cap stress st1 p1 (val_int size) l (Imm (val_int size)) _ W1 (Hi _ _) D1) as (v'&st2&p2&E2&D2&W2&S2&B2); [lia|].
  exists v', st2, p2. split; [exact E2|]. split; [done|]. split; [done|]. split; [by etrans|]. simpl. lia.
Qed.
End arg.
End Answers.

(** * What [mkdir_p] does *)
(** A made directory is one, no call unmakes one, and one that is there is
    reported as such. *)
Class FileSystemLaws (F : Type) `{FileSystem F} : Prop := {
  mkdir_made : ∀ p (f f' : F), mkdir p f = (None, f') → is_dir p f' = Some true;
  mkdir_keeps : ∀ p q (f f' : F) e, mkdir p f = (e, f') → is_dir q f = Some true → is_dir q f' = Some true;
  mkdir_there : ∀ p (f : F), is_dir p f = Some true → mkdir p f = (Some EEXIST, f)
}.
(** The path cut at every separator behind the first byte, then the path. *)
Fixpoint parents (pre rest : list Z) : list (list Z) :=
  match rest with
  | [] => []
  | c :: rest => if c =? ch "/" then pre :: parents (pre ++ [c]) rest else parents (pre ++ [c]) rest
  end.
Definition targets (path : list Z) : list (list Z) := parents (take 1 path) (drop 1 path) ++ [last_dir path].

Lemma parents_spec : ∀ rest pre q, q ∈ parents pre rest ↔ ∃ i : nat, rest !! i = Some (ch "/") ∧ q = pre ++ take i rest.
Proof.
  induction rest as [|c rest IH]; intros pre q; cbn [parents]; [split; [by intros ?%not_elem_of_nil|by intros (i&?&_)]|].
  assert ((∃ i : nat, (c :: rest) !! i = Some (ch "/") ∧ q = pre ++ take i (c :: rest)) ↔ (c = ch "/" ∧ q = pre) ∨ ∃ i : nat, rest !! i = Some (ch "/") ∧ q = (pre ++ [c]) ++ take i rest) as ->.
  { split.
    - intros ([|i]&Hi&->); [left; injection Hi as ->; by rewrite app_nil_r|right; exists i; by rewrite <- app_assoc].
    - intros [[-> ->]|(i&Hi&->)]; [exists 0%nat; by rewrite app_nil_r|exists (S i); by rewrite <- app_assoc]. }
  rewrite <- IH. destruct (Z.eqb_spec c (ch "/")) as [Hc|Hc]; [rewrite elem_of_cons|]; naive_solver.
Qed.

Section mkdir.
Context {F : Type} `{HL : FileSystemLaws F}.
Fixpoint make_all (ps : list (list Z)) (f : F) : bool * F :=
  match ps with
  | [] => (true, f)
  | p :: ps => let '(ok, f) := make_dir p f in if (ok : bool) then make_all ps f else (false, f)
  end.
Lemma make_parents_all : ∀ rest pre (f : F), make_parents pre rest f = make_all (parents pre rest) f.
Proof. clear HL. induction rest as [|c rest IH]; intros pre f; [done|]. cbn [make_parents parents]. destruct (_ =? _); [|apply IH]. cbn [make_all]. destruct (make_dir pre f) as [[] f']; [apply IH|done]. Qed.
Lemma make_all_app ps qs (f : F) : make_all (ps ++ qs) f = let '(ok, f) := make_all ps f in if (ok : bool) then make_all qs f else (false, f).
Proof. clear HL. revert f. induction ps as [|p ps IH]; intros f; [done|]. cbn [app make_all]. destruct (make_dir p f) as [[] f']; [apply IH|done]. Qed.
Lemma make_dir_dir p (f f' : F) : make_dir p f = (true, f') → is_dir p f' = Some true.
Proof using HL.
  unfold make_dir. destruct (mkdir p f) as [[e|] f1] eqn:E; [|intros [= <-]; by eapply mkdir_made]. destruct (negb _); [done|].
  destruct (is_dir p f1) as [[]|] eqn:Ed; cbn; try done. by intros [= <-].
Qed.
Lemma make_dir_keeps p q (f : F) : is_dir q f = Some true → is_dir q (make_dir p f).2 = Some true.
Proof using HL.
  intros Hq. unfold make_dir. destruct (mkdir p f) as [[e|] f1] eqn:E; cbn; [destruct (negb _); cbn|]; by eapply mkdir_keeps.
Qed.
Lemma make_all_keeps q : ∀ ps (f : F), is_dir q f = Some true → is_dir q (make_all ps f).2 = Some true.
Proof using HL.
  induction ps as [|p ps IH]; intros f Hq; [done|]. cbn [make_all]. pose proof (make_dir_keeps p q f Hq) as Hk. destruct (make_dir p f) as [[] f1]; [by apply IH|done].
Qed.
Lemma make_all_dirs : ∀ ps (f f' : F), make_all ps f = (true, f') → ∀ q, q ∈ ps → is_dir q f' = Some true.
Proof using HL.
  induction ps as [|p ps IH]; intros f f' E q Hq; [by apply not_elem_of_nil in Hq|]. cbn [make_all] in E. destruct (make_dir p f) as [[] f1] eqn:Ep; [|done].
  apply elem_of_cons in Hq as [->|Hq]; [|by eapply IH]. pose proof (make_all_keeps p ps f1 (make_dir_dir p f f1 Ep)) as Hk. by rewrite E in Hk.
Qed.
(** The first failure ends it. *)
Lemma make_all_fails : ∀ ps (f f' : F), make_all ps f = (false, f') → ∃ done q rest f1, ps = done ++ q :: rest ∧ make_all done f = (true, f1) ∧ make_dir q f1 = (false, f').
Proof.
  clear HL. induction ps as [|p ps IH]; intros f f' E; [done|]. cbn [make_all] in E. destruct (make_dir p f) as [[] f1] eqn:Ep.
  - destruct (IH _ _ E) as (dn&q&rest&f2&->&E1&E2). exists (p :: dn), q, rest, f2. split; [done|]. split; [|done]. cbn [make_all]. by rewrite Ep.
  - injection E as <-. by exists [], p, ps, f.
Qed.
Lemma make_all_again : ∀ ps (f : F), (∀ q, q ∈ ps → is_dir q f = Some true) → make_all ps f = (true, f).
Proof using HL.
  induction ps as [|p ps IH]; intros f Hd; [done|]. cbn [make_all]. unfold make_dir. pose proof (Hd p ltac:(by left)) as Hp.
  rewrite (mkdir_there p f Hp). cbn [negb]. rewrite Z.eqb_refl. cbn [negb]. rewrite Hp. cbn. apply IH. intros q Hq. apply Hd. by right.
Qed.

Lemma mkdir_p_run st v hs c rest (f : F) : denotes st v (TString hs) → until_nul hs = c :: rest →
  file_mkdir_p true st [v] f = Ret (val_int (if (make_all (targets (c :: rest)) f).1 then 1 else 0), (make_all (targets (c :: rest)) f).2).
Proof using.
  clear HL. intros D Hc. unfold file_mkdir_p, arg. cbn [lookup list_lookup or_undef mbind outcome_bind]. destruct (string_denotes _ _ _ D) as [-> ->]. cbn [negb mbind outcome_bind].
  destruct (Z.eqb_spec (Z.of_nat (length hs)) 0) as [E|]; [by destruct hs|]. rewrite Hc.
  change (targets (c :: rest)) with (parents [c] rest ++ [last_dir (c :: rest)]). rewrite make_all_app, make_parents_all.
  destruct (make_all (parents [c] rest) f) as [[] f1]; [|done]. cbn [make_all]. by destruct (make_dir (last_dir (c :: rest)) f1) as [[] f2].
Qed.
End mkdir.

(** [mkdir_p] makes every prefix of the path that ends at a separator, outermost
    first, and then the path without its trailing separators.  It answers 1 when
    all of them are directories afterwards, 0 at the first that cannot be made,
    and touches nothing behind that one; once it has answered 1 it answers 1
    again and changes nothing. *)
Theorem mkdir_p_spec {F : Type} `{HL : FileSystemLaws F} st v hs c rest (f : F) : denotes st v (TString hs) → until_nul hs = c :: rest →
  (∀ q, q ∈ targets (c :: rest) ↔ (∃ i : nat, (c :: rest) !! S i = Some (ch "/") ∧ q = take (S i) (c :: rest)) ∨ q = last_dir (c :: rest)) ∧
  ∃ ok f', file_mkdir_p true st [v] f = Ret (val_int (if (ok : bool) then 1 else 0), f') ∧
    if ok then (∀ q, q ∈ targets (c :: rest) → is_dir q f' = Some true) ∧ file_mkdir_p true st [v] f' = Ret (val_int 1, f')
    else ∃ made q left f1, targets (c :: rest) = made ++ q :: left ∧ make_all made f = (true, f1) ∧ make_dir q f1 = (false, f').
Proof.
  intros D Hc. split.
  - intros q. change (targets (c :: rest)) with (parents [c] rest ++ [last_dir (c :: rest)]). rewrite elem_of_app, list_elem_of_singleton, parents_spec. done.
  - rewrite (mkdir_p_run st v hs c rest f D Hc). destruct (make_all (targets (c :: rest)) f) as [[] f'] eqn:E; cbn [fst snd].
    + exists true, f'. split; [done|]. pose proof (make_all_dirs _ _ _ E) as Hd. split; [exact Hd|]. rewrite (mkdir_p_run st v hs c rest f' D Hc). by rewrite (make_all_again _ f' Hd).
    + exists false, f'. split; [done|]. by apply make_all_fails.
Qed.
(** A path that starts with NUL has an empty copy, and the loop reads behind it. *)
Lemma mkdir_p_nul {F : Type} `{FileSystem F} st v hs (f : F) : denotes st v (TString (0 :: hs)) → file_mkdir_p true st [v] f = Undef.
Proof.
  intros D. unfold file_mkdir_p, arg. cbn [lookup list_lookup or_undef mbind outcome_bind]. destruct (string_denotes _ _ _ D) as [-> ->]. done.
Qed.
