(* ===== verification/Time.v ===== *)
(** The [time] module: src/lib/time.c.  A sleep arms the deadline of its process
    and yields; [do_ccall] runs it again after every wake, and it yields again
    until the clock has reached the deadline. *)
From stdpp Require Import base tactics list gmap strings.
From Stdlib Require Import ZArith Lia.
From S2P Require Import Prelude Values Heap Cmodule Net.
Open Scope Z_scope.

(** A [timespec] of either clock. *)
Definition time_now_ms (sec nsec : Z) : outcome Val := t ← chk64 (sec * 1000); t ← chk64 (t + nsec `quot` 1000000); Ret (val_int t).
(** [now]: [mono_now_ms()]. *)
Definition time_sleep (now : Z) (args : list Val) (p : pio) : outcome (net_answer * pio) :=
  v ← arg args 0;
  if negb (val_is_int v) then Ret (AInt (-1), p)
  else
    let ms := val_get_int v in
    if ms <=? 0 then Ret (AInt 0, p)
    else
      let deadline := wait_deadline_ms p in
      if deadline <? 0 then
        d ← chk64 (now + ms);
        Ret (ANil, vm_yield (vm_watch_fd (-1) 0 (arm_deadline d p)))
      else if deadline <=? now then Ret (AInt 0, arm_deadline (-1) p)
      else Ret (ANil, vm_yield p).

(** The call and its repetitions, at the readings of the clock, up to the first
    that does not yield; [do_ccall] clears the request to yield. *)
Definition resumed (p : pio) : pio := mk_pio (wait_fd p) (wait_events p) (wait_deadline_ms p) (last_errno p) false.
Fixpoint sleep_again (clock : list Z) (args : list Val) (p : pio) : outcome (net_answer * pio) :=
  match clock with
  | [] => Ret (ANil, p)
  | now :: clock =>
      '(a, p) ← time_sleep now args p;
      if yield_requested p then sleep_again clock args (resumed p) else Ret (a, p)
  end.

Lemma sleep_armed d ms clock p : 0 < ms < 2 ^ 47 → 0 ≤ d → wait_deadline_ms p = d → yield_requested p = false →
  sleep_again clock [val_int ms] p =
    if existsb (λ t, d <=? t) clock then Ret (AInt 0, arm_deadline (-1) p) else Ret (ANil, p).
Proof.
  intros Hms Hd. revert p. induction clock as [|now clock IH]; intros p Hp Hy; [done|]. cbn [sleep_again existsb]. unfold time_sleep, arg.
  cbn [lookup list_lookup or_undef mbind outcome_bind]. rewrite val_int_is_int, val_get_int_id by lia. cbn [negb]. cbv zeta.
  destruct (Z.leb_spec ms 0); [lia|]. rewrite Hp. destruct (Z.ltb_spec d 0); [lia|]. destruct (Z.leb_spec d now); cbn [orb mbind outcome_bind].
  - cbn [yield_requested arm_deadline]. by rewrite Hy.
  - cbn [yield_requested vm_yield]. change (resumed (vm_yield p)) with (resumed p).
    assert (resumed p = p) as -> by (destruct p; cbn in *; by subst). by apply IH.
Qed.

(** A sleep answers 0 at the first wake that is at least its time after the call,
    whatever woke the process before, and leaves no deadline armed; until then
    the process waits for nothing but the deadline. *)
Theorem sleep_full ms t0 clock p : 0 < ms < 2 ^ 47 → 0 ≤ t0 < 2 ^ 62 → wait_deadline_ms p < 0 →
  sleep_again (t0 :: clock) [val_int ms] p =
    if existsb (λ t, t0 + ms <=? t) clock then Ret (AInt 0, mk_pio (-1) 0 (-1) (last_errno p) false)
    else Ret (ANil, mk_pio (-1) 0 (t0 + ms) (last_errno p) false).
Proof.
  intros Hms Ht Hp. cbn [sleep_again]. unfold time_sleep, arg. cbn [lookup list_lookup or_undef mbind outcome_bind].
  rewrite val_int_is_int, val_get_int_id by lia. cbn [negb]. cbv zeta. destruct (Z.leb_spec ms 0); [lia|]. destruct (Z.ltb_spec (wait_deadline_ms p) 0); [|lia].
  assert (chk64 (t0 + ms) = Ret (t0 + ms)) as ->.
  { unfold chk64, in_i64. destruct (Z.leb_spec (- 2 ^ 63) (t0 + ms)); [|lia]. destruct (Z.ltb_spec (t0 + ms) (2 ^ 63)); [done|lia]. }
  cbn [mbind outcome_bind yield_requested vm_yield vm_watch_fd arm_deadline].
  rewrite (sleep_armed (t0 + ms)) by (done || lia). done.
Qed.
