(* ===== verification/Random.v ===== *)
(** The [random] module: src/lib/random.c.

    The generator is a linear map over GF(2) followed by a multiplication by
    an odd constant.  Its period is established by computing in the field
    GF(2)[t]/P, where P is the minimal polynomial of the step: [ev] lets a
    polynomial act on a state, [t] acts as one step, and a product acts as the
    composition. *)
From stdpp Require Import base tactics list gmap.
From Stdlib Require Import ZArith Lia Znumtheory Zpow_facts.
From S2P Require Import Prelude Values Heap Cmodule.
Open Scope Z_scope.

(** * The code *)
Record rng := mk_rng { rng_state : Z; rng_seeded : bool }.

(** The state is passed by reference: the new state comes second. *)
Definition splitmix64 (x : Z) : Z * Z :=
  let x := u64 (x + 0x9E3779B97F4A7C15) in
  let z := u64 (Z.lxor x (Z.shiftr x 30) * 0xBF58476D1CE4E5B9) in
  let z := u64 (Z.lxor z (Z.shiftr z 27) * 0x94D049BB133111EB) in
  (Z.lxor z (Z.shiftr z 31), x).
Definition xorshift (x : Z) : Z :=
  let x := Z.lxor x (Z.shiftr x 12) in
  let x := Z.lxor x (u64 (Z.shiftl x 25)) in
  Z.lxor x (Z.shiftr x 27).
Definition scramble (x : Z) : Z := u64 (x * 0x2545F4914F6CDD1D).
Definition rng_next (g : rng) : Z * rng :=
  let x := xorshift (rng_state g) in
  (scramble x, mk_rng x (rng_seeded g)).
(** [time] and [pid] are the answers of [time(NULL)] and [getpid()]. *)
Definition rng_seed_if_needed (time pid : Z) (g : rng) : rng :=
  if rng_seeded g then g
  else mk_rng (splitmix64 (Z.lxor (u64 time) (u64 (Z.shiftl (u64 pid) 32)))).1 true.

Definition rand_srand (g : rng) (args : list Val) : outcome (Val * rng) :=
  v ← arg args 0;
  if negb (val_is_int v) then Ret (val_int (-1), g)
  else Ret (val_nil, mk_rng (splitmix64 (u64 (val_get_int v))).1 true).
(** Draw until the value is not below [threshold]. *)
Fixpoint draw (fuel : nat) (threshold : Z) (g : rng) : outcome (Z * rng) :=
  match fuel with
  | O => NoFuel
  | S fuel => let '(r, g) := rng_next g in if r <? threshold then draw fuel threshold g else Ret (r, g)
  end.
Definition threshold_of (un : Z) : Z := u64 (- un) mod un.
Definition rand_rand_int (fuel : nat) (time pid : Z) (g : rng) (args : list Val) : outcome (Val * rng) :=
  v ← arg args 0;
  if negb (val_is_int v) then Ret (val_int (-1), g)
  else
    let n := val_get_int v in
    if n <=? 0 then Ret (val_int (-1), g)
    else
      let un := u64 n in
      let g := rng_seed_if_needed time pid g in
      '(r, g) ← draw fuel (threshold_of un) g;
      Ret (val_int (i64 (r mod un)), g).
Definition rand_rand_float (time pid : Z) (g : rng) : Val * rng :=
  let g := rng_seed_if_needed time pid g in
  let '(r, g) := rng_next g in
  (val_float (dmul (double_of_int (Z.shiftr r 11)) (ddiv (double_of_int 1) (double_of_int 9007199254740992))), g).

(** * Words *)
Definition word64 (x : Z) : Prop := 0 ≤ x < 2 ^ 64.
Lemma u64_word x : word64 (u64 x).
Proof. apply Z.mod_pos_bound. done. Qed.
Lemma lxor_word a b : word64 a → word64 b → word64 (Z.lxor a b).
Proof.
  unfold word64. intros Ha Hb. split; [apply Z.lxor_nonneg; lia|]. destruct (decide (Z.lxor a b = 0)) as [->|Hne]; [done|].
  assert (0 ≤ Z.lxor a b) by (apply Z.lxor_nonneg; lia). apply Z.log2_lt_pow2; [lia|]. pose proof (Z.log2_lxor a b ltac:(lia) ltac:(lia)) as Hl.
  assert (∀ x, 0 ≤ x < 2 ^ 64 → Z.log2 x < 64) as H64.
  { intros x Hx. destruct (decide (x = 0)) as [->|]; [done|]. apply Z.log2_lt_pow2; lia. }
  pose proof (H64 a Ha). pose proof (H64 b Hb). lia.
Qed.
Lemma shiftr_word x k : word64 x → 0 ≤ k → word64 (Z.shiftr x k).
Proof.
  unfold word64. intros Hx Hk. rewrite Z.shiftr_div_pow2 by done. assert (0 < 2 ^ k) by (apply Z.pow_pos_nonneg; lia).
  split; [apply Z.div_pos; lia|]. apply Z.div_lt_upper_bound; nia.
Qed.
Lemma xorshift_word x : word64 x → word64 (xorshift x).
Proof.
  intros Hx. unfold xorshift. cbv zeta. assert (word64 (Z.lxor x (Z.shiftr x 12))) by (apply lxor_word; [done|by apply shiftr_word]).
  set (y := Z.lxor x _) in *. assert (word64 (Z.lxor y (u64 (Z.shiftl y 25)))) by (apply lxor_word; [done|apply u64_word]).
  apply lxor_word; [done|by apply shiftr_word].
Qed.
(** Multiplying by an odd constant loses nothing. *)
Lemma odd_mul_inj m a b : Z.odd m = true → word64 a → word64 b → u64 (a * m) = u64 (b * m) → a = b.
Proof.
  intros Hm Ha Hb E. assert (Hr : rel_prime (2 ^ 64) m).
  { apply rel_prime_sym, rel_prime_Zpower_r; [lia|]. apply rel_prime_sym, prime_rel_prime; [apply prime_2|].
    intros [k Hk]. rewrite Hk, Z.odd_mul in Hm. by rewrite andb_false_r in Hm. }
  assert (Hd : (2 ^ 64 | m * (a - b))).
  { apply Z.mod_divide; [done|]. replace (m * (a - b)) with (a * m - b * m) by lia. unfold u64 in E. by rewrite Zminus_mod, E, Z.sub_diag. }
  apply Gauss in Hd; [|done]. destruct Hd as [k Hk]. unfold word64 in *. assert (k = 0) by nia. lia.
Qed.
Lemma lxor_shiftr_zero z k : 0 ≤ z → 0 < k → Z.lxor z (Z.shiftr z k) = 0 → z = 0.
Proof.
  intros Hz Hk E%Z.lxor_eq. rewrite Z.shiftr_div_pow2 in E by lia. destruct (decide (z = 0)) as [|Hne]; [done|].
  assert (2 ≤ 2 ^ k) by (apply (Z.pow_le_mono_r 2 1); lia). pose proof (Z.div_lt z (2 ^ k) ltac:(lia) ltac:(lia)). lia.
Qed.
(** The seed is zero only for one 64-bit pattern. *)
Lemma splitmix64_zero x : word64 x → (splitmix64 x).1 = 0 ↔ x = 0x61C8864680B583EB.
Proof.
  intros Hx. split; [|by intros ->]. cbn [splitmix64 fst]. unfold splitmix64. cbv zeta. cbn [fst].
  assert (Hmul : ∀ z m, Z.odd m = true → word64 z → u64 (z * m) = 0 → z = 0).
  { intros z m Hm Hz E. apply (odd_mul_inj m); [done|done|done|]. by rewrite E. }
  assert (Hstep : ∀ z k, word64 z → 0 < k → word64 (Z.lxor z (Z.shiftr z k))) by (intros; apply lxor_word; [done|apply shiftr_word; [done|lia]]).
  set (y := u64 (x + _)). assert (Hy : word64 y) by apply u64_word.
  intros E. apply lxor_shiftr_zero in E; [|apply u64_word|done]. apply Hmul in E; [|done|by apply Hstep; [apply u64_word|]].
  apply lxor_shiftr_zero in E; [|apply u64_word|done]. apply Hmul in E; [|done|by apply Hstep].
  apply lxor_shiftr_zero in E; [|apply Hy|done]. unfold y, u64 in E. apply Z.mod_divide in E as [k Hk]; [|done]. unfold word64 in Hx.
  assert (k = 1) by lia. lia.
Qed.

(** * Polynomials over GF(2) acting on states *)
Ltac lxor_bits := apply Z.bits_inj'; intros ? ?; rewrite ?Z.lxor_spec.
Lemma lxor_mod a b : u64 (Z.lxor a b) = Z.lxor (u64 a) (u64 b).
Proof.
  unfold u64. rewrite <- !Z.land_ones by done. lxor_bits. rewrite !Z.land_spec, Z.lxor_spec.
  by destruct (Z.testbit a n), (Z.testbit b n), (Z.testbit (Z.ones 64) n).
Qed.
Lemma lxor_four a b c d : Z.lxor (Z.lxor a b) (Z.lxor c d) = Z.lxor (Z.lxor a c) (Z.lxor b d).
Proof. lxor_bits. by destruct (Z.testbit a n), (Z.testbit b n), (Z.testbit c n), (Z.testbit d n). Qed.
(** The step is linear. *)
Lemma xorshift_lxor a b : xorshift (Z.lxor a b) = Z.lxor (xorshift a) (xorshift b).
Proof.
  unfold xorshift. cbv zeta. rewrite Z.shiftr_lxor, lxor_four.
  set (x := Z.lxor a _). set (y := Z.lxor b _). rewrite Z.shiftl_lxor, lxor_mod, lxor_four.
  set (x' := Z.lxor x _). set (y' := Z.lxor y _). by rewrite Z.shiftr_lxor, lxor_four.
Qed.
Lemma xorshift_0 : xorshift 0 = 0.
Proof. done. Qed.

(** Coefficients, the constant one first. *)
Abbreviation poly := (list bool).
Fixpoint ev (p : poly) (x : Z) : Z :=
  match p with
  | [] => 0
  | b :: p => Z.lxor (if b then x else 0) (xorshift (ev p x))
  end.
Definition addp (p q : poly) : poly := zip_with xorb p q.
Definition scale (b : bool) (p : poly) : poly := if b then p else (λ _, false) <$> p.

Lemma ev_lxor p a b : ev p (Z.lxor a b) = Z.lxor (ev p a) (ev p b).
Proof.
  induction p as [|c p IH]; [done|]. cbn [ev]. rewrite IH, xorshift_lxor, lxor_four. f_equal. by destruct c.
Qed.
Lemma ev_0 p : ev p 0 = 0.
Proof. induction p as [|c p IH]; [done|]. cbn [ev]. rewrite IH. by destruct c. Qed.
Lemma ev_add p q x : length p = length q → ev (addp p q) x = Z.lxor (ev p x) (ev q x).
Proof.
  revert q. induction p as [|a p IH]; intros [|b q] H; try done. change (addp (a :: p) (b :: q)) with (xorb a b :: addp p q). cbn [ev].
  rewrite IH, xorshift_lxor, lxor_four by (simpl in H; lia). f_equal. destruct a, b; cbn [xorb]; by rewrite ?Z.lxor_nilpotent, ?Z.lxor_0_l, ?Z.lxor_0_r.
Qed.
Lemma ev_scale b p x : ev (scale b p) x = if b then ev p x else 0.
Proof. destruct b; [done|]. unfold scale. induction p as [|c p IH]; [done|]. cbn [fmap list_fmap ev]. by rewrite IH. Qed.
Lemma ev_snoc p b x : ev (p ++ [b]) x = Z.lxor (ev p x) (if b then Nat.iter (length p) xorshift x else 0).
Proof.
  induction p as [|c p IH]; cbn [app ev length].
  - rewrite xorshift_0, Z.lxor_0_r, Z.lxor_0_l. done.
  - rewrite IH, xorshift_lxor, Z.lxor_assoc. f_equal. f_equal. by destruct b.
Qed.
Lemma ev_word p x : word64 x → word64 (ev p x).
Proof.
  intros Hx. induction p as [|b p IH]; [done|]. cbn [ev]. apply lxor_word; [by destruct b|by apply xorshift_word].
Qed.
Lemma scale_length b p : length (scale b p) = length p.
Proof. destruct b; [done|]. apply length_fmap. Qed.

(** Two linear maps that agree on the powers of two agree. *)
Lemma linear_agree f g n x :
  (∀ a b, f (Z.lxor a b) = Z.lxor (f a) (f b)) → (∀ a b, g (Z.lxor a b) = Z.lxor (g a) (g b)) →
  forallb (λ i, f (2 ^ Z.of_nat i) =? g (2 ^ Z.of_nat i)) (seq 0 n) = true → 0 ≤ x < 2 ^ Z.of_nat n → f x = g x.
Proof.
  intros Hf Hg Hb. assert (Hz : ∀ h, (∀ a b, h (Z.lxor a b) = Z.lxor (h a) (h b)) → h 0 = 0).
  { intros h Hh. specialize (Hh 0 0). rewrite Z.lxor_0_l in Hh. by rewrite Z.lxor_nilpotent in Hh. }
  revert x Hb. induction n as [|n IH]; intros x Hb Hx.
  - change (2 ^ Z.of_nat 0) with 1 in Hx. replace x with 0 by lia. by rewrite !Hz.
  - rewrite seq_S, forallb_app in Hb. apply andb_prop in Hb as [Hb Hn]. cbn [forallb] in Hn. rewrite andb_true_r in Hn. apply Z.eqb_eq in Hn. rewrite Nat.add_0_l in Hn.
    specialize (fun y => IH y Hb). rewrite Nat2Z.inj_succ, Z.pow_succ_r in Hx by lia. set (e := 2 ^ Z.of_nat n) in *.
    destruct (decide (x < e)) as [|Hge]; [apply IH; lia|]. replace x with (Z.lxor e (x - e)).
    + rewrite Hf, Hg, Hn, (IH (x - e)) by lia. done.
    + rewrite <- Z.add_nocarry_lxor; [lia|]. apply Z.bits_inj'. intros m Hm. rewrite Z.land_spec, Z.bits_0. unfold e. rewrite Z.pow2_bits_eqb by lia.
      destruct (Z.eqb_spec (Z.of_nat n) m) as [<-|]; [|done]. cbn [andb]. fold e. destruct (decide (x - e = 0)) as [->|]; [apply Z.bits_0|].
      apply Z.bits_above_log2; [lia|]. apply Z.log2_lt_pow2; fold e; lia.
Qed.

(** P, the minimal polynomial of the step: t^64 acts as its low part. *)
Fixpoint bits (n : nat) (x : Z) : poly := match n with O => [] | S n => Z.odd x :: bits n (Z.div2 x) end.
Definition P_LOW : poly := Eval vm_compute in bits 64 0x18b73aa7cc9b71.
Lemma iter_xorshift_lxor n a b : Nat.iter n xorshift (Z.lxor a b) = Z.lxor (Nat.iter n xorshift a) (Nat.iter n xorshift b).
Proof. induction n as [|n IH]; [done|]. rewrite !Nat.iter_succ. by rewrite IH, xorshift_lxor. Qed.
(** The step with the reduction modulo 2^64 as a mask, quicker to evaluate. *)
Definition xorshift_mask (x : Z) : Z :=
  let x := Z.lxor x (Z.shiftr x 12) in
  let x := Z.lxor x (Z.land (Z.shiftl x 25) 0xFFFFFFFFFFFFFFFF) in
  Z.lxor x (Z.shiftr x 27).
Lemma xorshift_mask_eq x : xorshift_mask x = xorshift x.
Proof. unfold xorshift_mask, xorshift. change 0xFFFFFFFFFFFFFFFF with (Z.ones 64). by rewrite Z.land_ones. Qed.
Definition iter_mask (n : nat) (x : Z) : Z := Nat.iter n xorshift_mask x.
Definition ev_mask (p : poly) (x : Z) : Z := foldr (λ (b : bool) y, Z.lxor (if b then x else 0) (xorshift_mask y)) 0 p.
Lemma iter_mask_eq n x : iter_mask n x = Nat.iter n xorshift x.
Proof. unfold iter_mask. induction n as [|n IH]; [done|]. rewrite !Nat.iter_succ. by rewrite IH, xorshift_mask_eq. Qed.
Lemma ev_mask_eq p x : ev_mask p x = ev p x.
Proof. induction p as [|b p IH]; [done|]. unfold ev_mask in *. cbn [foldr ev]. by rewrite IH, xorshift_mask_eq. Qed.
Lemma P_acts x : word64 x → Nat.iter 64 xorshift x = ev P_LOW x.
Proof.
  intros Hx. rewrite <- iter_mask_eq, <- ev_mask_eq. apply (linear_agree (iter_mask 64) (ev_mask P_LOW) 64); [| | |done].
  - intros. rewrite !iter_mask_eq. apply iter_xorshift_lxor.
  - intros. rewrite !ev_mask_eq. apply ev_lxor.
  - vm_compute. reflexivity.
Qed.

(** Multiplication modulo P. *)
Definition xtimes (p : poly) : poly := addp (false :: removelast p) (scale (List.last p false) P_LOW).
Definition mulp (a b : poly) : poly := foldr (λ c r, addp (scale c b) (xtimes r)) (replicate 64 false) a.
Fixpoint powp (a : poly) (n : positive) : poly :=
  match n with
  | xH => a
  | xO n => let b := powp a n in mulp b b
  | xI n => let b := powp a n in mulp a (mulp b b)
  end.
Definition t_poly : poly := Eval vm_compute in bits 64 2.
Definition one_poly : poly := Eval vm_compute in bits 64 1.

Lemma xtimes_length p : length p = 64%nat → length (xtimes p) = 64%nat.
Proof.
  intros H. unfold xtimes, addp. rewrite length_zip_with, scale_length. cbn [length]. rewrite removelast_firstn_len, length_firstn, H. done.
Qed.
Lemma xtimes_acts p x : length p = 64%nat → word64 x → ev (xtimes p) x = xorshift (ev p x).
Proof.
  intros H Hx. assert (Hp : p = removelast p ++ [List.last p false]) by (apply app_removelast_last; by destruct p).
  assert (Hl : length (removelast p) = 63%nat) by (rewrite removelast_firstn_len, length_firstn, H; done).
  unfold xtimes. rewrite ev_add by (by rewrite scale_length; cbn [length]; rewrite Hl). rewrite ev_scale. cbn [ev]. rewrite Z.lxor_0_l.
  replace (ev p x) with (ev (removelast p ++ [List.last p false]) x) by (by rewrite <- Hp). rewrite ev_snoc, Hl, xorshift_lxor. f_equal. destruct (List.last p false); [|done].
  rewrite <- P_acts by exact Hx. by rewrite <- Nat.iter_succ.
Qed.
Lemma mulp_length a b : length b = 64%nat → length (mulp a b) = 64%nat.
Proof.
  intros Hb. induction a as [|c a IH]; [done|]. unfold mulp in *. cbn [foldr]. unfold addp at 1.
  rewrite length_zip_with, scale_length, xtimes_length by done. by rewrite Hb.
Qed.
Lemma mulp_acts a b x : length b = 64%nat → word64 x → ev (mulp a b) x = ev a (ev b x).
Proof.
  intros Hb Hx. induction a as [|c a IH].
  - reflexivity.
  - change (mulp (c :: a) b) with (addp (scale c b) (xtimes (mulp a b))). cbn [ev].
    rewrite ev_add by (by rewrite scale_length, xtimes_length; [|apply mulp_length]). rewrite ev_scale, xtimes_acts, IH by (done || by apply mulp_length).
    by destruct c.
Qed.
Lemma powp_length a n : length a = 64%nat → length (powp a n) = 64%nat.
Proof. intros Ha. induction n; cbn [powp]; [by do 2 apply mulp_length|by apply mulp_length|done]. Qed.
Lemma powp_acts a n x : length a = 64%nat → word64 x → ev (powp a n) x = Pos.iter (ev a) x n.
Proof.
  intros Ha. revert x. induction n as [n IH|n IH|]; intros x Hx; cbn [powp]; [| |done].
  - rewrite mulp_acts by (done || apply mulp_length; by apply powp_length). rewrite mulp_acts by (done || by apply powp_length).
    cbn [Pos.iter]. rewrite (IH x) by done. f_equal. apply IH. rewrite <- IH by done. by apply ev_word.
  - rewrite mulp_acts by (done || by apply powp_length). cbn [Pos.iter]. rewrite (IH x) by done. apply IH. rewrite <- IH by done. by apply ev_word.
Qed.

(** * The period *)
Definition PERIOD : Z := 2 ^ 64 - 1.
Definition nsteps (n : N) (x : Z) : Z := N.iter n xorshift x.

(** 2^64 - 1 = (2^16 - 1)(2^48 + 2^32 + 2^16 + 1): the powers of t to the two
    halves. *)
Definition HALF_LOW : positive := 65535.
Definition HALF_HIGH : positive := 281479271743489.
Definition t_low : poly := Eval vm_compute in powp t_poly HALF_LOW.
Definition t_high : poly := Eval vm_compute in powp t_poly HALF_HIGH.
Lemma t_low_eq : powp t_poly HALF_LOW = t_low.
Proof. vm_compute. reflexivity. Qed.
Lemma t_high_eq : powp t_poly HALF_HIGH = t_high.
Proof. vm_compute. reflexivity. Qed.

(** The prime factors q of each half, with the inverse of t^((2^64-1)/q) - 1 in
    the field. *)
Definition factors_low : list (Z * Z) :=
  [(3, 0x60e71579575698b8); (5, 0x2dfd563d8df4dacb); (17, 0xe1abb9b6d5614b7); (257, 0x1934106f6e3c47a3)].
Definition factors_high : list (Z * Z) :=
  [(641, 0x52d7e7e1fc2212ef); (65537, 0x6e23c80b59c2baa2); (6700417, 0x77bd2fdf157c6fc9)].
Definition inverse_ok (half : positive) (a : poly) (f : Z * Z) : bool :=
  bool_decide (mulp (bits 64 f.2) (addp (powp a (Z.to_pos (Zpos half / f.1))) one_poly) = one_poly).
Lemma factors_low_inverse : forallb (inverse_ok HALF_LOW t_high) factors_low = true.
Proof. vm_compute. reflexivity. Qed.
Lemma factors_high_inverse : forallb (inverse_ok HALF_HIGH t_low) factors_high = true.
Proof. vm_compute. reflexivity. Qed.
Lemma period_one : powp t_high HALF_LOW = one_poly.
Proof. vm_compute. reflexivity. Qed.

(** Primes by trial division. *)
Fixpoint no_divisor (p d : Z) (n : nat) : bool :=
  match n with
  | O => true
  | S n => negb (p mod d =? 0) && no_divisor p (d + 1) n
  end.
Lemma no_divisor_spec p n : ∀ d, no_divisor p d n = true → ∀ e, d ≤ e < d + Z.of_nat n → p mod e ≠ 0.
Proof.
  induction n as [|n IH]; intros d H e He; [lia|]. cbn [no_divisor] in H. apply andb_prop in H as [H1 H2].
  destruct (decide (e = d)) as [->|]; [|apply (IH (d + 1)); [done|lia]]. apply negb_true_iff, Z.eqb_neq in H1. done.
Qed.
Lemma trial_prime p n : 1 < p → p < (Z.of_nat n + 2) * (Z.of_nat n + 2) → no_divisor p 2 n = true → prime p.
Proof.
  intros Hp Hn Hd. apply prime_alt. split; [done|]. intros a Ha [c Hc].
  assert (Hno : ∀ d, 1 < d → d * d ≤ p → ¬ (d | p)).
  { intros d Hd1 Hd2 Hdiv. apply Z.mod_divide in Hdiv; [|lia]. revert Hdiv. apply (no_divisor_spec p n 2 Hd). nia. }
  assert (1 < c) by nia. destruct (decide (a * a ≤ p)); [apply (Hno a); [lia|done|by exists c]|]. apply (Hno c); [done|nia|exists a; lia].
Qed.
Definition factors : list (Z * Z) := factors_low ++ factors_high.
Lemma factors_prime : Forall prime factors.*1.
Proof.
  repeat apply Forall_cons_2; [..|apply Forall_nil_2].
  - by apply (trial_prime 3 0).
  - by apply (trial_prime 5 1).
  - by apply (trial_prime 17 3).
  - by apply (trial_prime 257 15).
  - by apply (trial_prime 641 24).
  - apply (trial_prime 65537 255); [done|done|vm_compute; reflexivity].
  - apply (trial_prime 6700417 2588); [done|done|vm_compute; reflexivity].
Qed.
Lemma prime_factor l m : Forall prime l → (m | foldr Z.mul 1 l) → 1 < m → ∃ q, q ∈ l ∧ (q | m).
Proof.
  induction 1 as [|q l Hq _ IH]; intros Hm H1.
  - apply Z.divide_1_r in Hm. lia.
  - destruct (Zdivide_dec q m) as [Hd|Hnd]; [exists q; split; [constructor|done]|].
    apply Gauss in Hm; [|apply rel_prime_sym; by apply prime_rel_prime]. destruct (IH Hm H1) as (r&Hr&Hrm). exists r. split; [by constructor|done].
Qed.

Lemma ev_zeros n x : ev (replicate n false) x = 0.
Proof. induction n as [|n IH]; [done|]. cbn [replicate ev]. by rewrite IH. Qed.
Lemma ev_one x : ev one_poly x = x.
Proof. change one_poly with (true :: replicate 63 false). cbn [ev]. rewrite ev_zeros, xorshift_0. apply Z.lxor_0_r. Qed.
Lemma ev_t x : ev t_poly x = xorshift x.
Proof. change t_poly with (false :: true :: replicate 62 false). cbn [ev]. rewrite ev_zeros, xorshift_0, Z.lxor_0_l. by rewrite Z.lxor_0_r. Qed.
Lemma steps_pow n x : word64 x → nsteps (Npos n) x = ev (powp t_poly n) x.
Proof.
  intros Hx. rewrite powp_acts by done. unfold nsteps, N.iter. clear Hx. revert x.
  induction n as [n IH|n IH|]; intros x; cbn [Pos.iter]; rewrite ?ev_t; [by rewrite !IH|by rewrite !IH|done].
Qed.
Lemma steps_word n x : word64 x → word64 (nsteps n x).
Proof. intros Hx. destruct n as [|n]; [done|]. rewrite steps_pow by done. by apply ev_word. Qed.
Lemma steps_add a b x : nsteps (a + b) x = nsteps a (nsteps b x).
Proof. apply N.iter_add. Qed.
(** Powers of powers. *)
Lemma steps_pow_pow a b k x : powp t_poly b = a → word64 x → ev (powp a k) x = nsteps (Npos (b * k)) x.
Proof.
  intros <- Hx. rewrite powp_acts by (done || by apply powp_length). induction k as [|k IH] using Pos.peano_ind.
  - rewrite Pos.mul_1_r. cbn [Pos.iter]. by rewrite steps_pow.
  - rewrite Pos.iter_succ, IH, <- steps_pow by (by apply steps_word). rewrite <- steps_add. f_equal. lia.
Qed.
Lemma steps_period x : word64 x → nsteps (Z.to_N PERIOD) x = x.
Proof.
  intros Hx. change (Z.to_N PERIOD) with (Npos (HALF_HIGH * HALF_LOW)). rewrite <- (steps_pow_pow t_high HALF_HIGH HALF_LOW x t_high_eq Hx), period_one. apply ev_one.
Qed.
Lemma steps_mul u k x : nsteps k x = x → nsteps (u * k) x = x.
Proof.
  intros H. induction u as [|u IH] using N.peano_ind; [done|]. rewrite N.mul_succ_l, steps_add, H. done.
Qed.
(** No state but zero comes back after a proper divisor of the period. *)
Lemma inverse_moves half other a f x :
  powp t_poly other = a → inverse_ok half a f = true → word64 x → nsteps (Npos (other * Z.to_pos (Zpos half / f.1))) x = x → x = 0.
Proof.
  intros Ha Hi Hx E. apply bool_decide_eq_true in Hi. assert (Hl : length a = 64%nat) by (rewrite <- Ha; by apply powp_length).
  rewrite <- (ev_one x), <- Hi. rewrite mulp_acts by (done || unfold addp; by rewrite length_zip_with, powp_length). rewrite ev_add by (by rewrite powp_length).
  rewrite (steps_pow_pow a other), E, ev_one, Z.lxor_nilpotent by done. apply ev_0.
Qed.
Definition cofactor (q : Z) : positive := Z.to_pos (PERIOD / q).
Lemma cofactor_halves :
  Forall (λ f, (HALF_HIGH * Z.to_pos (Zpos HALF_LOW / f.1))%positive = cofactor f.1) factors_low ∧
  Forall (λ f, (HALF_LOW * Z.to_pos (Zpos HALF_HIGH / f.1))%positive = cofactor f.1) factors_high.
Proof. split; (repeat apply Forall_cons_2; [reflexivity..|apply Forall_nil_2]). Qed.
Lemma steps_cofactor x f : word64 x → f ∈ factors → nsteps (Npos (cofactor f.1)) x = x → x = 0.
Proof.
  intros Hx Hf E. pose proof factors_low_inverse as Hl. pose proof factors_high_inverse as Hh. rewrite forallb_forall in Hl, Hh.
  destruct cofactor_halves as [Cl Ch]. rewrite Forall_forall in Cl, Ch. apply elem_of_app in Hf as [Hf|Hf].
  - apply (inverse_moves HALF_LOW HALF_HIGH t_high f x t_high_eq); [by apply Hl, list_elem_of_In|done|]. by rewrite (Cl f Hf).
  - apply (inverse_moves HALF_HIGH HALF_LOW t_low f x t_low_eq); [by apply Hh, list_elem_of_In|done|]. by rewrite (Ch f Hf).
Qed.
Lemma steps_return x k : word64 x → 0 < k < PERIOD → nsteps (Z.to_N k) x = x → x = 0.
Proof.
  intros Hx Hk E. set (g := Z.gcd k PERIOD). assert (Hg0 : 0 < g).
  { pose proof (Z.gcd_nonneg k PERIOD). destruct (decide (g = 0)) as [Hz|]; [apply Z.gcd_eq_0 in Hz; lia|lia]. }
  destruct (Z.gcd_divide_l k PERIOD) as [a Ha]. destruct (Z.gcd_divide_r k PERIOD) as [m Hm]. fold g in Ha, Hm.
  assert (Hgk : g ≤ k) by (apply Z.divide_pos_le; [lia|by exists a]). assert (HP : PERIOD = 2 ^ 64 - 1) by done.
  (* the number of nsteps g brings x back *)
  assert (Eg : nsteps (Z.to_N g) x = x).
  { destruct (Z.gcd_bezout k PERIOD g eq_refl) as (u&v&Huv). set (w := u mod PERIOD). assert (Hw : 0 ≤ w) by (apply Z.mod_pos_bound; lia).
    set (j := (w * k) / PERIOD). assert (Hj : w * k = PERIOD * j + g).
    { unfold j. rewrite (Z.div_mod (w * k) PERIOD) at 1 by lia. f_equal. unfold w. rewrite Zmult_mod_idemp_l. 
      replace (u * k) with (g + (- v) * PERIOD) by lia. rewrite Z_mod_plus_full. apply Z.mod_small. lia. }
    pose proof (steps_mul (Z.to_N w) _ x E) as Ew. assert (Hj0 : 0 ≤ j) by (apply Z.div_pos; nia).
    replace (Z.to_N w * Z.to_N k)%N with (Z.to_N g + Z.to_N j * Z.to_N PERIOD)%N in Ew by (rewrite <- !Z2N.inj_mul, <- Z2N.inj_add by lia; f_equal; lia).
    rewrite steps_add, (steps_mul (Z.to_N j)) in Ew by (by apply steps_period). done. }
  destruct (prime_factor factors.*1 m factors_prime) as (q&Hq&r&Hr); [|nia|].
  { replace (foldr Z.mul 1 factors.*1) with PERIOD by (vm_compute; reflexivity). exists g. lia. }
  apply list_elem_of_fmap in Hq as (f&->&Hf). apply (steps_cofactor x f Hx Hf).
  assert (Hq0 : 0 < f.1) by (pose proof factors_prime as Hp; rewrite Forall_forall in Hp; specialize (Hp f.1 (list_elem_of_fmap_2 fst _ _ Hf)); destruct Hp; lia).
  assert (Hdiv : PERIOD / f.1 = r * g) by (symmetry; apply Z.div_unique_exact; [lia|]; rewrite Hm, Hr; ring).
  assert (0 < r) by nia.
  replace (Npos (cofactor f.1)) with (Z.to_N r * Z.to_N g)%N; [by apply steps_mul|].
  unfold cofactor. rewrite Hdiv, <- Z2N.inj_mul by lia. destruct (r * g) eqn:Erg; [nia|done|nia].
Qed.

(** * Draws *)
Lemma steps_zero n : nsteps n 0 = 0.
Proof. induction n as [|n IH] using N.peano_ind; [done|]. by rewrite <- N.add_1_l, steps_add, IH. Qed.
Lemma steps_nonzero n x : word64 x → (n ≤ Z.to_N PERIOD)%N → x ≠ 0 → nsteps n x ≠ 0.
Proof.
  intros Hx Hn Hne E. apply Hne. rewrite <- (steps_period x Hx). replace (Z.to_N PERIOD) with (Z.to_N PERIOD - n + n)%N by lia.
  by rewrite steps_add, E, steps_zero.
Qed.
Lemma steps_distinct i j x : word64 x → x ≠ 0 → (i < j)%N → (j < i + Z.to_N PERIOD)%N → (i ≤ Z.to_N PERIOD)%N → nsteps i x ≠ nsteps j x.
Proof.
  intros Hx Hne Hij Hj Hi E. apply (steps_nonzero i x Hx Hi Hne). apply (steps_return _ (Z.of_N (j - i))); [by apply steps_word|unfold PERIOD in *; lia|].
  rewrite N2Z.id, <- steps_add. rewrite E. f_equal. lia.
Qed.
Lemma scramble_inj a b : word64 a → word64 b → scramble a = scramble b → a = b.
Proof. apply odd_mul_inj. done. Qed.
(** The draw after [i] others. *)
Definition nth_draw (x : Z) (i : nat) : Z := scramble (nsteps (N.of_nat (S i)) x).
Lemma nth_draw_distinct x i j : word64 x → x ≠ 0 → (i < j)%nat → Z.of_nat j < PERIOD → nth_draw x i ≠ nth_draw x j.
Proof.
  intros Hx Hne Hij Hj E. apply scramble_inj in E; [|by apply steps_word..]. revert E. apply steps_distinct; try done; unfold PERIOD in *; lia.
Qed.
Lemma nth_draw_next x i : nth_draw x (S i) = nth_draw (xorshift x) i.
Proof. unfold nth_draw. f_equal. replace (N.of_nat (S (S i))) with (N.of_nat (S i) + 1)%N by lia. by rewrite steps_add. Qed.

Definition good (g : rng) : Prop := word64 (rng_state g) ∧ rng_state g ≠ 0.
Lemma good_next g : good g → good (rng_next g).2.
Proof.
  intros [Hw Hn]. split; cbn; [by apply xorshift_word|]. apply (steps_nonzero 1 (rng_state g)); [done|done|done].
Qed.
Lemma draw_finds threshold fuel : ∀ g i,
  good g → (i < fuel)%nat → threshold ≤ nth_draw (rng_state g) i →
  ∃ r g', draw fuel threshold g = Ret (r, g') ∧ threshold ≤ r < 2 ^ 64 ∧ good g' ∧ rng_seeded g' = rng_seeded g.
Proof.
  induction fuel as [|fuel IH]; intros g i Hg Hi Hr; [lia|]. cbn [draw]. pose proof (good_next g Hg) as Hg'. unfold rng_next in *. cbn in Hg'.
  destruct (Z.ltb_spec (scramble (xorshift (rng_state g))) threshold) as [Hlt|Hge].
  - destruct i as [|i]; [change (nth_draw (rng_state g) 0) with (scramble (xorshift (rng_state g))) in Hr; lia|].
    rewrite nth_draw_next in Hr. apply (IH _ i Hg'); [lia|done].
  - eexists _, _. split; [done|]. split; [split; [done|apply u64_word]|]. done.
Qed.
(** Not every draw can be below the threshold: there are not enough values. *)
Lemma draw_accepted x threshold : word64 x → x ≠ 0 → 0 ≤ threshold < 2 ^ 48 → ∃ i, (i < S (Z.to_nat threshold))%nat ∧ threshold ≤ nth_draw x i.
Proof.
  intros Hx Hne Ht. set (n := S (Z.to_nat threshold)). destruct (decide (Exists (λ i, threshold ≤ nth_draw x i) (seq 0 n))) as [(i&Hi&H)%Exists_exists|Hno].
  { exists i. apply elem_of_seq in Hi. split; [lia|done]. }
  exfalso. apply not_Exists_Forall in Hno; [|apply _]. rewrite Forall_forall in Hno.
  assert (Hl : (length (nth_draw x <$> seq 0 n) ≤ length (seqZ 0 threshold))%nat).
  { apply NoDup_incl_length.
    - apply NoDup_ListNoDup. apply NoDup_fmap_2_strong; [|apply NoDup_seq]. intros i j Hi%elem_of_seq Hj%elem_of_seq E.
      destruct (Nat.lt_trichotomy i j) as [H|[H|H]]; [|done|]; exfalso; [apply (nth_draw_distinct x i j)|apply (nth_draw_distinct x j i)]; try done; unfold PERIOD in *; lia.
    - intros y Hy%list_elem_of_In. apply list_elem_of_In. apply list_elem_of_fmap in Hy as (i&->&Hi). apply elem_of_seqZ.
      specialize (Hno i Hi). unfold compose in Hno. split; [apply u64_word|lia]. }
  rewrite length_fmap, length_seq, length_seqZ in Hl. lia.
Qed.
Lemma threshold_eq n : 0 < n < 2 ^ 64 → threshold_of n = 2 ^ 64 mod n.
Proof.
  intros Hn. unfold threshold_of. replace (u64 (- n)) with (2 ^ 64 + (-1) * n); [apply Z_mod_plus_full|].
  unfold u64. apply (Z.mod_unique _ _ (-1)); lia.
Qed.
(** The accepted words of one residue, as an arithmetic progression. *)
Lemma accepted_class n k r :
  0 < n → 0 ≤ k < n → let thr := 2 ^ 64 mod n in
  thr ≤ r < 2 ^ 64 ∧ r mod n = k ↔ ∃ q, 0 ≤ q < 2 ^ 64 / n ∧ r = thr + (k - thr) mod n + q * n.
Proof.
  intros Hn Hk. cbv zeta. pose proof (Z.div_mod (2 ^ 64) n ltac:(lia)) as HD. pose proof (Z.mod_pos_bound (2 ^ 64) n Hn) as Ht.
  set (thr := 2 ^ 64 mod n) in *. set (Q := 2 ^ 64 / n) in *. pose proof (Z.mod_pos_bound (k - thr) n Hn) as Hm. split.
  - intros [Hr Hrk]. exists ((r - thr) / n). pose proof (Z.div_mod (r - thr) n ltac:(lia)) as Hd. pose proof (Z.mod_pos_bound (r - thr) n Hn).
    assert (E : (r - thr) mod n = (k - thr) mod n) by (rewrite <- Hrk; by rewrite Zminus_mod_idemp_l). split; [|lia]. split; [apply Z.div_pos; lia|]. apply Z.div_lt_upper_bound; lia.
  - intros (q&Hq&->). split.
    + split; [nia|]. assert (q * n ≤ (Q - 1) * n) by nia. lia.
    + rewrite Z_mod_plus_full, Z.add_mod_idemp_r by lia. replace (thr + (k - thr)) with k by lia. by apply Z.mod_small.
Qed.

(** Seeding gives a usable state. *)
Lemma splitmix64_word x : word64 x → word64 (splitmix64 x).1.
Proof. intros Hx. unfold splitmix64. cbv zeta. cbn [fst]. apply lxor_word; [apply u64_word|]. apply shiftr_word; [apply u64_word|done]. Qed.
Lemma seed_int_good i : - 2 ^ 47 ≤ i < 2 ^ 47 → good (mk_rng (splitmix64 (u64 i)).1 true).
Proof.
  intros Hi. split; cbn [rng_state]; [apply splitmix64_word, u64_word|]. rewrite splitmix64_zero by apply u64_word.
  unfold u64. destruct (decide (0 ≤ i)).
  - rewrite Z.mod_small by lia. lia.
  - replace (i mod 2 ^ 64) with (i + 2 ^ 64); [lia|]. apply (Z.mod_unique _ _ (-1)); lia.
Qed.
(** The default seed, for a clock and a process number of fewer than 56 and 24
    bits. *)
Lemma lxor_small n a b : 0 ≤ n → 0 ≤ a < 2 ^ n → 0 ≤ b < 2 ^ n → Z.lxor a b < 2 ^ n.
Proof.
  intros Hn Ha Hb. destruct (decide (0 < Z.lxor a b)) as [Hpos|]; [|lia]. apply Z.log2_lt_pow2; [done|]. pose proof (Z.log2_lxor a b ltac:(lia) ltac:(lia)) as Hl.
  assert (∀ x, 0 ≤ x < 2 ^ n → Z.log2 x < n ∨ n = 0) as H64.
  { intros x Hx. destruct (decide (x = 0)) as [->|]; [cbn; lia|]. left. apply Z.log2_lt_pow2; lia. }
  destruct (H64 a Ha), (H64 b Hb); [lia|..]; subst n; change (2 ^ 0) with 1 in *; replace a with 0 in Hpos by lia; replace b with 0 in Hpos by lia; done.
Qed.
Lemma seed_default_good time pid g :
  0 ≤ time < 2 ^ 56 → 0 ≤ pid < 2 ^ 24 → (rng_seeded g = true → good g) → good (rng_seed_if_needed time pid g) ∧ rng_seeded (rng_seed_if_needed time pid g) = true.
Proof.
  intros Ht Hp Hg. unfold rng_seed_if_needed. destruct (rng_seeded g) eqn:E; [auto|]. split; [|done].
  assert (Hb : 0 ≤ u64 (Z.shiftl (u64 pid) 32) < 2 ^ 56).
  { assert (Eu : ∀ x, 0 ≤ x < 2 ^ 64 → u64 x = x) by (intros; by apply Z.mod_small). rewrite Z.shiftl_mul_pow2 by done. rewrite (Eu pid), Eu by lia. lia. }
  assert (Ha : u64 time = time) by (apply Z.mod_small; lia). rewrite Ha. set (b := u64 _) in *.
  assert (Hw : word64 (Z.lxor time b)) by (apply lxor_word; unfold word64; lia). split; cbn [rng_state]; [by apply splitmix64_word|].
  rewrite splitmix64_zero by done. pose proof (lxor_small 56 time b). lia.
Qed.

(** * Properties *)

(** C39: the generator has the full period: from any nonzero state the step
    returns to it after 2^64 - 1 nsteps and never before, and the numbers
    drawn on the way are pairwise different. *)
Theorem random_full_period x :
  word64 x → x ≠ 0 →
  nsteps (Z.to_N PERIOD) x = x ∧
  (∀ k, 0 < k < PERIOD → nsteps (Z.to_N k) x ≠ x) ∧
  (∀ i j, (i < j)%nat → Z.of_nat j < PERIOD → nth_draw x i ≠ nth_draw x j) ∧
  (∀ g, rng_state g = x → rng_next g = (nth_draw x 0, mk_rng (nsteps 1 x) (rng_seeded g))).
Proof.
  intros Hx Hne. split; [by apply steps_period|]. split; [intros k Hk E; by apply Hne, (steps_return x k)|].
  split; [intros; by apply nth_draw_distinct|]. intros g <-. done.
Qed.
Lemma random_full_period_witness : nsteps (Z.to_N (PERIOD - 1)) 1 ≠ 1 ∧ nth_draw 1 0 ≠ nth_draw 1 100.
Proof.
  destruct (random_full_period 1) as (_&H&H'&_); [done|done|]. split; [apply H; unfold PERIOD; lia|apply H'; [lia|done]].
Defined.

