(* ===== verification/Encoding.v ===== *)
(** The [encoding] module: src/lib/encoding.c (base64 in two alphabets, hex,
    percent).  The C loops, with their scratch buffers and index arithmetic,
    are shown to compute the codecs of RFC 4648 and RFC 3986 written as
    functions on byte lists; the decoders invert the encoders. *)
From stdpp Require Import base tactics list gmap strings.
From Stdlib Require Import ZArith Lia Ascii.
From S2P Require Import Prelude Values Heap Resource Gc GcCorrect GcSpec Tree Alloc Copy Cmodule.
Open Scope Z_scope.

Definition B64_STD : list Z := chars "ABCDEFGHIJKLMNOPQRSTUVWXYZabcdefghijklmnopqrstuvwxyz0123456789+/".
Definition B64_URL : list Z := chars "ABCDEFGHIJKLMNOPQRSTUVWXYZabcdefghijklmnopqrstuvwxyz0123456789-_".

(** * The code *)
Section Code.
(** [scratch_ok n]: whether [malloc] of an [n]-byte scratch buffer succeeds. *)
Context (cap stress : Z) (scratch_ok : Z → bool).

(** Every entry starts by refusing a first argument that is not a string. *)
Definition string_arg (st : store) (p : ProcMem) (args : list Val)
    (k : list Z → outcome (Val * store * ProcMem)) : outcome (Val * store * ProcMem) :=
  v ← arg args 0;
  if negb (val_is_string v) then Ret (val_int (-1), st, p)
  else d ← read_string st v; k d.

Fixpoint b64_encode_loop (fuel : nat) (alpha d : list Z) (i o : Z) (tmp : scratch) : outcome (Z * scratch) :=
  let n := Z.of_nat (length d) in
  if negb (i <? n) then Ret (o, tmp)
  else
    match fuel with
    | O => NoFuel
    | S fuel =>
        b0 ← byte_at d i;
        b1 ← (if i + 1 <? n then byte_at d (i + 1) else Ret 0);
        b2 ← (if i + 2 <? n then byte_at d (i + 2) else Ret 0);
        let trip := Z.lor (Z.lor (u32 (Z.shiftl b0 16)) (u32 (Z.shiftl b1 8))) b2 in
        a0 ← byte_at alpha (Z.land (Z.shiftr trip 18) 63);
        tmp ← sc_put tmp o a0;
        a1 ← byte_at alpha (Z.land (Z.shiftr trip 12) 63);
        tmp ← sc_put tmp (o + 1) a1;
        a2 ← (if i + 1 <? n then byte_at alpha (Z.land (Z.shiftr trip 6) 63) else Ret (ch "="));
        tmp ← sc_put tmp (o + 2) a2;
        a3 ← (if i + 2 <? n then byte_at alpha (Z.land trip 63) else Ret (ch "="));
        tmp ← sc_put tmp (o + 3) a3;
        b64_encode_loop fuel alpha d (i + 3) (o + 4) tmp
    end.

Definition b64_encode_impl (alpha : list Z) (st : store) (p : ProcMem) (args : list Val) : outcome (Val * store * ProcMem) :=
  string_arg st p args (λ d,
    let n := Z.of_nat (length d) in
    let out_len := ((n + 2) / 3) * 4 in
    if negb (scratch_ok (out_len + 1)) then Ret (val_int (-1), st, p)
    else
      '(_, tmp) ← b64_encode_loop (length d) alpha d 0 0 (sc_new (out_len + 1));
      r ← sc_read tmp 0 out_len;
      new_string cap stress st p r).

(** [strchr], as the index of the first match. *)
Fixpoint index_from (i c : Z) (alpha : list Z) : Z :=
  match alpha with
  | [] => -1
  | a :: alpha => if a =? c then i else index_from (i + 1) c alpha
  end.
Definition b64_index (c : Z) (alpha : list Z) : Z := if c =? 0 then -1 else index_from 0 c alpha.

(** Strip the trailing padding, two characters at most. *)
Fixpoint b64_strip (fuel : nat) (d : list Z) (len pad : Z) : outcome (Z * Z) :=
  if 0 <? len then
    c ← byte_at d (len - 1);
    if (c =? ch "=") && (pad <? 2) then
      match fuel with
      | O => NoFuel
      | S fuel => b64_strip fuel d (len - 1) (pad + 1)
      end
    else Ret (len, pad)
  else Ret (len, pad).

(** [None]: a character outside the alphabet. *)
Fixpoint b64_decode_loop (fuel : nat) (alpha d : list Z) (len i acc bits o : Z) (tmp : scratch)
    : outcome (option (Z * Z * Z * scratch)) :=
  if negb (i <? len) then Ret (Some (acc, bits, o, tmp))
  else
    match fuel with
    | O => NoFuel
    | S fuel =>
        c ← byte_at d i;
        let v := b64_index c alpha in
        if v <? 0 then Ret None
        else
          let acc := Z.lor (u32 (Z.shiftl acc 6)) v in
          let bits := bits + 6 in
          if bits =? 24 then
            tmp ← sc_put tmp o (Z.shiftr acc 16);
            tmp ← sc_put tmp (o + 1) (Z.shiftr acc 8);
            tmp ← sc_put tmp (o + 2) acc;
            b64_decode_loop fuel alpha d len (i + 1) 0 0 (o + 3) tmp
          else b64_decode_loop fuel alpha d len (i + 1) acc bits o tmp
    end.

Definition b64_decode_impl (alpha : list Z) (st : store) (p : ProcMem) (args : list Val) : outcome (Val * store * ProcMem) :=
  string_arg st p args (λ d,
    let fail := Ret (val_int (-1), st, p) in
    let n := Z.of_nat (length d) in
    '(len, pad) ← b64_strip 2 d n 0;
    dangling ← (if (0 <? n) && (0 <? len) then c ← byte_at d (len - 1); Ret (c =? ch "=") else Ret false);
    if (dangling : bool) then fail
    else if len mod 4 =? 1 then fail
    else if (0 <? pad) && negb ((len + pad) mod 4 =? 0) then fail
    else
      let size := (len / 4) * 3 + 2 in
      if negb (scratch_ok size) then fail
      else
        r ← b64_decode_loop (length d) alpha d len 0 0 0 0 (sc_new size);
        match r with
        | None => fail
        | Some (acc, bits, o, tmp) =>
            '(o, tmp) ←
              (if bits =? 12 then tmp ← sc_put tmp o (Z.shiftr acc 4); Ret (o + 1, tmp)
               else if bits =? 18 then
                 tmp ← sc_put tmp o (Z.shiftr acc 10);
                 tmp ← sc_put tmp (o + 1) (Z.shiftr acc 2);
                 Ret (o + 2, tmp)
               else Ret (o, tmp));
            r ← sc_read tmp 0 o;
            new_string cap stress st p r
        end).

Definition enc_b64_encode := b64_encode_impl B64_STD.
Definition enc_b64_decode := b64_decode_impl B64_STD.
Definition enc_b64_url_encode := b64_encode_impl B64_URL.
Definition enc_b64_url_decode := b64_decode_impl B64_URL.

Definition hex_index (c : Z) : Z :=
  if (ch "0" <=? c) && (c <=? ch "9") then c - ch "0"
  else if (ch "a" <=? c) && (c <=? ch "f") then c - ch "a" + 10
  else if (ch "A" <=? c) && (c <=? ch "F") then c - ch "A" + 10
  else -1.

(** Both encoders index [int i]; [2 * i] must not overflow. *)

Fixpoint hex_encode_loop (fuel : nat) (digits d : list Z) (i : Z) (tmp : scratch) : outcome scratch :=
  if negb (i <? Z.of_nat (length d)) then Ret tmp
  else
    match fuel with
    | O => NoFuel
    | S fuel =>
        c ← byte_at d i;
        hi ← byte_at digits (Z.shiftr c 4);
        j ← chk32 (2 * i);
        tmp ← sc_put tmp j hi;
        lo ← byte_at digits (Z.land c 15);
        j ← chk32 (2 * i + 1);
        tmp ← sc_put tmp j lo;
        hex_encode_loop fuel digits d (i + 1) tmp
    end.

Definition enc_hex_encode (st : store) (p : ProcMem) (args : list Val) : outcome (Val * store * ProcMem) :=
  string_arg st p args (λ d,
    let n := Z.of_nat (length d) in
    if negb (scratch_ok (n * 2 + 1)) then Ret (val_int (-1), st, p)
    else
      tmp ← hex_encode_loop (length d) (chars "0123456789abcdef") d 0 (sc_new (n * 2 + 1));
      r ← sc_read tmp 0 (n * 2);
      new_string cap stress st p r).

Fixpoint hex_decode_loop (fuel : nat) (d : list Z) (i : Z) (tmp : scratch) : outcome (option scratch) :=
  if negb (i <? Z.of_nat (length d)) then Ret (Some tmp)
  else
    match fuel with
    | O => NoFuel
    | S fuel =>
        c ← byte_at d i;
        c' ← byte_at d (i + 1);
        let hi := hex_index c in
        let lo := hex_index c' in
        if (hi <? 0) || (lo <? 0) then Ret None
        else
          tmp ← sc_put tmp (i / 2) (Z.lor (Z.shiftl hi 4) lo);
          i ← chk32 (i + 2);
          hex_decode_loop fuel d i tmp
    end.

Definition enc_hex_decode (st : store) (p : ProcMem) (args : list Val) : outcome (Val * store * ProcMem) :=
  string_arg st p args (λ d,
    let n := Z.of_nat (length d) in
    let fail := Ret (val_int (-1), st, p) in
    if negb (n mod 2 =? 0) then fail
    else if negb (scratch_ok (n / 2 + 1)) then fail
    else
      r ← hex_decode_loop (length d) d 0 (sc_new (n / 2 + 1));
      match r with
      | None => fail
      | Some tmp => r ← sc_read tmp 0 (n / 2); new_string cap stress st p r
      end).

Definition is_unreserved (c : Z) : bool :=
  ((ch "A" <=? c) && (c <=? ch "Z")) || ((ch "a" <=? c) && (c <=? ch "z")) ||
  ((ch "0" <=? c) && (c <=? ch "9")) || (c =? ch "-") || (c =? ch "_") || (c =? ch ".") || (c =? ch "~").

Fixpoint percent_encode_loop (fuel : nat) (digits d : list Z) (i o : Z) (tmp : scratch) : outcome (Z * scratch) :=
  if negb (i <? Z.of_nat (length d)) then Ret (o, tmp)
  else
    match fuel with
    | O => NoFuel
    | S fuel =>
        c ← byte_at d i;
        if is_unreserved c then
          tmp ← sc_put tmp o c;
          percent_encode_loop fuel digits d (i + 1) (o + 1) tmp
        else
          tmp ← sc_put tmp o (ch "%");
          hi ← byte_at digits (Z.shiftr c 4);
          tmp ← sc_put tmp (o + 1) hi;
          lo ← byte_at digits (Z.land c 15);
          tmp ← sc_put tmp (o + 2) lo;
          percent_encode_loop fuel digits d (i + 1) (o + 3) tmp
    end.

Definition enc_percent_encode (st : store) (p : ProcMem) (args : list Val) : outcome (Val * store * ProcMem) :=
  string_arg st p args (λ d,
    let n := Z.of_nat (length d) in
    if negb (scratch_ok (n * 3 + 1)) then Ret (val_int (-1), st, p)
    else
      '(o, tmp) ← percent_encode_loop (length d) (chars "0123456789ABCDEF") d 0 0 (sc_new (n * 3 + 1));
      r ← sc_read tmp 0 o;
      new_string cap stress st p r).

Fixpoint percent_decode_loop (fuel : nat) (d : list Z) (i o : Z) (tmp : scratch) : outcome (option (Z * scratch)) :=
  let n := Z.of_nat (length d) in
  if negb (i <? n) then Ret (Some (o, tmp))
  else
    match fuel with
    | O => NoFuel
    | S fuel =>
        c ← byte_at d i;
        if negb (c =? ch "%") then
          tmp ← sc_put tmp o c;
          percent_decode_loop fuel d (i + 1) (o + 1) tmp
        else if n <=? i + 2 then Ret None
        else
          c1 ← byte_at d (i + 1);
          c2 ← byte_at d (i + 2);
          let hi := hex_index c1 in
          let lo := hex_index c2 in
          if (hi <? 0) || (lo <? 0) then Ret None
          else
            tmp ← sc_put tmp o (Z.lor (Z.shiftl hi 4) lo);
            percent_decode_loop fuel d (i + 3) (o + 1) tmp
    end.

Definition enc_percent_decode (st : store) (p : ProcMem) (args : list Val) : outcome (Val * store * ProcMem) :=
  string_arg st p args (λ d,
    let n := Z.of_nat (length d) in
    let fail := Ret (val_int (-1), st, p) in
    if negb (scratch_ok (n + 1)) then fail
    else
      r ← percent_decode_loop (length d) d 0 0 (sc_new (n + 1));
      match r with
      | None => fail
      | Some (o, tmp) => r ← sc_read tmp 0 o; new_string cap stress st p r
      end).
End Code.

(** * The codecs as functions on byte lists *)

(** A base64 alphabet: 64 distinct characters, neither NUL nor the padding. *)
Class Alphabet (alpha : list Z) : Prop := {
  al_length : length alpha = 64%nat;
  al_nodup : NoDup alpha;
  al_chars : Forall (λ c, byte c ∧ c ≠ 0 ∧ c ≠ ch "=") alpha
}.
#[global] Instance std_alphabet : Alphabet B64_STD.
Proof. split; [reflexivity|apply (bool_decide_unpack _); vm_compute; exact I|apply (bool_decide_unpack _); vm_compute; exact I]. Qed.
#[global] Instance url_alphabet : Alphabet B64_URL.
Proof. split; [reflexivity|apply (bool_decide_unpack _); vm_compute; exact I|apply (bool_decide_unpack _); vm_compute; exact I]. Qed.

Definition digit (alpha : list Z) (x : Z) : Z := default 0 (alpha !! Z.to_nat x).
Definition sextet (alpha : list Z) (c : Z) : option Z := (λ x, Z.of_nat x.1) <$> list_find (λ a, a = c) alpha.

(** RFC 4648: three bytes as four digits, the last group padded. *)
Fixpoint b64_text (alpha d : list Z) : list Z :=
  match d with
  | [] => []
  | [a] => [digit alpha (a / 4); digit alpha (a mod 4 * 16); ch "="; ch "="]
  | [a; b] => [digit alpha (a / 4); digit alpha (a mod 4 * 16 + b / 16); digit alpha (b mod 16 * 4); ch "="]
  | a :: b :: c :: d =>
      digit alpha (a / 4) :: digit alpha (a mod 4 * 16 + b / 16) :: digit alpha (b mod 16 * 4 + c / 64) ::
      digit alpha (c mod 64) :: b64_text alpha d
  end.

(** Four sextets as three bytes; a short last group of two or three gives one
    or two. *)
Fixpoint b64_bytes (l : list Z) : list Z :=
  match l with
  | x :: y :: z :: w :: l => x * 4 + y / 16 :: y mod 16 * 16 + z / 4 :: z mod 4 * 64 + w :: b64_bytes l
  | [x; y; z] => [x * 4 + y / 16; y mod 16 * 16 + z / 4]
  | [x; y] => [x * 4 + y / 16]
  | _ => []
  end.

(** A text without its trailing run of padding, and the length of the run. *)
Fixpoint unpad (t : list Z) : list Z * nat :=
  match t with
  | [] => ([], 0%nat)
  | c :: t =>
      match unpad t with
      | ([], k) => if c =? ch "=" then ([], S k) else ([c], k)
      | (b, k) => (c :: b, k)
      end
  end.

(** What a text decodes to.  The padding may be left out; when it is there it
    completes the last group. *)
Definition b64_value (alpha t : list Z) : option (list Z) :=
  let '(body, k) := unpad t in
  let n := Z.of_nat (length body) in
  if (2 <? k)%nat then None
  else if n mod 4 =? 1 then None
  else if (0 <? k)%nat && negb ((n + Z.of_nat k) mod 4 =? 0) then None
  else b64_bytes <$> mapM (sextet alpha) body.

(** Two hex digits per byte. *)
Definition hex_text (digits d : list Z) : list Z := d ≫= λ c, [digit digits (c / 16); digit digits (c mod 16)].
Definition nibble (c : Z) : option Z := if hex_index c <? 0 then None else Some (hex_index c).
Fixpoint hex_value (t : list Z) : option (list Z) :=
  match t with
  | [] => Some []
  | [_] => None
  | a :: b :: t => hi ← nibble a; lo ← nibble b; r ← hex_value t; Some (hi * 16 + lo :: r)
  end.

(** RFC 3986: unreserved bytes stand for themselves. *)
Definition pct_char (digits : list Z) (c : Z) : list Z :=
  if is_unreserved c then [c] else [ch "%"; digit digits (c / 16); digit digits (c mod 16)].
Definition pct_text (digits d : list Z) : list Z := d ≫= pct_char digits.
Fixpoint pct_value (t : list Z) : option (list Z) :=
  match t with
  | [] => Some []
  | c :: t' =>
      if c =? ch "%" then
        match t' with
        | a :: b :: t'' => hi ← nibble a; lo ← nibble b; r ← pct_value t''; Some (hi * 16 + lo :: r)
        | _ => None
        end
      else r ← pct_value t'; Some (c :: r)
  end.

(** ** Shared facts *)
Lemma byte_at_lt d i : 0 ≤ i < Z.of_nat (length d) → ∃ c, byte_at d i = Ret c ∧ d !! Z.to_nat i = Some c.
Proof.
  intros Hi. unfold byte_at. destruct (Z.leb_spec 0 i); [|lia].
  destruct (lookup_lt_is_Some_2 d (Z.to_nat i)) as [c Hc]; [lia|]. rewrite Hc. eauto.
Qed.

Lemma digit_at alpha x : 0 ≤ x < Z.of_nat (length alpha) → byte_at alpha x = Ret (digit alpha x).
Proof. intros Hx. destruct (byte_at_lt alpha x Hx) as (c&E&Hc). unfold digit. by rewrite Hc. Qed.

Lemma digit_elem alpha x : 0 ≤ x < Z.of_nat (length alpha) → digit alpha x ∈ alpha.
Proof.
  intros Hx. destruct (byte_at_lt alpha x Hx) as (c&_&Hc). unfold digit. rewrite Hc. simpl. by eapply list_elem_of_lookup_2.
Qed.

Lemma negb_ltb_lt i n : i < n → negb (i <? n) = false.
Proof. intros. destruct (Z.ltb_spec i n); [done|lia]. Qed.
Lemma negb_ltb_ge i n : n ≤ i → negb (i <? n) = true.
Proof. intros. destruct (Z.ltb_spec i n); [lia|done]. Qed.
Lemma ltb_lt i n : i < n → (i <? n) = true.
Proof. by rewrite Z.ltb_lt. Qed.
Lemma ltb_ge i n : n ≤ i → (i <? n) = false.
Proof. by rewrite Z.ltb_ge. Qed.

Section Alphabet.
Context (alpha : list Z) `{HA : Alphabet alpha}.

Lemma digit_char x : 0 ≤ x < 64 → byte (digit alpha x) ∧ digit alpha x ≠ 0 ∧ digit alpha x ≠ ch "=".
Proof using HA.
  intros Hx. assert (digit alpha x ∈ alpha) as He by (apply digit_elem; rewrite al_length; lia).
  pose proof al_chars as Hc. rewrite Forall_forall in Hc. by apply Hc.
Qed.

Lemma index_from_find c i : index_from i c alpha = match list_find (λ a, a = c) alpha with Some (n, _) => i + Z.of_nat n | None => -1 end.
Proof.
  clear HA. revert i. induction alpha as [|a l IH]; intros i; [done|].
  cbn [index_from list_find]. destruct (Z.eqb_spec a c) as [->|Hne].
  - rewrite decide_True by done. lia.
  - rewrite decide_False by done. rewrite IH. destruct (list_find _ l) as [[n ?]|]; simpl; lia.
Qed.

(** [b64_index] is the position in the alphabet. *)
Lemma b64_index_sextet c : b64_index c alpha = default (-1) (sextet alpha c).
Proof using HA.
  unfold b64_index, sextet. rewrite index_from_find.
  destruct (Z.eqb_spec c 0) as [->|_]; [|by destruct (list_find _ alpha) as [[n ?]|]].
  destruct (list_find (λ a, a = 0) alpha) as [[n x]|] eqn:E; [|done].
  apply list_find_Some in E as (E&->&_). pose proof al_chars as Hc. rewrite Forall_forall in Hc.
  by destruct (Hc 0 ltac:(by eapply list_elem_of_lookup_2)) as (_&?&_).
Qed.

Lemma sextet_range c x : sextet alpha c = Some x → 0 ≤ x < 64.
Proof using HA.
  unfold sextet. destruct (list_find _ alpha) as [[n y]|] eqn:E; [|done]. simpl. intros [= <-].
  apply list_find_Some in E as (E&_). apply lookup_lt_Some in E. rewrite al_length in E. lia.
Qed.

Lemma sextet_digit x : 0 ≤ x < 64 → sextet alpha (digit alpha x) = Some x.
Proof using HA.
  intros Hx. destruct (byte_at_lt alpha x) as (c&_&Hc); [rewrite al_length; lia|].
  unfold digit. rewrite Hc. simpl. unfold sextet.
  assert (list_find (λ a, a = c) alpha = Some (Z.to_nat x, c)) as ->; [|simpl; f_equal; lia].
  apply list_find_Some. split; [done|]. split; [done|]. intros j y Hj Hlt ->.
  pose proof (NoDup_lookup alpha j (Z.to_nat x) c al_nodup Hj Hc). lia.
Qed.
End Alphabet.

(** * Base64 *)
Lemma six_bits x k : 0 ≤ k → Z.land (Z.shiftr x k) 63 = x / 2 ^ k mod 64.
Proof. intros Hk. rewrite Z.shiftr_div_pow2 by done. change 63 with (Z.ones 6). by rewrite Z.land_ones. Qed.

Lemma six_low x : Z.land x 63 = x mod 64.
Proof. change 63 with (Z.ones 6). by rewrite Z.land_ones. Qed.

Lemma trip_eq a b c : byte a → byte b → byte c →
  Z.lor (Z.lor (u32 (Z.shiftl a 16)) (u32 (Z.shiftl b 8))) c = a * 65536 + b * 256 + c.
Proof.
  unfold byte, u32. intros Ha Hb Hc. rewrite !Z.shiftl_mul_pow2 by lia.
  rewrite !Z.mod_small by lia. rewrite <- (Z.shiftl_mul_pow2 a 16) by lia.
  rewrite lor_shiftl_add by lia.
  replace (a * 2 ^ 16 + b * 2 ^ 8) with (Z.shiftl (a * 256 + b) 8) by (rewrite Z.shiftl_mul_pow2; lia).
  rewrite lor_shiftl_add; lia.
Qed.

Section Base64.
Context (alpha : list Z) `{HA : Alphabet alpha}.

Lemma al_len64 : Z.of_nat (length alpha) = 64.
Proof using HA. by rewrite al_length. Qed.

Lemma b64_text_bytes d : Forall byte d → Forall byte (b64_text alpha d).
Proof using HA.
  assert (byte (ch "=")) by done.
  assert (Hd : ∀ x, 0 ≤ x < 64 → byte (digit alpha x)) by (intros; by apply digit_char).
  remember (length d) as n eqn:Hn. revert d Hn. induction (lt_wf n) as [n _ IH]. intros d -> Hb.
  destruct d as [|a [|b [|c d]]]; simpl; [constructor|..];
    repeat match goal with H : Forall byte (_ :: _) |- _ => apply Forall_cons in H as [??] end;
    unfold byte in *; repeat (apply Forall_cons; split; [apply Hd || done; Z.div_mod_to_equations; lia|]); try constructor.
  apply (IH (length d)); [simpl; lia|done..].
Qed.

(** The groups of a text have four characters. *)
Lemma b64_text_length d : Z.of_nat (length (b64_text alpha d)) = (Z.of_nat (length d) + 2) / 3 * 4.
Proof.
  clear HA. remember (length d) as n eqn:Hn. revert d Hn. induction (lt_wf n) as [n _ IH]. intros d ->.
  destruct d as [|a [|b [|c d]]]; try done.
  cbn [length b64_text]. rewrite !Nat2Z.inj_succ. rewrite (IH (length d)) by (done || simpl; lia).
  Z.div_mod_to_equations. lia.
Qed.

Lemma encode_step N out a0 a1 a2 a3 o (k : scratch → outcome (Z * scratch)) :
  o = Z.of_nat (length out) → o + 4 ≤ N → byte a0 → byte a1 → byte a2 → byte a3 →
  (tmp ← sc_put (filled N out) o a0; tmp ← sc_put tmp (o + 1) a1; tmp ← sc_put tmp (o + 2) a2;
   tmp ← sc_put tmp (o + 3) a3; k tmp) = k (filled N (out ++ [a0; a1; a2; a3])).
Proof.
  intros -> Ho H0 H1 H2 H3.
  rewrite filled_put by (done || lia). cbn [mbind outcome_bind].
  rewrite filled_put by (rewrite ?length_app; simpl; done || lia). cbn [mbind outcome_bind].
  rewrite filled_put by (rewrite ?length_app; simpl; done || lia). cbn [mbind outcome_bind].
  rewrite filled_put by (rewrite ?length_app; simpl; done || lia). cbn [mbind outcome_bind].
  by rewrite <- !(assoc app).
Qed.

(** The sextets of a group of three bytes. *)
Lemma group_sextets a b c : byte a → byte b → byte c →
  let trip := a * 65536 + b * 256 + c in
  trip / 2 ^ 18 mod 64 = a / 4 ∧ trip / 2 ^ 12 mod 64 = a mod 4 * 16 + b / 16 ∧
  trip / 2 ^ 6 mod 64 = b mod 16 * 4 + c / 64 ∧ trip mod 64 = c mod 64 ∧
  0 ≤ a / 4 < 64 ∧ 0 ≤ a mod 4 * 16 + b / 16 < 64 ∧ 0 ≤ b mod 16 * 4 + c / 64 < 64 ∧ 0 ≤ c mod 64 < 64.
Proof. unfold byte. intros Ha Hb Hc. repeat split; Z.div_mod_to_equations; lia. Qed.

Lemma b64_encode_loop_end fuel d i o tmp :
  Z.of_nat (length d) ≤ i → b64_encode_loop fuel alpha d i o tmp = Ret (o, tmp).
Proof. intros. destruct fuel; cbn [b64_encode_loop]; cbv zeta; by rewrite negb_ltb_ge. Qed.

Lemma b64_encode_loop_spec N fuel pre suf out i o :
  Forall byte suf → i = Z.of_nat (length pre) → o = Z.of_nat (length out) →
  (length suf ≤ fuel)%nat → o + Z.of_nat (length (b64_text alpha suf)) ≤ N →
  b64_encode_loop fuel alpha (pre ++ suf) i o (filled N out) =
    Ret (o + Z.of_nat (length (b64_text alpha suf)), filled N (out ++ b64_text alpha suf)).
Proof using HA.
  assert (Heq : byte (ch "=")) by done. assert (H0 : byte 0) by (unfold byte; lia).
  assert (Hdig : ∀ x, 0 ≤ x < 64 → byte_at alpha x = Ret (digit alpha x)) by (intros; apply digit_at; by rewrite al_len64).
  assert (Hbyte : ∀ x, 0 ≤ x < 64 → byte (digit alpha x)) by (intros; by apply digit_char).
  revert pre suf out i o. induction fuel as [|fuel IH]; intros pre suf out i o Hb Hi Ho Hf HN.
  { destruct suf; [|simpl in Hf; lia]. rewrite b64_encode_loop_end by (rewrite app_nil_r; lia).
    simpl. rewrite app_nil_r. do 2 f_equal. lia. }
  destruct suf as [|a suf].
  { rewrite b64_encode_loop_end by (rewrite app_nil_r; lia). simpl. rewrite app_nil_r. do 2 f_equal. lia. }
  cbn [b64_encode_loop]; cbv zeta; rewrite length_app, negb_ltb_lt by (simpl; lia).
  rewrite (byte_at_here pre a suf i) by done; cbn [mbind outcome_bind].
  destruct suf as [|b [|c suf]];
    repeat match goal with H : Forall byte (_ :: _) |- _ => apply Forall_cons in H as [??] end.
  - rewrite !ltb_ge by (simpl; lia). cbn [mbind outcome_bind]. cbv zeta. rewrite trip_eq, !six_bits by (done || lia).
    destruct (group_sextets a 0 0) as (->&->&_&_&?&?&_); [done..|].
    rewrite !Hdig by done. cbn [mbind outcome_bind]. rewrite encode_step by (auto || (simpl in HN; lia)).
    rewrite b64_encode_loop_end by (rewrite length_app; simpl; lia).
    simpl. rewrite Z.add_0_r. done.
  - rewrite (ltb_lt (i + 1)), (ltb_ge (i + 2)) by (simpl; lia). rewrite byte_at_app by (done || lia).
    cbn [mbind outcome_bind]. change (byte_at [a; b] 1) with (Ret b). cbn [mbind outcome_bind]. cbv zeta.
    rewrite trip_eq, !six_bits by (done || lia).
    destruct (group_sextets a b 0) as (->&->&->&_&?&?&?&_); [done..|].
    rewrite !Hdig by done. cbn [mbind outcome_bind]. rewrite encode_step by (auto || (simpl in HN; lia)).
    rewrite b64_encode_loop_end by (rewrite length_app; simpl; lia).
    simpl. rewrite Z.add_0_r. done.
  - rewrite !ltb_lt by (simpl; lia). rewrite !byte_at_app by (done || lia).
    change (byte_at (a :: b :: c :: suf) 1) with (Ret b). change (byte_at (a :: b :: c :: suf) 2) with (Ret c).
    cbn [mbind outcome_bind]. cbv zeta. rewrite trip_eq, !six_bits, six_low by (done || lia).
    destruct (group_sextets a b c) as (->&->&->&->&?&?&?&?); [done..|].
    rewrite !Hdig by done. cbn [mbind outcome_bind]. rewrite encode_step by (auto || (simpl in HN; lia)).
    cbn [b64_text length] in HN |- *.
    replace (pre ++ a :: b :: c :: suf) with ((pre ++ [a; b; c]) ++ suf) by by rewrite <- (assoc app).
    rewrite IH; [rewrite <- (assoc app)|done|..]; rewrite ?length_app; simpl in *; try lia. do 2 f_equal. lia.
Qed.

(** One character of the decoder's loop. *)
Definition shift_in (acc x : Z) : Z := Z.lor (u32 (Z.shiftl acc 6)) x.

Lemma shift_in_eq acc x : 0 ≤ acc < 2 ^ 26 → 0 ≤ x < 64 → shift_in acc x = acc * 64 + x.
Proof.
  intros Ha Hx. unfold shift_in, u32. rewrite Z.mod_small by (rewrite Z.shiftl_mul_pow2; lia).
  rewrite lor_shiftl_add; lia.
Qed.

Lemma decode_char fuel d c len i acc bits o tmp :
  byte_at d i = Ret c → i < len →
  b64_decode_loop (S fuel) alpha d len i acc bits o tmp =
    match sextet alpha c with
    | None => Ret None
    | Some x =>
        if bits + 6 =? 24 then
          tmp ← sc_put tmp o (Z.shiftr (shift_in acc x) 16);
          tmp ← sc_put tmp (o + 1) (Z.shiftr (shift_in acc x) 8);
          tmp ← sc_put tmp (o + 2) (shift_in acc x);
          b64_decode_loop fuel alpha d len (i + 1) 0 0 (o + 3) tmp
        else b64_decode_loop fuel alpha d len (i + 1) (shift_in acc x) (bits + 6) o tmp
    end.
Proof using HA.
  intros Hc Hlt. cbn [b64_decode_loop]. rewrite negb_ltb_lt by done. rewrite Hc.
  cbn [mbind outcome_bind]. cbv zeta. rewrite b64_index_sextet by done.
  destruct (sextet alpha c) as [x|] eqn:E; [|done]. apply sextet_range in E; [|done]. simpl.
  by rewrite ltb_ge by lia.
Qed.

Lemma decode_end fuel d len i acc bits o tmp :
  len ≤ i → b64_decode_loop fuel alpha d len i acc bits o tmp = Ret (Some (acc, bits, o, tmp)).
Proof. intros. destruct fuel; cbn [b64_decode_loop]; cbv zeta; by rewrite negb_ltb_ge. Qed.

(** The bytes that the code after the loop adds. *)
Definition flush (acc bits : Z) : list Z :=
  if bits =? 12 then [u8 (Z.shiftr acc 4)]
  else if bits =? 18 then [u8 (Z.shiftr acc 10); u8 (Z.shiftr acc 2)]
  else [].

Lemma flush_bytes x y z w : 0 ≤ x < 64 → 0 ≤ y < 64 → 0 ≤ z < 64 → 0 ≤ w < 64 →
  shift_in (shift_in 0 x) y = x * 64 + y ∧ shift_in (x * 64 + y) z = (x * 64 + y) * 64 + z ∧
  shift_in ((x * 64 + y) * 64 + z) w = ((x * 64 + y) * 64 + z) * 64 + w ∧
  flush (x * 64 + y) 12 = [x * 4 + y / 16] ∧
  flush ((x * 64 + y) * 64 + z) 18 = [x * 4 + y / 16; y mod 16 * 16 + z / 4] ∧
  let acc := ((x * 64 + y) * 64 + z) * 64 + w in
  u8 (Z.shiftr acc 16) = x * 4 + y / 16 ∧ u8 (Z.shiftr acc 8) = y mod 16 * 16 + z / 4 ∧ u8 acc = z mod 4 * 64 + w.
Proof.
  clear HA. intros. rewrite !shift_in_eq by (rewrite ?shift_in_eq; lia). unfold flush, u8. cbn [Z.eqb Pos.eqb]. cbv zeta.
  rewrite !Z.shiftr_div_pow2 by lia.
  repeat match goal with |- _ ∧ _ => split end; try lia.
  - f_equal. Z.div_mod_to_equations; lia.
  - f_equal; [|f_equal]; Z.div_mod_to_equations; lia.
  - Z.div_mod_to_equations; lia.
  - Z.div_mod_to_equations; lia.
  - Z.div_mod_to_equations; lia.
Qed.

(** Three bytes from a full group. *)
Lemma decode_put N out o acc a b c (k : scratch → outcome (option (Z * Z * Z * scratch))) :
  o = Z.of_nat (length out) → o + 3 ≤ N → u8 (Z.shiftr acc 16) = a → u8 (Z.shiftr acc 8) = b → u8 acc = c →
  (tmp ← sc_put (filled N out) o (Z.shiftr acc 16); tmp ← sc_put tmp (o + 1) (Z.shiftr acc 8);
   tmp ← sc_put tmp (o + 2) acc; k tmp) = k (filled N (out ++ [a; b; c])).
Proof.
  intros -> Ho <- <- <-.
  rewrite filled_put_u8 by (done || lia). cbn [mbind outcome_bind].
  rewrite filled_put_u8 by (rewrite ?length_app; simpl; done || lia). cbn [mbind outcome_bind].
  rewrite filled_put_u8 by (rewrite ?length_app; simpl; done || lia). cbn [mbind outcome_bind].
  by rewrite <- !(assoc app).
Qed.

Definition decoded (m : outcome (option (Z * Z * Z * scratch))) (N o : Z) (out : list Z) (n : nat) (r : option (list Z)) : Prop :=
  match r with
  | None => m = Ret None
  | Some xs => ∃ acc bits full, m = Ret (Some (acc, bits, o + Z.of_nat (length full), filled N (out ++ full))) ∧
      b64_bytes xs = full ++ flush acc bits ∧ (length full = 3 * (n / 4))%nat
  end.

Lemma decoded_end fuel d N o out n len i acc bits xs :
  len ≤ i → b64_bytes xs = flush acc bits → (n / 4 = 0)%nat → o = Z.of_nat (length out) →
  decoded (b64_decode_loop fuel alpha d len i acc bits o (filled N out)) N o out n (Some xs).
Proof.
  intros Hi Hb Hn Ho. exists acc, bits, []. rewrite decode_end by done. rewrite app_nil_r, Hn. simpl. by rewrite Z.add_0_r.
Qed.

Lemma decoded_group m N o out n n' r r' x y z w :
  (n' / 4 = S (n / 4))%nat →
  decoded m N (o + 3) (out ++ [x * 4 + y / 16; y mod 16 * 16 + z / 4; z mod 4 * 64 + w]) n r →
  r' = (λ xs, x :: y :: z :: w :: xs) <$> r → decoded m N o out n' r'.
Proof.
  intros Hn Hd ->. destruct r as [xs|]; [|done]. destruct Hd as (acc&bits&full&E&Hb&Hl).
  exists acc, bits, ([x * 4 + y / 16; y mod 16 * 16 + z / 4; z mod 4 * 64 + w] ++ full).
  rewrite E, <- (assoc app), length_app. split; [|split].
  - cbn [app length]. do 3 f_equal. f_equal. lia.
  - simpl. by rewrite Hb.
  - rewrite Hn. cbn [length]. lia.
Qed.

Lemma b64_decode_loop_spec N fuel pre suf rest out i o len :
  i = Z.of_nat (length pre) → len = i + Z.of_nat (length suf) → o = Z.of_nat (length out) →
  (length suf ≤ fuel)%nat → o + 3 * Z.of_nat (length suf / 4) ≤ N →
  decoded (b64_decode_loop fuel alpha (pre ++ suf ++ rest) len i 0 0 o (filled N out)) N o out (length suf)
    (mapM (sextet alpha) suf).
Proof using HA.
  remember (length suf) as n eqn:Hn. revert fuel pre suf out i o Hn. induction (lt_wf n) as [n _ IH].
  intros fuel pre suf out i o -> Hi Hl Ho Hf HN.
  destruct suf as [|cx suf]; [apply decoded_end; [simpl in *; lia|done..]|].
  assert (Hat : ∀ k, 0 ≤ k → byte_at (pre ++ (cx :: suf) ++ rest) (i + k) = byte_at (cx :: suf ++ rest) k).
  { intros. by apply byte_at_app. }
  destruct fuel as [|fuel]; [simpl in Hf; lia|].
  rewrite (decode_char _ _ cx); [|by apply byte_at_here|simpl in Hl; lia]. cbn [mapM].
  destruct (sextet alpha cx) as [x|] eqn:Ex; [|done]. apply sextet_range in Ex; [|done]. cbn [mbind option_bind].
  change (0 + 6 =? 24) with false; cbv iota.
  destruct suf as [|cy suf]; [apply decoded_end; [simpl in *; lia|done..]|].
  destruct fuel as [|fuel]; [simpl in Hf; lia|].
  rewrite (decode_char _ _ cy); [|by rewrite Hat|simpl in Hl; lia]. cbn [mapM].
  destruct (sextet alpha cy) as [y|] eqn:Ey; [|done]. apply sextet_range in Ey; [|done]. cbn [mbind option_bind].
  change (0 + 6 + 6 =? 24) with false; cbv iota.
  destruct (flush_bytes x y 0 0) as (->&_&_&Fxy&_); [lia..|].
  destruct suf as [|cz suf]; [apply decoded_end; [simpl in *; lia|by symmetry|done|done]|].
  destruct fuel as [|fuel]; [simpl in Hf; lia|].
  rewrite (decode_char _ _ cz); [|by rewrite <- Z.add_assoc, Hat|simpl in Hl; lia]. cbn [mapM].
  destruct (sextet alpha cz) as [z|] eqn:Ez; [|done]. apply sextet_range in Ez; [|done]. cbn [mbind option_bind].
  change (0 + 6 + 6 + 6 =? 24) with false; cbv iota.
  destruct (flush_bytes x y z 0) as (_&->&_&_&Fxyz&_); [lia..|].
  destruct suf as [|cw suf]; [apply decoded_end; [simpl in *; lia|by symmetry|done|done]|].
  destruct fuel as [|fuel]; [simpl in Hf; lia|].
  rewrite (decode_char _ _ cw); [|by rewrite <- !Z.add_assoc, Hat|simpl in Hl; lia]. cbn [mapM].
  destruct (sextet alpha cw) as [w|] eqn:Ew; [|done]. apply sextet_range in Ew; [|done]. cbn [mbind option_bind].
  change (0 + 6 + 6 + 6 + 6 =? 24) with true; cbv iota.
  destruct (flush_bytes x y z w) as (_&_&->&_&_&F1&F2&F3); [lia..|].
  assert (Hq : (length (cx :: cy :: cz :: cw :: suf) / 4 = S (length suf / 4))%nat).
  { change (length (cx :: cy :: cz :: cw :: suf)) with (4 + length suf)%nat. by rewrite (Nat.div_add_l 1 4). }
  rewrite Hq in HN.
  erewrite decode_put; [|done|lia|exact F1|exact F2|exact F3].
  apply (decoded_group _ _ _ _ (length suf) _ (mapM (sextet alpha) suf) _ x y z w); [done| |by destruct (mapM (sextet alpha) suf)].
  replace (pre ++ (cx :: cy :: cz :: cw :: suf) ++ rest) with ((pre ++ [cx; cy; cz; cw]) ++ suf ++ rest) by by rewrite <- (assoc app).
  cbn [length] in Hl, Hf. apply IH; rewrite ?length_app; cbn [length]; lia || done.
Qed.

Lemma unpad_spec t body k :
  unpad t = (body, k) → t = body ++ replicate k (ch "=") ∧ last body ≠ Some (ch "=").
Proof.
  clear HA. revert body k. induction t as [|c t IH]; intros body k H; cbn [unpad] in H.
  { injection H as <- <-. done. }
  destruct (unpad t) as [b j]. destruct (IH b j eq_refl) as [-> Hl]. destruct b as [|b0 b].
  - destruct (Z.eqb_spec c (ch "=")) as [->|Hne]; injection H as <- <-; [done|].
    split; [done|]. simpl. congruence.
  - injection H as <- <-. split; [done|]. exact Hl.
Qed.

Lemma pad_at body k (m : nat) len :
  (0 < m ≤ k)%nat → len = Z.of_nat (length body + m) →
  byte_at (body ++ replicate k (ch "=")) (len - 1) = Ret (ch "=").
Proof.
  clear HA. intros Hm ->. replace (Z.of_nat (length body + m) - 1) with (Z.of_nat (length body + (m - 1))) by lia.
  apply byte_at_Some. rewrite lookup_app_r by lia. rewrite lookup_replicate. split; [done|lia].
Qed.

Lemma body_at body rest : body ≠ [] → last body ≠ Some (ch "=") →
  ∃ c, byte_at (body ++ rest) (Z.of_nat (length body) - 1) = Ret c ∧ c ≠ ch "=".
Proof.
  clear HA. intros Hb Hl. destruct (last body) as [c|] eqn:E; [|by apply last_None in E].
  apply last_Some in E as [l ->]. exists c. split; [|congruence].
  rewrite <- (assoc app), length_app. simpl. apply byte_at_here. lia.
Qed.

Lemma b64_strip_spec body k : last body ≠ Some (ch "=") → ∀ fuel (m pad : nat),
  (m ≤ k)%nat → (pad ≤ 2)%nat → (2 - pad ≤ fuel)%nat →
  b64_strip fuel (body ++ replicate k (ch "=")) (Z.of_nat (length body + m)) (Z.of_nat pad) =
    Ret (Z.of_nat (length body + (m - (m `min` (2 - pad)))), Z.of_nat (pad + m `min` (2 - pad))).
Proof.
  clear HA. intros Hl. induction fuel as [|fuel IH]; intros m pad Hm Hp Hf.
  all: destruct m as [|m].
  all: try (rewrite Nat.add_0_r; destruct body as [|b body];
    [|destruct (body_at (b :: body) (replicate k (ch "=")) ltac:(done) Hl) as (c&Ec&Hc)];
    cbn [b64_strip]; rewrite ?(ltb_ge _ 0), ?(ltb_lt 0) by (simpl; lia); [|rewrite Ec; cbn [mbind outcome_bind]; rewrite (proj2 (Z.eqb_neq c _)) by done];
    (cbn [andb]; do 2 f_equal; lia)).
  all: cbn [b64_strip]; rewrite (ltb_lt 0) by lia; rewrite (pad_at _ _ (S m)) by lia; cbn [mbind outcome_bind]; rewrite Z.eqb_refl.
  - rewrite (ltb_ge _ 2) by lia. cbn [andb]. do 2 f_equal; lia.
  - destruct (decide (pad = 2)%nat) as [->|Hne]; [cbn; do 2 f_equal; lia|].
    rewrite (ltb_lt _ 2) by lia. cbn [andb].
    replace (Z.of_nat (length body + S m) - 1) with (Z.of_nat (length body + m)) by lia.
    replace (Z.of_nat pad + 1) with (Z.of_nat (S pad)) by lia. rewrite IH by lia. do 2 f_equal; lia.
Qed.
End Base64.

(** * Hex and percent *)
(** Sixteen digits whose values [hex_index] recovers. *)
Class HexDigits (digits : list Z) : Prop := {
  hx_length : length digits = 16%nat;
  hx_bytes : Forall byte digits;
  hx_index : ∀ x, 0 ≤ x < 16 → hex_index (digit digits x) = x
}.
Definition LOWER : list Z := chars "0123456789abcdef".
Definition UPPER : list Z := chars "0123456789ABCDEF".

Lemma sixteen (P : Z → Prop) `{∀ x, Decision (P x)} : forallb (λ x, bool_decide (P (Z.of_nat x))) (seq 0 16) = true → ∀ x, 0 ≤ x < 16 → P x.
Proof.
  intros Hf x Hx. rewrite forallb_forall in Hf. specialize (Hf (Z.to_nat x)).
  rewrite bool_decide_eq_true, Z2Nat.id in Hf by lia. apply Hf. apply in_seq. lia.
Qed.

#[global] Instance lower_digits : HexDigits LOWER.
Proof. split; [reflexivity|apply (bool_decide_unpack _); vm_compute; exact I|]. apply (sixteen _); vm_compute; reflexivity. Qed.
#[global] Instance upper_digits : HexDigits UPPER.
Proof. split; [reflexivity|apply (bool_decide_unpack _); vm_compute; exact I|]. apply (sixteen _); vm_compute; reflexivity. Qed.

Lemma hex_index_range c : -1 ≤ hex_index c < 16.
Proof.
  unfold hex_index.
  destruct (Z.leb_spec (ch "0") c), (Z.leb_spec c (ch "9")), (Z.leb_spec (ch "a") c), (Z.leb_spec c (ch "f")),
    (Z.leb_spec (ch "A") c), (Z.leb_spec c (ch "F")); cbn [andb];
  change (ch "0") with 48 in *; change (ch "9") with 57 in *; change (ch "a") with 97 in *; change (ch "f") with 102 in *;
  change (ch "A") with 65 in *; change (ch "F") with 70 in *; lia.
Qed.

Lemma nibble_lor hi lo : 0 ≤ hi < 16 → 0 ≤ lo < 16 → Z.lor (Z.shiftl hi 4) lo = hi * 16 + lo ∧ byte (hi * 16 + lo).
Proof. intros. rewrite lor_shiftl_add by lia. unfold byte. lia. Qed.


Section Hex.
Context (digits : list Z) `{HD : HexDigits digits}.

Lemma digit_byte x : 0 ≤ x < 16 → byte_at digits x = Ret (digit digits x) ∧ byte (digit digits x).
Proof using HD.
  intros Hx. split; [apply digit_at; by rewrite hx_length|].
  pose proof hx_bytes as Hb. rewrite Forall_forall in Hb. apply Hb, digit_elem. by rewrite hx_length.
Qed.

Lemma byte_nibbles c : byte c → Z.shiftr c 4 = c / 16 ∧ Z.land c 15 = c mod 16 ∧ 0 ≤ c / 16 < 16 ∧ 0 ≤ c mod 16 < 16.
Proof.
  unfold byte. intros Hc. rewrite Z.shiftr_div_pow2 by lia. change 15 with (Z.ones 4). rewrite Z.land_ones by lia.
  change (2 ^ 4) with 16. repeat split; Z.div_mod_to_equations; lia.
Qed.

Lemma hex_text_length d : length (hex_text digits d) = (2 * length d)%nat.
Proof. clear HD. induction d as [|c d IH]; [done|]. unfold hex_text in *. cbn. rewrite IH. lia. Qed.

Lemma hex_encode_loop_spec N fuel pre suf out i :
  Forall byte suf → i = Z.of_nat (length pre) → 2 * i = Z.of_nat (length out) →
  (length suf ≤ fuel)%nat → 2 * (i + Z.of_nat (length suf)) ≤ N → N ≤ 2 ^ 31 →
  hex_encode_loop fuel digits (pre ++ suf) i (filled N out) = Ret (filled N (out ++ hex_text digits suf)).
Proof using HD.
  revert pre suf out i. induction fuel as [|fuel IH]; intros pre suf out i Hb Hi Ho Hf HN HM; destruct suf as [|c suf];
    cbn [hex_encode_loop length] in *; rewrite ?app_nil_r.
  { by rewrite negb_ltb_ge by lia. } { lia. } { by rewrite negb_ltb_ge by lia. }
  apply Forall_cons in Hb as [Hc Hb]. rewrite length_app, negb_ltb_lt by (simpl; lia).
  rewrite byte_at_here by done. cbn [mbind outcome_bind].
  destruct (byte_nibbles c Hc) as (->&->&Hh&Hl). destruct (digit_byte _ Hh) as [-> ?], (digit_byte _ Hl) as [El ?].
  cbn [mbind outcome_bind]. rewrite (chk32_small (2 * i)) by lia. cbn [mbind outcome_bind].
  rewrite filled_put by (done || lia). cbn [mbind outcome_bind]. rewrite El. cbn [mbind outcome_bind].
  rewrite chk32_small by lia. cbn [mbind outcome_bind].
  rewrite filled_put by (rewrite ?length_app; simpl; done || lia). cbn [mbind outcome_bind].
  replace (pre ++ c :: suf) with ((pre ++ [c]) ++ suf) by by rewrite <- (assoc app).
  rewrite IH by (rewrite ?length_app; simpl; done || lia). do 2 f_equal. by rewrite <- !(assoc app).
Qed.

Lemma pct_text_length d : (length (pct_text digits d) ≤ 3 * length d)%nat.
Proof.
  clear HD. induction d as [|c d IH]; [done|]. unfold pct_text in *. cbn. rewrite length_app.
  assert (length (pct_char digits c) ≤ 3)%nat by (unfold pct_char; case_match; simpl; lia). lia.
Qed.

Lemma percent_encode_loop_spec N fuel pre suf out i o :
  Forall byte suf → i = Z.of_nat (length pre) → o = Z.of_nat (length out) →
  (length suf ≤ fuel)%nat → o + 3 * Z.of_nat (length suf) ≤ N →
  percent_encode_loop fuel digits (pre ++ suf) i o (filled N out) =
    Ret (o + Z.of_nat (length (pct_text digits suf)), filled N (out ++ pct_text digits suf)).
Proof using HD.
  revert pre suf out i o. induction fuel as [|fuel IH]; intros pre suf out i o Hb Hi Ho Hf HN; destruct suf as [|c suf];
    cbn [percent_encode_loop length] in *; rewrite ?app_nil_r.
  { rewrite negb_ltb_ge by lia. do 2 f_equal. simpl. lia. } { lia. }
  { rewrite negb_ltb_ge by lia. do 2 f_equal. simpl. lia. }
  apply Forall_cons in Hb as [Hc Hb]. rewrite length_app, negb_ltb_lt by (simpl; lia).
  rewrite byte_at_here by done. cbn [mbind outcome_bind].
  change (pct_text digits (c :: suf)) with (pct_char digits c ++ pct_text digits suf). unfold pct_char.
  replace (pre ++ c :: suf) with ((pre ++ [c]) ++ suf) by by rewrite <- (assoc app).
  destruct (is_unreserved c).
  - rewrite filled_put by (done || lia). cbn [mbind outcome_bind].
    rewrite IH by (rewrite ?length_app; simpl; done || lia). rewrite <- (assoc app), length_app. do 2 f_equal. simpl. lia.
  - destruct (byte_nibbles c Hc) as (->&->&Hh&Hl). destruct (digit_byte _ Hh) as [Eh ?], (digit_byte _ Hl) as [El ?].
    rewrite filled_put by (done || lia). cbn [mbind outcome_bind]. rewrite Eh. cbn [mbind outcome_bind].
    rewrite filled_put by (rewrite ?length_app; simpl; done || lia). cbn [mbind outcome_bind]. rewrite El. cbn [mbind outcome_bind].
    rewrite filled_put by (rewrite ?length_app; simpl; done || lia). cbn [mbind outcome_bind].
    rewrite IH by (rewrite ?length_app; simpl; done || lia). rewrite <- !(assoc app), length_app. do 2 f_equal. simpl. lia.
Qed.
End Hex.

(** The decoders' loops; [None] is a malformed input. *)
Lemma nibble_cases a b {A} (f : Z → Z → A) (e : A) :
  (if (hex_index a <? 0) || (hex_index b <? 0) then e else f (hex_index a) (hex_index b)) =
  match nibble a, nibble b with Some hi, Some lo => f hi lo | _, _ => e end.
Proof. unfold nibble. by destruct (hex_index a <? 0), (hex_index b <? 0). Qed.

Lemma nibble_range a x : nibble a = Some x → 0 ≤ x < 16.
Proof.
  unfold nibble. pose proof (hex_index_range a). destruct (Z.ltb_spec (hex_index a) 0); [done|]. intros [= <-]. lia.
Qed.

Lemma hex_decode_loop_spec N fuel pre suf out i :
  i = Z.of_nat (length pre) → i = 2 * Z.of_nat (length out) → Z.of_nat (length suf) mod 2 = 0 →
  (length suf ≤ fuel)%nat → i + Z.of_nat (length suf) ≤ 2 * N → 2 * N < 2 ^ 31 →
  hex_decode_loop fuel (pre ++ suf) i (filled N out) = Ret ((λ r, filled N (out ++ r)) <$> hex_value suf).
Proof.
  revert pre suf out i. induction fuel as [|fuel IH]; intros pre suf out i Hi Ho He Hf HN HM; destruct suf as [|a [|b suf]];
    cbn [hex_decode_loop length] in *; rewrite ?app_nil_r; try lia; try discriminate He.
  1,2: rewrite negb_ltb_ge by lia; simpl; by rewrite app_nil_r.
  rewrite length_app, negb_ltb_lt by (simpl; lia).
  rewrite (byte_at_here pre a (b :: suf) i) by done. cbn [mbind outcome_bind].
  rewrite byte_at_app by lia. change (byte_at (a :: b :: suf) 1) with (Ret b). cbn [mbind outcome_bind]. cbv zeta.
  rewrite (nibble_cases a b (λ hi lo, tmp ← sc_put (filled N out) (i / 2) (Z.lor (hi ≪ 4) lo); i ← chk32 (i + 2);
    hex_decode_loop fuel (pre ++ a :: b :: suf) i tmp) (Ret None)).
  cbn [hex_value]. destruct (nibble a) as [hi|] eqn:Ea; [|done]. destruct (nibble b) as [lo|] eqn:Eb; [|done].
  apply nibble_range in Ea, Eb. cbn [mbind option_bind]. destruct (nibble_lor hi lo Ea Eb) as [-> Hb].
  rewrite filled_put by (done || Z.div_mod_to_equations; lia). cbn [mbind outcome_bind].
  rewrite chk32_small by lia. cbn [mbind outcome_bind].
  replace (pre ++ a :: b :: suf) with ((pre ++ [a; b]) ++ suf) by by rewrite <- (assoc app).
  rewrite IH; rewrite ?length_app; cbn [length]; try lia; [|rewrite <- He; Z.div_mod_to_equations; lia].
  f_equal. destruct (hex_value suf) as [r|]; [|done]. simpl. by rewrite <- (assoc app).
Qed.

Lemma percent_decode_loop_spec N fuel pre suf out i o :
  Forall byte suf → i = Z.of_nat (length pre) → o = Z.of_nat (length out) →
  (length suf ≤ fuel)%nat → o + Z.of_nat (length suf) ≤ N →
  percent_decode_loop fuel (pre ++ suf) i o (filled N out) =
    Ret ((λ r, (o + Z.of_nat (length r), filled N (out ++ r))) <$> pct_value suf).
Proof.
  revert pre suf out i o. induction fuel as [|fuel IH]; intros pre suf out i o Hby Hi Ho Hf HN; destruct suf as [|c suf];
    cbn [percent_decode_loop length] in *; cbv zeta; rewrite ?app_nil_r; try lia.
  1,2: rewrite negb_ltb_ge by lia; simpl; rewrite app_nil_r; do 3 f_equal; lia.
  apply Forall_cons in Hby as [Hc Hby].
  rewrite length_app, negb_ltb_lt by (simpl; lia). rewrite (byte_at_here pre c suf i) by done.
  cbn [mbind outcome_bind pct_value]. destruct (c =? ch "%"); cbn [negb].
  - destruct suf as [|a [|b suf]].
    1,2: by rewrite (proj2 (Z.leb_le _ _)) by (simpl; lia).
    rewrite (proj2 (Z.leb_gt _ _)) by (simpl; lia). rewrite !byte_at_app by lia.
    change (byte_at (c :: a :: b :: suf) 1) with (Ret a). change (byte_at (c :: a :: b :: suf) 2) with (Ret b). cbn [mbind outcome_bind]. cbv zeta.
    rewrite (nibble_cases a b (λ hi lo, tmp ← sc_put (filled N out) o (Z.lor (hi ≪ 4) lo);
      percent_decode_loop fuel (pre ++ c :: a :: b :: suf) (i + 3) (o + 1) tmp) (Ret None)).
    destruct (nibble a) as [hi|] eqn:Ea; [|done]. destruct (nibble b) as [lo|] eqn:Eb; [|done].
    apply nibble_range in Ea, Eb. cbn [mbind option_bind]. destruct (nibble_lor hi lo Ea Eb) as [-> Hb].
    rewrite filled_put by (done || simpl in *; lia). cbn [mbind outcome_bind].
    replace (pre ++ c :: a :: b :: suf) with ((pre ++ [c; a; b]) ++ suf) by by rewrite <- (assoc app).
    do 2 apply Forall_cons in Hby as [_ Hby].
    rewrite IH; rewrite ?length_app; cbn [length] in *; try lia; [|done].
    f_equal. destruct (pct_value suf) as [r|]; [|done]. simpl. rewrite <- (assoc app). do 2 f_equal. lia.
  - rewrite filled_put by (done || simpl in *; lia). cbn [mbind outcome_bind].
    replace (pre ++ c :: suf) with ((pre ++ [c]) ++ suf) by by rewrite <- (assoc app).
    rewrite IH; rewrite ?length_app; cbn [length] in *; try lia; [|done].
    f_equal. destruct (pct_value suf) as [r|]; [|done]. simpl. rewrite <- (assoc app). do 2 f_equal. lia.
Qed.

(** * Decoding inverts encoding *)
Lemma unpad_char c t : c ≠ ch "=" → unpad (c :: t) = (c :: (unpad t).1, (unpad t).2).
Proof. intros Hc. cbn [unpad]. destruct (unpad t) as [[|b0 b] k]; [|done]. by rewrite (proj2 (Z.eqb_neq c _)). Qed.

Lemma unpad_text alpha `{Alphabet alpha} d : Forall byte d →
  ∃ body k xs, unpad (b64_text alpha d) = (body, k) ∧ (k ≤ 2)%nat ∧ Z.of_nat (length body) mod 4 ≠ 1 ∧
    (Z.of_nat (length body) + Z.of_nat k) mod 4 = 0 ∧ mapM (sextet alpha) body = Some xs ∧ b64_bytes xs = d.
Proof.
  assert (Hs : ∀ x, 0 ≤ x < 64 → sextet alpha (digit alpha x) = Some x) by (intros; by apply sextet_digit).
  assert (Hp : ∀ x, 0 ≤ x < 64 → digit alpha x ≠ ch "=") by (intros; by apply digit_char).
  remember (length d) as n eqn:Hn. revert d Hn. induction (lt_wf n) as [n _ IH]. intros d -> Hb.
  assert (Hb0 : byte 0) by (unfold byte; lia).
  destruct d as [|a [|b [|c d]]];
    repeat match goal with H : Forall byte (_ :: _) |- _ => apply Forall_cons in H as [??] end.
  - exists [], 0%nat, []. split_and!; [done|lia|done..].
  - destruct (group_sextets a 0 0) as (_&_&_&_&?&?&_); [done..|]. cbn [b64_text].
    replace (a mod 4 * 16) with (a mod 4 * 16 + 0 / 16) by (change (0 / 16) with 0; change (0 / 64) with 0; lia).
    do 2 rewrite unpad_char by auto. change (unpad [ch "="; ch "="]) with (@nil Z, 2%nat). cbn [fst snd]. do 3 eexists. split; [reflexivity|]. split; [simpl; lia|]. do 2 (split; [done|]).
    cbn [mapM]. rewrite !Hs by done. split; [reflexivity|]. cbn [b64_bytes]. f_equal. unfold byte in *. Z.div_mod_to_equations. lia.
  - destruct (group_sextets a b 0) as (_&_&_&_&?&?&?&_); [done..|]. cbn [b64_text].
    replace (b mod 16 * 4) with (b mod 16 * 4 + 0 / 64) by (change (0 / 16) with 0; change (0 / 64) with 0; lia).
    do 3 rewrite unpad_char by auto. change (unpad [ch "="]) with (@nil Z, 1%nat). cbn [fst snd]. do 3 eexists. split; [reflexivity|]. split; [simpl; lia|]. do 2 (split; [done|]).
    cbn [mapM]. rewrite !Hs by done. split; [reflexivity|]. cbn [b64_bytes]. unfold byte in *. f_equal; [|f_equal]; Z.div_mod_to_equations; lia.
  - destruct (group_sextets a b c) as (_&_&_&_&?&?&?&?); [done..|]. cbn [b64_text].
    destruct (IH (length d) ltac:(simpl; lia) d eq_refl) as (body&k&xs&E&Hk&Hm1&Hm4&Hm&Hx); [done|].
    do 4 rewrite unpad_char by auto. rewrite E. cbn [fst snd]. do 3 eexists. split; [reflexivity|]. split; [done|].
    cbn [length]. rewrite !Nat2Z.inj_succ. split; [intros Hc; apply Hm1; rewrite <- Hc; Z.div_mod_to_equations; lia|].
    split; [rewrite <- Hm4; Z.div_mod_to_equations; lia|].
    cbn [mapM]. rewrite !Hs, Hm by done. split; [reflexivity|]. cbn [b64_bytes]. unfold byte in *.
    f_equal; [|f_equal; [|f_equal; [|done]]]; Z.div_mod_to_equations; lia.
Qed.

Lemma b64_value_text alpha `{Alphabet alpha} d : Forall byte d → b64_value alpha (b64_text alpha d) = Some d.
Proof.
  intros Hb. destruct (unpad_text alpha d Hb) as (body&k&xs&E&Hk&H1&H4&Hm&Hx). unfold b64_value. rewrite E.
  destruct (Nat.ltb_spec 2 k); [lia|]. rewrite (proj2 (Z.eqb_neq _ _)) by done. rewrite H4. cbn. rewrite andb_false_r, Hm. cbn. by rewrite Hx.
Qed.

Lemma nibble_digit digits `{HexDigits digits} x : 0 ≤ x < 16 → nibble (digit digits x) = Some x.
Proof. intros Hx. unfold nibble. rewrite hx_index by done. by rewrite ltb_ge by lia. Qed.

Lemma hex_value_text digits `{HexDigits digits} d : Forall byte d → hex_value (hex_text digits d) = Some d.
Proof.
  induction 1 as [|c d Hc Hd IH]; [done|]. destruct (byte_nibbles c Hc) as (_&_&Hh&Hl).
  change (hex_text digits (c :: d)) with (digit digits (c / 16) :: digit digits (c mod 16) :: hex_text digits d).
  cbn [hex_value]. rewrite !nibble_digit, IH by done. cbn. do 2 f_equal. Z.div_mod_to_equations; lia.
Qed.

Lemma pct_value_text digits `{HexDigits digits} d : Forall byte d → pct_value (pct_text digits d) = Some d.
Proof.
  induction 1 as [|c d Hc Hd IH]; [done|]. destruct (byte_nibbles c Hc) as (_&_&Hh&Hl).
  change (pct_text digits (c :: d)) with (pct_char digits c ++ pct_text digits d). unfold pct_char.
  destruct (is_unreserved c) eqn:Eu; cbn [app pct_value].
  - destruct (Z.eqb_spec c (ch "%")) as [->|]; [done|]. by rewrite IH.
  - rewrite !nibble_digit, IH by done. cbn. do 2 f_equal. Z.div_mod_to_equations; lia.
Qed.

(** * The module functions *)
Definition ERROR : tree := Imm (val_int (-1)).
Definition answer (r : option (list Z)) : tree := match r with Some d => TString d | None => ERROR end.

Section Functions.
Context (cap stress : Z) (scratch_ok : Z → bool) (st : store) (p : ProcMem) (v : Val) (d : list Z).
Context (W : window st p) (Hv : denotes st v (TString d)).

Lemma string_arg_string k : string_arg st p [v] k = k d.
Proof using Hv.
  unfold string_arg. change (arg [v] 0) with (Ret v). cbn [mbind outcome_bind].
  destruct (string_denotes _ _ _ Hv) as [-> ->]. reflexivity.
Qed.

Lemma error_yields : yields (Ret (val_int (-1), st, p)) st ERROR.
Proof using W. exact (int_yields st p (-1) W). Qed.

Context (Hok : ∀ n, scratch_ok n = true).

Lemma b64_encode_yields alpha `{Alphabet alpha} :
  Forall byte d → Z.of_nat (length (b64_text alpha d)) < STRING_MAX →
  yields (b64_encode_impl cap stress scratch_ok alpha st p [v]) st (TString (b64_text alpha d)).
Proof using W Hv Hok.
  intros Hb Hl. unfold b64_encode_impl. rewrite string_arg_string, Hok. cbn [negb].
  rewrite <- (b64_text_length alpha).
  rewrite filled_new, (b64_encode_loop_spec alpha _ _ [] d []) by (done || simpl; lia).
  cbn [mbind outcome_bind app]. rewrite filled_read by lia. cbn [mbind outcome_bind]. by apply new_string_yields.
Qed.

(** What the decoder does once the loop is over. *)
Lemma flush_put N full acc bits :
  Z.of_nat (length full) + 2 ≤ N →
  (if bits =? 12 then tmp ← sc_put (filled N full) (Z.of_nat (length full)) (Z.shiftr acc 4); Ret (Z.of_nat (length full) + 1, tmp)
   else if bits =? 18 then
     tmp ← sc_put (filled N full) (Z.of_nat (length full)) (Z.shiftr acc 10);
     tmp ← sc_put tmp (Z.of_nat (length full) + 1) (Z.shiftr acc 2);
     Ret (Z.of_nat (length full) + 2, tmp)
   else Ret (Z.of_nat (length full), filled N full)) =
  Ret (Z.of_nat (length (full ++ flush acc bits)), filled N (full ++ flush acc bits)).
Proof.
  clear. intros Hl. unfold flush. destruct (bits =? 12); [|destruct (bits =? 18)].
  - rewrite filled_put_u8 by (done || lia). cbn [mbind outcome_bind]. rewrite length_app. do 2 f_equal. simpl. lia.
  - rewrite filled_put_u8 by (done || lia). cbn [mbind outcome_bind].
    rewrite filled_put_u8 by (rewrite ?length_app; simpl; lia). cbn [mbind outcome_bind].
    rewrite <- (assoc app), !length_app. do 2 f_equal. simpl. lia.
  - by rewrite app_nil_r.
Qed.

Lemma b64_bytes_length l : (length (b64_bytes l) ≤ length l)%nat.
Proof.
  clear. remember (length l) as n eqn:Hn. revert l Hn. induction (lt_wf n) as [n _ IH]. intros l ->.
  destruct l as [|x [|y [|z [|w l]]]]; simpl; try lia.
  specialize (IH (length l) ltac:(simpl; lia) l eq_refl). lia.
Qed.

(** The padding checks before the loop. *)
Lemma padding_checks t body k :
  unpad t = (body, k) →
  let len := Z.of_nat (length body + (k - k `min` 2)) in
  b64_strip 2 t (Z.of_nat (length t)) 0 = Ret (len, Z.of_nat (k `min` 2)) ∧
  (if (0 <? Z.of_nat (length t)) && (0 <? len) then c ← byte_at t (len - 1); Ret (c =? ch "=") else Ret false) = Ret (2 <? k)%nat.
Proof.
  clear. intros Eu. apply unpad_spec in Eu as [Hd Hlast]. cbv zeta.
  assert (Hn : Z.of_nat (length t) = Z.of_nat (length body + k)) by (rewrite Hd, length_app, length_replicate; lia).
  split.
  { rewrite Hn, Hd. exact (b64_strip_spec body k Hlast 2 k 0 ltac:(lia) ltac:(lia) ltac:(lia)). }
  rewrite Hn. destruct (Nat.ltb_spec 2 k) as [Hk|Hk].
  { rewrite !ltb_lt by lia. cbn [andb]. rewrite Hd, (pad_at _ _ (k - 2)) by lia. done. }
  replace (length body + (k - k `min` 2))%nat with (length body) by lia.
  destruct body as [|b body]; [by rewrite andb_false_r|].
  rewrite !ltb_lt by (simpl; lia). cbn [andb]. rewrite Hd.
  destruct (body_at (b :: body) (replicate k (ch "=")) ltac:(done) Hlast) as (c&->&Hc).
  cbn [mbind outcome_bind]. by rewrite (proj2 (Z.eqb_neq c _)).
Qed.

Lemma b64_decode_yields alpha `{Alphabet alpha} :
  Z.of_nat (length d) < STRING_MAX →
  yields (b64_decode_impl cap stress scratch_ok alpha st p [v]) st (answer (b64_value alpha d)).
Proof using W Hv Hok.
  intros Hlen. unfold b64_decode_impl. rewrite string_arg_string. cbv zeta.
  unfold b64_value. destruct (unpad d) as [body k] eqn:Eu. destruct (padding_checks d body k Eu) as [-> Hdang].
  apply unpad_spec in Eu as [Hd _]. cbn [mbind outcome_bind]. rewrite Hdang. cbn [mbind outcome_bind].
  destruct (Nat.ltb_spec 2 k) as [Hk|Hk]; [apply error_yields|].
  replace (length body + (k - k `min` 2))%nat with (length body) by lia. replace (k `min` 2)%nat with k by lia.
  destruct (Z.of_nat (length body) mod 4 =? 1); [apply error_yields|].
  replace (0 <? Z.of_nat k) with (0 <? k)%nat by (destruct k; done).
  destruct ((0 <? k)%nat && _); [apply error_yields|]. rewrite Hok. cbn [negb].
  assert (Hn : length d = (length body + k)%nat) by (rewrite Hd, length_app, length_replicate; lia).
  assert (Hq : Z.of_nat (length body) / 4 = Z.of_nat (length body / 4)) by (rewrite Nat2Z.inj_div; done).
  rewrite filled_new.
  pose proof (b64_decode_loop_spec alpha (Z.of_nat (length body) / 4 * 3 + 2) (length d) [] body
    (replicate k (ch "=")) [] 0 0 (Z.of_nat (length body)) eq_refl eq_refl eq_refl ltac:(lia) ltac:(lia)) as Hloop.
  rewrite app_nil_l, <- Hd in Hloop. destruct (mapM (sextet alpha) body) as [xs|] eqn:Em; cbn [decoded] in Hloop.
  2:{ rewrite Hloop. apply error_yields. }
  destruct Hloop as (acc&bits&full&->&Hxs&Hf). cbn [mbind outcome_bind app]. rewrite Z.add_0_l.
  rewrite flush_put by lia. cbn [mbind outcome_bind]. rewrite <- Hxs.
  apply length_mapM in Em. pose proof (b64_bytes_length xs) as Hbl.
  assert (length (b64_bytes xs) ≤ length full + 2)%nat.
  { rewrite Hxs, length_app. unfold flush. destruct (bits =? 12); [|destruct (bits =? 18)]; simpl; lia. }
  rewrite filled_read by lia. cbn [mbind outcome_bind]. apply new_string_yields; [done|lia].
Qed.

Lemma hex_encode_yields :
  Forall byte d → 2 * Z.of_nat (length d) < STRING_MAX →
  yields (enc_hex_encode cap stress scratch_ok st p [v]) st (TString (hex_text LOWER d)).
Proof using W Hv Hok.
  intros Hb Hl. unfold enc_hex_encode. rewrite string_arg_string. cbv zeta. rewrite Hok. cbn [negb]. unfold STRING_MAX in Hl.
  rewrite filled_new, (hex_encode_loop_spec LOWER _ _ [] d []) by (done || simpl; lia).
  cbn [mbind outcome_bind app]. pose proof (hex_text_length LOWER d) as Ht.
  rewrite filled_read by lia. cbn [mbind outcome_bind]. apply new_string_yields; [done|unfold STRING_MAX; lia].
Qed.

Lemma hex_value_length t r : hex_value t = Some r → Z.of_nat (length t) = 2 * Z.of_nat (length r).
Proof.
  clear. remember (length t) as n eqn:Hn. revert t r Hn. induction (lt_wf n) as [n _ IH]. intros t r -> E.
  destruct t as [|a [|b t]]; [by injection E as <-|done|]. cbn [hex_value] in E.
  destruct (nibble a), (nibble b); try done. cbn in E. destruct (hex_value t) as [r'|] eqn:Et; [|done]. injection E as <-.
  specialize (IH (length t) ltac:(simpl; lia) t r' eq_refl Et). simpl. lia.
Qed.

Lemma hex_value_even t : is_Some (hex_value t) → Z.of_nat (length t) mod 2 = 0.
Proof. intros [r E]. rewrite (hex_value_length t r E). rewrite Z.mul_comm. apply Z_mod_mult. Qed.

Lemma hex_decode_yields :
  Z.of_nat (length d) < STRING_MAX →
  yields (enc_hex_decode cap stress scratch_ok st p [v]) st (answer (hex_value d)).
Proof using W Hv Hok.
  intros Hl. unfold enc_hex_decode. rewrite string_arg_string. cbv zeta. unfold STRING_MAX in Hl.
  destruct (Z.eqb_spec (Z.of_nat (length d) mod 2) 0) as [He|He]; cbn [negb].
  2:{ destruct (hex_value d) as [r|] eqn:E; [|apply error_yields]. destruct He. apply hex_value_even. eauto. }
  rewrite Hok. cbn [negb]. assert (2 * (Z.of_nat (length d) / 2) = Z.of_nat (length d)) by (Z.div_mod_to_equations; lia).
  rewrite filled_new, (hex_decode_loop_spec _ _ [] d []) by (done || simpl; lia). cbn [mbind outcome_bind].
  destruct (hex_value d) as [r|] eqn:E; [|apply error_yields]. cbn [fmap option_fmap option_map app].
  apply hex_value_length in E. rewrite filled_read by lia. cbn [mbind outcome_bind].
  apply new_string_yields; [done|unfold STRING_MAX; lia].
Qed.

Lemma percent_encode_yields :
  Forall byte d → Z.of_nat (length (pct_text UPPER d)) < STRING_MAX →
  yields (enc_percent_encode cap stress scratch_ok st p [v]) st (TString (pct_text UPPER d)).
Proof using W Hv Hok.
  intros Hb Hl. unfold enc_percent_encode. rewrite string_arg_string. cbv zeta. rewrite Hok. cbn [negb].
  rewrite filled_new, (percent_encode_loop_spec UPPER _ _ [] d []) by (done || simpl; lia).
  cbn [mbind outcome_bind app]. pose proof (pct_text_length UPPER d) as Ht.
  rewrite filled_read by lia. cbn [mbind outcome_bind]. by apply new_string_yields.
Qed.

Lemma pct_value_length t r : pct_value t = Some r → (length r ≤ length t)%nat.
Proof.
  clear. remember (length t) as n eqn:Hn. revert t r Hn. induction (lt_wf n) as [n _ IH]. intros t r -> E.
  destruct t as [|c t]; [by injection E as <-|]. cbn [pct_value] in E. destruct (c =? ch "%").
  - destruct t as [|a [|b t]]; try done. destruct (nibble a), (nibble b); try done. cbn in E.
    destruct (pct_value t) as [r'|] eqn:Et; [|done]. injection E as <-.
    specialize (IH (length t) ltac:(simpl; lia) t r' eq_refl Et). simpl. lia.
  - destruct (pct_value t) as [r'|] eqn:Et; [|done]. injection E as <-.
    specialize (IH (length t) ltac:(simpl; lia) t r' eq_refl Et). simpl. lia.
Qed.

Lemma percent_decode_yields :
  Forall byte d → Z.of_nat (length d) < STRING_MAX →
  yields (enc_percent_decode cap stress scratch_ok st p [v]) st (answer (pct_value d)).
Proof using W Hv Hok.
  intros Hb Hl. unfold enc_percent_decode. rewrite string_arg_string. cbv zeta. rewrite Hok. cbn [negb].
  rewrite filled_new, (percent_decode_loop_spec _ _ [] d []) by (done || simpl; lia). cbn [mbind outcome_bind].
  destruct (pct_value d) as [r|] eqn:E; [|apply error_yields]. cbn [fmap option_fmap option_map app].
  apply pct_value_length in E. rewrite filled_read by lia. cbn [mbind outcome_bind].
  apply new_string_yields; [done|lia].
Qed.
End Functions.

(** * The codecs *)
Inductive codec := B64 | B64Url | Hex | Percent.

Definition encode (c : codec) (cap stress : Z) (ok : Z → bool) : store → ProcMem → list Val → outcome (Val * store * ProcMem) :=
  match c with
  | B64 => enc_b64_encode cap stress ok
  | B64Url => enc_b64_url_encode cap stress ok
  | Hex => enc_hex_encode cap stress ok
  | Percent => enc_percent_encode cap stress ok
  end.
Definition decode (c : codec) (cap stress : Z) (ok : Z → bool) : store → ProcMem → list Val → outcome (Val * store * ProcMem) :=
  match c with
  | B64 => enc_b64_decode cap stress ok
  | B64Url => enc_b64_url_decode cap stress ok
  | Hex => enc_hex_decode cap stress ok
  | Percent => enc_percent_decode cap stress ok
  end.
Definition text (c : codec) (d : list Z) : list Z :=
  match c with
  | B64 => b64_text B64_STD d
  | B64Url => b64_text B64_URL d
  | Hex => hex_text LOWER d
  | Percent => pct_text UPPER d
  end.
Definition value (c : codec) (t : list Z) : option (list Z) :=
  match c with
  | B64 => b64_value B64_STD t
  | B64Url => b64_value B64_URL t
  | Hex => hex_value t
  | Percent => pct_value t
  end.

Lemma value_text c d : Forall byte d → value c (text c d) = Some d.
Proof. intros. destruct c; simpl; [apply b64_value_text|apply b64_value_text|apply hex_value_text|apply pct_value_text]; done || apply _. Qed.

Lemma text_bytes c d : Forall byte d → Forall byte (text c d).
Proof.
  intros Hd. destruct c; simpl; [by apply b64_text_bytes; [apply _|]..| |].
  - induction Hd as [|c d Hc Hd IH]; [constructor|]. destruct (byte_nibbles c Hc) as (_&_&Hh&Hl).
    unfold hex_text in *. cbn. do 2 (apply Forall_cons; split; [by apply digit_byte; [apply _|]|]). done.
  - induction Hd as [|c d Hc Hd IH]; [constructor|]. destruct (byte_nibbles c Hc) as (_&_&Hh&Hl).
    change (pct_text UPPER (c :: d)) with (pct_char UPPER c ++ pct_text UPPER d). apply Forall_app. split; [|done].
    unfold pct_char. destruct (is_unreserved c); repeat (apply Forall_cons; split); try apply Forall_nil_2; try done.
    all: by apply digit_byte; [apply _|].
Qed.

Section Codecs.
Context (cap stress : Z) (ok : Z → bool).

Lemma encode_yields c st p v d :
  (∀ n, ok n = true) → window st p → denotes st v (TString d) → Forall byte d → Z.of_nat (length (text c d)) < STRING_MAX →
  yields (encode c cap stress ok st p [v]) st (TString (text c d)).
Proof.
  intros Hok W Hv Hb Hl. destruct c; simpl in *; [by apply b64_encode_yields; try apply _..| |by apply percent_encode_yields].
  apply hex_encode_yields; try done. rewrite hex_text_length in Hl. lia.
Qed.

Lemma decode_yields c st p v t :
  (∀ n, ok n = true) → window st p → denotes st v (TString t) → Forall byte t → Z.of_nat (length t) < STRING_MAX →
  yields (decode c cap stress ok st p [v]) st (answer (value c t)).
Proof.
  intros Hok W Hv Hb Hl. destruct c; simpl in *;
    [by apply b64_decode_yields; try apply _..|by apply hex_decode_yields|by apply percent_decode_yields].
Qed.


(** C21: decoding what was encoded gives the bytes back, whatever they are. *)
Theorem codecs_roundtrip c st p v d :
  (∀ n, ok n = true) → window st p → denotes st v (TString d) → Forall byte d →
  Z.of_nat (length (text c d)) < STRING_MAX → brk st + cost (TString (text c d)) + cost (TString d) < ADDR_LIMIT →
  ∃ w st1 p1 r st2 p2, encode c cap stress ok st p [v] = Ret (w, st1, p1) ∧
    decode c cap stress ok st1 p1 [w] = Ret (r, st2, p2) ∧ denotes st2 r (TString d) ∧ window st2 p2.
Proof.
  intros Hok W Hv Hb Hl Hr. pose proof (cost_nonneg (TString d)).
  destruct (encode_yields c st p v d Hok W Hv Hb Hl) as (w&st1&p1&E1&D1&W1&_&B1); [lia|].
  destruct (decode_yields c st1 p1 w (text c d) Hok W1 D1 (text_bytes c d Hb) Hl) as (r&st2&p2&E2&D2&W2&_);
    rewrite ?value_text in * by done; simpl in *; [lia|]. eauto 12.
Qed.

(** An argument that is not a string, and a scratch buffer that cannot be
    allocated, give -1 and leave the store and the process as they were. *)
Theorem codecs_error c st p v t :
  denotes st v t → ((∀ d, t ≠ TString d) ∨ (∀ n, ok n = false) ∧ ∃ d, t = TString d) →
  encode c cap stress ok st p [v] = Ret (val_int (-1), st, p) ∧
  (decode c cap stress ok st p [v] = Ret (val_int (-1), st, p)).
Proof.
  intros Hv [Hn|[Hok [d ->]]].
  - assert (Hs : ∀ k, string_arg st p [v] k = Ret (val_int (-1), st, p)).
    { intros k. unfold string_arg. change (arg [v] 0) with (Ret v). cbn [mbind outcome_bind].
      by rewrite (not_string_denotes _ _ _ Hv Hn). }
    destruct c; split; apply Hs.
  - assert (Hs : ∀ k, string_arg st p [v] k = k d) by (intros; by apply string_arg_string).
    assert (HB : ∀ alpha, b64_encode_impl cap stress ok alpha st p [v] = Ret (val_int (-1), st, p) ∧
      b64_decode_impl cap stress ok alpha st p [v] = Ret (val_int (-1), st, p)).
    { intros alpha. unfold b64_encode_impl, b64_decode_impl. rewrite !Hs. cbv zeta. rewrite !Hok. split; [done|].
      destruct (unpad d) as [body k] eqn:Eu. destruct (padding_checks d body k Eu) as [-> Hg]. cbn [mbind outcome_bind].
      rewrite Hg. cbn [mbind outcome_bind]. repeat case_match; try done; by rewrite Hok in *. }
    destruct c; [apply HB|apply HB|split..].
    + unfold encode, enc_hex_encode. rewrite Hs. cbv zeta. by rewrite Hok.
    + unfold decode, enc_hex_decode. rewrite Hs. cbv zeta. rewrite Hok. by case_match.
    + unfold encode, enc_percent_encode. rewrite Hs. cbv zeta. by rewrite Hok.
    + unfold decode, enc_percent_decode. rewrite Hs. cbv zeta. by rewrite Hok.
Qed.
End Codecs.

(** ** A window with one string in it *)
Definition w_bytes : list Z := [0; 255; 37; 61; 65].
Definition w_winstore : store := w_heap {[ 1024 := Live (HeapString w_bytes) ]}.
Definition w_arg : Val := lbox TAG_STRING 1024.

Lemma w_window : window w_winstore w_winproc.
Proof. apply w_heap_window. intros x Hx. apply lookup_singleton_ne. lia. Qed.

Lemma w_denotes : denotes w_winstore w_arg (TString w_bytes).
Proof. apply w_heap_string; [done|by rewrite lookup_singleton_eq]. Qed.

Lemma w_bytes_ok : Forall byte w_bytes.
Proof. apply (bool_decide_unpack _). vm_compute. exact I. Qed.


Lemma codecs_roundtrip_witness :
  ∃ w st1 p1 r st2 p2, encode B64 4096 0 (λ _, true) w_winstore w_winproc [w_arg] = Ret (w, st1, p1) ∧
    decode B64 4096 0 (λ _, true) st1 p1 [w] = Ret (r, st2, p2) ∧ denotes st2 r (TString w_bytes) ∧ window st2 p2.
Proof.
  apply (codecs_roundtrip 4096 0 (λ _, true) B64 w_winstore w_winproc w_arg w_bytes);
    [done|apply w_window|apply w_denotes|apply w_bytes_ok|vm_compute; reflexivity|vm_compute; reflexivity].
Defined.

Lemma codecs_error_witness :
  encode Hex 4096 0 (λ _, false) w_winstore w_winproc [w_arg] = Ret (val_int (-1), w_winstore, w_winproc) ∧
  decode Hex 4096 0 (λ _, false) w_winstore w_winproc [w_arg] = Ret (val_int (-1), w_winstore, w_winproc).
Proof.
  apply (codecs_error 4096 0 (λ _, false) Hex w_winstore w_winproc w_arg (TString w_bytes));
    [apply w_denotes|right; split; [done|by exists w_bytes]].
Defined.
