(* ===== verification/Sha.v ===== *)
(** The [sha256] module: src/lib/sha256.c, whose digest state is a value.

    OpenSSL's three functions are arguments; of them only what the manual
    promises is used, that digesting the pieces of a message one after another
    gives the digest of the message. *)
From stdpp Require Import base tactics list gmap strings.
From Stdlib Require Import ZArith Lia.
From S2P Require Import Prelude Values Heap Resource Gc GcCorrect GcSpec Tree Alloc Copy Cmodule Str Encoding.
Open Scope Z_scope.

Definition STATE_BYTES : Z := 112.
Definition SHA256_DIGEST_LENGTH : Z := 32.
Definition read_bytes (st : store) (v : Val) : outcome (list Z) :=
  match cells st !! lpayload v with
  | Some (Live (HeapBytes d)) => Ret d
  | _ => Undef
  end.

(** * The code *)
Section Code.
Context (cap stress : Z).
Context (SHA256_Init : list Z) (SHA256_Update : list Z → list Z → list Z) (SHA256_Final : list Z → list Z).
Abbreviation result := (outcome (Val * store * ProcMem)).

Definition state_value (st : store) (p : ProcMem) (c : list Z) : result := val_bytes cap stress st p c.
(** [None]: the value is no state. *)
Definition state_load (st : store) (v : Val) : outcome (option (list Z)) :=
  if negb (val_is_bytes v) then Ret None
  else
    b ← read_bytes st v;
    Ret (if negb (len b =? STATE_BYTES) then None else Some b).
(** The loop over the digest is that of lib/encoding.c. *)
Definition sha_hex (st : store) (p : ProcMem) (md : list Z) : result :=
  if negb (len md =? 32) then Ret (val_nil, st, p)
  else
    hex ← hex_encode_loop (length md) (chars "0123456789abcdef") md 0 (sc_new 65);
    hex ← sc_put hex 64 0;
    r ← sc_read hex 0 64;
    new_string cap stress st p r.
Definition sha_raw_new (st : store) (p : ProcMem) (args : list Val) : result := state_value st p SHA256_Init.
Definition sha_raw_update_at (st : store) (p : ProcMem) (args : list Val) : result :=
  let fail := Ret (val_int (-1), st, p) in
  if (length args <? 4)%nat then fail
  else
    v2 ← arg args 2;
    v3 ← arg args 3;
    if negb (val_is_int v2) || negb (val_is_int v3) then fail
    else
      v0 ← arg args 0;
      c ← state_load st v0;
      match c with
      | None => fail
      | Some c =>
          v1 ← arg args 1;
          if negb (val_is_string v1) then fail
          else
            s ← read_string st v1;
            let off := val_get_int v2 in
            let n := val_get_int v3 in
            end_ ← chk64 (off + n);
            if (off <? 0) || (n <? 0) || (len s <? end_) then fail
            else state_value st p (SHA256_Update c (take (Z.to_nat n) (drop (Z.to_nat off) s)))
      end.
Definition sha_raw_update (st : store) (p : ProcMem) (args : list Val) : result :=
  if (length args <? 2)%nat then Ret (val_int (-1), st, p)
  else
    v1 ← arg args 1;
    if negb (val_is_string v1) then Ret (val_int (-1), st, p)
    else
      s ← read_string st v1;
      v0 ← arg args 0;
      sha_raw_update_at st p [v0; v1; val_int 0; val_int (len s)].
Definition sha_raw_final (st : store) (p : ProcMem) (args : list Val) : result :=
  v0 ← arg args 0;
  c ← state_load st v0;
  match c with
  | None => Ret (val_int (-1), st, p)
  | Some c => sha_hex st p (SHA256_Final c)
  end.
Definition sha_raw_digest (st : store) (p : ProcMem) (args : list Val) : result :=
  if (length args <? 1)%nat then Ret (val_int (-1), st, p)
  else
    v ← arg args 0;
    if negb (val_is_string v) then Ret (val_int (-1), st, p)
    else
      s ← read_string st v;
      sha_hex st p (SHA256_Final (SHA256_Update SHA256_Init s)).
End Code.

(** * Digests of streams *)
(** [SHA256_CTX] is a plain struct, a digest is 32 bytes, and a message may be
    hashed in pieces. *)
Class Digest (ini : list Z) (upd : list Z → list Z → list Z) (fin : list Z → list Z) : Prop := {
  dg_init : len ini = STATE_BYTES;
  dg_update : ∀ c d, len c = STATE_BYTES → len (upd c d) = STATE_BYTES;
  dg_final : ∀ c, len c = STATE_BYTES → len (fin c) = SHA256_DIGEST_LENGTH ∧ Forall byte (fin c);
  dg_pieces : ∀ ds, fin (foldl upd ini ds) = fin (upd ini (concat ds))
}.

Section Streams.
Context (cap stress : Z) (ini : list Z) (upd : list Z → list Z → list Z) (fin : list Z → list Z) `{HD : Digest ini upd fin}.

(** The state after the pieces [ds]. *)
Definition stream (ds : list (list Z)) : list Z := foldl upd ini ds.
Definition digest (d : list Z) : list Z := hex_text LOWER (fin (upd ini d)).
Lemma stream_length ds : len (stream ds) = STATE_BYTES.
Proof using HD. 
  unfold stream. assert (∀ c, len c = STATE_BYTES → len (foldl upd c ds) = STATE_BYTES) as H; [|apply H, dg_init].
  induction ds as [|d ds IH]; intros c Hc; [done|]. cbn [foldl]. by apply IH, dg_update.
Qed.
Lemma stream_snoc ds d : stream (ds ++ [d]) = upd (stream ds) d.
Proof. unfold stream. by rewrite foldl_app. Qed.

Section window.
Context (st : store) (p : ProcMem) (W : window st p).
Lemma state_yields c : len c = STATE_BYTES → yields (state_value cap stress st p c) st (TBytes c).
Proof using W.
  intros Hc Hb. unfold state_value, val_bytes.
  pose proof (ta_heap_object_size_spec (raw_size (HeapBytes c))) as (_&_&_&Hs). fold (obj_size (HeapBytes c)) in Hs.
  simpl in Hs, Hb. unfold SIZEOF_BYTES, STATE_BYTES in *. specialize (Hs ltac:(lia)).
  destruct (alloc_window cap stress st p (HeapBytes c) W) as (v&st1&p1&E&W1&P&S&B&_).
  { unfold CHUNK_COST in *. lia. }
  exists v, st1, p1. split; [exact E|]. split; [exact P|]. split; [done|]. split; [done|]. simpl. unfold CHUNK_COST in *. lia.
Qed.
Lemma hex_yields md : len md = SHA256_DIGEST_LENGTH → Forall byte md → yields (sha_hex cap stress st p md) st (TString (hex_text LOWER md)).
Proof using W.
  intros Hl Hb. unfold sha_hex, SHA256_DIGEST_LENGTH in *. rewrite Hl. change (negb (32 =? 32)) with false. cbv iota.
  pose proof (hex_text_length LOWER md) as Ht.
  assert (hex_encode_loop (length md) (chars "0123456789abcdef") md 0 (sc_new 65) = Ret (filled 65 (hex_text LOWER md))) as ->.
  { rewrite filled_new. apply (hex_encode_loop_spec LOWER 65 (length md) [] md [] 0); simpl; done || lia. }
  cbn [mbind outcome_bind].
  rewrite filled_put by (done || lia). cbn [mbind outcome_bind].
  assert (sc_read (filled 65 (hex_text LOWER md ++ [0])) 0 64 = Ret (hex_text LOWER md)) as ->.
  { unfold sc_read. rewrite filled_length by (rewrite length_app; simpl; lia). cbn [Z.leb andb]. change (0 + 64 <=? Z.of_nat (Z.to_nat 65)) with true. cbn [andb].
    change (Z.to_nat 0) with 0%nat. rewrite drop_0. unfold filled. rewrite fmap_app, <- app_assoc, take_app_length' by (rewrite length_fmap; lia).
    assert (mapM id (Some <$> hex_text LOWER md) = Some (hex_text LOWER md)) as -> by by apply mapM_fmap_Some. done. }
  cbn [mbind outcome_bind]. apply new_string_yields; [done|unfold STRING_MAX; lia].
Qed.
Lemma load_state v c : denotes st v (TBytes c) → len c = STATE_BYTES → state_load st v = Ret (Some c).
Proof using.
  clear. intros (_&Ht&_&Hc) Hl. unfold state_load, val_is_bytes, read_bytes. rewrite Ht. cbn [obj_tag]. rewrite Z.eqb_refl. cbn [negb]. rewrite Hc. cbn [mbind outcome_bind]. rewrite Hl. done.
Qed.
(** Anything but the bytes of a state is refused. *)
Lemma load_other v t : denotes st v t → (∀ c, t = TBytes c → len c ≠ STATE_BYTES) → state_load st v = Ret None.
Proof using.
  clear. intros D Hn. unfold state_load. assert (val_is_bytes v = match t with TBytes _ => true | _ => false end) as Hb.
  { unfold val_is_bytes. destruct t; simpl in D.
    - destruct D as (->&_&Hf). apply Z.eqb_neq. intros E. rewrite E in Hf. done.
    - destruct D as (?&?&(_&->&_)&_). done.
    - destruct D as (?&(_&->&_)&_). done.
    - destruct D as (_&->&_). done.
    - destruct D as (_&->&_). done.
    - destruct D as (_&->&_). done. }
  rewrite Hb. destruct t; try done. cbn [negb]. destruct D as (_&_&_&Hc). unfold read_bytes. rewrite Hc. cbn [mbind outcome_bind].
  destruct (Z.eqb_spec (len data) STATE_BYTES) as [E|]; [|done]. by destruct (Hn data eq_refl).
Qed.
End window.

(** ** The functions *)
Section functions.
Context (st : store) (p : ProcMem) (W : window st p).
Abbreviation update_at args := (sha_raw_update_at cap stress upd st p args).
Abbreviation final args := (sha_raw_final cap stress fin st p args).

Definition piece (off n : Z) (s : list Z) : list Z := take (Z.to_nat n) (drop (Z.to_nat off) s).
Lemma update_at_run v vs off n ds s : denotes st v (TBytes (stream ds)) → denotes st vs (TString s) → len s < 2 ^ 47 →
  - 2 ^ 47 ≤ off < 2 ^ 47 → - 2 ^ 47 ≤ n < 2 ^ 47 →
  update_at [v; vs; val_int off; val_int n] =
    if (off <? 0) || (n <? 0) || (len s <? off + n) then Ret (val_int (-1), st, p) else state_value cap stress st p (stream (ds ++ [piece off n s])).
Proof using HD.
  intros D Ds Hl Ho Hn. unfold sha_raw_update_at, arg. cbn [length Nat.ltb Nat.leb lookup list_lookup or_undef mbind outcome_bind].
  rewrite !val_int_is_int. cbn [negb orb]. rewrite (load_state st v _ D) by apply stream_length. cbn [mbind outcome_bind].
  destruct (string_denotes _ _ _ Ds) as [-> ->]. cbn [negb mbind outcome_bind]. cbv zeta. rewrite !val_get_int_id by done.
  assert (chk64 (off + n) = Ret (off + n)) as ->.
  { unfold chk64, in_i64. destruct (Z.leb_spec (- 2 ^ 63) (off + n)); [|lia]. destruct (Z.ltb_spec (off + n) (2 ^ 63)); [done|lia]. }
  cbn [mbind outcome_bind]. by rewrite stream_snoc.
Qed.
Lemma update_run v vs ds s : denotes st v (TBytes (stream ds)) → denotes st vs (TString s) → len s < 2 ^ 47 →
  sha_raw_update cap stress upd st p [v; vs] = state_value cap stress st p (stream (ds ++ [s])).
Proof using HD.
  intros D Ds Hl. unfold sha_raw_update, arg. cbn [length Nat.ltb Nat.leb lookup list_lookup or_undef mbind outcome_bind].
  destruct (string_denotes _ _ _ Ds) as [-> ->]. cbn [negb mbind outcome_bind]. rewrite (update_at_run v vs 0 (len s) ds s) by (done || lia).
  destruct (Z.ltb_spec (len s) 0); [lia|]. destruct (Z.ltb_spec (len s) (0 + len s)); [lia|]. cbn [orb]. change (0 <? 0) with false. cbn [orb].
  unfold piece. change (Z.to_nat 0) with 0%nat. by rewrite drop_0, Nat2Z.id, firstn_all.
Qed.
Lemma final_yields v ds : denotes st v (TBytes (stream ds)) → yields (final [v]) st (TString (digest (concat ds))).
Proof using HD W.
  intros D. unfold sha_raw_final, arg. cbn [lookup list_lookup or_undef mbind outcome_bind]. rewrite (load_state st v _ D) by apply stream_length. cbn [mbind outcome_bind].
  unfold digest. rewrite <- dg_pieces. fold (stream ds). destruct (dg_final (stream ds) (stream_length ds)). by apply hex_yields.
Qed.
Lemma digest_yields vs s : denotes st vs (TString s) → yields (sha_raw_digest cap stress ini upd fin st p [vs]) st (TString (digest s)).
Proof using HD W.
  intros Ds. unfold sha_raw_digest, arg. cbn [length Nat.ltb Nat.leb lookup list_lookup or_undef mbind outcome_bind].
  destruct (string_denotes _ _ _ Ds) as [-> ->]. cbn [negb mbind outcome_bind].
  destruct (dg_final (upd ini s)); [apply dg_update, dg_init|]. by apply hex_yields.
Qed.
End functions.
End Streams.

(** A digest taken in pieces is the digest of the message.  [raw_new] is the
    empty stream; [raw_update] adds a string to it, [raw_update_at] a piece of one
    when the piece lies inside it, and answers -1 otherwise; [raw_final] answers,
    as often as it is asked, what [raw_digest] answers for the concatenation of the
    pieces, 64 lowercase hexadecimal digits.  What is no state is refused. *)
Theorem sha_streams cap stress ini upd fin st p : Digest ini upd fin → window st p →
  yields (sha_raw_new cap stress ini st p []) st (TBytes (stream ini upd [])) ∧
  (∀ v vs ds s, denotes st v (TBytes (stream ini upd ds)) → denotes st vs (TString s) → len s < 2 ^ 47 →
     yields (sha_raw_update cap stress upd st p [v; vs]) st (TBytes (stream ini upd (ds ++ [s]))) ∧
     ∀ off n, - 2 ^ 47 ≤ off < 2 ^ 47 → - 2 ^ 47 ≤ n < 2 ^ 47 →
       let r := sha_raw_update_at cap stress upd st p [v; vs; val_int off; val_int n] in
       (0 ≤ off → 0 ≤ n → off + n ≤ len s → yields r st (TBytes (stream ini upd (ds ++ [piece off n s])))) ∧
       (off < 0 ∨ n < 0 ∨ len s < off + n → r = Ret (val_int (-1), st, p))) ∧
  (∀ v vs ds, denotes st v (TBytes (stream ini upd ds)) → denotes st vs (TString (concat ds)) → ∃ hex, length hex = 64%nat ∧
     yields (sha_raw_final cap stress fin st p [v]) st (TString hex) ∧ yields (sha_raw_digest cap stress ini upd fin st p [vs]) st (TString hex)) ∧
  (∀ v t, denotes st v t → (∀ c, t = TBytes c → len c ≠ STATE_BYTES) →
     sha_raw_final cap stress fin st p [v] = Ret (val_int (-1), st, p) ∧
     ∀ vs off n, sha_raw_update_at cap stress upd st p [v; vs; val_int off; val_int n] = Ret (val_int (-1), st, p)).
Proof.
  intros HD W. split; [|split; [|split]].
  - apply state_yields; [done|]. apply (stream_length ini upd fin []).
  - intros v vs ds s D Ds Hl. split.
    + rewrite (update_run cap stress ini upd fin st p v vs ds s) by done. apply state_yields; [done|]. apply (stream_length ini upd fin).
    + intros off n Ho Hn. cbv zeta. rewrite (update_at_run cap stress ini upd fin st p v vs off n ds s) by done.
      destruct (Z.ltb_spec off 0), (Z.ltb_spec n 0), (Z.ltb_spec (len s) (off + n)); cbn [orb]; (split; [intros; first [lia|apply state_yields; [done|apply (stream_length ini upd fin)]]|intros; done || lia]).
  - intros v vs ds D Ds. exists (digest ini upd fin (concat ds)). split; [|split; [by apply final_yields|by apply digest_yields]].
    unfold digest. rewrite hex_text_length. destruct (dg_final (upd ini (concat ds))) as [Hl _]; [apply dg_update, dg_init|]. unfold SHA256_DIGEST_LENGTH in Hl. lia.
  - intros v t D Hn. split.
    + unfold sha_raw_final, arg. cbn [lookup list_lookup or_undef mbind outcome_bind]. by rewrite (load_other st v t D Hn).
    + intros vs off n. unfold sha_raw_update_at, arg. cbn [length Nat.ltb Nat.leb lookup list_lookup or_undef mbind outcome_bind].
      rewrite !val_int_is_int. cbn [negb orb]. by rewrite (load_other st v t D Hn).
Qed.

(** A digest that adds up bytes, in the shape of OpenSSL's. *)
Definition w_sum (c d : list Z) : list Z := (foldl Z.add (default 0 (head c)) d) :: tail c.
Definition w_final (c : list Z) : list Z := replicate 31 0 ++ [default 0 (head c) mod 256].
#[global] Instance w_digest : Digest (replicate 112 0) w_sum w_final.
Proof.
  split.
  - done.
  - intros [|x c] d Hc; [done|]. done.
  - intros c _. split; [done|]. unfold w_final. apply Forall_app. split; [apply Forall_replicate; by split|]. constructor; [|done]. apply Z.mod_pos_bound. lia.
  - intros ds. f_equal. assert (∀ x c, foldl w_sum (x :: c) ds = w_sum (x :: c) (concat ds)) as H; [|exact (H 0 (replicate 111 0))].
    induction ds as [|d ds IH]; intros x c; [done|]. cbn [foldl concat]. unfold w_sum at 2. cbn [head tail default from_option]. rewrite IH. unfold w_sum. cbn [head tail default from_option]. by rewrite foldl_app.
Qed.
Definition w_state : list Z := stream (replicate 112 0) w_sum [[1; 2]; [3]].
Definition w_shastore : store := w_heap {[ 1024 := Live (HeapBytes w_state); 2048 := Live (HeapString [1; 2; 3]) ]}.
Lemma sha_streams_witness : ∃ hex, length hex = 64%nat ∧
  yields (sha_raw_final 4096 0 w_final w_shastore w_winproc [lbox TAG_BYTES 1024]) w_shastore (TString hex) ∧
  yields (sha_raw_digest 4096 0 (replicate 112 0) w_sum w_final w_shastore w_winproc [lbox TAG_STRING 2048]) w_shastore (TString hex).
Proof.
  apply (sha_streams 4096 0 (replicate 112 0) w_sum w_final w_shastore w_winproc w_digest) with (ds := [[1; 2]; [3]]).
  - apply w_heap_window. intros x Hx. rewrite lookup_insert_ne by lia. apply lookup_singleton_ne. lia.
  - unfold denotes. simpl. unfold points_to. rewrite lbox_payload, lbox_tag. split; [apply lbox_range|]. split; [done|]. split; [by eexists|done].
  - by apply w_heap_string.
Defined.
