(* ===== verification/Timer.v ===== *)
(** The [timer] module: src/lib/timer.c.

    Timer structs are malloc'd and shared between the threads that register
    and cancel and the one thread that fires, so the model keeps them in a
    memory of their own ([ts_timers], by address) and a read of a freed one is
    undefined.  The code between a lock and its unlock is one operation; the
    step relation interleaves those operations. *)
From stdpp Require Import base tactics list gmap strings.
From Stdlib Require Import ZArith Lia Sorting.Sorted.
From S2P Require Import Prelude Values Heap Resource Gc GcCorrect GcSpec Tree Alloc Copy Fragment Runq Mailbox Symtab Vm Sched Builtin Cmodule.
Open Scope Z_scope.

(** * State *)
Record Timer := mk_Timer {
  tm_id : Z;
  tm_target : Z;
  tm_interval : Z (** 0 = one-shot *);
  tm_deadline : Z;
  tm_frag : Z (** the malloc'd snapshot of the message *);
  tm_root : Val (** its root *);
  tm_cancel : bool (** cancel_requested *)
}.
Definition with_deadline (d : Z) (t : Timer) : Timer :=
  mk_Timer (tm_id t) (tm_target t) (tm_interval t) d (tm_frag t) (tm_root t) (tm_cancel t).
Definition with_cancel (t : Timer) : Timer :=
  mk_Timer (tm_id t) (tm_target t) (tm_interval t) (tm_deadline t) (tm_frag t) (tm_root t) true.

(** [ts_head]: the list through [next]; [ts_firing]: the timer popped and not
    yet re-armed or freed; [ts_frags]: the snapshots that are allocated. *)
Record TimerState := mk_TimerState {
  ts_timers : gmap Z Timer;
  ts_frags : gset Z;
  ts_head : list Z;
  ts_next_id : Z;
  ts_firing : option Z
}.
Definition timer_state_new : TimerState := mk_TimerState ∅ ∅ [] 0 None.
Definition set_head (l : list Z) (ts : TimerState) : TimerState :=
  mk_TimerState (ts_timers ts) (ts_frags ts) l (ts_next_id ts) (ts_firing ts).
Definition set_firing (o : option Z) (ts : TimerState) : TimerState :=
  mk_TimerState (ts_timers ts) (ts_frags ts) (ts_head ts) (ts_next_id ts) o.
Definition put_timer (a : Z) (t : Timer) (ts : TimerState) : TimerState :=
  mk_TimerState (<[a := t]> (ts_timers ts)) (ts_frags ts) (ts_head ts) (ts_next_id ts) (ts_firing ts).
Definition get_timer (ts : TimerState) (a : Z) : outcome Timer := or_undef (ts_timers ts !! a).

(** * Operations *)

(** [timer_insert]: past every timer that is not later. *)
Fixpoint insert_walk (m : gmap Z Timer) (deadline a : Z) (l : list Z) : outcome (list Z) :=
  match l with
  | [] => Ret [a]
  | b :: l' =>
      t ← or_undef (m !! b);
      if tm_deadline t <=? deadline then r ← insert_walk m deadline a l'; Ret (b :: r) else Ret (a :: l)
  end.
Definition timer_insert (ts : TimerState) (a : Z) : outcome TimerState :=
  t ← get_timer ts a;
  l ← insert_walk (ts_timers ts) (tm_deadline t) a (ts_head ts);
  Ret (set_head l ts).

(** [free(t->frag); free(t)]. *)
Definition free_timer (ts : TimerState) (a : Z) : outcome TimerState :=
  t ← get_timer ts a;
  if bool_decide (tm_frag t ∈ ts_frags ts)
  then Ret (mk_TimerState (delete a (ts_timers ts)) (ts_frags ts ∖ {[tm_frag t]}) (ts_head ts) (ts_next_id ts) (ts_firing ts))
  else Undef.

(** The critical section of [timer_register]; [a] is the calloc'd struct. *)
Definition register_locked (ts : TimerState) (a target interval deadline frag : Z) (root : Val) : outcome TimerState :=
  let id := ts_next_id ts + 1 in
  let t := mk_Timer id target interval deadline frag root false in
  timer_insert (mk_TimerState (<[a := t]> (ts_timers ts)) ({[frag]} ∪ ts_frags ts) (ts_head ts) id (ts_firing ts)) a.
(** [return t->id], after the unlock. *)
Definition register_return (ts : TimerState) (a : Z) : outcome Z := t ← get_timer ts a; Ret (tm_id t).

(** The two critical sections of [timer_fire_expired]. *)
Definition fire_pop (ts : TimerState) (now : Z) : outcome (option Z * TimerState) :=
  match ts_head ts with
  | [] => Ret (None, ts)
  | a :: rest =>
      t ← get_timer ts a;
      if now <? tm_deadline t then Ret (None, ts) else Ret (Some a, set_firing (Some a) (set_head rest ts))
  end.
Definition fire_finish (ts : TimerState) (a now : Z) (target_dead : bool) : outcome TimerState :=
  let ts := set_firing None ts in
  t ← get_timer ts a;
  if (0 <? tm_interval t) && negb target_dead && negb (tm_cancel t) then
    d ← chk64 (now + tm_interval t);
    timer_insert (put_timer a (with_deadline d t) ts) a
  else free_timer ts a.

(** The critical section of [timer.cancel]. *)
Fixpoint find_id (m : gmap Z Timer) (id : Z) (l : list Z) : outcome (option (Z * list Z)) :=
  match l with
  | [] => Ret None
  | b :: l =>
      t ← or_undef (m !! b);
      if tm_id t =? id then Ret (Some (b, l))
      else r ← find_id m id l; Ret (match r with Some (a, l) => Some (a, b :: l) | None => None end)
  end.
Definition cancel_locked (ts : TimerState) (id : Z) : outcome (Z * TimerState) :=
  r ← find_id (ts_timers ts) id (ts_head ts);
  match r with
  | Some (a, l) => ts ← free_timer (set_head l ts) a; Ret (1, ts)
  | None =>
      match ts_firing ts with
      | None => Ret (0, ts)
      | Some a =>
          t ← get_timer ts a;
          if (tm_id t =? id) && (0 <? tm_interval t) then Ret (1, put_timer a (with_cancel t) ts) else Ret (0, ts)
      end
  end.

Definition timer_next_deadline_ms (tso : option TimerState) : outcome Z :=
  match tso with
  | None => Ret (-1)
  | Some ts =>
      match ts_head ts with
      | [] => Ret (-1)
      | a :: _ => t ← get_timer ts a; Ret (tm_deadline t)
      end
  end.

Section Module.
Context (fuel : nat) (clock : nat → Z).
Definition SIZEOF_TIMER : Z := 64.
Definition SIZEOF_TIMER_STATE : Z := 96.

(** The state of this machine's timers; [None] until the first registration. *)
Definition get_timer_state (vm : VM) (tso : option TimerState) : option (TimerState * VM) :=
  match tso with
  | Some ts => Some (ts, vm)
  | None =>
      match malloc (v_store vm) SIZEOF_TIMER_STATE with
      | None => None
      | Some (_, st) => Some (timer_state_new, set_v_store st vm)
      end
  end.

(** [timer_register], called by process [p]: the id, or 0. *)
Definition timer_register (vm : VM) (tso : option TimerState) (p target ms interval : Z) (msg : Val)
    : outcome (Z * VM * option TimerState) :=
  match get_timer_state vm tso with
  | None => Ret (0, vm, tso)
  | Some (ts, vm) =>
      res ← val_has_resource fuel (v_store vm) msg;
      if (res : bool) then Ret (0, on_proc p (set_p_cfunc_die (Some "resource"%string)) vm, Some ts)
      else
        '(need, _) ← frag_calc_size fuel (v_store vm) msg;
        match malloc (v_store vm) (SIZEOF_MSG_FRAGMENT + need) with
        | None => Ret (0, vm, Some ts)
        | Some (frag, st) =>
            '(root, st, _) ← frag_copy fuel st (frag + SIZEOF_MSG_FRAGMENT) msg;
            match malloc st SIZEOF_TIMER with
            | None => Ret (0, set_v_store st vm, Some ts)
            | Some (a, st) =>
                let '(now, vm) := mono_now_ms clock (set_v_store st vm) in
                deadline ← chk64 (now + ms);
                ts ← register_locked ts a target interval deadline frag root;
                let vm := vm_wake_poller vm in
                id ← register_return ts a;
                Ret (id, vm, Some ts)
            end
        end
  end.

(** The delivery between the two critical sections: whether the target is
    dead.  [cur] is [tls_current_proc] of the firing thread. *)
Definition fire_deliver (cur : option Z) (vm : VM) (t : Timer) : outcome (bool * VM) :=
  match vm_proc_lookup vm (tm_target t) with
  | None => Ret (true, vm)
  | Some q =>
      pr ← get_proc vm q;
      if bool_decide (p_state pr = PROC_DEAD) then Ret (true, vm)
      else '(_, vm) ← mbox_deliver fuel cur vm q (tm_root t); Ret (false, vm)
  end.

Fixpoint fire_loop (n : nat) (cur : option Z) (vm : VM) (ts : TimerState) (now : Z) : outcome (VM * TimerState) :=
  '(r, ts) ← fire_pop ts now;
  match r with
  | None => Ret (vm, ts)
  | Some a =>
      match n with
      | O => NoFuel
      | S n =>
          t ← get_timer ts a;
          '(dead, vm) ← fire_deliver cur vm t;
          ts ← fire_finish ts a now dead;
          fire_loop n cur vm ts now
      end
  end.
Definition timer_fire_expired (n : nat) (cur : option Z) (vm : VM) (tso : option TimerState) (now : Z)
    : outcome (VM * option TimerState) :=
  match tso with
  | None => Ret (vm, None)
  | Some ts => '(vm, ts) ← fire_loop n cur vm ts now; Ret (vm, Some ts)
  end.

(** ** The functions of the module *)
Definition timer_c_send_after (vm : VM) (tso : option TimerState) (p : Z) (args : list Val)
    : outcome (Val * VM * option TimerState) :=
  a1 ← arg args 1;
  if negb (val_is_int a1) then Ret (val_int 0, vm, tso)
  else
    let ms := val_get_int a1 in
    let ms := if ms <? 0 then 0 else ms in
    a0 ← arg args 0;
    a2 ← arg args 2;
    '(id, vm, tso) ← timer_register vm tso p (i32 (val_get_pid a0)) ms 0 a2;
    Ret (val_int id, vm, tso).

Definition timer_c_send_interval (vm : VM) (tso : option TimerState) (p : Z) (args : list Val)
    : outcome (Val * VM * option TimerState) :=
  a1 ← arg args 1;
  if negb (val_is_int a1) then Ret (val_int 0, vm, tso)
  else
    let ms := val_get_int a1 in
    let ms := if ms <? 1 then 1 else ms in
    a0 ← arg args 0;
    a2 ← arg args 2;
    '(id, vm, tso) ← timer_register vm tso p (i32 (val_get_pid a0)) ms ms a2;
    Ret (val_int id, vm, tso).

Definition timer_c_cancel (tso : option TimerState) (args : list Val) : outcome (Val * option TimerState) :=
  a0 ← arg args 0;
  if negb (val_is_int a0) then Ret (val_int 0, tso)
  else
    let id := val_get_int a0 in
    if id <=? 0 then Ret (val_int 0, tso)
    else
      match tso with
      | None => Ret (val_int 0, None)
      | Some ts => '(r, ts) ← cancel_locked ts id; Ret (val_int r, Some ts)
      end.
End Module.

(** * The invariant *)

(** The timers of the list, in order. *)
Definition deadline_of (m : gmap Z Timer) (a : Z) : Z := match m !! a with Some t => tm_deadline t | None => 0 end.
Definition held (x : list Z) (ts : TimerState) : list Z := x ++ option_list (ts_firing ts) ++ ts_head ts.

(** [x]: timers that are neither on the list nor in the firing slot, inside a
    critical section. *)
Record timers_with (x : list Z) (ts : TimerState) : Prop := {
  tk_live : ∀ a, is_Some (ts_timers ts !! a) ↔ a ∈ held x ts (** nothing dangling, nothing leaked *);
  tk_once : NoDup (held x ts);
  tk_sorted : StronglySorted Z.le (deadline_of (ts_timers ts) <$> ts_head ts);
  tk_range : ∀ a t, ts_timers ts !! a = Some t → 1 ≤ tm_id t ≤ ts_next_id ts ∧ 0 ≤ tm_interval t < 2 ^ 47;
  tk_ids : ∀ a b t u, ts_timers ts !! a = Some t → ts_timers ts !! b = Some u → tm_id t = tm_id u → a = b;
  tk_frags : ∀ y, y ∈ ts_frags ts ↔ ∃ a t, ts_timers ts !! a = Some t ∧ tm_frag t = y;
  tk_owner : ∀ a b t u, ts_timers ts !! a = Some t → ts_timers ts !! b = Some u → tm_frag t = tm_frag u → a = b;
  tk_flag : ∀ a t, a ∈ ts_head ts → ts_timers ts !! a = Some t → tm_cancel t = false;
  tk_next : 0 ≤ ts_next_id ts
}.
Definition timers_ok : TimerState → Prop := timers_with [].

Lemma timers_ok_new : timers_ok timer_state_new.
Proof.
  split; try done; unfold held; simpl.
  - intros a. rewrite lookup_empty. split; [by intros []|intros H; by apply not_elem_of_nil in H].
  - constructor.
  - constructor.
  - intros x. split; [set_solver|]. intros (a&t&H&_). by rewrite lookup_empty in H.
Qed.

(** ** Insertion *)
Lemma insert_walk_spec m d a l :
  Forall (λ b, is_Some (m !! b)) l →
  ∃ l1 l2, l = l1 ++ l2 ∧ insert_walk m d a l = Ret (l1 ++ a :: l2) ∧
    Forall (λ b, deadline_of m b ≤ d) l1 ∧ match l2 with b :: _ => d < deadline_of m b | [] => True end.
Proof.
  induction 1 as [|b l [t Ht] Hl IH]; [by exists [], []|]. cbn [insert_walk]. rewrite Ht. cbn [mbind outcome_bind or_undef].
  destruct (Z.leb_spec (tm_deadline t) d) as [Hd|Hd].
  - destruct IH as (l1&l2&->&->&H1&H2). exists (b :: l1), l2. split; [done|]. split; [done|]. split; [|done].
    constructor; [|done]. unfold deadline_of. by rewrite Ht.
  - exists [], (b :: l). split; [done|]. split; [done|]. split; [constructor|]. unfold deadline_of. by rewrite Ht.
Qed.

Lemma sorted_insert (f : Z → Z) d a l1 l2 :
  f a = d → StronglySorted Z.le (f <$> l1 ++ l2) → Forall (λ b, f b ≤ d) l1 →
  match l2 with b :: _ => d < f b | [] => True end → StronglySorted Z.le (f <$> l1 ++ a :: l2).
Proof.
  intros Hf Hs H1 H2. induction l1 as [|b l1 IH]; cbn in *.
  - constructor; [done|]. destruct l2 as [|b l2]; [constructor|]. cbn in *. apply StronglySorted_inv in Hs as [_ Hs].
    constructor; [lia|]. eapply Forall_impl; [exact Hs|]. intros x Hx. simpl in Hx. lia.
  - apply StronglySorted_inv in Hs as [Hs Hb]. apply Forall_cons in H1 as [Hbd H1]. constructor; [by apply IH|].
    rewrite fmap_app in *. apply Forall_app in Hb as [Hb1 Hb2]. apply Forall_app. split; [done|]. constructor; [lia|done].
Qed.

Lemma deadline_insert_ne m a b t : a ≠ b → deadline_of (<[a := t]> m) b = deadline_of m b.
Proof. intros. unfold deadline_of. by rewrite lookup_insert_ne. Qed.

Lemma deadline_insert_list m a t (l : list Z) : a ∉ l → deadline_of (<[a := t]> m) <$> l = deadline_of m <$> l.
Proof.
  induction l as [|b l IH]; intros Hn; [done|]. apply not_elem_of_cons in Hn as [Hab Hn].
  cbn. by rewrite deadline_insert_ne, IH.
Qed.

Lemma head_live x ts : timers_with x ts → Forall (λ b, is_Some (ts_timers ts !! b)) (ts_head ts).
Proof. intros H. apply Forall_forall. intros b Hb. apply (tk_live _ _ H). unfold held. rewrite !elem_of_app. auto. Qed.

Lemma loose_live a x ts : timers_with (a :: x) ts → ∃ t, ts_timers ts !! a = Some t.
Proof. intros H. apply (tk_live _ _ H). unfold held. simpl. left. Qed.

(** Moving a timer between the places does not touch the timers. *)
Lemma timers_with_move x ts x' ts' :
  timers_with x ts → ts_timers ts' = ts_timers ts → ts_frags ts' = ts_frags ts → ts_next_id ts' = ts_next_id ts →
  held x' ts' ≡ₚ held x ts → StronglySorted Z.le (deadline_of (ts_timers ts) <$> ts_head ts') →
  (∀ a t, a ∈ ts_head ts' → ts_timers ts !! a = Some t → tm_cancel t = false) →
  timers_with x' ts'.
Proof.
  intros [L O S R I F W C N] Et Ef En Hp Hs Hc. split; rewrite ?Et, ?Ef, ?En; try done.
  - intros a. rewrite L. by rewrite Hp.
  - by rewrite Hp.
Qed.

Lemma timer_insert_ok a ts t :
  timers_with [a] ts → ts_timers ts !! a = Some t → tm_cancel t = false →
  ∃ l1 l2, ts_head ts = l1 ++ l2 ∧ timer_insert ts a = Ret (set_head (l1 ++ a :: l2) ts) ∧
    Forall (λ b, deadline_of (ts_timers ts) b ≤ tm_deadline t) l1 ∧
    match l2 with b :: _ => tm_deadline t < deadline_of (ts_timers ts) b | [] => True end ∧
    timers_ok (set_head (l1 ++ a :: l2) ts).
Proof.
  intros H Ht Hc. unfold timer_insert, get_timer. rewrite Ht. cbn [mbind outcome_bind or_undef].
  destruct (insert_walk_spec (ts_timers ts) (tm_deadline t) a (ts_head ts) (head_live _ _ H)) as (l1&l2&E&->&H1&H2).
  exists l1, l2. split; [done|]. split; [done|]. split; [done|]. split; [done|].
  apply (timers_with_move [a] ts); try done; simpl.
  - unfold held. simpl. rewrite E. by rewrite <- !Permutation_middle.
  - apply sorted_insert with (tm_deadline t); [by unfold deadline_of; rewrite Ht|rewrite <- E; apply H|done|done].
  - intros b u Hb Hu. apply elem_of_app in Hb. rewrite elem_of_cons in Hb.
    destruct (decide (b = a)) as [->|Hne]; [congruence|]. eapply (tk_flag _ _ H); [|done]. rewrite E. apply elem_of_app. naive_solver.
Qed.

Lemma free_timer_ok a ts t :
  timers_with [a] ts → ts_timers ts !! a = Some t →
  ∃ ts', free_timer ts a = Ret ts' ∧ timers_ok ts' ∧ ts_timers ts' = delete a (ts_timers ts) ∧
    ts_head ts' = ts_head ts ∧ ts_next_id ts' = ts_next_id ts ∧ ts_firing ts' = ts_firing ts.
Proof.
  intros H Ht. unfold free_timer, get_timer. rewrite Ht. cbn [mbind outcome_bind or_undef].
  rewrite bool_decide_eq_true_2 by (apply (tk_frags _ _ H); eauto). eexists. split; [done|].
  destruct H as [L O S R I F W C N]. pose proof O as O'. unfold held in O'. apply NoDup_cons in O' as [Ha O'].
  split; [|done]. split; simpl.
  - intros b. unfold held. simpl. destruct (decide (b = a)) as [->|Hne].
    + rewrite lookup_delete_eq. split; [by intros []|done].
    + rewrite lookup_delete_ne by done. rewrite L. unfold held. simpl. rewrite elem_of_cons. naive_solver.
  - done.
  - replace (deadline_of (delete a (ts_timers ts)) <$> ts_head ts) with (deadline_of (ts_timers ts) <$> ts_head ts); [done|].
    apply list_fmap_ext. intros i b Hb. unfold deadline_of. rewrite lookup_delete_ne; [done|].
    intros <-. apply Ha. apply elem_of_app. right. by eapply list_elem_of_lookup_2.
  - intros b u [_ Hu]%lookup_delete_Some. by apply (R b u).
  - intros b c u w [_ Hu]%lookup_delete_Some [_ Hw]%lookup_delete_Some. by apply I.
  - intros y. rewrite elem_of_difference, elem_of_singleton, F. split.
    + intros [(b&u&Hu&<-) Hne]. exists b, u. split; [|done]. apply lookup_delete_Some. split; [|done]. intros ->. congruence.
    + intros (b&u&[Hne Hu]%lookup_delete_Some&<-). split; [eauto|]. intros Hf. apply Hne. by apply (W a b t u).
  - intros b c u w [_ Hu]%lookup_delete_Some [_ Hw]%lookup_delete_Some. by apply W.
  - intros b u Hb [_ Hu]%lookup_delete_Some. by apply (C b u).
  - done.
Qed.

(** A timer off the list may be changed, but for its id and its snapshot. *)
Lemma put_timer_ok x ts a t t' :
  timers_with x ts → a ∉ ts_head ts → ts_timers ts !! a = Some t →
  tm_id t' = tm_id t → tm_frag t' = tm_frag t → tm_interval t' = tm_interval t → timers_with x (put_timer a t' ts).
Proof.
  intros [L O S R I F W C N] Ha Ht Hi Hf Hv.
  assert (Hl : ∀ b u, <[a := t']> (ts_timers ts) !! b = Some u →
    ∃ u', ts_timers ts !! b = Some u' ∧ tm_id u = tm_id u' ∧ tm_frag u = tm_frag u' ∧ tm_interval u = tm_interval u').
  { intros b u [[-> <-]|[_ Hu]]%lookup_insert_Some; eauto. }
  split; simpl; try done.
  - intros b. unfold held in *. simpl. rewrite <- L. destruct (decide (b = a)) as [->|Hne].
    + rewrite lookup_insert_eq, Ht. split; intros _; eauto.
    + by rewrite lookup_insert_ne.
  - by rewrite deadline_insert_list.
  - intros b u (u'&Hu&->&_&->)%Hl. by apply (R b).
  - intros b c u w (u'&Hu&->&_)%Hl (w'&Hw&->&_)%Hl. by apply I.
  - intros y. rewrite F. split.
    + intros (b&u&Hu&<-). destruct (decide (b = a)) as [->|Hne].
      * exists a, t'. rewrite lookup_insert_eq. split; [done|]. congruence.
      * exists b, u. by rewrite lookup_insert_ne.
    + intros (b&u&(u'&Hu&_&E&_)%Hl&<-). eauto.
  - intros b c u w (u'&Hu&_&->&_)%Hl (w'&Hw&_&->&_)%Hl. by apply W.
  - intros b u Hb. rewrite lookup_insert_ne; [by apply C|]. by intros ->.
Qed.

Lemma loose_off_list a x ts : timers_with (a :: x) ts → a ∉ ts_head ts.
Proof. intros H Ha. pose proof (tk_once _ _ H) as O. unfold held in O. simpl in O. apply NoDup_cons in O as [O _].
  apply O. rewrite !elem_of_app. auto. Qed.

(** A new timer, before it is put on the list. *)
Lemma fresh_loose ts a target interval deadline frag root :
  timers_ok ts → ts_timers ts !! a = None → frag ∉ ts_frags ts → 0 ≤ interval < 2 ^ 47 →
  let t := mk_Timer (ts_next_id ts + 1) target interval deadline frag root false in
  timers_with [a] (mk_TimerState (<[a := t]> (ts_timers ts)) ({[frag]} ∪ ts_frags ts) (ts_head ts) (ts_next_id ts + 1) (ts_firing ts)).
Proof.
  intros H Ha Hfr Hi t. destruct H as [L O S R I F W C N]. assert (Hn : a ∉ held [] ts) by (rewrite <- L, Ha; by intros []).
    assert (Hl : ∀ b u, <[a := t]> (ts_timers ts) !! b = Some u → b = a ∧ u = t ∨ b ≠ a ∧ ts_timers ts !! b = Some u).
    { intros b u [[-> <-]|[? ?]]%lookup_insert_Some; naive_solver. }
    split; simpl; try lia.
    - intros b. unfold held. simpl. rewrite elem_of_cons. destruct (decide (b = a)) as [->|Hne].
      + rewrite lookup_insert_eq. split; [by left|eauto].
      + rewrite lookup_insert_ne by done. rewrite L. unfold held. simpl. naive_solver.
    - unfold held. simpl. apply NoDup_cons. by split.
    - rewrite deadline_insert_list; [done|]. intros Hh. apply Hn. unfold held. simpl. rewrite elem_of_app. auto.
    - intros b u [[-> ->]|[_ Hu]]%Hl; [simpl; lia|]. destruct (R b u Hu). lia.
    - intros b c u w [[-> ->]|[? Hu]]%Hl [[-> ->]|[? Hw]]%Hl; try done; simpl; intros E.
      + destruct (R c w Hw). lia.
      + destruct (R b u Hu). lia.
      + by apply (I b c u w).
    - intros y. rewrite elem_of_union, elem_of_singleton, F. split.
      + intros [->|(b&u&Hu&<-)]; [exists a, t; by rewrite lookup_insert_eq|]. exists b, u.
        rewrite lookup_insert_ne; [done|]. intros ->. congruence.
      + intros (b&u&[[-> ->]|[_ Hu]]%Hl&<-); [by left|]. right. eauto.
    - intros b c u w [[-> ->]|[? Hu]]%Hl [[-> ->]|[? Hw]]%Hl; try done; simpl; intros E.
      + destruct Hfr. apply F. eauto.
      + destruct Hfr. apply F. eauto.
      + by apply (W b c u w).
    - intros b u Hb [[-> ->]|[_ Hu]]%Hl; [done|]. by apply (C b u).
Qed.

Lemma register_ok ts a target interval deadline frag root :
  timers_ok ts → ts_timers ts !! a = None → frag ∉ ts_frags ts → 0 ≤ interval < 2 ^ 47 →
  let t := mk_Timer (ts_next_id ts + 1) target interval deadline frag root false in
  ∃ ts', register_locked ts a target interval deadline frag root = Ret ts' ∧ timers_ok ts' ∧
    ts_timers ts' = <[a := t]> (ts_timers ts) ∧ ts_head ts' ≡ₚ a :: ts_head ts ∧
    ts_next_id ts' = ts_next_id ts + 1 ∧ ts_firing ts' = ts_firing ts.
Proof.
  intros H Ha Hfr Hi t. unfold register_locked. fold t.
  pose proof (fresh_loose ts a target interval deadline frag root H Ha Hfr Hi : timers_with [a] _) as H1. fold t in H1.
  destruct (timer_insert_ok a _ t H1) as (l1&l2&E&->&_&_&H2); [simpl; by rewrite lookup_insert_eq|done|].
  eexists. split; [done|]. split; [done|]. simpl in *. split; [done|]. split; [|done]. rewrite E. by rewrite Permutation_middle.
Qed.

Lemma fire_pop_ok ts now :
  timers_ok ts → ts_firing ts = None →
  match ts_head ts with
  | a :: rest =>
      if now <? deadline_of (ts_timers ts) a then fire_pop ts now = Ret (None, ts)
      else fire_pop ts now = Ret (Some a, set_firing (Some a) (set_head rest ts)) ∧
           timers_ok (set_firing (Some a) (set_head rest ts))
  | [] => fire_pop ts now = Ret (None, ts)
  end.
Proof.
  intros H Hn. unfold fire_pop. destruct (ts_head ts) as [|a rest] eqn:E; [done|].
  pose proof (head_live _ _ H) as Hl. rewrite E in Hl. apply Forall_cons in Hl as [[t Ht] _].
  unfold deadline_of, get_timer. rewrite Ht. cbn [mbind outcome_bind or_undef].
  destruct (now <? tm_deadline t); [done|]. split; [done|].
  apply (timers_with_move [] ts); try done; simpl.
  - unfold held. simpl. by rewrite Hn, E.
  - pose proof (tk_sorted _ _ H) as S. rewrite E in S. by apply StronglySorted_inv in S as [S _].
  - intros b u Hb. apply (tk_flag _ _ H). rewrite E. by right.
Qed.

Lemma firing_loose ts a : timers_ok ts → ts_firing ts = Some a → timers_with [a] (set_firing None ts).
Proof.
  intros H Hf. apply (timers_with_move [] ts); try done; simpl; [|apply H|apply H].
  unfold held. simpl. by rewrite Hf.
Qed.

Definition rearms (t : Timer) (dead : bool) : bool := (0 <? tm_interval t) && negb dead && negb (tm_cancel t).

Lemma fire_finish_ok ts a t now dead :
  timers_ok ts → ts_firing ts = Some a → ts_timers ts !! a = Some t → 0 ≤ now < 2 ^ 62 →
  ∃ ts', fire_finish ts a now dead = Ret ts' ∧ timers_ok ts' ∧ ts_firing ts' = None ∧ ts_next_id ts' = ts_next_id ts ∧
    if rearms t dead then
      ∃ l1 l2, ts_head ts = l1 ++ l2 ∧ ts_head ts' = l1 ++ a :: l2 ∧
        Forall (λ b, deadline_of (ts_timers ts) b ≤ now + tm_interval t) l1 ∧
        match l2 with b :: _ => now + tm_interval t < deadline_of (ts_timers ts) b | [] => True end ∧
        ts_timers ts' = <[a := with_deadline (now + tm_interval t) t]> (ts_timers ts)
    else ts_head ts' = ts_head ts ∧ ts_timers ts' = delete a (ts_timers ts).
Proof.
  intros H Hf Ht Hnow. pose proof (firing_loose ts a H Hf) as H1. unfold fire_finish. cbv zeta.
  unfold get_timer at 1. simpl. rewrite Ht. cbn [mbind outcome_bind or_undef]. fold (rearms t dead).
  destruct (tk_range _ _ H a t Ht) as [_ Hi].
  destruct (rearms t dead) eqn:Er.
  - unfold chk64, in_i64. destruct (Z.leb_spec (- 2 ^ 63) (now + tm_interval t)); [|lia].
    destruct (Z.ltb_spec (now + tm_interval t) (2 ^ 63)); [|lia]. cbn [andb mbind outcome_bind].
    set (t' := with_deadline (now + tm_interval t) t).
    assert (Hput : timers_with [a] (put_timer a t' (set_firing None ts))).
    { apply (put_timer_ok _ _ a t); [done| |done..]. by apply (loose_off_list a []). }
    assert (Hoff : a ∉ ts_head ts) by by apply (loose_off_list a [] (set_firing None ts)).
    destruct (timer_insert_ok a _ t' Hput) as (l1&l2&E&->&Hl1&Hl2&Hok); [simpl; by rewrite lookup_insert_eq| |].
    { unfold rearms in Er. simpl. destruct (tm_cancel t); [|done]. by rewrite andb_false_r in Er. }
    eexists. split; [done|]. split; [done|]. split; [done|]. split; [done|]. exists l1, l2. simpl in *.
    split; [done|]. split; [done|]. rewrite E in Hoff. apply not_elem_of_app in Hoff as [Ho1 Ho2].
    split; [|split; [|done]].
    + apply Forall_forall. intros b Hb. rewrite Forall_forall in Hl1. specialize (Hl1 b Hb).
      rewrite deadline_insert_ne in Hl1; [done|]. by intros ->.
    + destruct l2 as [|b l2]; [done|]. rewrite deadline_insert_ne in Hl2; [done|]. intros ->. apply Ho2. left.
  - destruct (free_timer_ok a _ t H1 Ht) as (ts'&->&Hok&E1&E2&E3&E4). exists ts'. simpl in *. done.
Qed.

(** ** Cancelling *)
Lemma find_id_spec m id l :
  Forall (λ b, is_Some (m !! b)) l →
  (find_id m id l = Ret None ∧ ∀ b t, b ∈ l → m !! b = Some t → tm_id t ≠ id) ∨
  ∃ l1 a l2 t, l = l1 ++ a :: l2 ∧ find_id m id l = Ret (Some (a, l1 ++ l2)) ∧ m !! a = Some t ∧ tm_id t = id.
Proof.
  induction 1 as [|b l [t Ht] Hl IH]; [left; split; [done|]; intros ? ? Hb; by apply not_elem_of_nil in Hb|].
  cbn [find_id]. rewrite Ht. cbn [mbind outcome_bind or_undef].
  destruct (Z.eqb_spec (tm_id t) id) as [<-|Hne]; [right; by exists [], b, l, t|].
  destruct IH as [[-> Hn]|(l1&a&l2&u&->&->&Hu&Hi)]; cbn [mbind outcome_bind].
  - left. split; [done|]. intros c u [->|Hc]%elem_of_cons Hu; [congruence|by eapply Hn].
  - right. by exists (b :: l1), a, l2, u.
Qed.

(** The timer [id] is gone, or in its last delivery. *)
Definition settled (id : Z) (ts : TimerState) : Prop :=
  ∀ a t, ts_timers ts !! a = Some t → tm_id t = id → ts_firing ts = Some a ∧ (tm_interval t = 0 ∨ tm_cancel t = true).

Lemma held_cases a ts : a ∈ held [] ts → ts_firing ts = Some a ∨ a ∈ ts_head ts.
Proof. unfold held. simpl. destruct (ts_firing ts) as [f|]; simpl; [|auto]. rewrite elem_of_cons. naive_solver. Qed.

Lemma sorted_remove (l1 l2 : list Z) x : StronglySorted Z.le (l1 ++ x :: l2) → StronglySorted Z.le (l1 ++ l2).
Proof.
  induction l1 as [|y l1 IH]; simpl; intros H; apply StronglySorted_inv in H as [H Hf]; [done|].
  constructor; [by apply IH|]. rewrite Forall_app, Forall_cons in Hf. apply Forall_app. naive_solver.
Qed.

(** What [cancel_locked] answers and leaves. *)
Definition cancelled (id : Z) (ts : TimerState) (r : Z) (ts' : TimerState) : Prop :=
  timers_ok ts' ∧ ts_next_id ts' = ts_next_id ts ∧ ts_firing ts' = ts_firing ts ∧ settled id ts' ∧
  (∀ b u, ts_timers ts' !! b = Some u → ∃ u', ts_timers ts !! b = Some u' ∧ (u = u' ∨ u = with_cancel u')) ∧
  (r = 1 ∧ (∃ a t, ts_timers ts !! a = Some t ∧ tm_id t = id ∧ (a ∈ ts_head ts ∨ 0 < tm_interval t)) ∨
   r = 0 ∧ settled id ts ∧ ts' = ts).

Lemma cancelled_none ts id : timers_ok ts → settled id ts → cancelled id ts 0 ts.
Proof. intros H Hs. do 4 (split; [done|]). split; [eauto|]. by right. Qed.

Lemma cancel_pending ts id l1 a l2 t :
  timers_ok ts → ts_head ts = l1 ++ a :: l2 → ts_timers ts !! a = Some t → tm_id t = id →
  ∃ ts', free_timer (set_head (l1 ++ l2) ts) a = Ret ts' ∧ cancelled id ts 1 ts'.
Proof.
  intros H E Ht Hi.
  assert (Hl : timers_with [a] (set_head (l1 ++ l2) ts)).
  { apply (timers_with_move [] ts); try done; simpl.
    - unfold held. simpl. rewrite E. by rewrite <- !Permutation_middle.
    - pose proof (tk_sorted _ _ H) as S. rewrite E in S. rewrite fmap_app in *. by eapply sorted_remove.
    - intros b u Hb. apply (tk_flag _ _ H). rewrite E. set_solver. }
  destruct (free_timer_ok a _ t Hl Ht) as (ts'&->&Hok&E1&E2&E3&E4). simpl in *.
  exists ts'. split; [done|]. split; [done|]. split; [done|]. split; [done|]. rewrite E1. split; [|split].
  - intros b u Hu Hid. rewrite E1 in Hu. apply lookup_delete_Some in Hu as [Hne Hu]. destruct Hne.
    apply (tk_ids _ _ H a b t u); congruence.
  - intros b u [_ Hu]%lookup_delete_Some. eauto.
  - left. split; [done|]. exists a, t. split; [done|]. split; [done|]. left. rewrite E. set_solver.
Qed.

Lemma cancel_firing ts id f t :
  timers_ok ts → ts_firing ts = Some f → ts_timers ts !! f = Some t → tm_id t = id → 0 < tm_interval t →
  cancelled id ts 1 (put_timer f (with_cancel t) ts).
Proof.
  intros H Ef Ht Hi Hv.
  assert (f ∉ ts_head ts) as Hoff.
  { pose proof (tk_once _ _ H) as O. unfold held in O. rewrite Ef in O. simpl in O. by apply NoDup_cons in O as [O _]. }
  split; [by apply (put_timer_ok _ _ f t)|]. split; [done|]. split; [done|].
  split; [|split; [|left; split; [done|]; eauto 10]].
  2:{ simpl. intros b u [[-> <-]|[_ Hu]]%lookup_insert_Some; eauto. }
  intros b u Hu Hid. simpl in *. apply lookup_insert_Some in Hu as [[-> <-]|[Hne Hu]]; [by auto|].
  destruct Hne. apply (tk_ids _ _ H f b t u); congruence.
Qed.

Lemma cancel_ok ts id : timers_ok ts → ∃ r ts', cancel_locked ts id = Ret (r, ts') ∧ cancelled id ts r ts'.
Proof.
  intros H. unfold cancel_locked.
  destruct (find_id_spec (ts_timers ts) id (ts_head ts) (head_live _ _ H)) as [[-> Hn]|(l1&a&l2&t&E&->&Ht&Hi)];
    cbn [mbind outcome_bind].
  2:{ destruct (cancel_pending ts id l1 a l2 t) as (ts'&->&Hc); try done. cbn [mbind outcome_bind]. eauto. }
  assert (Hfir : ∀ a t, ts_timers ts !! a = Some t → tm_id t = id → ts_firing ts = Some a).
  { intros a t Ht Hi. destruct (held_cases a ts) as [?|Ha]; [apply (tk_live _ _ H); eauto|done|]. by destruct (Hn a t Ha Ht). }
  destruct (ts_firing ts) as [f|] eqn:Ef.
  2:{ exists 0, ts. split; [done|]. apply cancelled_none; [done|]. intros a t Ht Hi. by specialize (Hfir a t Ht Hi). }
  assert (f ∈ held [] ts) as Hlive by (unfold held; rewrite Ef; simpl; left).
  apply (tk_live _ _ H) in Hlive as [t Ht]. unfold get_timer. rewrite Ht. cbn [mbind outcome_bind or_undef].
  destruct (Z.eqb_spec (tm_id t) id) as [Hi|Hi], (Z.ltb_spec 0 (tm_interval t)) as [Hv|Hv]; cbn [andb].
  1:{ exists 1. eexists. split; [done|]. by apply cancel_firing. }
  all: exists 0, ts; split; [done|]; apply cancelled_none; [done|]; intros b u Hu Hid; rewrite Ef;
    specialize (Hfir b u Hu Hid); assert (b = f) as -> by congruence; assert (u = t) as -> by congruence; try congruence.
  split; [done|]. destruct (tk_range _ _ H f t Ht). left. lia.
Qed.

(** * Interleavings *)

(** One critical section at a time; the label is the timer popped for
    delivery.  A fresh struct and a fresh snapshot are what [malloc] returns;
    only one thread fires. *)
Inductive tstep : TimerState → option Z → TimerState → Prop :=
| step_register ts a target interval deadline frag root ts' :
    ts_timers ts !! a = None → frag ∉ ts_frags ts → 0 ≤ interval < 2 ^ 47 →
    register_locked ts a target interval deadline frag root = Ret ts' → tstep ts None ts'
| step_pop ts now a t ts' :
    ts_firing ts = None → fire_pop ts now = Ret (Some a, ts') → ts_timers ts' !! a = Some t → tstep ts (Some (tm_id t)) ts'
| step_finish ts a now dead ts' :
    ts_firing ts = Some a → 0 ≤ now < 2 ^ 62 → fire_finish ts a now dead = Ret ts' → tstep ts None ts'
| step_cancel ts id r ts' : cancel_locked ts id = Ret (r, ts') → tstep ts None ts'.

Inductive trun : TimerState → list (option Z) → TimerState → Prop :=
| run_nil ts : trun ts [] ts
| run_cons ts l ts1 tr ts2 : tstep ts l ts1 → trun ts1 tr ts2 → trun ts (l :: tr) ts2.

Lemma fire_pop_inv ts now a ts' :
  timers_ok ts → ts_firing ts = None → fire_pop ts now = Ret (Some a, ts') →
  ∃ rest, ts_head ts = a :: rest ∧ ts' = set_firing (Some a) (set_head rest ts) ∧ timers_ok ts'.
Proof.
  intros H Hf E. pose proof (fire_pop_ok ts now H Hf) as Hp. destruct (ts_head ts) as [|b rest]; [congruence|].
  destruct (now <? deadline_of (ts_timers ts) b); [congruence|]. destruct Hp as [Hp Hok]. rewrite Hp in E.
  injection E as -> <-. eauto.
Qed.

Lemma firing_timer ts a : timers_ok ts → ts_firing ts = Some a → ∃ t, ts_timers ts !! a = Some t.
Proof. intros H Hf. apply (tk_live _ _ H). unfold held. rewrite Hf. simpl. left. Qed.

Lemma tstep_ok ts l ts' : timers_ok ts → tstep ts l ts' → timers_ok ts'.
Proof.
  intros H. destruct 1 as [ts a target interval deadline frag root ts' Ha Hfr Hi E|ts now a t ts' Hf E Ht|ts a now dead ts' Hf Hn E|ts id r ts' E].
  - destruct (register_ok ts a target interval deadline frag root H Ha Hfr Hi) as (ts1&E1&Hok&_). congruence.
  - destruct (fire_pop_inv ts now a ts' H Hf E) as (_&_&_&Hok). done.
  - destruct (firing_timer ts a H Hf) as [t Ht].
    destruct (fire_finish_ok ts a t now dead H Hf Ht Hn) as (ts1&E1&Hok&_). congruence.
  - destruct (cancel_ok ts id H) as (r1&ts1&E1&Hok&_). congruence.
Qed.

Lemma trun_ok ts tr ts' : timers_ok ts → trun ts tr ts' → timers_ok ts'.
Proof. intros H Hr. induction Hr; [done|]. eauto using tstep_ok. Qed.

Lemma settled_step id ts l ts' :
  timers_ok ts → settled id ts → id ≤ ts_next_id ts → tstep ts l ts' →
  l ≠ Some id ∧ settled id ts' ∧ id ≤ ts_next_id ts'.
Proof.
  intros H Hs Hid. destruct 1 as [ts a target interval deadline frag root ts' Ha Hfr Hi E|ts now a t ts' Hf E Ht|ts a now dead ts' Hf Hn E|ts i r ts' E].
  - destruct (register_ok ts a target interval deadline frag root H Ha Hfr Hi) as (ts1&E1&Hok&Em&_&En&Ef).
    rewrite E in E1. injection E1 as ->. split; [done|]. split; [|lia]. intros b u Hu Hi'. rewrite Em in Hu. rewrite Ef.
    apply lookup_insert_Some in Hu as [[_ <-]|[_ Hu]]; [simpl in Hi'; lia|]. by apply Hs.
  - destruct (fire_pop_inv ts now a ts' H Hf E) as (rest&Eh&->&Hok). simpl in *.
    assert (Hno : ∀ b u, ts_timers ts !! b = Some u → tm_id u ≠ id).
    { intros b u Hu Hi. destruct (Hs b u Hu Hi). congruence. }
    split; [intros [= Hi]; by apply (Hno a t)|]. split; [|done]. intros b u Hu Hi. by destruct (Hno b u).
  - destruct (firing_timer ts a H Hf) as [t Ht].
    destruct (fire_finish_ok ts a t now dead H Hf Ht Hn) as (ts1&E1&Hok&Ef&En&Hr). rewrite E in E1. injection E1 as ->.
    split; [done|]. split; [|lia]. intros b u Hu Hi. exfalso.
    assert (Hat : ∀ u', ts_timers ts !! b = Some u' → tm_id u' = id → b = a ∧ u' = t ∧ rearms t dead = false).
    { intros u' Hu' Hi'. destruct (Hs b u' Hu' Hi') as [Hb Hc]. assert (b = a) as -> by congruence.
      assert (u' = t) as -> by congruence. split; [done|]. split; [done|]. unfold rearms.
      destruct Hc as [->| ->]; [done|by rewrite andb_false_r]. }
    destruct (rearms t dead).
    + destruct Hr as (l1&l2&_&_&_&_&Em). rewrite Em in Hu. apply lookup_insert_Some in Hu as [[<- <-]|[Hne Hu]].
      * by destruct (Hat t Ht Hi) as (_&_&?).
      * by destruct (Hat u Hu Hi) as (?&_).
    + destruct Hr as [_ Em]. rewrite Em in Hu. apply lookup_delete_Some in Hu as [Hne Hu]. by destruct (Hat u Hu Hi).
  - destruct (cancel_ok ts i H) as (r1&ts1&E1&Hok&En&Ef&_&Hm&_). rewrite E in E1. injection E1 as -> ->.
    split; [done|]. split; [|lia]. intros b u Hu Hi. rewrite Ef. destruct (Hm b u Hu) as (u'&Hu'&Hc).
    destruct (Hs b u' Hu') as [Hb Hx]; [destruct Hc as [->| ->]; done|]. split; [done|]. destruct Hc as [->| ->]; [done|by right].
Qed.

Lemma settled_run id ts tr ts' :
  timers_ok ts → settled id ts → id ≤ ts_next_id ts → trun ts tr ts' → Some id ∉ tr.
Proof.
  intros H Hs Hi Hr. induction Hr as [|ts l ts1 tr ts2 Hst Hr IH]; [apply not_elem_of_nil|].
  destruct (settled_step id ts l ts1 H Hs Hi Hst) as (Hl&Hs1&Hi1). apply not_elem_of_cons. split; [congruence|].
  apply IH; [by eapply tstep_ok|done..].
Qed.

(** * Firing, on the list of timers *)
Fixpoint tinsert (t : Timer) (l : list Timer) : list Timer :=
  match l with
  | [] => [t]
  | u :: l' => if tm_deadline u <=? tm_deadline t then u :: tinsert t l' else t :: l
  end.

(** Deliver the due timers in order; a periodic one whose target lives is
    armed again, [interval] from now. *)
Fixpoint fire_all (fuel : nat) (cur : option Z) (now : Z) (due : list Timer) (vm : VM) (l : list Timer) : outcome (VM * list Timer) :=
  match due with
  | [] => Ret (vm, l)
  | t :: due =>
      '(dead, vm) ← fire_deliver fuel cur vm t;
      fire_all fuel cur now due vm
        (if (0 <? tm_interval t) && negb dead then tinsert (with_deadline (now + tm_interval t) t) l else l)
  end.

Definition view (ts : TimerState) : list Timer := omap (λ a, ts_timers ts !! a) (ts_head ts).

Lemma tinsert_app t l1 l2 :
  Forall (λ u, tm_deadline u ≤ tm_deadline t) l1 → tinsert t (l1 ++ l2) = l1 ++ tinsert t l2.
Proof. induction 1 as [|u l Hu Hl IH]; [done|]. simpl. destruct (Z.leb_spec (tm_deadline u) (tm_deadline t)); [|lia]. by rewrite IH. Qed.

Lemma tinsert_here t l : match l with u :: _ => tm_deadline t < tm_deadline u | [] => True end → tinsert t l = t :: l.
Proof. destruct l as [|u l]; [done|]. simpl. intros H. by destruct (Z.leb_spec (tm_deadline u) (tm_deadline t)); [lia|]. Qed.

Lemma tinsert_later now t l :
  now < tm_deadline t → Forall (λ u, now < tm_deadline u) l → Forall (λ u, now < tm_deadline u) (tinsert t l).
Proof.
  intros Ht. induction 1 as [|u l Hu Hl IH]; simpl; [by constructor|]. destruct (_ <=? _); by repeat constructor.
Qed.

Lemma omap_same (m m' : gmap Z Timer) (l : list Z) :
  (∀ a, a ∈ l → m' !! a = m !! a) → omap (λ a, m' !! a) l = omap (λ a, m !! a) l.
Proof.
  induction l as [|a l IH]; intros H; [done|]. cbn. rewrite (H a) by left. rewrite IH; [done|]. intros b Hb. apply H. by right.
Qed.

(** Re-arming is insertion into the list of timers. *)
Lemma view_rearm (m : gmap Z Timer) a t l1 l2 :
  Forall (λ b, is_Some (m !! b)) (l1 ++ l2) → a ∉ l1 ++ l2 →
  Forall (λ b, deadline_of m b ≤ tm_deadline t) l1 →
  match l2 with b :: _ => tm_deadline t < deadline_of m b | [] => True end →
  omap (λ b, <[a := t]> m !! b) (l1 ++ a :: l2) = tinsert t (omap (λ b, m !! b) (l1 ++ l2)).
Proof.
  intros Hl Ha H1 H2. apply not_elem_of_app in Ha as [Ha1 Ha2]. apply Forall_app in Hl as [Hl1 Hl2].
  rewrite !omap_app. rewrite tinsert_app.
  - rewrite (omap_same m) by (intros b Hb; apply lookup_insert_ne; by intros ->). f_equal.
    cbn. rewrite lookup_insert_eq. rewrite (omap_same m) by (intros b Hb; apply lookup_insert_ne; by intros ->).
    symmetry. apply tinsert_here. destruct l2 as [|b l2]; [done|]. apply Forall_cons in Hl2 as [[u Hu] _]. cbn. rewrite Hu.
    unfold deadline_of in H2. by rewrite Hu in H2.
  - apply Forall_forall. intros u (b&Hb&Hu)%list_elem_of_omap. rewrite Forall_forall in H1. specialize (H1 b Hb).
    unfold deadline_of in H1. by rewrite Hu in H1.
Qed.

Lemma view_head ts t l :
  timers_ok ts → view ts = t :: l →
  ∃ a rest, ts_head ts = a :: rest ∧ ts_timers ts !! a = Some t ∧ omap (λ a, ts_timers ts !! a) rest = l.
Proof.
  intros H. unfold view. pose proof (head_live _ _ H) as Hl. destruct (ts_head ts) as [|a rest]; [done|].
  apply Forall_cons in Hl as [[u Hu] _]. cbn. rewrite Hu. intros [= -> <-]. eauto.
Qed.

Definition fired (now : Z) (spec : outcome (VM * list Timer)) (code : outcome (VM * TimerState)) : Prop :=
  match spec with
  | Ret (vm', l') => ∃ ts', code = Ret (vm', ts') ∧ timers_ok ts' ∧ ts_firing ts' = None ∧ view ts' = l' ∧
      Forall (λ t, now < tm_deadline t) l'
  | Abort w => code = Abort w
  | Undef => code = Undef
  | NoFuel => code = NoFuel
  end.

(** One round of the loop on a due timer. *)
Lemma fire_round ts now t l dead :
  timers_ok ts → ts_firing ts = None → 0 ≤ now < 2 ^ 62 → view ts = t :: l → tm_deadline t ≤ now →
  ∃ a ts1 ts2, fire_pop ts now = Ret (Some a, ts1) ∧ get_timer ts1 a = Ret t ∧ fire_finish ts1 a now dead = Ret ts2 ∧
    timers_ok ts2 ∧ ts_firing ts2 = None ∧
    view ts2 = if (0 <? tm_interval t) && negb dead then tinsert (with_deadline (now + tm_interval t) t) l else l.
Proof.
  intros H Hf Hn Hv Hd. destruct (view_head ts t l H Hv) as (a&rest&Eh&Ha&Hrest).
  pose proof (fire_pop_ok ts now H Hf) as Hp. rewrite Eh in Hp. unfold deadline_of in Hp. rewrite Ha in Hp.
  destruct (Z.ltb_spec now (tm_deadline t)); [lia|]. destruct Hp as [Hp H1].
  destruct (fire_finish_ok _ a t now dead H1) as (ts2&E2&H2&F2&_&Hr); [done|done|done|].
  exists a, (set_firing (Some a) (set_head rest ts)), ts2. split; [done|]. split; [unfold get_timer; simpl; by rewrite Ha|].
  split; [done|]. split; [done|]. split; [done|].
  assert (Hc : tm_cancel t = false) by (apply (tk_flag _ _ H a); [rewrite Eh; left|done]).
  assert (Hoff : a ∉ rest).
  { pose proof (tk_once _ _ H) as O. unfold held in O. rewrite Hf, Eh in O. simpl in O. by apply NoDup_cons in O as [O _]. }
  unfold rearms in Hr. rewrite Hc, andb_true_r in Hr. unfold view. destruct ((0 <? tm_interval t) && negb dead).
  - destruct Hr as (l1&l2&El&El2&Hl1&Hl2&Em). simpl in *. rewrite El2, Em, <- Hrest, El.
    apply view_rearm; [|by rewrite <- El|done|done].
    pose proof (head_live _ _ H) as Hlive. rewrite Eh in Hlive. apply Forall_cons in Hlive as [_ Hlive]. by rewrite <- El.
  - destruct Hr as [El Em]. simpl in *. rewrite El, Em, <- Hrest. apply omap_same.
    intros b Hb. apply lookup_delete_ne. by intros ->.
Qed.

Lemma fire_loop_spec fuel cur now due : ∀ vm ts l,
  timers_ok ts → ts_firing ts = None → 0 ≤ now < 2 ^ 62 → view ts = due ++ l →
  Forall (λ t, tm_deadline t ≤ now) due → Forall (λ t, now < tm_deadline t) l →
  fired now (fire_all fuel cur now due vm l) (fire_loop fuel (length due) cur vm ts now).
Proof.
  induction due as [|t due IH]; intros vm ts l H Hf Hn Hv Hd Hl.
  - simpl in *. exists ts. split; [|done]. pose proof (fire_pop_ok ts now H Hf) as Hp.
    destruct (ts_head ts) as [|a rest] eqn:Eh; [by rewrite Hp|].
    pose proof (head_live _ _ H) as Hlive. rewrite Eh in Hlive. apply Forall_cons in Hlive as [[u Hu] _].
    unfold view in Hv. rewrite Eh in Hv. cbn in Hv. rewrite Hu in Hv. rewrite <- Hv in Hl. apply Forall_cons in Hl as [Hu' _].
    unfold deadline_of in Hp. rewrite Hu in Hp. destruct (Z.ltb_spec now (tm_deadline u)); [|lia]. by rewrite Hp.
  - apply Forall_cons in Hd as [Ht Hd]. cbn [fire_all fire_loop length].
    destruct (fire_deliver fuel cur vm t) as [[dead vm1]|w| |] eqn:Ed; cbn [mbind outcome_bind];
      destruct (fire_round ts now t (due ++ l) (match fire_deliver fuel cur vm t with Ret (d, _) => d | _ => true end) H Hf Hn Hv Ht)
        as (a&ts1&ts2&E1&Eg&E2&H2&F2&V2);
      rewrite E1; cbn [mbind outcome_bind]; rewrite Eg; cbn [mbind outcome_bind]; rewrite Ed in *; try done.
    cbn [mbind outcome_bind]. rewrite E2. cbn [mbind outcome_bind].
    assert (Hi : 0 ≤ tm_interval t).
    { destruct (view_head ts t (due ++ l) H Hv) as (b&_&_&Hb&_). destruct (tk_range _ _ H b t Hb). lia. }
    apply IH; [done|done|done| |done|].
    + rewrite V2. destruct ((0 <? tm_interval t) && negb dead); [|done]. apply tinsert_app.
      eapply Forall_impl; [exact Hd|]. intros u Hu. simpl in *. lia.
    + destruct (Z.ltb_spec 0 (tm_interval t)); [|done]. destruct dead; [done|]. simpl. apply tinsert_later; [simpl; lia|done].
Qed.

Lemma filter_Forall {A} (P Q : A → Prop) `{∀ x, Decision (P x), ∀ x, Decision (Q x)} l :
  (∀ x, P x → ¬ Q x) → Forall P l → filter P l = l ∧ filter Q l = [].
Proof.
  intros HQ. induction 1 as [|x l Hx Hl [IH1 IH2]]; [done|]. rewrite !filter_cons, IH1, IH2.
  rewrite decide_True by done. by rewrite decide_False by auto.
Qed.

(** A sorted list splits into what is due and what is not. *)
Lemma sorted_split now (l : list Timer) :
  StronglySorted Z.le (tm_deadline <$> l) →
  l = filter (λ t, tm_deadline t ≤ now) l ++ filter (λ t, now < tm_deadline t) l.
Proof.
  induction l as [|t l IH]; intros Hs; [done|]. cbn in Hs. apply StronglySorted_inv in Hs as [Hs Hf].
  rewrite !filter_cons. destruct (decide (tm_deadline t ≤ now)) as [Hd|Hd].
  - rewrite decide_False by lia. simpl. f_equal. by apply IH.
  - rewrite decide_True by lia. rewrite Forall_fmap in Hf.
    assert (Hall : Forall (λ u, now < tm_deadline u) l) by (eapply Forall_impl; [exact Hf|]; intros u Hu; simpl in Hu; lia).
    destruct (filter_Forall (λ u, now < tm_deadline u) (λ u, tm_deadline u ≤ now) l) as [-> ->]; [intros; lia|done|done].
Qed.

Lemma view_sorted ts : timers_ok ts → StronglySorted Z.le (tm_deadline <$> view ts).
Proof.
  intros H. pose proof (tk_sorted _ _ H) as Hs. pose proof (head_live _ _ H) as Hl. unfold view.
  replace (tm_deadline <$> omap (λ a, ts_timers ts !! a) (ts_head ts)) with (deadline_of (ts_timers ts) <$> ts_head ts); [done|].
  clear Hs. induction Hl as [|a l [t Ht] Hl IH]; [done|]. cbn. unfold deadline_of at 1. rewrite Ht. cbn. f_equal. exact IH.
Qed.

(** * Properties *)

(** C22: however the threads interleave, every critical section of the module
    that a thread can enter runs to its end: no timer is read or freed after
    it was freed, none is leaked, the list stays sorted. *)
Theorem timers_safe tr ts :
  trun timer_state_new tr ts →
  timers_ok ts ∧
  (∀ id, ∃ r ts', cancel_locked ts id = Ret (r, ts')) ∧
  (∀ now, ts_firing ts = None → ∃ r ts', fire_pop ts now = Ret (r, ts')) ∧
  (∀ a now dead, ts_firing ts = Some a → 0 ≤ now < 2 ^ 62 → ∃ ts', fire_finish ts a now dead = Ret ts') ∧
  (∀ a target interval deadline frag root, ts_timers ts !! a = None → frag ∉ ts_frags ts → 0 ≤ interval < 2 ^ 47 →
     ∃ ts', register_locked ts a target interval deadline frag root = Ret ts').
Proof.
  intros Hr. pose proof (trun_ok _ _ _ timers_ok_new Hr) as H. split; [done|]. split; [|split; [|split]].
  - intros id. destruct (cancel_ok ts id H) as (r&ts'&E&_). eauto.
  - intros now Hf. pose proof (fire_pop_ok ts now H Hf) as Hp. destruct (ts_head ts); [eauto|].
    destruct (now <? _); [eauto|]. destruct Hp as [Hp _]. eauto.
  - intros a now dead Hf Hn. destruct (firing_timer ts a H Hf) as [t Ht].
    destruct (fire_finish_ok ts a t now dead H Hf Ht Hn) as (ts'&E&_). eauto.
  - intros a target interval deadline frag root Ha Hfr Hi.
    destruct (register_ok ts a target interval deadline frag root H Ha Hfr Hi) as (ts'&E&_). eauto.
Qed.

(** C23: once [timer.cancel] has run for a timer that was registered, no
    delivery of that timer starts any more, also when the cancel raced with a
    delivery under way; the answer is 1 exactly when the timer was pending or
    was a periodic one being delivered. *)
Theorem cancel_final tr ts id r ts1 tr' ts2 :
  trun timer_state_new tr ts → id ≤ ts_next_id ts → cancel_locked ts id = Ret (r, ts1) → trun ts1 tr' ts2 →
  Some id ∉ tr' ∧ (r = 1 ∨ r = 0 ∧ settled id ts).
Proof.
  intros Hr Hi E Hr'. pose proof (trun_ok _ _ _ timers_ok_new Hr) as H.
  destruct (cancel_ok ts id H) as (r1&ts1'&E1&Hok&En&_&Hs&_&Hc). rewrite E in E1. injection E1 as <- <-.
  split; [apply (settled_run id ts1 tr' ts2); [done|done|lia|done]|naive_solver].
Qed.

(** [timer_register] reads the id of the timer after it has released the
    lock.  A one-shot timer that is due at once can be fired and freed before
    that read, which is then a use after free. *)
Theorem register_use_after_free a target deadline frag root dead :
  0 ≤ deadline < 2 ^ 62 →
  ∃ ts1 ts2 ts3, register_locked timer_state_new a target 0 deadline frag root = Ret ts1 ∧
    fire_pop ts1 deadline = Ret (Some a, ts2) ∧ fire_finish ts2 a deadline dead = Ret ts3 ∧
    register_return ts1 a = Ret 1 ∧ register_return ts3 a = Undef.
Proof.
  intros Hd. destruct (register_ok timer_state_new a target 0 deadline frag root) as (ts1&E1&H1&Em&Eh&_&Ef);
    [apply timers_ok_new|done|by apply not_elem_of_empty|lia|].
  exists ts1. simpl in Eh. apply Permutation_singleton_r in Eh.
  pose proof (fire_pop_ok ts1 deadline H1 Ef) as Hp. rewrite Eh in Hp.
  assert (Ed : deadline_of (ts_timers ts1) a = deadline) by (unfold deadline_of; rewrite Em, lookup_insert_eq; done).
  rewrite Ed, Z.ltb_irrefl in Hp. destruct Hp as [Hp H2].
  destruct (fire_finish_ok _ a (mk_Timer 1 target 0 deadline frag root false) deadline dead H2) as (ts3&E3&_&_&_&_&Em3);
    [done|simpl; by rewrite Em, lookup_insert_eq|done|].
  exists (set_firing (Some a) (set_head [] ts1)), ts3. split; [done|]. split; [done|]. split; [done|].
  unfold register_return, get_timer. simpl in *. rewrite Em3, Em. by rewrite lookup_insert_eq, lookup_delete_eq.
Qed.

(** C24: a tick fires exactly the timers that are due, in the order of their
    deadlines, each once: a one-shot timer and one whose target is dead are
    gone, a periodic one is armed again from now.  The loop ends after as many
    rounds as timers were due, and nothing due is left. *)
Theorem fire_expired_spec fuel cur vm ts now :
  timers_ok ts → ts_firing ts = None → 0 ≤ now < 2 ^ 62 →
  let due := filter (λ t, tm_deadline t ≤ now) (view ts) in
  let later := filter (λ t, now < tm_deadline t) (view ts) in
  fired now (fire_all fuel cur now due vm later) (fire_loop fuel (length due) cur vm ts now).
Proof.
  intros H Hf Hn due later. apply fire_loop_spec; [done|done|done| | |].
  - apply sorted_split, view_sorted. done.
  - apply Forall_forall. intros t Ht. apply list_elem_of_filter in Ht. naive_solver.
  - apply Forall_forall. intros t Ht. apply list_elem_of_filter in Ht. naive_solver.
Qed.

(** ** Two timers *)
Definition w_ts : TimerState :=
  match register_locked timer_state_new 16 7 0 100 500 val_nil with
  | Ret ts => match register_locked ts 32 7 50 40 600 val_nil with Ret ts => ts | _ => timer_state_new end
  | _ => timer_state_new
  end.

Lemma w_ts_run : trun timer_state_new [None; None] w_ts.
Proof.
  eapply run_cons; [|eapply run_cons; [|constructor]].
  - eapply (step_register _ 16 7 0 100 500 val_nil); [done|by apply not_elem_of_empty|lia|vm_compute; reflexivity].
  - eapply (step_register _ 32 7 50 40 600 val_nil); [done|apply (bool_decide_unpack _); vm_compute; exact I|lia|vm_compute; reflexivity].
Qed.

Lemma timers_safe_witness : timers_ok w_ts ∧ (∃ r ts', cancel_locked w_ts 2 = Ret (r, ts')).
Proof. destruct (timers_safe [None; None] w_ts w_ts_run) as (H&Hc&_). split; [exact H|exact (Hc 2)]. Defined.

Lemma cancel_final_witness :
  ∃ ts1, cancel_locked w_ts 2 = Ret (1, ts1) ∧ ∀ tr ts2, trun ts1 tr ts2 → Some 2 ∉ tr.
Proof.
  eexists. split; [vm_compute; reflexivity|]. intros tr ts2 Hr.
  refine (proj1 (cancel_final [None; None] w_ts 2 1 _ tr ts2 w_ts_run _ _ Hr)); [vm_compute; discriminate|vm_compute; reflexivity].
Defined.

Lemma register_use_after_free_witness :
  ∃ ts1 ts2 ts3, register_locked timer_state_new 16 7 0 100 500 val_nil = Ret ts1 ∧
    fire_pop ts1 100 = Ret (Some 16, ts2) ∧ fire_finish ts2 16 100 false = Ret ts3 ∧
    register_return ts1 16 = Ret 1 ∧ register_return ts3 16 = Undef.
Proof. apply (register_use_after_free 16 7 100 500 val_nil false). lia. Defined.

Lemma fire_expired_witness :
  ∃ vm' ts', fire_loop 10 2 None w_vm w_ts 100 = Ret (vm', ts') ∧ view ts' = [mk_Timer 2 7 50 150 600 val_nil false] ∧ timers_ok ts'.
Proof.
  assert (H : timers_ok w_ts) by (apply (trun_ok _ _ _ timers_ok_new w_ts_run)).
  pose proof (fire_expired_spec 10 None w_vm w_ts 100 H eq_refl ltac:(lia)) as Hs.
  assert (Ed : length (filter (λ t, tm_deadline t ≤ 100) (view w_ts)) = 2%nat) by (vm_compute; reflexivity).
  cbv zeta in Hs. rewrite Ed in Hs.
  assert (Ef : ∃ vm', fire_all 10 None 100 (filter (λ t, tm_deadline t ≤ 100) (view w_ts)) w_vm
    (filter (λ t, 100 < tm_deadline t) (view w_ts)) = Ret (vm', [mk_Timer 2 7 50 150 600 val_nil false])) by (eexists; vm_compute; reflexivity).
  destruct Ef as [vm' Ef]. rewrite Ef in Hs. destruct Hs as (ts'&E&Hok&_&Hv&_). exists vm', ts'. done.
Defined.
