(* ===== verification/Loader.v ===== *)
(** The loader of src/main.c: parsing of the word stream of a .tabc unit,
    construction of the constant table, and linking of global references.

    Reading the file into words ([load_words]) is input; [strtod] is the C
    library's; resolving a name that the unit does not define may open a
    shared library ([find_cfunc_autoload]) and is a parameter. *)
From stdpp Require Import base tactics list gmap strings.
From Stdlib Require Import ZArith Lia Ascii SpecFloat.
From S2P Require Import Prelude Values Heap Resource Gc GcCorrect GcSpec Tree Alloc Copy Fragment Runq Mailbox Symtab Vm Sched Builtin Ccall Interp Cmodule.
Open Scope Z_scope.

Definition TA_BC_VERSION : Z := 3.
Definition LOP_COUNT : Z := 41.
Definition OOM : string := "tavm: out of memory".

(** Words of every opcode as the linker steps over them. *)
Definition g_optlen (op : Z) : Z :=
  if op =? LOP_CONST then 2 else if op =? LOP_LOAD then 2 else if op =? LOP_STORE then 2 else if op =? LOP_LOADF then 2
  else if op =? LOP_PUSH then 1
  else if op =? LOP_ADD then 1 else if op =? LOP_SUB then 1 else if op =? LOP_MUL then 1 else if op =? LOP_DIV then 1
  else if op =? LOP_MOD then 1
  else if op =? LOP_LT then 1 else if op =? LOP_LE then 1 else if op =? LOP_GT then 1 else if op =? LOP_GE then 1
  else if op =? LOP_EQ then 1
  else if op =? LOP_PAIRP then 1 else if op =? LOP_SYMP then 1
  else if op =? LOP_CONS then 1 else if op =? LOP_CAR then 1 else if op =? LOP_CDR then 1
  else if op =? LOP_JIF then 2 else if op =? LOP_JUMP then 2 else if op =? LOP_CALL then 2 else if op =? LOP_TCALL then 2
  else if op =? LOP_RET then 1
  else if op =? LOP_MAKE_CLOSURE then 3 else if op =? LOP_GLOBAL then 2 else if op =? LOP_RESERVE then 2
  else if op =? LOP_BUILTIN then 3
  else if op =? LOP_LOADP then 2 else if op =? LOP_CONSTP then 2 else if op =? LOP_GLOBP then 2
  else if op =? LOP_JIF_LT then 3 else if op =? LOP_JIF_LE then 3 else if op =? LOP_JIF_GT then 3
  else if op =? LOP_JIF_GE then 3 else if op =? LOP_JIF_EQ then 3
  else if op =? LOP_CONST_I then 2 else if op =? LOP_ADD_I then 2 else if op =? LOP_SUB_I then 2
  else if op =? LOP_JIF_EQ_I then 4
  else 0.

(** [words[p]]: past the words that were read nothing is defined. *)
Definition word (ws : list Z) (p : Z) : outcome Z := if 0 <=? p then or_undef (ws !! Z.to_nat p) else Undef.

(** [(char)words[p++]], [len] times. *)
Fixpoint read_chars (ws : list Z) (p : Z) (len : nat) : outcome (list Z * Z) :=
  match len with
  | O => Ret ([], p)
  | S len => w ← word ws p; '(s, p) ← read_chars ws (p + 1) len; Ret (u8 w :: s, p)
  end.

(** A C string: it ends at the first NUL. *)
Fixpoint c_string (s : list Z) : string :=
  match s with
  | [] => EmptyString
  | c :: s => if c =? 0 then EmptyString else String (ascii_of_N (Z.to_N c)) (c_string s)
  end.

Section Load.
Context (sym_fuel : nat) (strtod : list Z → double).

(** The malloc'd text of the kinds 4, 5 and 6, [extra] bytes larger than its
    [len] characters. *)
Definition const_text (ws : list Z) (st : store) (p extra : Z) : outcome (list Z * Z * store * Z) :=
  len ← word ws p;
  match malloc st (u64 (len + extra)) with
  | None => Abort OOM
  | Some (a, st) =>
      if len <? 0 then Undef
      else '(s, p) ← read_chars ws (p + 1) (Z.to_nat len); Ret (s, p, st, a)
  end.

Definition parse_const (ws : list Z) (vm : VM) (p : Z) : outcome (Val * Z * VM) :=
  kind ← word ws p;
  let p := p + 1 in
  if kind =? 0 then v ← word ws p; Ret (val_int v, p + 1, vm)
  else if kind =? 1 then Ret (val_nil, p, vm)
  else if kind =? 2 then Ret (val_true, p, vm)
  else if kind =? 3 then Ret (val_false, p, vm)
  else if kind =? 4 then
    '(s, p, st, _) ← const_text ws (v_store vm) p 1;
    '(id, vm) ← intern_vm sym_fuel (set_v_store st vm) (c_string s);
    Ret (val_symbol id, p, vm)
  else if kind =? 5 then
    '(s, p, st, a) ← const_text ws (v_store vm) p (SIZEOF_STRING + 1);
    if Z.of_nat (length s) <? STRING_MAX
    then Ret (lbox TAG_STRING a, p, set_v_store (write_cell st a (Live (HeapString s))) vm)
    else Undef
  else if kind =? 6 then
    '(s, p, st, _) ← const_text ws (v_store vm) p 1;
    Ret (val_float (strtod s), p, set_v_store st vm)
  else Abort "bad const kind".

Fixpoint const_loop (ws : list Z) (vm : VM) (cp : Z) (n : nat) : outcome (list Val * VM) :=
  match n with
  | O => Ret ([], vm)
  | S n =>
      '(v, cp, vm) ← parse_const ws vm cp;
      '(vs, vm) ← const_loop ws vm cp n;
      Ret (v :: vs, vm)
  end.

(** [k] arrays of [bytes] each. *)
Fixpoint alloc_tables (k : nat) (bytes : Z) (st : store) : outcome store :=
  match k with
  | O => Ret st
  | S k => match malloc st bytes with None => Abort OOM | Some (_, st) => alloc_tables k bytes st end
  end.

(** [build_consts]: the table, and the side table of string payloads, which
    only keeps them reachable for a leak checker. *)
Definition build_consts (ws : list Z) (vm : VM) (nconsts const_pos : Z) : outcome (list Val * VM) :=
  if nconsts <=? 0 then Ret ([], vm)
  else
    st ← alloc_tables 2 (nconsts * 8) (v_store vm);
    const_loop ws (set_v_store st vm) const_pos (Z.to_nat nconsts).

(** What the loader keeps beside the image for linking and for frame names. *)
Record unit_info := mk_unit_info {
  ui_image : Image;
  ui_codelen : list Z;
  ui_nameidx : list Z
}.

(** The headers of the function section: name index, entry, number of
    arguments, depth, code length, then the code. *)
Fixpoint fn_loop (ws : list Z) (p : Z) (n : nat) : outcome (list (Z * Z * Z * Z * Z) * Z) :=
  match n with
  | O => Ret ([], p)
  | S n =>
      name ← word ws p;
      entry ← word ws (p + 1);
      nargs ← word ws (p + 2);
      maxd ← word ws (p + 3);
      codelen ← word ws (p + 4);
      '(l, p) ← fn_loop ws (p + 5 + codelen) n;
      Ret ((name, entry, nargs, maxd, codelen) :: l, p)
  end.

Definition parse_unit (ws : list Z) (vm : VM) : outcome (unit_info * VM) :=
  if Z.of_nat (length ws) <? 3 then Abort "truncated file"
  else
    ver ← word ws 0;
    if negb (ver =? TA_BC_VERSION) then Abort "tavm: image version mismatch"
    else
      nfns ← word ws 1;
      nconsts ← word ws 2;
      if nfns <? 1 then Abort "no functions"
      else
        st ← alloc_tables 5 (nfns * 8) (v_store vm);
        '(fns, p) ← fn_loop ws 3 (Z.to_nat nfns);
        '(consts, vm) ← build_consts ws (set_v_store st vm) nconsts p;
        let col f := f <$> fns in
        Ret (mk_unit_info
               (mk_Image ws (col (λ '(_, e, _, _, _), e)) (col (λ '(_, _, n, _, _), n)) (col (λ '(_, _, _, d, _), d)) consts)
               (col (λ '(_, _, _, _, c), c)) (col (λ '(n, _, _, _, _), n)), vm).
End Load.

(** * Linking *)
Section Link.
(** [find_cfunc_autoload] for a name the unit does not define: the index of
    the C function, or -1; it may register a module. *)
Context (find_cfunc_autoload : VM → string → outcome (Z * VM)).

(** [fn_of_sym]: constant index to function index, -1 = not defined here. *)
Fixpoint fn_of_sym_loop (consts : list Val) (tab : list Z) (i : Z) (nameidx : list Z) : outcome (list Z) :=
  match nameidx with
  | [] => Ret tab
  | s :: nameidx =>
      if s <? 0 then fn_of_sym_loop consts tab (i + 1) nameidx
      else
        match consts !! Z.to_nat s with
        | None => Abort "bad fn name const"
        | Some c =>
            if negb (val_tag c =? TAG_SYM) then Abort "bad fn name const"
            else
              f ← or_undef (tab !! Z.to_nat s);
              if 0 <=? f then Abort "duplicate global"
              else fn_of_sym_loop consts (<[Z.to_nat s := i]> tab) (i + 1) nameidx
        end
  end.

(** The operand a GLOBAL gets: a function of the unit, or the C function
    [cf] as [-(cf + 1)]. *)
Definition link_operand (consts : list Val) (fn_of_sym : list Z) (vm : VM) (o : Z) : outcome (Z * VM) :=
  if o <? 0 then Abort "GLOBAL: not a symbol const"
  else
    match consts !! Z.to_nat o with
    | None => Abort "GLOBAL: not a symbol const"
    | Some c =>
        if negb (val_tag c =? TAG_SYM) then Abort "GLOBAL: not a symbol const"
        else
          fid ← or_undef (fn_of_sym !! Z.to_nat o);
          if fid <? 0 then
            let sid := i32 (val_get_symbol c) in
            match (if 0 <=? sid then vm_symbol_name (v_symtab vm) sid else None) with
            | None => Abort "native call with a bad symbol index"
            | Some name =>
                '(cf, vm) ← find_cfunc_autoload vm name;
                if cf <? 0 then Abort "tavm: unknown C function" else Ret (- cf - 1, vm)
            end
          else Ret (fid, vm)
    end.

Definition set_word (ws : list Z) (p w : Z) : outcome (list Z) :=
  _ ← word ws p; Ret (<[Z.to_nat p := w]> ws).

(** The scan of one function's code. *)
Fixpoint link_code (fuel : nat) (consts : list Val) (fn_of_sym : list Z) (vm : VM) (ws : list Z) (p e : Z)
    : outcome (list Z * VM) :=
  if negb (p <? e) then Ret (ws, vm)
  else
    match fuel with
    | O => NoFuel
    | S fuel =>
        w ← word ws p;
        let op := i32 w in
        if (op <? 0) || (LOP_COUNT <=? op) || (g_optlen op <=? 0) then Abort "bad opcode"
        else
          '(ws, vm) ←
            (if (op =? LOP_GLOBAL) || (op =? LOP_GLOBP) then
               o ← word ws (p + 1);
               '(o', vm) ← link_operand consts fn_of_sym vm o;
               ws ← set_word ws (p + 1) o';
               Ret (ws, vm)
             else Ret (ws, vm));
          link_code fuel consts fn_of_sym vm ws (p + g_optlen op) e
    end.

Fixpoint link_fns (consts : list Val) (fn_of_sym : list Z) (vm : VM) (ws : list Z) (fns : list (Z * Z)) : outcome (list Z * VM) :=
  match fns with
  | [] => Ret (ws, vm)
  | (entry, codelen) :: fns =>
      '(ws, vm) ← link_code (Z.to_nat codelen) consts fn_of_sym vm ws entry (entry + codelen);
      link_fns consts fn_of_sym vm ws fns
  end.

Definition link_unit (ui : unit_info) (vm : VM) : outcome (Image * VM) :=
  let im := ui_image ui in
  tab ← fn_of_sym_loop (g_consts im) (replicate (length (g_consts im)) (-1)) 0 (ui_nameidx ui);
  '(ws, vm) ← link_fns (g_consts im) tab vm (words im) (zip (fn_entry im) (ui_codelen ui));
  Ret (mk_Image ws (fn_entry im) (fn_args im) (fn_maxd im) (g_consts im), vm).
End Link.

(** * Units as the compiler writes them *)
Inductive const := CInt (z : Z) | CNil | CTrue | CFalse | CSym (s : list Z) | CString (s : list Z) | CFloat (s : list Z).

Definition const_words (c : const) : list Z :=
  match c with
  | CInt z => [0; z]
  | CNil => [1]
  | CTrue => [2]
  | CFalse => [3]
  | CSym s => 4 :: Z.of_nat (length s) :: s
  | CString s => 5 :: Z.of_nat (length s) :: s
  | CFloat s => 6 :: Z.of_nat (length s) :: s
  end.
Definition consts_words (cs : list const) : list Z := cs ≫= const_words.
Definition const_text_of (c : const) : list Z := match c with CSym s | CString s | CFloat s => s | _ => [] end.

(** An instruction: opcode and operands; the code of a function ends with the
    return of its arguments. *)
Record fn := mk_fn { f_name : Z; f_nargs : Z; f_maxd : Z; f_body : list (Z * list Z) }.
Definition body_words (body : list (Z * list Z)) : list Z := body ≫= λ '(op, args), op :: args.
Definition code_words (f : fn) : list Z := body_words (f_body f) ++ [LOP_RET; f_nargs f].
Definition codelen (f : fn) : Z := Z.of_nat (length (code_words f)).

(** [p] is the offset of the header in the file. *)
Definition fn_words (p : Z) (f : fn) : list Z := [f_name f; p + 5; f_nargs f; f_maxd f; codelen f] ++ code_words f.
Fixpoint fns_words (p : Z) (fns : list fn) : list Z :=
  match fns with
  | [] => []
  | f :: fns => fn_words p f ++ fns_words (p + 5 + codelen f) fns
  end.
Fixpoint entries (p : Z) (fns : list fn) : list Z :=
  match fns with
  | [] => []
  | f :: fns => p + 5 :: entries (p + 5 + codelen f) fns
  end.

Record unit_src := mk_unit { u_fns : list fn; u_consts : list const }.
Definition unit_words (u : unit_src) : list Z :=
  [TA_BC_VERSION; Z.of_nat (length (u_fns u)); Z.of_nat (length (u_consts u))] ++ fns_words 3 (u_fns u) ++
  consts_words (u_consts u).

Lemma word_here pre w post p : p = Z.of_nat (length pre) → word (pre ++ w :: post) p = Ret w.
Proof. apply byte_at_here. Qed.
Lemma word_app pre suf i k : i = Z.of_nat (length pre) → 0 ≤ k → word (pre ++ suf) (i + k) = word suf k.
Proof. apply byte_at_app. Qed.

(** ** Parsing what was written *)
Section ParseWritten.
Context (sym_fuel : nat) (strtod : list Z → double).

(** The value of a constant and what building it allocates and interns. *)
Definition eval_const (vm : VM) (c : const) : outcome (Val * VM) :=
  let text s extra k :=
    match malloc (v_store vm) (u64 (Z.of_nat (length s) + extra)) with
    | None => Abort OOM
    | Some (a, st) => k a st
    end in
  match c with
  | CInt z => Ret (val_int z, vm)
  | CNil => Ret (val_nil, vm)
  | CTrue => Ret (val_true, vm)
  | CFalse => Ret (val_false, vm)
  | CSym s => text s 1 (λ _ st, '(id, vm) ← intern_vm sym_fuel (set_v_store st vm) (c_string s); Ret (val_symbol id, vm))
  | CString s => text s (SIZEOF_STRING + 1) (λ a st,
      if Z.of_nat (length s) <? STRING_MAX
      then Ret (lbox TAG_STRING a, set_v_store (write_cell st a (Live (HeapString s))) vm) else Undef)
  | CFloat s => text s 1 (λ _ st, Ret (val_float (strtod s), set_v_store st vm))
  end.
Fixpoint eval_consts (vm : VM) (cs : list const) : outcome (list Val * VM) :=
  match cs with
  | [] => Ret ([], vm)
  | c :: cs => '(v, vm) ← eval_const vm c; '(vs, vm) ← eval_consts vm cs; Ret (v :: vs, vm)
  end.

Lemma read_chars_app pre s post p :
  Forall byte s → p = Z.of_nat (length pre) →
  read_chars (pre ++ s ++ post) p (length s) = Ret (s, p + Z.of_nat (length s)).
Proof.
  revert pre p. induction s as [|c s IH]; intros pre p Hs Hp; cbn [read_chars length app].
  { do 2 f_equal. lia. }
  apply Forall_cons in Hs as [Hc Hs]. rewrite word_here by done. cbn [mbind outcome_bind].
  replace (pre ++ c :: s ++ post) with ((pre ++ [c]) ++ s ++ post) by by rewrite <- (assoc app).
  rewrite IH; [|done|rewrite length_app; simpl; lia]. cbn [mbind outcome_bind].
  unfold u8. rewrite Z.mod_small by done. do 2 f_equal. lia.
Qed.

Lemma const_text_app pre s post st p extra :
  Forall byte s → p = Z.of_nat (length pre) →
  const_text (pre ++ Z.of_nat (length s) :: s ++ post) st p extra =
    match malloc st (u64 (Z.of_nat (length s) + extra)) with
    | None => Abort OOM
    | Some (a, st) => Ret (s, p + 1 + Z.of_nat (length s), st, a)
    end.
Proof.
  intros Hs Hp. unfold const_text. rewrite word_here by done. cbn [mbind outcome_bind].
  destruct (malloc _ _) as [[a st1]|]; [|done]. destruct (Z.ltb_spec (Z.of_nat (length s)) 0); [lia|].
  replace (pre ++ Z.of_nat (length s) :: s ++ post) with ((pre ++ [Z.of_nat (length s)]) ++ s ++ post) by by rewrite <- (assoc app).
  rewrite Nat2Z.id, read_chars_app; [done|done|rewrite length_app; simpl; lia].
Qed.

Lemma parse_const_words pre c post vm p :
  Forall byte (const_text_of c) → p = Z.of_nat (length pre) →
  parse_const sym_fuel strtod (pre ++ const_words c ++ post) vm p =
    ('(v, vm) ← eval_const vm c; Ret (v, p + Z.of_nat (length (const_words c)), vm)).
Proof.
  intros Hb Hp. unfold parse_const.
  assert (Hk : ∀ k rest, const_words c = k :: rest → pre ++ const_words c ++ post = (pre ++ [k]) ++ rest ++ post ∧
    word (pre ++ const_words c ++ post) p = Ret k).
  { intros k rest E. rewrite E. split; [by rewrite <- (assoc app)|]. by apply word_here. }
  assert (Hp1 : ∀ k, p + 1 = Z.of_nat (length (pre ++ [k]))) by (intros; rewrite length_app; simpl; lia).
  destruct c as [z| | | |s|s|s]; cbn [const_words eval_const const_text_of] in *; destruct (Hk _ _ eq_refl) as [E Ew];
    rewrite Ew; cbn [mbind outcome_bind]; cbv zeta; simpl (_ =? _); cbv iota; rewrite ?E.
  - cbn [app]. rewrite word_here by apply Hp1. cbn [mbind outcome_bind]. do 3 f_equal. simpl. lia.
  - done.
  - done.
  - done.
  - cbn [app]. rewrite const_text_app by (done || apply Hp1). destruct (malloc _ _) as [[a st1]|]; [|done]. cbn [mbind outcome_bind].
    destruct (intern_vm _ _ _) as [[id vm1]| | |]; [|done..]. cbn [mbind outcome_bind]. do 3 f_equal. simpl. lia.
  - cbn [app]. rewrite const_text_app by (done || apply Hp1). destruct (malloc _ _) as [[a st1]|]; [|done]. cbn [mbind outcome_bind].
    destruct (_ <? STRING_MAX); [|done]. cbn [mbind outcome_bind]. do 3 f_equal. simpl. lia.
  - cbn [app]. rewrite const_text_app by (done || apply Hp1). destruct (malloc _ _) as [[a st1]|]; [|done]. cbn [mbind outcome_bind].
    do 3 f_equal. simpl. lia.
Qed.

Lemma const_loop_words cs pre post vm p :
  Forall (λ c, Forall byte (const_text_of c)) cs → p = Z.of_nat (length pre) →
  const_loop sym_fuel strtod (pre ++ consts_words cs ++ post) vm p (length cs) = eval_consts vm cs.
Proof.
  revert pre vm p. induction cs as [|c cs IH]; intros pre vm p Hb Hp; [done|].
  apply Forall_cons in Hb as [Hc Hb]. cbn [const_loop length eval_consts].
  change (consts_words (c :: cs)) with (const_words c ++ consts_words cs). rewrite <- (assoc app (const_words c)).
  rewrite parse_const_words by done. destruct (eval_const vm c) as [[v vm1]| | |]; [|done..]. cbn [mbind outcome_bind].
  rewrite <- !(assoc app), (app_assoc pre (const_words c)). rewrite IH; [done|done|rewrite length_app; lia].
Qed.

Lemma fn_loop_words fns pre post p :
  p = Z.of_nat (length pre) →
  fn_loop (pre ++ fns_words p fns ++ post) p (length fns) =
    Ret (zip_with (λ f e, (f_name f, e, f_nargs f, f_maxd f, codelen f)) fns (entries p fns),
         p + Z.of_nat (length (fns_words p fns))).
Proof.
  revert pre p. induction fns as [|f fns IH]; intros pre p Hp; cbn [fn_loop length].
  { do 2 f_equal. simpl. lia. }
  set (tail := code_words f ++ fns_words (p + 5 + codelen f) fns ++ post).
  set (hd := [f_name f; p + 5; f_nargs f; f_maxd f; codelen f]).
  replace (pre ++ fns_words p (f :: fns) ++ post) with (pre ++ hd ++ tail)
    by (cbn [fns_words]; unfold fn_words, tail; by rewrite <- !app_assoc).
  assert (E0 : word (pre ++ hd ++ tail) p = Ret (f_name f)) by by apply word_here.
  rewrite E0. cbn [mbind outcome_bind]. rewrite !(word_app pre (hd ++ tail)) by (done || lia).
  change (word (hd ++ tail) 1) with (Ret (p + 5)).
  change (word (hd ++ tail) 2) with (Ret (f_nargs f)).
  change (word (hd ++ tail) 3) with (Ret (f_maxd f)).
  change (word (hd ++ tail) 4) with (Ret (codelen f)).
  cbn [mbind outcome_bind]. unfold tail. rewrite (app_assoc pre hd), (app_assoc _ (code_words f)).
  rewrite IH; [|rewrite !length_app; unfold codelen; simpl; lia].
  cbn [mbind outcome_bind zip_with entries fns_words]. do 2 f_equal. unfold fn_words. rewrite !length_app. unfold codelen. simpl. lia.
Qed.
End ParseWritten.

(** ** Linking what was written *)
Definition instr_ok (i : Z * list Z) : Prop :=
  0 ≤ i.1 < LOP_COUNT ∧ i.1 ≠ LOP_RET ∧ Z.of_nat (length (i.1 :: i.2)) = g_optlen i.1.
(** The number of arguments, which the linker also reads as an opcode. *)
Definition nargs_ok (k : Z) : Prop := 0 ≤ k < LOP_COUNT ∧ k ≠ LOP_GLOBAL ∧ k ≠ LOP_GLOBP.
Definition fn_ok (f : fn) : Prop := Forall instr_ok (f_body f) ∧ nargs_ok (f_nargs f).

Section LinkWritten.
Context (find_cfunc_autoload : VM → string → outcome (Z * VM)) (consts : list Val) (tab : list Z).
Abbreviation resolve := (link_operand find_cfunc_autoload consts tab).

Definition is_global (op : Z) : bool := (op =? LOP_GLOBAL) || (op =? LOP_GLOBP).

(** The operand of a global reference is resolved; nothing else changes. *)
Definition reloc_instr (vm : VM) (i : Z * list Z) : outcome ((Z * list Z) * VM) :=
  match i with
  | (op, o :: args) => if is_global op then '(o, vm) ← resolve vm o; Ret ((op, o :: args), vm) else Ret (i, vm)
  | _ => Ret (i, vm)
  end.
Fixpoint reloc_body (vm : VM) (body : list (Z * list Z)) : outcome (list (Z * list Z) * VM) :=
  match body with
  | [] => Ret ([], vm)
  | i :: body => '(i, vm) ← reloc_instr vm i; '(body, vm) ← reloc_body vm body; Ret (i :: body, vm)
  end.
Fixpoint reloc_fns (vm : VM) (fns : list fn) : outcome (list fn * VM) :=
  match fns with
  | [] => Ret ([], vm)
  | f :: fns =>
      '(body, vm) ← reloc_body vm (f_body f);
      '(fns, vm) ← reloc_fns vm fns;
      Ret (mk_fn (f_name f) (f_nargs f) (f_maxd f) body :: fns, vm)
  end.

Lemma g_optlen_pos op : 0 ≤ op < LOP_COUNT → 1 ≤ g_optlen op ≤ 4.
Proof.
  intros Hop. unfold LOP_COUNT in Hop.
  assert (Hall : forallb (λ x, (1 <=? g_optlen (Z.of_nat x)) && (g_optlen (Z.of_nat x) <=? 4)) (seq 0 41) = true) by (vm_compute; reflexivity).
  rewrite forallb_forall in Hall. specialize (Hall (Z.to_nat op)). rewrite Z2Nat.id in Hall by lia.
  apply andb_true_iff in Hall; [|apply in_seq; lia]. rewrite !Z.leb_le in Hall. lia.
Qed.

Lemma opcode_ok op : 0 ≤ op < LOP_COUNT →
  i32 op = op ∧ (op <? 0) || (LOP_COUNT <=? op) || (g_optlen op <=? 0) = false.
Proof.
  intros Hop. pose proof (g_optlen_pos op Hop). unfold LOP_COUNT in *. split; [apply signed_small; lia|].
  rewrite !orb_false_iff. repeat split; [apply Z.ltb_ge|apply Z.leb_gt|apply Z.leb_gt]; lia.
Qed.

Lemma link_code_end fuel vm ws p e : e ≤ p → link_code find_cfunc_autoload fuel consts tab vm ws p e = Ret (ws, vm).
Proof. intros H. destruct fuel; cbn [link_code]; (destruct (Z.ltb_spec p e); [lia|done]). Qed.

(** One instruction. *)
Lemma link_instr fuel vm pre op args post p e :
  instr_ok (op, args) → p = Z.of_nat (length pre) → p < e →
  link_code find_cfunc_autoload (S fuel) consts tab vm (pre ++ (op :: args) ++ post) p e =
    ('(i, vm) ← reloc_instr vm (op, args);
     link_code find_cfunc_autoload fuel consts tab vm (pre ++ (i.1 :: i.2) ++ post) (p + g_optlen op) e).
Proof.
  intros (Hop&Hr&Hl) Hp He. simpl in Hop, Hr. cbn [link_code fst snd app]. destruct (Z.ltb_spec p e); [|lia]. cbn [negb].
  rewrite (word_here pre op (args ++ post) p) by done. cbn [mbind outcome_bind]. cbv zeta. destruct (opcode_ok op Hop) as [-> ->].
  fold (is_global op). unfold reloc_instr. cbn [fst snd] in Hl. destruct (is_global op) eqn:Eg.
  2:{ destruct args; cbn; rewrite ?Eg; reflexivity. }
  assert (g_optlen op = 2) as Hg2.
  { unfold is_global in Eg. apply orb_true_iff in Eg as [E|E]; apply Z.eqb_eq in E as ->; done. }
  rewrite Hg2 in *. destruct args as [|o args]; [simpl in Hl; lia|].
  rewrite (word_app pre) by (done || lia). change (word (op :: (o :: args) ++ post) 1) with (Ret o). cbn [mbind outcome_bind].
  destruct (resolve vm o) as [[o' vm1]| | |]; [|done..]. cbn [mbind outcome_bind].
  unfold set_word. rewrite (word_app pre) by (done || lia). change (word (op :: (o :: args) ++ post) 1) with (Ret o). cbn [mbind outcome_bind fst snd].
  do 2 f_equal. replace (Z.to_nat (p + 1)) with (length pre + 1)%nat by lia. by rewrite insert_app_r.
Qed.

Lemma reloc_instr_ok vm i i' vm' : reloc_instr vm i = Ret (i', vm') → i'.1 = i.1 ∧ length i'.2 = length i.2.
Proof.
  destruct i as [op [|o args]]; cbn [reloc_instr]; [by intros [= <- <-]|].
  destruct (is_global op); [|by intros [= <- <-]].
  destruct (resolve vm o) as [[o' vm1]| | |]; try done. cbn [mbind outcome_bind]. by intros [= <- <-].
Qed.

Lemma reloc_body_length vm body body' vm' :
  reloc_body vm body = Ret (body', vm') → length (body_words body') = length (body_words body).
Proof.
  revert vm body'. induction body as [|i body IH]; intros vm body' E; cbn [reloc_body] in E; [by injection E as <- <-|].
  destruct (reloc_instr vm i) as [[i' vm1]| | |] eqn:Ei; try done. cbn [mbind outcome_bind] in E.
  destruct (reloc_body vm1 body) as [[b' vm2]| | |] eqn:Eb; try done. injection E as <- <-.
  apply reloc_instr_ok in Ei as [E1 E2]. destruct i as [op args], i' as [op' args']. cbn [fst snd] in *.
  change (body_words ((op', args') :: b')) with ((op' :: args') ++ body_words b').
  change (body_words ((op, args) :: body)) with ((op :: args) ++ body_words body).
  rewrite !length_app, (IH vm1 b' Eb). cbn [length]. lia.
Qed.

(** The body of a function, up to its return. *)
Lemma link_body body n vm pre tail p e :
  Forall instr_ok body → p = Z.of_nat (length pre) → p + Z.of_nat (length (body_words body)) ≤ e →
  link_code find_cfunc_autoload (length body + n) consts tab vm (pre ++ body_words body ++ tail) p e =
    ('(body', vm) ← reloc_body vm body;
     link_code find_cfunc_autoload n consts tab vm (pre ++ body_words body' ++ tail) (p + Z.of_nat (length (body_words body))) e).
Proof.
  intros Hb. revert vm pre p. induction Hb as [|[op args] body Hi Hb IH]; intros vm pre p Hp He.
  { cbn [length Nat.add reloc_body mbind outcome_bind]. by rewrite Z.add_0_r. }
  change (body_words ((op, args) :: body)) with ((op :: args) ++ body_words body) in *.
  pose proof Hi as (Hop&_&Hl). cbn [fst snd] in Hop, Hl. pose proof (g_optlen_pos op Hop) as Hpos.
  rewrite length_app in *. rewrite <- (app_assoc (op :: args)). cbn [Nat.add length] in *.
  rewrite link_instr by (done || lia). cbn [reloc_body].
  destruct (reloc_instr vm (op, args)) as [[[op' args'] vm1]| | |] eqn:Er; [|done..]. cbn [mbind outcome_bind fst snd].
  apply reloc_instr_ok in Er as [Eo El]. cbn [fst snd] in Eo, El. subst op'.
  rewrite (app_assoc pre). rewrite IH; [|rewrite length_app; cbn [length] in *; lia|lia].
  destruct (reloc_body vm1 body) as [[body' vm2]| | |]; [|done..]. cbn [mbind outcome_bind].
  change (body_words ((op, args') :: body')) with ((op :: args') ++ body_words body'). rewrite <- !app_assoc. f_equal. lia.
Qed.

(** The return: its operand is the next word the scan looks at. *)
Lemma link_ret n vm pre k post p :
  p = Z.of_nat (length pre) → -2 ^ 31 ≤ k < 2 ^ 31 →
  link_code find_cfunc_autoload (S (S n)) consts tab vm (pre ++ [LOP_RET; k] ++ post) p (p + 2) =
    if (k <? 0) || (LOP_COUNT <=? k) || (g_optlen k <=? 0) then Abort "bad opcode"
    else if is_global k then link_code find_cfunc_autoload (S n) consts tab vm (pre ++ [LOP_RET; k] ++ post) (p + 1) (p + 2)
    else Ret (pre ++ [LOP_RET; k] ++ post, vm).
Proof.
  intros Hp Hk. set (ws := pre ++ [LOP_RET; k] ++ post). set (n1 := S n).
  assert (E0 : word ws p = Ret LOP_RET) by by apply word_here.
  assert (E1 : word ws (p + 1) = Ret k) by (unfold ws; by rewrite (word_app pre _ p 1)).
  cbn [link_code]. destruct (Z.ltb_spec p (p + 2)); [|lia]. cbn [negb]. rewrite E0. cbn [mbind outcome_bind]. cbv zeta.
  change (i32 LOP_RET) with LOP_RET.
  change ((LOP_RET <? 0) || (LOP_COUNT <=? LOP_RET) || (g_optlen LOP_RET <=? 0)) with false. cbv iota.
  change ((LOP_RET =? LOP_GLOBAL) || (LOP_RET =? LOP_GLOBP)) with false. cbv iota. cbn [mbind outcome_bind].
  change (g_optlen LOP_RET) with 1.
  destruct (is_global k) eqn:Eg.
  { unfold is_global in Eg. apply orb_true_iff in Eg as [->%Z.eqb_eq| ->%Z.eqb_eq]; reflexivity. }
  unfold n1. cbn [link_code]. destruct (Z.ltb_spec (p + 1) (p + 2)); [|lia]. cbn [negb]. rewrite E1. cbn [mbind outcome_bind]. cbv zeta.
  unfold i32. rewrite (signed_small 32 k) by (simpl; lia). fold (is_global k). rewrite Eg. cbn [mbind outcome_bind].
  destruct ((k <? 0) || (LOP_COUNT <=? k) || (g_optlen k <=? 0)) eqn:E; [done|].
  rewrite !orb_false_iff, Z.leb_gt in E. by rewrite link_code_end by lia.
Qed.

Lemma body_words_length body : (length body ≤ length (body_words body))%nat.
Proof.
  induction body as [|[op args] body IH]; [done|].
  change (body_words ((op, args) :: body)) with ((op :: args) ++ body_words body). rewrite length_app. cbn [length]. lia.
Qed.

(** The code of one function. *)
Lemma link_code_words body k fuel vm pre post p e :
  Forall instr_ok body → nargs_ok k → p = Z.of_nat (length pre) →
  e = p + Z.of_nat (length (body_words body ++ [LOP_RET; k])) → (Z.to_nat (e - p) ≤ fuel)%nat →
  link_code find_cfunc_autoload fuel consts tab vm (pre ++ body_words body ++ [LOP_RET; k] ++ post) p e =
    ('(body, vm) ← reloc_body vm body; Ret (pre ++ body_words body ++ [LOP_RET; k] ++ post, vm)).
Proof.
  intros Hb (Hk&Hk1&Hk2) Hp He Hf. rewrite length_app in He. cbn [length] in He. pose proof (body_words_length body) as Hlb.
  replace fuel with (length body + S (S (fuel - length body - 2)))%nat by lia.
  rewrite link_body by (done || lia). destruct (reloc_body vm body) as [[body' vm1]| | |] eqn:Er; [|done..]. cbn [mbind outcome_bind].
  apply reloc_body_length in Er. rewrite app_assoc.
  replace e with (p + Z.of_nat (length (body_words body)) + 2) by lia.
  rewrite link_ret; [|rewrite length_app; lia|unfold LOP_COUNT in Hk; lia].
  destruct (opcode_ok k Hk) as [_ ->]. unfold is_global. by rewrite (proj2 (Z.eqb_neq _ _) Hk1), (proj2 (Z.eqb_neq _ _) Hk2).
Qed.

Lemma link_fns_words fns vm pre post p :
  Forall fn_ok fns → p = Z.of_nat (length pre) →
  link_fns find_cfunc_autoload consts tab vm (pre ++ fns_words p fns ++ post) (zip (entries p fns) (codelen <$> fns)) =
    ('(fns, vm) ← reloc_fns vm fns; Ret (pre ++ fns_words p fns ++ post, vm)).
Proof.
  intros Hok. revert vm pre p. induction Hok as [|f fns [Hb Hk] Hok IH]; intros vm pre p Hp; [done|].
  change (zip (entries p (f :: fns)) (codelen <$> f :: fns))
    with ((p + 5, codelen f) :: zip (entries (p + 5 + codelen f) fns) (codelen <$> fns)).
  cbn [link_fns]. set (hd := [f_name f; p + 5; f_nargs f; f_maxd f; codelen f]).
  set (rest := fns_words (p + 5 + codelen f) fns ++ post).
  replace (pre ++ fns_words p (f :: fns) ++ post) with ((pre ++ hd) ++ body_words (f_body f) ++ [LOP_RET; f_nargs f] ++ rest)
    by (cbn [fns_words]; unfold fn_words, code_words, rest; by rewrite <- !app_assoc).
  rewrite link_code_words; [|done|done|rewrite length_app; simpl; lia|reflexivity|unfold codelen, code_words; lia].
  cbn [reloc_fns]. destruct (reloc_body vm (f_body f)) as [[body' vm1]| | |] eqn:Er; [|done..]. cbn [mbind outcome_bind].
  pose proof (reloc_body_length _ _ _ _ Er) as Hlen. set (f' := mk_fn (f_name f) (f_nargs f) (f_maxd f) body').
  assert (Hcl : codelen f' = codelen f) by (unfold codelen, code_words; rewrite !length_app; simpl; lia).
  replace ((pre ++ hd) ++ body_words body' ++ [LOP_RET; f_nargs f] ++ rest)
    with ((pre ++ fn_words p f') ++ fns_words (p + 5 + codelen f) fns ++ post)
    by (unfold fn_words, code_words, rest, hd; rewrite Hcl; by rewrite <- !app_assoc).
  rewrite IH; [|unfold fn_words; rewrite !length_app, <- Hcl; unfold codelen; simpl; lia].
  destruct (reloc_fns vm1 fns) as [[fns' vm2]| | |]; [|done..]. cbn [mbind outcome_bind fns_words]. rewrite Hcl.
  by rewrite <- !app_assoc.
Qed.
End LinkWritten.

Lemma reloc_fns_length find consts tab vm fns fns' vm' :
  reloc_fns find consts tab vm fns = Ret (fns', vm') → length fns' = length fns.
Proof.
  revert vm fns'. induction fns as [|f fns IH]; intros vm fns' E; cbn [reloc_fns] in E; [by injection E as <- <-|].
  destruct (reloc_body _ _ _ _ _) as [[b vm1]| | |]; try done. cbn [mbind outcome_bind] in E.
  destruct (reloc_fns _ _ _ _ fns) as [[l vm2]| | |] eqn:Er; try done. injection E as <- <-. simpl. by rewrite (IH vm1 l).
Qed.

(** * Properties *)
Definition unit_ok (u : unit_src) : Prop :=
  u_fns u ≠ [] ∧ Forall fn_ok (u_fns u) ∧ Forall (λ c, Forall byte (const_text_of c)) (u_consts u).

Section Properties.
Context (sym_fuel : nat) (strtod : list Z → double) (find_cfunc_autoload : VM → string → outcome (Z * VM)).

(** What loading a unit means: evaluate the constants, index the functions by
    the constants that name them, resolve the global references. *)
Definition load_consts (vm : VM) (cs : list const) : outcome (list Val * VM) :=
  match cs with
  | [] => Ret ([], vm)
  | _ => st ← alloc_tables 2 (Z.of_nat (length cs) * 8) (v_store vm); eval_consts sym_fuel strtod (set_v_store st vm) cs
  end.
Definition load_spec (u : unit_src) (vm : VM) : outcome (Image * VM) :=
  st ← alloc_tables 5 (Z.of_nat (length (u_fns u)) * 8) (v_store vm);
  '(vs, vm) ← load_consts (set_v_store st vm) (u_consts u);
  tab ← fn_of_sym_loop vs (replicate (length vs) (-1)) 0 (f_name <$> u_fns u);
  '(fns, vm) ← reloc_fns find_cfunc_autoload vs tab vm (u_fns u);
  Ret (mk_Image (unit_words (mk_unit fns (u_consts u))) (entries 3 (u_fns u)) (f_nargs <$> u_fns u) (f_maxd <$> u_fns u) vs, vm).
Definition load (ws : list Z) (vm : VM) : outcome (Image * VM) :=
  '(ui, vm) ← parse_unit sym_fuel strtod ws vm;
  link_unit find_cfunc_autoload ui vm.

Lemma entries_length p fns : length (entries p fns) = length fns.
Proof. revert p. induction fns as [|f fns IH]; intros p; [done|]. cbn. by rewrite IH. Qed.

Lemma zip_columns p fns (l := zip_with (λ f e, (f_name f, e, f_nargs f, f_maxd f, codelen f)) fns (entries p fns)) :
  ((λ '(_, e, _, _, _), e) <$> l) = entries p fns ∧ ((λ '(_, _, n, _, _), n) <$> l) = (f_nargs <$> fns) ∧
  ((λ '(_, _, _, d, _), d) <$> l) = (f_maxd <$> fns) ∧ ((λ '(_, _, _, _, c), c) <$> l) = (codelen <$> fns) ∧
  ((λ '(n, _, _, _, _), n) <$> l) = (f_name <$> fns).
Proof.
  unfold l. clear l. revert p. induction fns as [|f fns IH]; intros p; [done|]. cbn.
  destruct (IH (p + 5 + codelen f)) as (->&->&->&->&->). done.
Qed.

Lemma build_consts_words pre cs vm :
  Forall (λ c, Forall byte (const_text_of c)) cs →
  build_consts sym_fuel strtod (pre ++ consts_words cs) vm (Z.of_nat (length cs)) (Z.of_nat (length pre)) = load_consts vm cs.
Proof.
  intros Hb. unfold build_consts, load_consts. destruct cs as [|c cs]; [done|].
  destruct (Z.leb_spec (Z.of_nat (length (c :: cs))) 0); [simpl in *; lia|].
  destruct (alloc_tables 2 _ _) as [st| | |]; [|done..]. cbn [mbind outcome_bind].
  rewrite Nat2Z.id. rewrite <- (app_nil_r (consts_words (c :: cs))). by apply const_loop_words.
Qed.


(** The linker takes RET for one word although it has an operand, so it
    decodes the number of arguments as an opcode: a function with 41 or more
    arguments is refused as a bad opcode, whatever its code. *)
Theorem link_refuses_many_args consts tab f vm pre post p :
  Forall instr_ok (f_body f) → LOP_COUNT ≤ f_nargs f < 2 ^ 31 → p = Z.of_nat (length pre) →
  (∃ body' vm', reloc_body find_cfunc_autoload consts tab vm (f_body f) = Ret (body', vm')) →
  link_code find_cfunc_autoload (length (code_words f)) consts tab vm (pre ++ code_words f ++ post) p (p + codelen f) =
    Abort "bad opcode".
Proof.
  intros Hb Hk Hp (body'&vm'&Er). pose proof (body_words_length (f_body f)) as Hl. unfold codelen, code_words. rewrite length_app. cbn [length].
  replace (length (body_words (f_body f)) + 2)%nat
    with (length (f_body f) + S (S (length (body_words (f_body f)) - length (f_body f))))%nat at 1 by lia.
  rewrite <- app_assoc, link_body by (done || lia). rewrite Er. cbn [mbind outcome_bind]. apply reloc_body_length in Er.
  rewrite app_assoc. rewrite Nat2Z.inj_add, Z.add_assoc. rewrite link_ret; [|rewrite length_app; lia|unfold LOP_COUNT in Hk; lia].
  destruct (Z.leb_spec LOP_COUNT (f_nargs f)); [|lia]. by rewrite orb_true_r.
Qed.
End Properties.

(** ** A unit with two functions and a native call *)
Definition w_unit : unit_src :=
  mk_unit [mk_fn (-1) 0 6 [(LOP_RESERVE, [1]); (LOP_CONST, [1]); (LOP_PUSH, []); (LOP_GLOBAL, [0]); (LOP_CALL, [2]); (LOP_GLOBP, [2])];
           mk_fn 0 1 8 [(LOP_RESERVE, [0]); (LOP_LOAD, [1])]]
          [CSym (chars "id"); CInt 7; CSym (chars "num.abs"); CString (chars "hi")].
Definition w_find (vm : VM) (name : string) : outcome (Z * VM) := Ret (if bool_decide (name = "num.abs"%string) then 4 else -1, vm).
Definition w_linked : unit_src :=
  mk_unit [mk_fn (-1) 0 6 [(LOP_RESERVE, [1]); (LOP_CONST, [1]); (LOP_PUSH, []); (LOP_GLOBAL, [1]); (LOP_CALL, [2]); (LOP_GLOBP, [-5])];
           mk_fn 0 1 8 [(LOP_RESERVE, [0]); (LOP_LOAD, [1])]]
          (u_consts w_unit).

Lemma w_unit_ok : unit_ok w_unit.
Proof.
  split; [done|]. split; [|apply (bool_decide_unpack _); vm_compute; exact I].
  repeat (apply Forall_cons; split); [..|apply Forall_nil_2]; (split; [|unfold nargs_ok, LOP_COUNT, LOP_GLOBAL, LOP_GLOBP; simpl; lia]);
    repeat (apply Forall_cons; split; [split; [unfold LOP_COUNT; vm_compute; split; congruence|split; [done|reflexivity]]|]); apply Forall_nil_2.
Qed.


Lemma link_refuses_many_args_witness :
  link_code w_find 2 [] [] w_vm [LOP_RET; 41] 0 2 = Abort "bad opcode".
Proof.
  apply (link_refuses_many_args w_find [] [] (mk_fn (-1) 41 46 []) w_vm [] [] 0);
    [apply Forall_nil_2|unfold LOP_COUNT; simpl; lia|reflexivity|by exists [], w_vm].
Defined.
