(* ===== verification/Worker.v ===== *)
(** The run loop and the poller of src/scheduler.c: [worker_loop],
    [io_poller_thread], [vm_run].  Pool.v proves what they keep. *)
From stdpp Require Import base tactics list gmap strings.
From Stdlib Require Import ZArith Lia.
From S2P Require Import Prelude Values Heap Resource Gc GcCorrect GcSpec Tree Alloc Copy Fragment Runq Mailbox Symtab Vm Sched Builtin Ccall Interp Depth.
Open Scope Z_scope.

(** * Start *)
Definition keywords : list string :=
  ["quote"; "define"; "lambda"; "if"; "begin"; "let"; "letrec"; "match"; "spawn"; "send"; "recv"; "self";
   "monitor"; "cons"; "car"; "cdr"; "+"; "-"; "*"; "/"; "%"; "="; "!="; "<"; "<="; ">"; ">="; "null?"; "pair?"; "int?";
   "string?"; "bytes?"; "pid?"; "print"; "true"; "false"; "DOWN"; "nil"; "_"; "and"; "or"; "not"; "set!"].
Definition intern_keyword (sym_fuel : nat) (vm : VM) (name : string) : outcome VM :=
  '(_, vm) ← intern_vm sym_fuel vm name;
  Ret vm.
(** [vm_new], with the table's cap from the environment; no image is loaded
    yet. *)
Definition vm_new (sym_fuel : nat) (st : store) (procs_cap : Z) : outcome VM :=
  foldM (intern_keyword sym_fuel)
    (mk_VM st ∅ ∅ procs_cap 0 [] (runq_new 256) 0 0 (mk_Image [] [] [] [] []) (-1) false false false 0
       (mk_symtab [] 128 [] 0) 0 0 [] 0 false 0 [] 0) keywords.
(** The end of [host_init]: the entry process is main. *)
Definition host_entry (vm : VM) : outcome (Z * VM) :=
  '(p, vm) ← proc_new vm;
  let vm := set_v_main_pid p vm in
  pr ← get_proc vm p;
  '(st, m) ← proc_ensure_heap (v_store vm) (p_mem pr);
  Ret (p, put_mem p st m vm).

(** * The poller *)

(** The deadline of a waiting process, -1 when it has none. *)
Definition wait_deadline (pr : Proc) : Z :=
  match p_state pr with
  | PROC_WAIT_IO => p_wait_deadline pr
  | PROC_WAIT_RECV => p_recv_deadline pr
  | _ => -1
  end.

(** The scan before [poll]: the earliest deadline, the timers' included, and
    the descriptors to watch with the generation of each wait. *)
Fixpoint poller_scan (vm : VM) (deadline : Z) (l : list Z) : outcome (Z * list (Z * Z * Z * Z)) :=
  match l with
  | [] => Ret (deadline, [])
  | p :: l =>
      pr ← get_proc vm p;
      let d := wait_deadline pr in
      let deadline := if (0 <=? d) && ((deadline <? 0) || (d <? deadline)) then d else deadline in
      '(deadline, fds) ← poller_scan vm deadline l;
      Ret (deadline, if bool_decide (p_state pr = PROC_WAIT_IO)
                     then (p, p_wait_fd pr, p_wait_events pr, p_wait_generation pr) :: fds else fds)
  end.

Definition INT_MAX : Z := 2 ^ 31 - 1.
Definition poll_timeout (deadline now : Z) : Z :=
  if 0 <=? deadline then
    let delta := deadline - now in
    if delta <=? 0 then 0 else if INT_MAX <? delta then INT_MAX else delta
  else -1.

(** A descriptor of the set is ready: wake its process, if it is still in the
    wait that was polled. *)
Definition poller_ready (vm : VM) (p generation : Z) : outcome VM :=
  pr ← get_proc vm p;
  if p_wait_registered pr && (p_wait_generation pr =? generation) && bool_decide (p_state pr = PROC_WAIT_IO) then
    vm ← wait_unregister_locked (set_state p PROC_RUNNING vm) p;
    vm_enqueue vm p
  else Ret vm.

(** Expire one wait whose deadline has passed; whether the walk starts over. *)
Definition expire_one (vm : VM) (now p : Z) : outcome (bool * VM) :=
  pr ← get_proc vm p;
  let d := wait_deadline pr in
  if (0 <=? d) && (d <=? now) then
    if bool_decide (p_state pr = PROC_WAIT_RECV) then
      if (0 <=? p_recv_deadline pr) && (p_recv_deadline pr <=? now) then
        vm ← wait_unregister_locked (set_state p PROC_RUNNING (on_proc p (set_p_recv_deadline RECV_AFTER_EXPIRED) vm)) p;
        vm ← vm_enqueue vm p;
        Ret (true, vm)
      else Ret (true, vm)
    else if bool_decide (p_state pr = PROC_WAIT_IO) && p_wait_registered pr then
      vm ← wait_unregister_locked (set_state p PROC_RUNNING vm) p;
      vm ← vm_enqueue vm p;
      Ret (true, vm)
    else Ret (false, vm)
  else Ret (false, vm).

(** The walk of the wait list after [poll]; it starts over after each wake. *)
Fixpoint poller_expire (fuel : nat) (vm : VM) (now : Z) (l : list Z) : outcome VM :=
  match l with
  | [] => Ret vm
  | p :: l =>
      match fuel with
      | O => NoFuel
      | S fuel =>
          '(again, vm) ← expire_one vm now p;
          poller_expire fuel vm now (if (again : bool) then v_wait vm else l)
      end
  end.

(** * The workers *)
Definition DRAIN_QUANTA : Z := 64.
Definition DEADLOCK_SAMPLES : Z := 2.

(** Dequeue: the process to run, [None] when the queue is empty; a process
    that is not runnable any more is skipped. *)
Definition worker_take (vm : VM) : outcome (option (Z * bool) * VM) :=
  '(pid, q) ← runq_trydequeue (v_runq vm);
  let vm := set_v_runq q vm in
  if 0 <=? pid then
    match vm_proc_lookup vm pid with
    | None => Ret (Some (pid, false), vm)
    | Some p => pr ← get_proc vm p; Ret (Some (pid, bool_decide (p_state pr = PROC_RUNNING)), vm)
    end
  else Ret (None, vm).

(** After the slice: only a process that used up its budget is queued again. *)
Definition worker_put (vm : VM) (pid code : Z) : outcome VM :=
  if code =? R_YIELD then vm_enqueue vm pid else Ret vm.

(** After a process was taken: drain a bounded number of slices once the entry
    has ended.  [Some] = stop. *)
Definition worker_drain (vm : VM) (drain : Z) : Z * option VM :=
  if v_entry_done vm then
    (drain + 1, if DRAIN_QUANTA <=? drain + 1 then Some (vm_request_stop vm) else None)
  else (drain, None).

(** With an empty queue: stop when the entry has ended or died. *)
Definition worker_stop (vm : VM) (entry : Z) : option VM :=
  if v_entry_done vm || match vm_proc_lookup vm entry with None => true | Some _ => false end
  then Some (vm_request_stop vm) else None.

(** The deadlock sample after the wait. *)
Definition deadlock_sample (vm : VM) (busy suspect : Z) : outcome Z :=
  if (busy =? 0) && (rq_count (v_runq vm) =? 0) && (v_wait_count vm =? 0) then
    if DEADLOCK_SAMPLES <=? suspect + 1 then Abort "deadlock: no runnable or waiting procs" else Ret (suspect + 1)
  else Ret 0.

Section Run.
Context (cap stress : Z) (fuel sym_fuel : nat) (clock : nat → Z).
Context (cfunc_nargs : list Z) (cfunc_code : Z → VM → list Val → outcome (Val * VM)) (ccall_buf : Z).
Context (slice : nat).
Abbreviation run := (run_proc cap stress fuel sym_fuel clock cfunc_nargs cfunc_code ccall_buf slice).

(** One round of a worker that found work. *)
Definition worker_round (vm : VM) : outcome (option Z * VM) :=
  '(t, vm) ← worker_take vm;
  match t with
  | None => Ret (None, vm)
  | Some (pid, false) => Ret (Some pid, vm)
  | Some (pid, true) => '(code, vm) ← run vm pid; vm ← worker_put vm pid code; Ret (Some pid, vm)
  end.

(** The loop of the only worker of a pool of one.  While it waits on the empty
    queue the other threads act: [idle] is what they leave. *)
Inductive worker_end := Stopped (vm : VM).
Fixpoint worker_loop (n : nat) (idle : nat → VM → outcome VM) (vm : VM) (entry drain suspect : Z) : outcome worker_end :=
  match n with
  | O => NoFuel
  | S n =>
      if v_stop vm then Ret (Stopped vm)
      else
        '(t, vm) ← worker_round vm;
        match t with
        | Some _ =>
            match worker_drain vm drain with
            | (_, Some vm) => Ret (Stopped vm)
            | (drain, None) => worker_loop n idle vm entry drain 0
            end
        | None =>
            match worker_stop vm entry with
            | Some vm => Ret (Stopped vm)
            | None =>
                vm ← idle n vm;
                suspect ← deadlock_sample vm 0 suspect;
                worker_loop n idle vm entry drain suspect
            end
        end
  end.

(** [vm_run] up to the workers: frame of the entry, then the queue. *)
Definition vm_run_start (vm : VM) (entry : Z) : outcome VM :=
  vm ← proc_frame_init cap vm entry 0 val_nil;
  vm_enqueue vm entry.
Definition vm_run (n : nat) (idle : nat → VM → outcome VM) (vm : VM) (entry : Z) : outcome VM :=
  vm ← vm_run_start vm entry;
  r ← worker_loop n idle vm entry 0 0;
  match r with Stopped vm => Ret (set_v_stop false (vm_request_stop vm)) end.
End Run.
