(* ===== verification/Parking.v ===== *)
(** The scheduling invariant: a process is queued once, or in the hands of one
    worker, or parked where the poller and a sender find it; and that every
    primitive of the scheduler and of the actors keeps it. *)
From stdpp Require Import base tactics list gmap strings.
From Stdlib Require Import ZArith Lia.
From S2P Require Import Prelude Values Heap Resource Gc GcCorrect GcSpec Tree Alloc Copy Fragment Runq Mailbox Symtab Vm Sched Builtin Ccall Interp Depth.
Open Scope Z_scope.

(** * The scheduling invariant *)
Definition sfield (pr : Proc) : ProcState * bool := (p_state pr, p_wait_registered pr).
Definition sched (vm : VM) (p : Z) : option (ProcState * bool) := sfield <$> v_procs vm !! p.
Definition parked (s : ProcState) : bool := match s with PROC_WAIT_RECV | PROC_WAIT_IO => true | _ => false end.

(** [held]: the processes in the hands of the workers.  Main stays runnable
    for ever when the entry function has returned. *)
Definition runnable (vm : VM) (l : list Z) : Prop :=
  NoDup l ∧ (∀ p, p ∈ l → sched vm p = Some (PROC_RUNNING, false)) ∧
  (∀ p b, sched vm p = Some (PROC_RUNNING, b) → p ∈ l ∨ p = v_main_pid vm ∧ v_entry_done vm = true).
Record sched_ok (vm : VM) (held : list Z) : Prop := {
  so_queue : ∃ q, rq_repr (v_runq vm) q ∧ runnable vm (q ++ held);
  so_parked : ∀ p s b, sched vm p = Some (s, b) → b = parked s (** registered exactly while parked *);
  so_wait : ∀ p, p ∈ v_wait vm ↔ ∃ s, sched vm p = Some (s, true);
  so_wait_once : NoDup (v_wait vm) ∧ v_wait_count vm = Z.of_nat (length (v_wait vm));
  so_table : ∀ p s b, sched vm p = Some (s, b) → s ≠ PROC_DEAD → p ∈ v_table vm ∧ 0 ≤ p < v_procs_cap vm;
  so_next : 0 ≤ v_next_pid vm ∧ ∀ p, is_Some (sched vm p) → p < v_next_pid vm
}.

(** Operations that leave scheduling alone. *)
Record quiet (vm vm' : VM) : Prop := {
  qt_sched : ∀ p, sched vm' p = sched vm p;
  qt_runq : v_runq vm' = v_runq vm;
  qt_wait : v_wait vm' = v_wait vm;
  qt_count : v_wait_count vm' = v_wait_count vm;
  qt_table : v_table vm' = v_table vm;
  qt_cap : v_procs_cap vm' = v_procs_cap vm;
  qt_next : v_next_pid vm' = v_next_pid vm;
  qt_main : v_main_pid vm' = v_main_pid vm;
  qt_done : v_entry_done vm' = v_entry_done vm
}.
#[global] Instance quiet_refl : Reflexive quiet.
Proof. by intros vm. Qed.
#[global] Instance quiet_trans : Transitive quiet.
Proof. intros a b c [H1 ? ? ? ? ? ? ? ?] [H2 ? ? ? ? ? ? ? ?]. split; congruence. Qed.

Lemma quiet_ok vm vm' held : quiet vm vm' → sched_ok vm held → sched_ok vm' held.
Proof.
  intros [Hs Hq Hw Hc Ht Hcap Hn Hm Hd] [(q&R&N&H1&H2) P W O T X]. split.
  - exists q. unfold runnable. rewrite Hq, Hm, Hd. split; [done|]. split; [done|]. split; [intros p; rewrite Hs; apply H1|].
    intros p b. rewrite Hs. apply H2.
  - intros p s b. rewrite Hs. apply P.
  - intros p. rewrite Hw, W. by setoid_rewrite Hs.
  - by rewrite Hw, Hc.
  - intros p s b. rewrite Hs, Ht, Hcap. apply T.
  - rewrite Hn. split; [apply X|]. intros p. rewrite Hs. apply X.
Qed.

Lemma sched_on_proc p f vm q : sched (on_proc p f vm) q = if decide (q = p) then sfield ∘ f <$> v_procs vm !! p else sched vm q.
Proof.
  unfold sched. rewrite lookup_on_proc. destruct (decide (q = p)) as [->|]; [|done]. by rewrite <- option_fmap_compose.
Qed.

(** An update of fields of a process other than its scheduling fields. *)
Lemma quiet_on_proc p f vm : (∀ pr, sfield (f pr) = sfield pr) → quiet vm (on_proc p f vm).
Proof.
  intros Hf. split; try done. intros q. rewrite sched_on_proc. destruct (decide (q = p)) as [->|]; [|done].
  unfold sched. destruct (v_procs vm !! p); [|done]. simpl. by rewrite Hf.
Qed.
Lemma quiet_proc a p f vm : (∀ pr, sfield (f pr) = sfield pr) → quiet a vm → quiet a (on_proc p f vm).
Proof. intros Hf H. etrans; [exact H|]. by apply quiet_on_proc. Qed.

(** The machine's own fields that scheduling does not read. *)
Lemma quiet_fields a vm :
  quiet a vm →
  (∀ x, quiet a (set_v_store x vm)) ∧ (∀ x, quiet a (set_v_symtab x vm)) ∧ (∀ x, quiet a (set_v_reads x vm)) ∧
  (∀ x, quiet a (set_v_recv_armed x vm)) ∧ (∀ x, quiet a (set_v_next_ref x vm)) ∧ (∀ x, quiet a (set_v_wakes x vm)) ∧
  (∀ x, quiet a (set_v_stop x vm)) ∧ (∀ x, quiet a (set_v_active x vm)) ∧ (∀ x, quiet a (set_v_procs_count x vm)) ∧
  (∀ x, quiet a (set_v_closed x vm)) ∧ (∀ x, quiet a (set_v_retired x vm)) ∧ (∀ x, quiet a (set_v_main_crashed x vm)) ∧
  (∀ x, quiet a (set_v_exit_val x vm)).
Proof. intros H. repeat split; apply H. Qed.
Ltac quiet :=
  unfold publish, pub_sp, set_acc, put_mem, disarm, set_deadline, on_mem, vm_wake_poller, vm_request_stop;
  repeat first [reflexivity | assumption | apply quiet_proc; [done|] | apply quiet_fields].

(** ** The transitions of a process *)
#[global] Instance runnable_perm vm : Proper ((≡ₚ) ==> iff) (runnable vm).
Proof.
  assert (H : ∀ l l', l ≡ₚ l' → runnable vm l → runnable vm l').
  { intros l l' Hp (N&H1&H2). split; [by rewrite <- Hp|]. split; [intros p; rewrite <- Hp; apply H1|].
    intros p b. rewrite <- Hp. apply H2. }
  intros l l' Hp. split; by apply H.
Qed.

(** One process changes its scheduling fields, the queue stays. *)
Record moved (vm vm' : VM) (p : Z) (f : ProcState * bool) : Prop := {
  mv_sched : ∀ q, sched vm' q = if decide (q = p) then Some f else sched vm q;
  mv_runq : v_runq vm' = v_runq vm;
  mv_cap : v_procs_cap vm' = v_procs_cap vm;
  mv_main : v_main_pid vm' = v_main_pid vm;
  mv_done : v_entry_done vm' = v_entry_done vm
}.

Lemma runnable_add vm vm' p b0 s0 l :
  runnable vm l → sched vm p = Some (s0, b0) → s0 ≠ PROC_RUNNING → moved vm vm' p (PROC_RUNNING, false) → runnable vm' (p :: l).
Proof.
  intros (N&H1&H2) Hp Hs [Hm _ _ Ema Ed]. assert (p ∉ l) by (intros Hl; rewrite (H1 p Hl) in Hp; congruence).
  split; [by constructor|]. split.
  - intros q. rewrite Hm, elem_of_cons. case_decide; naive_solver.
  - intros q b. rewrite Hm, Ema, Ed, elem_of_cons. case_decide; naive_solver.
Qed.
Lemma runnable_remove vm vm' p f l :
  runnable vm (p :: l) → f.1 ≠ PROC_RUNNING → moved vm vm' p f → runnable vm' l.
Proof.
  intros (N&H1&H2) Hf [Hm _ _ Ema Ed]. apply NoDup_cons in N as [Hn N]. split; [done|].
  split; intros q; rewrite Hm, ?Ema, ?Ed; case_decide; subst; try done.
  - intros Hq. apply H1. by right.
  - destruct f as [s b0]. by intros b [= -> ->].
  - intros b Hb. destruct (H2 q b Hb) as [Hq|]; [|by right]. apply elem_of_cons in Hq as [|]; [done|by left].
Qed.

(** The wait list without one of its members. *)
Lemma elem_of_unlink p l q : NoDup l → q ∈ unlink p l ↔ q ∈ l ∧ q ≠ p.
Proof.
  induction 1 as [|x l Hx N IH]; cbn [unlink]; [set_solver|]. destruct (Z.eqb_spec x p) as [->|]; set_solver.
Qed.
Lemma NoDup_unlink p l : NoDup l → NoDup (unlink p l).
Proof.
  induction 1 as [|x l Hx N IH]; cbn [unlink]; [constructor|]. destruct (Z.eqb_spec x p) as [->|]; [done|].
  constructor; [|done]. rewrite elem_of_unlink by done. naive_solver.
Qed.
Lemma length_unlink p l : p ∈ l → Z.of_nat (length (unlink p l)) = Z.of_nat (length l) - 1.
Proof.
  induction l as [|x l IH]; intros Hp; [by apply elem_of_nil in Hp|]. cbn [unlink].
  destruct (Z.eqb_spec x p) as [->|]; cbn [length]; [lia|]. apply elem_of_cons in Hp as [?|Hp]; [congruence|]. specialize (IH Hp). lia.
Qed.

(** A parked process is woken: into the hands of who woke it. *)
Lemma wake_ok vm vm' p s held :
  sched_ok vm held → sched vm p = Some (s, true) → moved vm vm' p (PROC_RUNNING, false) →
  v_wait vm' = unlink p (v_wait vm) → v_wait_count vm' = v_wait_count vm - 1 → v_table vm' = v_table vm →
  v_next_pid vm' = v_next_pid vm → sched_ok vm' (p :: held).
Proof.
  intros [(q&R&Hr) P W [Wn Wc] T [X0 X]] Hp M Ew Ec Et En. pose proof (P _ _ _ Hp) as Hpk.
  assert (Hs : s ≠ PROC_RUNNING) by (intros ->; done). destruct M as [Hm Eq Ecap Ema Ed] eqn:EM. split.
  - exists q. rewrite Eq. split; [done|]. rewrite <- Permutation_middle. by eapply runnable_add.
  - intros x s' b. rewrite Hm. case_decide; [by intros [= <- <-]|apply P].
  - intros x. rewrite Ew, elem_of_unlink, W by done. setoid_rewrite Hm. case_decide; naive_solver.
  - rewrite Ew, Ec, length_unlink, Wc; [split; [by apply NoDup_unlink|done]|]. apply W. eauto.
  - intros x s' b. rewrite Hm, Et, Ecap. case_decide; [subst|apply T]. intros _ _. apply (T p s true Hp). by destruct s.
  - rewrite En. split; [done|]. intros x. rewrite Hm. case_decide; [subst; intros _; apply X; eauto|apply X].
Qed.

(** A process in hand parks itself. *)
Lemma park_ok vm vm' p s held :
  sched_ok vm (p :: held) → parked s = true → moved vm vm' p (s, true) →
  v_wait vm' = p :: v_wait vm → v_wait_count vm' = v_wait_count vm + 1 → v_table vm' = v_table vm →
  v_next_pid vm' = v_next_pid vm → sched_ok vm' held.
Proof.
  intros [(q&R&Hr) P W [Wn Wc] T [X0 X]] Hs M Ew Ec Et En. rewrite <- Permutation_middle in Hr.
  assert (Hp : sched vm p = Some (PROC_RUNNING, false)) by (apply Hr; by left).
  destruct M as [Hm Eq Ecap Ema Ed] eqn:EM. split.
  - exists q. rewrite Eq. split; [done|]. eapply runnable_remove; [done| |done]. by destruct s.
  - intros x s' b. rewrite Hm. case_decide; [by intros [= <- <-]|apply P].
  - intros x. rewrite Ew, elem_of_cons, W. setoid_rewrite Hm. case_decide; naive_solver.
  - rewrite Ew, Ec, Wc. split; [|cbn [length]; lia]. constructor; [|done]. rewrite W, Hp. naive_solver.
  - intros x s' b. rewrite Hm, Et, Ecap. case_decide; [subst|apply T]. intros _ _. by apply (T p _ _ Hp).
  - rewrite En. split; [done|]. intros x. rewrite Hm. case_decide; [subst; intros _; apply X; eauto|apply X].
Qed.

(** A process in hand dies. *)
Lemma dead_ok vm vm' p held :
  sched_ok vm (p :: held) → moved vm vm' p (PROC_DEAD, false) →
  v_wait vm' = v_wait vm → v_wait_count vm' = v_wait_count vm → v_table vm' = v_table vm ∖ {[ p ]} →
  v_next_pid vm' = v_next_pid vm → sched_ok vm' held.
Proof.
  intros [(q&R&Hr) P W [Wn Wc] T [X0 X]] M Ew Ec Et En. rewrite <- Permutation_middle in Hr.
  assert (Hp : sched vm p = Some (PROC_RUNNING, false)) by (apply Hr; by left).
  destruct M as [Hm Eq Ecap Ema Ed] eqn:EM. split.
  - exists q. rewrite Eq. split; [done|]. by eapply (runnable_remove _ _ _ (PROC_DEAD, false)).
  - intros x s' b. rewrite Hm. case_decide; [by intros [= <- <-]|apply P].
  - intros x. rewrite Ew, W. setoid_rewrite Hm. case_decide; [subst; rewrite Hp|]; naive_solver.
  - by rewrite Ew, Ec.
  - intros x s' b. rewrite Hm, Et, Ecap. case_decide; [by intros [= <- <-]|]. intros Hx Hd. destruct (T x s' b Hx Hd). set_solver.
  - rewrite En. split; [done|]. intros x. rewrite Hm. case_decide; [subst; intros _; apply X; eauto|apply X].
Qed.

(** ** The run queue *)
Lemma enqueue_repr q l p q' : rq_repr q l → runq_enqueue q p = Ret q' → rq_repr q' (l ++ [p]).
Proof.
  intros R. unfold runq_enqueue. destruct (Z.leb_spec (rq_cap q) (rq_tail q - rq_head q)) as [Hle|Hlt].
  - destruct (decide (rq_cap q < 2 ^ 30)) as [Hc|Hc].
    + destruct (rq_grow_repr q l R Hc) as (q1&->&R1&Ec&Et). cbn [mbind outcome_bind]. pose proof (rr_len _ _ R) as Hl.
      pose proof (rr_cap _ _ R) as Hc1. pose proof (rr_fit _ _ R) as Hf1. intros H. returns. apply rq_put_repr; [done|]. lia.
    + unfold rq_grow, in_i32. cbv zeta. destruct (Z.ltb_spec (rq_cap q * 2) (2 ^ 31)); [lia|]. rewrite andb_false_r. done.
  - cbn [mbind outcome_bind]. intros H. returns. apply rq_put_repr; [done|]. pose proof (rr_len _ _ R). lia.
Qed.

(** A process in hand goes to the queue. *)
Lemma enqueue_ok vm p vm' held : sched_ok vm (p :: held) → vm_enqueue vm p = Ret vm' → sched_ok vm' held.
Proof.
  intros [(q&R&Hr) P W Wn T X]. unfold vm_enqueue. intros H. returns. split; try done.
  exists (q ++ [p]). split; [by eapply enqueue_repr|]. by rewrite <- app_assoc.
Qed.

(** ** Birth *)
Lemma new_ok vm p vm' held : sched_ok vm held → proc_new vm = Ret (p, vm') → sched_ok vm' (p :: held).
Proof.
  intros [(q&R&N&H1&H2) P W [Wn Wc] T [X0 X]]. unfold proc_new. cbv zeta. change (v_procs_cap (set_v_next_pid _ vm)) with (v_procs_cap vm). destruct (Z.leb_spec (v_procs_cap vm) (v_next_pid vm)) as [|Hlt]; [done|].
  intros H. apply Ret_inj, pair_equal_spec in H as [<- <-]. set (n := v_next_pid vm). set (vm' := set_v_active _ _).
  assert (Hnew : sched vm n = None).
  { destruct (sched vm n) eqn:E; [|done]. assert (n < n) by (apply X; eauto). lia. }
  assert (Hs : ∀ x, sched vm' x = if decide (x = n) then Some (PROC_RUNNING, false) else sched vm x).
  { intros x. unfold sched, vm', put_proc. cbn. case_decide; [subst; by rewrite lookup_insert_eq|by rewrite lookup_insert_ne]. }
  split.
  - exists q. split; [done|]. rewrite <- Permutation_middle. assert (n ∉ q ++ held) by (intros Hn; rewrite (H1 _ Hn) in Hnew; done).
    split; [by constructor|]. split; intros x; [|intros b]; rewrite Hs, elem_of_cons; [|change (v_main_pid vm') with (v_main_pid vm); change (v_entry_done vm') with (v_entry_done vm)]; case_decide; naive_solver.
  - intros x s b. rewrite Hs. case_decide; [by intros [= <- <-]|apply P].
  - intros x. change (v_wait vm') with (v_wait vm). rewrite W. setoid_rewrite Hs. case_decide; [subst; rewrite Hnew; naive_solver|done].
  - done.
  - intros x s b. rewrite Hs. cbn. case_decide; [subst; intros _ _; split; [set_solver|]; fold n; lia|]. intros Hx Hd.
    destruct (T x s b Hx Hd). set_solver.
  - cbn. fold n. split; [lia|]. intros x. rewrite Hs. case_decide; [lia|]. intros Hx. apply X in Hx. fold n in Hx. lia.
Qed.

(** ** Shutdown when main has died *)
Lemma clear_waits l : ∀ vm, ∃ vm',
  foldl clear_wait vm l = vm' ∧
  (∀ q, sched vm' q = if decide (q ∈ l) then (λ f, (f.1, false)) <$> sched vm q else sched vm q) ∧
  v_wait_count vm' = v_wait_count vm - Z.of_nat (length l) ∧ v_runq vm' = v_runq vm ∧ v_wait vm' = v_wait vm ∧
  v_table vm' = v_table vm ∧ v_procs_cap vm' = v_procs_cap vm ∧ v_next_pid vm' = v_next_pid vm ∧
  v_main_pid vm' = v_main_pid vm ∧ v_entry_done vm' = v_entry_done vm.
Proof.
  induction l as [|p l IH]; intros vm; [exists vm; repeat split; try done; simpl; lia|]. cbn [foldl].
  destruct (IH (clear_wait vm p)) as (vm'&->&Hs&Hc&Hrest). exists vm'. split; [done|]. split; [|split; [rewrite Hc; cbn; lia|done]].
  intros q. rewrite Hs. unfold clear_wait. change (sched (set_v_wait_count ?c ?v) q) with (sched v q). rewrite sched_on_proc.
  unfold sched. destruct (decide (q = p)) as [->|Hne].
  - rewrite (decide_True (P := p ∈ p :: l)) by set_solver. case_decide; by destruct (v_procs vm !! p).
  - by rewrite (decide_ext (q ∈ p :: l) (q ∈ l)) by set_solver.
Qed.

Definition killed (f : ProcState * bool) : ProcState * bool := if parked f.1 then (PROC_DEAD, f.2) else f.
Lemma kill_parked_sched vm p q :
  sched (kill_parked vm p) q = (if decide (q = p ∧ p ∈ v_table vm) then killed <$> sched vm q else sched vm q) ∧
  v_table (kill_parked vm p) = v_table vm.
Proof.
  unfold kill_parked, sched. destruct (v_procs vm !! p) as [pr|] eqn:Hp; [|split; [|done]; case_decide as Hd; [destruct Hd as [-> _]; by rewrite Hp|done]].
  case_bool_decide as Ht; cbn [andb].
  2: { split; [|done]. rewrite decide_False by naive_solver. done. }
  destruct (bool_decide (p_state pr = PROC_WAIT_IO) || bool_decide (p_state pr = PROC_WAIT_RECV)) eqn:E; (split; [|done]).
  - cbn [v_procs set_v_active set_state]. unfold set_state. rewrite lookup_on_proc.
    destruct (decide (q = p)) as [->|]; [|rewrite decide_False by naive_solver; done]. rewrite decide_True by done. rewrite Hp. simpl.
    unfold killed, sfield. cbn. apply orb_prop in E. destruct (p_state pr); naive_solver.
  - destruct (decide (q = p ∧ p ∈ v_table vm)) as [[-> _]|]; [|done]. rewrite Hp. simpl. apply orb_false_elim in E as [E1 E2].
    apply bool_decide_eq_false in E1, E2. unfold killed, sfield. cbn. by destruct (p_state pr).
Qed.

Lemma kill_parked_quiet vm p :
  v_runq (kill_parked vm p) = v_runq vm ∧ v_wait (kill_parked vm p) = v_wait vm ∧
  v_wait_count (kill_parked vm p) = v_wait_count vm ∧ v_procs_cap (kill_parked vm p) = v_procs_cap vm ∧
  v_next_pid (kill_parked vm p) = v_next_pid vm ∧ v_main_pid (kill_parked vm p) = v_main_pid vm ∧
  v_entry_done (kill_parked vm p) = v_entry_done vm.
Proof. unfold kill_parked. by repeat case_match. Qed.
Lemma kill_all l : ∀ vm, ∃ vm',
  foldl kill_parked vm l = vm' ∧
  (∀ q, sched vm' q = if decide (q ∈ l ∧ q ∈ v_table vm) then killed <$> sched vm q else sched vm q) ∧
  v_wait_count vm' = v_wait_count vm ∧ v_runq vm' = v_runq vm ∧ v_wait vm' = v_wait vm ∧
  v_table vm' = v_table vm ∧ v_procs_cap vm' = v_procs_cap vm ∧ v_next_pid vm' = v_next_pid vm ∧
  v_main_pid vm' = v_main_pid vm ∧ v_entry_done vm' = v_entry_done vm.
Proof.
  induction l as [|p l IH]; intros vm; cbn [foldl].
  { exists vm. by repeat split. }
  destruct (IH (kill_parked vm p)) as (vm'&->&Hs&H1&H2&H3&H4&H5&H6&H7&H8). exists vm'. split; [done|].
  destruct (kill_parked_quiet vm p) as (G1&G2&G3&G4&G5&G6&G7). destruct (kill_parked_sched vm p 0) as [_ Ht].
  split; [|repeat split; congruence].
  intros q. rewrite Hs, Ht. destruct (kill_parked_sched vm p q) as [-> _].
  destruct (decide (q = p)) as [->|Hne].
  - destruct (decide (p ∈ v_table vm)) as [Hin|Hout].
    + rewrite (decide_True (P := p = p ∧ _)), (decide_True (P := p ∈ p :: l ∧ _)) by set_solver.
      case_decide; [|done]. rewrite <- option_fmap_compose. apply option_fmap_ext. intros [[] b]; done.
    + by rewrite !decide_False by naive_solver.
  - rewrite (decide_False (P := q = p ∧ _)) by naive_solver. by rewrite (decide_ext (q ∈ p :: l ∧ _) (q ∈ l ∧ q ∈ v_table vm)) by set_solver.
Qed.

(** Everything parked dies, nothing stays registered. *)
Lemma clear_and_kill_ok vm held :
  sched_ok vm held →
  sched_ok (foldl kill_parked (foldl clear_wait (set_v_wait [] vm) (v_wait vm)) (seqZ 0 (v_procs_cap vm))) held.
Proof.
  intros [(q&R&N&H1&H2) P W [Wn Wc] T [X0 X]].
  destruct (clear_waits (v_wait vm) (set_v_wait [] vm)) as (v1&->&Hs1&C1&C2&C3&C4&C5&C6&C7&C8).
  destruct (kill_all (seqZ 0 (v_procs_cap vm)) v1) as (v2&->&Hs2&D1&D2&D3&D4&D5&D6&D7&D8).
  change (v_table (set_v_wait [] vm)) with (v_table vm) in C4. change (∀ q, sched v1 q = if decide (q ∈ v_wait vm) then (λ f, (f.1, false)) <$> sched vm q else sched vm q) in Hs1.
  assert (Hs : ∀ x, sched v2 x = (λ f, if parked f.1 then (PROC_DEAD, false) else f) <$> sched vm x).
  { intros x. rewrite Hs2, Hs1, C4. destruct (sched vm x) as [[s b]|] eqn:E; [|by repeat case_decide].
    destruct (parked s) eqn:Hp.
    - assert (b = true) as -> by (by rewrite (P _ _ _ E)). assert (x ∈ v_wait vm) by (apply W; eauto).
      destruct (T x s true E) as [Ht Hr]; [by destruct s|]. rewrite !decide_True; [|done|]; simpl; unfold killed; simpl; rewrite ?Hp; [done|].
      split; [|done]. apply elem_of_seqZ. lia.
    - rewrite (decide_False (P := x ∈ v_wait vm)); [|intros Hx; apply W in Hx as [s' Hs']; rewrite E in Hs'; injection Hs' as -> ->; by rewrite <- (P _ _ _ E) in Hp].
      simpl. rewrite Hp. case_decide; [|done]. simpl. unfold killed. simpl. by rewrite Hp. }
  assert (Hrun : ∀ x b, sched v2 x = Some (PROC_RUNNING, b) ↔ sched vm x = Some (PROC_RUNNING, b)).
  { intros x b. rewrite Hs. destruct (sched vm x) as [[[] ?]|]; simpl; naive_solver. }
  split.
  - exists q. rewrite D2, C2. split; [done|]. split; [done|]. split; [intros x Hx; apply Hrun; by apply H1|].
    intros x b. rewrite Hrun, D7, C7, D8, C8. apply H2.
  - intros x s b. rewrite Hs. destruct (sched vm x) as [[s' b']|] eqn:E; [|done]. simpl.
    destruct (parked s') eqn:Hp; intros [= <- <-]; [done|]. by apply (P x).
  - intros x. rewrite D3, C3. cbn. split; [by intros ?%elem_of_nil|]. intros [s Hx]. rewrite Hs in Hx.
    destruct (sched vm x) as [[s' b']|] eqn:E; [|done]. simpl in Hx. destruct (parked s') eqn:Hp; injection Hx as ? ?; subst; [congruence|].
    by rewrite <- (P _ _ _ E) in Hp.
  - rewrite D3, C3, D1, C1. cbn. split; [constructor|]. lia.
  - intros x s b. rewrite Hs, D4, C4, D5, C5. destruct (sched vm x) as [[s' b']|] eqn:E; [|done]. simpl.
    destruct (parked s'); intros [= <- <-]; [done|]. by apply (T x s' b').
  - rewrite D6, C6. cbn. split; [done|]. intros x. rewrite Hs. destruct (sched vm x) eqn:E; [|by intros []]. intros _. apply X. eauto.
Qed.
Lemma shutdown_ok vm p held : sched_ok vm held → sched_ok (die_shutdown vm p) held.
Proof.
  intros Hok. unfold die_shutdown. destruct (v_active vm =? 0); [by apply (quiet_ok vm)|]. destruct (p =? v_main_pid vm); [|done].
  cbv zeta. change (v_wait (set_v_main_dead true vm)) with (v_wait vm).
  set (v1 := foldl clear_wait _ _). set (v2 := foldl kill_parked v1 _).
  assert (Hv : sched_ok v2 held).
  { unfold v2. replace (v_procs_cap v1) with (v_procs_cap (set_v_main_dead true vm)) 
      by (unfold v1; destruct (clear_waits (v_wait vm) (set_v_wait [] (set_v_main_dead true vm))) as (v&->&_&_&_&_&_&Hc&_); by rewrite Hc).
    apply (clear_and_kill_ok (set_v_main_dead true vm)). by apply (quiet_ok vm). }
  case_match; by apply (quiet_ok v2).
Qed.

(** ** Delivery and death *)
Lemma wake_parked_ok vm p s f vm' held :
  sched_ok vm held → sched vm p = Some (s, true) → (∀ pr, sfield (f pr) = (PROC_RUNNING, p_wait_registered pr)) →
  wait_unregister_locked (on_proc p f vm) p = Ret vm' → sched_ok vm' (p :: held).
Proof.
  intros Hok Hp Hf. unfold wait_unregister_locked, get_proc. rewrite lookup_on_proc, decide_True by done.
  unfold sched in Hp. destruct (v_procs vm !! p) as [pr|] eqn:E; [|done]. injection Hp as Es Er.
  assert (p_wait_registered (f pr) = true) as Hr by (specialize (Hf pr); unfold sfield in Hf; injection Hf as _ ->; done).
  cbn [fmap option_fmap option_map or_undef mbind outcome_bind]. rewrite Hr. intros [= <-].
  apply (wake_ok vm _ p s); try done; [unfold sched; rewrite E; simpl; unfold sfield; by rewrite Es, Er|].
  split; try done. intros q. cbn [sched]. change (sched (set_v_wait_count ?c (set_v_wait ?w ?v)) q) with (sched v q).
  rewrite !sched_on_proc. case_decide; [subst|done]. rewrite lookup_on_proc, decide_True, E by done. simpl.
  specialize (Hf pr). unfold sfield in *. simpl. by injection Hf as -> _.
Qed.

Lemma unregister_ok vm p s f vm' held :
  sched_ok vm held → sched vm p = Some (s, true) → (∀ pr, sfield (f pr) = (PROC_RUNNING, p_wait_registered pr)) →
  vm_wait_unregister (on_proc p f vm) p = Ret vm' → sched_ok vm' (p :: held).
Proof.
  intros Hok Hp Hf. unfold vm_wait_unregister. intros H. apply bind_Ret in H as (vm1&Hu&H). returns.
  eapply quiet_ok; [|by eapply wake_parked_ok]. quiet.
Qed.
Lemma sched_ok_state vm held p pr :
  sched_ok vm held → v_procs vm !! p = Some pr → parked (p_state pr) = true → sched vm p = Some (p_state pr, true).
Proof.
  intros Hok E Hp. assert (Hs : sched vm p = Some (sfield pr)) by (unfold sched; by rewrite E). rewrite Hs.
  unfold sfield in *. rewrite (so_parked _ _ Hok _ _ _ Hs). by rewrite Hp.
Qed.

Section Effects.
Context (cap stress : Z) (fuel sym_fuel : nat).

Lemma deliver_ok cur vm t msg rc vm' held :
  mbox_deliver fuel cur vm t msg = Ret (rc, vm') → sched_ok vm held → sched_ok vm' held.
Proof.
  unfold mbox_deliver. cbv zeta. intros H Hok. apply bind_Ret in H as ([need res]&_&H). apply bind_Ret in H as (ok&_&H).
  destruct (negb ok); [by returns|]. destruct (malloc _ _) as [[frag st]|]; [|by returns].
  apply bind_Ret in H as ([[root st1] size]&_&H). apply bind_Ret in H as (tr&Ht&H). apply or_undef_Ret in Ht. change (v_procs vm !! t = Some tr) in Ht.
  destruct (bool_decide (p_state tr = PROC_DEAD)); [returns; eapply quiet_ok; [|done]; quiet|].
  apply bind_Ret in H as (box&_&H). apply bind_Ret in H as (vm1&Hv&H).
  assert (Hq : quiet vm vm1) by (returns; quiet).
  assert (Hs : sched vm1 t = Some (sfield tr)) by (rewrite (qt_sched _ _ Hq); unfold sched; by rewrite Ht).
  apply (quiet_ok _ _ _ Hq) in Hok. case_bool_decide as Hw; [|by returns].
  apply bind_Ret in H as (vm2&Hu&H). apply bind_Ret in H as (vm3&He&H). apply Ret_inj, pair_equal_spec in H as [_ <-].
  eapply enqueue_ok; [|exact He].
  eapply (unregister_ok vm1 t PROC_WAIT_RECV (set_p_state PROC_RUNNING)); [done| |done|exact Hu].
  rewrite Hs. unfold sfield. by rewrite (so_parked _ _ Hok _ _ _ Hs), Hw.
Qed.

(** Operations on the memory of the process. *)
Lemma push_quiet vm p v vm' : vm_push cap vm p v = Ret vm' → quiet vm vm'.
Proof. unfold vm_push. intros H. returns. quiet. Qed.
Lemma pop_quiet vm p v vm' : vm_pop vm p = Ret (v, vm') → quiet vm vm'.
Proof. unfold vm_pop. intros H. returns. quiet. Qed.
Lemma drain_quiet vm p vm' : vm_drain cap vm p = Ret vm' → quiet vm vm'.
Proof. unfold vm_drain. intros H. returns. quiet. Qed.
Lemma mbox_pop_quiet vm p v vm' : mbox_pop cap stress fuel vm p = Ret (v, vm') → quiet vm vm'.
Proof. unfold mbox_pop. intros H. returns. quiet. Qed.
Lemma intern_quiet vm name id vm' : intern_vm sym_fuel vm name = Ret (id, vm') → quiet vm vm'.
Proof. unfold intern_vm. intros H. returns. quiet. Qed.
Lemma frame_init_quiet vm p fid v vm' : proc_frame_init cap vm p fid v = Ret vm' → quiet vm vm'.
Proof. unfold proc_frame_init. intros H. returns. quiet. Qed.

Lemma notify_ok cur p reason vm w vm' held :
  notify_watcher cap stress fuel sym_fuel cur p reason vm w = Ret vm' → sched_ok vm held → sched_ok vm' held.
Proof.
  unfold notify_watcher. destruct w as [wid ref]. destruct (vm_proc_lookup vm wid) as [w|]; [|intros H; by returns].
  intros H Hok. apply bind_Ret in H as (wr&_&H). case_bool_decide; [by returns|].
  apply bind_Ret in H as ([s vm1]&Hi&H). apply bind_Ret in H as (pr&_&H). apply bind_Ret in H as ([[m st] mm]&_&H).
  apply bind_Ret in H as ([rc vm2]&Hd&H). returns. eapply deliver_ok; [exact Hd|].
  eapply quiet_ok; [|exact Hok]. apply intern_quiet in Hi. quiet.
Qed.
Lemma notify_all_ok cur p reason l : ∀ vm vm' held,
  foldM (notify_watcher cap stress fuel sym_fuel cur p reason) vm l = Ret vm' → sched_ok vm held → sched_ok vm' held.
Proof.
  intros vm vm' held H Hok. eapply (foldM_inv (λ vm, sched_ok vm held)); [|exact Hok|exact H].
  intros v w v' _ Hv Hn. by eapply notify_ok.
Qed.

Lemma held_running vm held p : sched_ok vm held → p ∈ held → sched vm p = Some (PROC_RUNNING, false).
Proof. intros [(q&_&_&H1&_) _ _ _ _ _] Hp. apply H1. set_solver. Qed.

(** The head of [proc_die]: out of the table. *)
Lemma mark_dead_ok vm b p vm1 n k held :
  sched_ok vm (p :: held) → quiet vm b → vm_wait_unregister (set_state p PROC_DEAD b) p = Ret vm1 →
  sched_ok (set_v_procs_count n (set_v_table (v_table vm1 ∖ {[ p ]}) (set_v_active k vm1))) held.
Proof.
  intros Hok Hq. pose proof (held_running _ _ p (quiet_ok _ _ _ Hq Hok) ltac:(by left)) as Hp.
  unfold vm_wait_unregister, wait_unregister_locked, get_proc, set_state. rewrite lookup_on_proc, decide_True by done.
  unfold sched in Hp. destruct (v_procs b !! p) as [pr|] eqn:E; [|done]. injection Hp as Es Er.
  cbn [fmap option_fmap option_map or_undef mbind outcome_bind]. change (p_wait_registered (set_p_state PROC_DEAD pr)) with (p_wait_registered pr).
  rewrite Er. cbn [mbind outcome_bind]. intros [= <-]. apply (dead_ok b _ p); [by apply (quiet_ok vm)| |done..].
  split; try done. intros q. change (sched (on_proc p (set_p_state PROC_DEAD) b) q = if decide (q = p) then Some (PROC_DEAD, false) else sched b q).
  rewrite sched_on_proc. case_decide; [|done]. rewrite E. simpl. unfold sfield. simpl. by rewrite Er.
Qed.

Lemma die_ok cur vm p reason vm' held :
  proc_die cap stress fuel sym_fuel cur vm p reason = Ret vm' → sched_ok vm (p :: held) → sched_ok vm' held.
Proof.
  unfold proc_die. cbv zeta. intros H Hok. apply bind_Ret in H as (pr&_&H). apply bind_Ret in H as (vm1&Hu&H).
  eapply (mark_dead_ok vm _ p vm1 (v_procs_count vm1 - 1) (v_active vm1 - 1)) in Hu; [|done|destruct (_ && _); quiet].
  apply (shutdown_ok _ p) in Hu. set (vm2 := die_shutdown _ p) in *.
  apply bind_Ret in H as ([st m]&_&H). apply bind_Ret in H as (vm3&Hn&H). apply notify_all_ok with (held := held) in Hn.
  2: { eapply quiet_ok; [|exact Hu]. destruct (_ && _); quiet. }
  apply bind_Ret in H as (pr'&_&H). apply bind_Ret in H as (m'&_&H). apply bind_Ret in H as (st1&_&H). apply bind_Ret in H as (st2&_&H).
  returns. eapply quiet_ok; [|exact Hn]. quiet.
Qed.
Lemma builtin_die_ok vm p pc base cbase d reason c vm' held :
  do_builtin_die cap stress fuel sym_fuel vm p pc base cbase d reason = Ret (c, vm') → sched_ok vm (p :: held) →
  c = 2 ∧ sched_ok vm' held.
Proof.
  unfold do_builtin_die. intros H Hok. apply bind_Ret in H as ([s vm1]&Hi&H). apply bind_Ret in H as (vm2&Hd&H). returns.
  split; [done|]. eapply die_ok; [exact Hd|]. eapply quiet_ok; [|exact Hok]. apply intern_quiet in Hi. quiet.
Qed.

(** ** Parking *)
Lemma wait_register_ok vm b p s vm' held :
  sched_ok vm (p :: held) → quiet vm b → parked s = true → wait_register (set_state p s b) p = Ret vm' → sched_ok vm' held.
Proof.
  intros Hok Hq Hs. pose proof (held_running _ _ p (quiet_ok _ _ _ Hq Hok) ltac:(by left)) as Hp.
  unfold wait_register, get_proc, set_state. rewrite lookup_on_proc, decide_True by done.
  unfold sched in Hp. destruct (v_procs b !! p) as [pr|] eqn:E; [|done]. injection Hp as Es Er.
  cbn [fmap option_fmap option_map or_undef mbind outcome_bind]. change (p_wait_registered (set_p_state s pr)) with (p_wait_registered pr).
  rewrite Er. cbn [negb]. intros H. apply Ret_inj in H.
  assert (Ha : sched_ok (set_v_wait_count (v_wait_count b + 1) (set_v_wait (p :: v_wait b) (on_proc p (λ pr,
    set_p_wait_generation (u32 (p_wait_generation pr + 1)) (set_p_wait_registered true pr)) (on_proc p (set_p_state s) b)))) held).
  { apply (park_ok b _ p s); [by apply (quiet_ok vm)|done| |done..]. split; try done. intros q.
    change (sched (set_v_wait_count ?c (set_v_wait ?w ?v)) q) with (sched v q). rewrite !sched_on_proc.
    destruct (decide (q = p)); [|done]. rewrite lookup_on_proc, decide_True, E by done. done. }
  subst vm'. case_match; [|exact Ha]. eapply quiet_ok; [|exact Ha]. quiet.
Qed.
Lemma block_ok vm p pc base cbase d c vm' held :
  block_recv vm p pc base cbase d = Ret (c, vm') → sched_ok vm (p :: held) → c = 1 ∧ sched_ok vm' held.
Proof.
  unfold block_recv. intros H Hok. apply bind_Ret in H as (vm1&Hr&H). returns. split; [done|].
  eapply (wait_register_ok _ _ _ PROC_WAIT_RECV); [exact Hok| |done|exact Hr]. quiet.
Qed.

(** ** The primitives *)

(** What a primitive leaves: 0 keeps the process in hand, 1 and 2 let it go. *)
Definition settled (c : Z) (vm : VM) (p : Z) (held : list Z) : Prop :=
  c = 0 ∧ sched_ok vm (p :: held) ∨ (c = 1 ∨ c = 2) ∧ sched_ok vm held.
Lemma settled_quiet vm vm' p held : quiet vm vm' → sched_ok vm (p :: held) → settled 0 vm' p held.
Proof. intros Hq Hok. left. split; [done|]. by eapply quiet_ok. Qed.
Lemma settled_block vm p pc base cbase d c vm' held :
  block_recv vm p pc base cbase d = Ret (c, vm') → sched_ok vm (p :: held) → settled c vm' p held.
Proof. intros H Hok. destruct (block_ok _ _ _ _ _ _ _ _ _ H Hok). right. auto. Qed.
Lemma settled_die vm p pc base cbase d reason c vm' held :
  do_builtin_die cap stress fuel sym_fuel vm p pc base cbase d reason = Ret (c, vm') → sched_ok vm (p :: held) →
  settled c vm' p held.
Proof. intros H Hok. destruct (builtin_die_ok _ _ _ _ _ _ _ _ _ _ H Hok). right. auto. Qed.
Lemma pop_acc_ok vm p c vm' held : pop_acc vm p = Ret (c, vm') → sched_ok vm (p :: held) → settled c vm' p held.
Proof.
  unfold pop_acc. intros H Hok. apply bind_Ret in H as ([v vm1]&Hp&H). returns. eapply settled_quiet; [|exact Hok].
  apply pop_quiet in Hp. quiet.
Qed.
Lemma unregister_quiet vm p s vm' : sched vm p = Some (s, false) → vm_wait_unregister vm p = Ret vm' → quiet vm vm'.
Proof.
  unfold vm_wait_unregister, wait_unregister_locked, get_proc, sched. intros Hs H. destruct (v_procs vm !! p) as [pr|]; [|done].
  injection Hs as _ Hr. cbn [or_undef mbind outcome_bind] in H. rewrite Hr in H. returns. quiet.
Qed.

Lemma spawn_ok vm p pc base cbase d c vm' held :
  do_spawn cap stress fuel sym_fuel vm p pc base cbase d = Ret (c, vm') → sched_ok vm (p :: held) → settled c vm' p held.
Proof.
  unfold do_spawn. cbv zeta. intros H Hok. apply bind_Ret in H as (pr&_&H). apply bind_Ret in H as (f&_&H).
  destruct f as [fid|]; [|done]. apply bind_Ret in H as ([np vm1]&Hn&H). apply (new_ok _ _ _ _ Hok) in Hn. clear Hok.
  apply bind_Ret in H as (nr&_&H). apply bind_Ret in H as ([st m]&_&H). apply bind_Ret in H as (n&_&H).
  apply bind_Ret in H as ([st1 m1]&_&H). apply bind_Ret in H as ([[r st2] m2]&_&H).
  assert (Hok : sched_ok (put_mem np st2 m2 vm1) (np :: p :: held)) by (eapply quiet_ok; [|exact Hn]; quiet). clear Hn.
  destruct r as [owned|].
  - apply bind_Ret in H as (st3&_&H). apply bind_Ret in H as (vm2&Hf&H). apply bind_Ret in H as (vm3&He&H).
    apply frame_init_quiet in Hf. apply Ret_inj, pair_equal_spec in H as [<- <-]. apply (settled_quiet vm3); [quiet|].
    eapply enqueue_ok; [|exact He]. eapply quiet_ok; [exact Hf|]. eapply quiet_ok; [|exact Hok]. quiet.
  - apply bind_Ret in H as (vm2&Hd&H). eapply settled_die; [exact H|]. by eapply die_ok.
Qed.
Lemma send_ok vm p pc base cbase d c vm' held :
  do_send cap stress fuel sym_fuel vm p pc base cbase d = Ret (c, vm') → sched_ok vm (p :: held) → settled c vm' p held.
Proof.
  unfold do_send. intros H Hok. apply bind_Ret in H as (to&_&H). apply bind_Ret in H as (pr&_&H).
  apply bind_Ret in H as ([rc vm1]&Hd&H). assert (Hok1 : sched_ok vm1 (p :: held)).
  { destruct (vm_proc_lookup _ _) as [t|]; [|by returns]. apply bind_Ret in Hd as (tr&_&Hd).
    case_bool_decide; [by returns|]. by eapply deliver_ok. }
  clear Hd. destruct (negb (rc =? 0)); [by eapply settled_die|]. returns. eapply settled_quiet; [|exact Hok1]. quiet.
Qed.
Lemma recv_ok vm p pc base cbase d c vm' held :
  do_recv cap stress fuel vm p pc base cbase d = Ret (c, vm') → sched_ok vm (p :: held) → settled c vm' p held.
Proof.
  unfold do_recv. intros H Hok. apply bind_Ret in H as (pr&_&H). destruct (_ =? 0); [by eapply settled_block|].
  apply bind_Ret in H as ([m vm1]&H1&H). apply bind_Ret in H as (vm2&H2&H). apply bind_Ret in H as (vm3&H3&H).
  apply bind_Ret in H as (v&_&H). apply mbox_pop_quiet in H1. apply push_quiet in H2. apply drain_quiet in H3. returns.
  eapply settled_quiet; [|exact Hok]. assert (quiet vm vm3) by (etrans; [exact H1|]; etrans; [exact H2|]; etrans; [|exact H3]; quiet). quiet.
Qed.

Lemma noproc_ok cur vm p tpid ref vm' held :
  deliver_noproc cap stress fuel sym_fuel cur vm p tpid ref = Ret vm' → sched_ok vm held → sched_ok vm' held.
Proof.
  unfold deliver_noproc. cbv zeta. intros H Hok. apply bind_Ret in H as (pr&_&H). apply bind_Ret in H as ([st m]&_&H).
  apply bind_Ret in H as ([s1 vm1]&H1&H). apply bind_Ret in H as ([s2 vm2]&H2&H). apply bind_Ret in H as (pr1&_&H).
  do 4 (apply bind_Ret in H as ([[? ?] ?]&_&H)). apply bind_Ret in H as ([rc vm3]&H3&H). apply bind_Ret in H as (pr2&_&H).
  apply bind_Ret in H as ([st' m']&_&H). apply intern_quiet in H1, H2. apply (deliver_ok _ _ _ _ _ _ held) in H3.
  - returns. eapply quiet_ok; [|exact H3]. quiet.
  - eapply quiet_ok; [|exact Hok]. assert (quiet vm vm2) by (etrans; [|exact H2]; etrans; [|exact H1]; quiet). quiet.
Qed.
Lemma monitor_ok vm p d c vm' held :
  do_monitor cap stress fuel sym_fuel vm p d = Ret (c, vm') → sched_ok vm (p :: held) → settled c vm' p held.
Proof.
  unfold do_monitor, b_monitor. cbv zeta. intros H Hok. apply bind_Ret in H as (pr&_&H). apply bind_Ret in H as (vm1&H1&H).
  apply bind_Ret in H as ([s vm4]&Hm&H). apply bind_Ret in Hm as ([v vm2]&H2&Hm). apply bind_Ret in Hm as (vm3&H3&Hm).
  apply bind_Ret in Hm as (vm5&H4&Hm). apply push_quiet in H1, H4. apply pop_quiet in H2. apply Ret_inj, pair_equal_spec in Hm as [<- <-].
  eapply pop_acc_ok; [exact H|]. eapply quiet_ok; [exact H4|].
  assert (Hok2 : sched_ok vm2 (p :: held)) by (eapply quiet_ok; [|exact Hok]; etrans; [|exact H2]; etrans; [|exact H1]; quiet).
  match type of H3 with (if ?a then _ else _) = _ => destruct a end.
  - returns. eapply quiet_ok; [|exact Hok2]. quiet.
  - eapply noproc_ok; [exact H3|]. eapply quiet_ok; [|exact Hok2]. quiet.
Qed.
Context (clock : nat → Z).
Lemma b_recv_after_quiet vm p s vm' st :
  sched vm p = Some (st, false) → b_recv_after cap stress fuel clock vm p = Ret (s, vm') → quiet vm vm'.
Proof.
  unfold b_recv_after. intros Hs H. apply bind_Ret in H as (pr&_&H). destruct (_ =? RECV_AFTER_EXPIRED).
  { apply bind_Ret in H as (vm1&H1&H). apply push_quiet in H1. returns. etrans; [|exact H1]. quiet. }
  apply bind_Ret in H as (vm1&H1&H). assert (Hq1 : quiet vm vm1).
  { clear H. destruct (_ <? 0); [|by returns]. apply bind_Ret in H1 as ([v vm2]&Hp&H1). apply pop_quiet in Hp. unfold mono_now_ms in H1. returns. quiet. }
  clear H1. apply bind_Ret in H as (pr1&_&H). destruct (0 <? _).
  - apply bind_Ret in H as ([msg vm2]&H2&H). apply bind_Ret in H as (vm3&H3&H). apply bind_Ret in H as (vm4&H4&H).
    apply mbox_pop_quiet in H2. apply push_quiet in H3. apply drain_quiet in H4. returns.
    etrans; [|exact H4]. etrans; [|exact H3]. etrans; [|exact H2]. quiet.
  - unfold mono_now_ms in H. cbv zeta in H. destruct (_ <=? _); [|returns; quiet].
    apply bind_Ret in H as (vm2&H2&H). apply bind_Ret in H as (vm3&H3&H). apply push_quiet in H3. returns. etrans; [|exact H3].
    assert (Hq2 : quiet vm (disarm (set_v_reads (S (v_reads vm1)) vm1) p)) by quiet.
    etrans; [exact Hq2|]. eapply (unregister_quiet _ p st); [|exact H2]. by rewrite (qt_sched _ _ Hq2).
Qed.
Lemma recv_after_ok vm p pc base cbase d c vm' held :
  do_recv_after cap stress fuel clock vm p pc base cbase d = Ret (c, vm') → sched_ok vm (p :: held) → settled c vm' p held.
Proof.
  unfold do_recv_after. intros H Hok. apply bind_Ret in H as (pr&_&H). apply bind_Ret in H as (vm1&H1&H).
  apply bind_Ret in H as ([s vm2]&H2&H). apply push_quiet in H1.
  assert (Hok1 : sched_ok vm1 (p :: held)) by (eapply quiet_ok; [|exact Hok]; etrans; [|exact H1]; quiet).
  apply (b_recv_after_quiet _ _ _ _ PROC_RUNNING) in H2; [|apply (held_running _ _ _ Hok1); by left].
  apply (quiet_ok _ _ _ H2) in Hok1. destruct s; [by eapply pop_acc_ok|by eapply settled_block|by eapply pop_acc_ok].
Qed.
Lemma b_recv_peek_quiet vm p s vm' : b_recv_peek cap stress fuel vm p = Ret (s, vm') → quiet vm vm'.
Proof.
  unfold b_recv_peek. intros H. apply bind_Ret in H as (pr&_&H). destruct (_ <? _); [|by returns].
  apply bind_Ret in H as (a&_&H). apply bind_Ret in H as (f&_&H). apply bind_Ret in H as (res&_&H). destruct res; [by returns|].
  apply bind_Ret in H as (n&_&H). apply bind_Ret in H as ([st m]&_&H). apply bind_Ret in H as ([[r st1] m1]&_&H).
  destruct r as [msg|]; [|done]. apply bind_Ret in H as ([w box]&_&H). cbv zeta in H. apply bind_Ret in H as (vm1&H1&H).
  apply bind_Ret in H as (vm2&H2&H). apply push_quiet in H1. apply drain_quiet in H2. returns. etrans; [|exact H2]. etrans; [|exact H1]. quiet.
Qed.
Lemma recv_peek_ok vm p pc base cbase d c vm' held :
  do_recv_peek cap stress fuel sym_fuel vm p pc base cbase d = Ret (c, vm') → sched_ok vm (p :: held) → settled c vm' p held.
Proof.
  unfold do_recv_peek. intros H Hok. apply bind_Ret in H as ([s vm1]&H1&H). apply b_recv_peek_quiet in H1.
  assert (Hok1 : sched_ok vm1 (p :: held)) by (eapply quiet_ok; [|exact Hok]; etrans; [|exact H1]; quiet).
  destruct s; [by eapply pop_acc_ok|by eapply settled_block|by eapply settled_die].
Qed.
Lemma recv_commit_ok vm p d c vm' held :
  do_recv_commit vm p d = Ret (c, vm') → sched_ok vm (p :: held) → settled c vm' p held.
Proof.
  unfold do_recv_commit, b_recv_commit. intros H Hok. apply bind_Ret in H as ([s vm1]&H1&H). returns.
  eapply settled_quiet; [|exact Hok]. quiet.
Qed.
Lemma builtin_ok vm p id n pc base cbase d c vm' held :
  do_builtin cap stress fuel sym_fuel clock vm p id n pc base cbase d = Ret (c, vm') → sched_ok vm (p :: held) →
  settled c vm' p held.
Proof.
  unfold do_builtin. cbv zeta. intros H Hok.
  destruct (id =? LB_SELF); [destruct (n =? 0); [|done]; returns; eapply settled_quiet; [|exact Hok]; quiet|].
  destruct (id =? LB_SPAWN); [destruct (n =? 1); [by eapply spawn_ok|done]|].
  destruct (id =? LB_SEND); [destruct (n =? 2); [by eapply send_ok|done]|].
  destruct (id =? LB_RECV); [destruct (n =? 0); [by eapply recv_ok|done]|].
  destruct (id =? LB_MONITOR); [destruct (n =? 1); [by eapply monitor_ok|done]|].
  destruct (id =? LB_RECV_AFTER); [destruct (n =? 1); [by eapply recv_after_ok|done]|].
  destruct (id =? LB_RECV_PEEK); [destruct (n =? 0); [by eapply recv_peek_ok|done]|].
  destruct (id =? LB_RECV_COMMIT); [destruct (n =? 0); [by eapply recv_commit_ok|done]|done].
Qed.
End Effects.
