(* ===== verification/Pool.v ===== *)
(** The worker pool: any number of workers and the poller, interleaved one
    instruction, one delivery and one critical section at a time.

    A worker between two instructions is the process it holds with its
    registers and its budget. *)
From stdpp Require Import base tactics list gmap strings relations.
From Stdlib Require Import ZArith Lia.
From S2P Require Import Prelude Values Heap Resource Gc GcCorrect GcSpec Tree Alloc Copy Fragment Runq Mailbox Symtab Vm Sched Builtin Ccall Interp Depth Worker Parking.
Open Scope Z_scope.

Section Pool.
Context (cap stress : Z) (fuel sym_fuel : nat) (clock : nat → Z).
Context (cfunc_nargs : list Z) (cfunc_code : Z → VM → list Val → outcome (Val * VM)) (ccall_buf : Z).
Abbreviation instr := (step cap stress fuel sym_fuel clock cfunc_nargs cfunc_code ccall_buf).

(** A C function leaves scheduling alone: it asks to wait by a flag, and
    [do_ccall] parks the process. *)
Context (cfunc_quiet : ∀ cf vm args v vm', cfunc_code cf vm args = Ret (v, vm') → quiet vm vm').

Lemma close_window_quiet vm p vm' : close_window vm p = Ret vm' → quiet vm vm'.
Proof. unfold close_window. intros H. returns. quiet. Qed.
Lemma ccall_ok vm p cf n base pc cbase d c vm' held :
  do_ccall cap stress fuel sym_fuel cfunc_nargs cfunc_code ccall_buf vm p cf n base pc cbase d = Ret (c, vm') →
  sched_ok vm (p :: held) → settled c vm' p held.
Proof.
  unfold do_ccall. destruct (cfunc_nargs !! _); [|done]. destruct (_ && _); [done|]. destruct (64 <? _); [done|]. cbv zeta. intros H Hok.
  apply bind_Ret in H as (pr&_&H). apply bind_Ret in H as (args&_&H). apply bind_Ret in H as ([r vm1]&Hf&H). apply cfunc_quiet in Hf.
  assert (Hq : quiet vm vm1) by (etrans; [|exact Hf]; quiet). apply (quiet_ok _ _ _ Hq) in Hok. clear Hq Hf.
  apply bind_Ret in H as (pr1&_&H). destruct (p_cfunc_die pr1) as [reason|].
  - destruct (negb _); [done|]. apply bind_Ret in H as (vm2&Hc&H). apply close_window_quiet in Hc.
    eapply settled_die; [exact H|]. eapply quiet_ok; [exact Hc|]. eapply quiet_ok; [|exact Hok]. quiet.
  - destruct (p_yield pr1).
    + destruct (negb _); [done|]. apply bind_Ret in H as (vm2&Hc&H). apply close_window_quiet in Hc. apply bind_Ret in H as (vm3&Hr&H).
      returns. right. split; [by left|].
      assert (Hq : quiet vm1 vm2) by (etrans; [|exact Hc]; quiet).
      eapply (wait_register_ok _ _ _ PROC_WAIT_IO); [exact Hok| |done|exact Hr]. quiet.
    + apply bind_Ret in H as ([[v st] m]&_&H). apply bind_Ret in H as (m1&_&H). apply bind_Ret in H as ([st1 m2]&_&H).
      apply bind_Ret in H as (w&_&H). returns. eapply settled_quiet; [|exact Hok]. quiet.
Qed.

(** ** One instruction *)
Definition after (x : ires) (p : Z) (held : list Z) : Prop :=
  match x with
  | Next _ _ vm => sched_ok vm (p :: held)
  | Done code vm => code = R_YIELD ∧ sched_ok vm (p :: held) ∨ code ≠ R_YIELD ∧ sched_ok vm held
  end.
Lemma tick_ok r b vm p held : sched_ok vm (p :: held) → after (tick r b vm p) p held.
Proof. intros Hok. unfold tick. destruct (_ <=? 0); [|done]. left. split; [done|]. eapply quiet_ok; [|exact Hok]. quiet. Qed.
Lemma finish_ok l b vm p x held : finish cap stress fuel sym_fuel l b vm p = Ret x → sched_ok vm (p :: held) → after x p held.
Proof.
  intros H Hok. destruct l as [r st m|r st m|why r st m]; cbn [finish] in H.
  - returns. eapply quiet_ok; [|exact Hok]. quiet.
  - returns. apply tick_ok. eapply quiet_ok; [|exact Hok]. quiet.
  - unfold die_isolated in H. apply bind_Ret in H as ([s vm1]&Hi&H). apply bind_Ret in H as (vm2&Hd&H). returns. right. split; [done|].
    eapply die_ok; [exact Hd|]. apply intern_quiet in Hi. assert (Hq : quiet vm vm1) by (etrans; [|exact Hi]; quiet).
    eapply quiet_ok; [|exact Hok]. quiet.
Qed.
Lemma settled_not_yield c vm p held : settled c vm p held → c ≠ 0 → sched_ok vm held.
Proof. intros [[? _]|[_ ?]] ?; done. Qed.
Lemma settled_zero vm p held : settled 0 vm p held → sched_ok vm (p :: held).
Proof. intros [[_ ?]|[[?|?] _]]; done. Qed.
Lemma step_call_ok enter r b vm p x held :
  step_call cap stress fuel sym_fuel cfunc_nargs cfunc_code ccall_buf enter r b vm p = Ret x → sched_ok vm (p :: held) → after x p held.
Proof.
  unfold step_call. intros H Hok. apply bind_Ret in H as (pr&_&H). apply bind_Ret in H as ([[[[n c] r1] st] m]&_&H).
  destruct c as [fid|cf]; [apply bind_Ret in H as (l&_&H); by eapply finish_ok|]. cbv zeta in H.
  apply bind_Ret in H as ([code vm1]&Hd&H). apply (ccall_ok _ _ _ _ _ _ _ _ _ _ held) in Hd.
  2: { eapply quiet_ok; [|exact Hok]. quiet. }
  destruct (Z.eqb_spec code 0) as [->|Hc]; cbn [negb] in H.
  - apply bind_Ret in H as (pr1&_&H). apply bind_Ret in H as (d&_&H). returns. by apply settled_zero.
  - returns. right. split; [done|]. by eapply settled_not_yield.
Qed.
Lemma step_builtin_ok r b vm p x held :
  step_builtin cap stress fuel sym_fuel clock r b vm p = Ret x → sched_ok vm (p :: held) → after x p held.
Proof.
  unfold step_builtin. cbv zeta. intros H Hok. apply bind_Ret in H as (id&_&H). apply bind_Ret in H as (n&_&H).
  apply bind_Ret in H as ([c vm1]&Hb&H). apply (builtin_ok _ _ _ _ _ _ _ _ _ _ _ _ _ _ _ held) in Hb.
  2: { eapply quiet_ok; [|exact Hok]. quiet. }
  destruct (Z.eqb_spec c 1) as [->|]; [returns; right; split; [done|by eapply settled_not_yield]|].
  destruct (Z.eqb_spec c 2) as [->|]; [returns; right; split; [done|by eapply settled_not_yield]|].
  apply bind_Ret in H as (pr&_&H). apply bind_Ret in H as (d&_&H). returns. apply tick_ok.
  destruct Hb as [[_ Hb]|[[?|?] _]]; done.
Qed.
(** Main leaves the pool for good when the entry function returns. *)
Lemma exit_ok r vm p x held : step_exit cap stress fuel sym_fuel r vm p = Ret x → sched_ok vm (p :: held) → after x p held.
Proof.
  unfold step_exit. intros H Hok. destruct (Z.eqb_spec p (v_main_pid vm)) as [Hp|].
  - returns. right. split; [done|]. destruct Hok as [(q&R&Hr) P W Wn T X]. rewrite <- Permutation_middle in Hr. destruct Hr as (N&H1&H2).
    apply NoDup_cons in N as [_ N]. split; try done. exists q. split; [done|]. split; [done|]. split; [intros y Hy; apply H1; by right|].
    intros y b Hy. destruct (H2 y b Hy) as [Hin|[? _]]; [|by right]. apply elem_of_cons in Hin as [->|]; [by right|by left].
  - apply bind_Ret in H as (vm1&Hd&H). returns. right. split; [done|]. eapply die_ok; [exact Hd|]. eapply quiet_ok; [|exact Hok]. quiet.
Qed.
Lemma instr_ok r b vm p x held : instr r b vm p = Ret x → sched_ok vm (p :: held) → after x p held.
Proof.
  unfold step. intros H Hok. apply bind_Ret in H as (op&_&H).
  destruct (op =? LOP_CALL); [by eapply step_call_ok|]. destruct (op =? LOP_TCALL); [by eapply step_call_ok|].
  destruct (op =? LOP_BUILTIN); [by eapply step_builtin_ok|]. destruct (_ && _); [by eapply exit_ok|].
  apply bind_Ret in H as (pr&_&H). apply bind_Ret in H as (l&_&H). by eapply finish_ok.
Qed.

(** ** The poller *)
Lemma ready_ok vm p g vm' held : poller_ready vm p g = Ret vm' → sched_ok vm held → sched_ok vm' held.
Proof.
  unfold poller_ready. intros H Hok. apply bind_Ret in H as (pr&Hp&H). apply or_undef_Ret in Hp.
  destruct (_ && _) eqn:E; [|by returns]. apply andb_prop in E as [_ E]. apply bool_decide_eq_true in E.
  apply bind_Ret in H as (vm1&Hu&H). eapply enqueue_ok; [|exact H]. eapply (wake_parked_ok vm p _ (set_p_state PROC_RUNNING)); [done| |done|exact Hu].
  apply (sched_ok_state _ _ _ _ Hok Hp). by rewrite E.
Qed.
Lemma expire_ok vm now p again vm' held : expire_one vm now p = Ret (again, vm') → sched_ok vm held → sched_ok vm' held.
Proof.
  unfold expire_one. cbv zeta. intros H Hok. apply bind_Ret in H as (pr&Hp&H). apply or_undef_Ret in Hp.
  destruct (_ && _); [|by returns]. case_bool_decide as Es.
  - destruct (_ && _); [|by returns]. apply bind_Ret in H as (vm1&Hu&H). apply bind_Ret in H as (vm2&He&H). returns.
    eapply enqueue_ok; [|exact He]. eapply (wake_parked_ok (on_proc p (set_p_recv_deadline RECV_AFTER_EXPIRED) vm) p PROC_WAIT_RECV (set_p_state PROC_RUNNING)); [| |done|exact Hu].
    + eapply quiet_ok; [|exact Hok]. quiet.
    + rewrite (qt_sched vm) by quiet. rewrite <- Es. apply (sched_ok_state _ _ _ _ Hok Hp). by rewrite Es.
  - destruct (bool_decide (p_state pr = PROC_WAIT_IO) && p_wait_registered pr) eqn:E; [|by returns].
    apply andb_prop in E as [E _]. apply bool_decide_eq_true in E.
    apply bind_Ret in H as (vm1&Hu&H). apply bind_Ret in H as (vm2&He&H). returns. eapply enqueue_ok; [|exact He].
    eapply (wake_parked_ok vm p _ (set_p_state PROC_RUNNING)); [done| |done|exact Hu]. apply (sched_ok_state _ _ _ _ Hok Hp). by rewrite E.
Qed.

(** ** The workers *)

(** The state recheck of a worker never fails: what is queued is runnable. *)
Lemma take_ok vm t vm' held :
  worker_take vm = Ret (t, vm') → sched_ok vm held →
  t = None ∧ sched_ok vm' held ∨ ∃ p, t = Some (p, true) ∧ sched_ok vm' (p :: held).
Proof.
  unfold worker_take. intros H Hok. destruct Hok as [(q&R&N&H1&H2) P W Wn T X].
  destruct (dequeue_spec _ _ R) as (rq&E&R'&_). rewrite E in H. cbn [mbind outcome_bind] in H. cbv zeta in H.
  destruct q as [|p q]; cbn [head default tail] in *.
  - left. change (0 <=? -1) with false in H. cbn [default] in H. returns. split; [done|]. split; try done. by exists [].
  - change (id p) with p in *. assert (Hp : sched vm p = Some (PROC_RUNNING, false)) by (apply H1; by left).
    destruct (T p _ _ Hp) as [Ht Hr]; [done|]. destruct (Z.leb_spec 0 p); [|lia].
    unfold vm_proc_lookup in H. cbn [v_procs_cap v_table set_v_runq] in H.
    destruct (Z.ltb_spec p 0); [lia|]. destruct (Z.leb_spec (v_procs_cap vm) p); [lia|]. cbn [orb] in H.
    rewrite bool_decide_eq_true_2 in H by done. unfold sched in Hp. unfold get_proc in H. cbn [v_procs set_v_runq] in H.
    destruct (v_procs vm !! p) as [pr|]; [|done]. injection Hp as Es _. cbn [or_undef mbind outcome_bind] in H.
    rewrite bool_decide_eq_true_2 in H by done. returns. right. exists p. split; [done|]. split; try done.
    exists q. split; [done|]. rewrite <- Permutation_middle. by split.
Qed.

(** A worker in the middle of a slice. *)
Record worker := mk_worker { w_pid : Z; w_regs : regs; w_budget : Z }.
Definition resume (pr : Proc) : regs :=
  mk_regs (p_pc pr) (p_base pr) (p_cbase pr) (if p_has_acc pr then p_acc pr else val_nil) (- sp (p_mem pr)).

Inductive pool_step : VM * list worker → VM * list worker → Prop :=
| ps_take vm vm1 p pr ws :
    worker_take vm = Ret (Some (p, true), vm1) → v_procs vm1 !! p = Some pr →
    pool_step (vm, ws) (on_proc p (set_p_has_acc false) vm1, mk_worker p (resume pr) MAX_REDUCTIONS :: ws)
| ps_skip vm vm1 p ws : worker_take vm = Ret (Some (p, false), vm1) → pool_step (vm, ws) (vm1, ws)
| ps_next vm p r b r' b' vm' ws1 ws2 :
    instr r b vm p = Ret (Next r' b' vm') →
    pool_step (vm, ws1 ++ mk_worker p r b :: ws2) (vm', ws1 ++ mk_worker p r' b' :: ws2)
| ps_done vm p r b code vm1 vm2 ws1 ws2 :
    instr r b vm p = Ret (Done code vm1) → worker_put vm1 p code = Ret vm2 →
    pool_step (vm, ws1 ++ mk_worker p r b :: ws2) (vm2, ws1 ++ ws2)
| ps_ready vm p g vm' ws : poller_ready vm p g = Ret vm' → pool_step (vm, ws) (vm', ws)
| ps_expire vm now p b vm' ws : expire_one vm now p = Ret (b, vm') → pool_step (vm, ws) (vm', ws)
| ps_timer vm t msg rc vm' ws : mbox_deliver fuel None vm t msg = Ret (rc, vm') → pool_step (vm, ws) (vm', ws)
| ps_stop vm ws : pool_step (vm, ws) (vm_request_stop vm, ws).

Definition pool_ok (s : VM * list worker) : Prop := sched_ok s.1 (w_pid <$> s.2).
#[local] Instance sched_ok_perm vm : Proper ((≡ₚ) ==> iff) (sched_ok vm).
Proof.
  assert (H : ∀ l l', l ≡ₚ l' → sched_ok vm l → sched_ok vm l').
  { intros l l' Hp [(q&R&Hr) ? ? ? ? ?]. split; try done. exists q. by rewrite <- Hp. }
  intros l l' Hp. split; by apply H.
Qed.
Lemma pool_step_ok s s' : pool_step s s' → pool_ok s → pool_ok s'.
Proof.
  unfold pool_ok. destruct 1 as [vm vm1 p pr ws H Hp|vm vm1 p ws H|vm p r b r' b' vm' ws1 ws2 H|vm p r b code vm1 vm2 ws1 ws2 H Hput
    |vm p g vm' ws H|vm now p b vm' ws H|vm t msg rc vm' ws H|vm ws]; cbn [fst snd]; intros Hok.
  - apply (take_ok _ _ _ _ H) in Hok as [[? _]|(p'&[= ->]&Hok)]; [done|]. eapply quiet_ok; [|exact Hok]. quiet.
  - apply (take_ok _ _ _ _ H) in Hok as [[? _]|(p'&?&_)]; congruence.
  - rewrite fmap_app, fmap_cons in Hok |- *. cbn [w_pid] in *. rewrite <- Permutation_middle in Hok |- *. exact (instr_ok _ _ _ _ _ _ H Hok).
  - rewrite fmap_app, fmap_cons in Hok. rewrite fmap_app. cbn [w_pid] in *. rewrite <- Permutation_middle in Hok.
    apply (instr_ok _ _ _ _ _ _ H) in Hok as [[-> Hok]|[Hc Hok]]; unfold worker_put in Hput.
    + by eapply enqueue_ok.
    + destruct (Z.eqb_spec code R_YIELD); [done|]. by returns.
  - by eapply ready_ok.
  - by eapply expire_ok.
  - by eapply deliver_ok.
  - by apply (quiet_ok vm).
Qed.
Lemma pool_reach_ok s s' : rtc pool_step s s' → pool_ok s → pool_ok s'.
Proof. induction 1 as [|s s1 s' Hst _ IH]; [done|]. intros Hok. apply IH. by eapply pool_step_ok. Qed.

(** A slice is a run of one worker, and so is a round of the worker loop. *)
Lemma slice_pool n r b vm p code vm1 vm2 ws :
  run_loop cap stress fuel sym_fuel clock cfunc_nargs cfunc_code ccall_buf n r b vm p = Ret (code, vm1) →
  worker_put vm1 p code = Ret vm2 → rtc pool_step (vm, mk_worker p r b :: ws) (vm2, ws).
Proof.
  revert r b vm. induction n as [|n IH]; intros r b vm H Hput; [done|]. cbn [run_loop] in H.
  apply bind_Ret in H as (x&Hx&H). destruct x as [r' b' vm'|c vm'].
  - eapply rtc_l; [exact (ps_next vm p r b r' b' vm' [] ws Hx)|]. by apply IH.
  - apply Ret_inj, pair_equal_spec in H as [<- <-]. apply rtc_once. exact (ps_done vm p r b c _ _ [] ws Hx Hput).
Qed.
Lemma round_pool slice vm t vm' ws :
  worker_round cap stress fuel sym_fuel clock cfunc_nargs cfunc_code ccall_buf slice vm = Ret (Some t, vm') →
  rtc pool_step (vm, ws) (vm', ws).
Proof.
  unfold worker_round. intros H. apply bind_Ret in H as ([[[p []]|] vm1]&Ht&H); [| |done].
  - apply bind_Ret in H as ([code vm2]&Hr&H). apply bind_Ret in H as (vm3&Hput&H). apply Ret_inj, pair_equal_spec in H as [_ <-].
    unfold run_proc in Hr. apply bind_Ret in Hr as (pr&Hp&Hr). apply or_undef_Ret in Hp. cbv zeta in Hr.
    eapply rtc_l; [by apply ps_take|]. by eapply slice_pool.
  - apply Ret_inj, pair_equal_spec in H as [_ <-]. apply rtc_once. by eapply ps_skip.
Qed.
(** The loop of a worker keeps the invariant, if the others do while it waits. *)
Lemma worker_loop_ok slice idle entry n :
  (∀ k vm vm', idle k vm = Ret vm' → sched_ok vm [] → sched_ok vm' []) → ∀ vm drain suspect vm',
  worker_loop cap stress fuel sym_fuel clock cfunc_nargs cfunc_code ccall_buf slice n idle vm entry drain suspect = Ret (Stopped vm') →
  sched_ok vm [] → sched_ok vm' [].
Proof.
  intros Hidle. induction n as [|n IH]; intros vm drain suspect vm' H Hok; [done|]. cbn [worker_loop] in H.
  destruct (v_stop vm); [by injection H as <-|]. apply bind_Ret in H as ([[t|] vm1]&Hr&H).
  - apply (round_pool _ _ _ _ []) in Hr. apply pool_reach_ok in Hr; [|done]. unfold worker_drain in H.
    destruct (v_entry_done vm1); [|by eapply IH]. destruct (_ <=? _); [|by eapply IH]. injection H as <-. by apply (quiet_ok vm1).
  - unfold worker_round in Hr. apply bind_Ret in Hr as ([[[p []]|] v2]&Ht&Hr); [by returns..|].
    apply Ret_inj, pair_equal_spec in Hr as [_ <-]. destruct (take_ok _ _ _ _ Ht Hok) as [[_ Hok2]|(p&?&_)]; [|done].
    unfold worker_stop in H. destruct (_ || _); [injection H as <-; by apply (quiet_ok v2)|].
    apply bind_Ret in H as (v3&Hi&H). apply bind_Ret in H as (s&_&H). eapply IH; [exact H|]. by eapply Hidle.
Qed.

(** ** Start *)
Lemma keywords_quiet n l : ∀ vm vm', foldM (intern_keyword n) vm l = Ret vm' → quiet vm vm'.
Proof.
  intros vm vm' H. eapply (foldM_inv (quiet vm)); [|reflexivity|exact H]. clear. intros v w v' _ Hv Hi. unfold intern_keyword in Hi.
  apply bind_Ret in Hi as ([id v1]&Hi&E). apply intern_quiet in Hi. returns. by etrans.
Qed.
Lemma main_ok vm p held : sched_ok vm held → v_entry_done vm = false → sched_ok (set_v_main_pid p vm) held.
Proof.
  intros [(q&R&N&H1&H2) P W Wn T X] He. split; try done. exists q. split; [done|]. split; [done|]. split; [done|].
  intros x b Hx. destruct (H2 x b Hx) as [|[_ ?]]; [by left|congruence].
Qed.
Lemma start_ok n st pcap vm0 e vm1 im vm2 :
  vm_new n st pcap = Ret vm0 → host_entry vm0 = Ret (e, vm1) → vm_run_start cap (set_v_image im vm1) e = Ret vm2 → sched_ok vm2 [].
Proof.
  unfold vm_new, host_entry, vm_run_start. intros Hn Hh Hr. apply keywords_quiet in Hn.
  assert (Hok : sched_ok vm0 []).
  { eapply quiet_ok; [exact Hn|]. split; try done.
    - exists []. split; [apply rq_new_repr; lia|]. split; [constructor|]. by split; [intros p ?%elem_of_nil|].
    - intros p. split; [by intros ?%elem_of_nil|by intros [s ?]].
    - split; [constructor|done].
    - split; [done|]. by intros p [x ?]. }
  apply bind_Ret in Hh as ([p v1]&Hp&Hh). cbv zeta in Hh. apply bind_Ret in Hh as (pr&_&Hh). apply bind_Ret in Hh as ([s m]&_&Hh).
  assert (He : v_entry_done v1 = false).
  { unfold proc_new in Hp. cbv zeta in Hp. destruct (_ <=? _); [done|]. apply Ret_inj, pair_equal_spec in Hp as [_ <-]. exact (qt_done _ _ Hn). }
  apply (new_ok _ _ _ _ Hok) in Hp. apply (main_ok _ p _ Hp) in He. apply Ret_inj, pair_equal_spec in Hh as [-> <-].
  apply bind_Ret in Hr as (v2&Hf&Hr). apply frame_init_quiet in Hf. eapply enqueue_ok; [|exact Hr]. eapply quiet_ok; [exact Hf|].
  eapply (quiet_ok (put_mem e s m (set_v_main_pid e v1))); [done|]. eapply quiet_ok; [|exact He]. quiet.
Qed.

Lemma reachable_ok n st pcap vm0 e vm1 im vm2 vm ws :
  vm_new n st pcap = Ret vm0 → host_entry vm0 = Ret (e, vm1) → vm_run_start cap (set_v_image im vm1) e = Ret vm2 →
  rtc pool_step (vm2, []) (vm, ws) → sched_ok vm (w_pid <$> ws).
Proof.
  intros Hn Hh Hr Hsteps. change (pool_ok (vm, ws)). eapply pool_reach_ok; [exact Hsteps|]. by eapply start_ok.
Qed.


End Pool.

(** * Expiry *)

(** The poller's walk over the wait list: exactly the waits whose deadline has
    passed end, in the order of the list. *)
Definition expired (vm : VM) (now p : Z) : bool :=
  match v_procs vm !! p with Some pr => (0 <=? wait_deadline pr) && (wait_deadline pr <=? now) | None => false end.
(** A process whose wait has ended. *)
Definition woken (pr : Proc) : Proc :=
  let pr' := if bool_decide (p_state pr = PROC_WAIT_RECV) then set_p_recv_deadline RECV_AFTER_EXPIRED pr else pr in
  set_p_wait_generation (u32 (p_wait_generation pr + 1)) (set_p_wait_registered false (set_p_state PROC_RUNNING pr')).

Lemma expire_one_spec vm held q now p :
  sched_ok vm held → rq_repr (v_runq vm) q → rq_room (v_runq vm) → p ∈ v_wait vm → expired vm now p = true →
  ∃ vm', expire_one vm now p = Ret (true, vm') ∧ v_wait vm' = unlink p (v_wait vm) ∧
    v_procs vm' = alter woken p (v_procs vm) ∧ rq_repr (v_runq vm') (q ++ [p]) ∧
    rq_tail (v_runq vm') ≤ rq_tail (v_runq vm) + 1 ∧
    (rq_cap (v_runq vm') = rq_cap (v_runq vm) ∨ rq_cap (v_runq vm') = 2 * Z.of_nat (length q)).
Proof.
  intros Hok R Hroom Hp He. apply (so_wait _ _ Hok) in Hp as [s Hs]. pose proof (so_parked _ _ Hok _ _ _ Hs) as Hpk.
  unfold sched in Hs. destruct (v_procs vm !! p) as [pr|] eqn:E; [|done]. injection Hs as Es Er.
  unfold expired in He. rewrite E in He. destruct (enqueue_spec _ _ p R Hroom) as (rq&Hq&R'&Ht&Hc).
  unfold expire_one, get_proc. rewrite E. cbn [or_undef mbind outcome_bind]. cbv zeta. rewrite He.
  assert (Hu : ∀ f v, v_procs v = v_procs vm → v_wait v = v_wait vm → v_runq v = v_runq vm → p_wait_registered (f pr) = true →
    (vm1 ← wait_unregister_locked (on_proc p f v) p; vm2 ← vm_enqueue vm1 p; Ret (true, vm2)) =
    Ret (true, set_v_runq rq (set_v_wait_count (v_wait_count v - 1) (set_v_wait (unlink p (v_wait vm))
      (on_proc p (λ pr, set_p_wait_generation (u32 (p_wait_generation pr + 1)) (set_p_wait_registered false pr)) (on_proc p f v)))))).
  { intros f v Ep Ew Eq Hf. unfold wait_unregister_locked, get_proc. rewrite lookup_on_proc, decide_True, Ep, E by done.
    cbn [fmap option_fmap option_map or_undef mbind outcome_bind]. rewrite Hf. cbn [mbind outcome_bind]. unfold vm_enqueue.
    change (v_runq (set_v_wait_count _ _)) with (v_runq v). rewrite Eq, Hq. cbn [mbind outcome_bind].
    change (v_wait (on_proc p f v)) with (v_wait v). by rewrite Ew. }
  assert (Ha : ∀ g h, (∀ x, v_procs vm !! p = Some x → g (h x) = woken x) → alter g p (alter h p (v_procs vm)) = alter woken p (v_procs vm)).
  { intros g h Hg. apply map_eq. intros i. destruct (decide (i = p)) as [->|]; [|by rewrite !lookup_alter_ne].
    rewrite !lookup_alter_eq, E. simpl. by rewrite Hg. }
  destruct (bool_decide (p_state pr = PROC_WAIT_RECV)) eqn:Ew.
  - pose proof (bool_decide_eq_true_1 _ Ew) as Ew'. unfold wait_deadline in He. rewrite Ew' in He. rewrite He.
    change (set_state p PROC_RUNNING ?v) with (on_proc p (set_p_state PROC_RUNNING) v).
    replace (on_proc p (set_p_state PROC_RUNNING) (on_proc p (set_p_recv_deadline RECV_AFTER_EXPIRED) vm))
      with (on_proc p (set_p_state PROC_RUNNING ∘ set_p_recv_deadline RECV_AFTER_EXPIRED) vm)
      by (unfold on_proc; cbn; by rewrite alter_alter_eq).
    rewrite Hu by done. eexists. split; [done|]. split; [done|]. split; [|done]. apply Ha. intros x. rewrite E. intros [= <-].
    unfold woken. by rewrite Ew.
  - assert (Hio : p_state pr = PROC_WAIT_IO) by (apply bool_decide_eq_false in Ew; destruct (p_state pr); subst; naive_solver).
    rewrite (bool_decide_eq_true_2 _ Hio), Er. cbn [andb]. change (set_state p PROC_RUNNING vm) with (on_proc p (set_p_state PROC_RUNNING) vm).
    rewrite Hu by done. eexists. split; [done|]. split; [done|]. split; [|done]. apply Ha. intros x. rewrite E. intros [= <-].
    unfold woken. by rewrite Ew.
Qed.

(** Filtering, pointwise. *)
Lemma filter_ext_in {A} (P Q : A → Prop) `{∀ x, Decision (P x), ∀ x, Decision (Q x)} (l : list A) :
  (∀ x, x ∈ l → P x ↔ Q x) → filter P l = filter Q l.
Proof.
  induction l as [|x l IH]; intros H1; [done|]. rewrite !filter_cons, IH by set_solver.
  assert (P x ↔ Q x) by set_solver. destruct (decide (P x)), (decide (Q x)); naive_solver.
Qed.
Lemma unlink_middle p pre l : p ∉ pre → unlink p (pre ++ p :: l) = pre ++ l.
Proof.
  induction pre as [|x pre IH]; cbn [app unlink]; intros Hp; [by rewrite Z.eqb_refl|].
  destruct (Z.eqb_spec x p); [set_solver|]. rewrite IH by set_solver. done.
Qed.

Abbreviation due vm now := (filter (λ p, expired vm now p = true)).
Abbreviation undue vm now := (filter (λ p, expired vm now p = false)).
Record walked (vm vm' : VM) (now : Z) (held q l : list Z) : Prop := {
  wk_ok : sched_ok vm' held;
  wk_wait : v_wait vm' = undue vm now (v_wait vm);
  wk_queue : rq_repr (v_runq vm') (q ++ due vm now l);
  wk_procs : ∀ p, v_procs vm' !! p = if decide (p ∈ l ∧ expired vm now p = true) then woken <$> v_procs vm !! p else v_procs vm !! p
}.

(** A wake-up does not change what is due among the others. *)
Lemma expired_after_wake vm vm1 now pre p l :
  NoDup (pre ++ p :: l) → Forall (λ x, expired vm now x = false) pre → v_procs vm1 = alter woken p (v_procs vm) →
  (∀ x, x ∈ pre ++ l → expired vm1 now x = expired vm now x) ∧ due vm1 now (pre ++ l) = due vm now l.
Proof.
  intros N Hpre Hp1. assert (Hne : p ∉ pre ++ l) by (rewrite <- Permutation_middle in N; by apply NoDup_cons in N as [? _]).
  assert (He : ∀ x, x ∈ pre ++ l → expired vm1 now x = expired vm now x).
  { intros x Hx. unfold expired. rewrite Hp1, lookup_alter_ne by set_solver. done. }
  split; [done|]. rewrite (filter_ext_in _ (λ p, expired vm now p = true)) by (intros x Hx; by rewrite He). rewrite filter_app.
  rewrite (filter_none _ pre); [done|]. eapply Forall_impl; [exact Hpre|]. cbv beta. congruence.
Qed.
(** One wake-up before the rest of the walk. *)
Lemma walked_wake vm vm1 vm' now held q pre p l :
  NoDup (pre ++ p :: l) → v_wait vm = pre ++ p :: l → Forall (λ x, expired vm now x = false) pre → expired vm now p = true →
  v_wait vm1 = pre ++ l → v_procs vm1 = alter woken p (v_procs vm) → walked vm1 vm' now held (q ++ [p]) (pre ++ l) →
  walked vm vm' now held q (p :: l).
Proof.
  intros N Hw Hpre Hp Hw1 Hp1 [Hok Hwt Hq Hps].
  assert (Hne : p ∉ pre ++ l) by (rewrite <- Permutation_middle in N; by apply NoDup_cons in N as [? _]).
  destruct (expired_after_wake vm vm1 now pre p l) as [He Hdue]; [done..|]. rewrite Forall_forall in Hpre.
  split.
  - done.
  - rewrite Hwt, Hw1, Hw, (filter_ext_in _ (λ p, expired vm now p = false)) by (intros x Hx; by rewrite He).
    rewrite !filter_app, filter_cons_False by congruence. done.
  - rewrite filter_cons_True by done. by rewrite Hdue, <- app_assoc in Hq.
  - intros x. rewrite Hps, Hp1. destruct (decide (x = p)) as [->|Hx].
    + rewrite decide_False by naive_solver. rewrite lookup_alter_eq, decide_True by (split; [by left|done]). done.
    + rewrite lookup_alter_ne by done. destruct (decide (x ∈ pre)) as [Hin|Hin].
      * rewrite !decide_False; [done| |]; intros [Hxl Hex]; [rewrite (Hpre x Hin) in Hex; done|].
        rewrite He, (Hpre x Hin) in Hex by set_solver. done.
      * destruct (decide (x ∈ l)) as [Hxl|Hxl]; [|by rewrite !decide_False by set_solver].
        rewrite (He x) by set_solver. erewrite decide_ext; [done|]. set_solver.
Qed.

(** The walk, with the part of the list it has left behind. *)
Lemma poller_expire_walk now held fuel : ∀ vm q pre l,
  sched_ok vm held → rq_repr (v_runq vm) q → v_wait vm = pre ++ l → Forall (λ p, expired vm now p = false) pre →
  rq_tail (v_runq vm) + Z.of_nat (length (due vm now l)) < 2 ^ 31 → rq_cap (v_runq vm) < 2 ^ 30 →
  Z.of_nat (length q + length (due vm now l)) < 2 ^ 29 →
  (length l + length (due vm now l) * length (v_wait vm) ≤ fuel)%nat →
  ∃ vm', poller_expire fuel vm now l = Ret vm' ∧ walked vm vm' now held q l.
Proof.
  induction fuel as [|fuel IH]; intros vm q pre l Hok R Hw Hpre Ht Hc Hlen Hf; (destruct l as [|p l]).
  1,3: exists vm; rewrite app_nil_r in *; split; [done|]; split; [done| |by rewrite filter_nil, app_nil_r|];
       [by rewrite Hw, filter_all|]; intros p; rewrite decide_False; [done|]; by intros [?%elem_of_nil _].
  { cbn [length] in Hf. lia. }
  cbn [poller_expire]. destruct (expired vm now p) eqn:He.
  - destruct (so_wait_once _ _ Hok) as [N _]. rewrite Hw in N. rewrite filter_cons_True in Ht, Hlen, Hf by done. cbn [length] in *.
    assert (Hpre' : p ∉ pre) by (apply NoDup_app in N as (_&Hd&_); intros Hin; apply (Hd p Hin); by left).
    destruct (expire_one_spec vm held q now p) as (vm1&E1&Ew&Ep&R1&Ht1&Hc1); [done|done| |rewrite Hw; set_solver|done|].
    { split; lia. }
    rewrite E1. cbn [mbind outcome_bind]. rewrite Hw, unlink_middle in Ew by done. pose proof (expire_ok _ _ _ _ _ _ E1 Hok) as Hok1.
    destruct (expired_after_wake vm vm1 now pre p l) as [_ Hdue]; [done..|].
    destruct (IH vm1 (q ++ [p]) [] (pre ++ l)) as (vm'&E2&W); [done|done|done|constructor|rewrite Hdue; lia|lia| | |].
    + rewrite Hdue, length_app. cbn [length]. lia.
    + rewrite Hdue, Ew. rewrite Hw, !length_app in Hf. cbn [length] in Hf. rewrite !length_app. nia.
    + exists vm'. rewrite Ew. split; [done|]. by eapply (walked_wake vm vm1).
  - assert (Hsame : expire_one vm now p = Ret (false, vm)).
    { unfold expire_one, expired, get_proc in *. assert (Hin : p ∈ v_wait vm) by (rewrite Hw; set_solver).
      apply (so_wait _ _ Hok) in Hin as [s Hs]. unfold sched in Hs. destruct (v_procs vm !! p) as [pr|]; [|done].
      cbn [or_undef mbind outcome_bind]. cbv zeta. by rewrite He. }
    rewrite Hsame. cbn [mbind outcome_bind]. rewrite filter_cons_False in Ht, Hlen, Hf by congruence. cbn [length] in Hf.
    destruct (IH vm q (pre ++ [p]) l) as (vm'&E&[W1 W2 W3 W4]); [done|done|by rewrite <- app_assoc| |done|done|done|lia|].
    { apply Forall_app. split; [done|]. by constructor. }
    exists vm'. split; [done|]. split; [done|done|by rewrite filter_cons_False by congruence|].
    intros x. rewrite W4. apply decide_ext. rewrite elem_of_cons. split; [intros [? ?]; by auto|]. intros [[->|] ?]; [congruence|done].
Qed.

(** C11: the poller's expiry.  A walk over the wait list ends, although it
    starts over after each wake-up: with [n] waiting processes [n * (n + 1)]
    rounds are enough.  It wakes exactly the processes whose deadline has
    passed, in the order of the list, each into the run queue once; it marks an
    expired [recv_after] as such and leaves every other process alone. *)
Theorem poller_expire_spec vm held q now fuel :
  sched_ok vm held → rq_repr (v_runq vm) q →
  rq_tail (v_runq vm) + Z.of_nat (length (v_wait vm)) < 2 ^ 31 → rq_cap (v_runq vm) < 2 ^ 30 →
  Z.of_nat (length q + length (v_wait vm)) < 2 ^ 29 →
  (length (v_wait vm) * (length (v_wait vm) + 1) ≤ fuel)%nat →
  ∃ vm', poller_expire fuel vm now (v_wait vm) = Ret vm' ∧ walked vm vm' now held q (v_wait vm).
Proof.
  intros Hok R Ht Hc Hlen Hf. pose proof (length_filter (λ p, expired vm now p = true) (v_wait vm)) as Hl.
  apply (poller_expire_walk now held fuel vm q []); [done|done|done|constructor|lia|done|lia|nia].
Qed.

(** * Witnesses *)

(** Main waits in [recv_after(100)]. *)
Definition w_image : Image := mk_Image [LOP_CONST_I; 100; LOP_BUILTIN; LB_RECV_AFTER; 1; LOP_RET; 0] [0] [0] [8] [].
Definition w_cfunc (cf : Z) (vm : VM) (args : list Val) : outcome (Val * VM) := Ret (val_nil, vm).
Abbreviation w_instr := (step 65536 0 100 300 (λ _, 0) [] w_cfunc 0).
Abbreviation w_step := (pool_step 65536 0 100 300 (λ _, 0) [] w_cfunc 0).

Definition got (vm : VM) (x : outcome VM) : VM := match x with Ret v => v | _ => vm end.
Definition w_blank : VM :=
  mk_VM (mk_store ∅ ∅ [] 4096) ∅ ∅ 16 0 [] (runq_new 4) 0 0 w_image 0 false false false 0 symtab_new 0 0 [] 0 false 0 [] 0.
Definition w_new : VM := got w_blank (vm_new 300 (mk_store ∅ ∅ [] 4096) 16).
Definition w_host : VM := got w_blank ('(_, vm) ← host_entry w_new; Ret vm).
Definition w_ready : VM := got w_blank (vm_run_start 65536 (set_v_image w_image w_host) 0).
(** Taken by a worker, the constant loaded, blocked. *)
Definition w_taken : VM := on_proc 0 (set_p_has_acc false) (got w_blank ('(_, vm) ← worker_take w_ready; Ret vm)).
Definition w_regs0 : regs := resume (default (proc_init 0) (v_procs w_ready !! 0)).
Definition w_next : regs * Z * VM :=
  match w_instr w_regs0 MAX_REDUCTIONS w_taken 0 with Ret (Next r b vm) => (r, b, vm) | _ => (w_regs0, 0, w_blank) end.
Definition w_blocked : VM :=
  match w_instr w_next.1.1 w_next.1.2 w_next.2 0 with Ret (Done _ vm) => vm | _ => w_blank end.

Lemma w_cfunc_quiet cf vm args v vm' : w_cfunc cf vm args = Ret (v, vm') → quiet vm vm'.
Proof. unfold w_cfunc. intros H. apply Ret_inj, pair_equal_spec in H as [_ <-]. reflexivity. Qed.
Lemma w_started :
  vm_new 300 (mk_store ∅ ∅ [] 4096) 16 = Ret w_new ∧ host_entry w_new = Ret (0, w_host) ∧
  vm_run_start 65536 (set_v_image w_image w_host) 0 = Ret w_ready.
Proof. split_and!; vm_compute; reflexivity. Qed.
Lemma w_reach_taken : rtc w_step (w_ready, []) (w_taken, [mk_worker 0 w_regs0 MAX_REDUCTIONS]).
Proof. apply rtc_once, ps_take; vm_compute; reflexivity. Qed.
Lemma w_reach_blocked : rtc w_step (w_ready, []) (w_blocked, []).
Proof.
  etrans; [exact w_reach_taken|]. eapply rtc_l; [apply (ps_next _ _ _ _ _ _ _ _ _ 0 w_regs0 MAX_REDUCTIONS w_next.1.1 w_next.1.2 w_next.2 [] []); vm_compute; reflexivity|].
  apply rtc_once. apply (ps_done _ _ _ _ _ _ _ _ _ 0 w_next.1.1 w_next.1.2 R_BLOCKED w_blocked w_blocked [] []); vm_compute; reflexivity.
Qed.


(** Main ends at once. *)
Definition w_end_image : Image := mk_Image [LOP_RET; 0] [0] [0] [8] [].
Definition w_end_ready : VM := got w_blank (vm_run_start 65536 (set_v_image w_end_image w_host) 0).
Definition w_end_taken : VM := on_proc 0 (set_p_has_acc false) (got w_blank ('(_, vm) ← worker_take w_end_ready; Ret vm)).
Definition w_ended : VM := match w_instr w_regs0 MAX_REDUCTIONS w_end_taken 0 with Ret (Done _ vm) => vm | _ => w_blank end.
Lemma w_reach_ended : rtc w_step (w_end_ready, []) (w_ended, []).
Proof.
  eapply rtc_l; [apply (ps_take _ _ _ _ _ _ _ _ _ (got w_blank ('(_, vm) ← worker_take w_end_ready; Ret vm)) 0 (default (proc_init 0) (v_procs w_ready !! 0))); vm_compute; reflexivity|].
  apply rtc_once. apply (ps_done _ _ _ _ _ _ _ _ _ 0 w_regs0 MAX_REDUCTIONS R_DIED w_ended w_ended [] []); vm_compute; reflexivity.
Qed.

Lemma w_blocked_ok : sched_ok w_blocked [].
Proof.
  destruct w_started as (H1&H2&H3).
  exact (reachable_ok 65536 0 100 300 (λ _, 0) [] w_cfunc 0 w_cfunc_quiet _ _ _ _ _ _ _ _ _ [] H1 H2 H3 w_reach_blocked).
Qed.
Lemma poller_expire_witness :
  v_wait w_blocked = [0] ∧ ∃ vm', poller_expire 2 w_blocked 200 (v_wait w_blocked) = Ret vm' ∧ walked w_blocked vm' 200 [] [] (v_wait w_blocked).
Proof.
  split; [vm_compute; reflexivity|].
  assert (Hq : rq_repr (v_runq w_blocked) []).
  { destruct (so_queue _ _ w_blocked_ok) as (q&R&_). pose proof (rr_count _ _ R) as Hc. destruct q; [exact R|]. vm_compute in Hc. discriminate Hc. }
  apply (poller_expire_spec w_blocked [] [] 200 2 w_blocked_ok Hq); vm_compute; (reflexivity || lia).
Defined.
